(* ===== verification/_CoqProject ===== *)
-Q . S2P
Prelude.v
Interleave.v
History.v
CString.v
Backoff.v
Breaker.v
ProcfsIo.v
LibpmTests.v
KvParser.v
MemReader.v
DropOldest.v
Fifo.v
FifoRace.v
Rooms.v
Dedup.v
ReqQueue.v
Protocol.v
NetConn.v
ReqHandler.v
Workers.v
WorkersReplies.v
WorkersLive.v
Cli.v
Recv.v
StressWriter.v
StressClient.v
StressSession.v
RecvRun.v
Log.v
SharedLog.v
Coords.v
Pipeline.v
NetServer.v
NetSetup.v
Server.v
EndToEnd.v
Kernel.v
KernelSeq.v
KernelSystem.v
KSelf.v
Config.v
Daemon.v
XmlLoader.v
RoomStore.v
VtsAdapter.v
LocGen.v
