(* ===== verification/Prelude.v ===== *)
(** * Process Monitor: a verification library

    The repository is a small monitoring system in C.  A kernel module samples every CPU and
    publishes the samples through procfs; a user library (libpm) reads and writes procfs files
    with retries, a timeout and a circuit breaker; a daemon (vts) collects lines from a FIFO
    into a rotating log and serves requests over TCP and UDP; a command-line client
    (system-monitor) and a room generator (locgend) send it requests.  This library models each
    part as executable definitions, in the order and with the branches of the code, and proves
    what makes it correct; where the code does not do what it means to, the theorem states what
    it does.

    ** Conventions

    Machine integers are [Z] with the wrap-around written out ([u16], [u32], [u64], [s32],
    [wraps]); sizes and indices of arrays are [nat].  A buffer is the list of its bytes, a C
    string the bytes before the NUL (CString.v).  Stateful code runs in [mon S]: explicit state,
    [Undef] for what the C standard leaves undefined (a use after free, an access outside an
    array, a NULL stream) and [NoFuel] for a loop that has used up its fuel, so that a theorem
    with [Done] also says that memory is safe and the loop ends.  [wp] is the weakest
    precondition of that monad.  What the system answers to a call - reads, writes, sockets,
    clocks, allocation - is an argument of the definition, and the theorems quantify over it.

    ** Parts, files and code

    Shared
    - Prelude.v: integers, the monad, schedules of steps, rings of slots, tactics;
      Interleave.v: interleavings of lists; History.v: programs whose state is the history of
      their system calls; CString.v: <string.h>, [atoi], [snprintf],
      [fgets]; DropOldest.v: the interface of a bounded queue that drops its oldest
      element, with the theorem that an implementation meeting its laws refines the queue of
      lists; two components are instances of it.
    libpm (src/userspace/libpm)
    - Backoff.v (include/backoff.h), Breaker.v (src/circuit_breaker.c), ProcfsIo.v
      (src/procfs_io.c), KvParser.v (src/parser.c).  ProcfsIo has the class [OS] of operating
      systems, whose calls may answer anything, and [OSLaws], the documented promises.
      LibpmTests.v has the tests of src/tests/libpm as programs over these parts.
    vts (src/userspace/vts)
    - Fifo.v (fifo.c, sequential: an instance of DropOldest) and FifoRace.v (its accesses
      interleaved between the two threads); Recv.v (threads_recv.c; RecvRun.v has the same
      thread with its system calls, from set-up to end) fills the ring, Coords.v
      (threads_coords.c) empties it into the log of Log.v (log_write.c; SharedLog.v interleaves
      its two writers, call by call, with any answers of [fopen]); Pipeline.v runs receiver, ring
      accesses of FifoRace, coordinator and log as one system of threads, with the stop request
      and the shutdown of main.c.
    - NetConn.v (one TCP connection of net_server.c, a frame decoder) and NetServer.v (the
      handling of its events) push requests into the queue of ReqQueue.v (req_handler.c; an
      instance of DropOldest); NetSetup.v puts the sockets, the wait loop and the clean-up
      around them.  Rooms.v and Dedup.v are the two tables of req_handler.c, ReqHandler.v
      handles one request over them, and Workers.v runs any number of worker threads over
      queue, tables, log and sockets, their critical sections and calls interleaved;
      WorkersReplies.v has the account of their replies and WorkersLive.v that they finish.
      Server.v runs the network thread of NetServer and the workers as one system.
      Protocol.v is vts_protocol.h and io_util.h.
    - Config.v (vts_config.c) and Daemon.v (main.c).
    load generators (src/tests/vts): StressWriter.v (stress_writer.c, joined to Recv.v);
      StressClient.v (stress_client.c) and StressSession.v, its threads joined to ReqHandler.v.
    client (src/cli): Cli.v (system_monitor.c), joined to ReqHandler; EndToEnd.v runs it against
      the threads of Server.v.
    locgend (src/userspace/loc_gen)
    - XmlLoader.v (xml_loader.c, compat_shim.c), RoomStore.v (room_store.c), VtsAdapter.v
      (vts_adapter.c, joined to ReqHandler), MemReader.v (room_mem_reader.c, over ProcfsIo),
      LocGen.v (loc_main.c, over all of these).
    kernel (src/kernel/my_driver)
    - Kernel.v (pm_core.c, pm_cpu.c, pm_procfs.c) has the work item and the config file,
      KernelSeq.v the samples and the status file under the seqlock, a class [SeqLock] with
      the kernel's promises [SeqLockLaws] and a counter as an instance; KernelSystem.v runs
      both as one system; KSelf.v has the
      self-tests, joined to Kernel.v and to the paths of libpm.

    ** What the theorems show

    - A command from end to end: the client's bytes reach the workers through the network
      thread, the command takes place once, between the commands of others, and the client
      prints its own reply ([command_end_to_end]).
    - The server from end to end: every frame that a client's bytes hold and every datagram is
      answered once, with its own reply, on its own descriptor, or dropped by a queue of more
      than 10240 requests ([server_end_to_end]).
    - Refinement of an abstract specification: the event loop is one decoder per connection
      ([server_refines]), a connection is the byte-by-byte decoder ([read_from_conn_decodes]),
      the ring and the request queue are drop-oldest queues ([fifo_refines],
      [req_queue_refines]), the registry is a set of 64 names ([rooms_refine_set]), the cache a
      window of 4096 results ([dedup_refines_window]), the handler answers as a specification
      over both ([serve_refines]), the log rotates three files ([log_rotates]), every run of
      the breaker is one of an abstract breaker ([breaker_refines]), the room store is a finite map
      ([room_store_refines_map]), the key=value parser is a look-up over lines
      ([parse_kv_first_line]).
    - Termination and resources: libpm's reads and writes, [write_full], the retry loops of the
      client and the adapter, the drain loop, snapshots, the application of a file and the
      self-test ([kself_main_outcome], which has its calls one by one) end, within stated
      bounds, and leave no descriptor or node behind; what a read or a write of libpm returns,
      counts, reports and stores is the account of the system's answers
      ([read_text_file_total]); the adapter stays in its buffer except for a reply that
      announces 2^32-1 bytes ([adapter_retries], [apply_from_xml_outcome]), and the text of the
      rooms in its array ([loc_read_rooms_text], over stores that are undefined outside it); the server and the receiver close each descriptor once
      ([no_descriptor_leaks], [recv_thread_runs]); a configuration is well typed whatever the file
      holds ([config_well_typed]).
    - Round trips and end-to-end: what the pipe delivers reaches the log, in order and once,
      however the accesses of the threads interleave ([pipeline_delivers]), in runs that meet
      neither a full ring nor a log that cannot be opened - all runs with fewer bytes than the
      ring has slots and a log that can be written ([few_bytes_are_smooth]), while without
      either condition a run can be undefined ([pipeline_hazards]) - and up to a line lost at
      shutdown ([line_lost_at_shutdown]); frames, replies and room files are read back
      ([frames_arrive], [cli_reads_reply], [rooms_loaded]); a client command changes the server's
      set of rooms as it means to ([cli_command_effect]); the numbered lines of the stress writer
      are pushed by the receiver as they were written ([writer_lines_arrive]), and every request
      of the stress client is answered OK ([stress_session_ok]).
    - The repository's own tests: the fake-tree tests of libpm pass on every well-behaved system
      that has the tree they ask for ([fake_tree_tests_pass]); the test of the breaker cannot
      ([test_cb_fails]); the threads of the stress client end and give back what they take
      ([stress_threads_run]).
    - Concurrency: the workers serve commands as if one after the other, in the order of their
      critical sections ([workers_serialize]), each for one reply, and every write answers a
      request of its own client ([replies_are_justified]); one worker alone does what the
      sequential handler does ([worker_alone_serves]); messages and results in one log stay whole
      unless a [fopen] of the coordinator fails, which the code does not survive
      ([log_texts_whole], [failed_open_undefined]); every request is answered once
      ([every_request_answered]); replies on one connection and requests under one id can get in each other's way
      ([replies_interleave], [same_id_runs_twice]); the ring is safe between two threads as
      long as it does not overflow and racy when it does ([spsc_safe], [drop_oldest_races]); the sampler runs exactly while it is
      enabled with one writer of the config file, and then for ever, and can be lost with two
      ([single_writer_ticks], [sampler_lives], [start_stop_race]); what a reader of the status
      file prints last is one update's samples, whatever the sampler does meanwhile
      ([status_is_consistent]), and after a stop it is the last update's, and the state
      ([module_status_after_stop]).
    - Behaviour that differs from the intention: the receiver after a hang-up, the result log
      after a rotation, replies to a reused descriptor, rooms applied by locgend, the wrapped
      length check, sleeps in seconds, the configuration that is loaded last.

    ** Bounds and fuel

    Every loop that is not structural takes fuel, and its theorem gives a fuel that is enough:
    the configured timeout over the least sleep (ProcfsIo, [fuel_enough]), the bytes still to be
    read plus two (NetConn, NetServer [read_fuel]), the number of retries plus two (Cli), the
    length of the text plus one (XmlLoader, KvParser), the nodes in use plus one (RoomStore), the
    messages in the ring plus one (Coords, Fifo), five attempts (VtsAdapter).  The workers need
    seven turns each per request (WorkersLive); the server eight rounds per request and one per
    event (Server); the log six turns per line and two per result
    (SharedLog); a reader of the status file 4n + 6 steps without a writer (KernelSeq, where
    fewer than 2^31 updates keep the counter from coming round).  The fuel of
    StressClient covers the interruptions and the largest reply, that of StressWriter the calls
    of a minute.  The clock of
    ProcfsIo starts below 2^40 seconds and no single call takes longer than that.

    ** Not modelled

    - Threads as the system schedules them: a critical section under a mutex is one step, a
      condition variable wakes any waiting worker.  Pipeline (receiver, coordinator) and Server
      (network thread, workers) interleave their own threads; the log, which the two share, is
      modelled apart in each and for both writers in SharedLog, and cancelling the network
      thread at shutdown is not modelled.
    - Results that the code does not look at: setsockopt, epoll_ctl (also in thr_recv),
      pthread_create in req_handler.c, rename, fprintf and fflush in log_write.c.  A reply of
      the server is written by complete calls: [write_full] itself is in Protocol.v with any
      answers, but that the workers drop its result, so that a connection can be left with a
      part of a reply, is a finding and not part of Workers.v.
    - Memory exhaustion where the code does not check for it (req_queue_push, fifo.c, xml_loader.c,
      room_store.c), and that of [vts_fifo_init], with which the daemon does not start; weak
      memory orders (FifoRace and KernelSeq are sequentially consistent).
    - [sscanf] in Kernel.v is an argument; the kernel's work queue, seqlock and procfs are
      described by their documented behaviour in Kernel.v and KernelSeq.v; CPUs do not come
      or go.
    - Generated code, scripts, the empty files (test_libpm_data.c is one), vts_net.h, whose
      functions are defined nowhere, and [trim] of xml_loader.c, which nothing calls.  [getopt]
      is an argument of StressClient.v: the options that it returns.

    ** Plan

    Several readers of the status file at once; Pipeline and Server over the log of SharedLog;
    replies cut short in Workers. *)
From stdpp Require Import prelude strings list gmap.
From Stdlib Require Import ZArith Lia.

Declare Scope pm_scope.
Delimit Scope pm_scope with pm.
Open Scope pm_scope.

(** ** Machine integers *)

(** Conversion to an unsigned type of [w] bits. *)
Definition wrapu (w z : Z) : Z := (z mod 2 ^ w)%Z.

(** Conversion to a signed two's complement type of [w] bits. *)
Definition wraps (w z : Z) : Z :=
  ((z + 2 ^ (w - 1)) mod 2 ^ w - 2 ^ (w - 1))%Z.

Definition u16 : Z → Z := wrapu 16.
Definition u32 : Z → Z := wrapu 32.
Definition u64 : Z → Z := wrapu 64.
Definition s32 : Z → Z := wraps 32.

(** The range predicates, decidable by computation. *)
Definition in_u (w z : Z) : Prop := (0 ≤ z < 2 ^ w)%Z.
Definition in_s (w z : Z) : Prop := (- 2 ^ (w - 1) ≤ z < 2 ^ (w - 1))%Z.

#[export] Instance in_u_dec w z : Decision (in_u w z).
Proof. unfold in_u; apply _. Defined.
#[export] Instance in_s_dec w z : Decision (in_s w z).
Proof. unfold in_s; apply _. Defined.

(** ** A monad for C code: state passing, undefined behaviour and fuel

    [mon S A] is a computation on the state [S].  [Undef] stands for a step the C standard
    leaves undefined (a use after free, a double free, a NULL stream, an out of bounds
    access); [NoFuel] says that a loop's fuel ran out and nothing else.  A theorem that
    produces [Done] therefore also says that neither happens. *)
Inductive res (A : Type) : Type :=
  | Done (a : A)
  | Undef
  | NoFuel.
Arguments Done {A} a.
Arguments Undef {A}.
Arguments NoFuel {A}.

Definition mon (S A : Type) : Type := S → res (A * S).

#[export] Instance mon_ret {S} : MRet (mon S) := λ A (a : A) s, Done (a, s).
#[export] Instance mon_bind {S} : MBind (mon S) := λ A B (k : A → mon S B) (m : mon S A) s,
  match m s with
  | Done (a, s') => k a s'
  | Undef => Undef
  | NoFuel => NoFuel
  end.

Definition gets {S A} (f : S → A) : mon S A := λ s, Done (f s, s).
Definition modify {S} (f : S → S) : mon S unit := λ s, Done (tt, f s).
Definition undefined {S A} : mon S A := λ _, Undef.
Definition no_fuel {S A} : mon S A := λ _, NoFuel.
(** A partial access: [None] is undefined behaviour. *)
Definition lift {S A} (o : option A) : mon S A :=
  λ s, match o with Some a => Done (a, s) | None => Undef end.

(** A C [int] used as a truth value. *)
Definition bool_of_int (z : Z) : bool := negb (Z.eqb z 0).

(** ** Lemmas on machine integers *)

Create HintDb pm discriminated.
#[export] Hint Constants Transparent : pm.

Lemma wrapu_small w z : in_u w z → wrapu w z = z.
Proof. intros H. by apply Z.mod_small. Qed.

Lemma wrapu_range w z : (0 ≤ w)%Z → in_u w (wrapu w z).
Proof. intros. apply Z.mod_pos_bound. lia. Qed.

Lemma wraps_small w z : (0 < w)%Z → in_s w z → wraps w z = z.
Proof.
  unfold in_s, wraps. intros Hw H.
  assert (2 ^ w = 2 * 2 ^ (w - 1))%Z as E.
  { rewrite <- Z.pow_succ_r by lia. f_equal. lia. }
  rewrite Z.mod_small; lia.
Qed.

Lemma bool_of_int_true z : bool_of_int z = true ↔ z ≠ 0%Z.
Proof. unfold bool_of_int. rewrite negb_true_iff. apply Z.eqb_neq. Qed.

Lemma bool_of_int_false z : bool_of_int z = false ↔ z = 0%Z.
Proof. unfold bool_of_int. rewrite negb_false_iff. apply Z.eqb_eq. Qed.

#[export] Hint Resolve wrapu_range : pm.

(** ** Total correctness of monadic code

    [wp m s Q]: [m] run from [s] is done, with a result and a final state in [Q]. *)
Definition wp {S A} (m : mon S A) (s : S) (Q : A → S → Prop) : Prop :=
  match m s with Done (a, s') => Q a s' | _ => False end.

Section wp.
Context {S : Type}.

Lemma wp_done {A} (m : mon S A) s Q :
  wp m s Q ↔ ∃ a s', m s = Done (a, s') ∧ Q a s'.
Proof. unfold wp. destruct (m s) as [[a s']| |]; naive_solver. Qed.

Lemma wp_ret {A} (a : A) (s : S) (Q : A → S → Prop) : Q a s → wp (mret a) s Q.
Proof. done. Qed.

Lemma wp_bind {A B} (m : mon S A) (k : A → mon S B) s Q :
  wp m s (λ a s', wp (k a) s' Q) → wp (m ≫= k) s Q.
Proof. unfold wp, mbind, mon_bind. by destruct (m s) as [[a s']| |]. Qed.

Lemma wp_gets {A} (f : S → A) s (Q : A → S → Prop) : Q (f s) s → wp (gets f) s Q.
Proof. done. Qed.

Lemma wp_modify (f : S → S) s (Q : unit → S → Prop) : Q tt (f s) → wp (modify f) s Q.
Proof. done. Qed.

Lemma wp_mono {A} (m : mon S A) s (P Q : A → S → Prop) :
  wp m s P → (∀ a s', P a s' → Q a s') → wp m s Q.
Proof. unfold wp. destruct (m s) as [[a s']| |]; auto. Qed.
End wp.

(** One step of symbolic execution. *)
Ltac wp_step :=
  lazymatch goal with
  | |- wp (_ ≫= _) _ _ => apply wp_bind
  | |- wp (mret _) _ _ => apply wp_ret
  | |- wp (gets _) _ _ => apply wp_gets
  | |- wp (modify _) _ _ => apply wp_modify
  | |- wp (lift (Some _)) _ _ => apply wp_ret
  | |- wp (if ?b then _ else _) _ _ => let E := fresh "Hb" in destruct b eqn:E
  | |- wp (match ?x with _ => _ end) _ _ => let E := fresh "Hm" in destruct x eqn:E
  | |- wp (let '(_, _) := ?x in _) _ _ => let E := fresh "Hp" in destruct x eqn:E
  end; cbv beta.

Lemma wp_eq {S A} (m m' : mon S A) s Q : m s = m' s → wp m' s Q → wp m s Q.
Proof. unfold wp. by intros ->. Qed.

Lemma wp_and {S A} (m : mon S A) s (Q R : A → S → Prop) :
  wp m s Q → wp m s R → wp m s (λ a s', Q a s' ∧ R a s').
Proof. unfold wp. destruct (m s) as [[a s']| |]; [by split|done..]. Qed.

(** [wpu m s Q U]: [m] run from [s] is done, with a result and a final state in [Q], or it is
    undefined, and then [U]. *)
Definition wpu {S A} (m : mon S A) (s : S) (Q : A → S → Prop) (U : Prop) : Prop :=
  match m s with Done (a, s') => Q a s' | Undef => U | NoFuel => False end.

Section wpu.
Context {S : Type}.

Lemma wpu_bind {A B} (m : mon S A) (k : A → mon S B) s Q U :
  wpu m s (λ a s', wpu (k a) s' Q U) U → wpu (m ≫= k) s Q U.
Proof. unfold wpu, mbind, mon_bind. by destruct (m s) as [[a s']| |]. Qed.

Lemma wpu_wp {A} (m : mon S A) s (Q : A → S → Prop) U : wp m s Q → wpu m s Q U.
Proof. unfold wp, wpu. by destruct (m s) as [[a s']| |]. Qed.

Lemma wpu_mono {A} (m : mon S A) s (P Q : A → S → Prop) (U V : Prop) :
  wpu m s P U → (∀ a s', P a s' → Q a s') → (U → V) → wpu m s Q V.
Proof. unfold wpu. destruct (m s) as [[a s']| |]; auto. Qed.
End wpu.

(** ** Schedules

    Steps of several threads one after the other, with what they tell.  A measure that every
    step brings down, unless its thread is stuck, is used up by rounds that give each thread a
    turn, when all threads are stuck only at 0.  [X] is what an invariant knows of a state. *)
Section schedules.
Context {S L A : Type} (step : L → mon S (option A)).

Fixpoint run_steps (ls : list L) : mon S (list A) :=
  match ls with
  | [] => mret []
  | l :: ls => e ← step l; es ← run_steps ls; mret (option_list e ++ es)
  end.

Lemma run_steps_app ls1 ls2 s (Q : list A → S → Prop) :
  wp (run_steps ls1) s (λ es1 s1, wp (run_steps ls2) s1 (λ es2 s2, Q (es1 ++ es2) s2)) →
  wp (run_steps (ls1 ++ ls2)) s Q.
Proof.
  revert s Q. induction ls1 as [|l ls1 IH]; intros s Q H; cbn [app run_steps] in *; [done|].
  unfold wp, mbind, mon_bind in *. destruct (step l s) as [[e s1]| |]; [|done..].
  specialize (IH s1 (λ es, Q (option_list e ++ es))). unfold wp in IH.
  destruct (run_steps ls1 s1) as [[es1 s2]| |]; [|done..]. cbn in H.
  destruct (run_steps (ls1 ++ ls2) s1) as [[es s3]| |]; apply IH;
    destruct (run_steps ls2 s2) as [[es2 s4]| |]; try done; by rewrite app_assoc.
Qed.

Lemma run_steps_split ls1 ls2 s :
  run_steps (ls1 ++ ls2) s =
  match run_steps ls1 s with
  | Done (es1, s1) =>
    match run_steps ls2 s1 with
    | Done (es2, s2) => Done (es1 ++ es2, s2)
    | Undef => Undef
    | NoFuel => NoFuel
    end
  | Undef => Undef
  | NoFuel => NoFuel
  end.
Proof.
  revert s. induction ls1 as [|l ls1 IH]; intros s; cbn [app run_steps].
  - cbn. by destruct (run_steps ls2 s) as [[es2 s2]| |].
  - unfold mbind, mon_bind. destruct (step l s) as [[e s1]| |]; [|done..]. rewrite IH.
    destruct (run_steps ls1 s1) as [[es1 s2]| |]; [|done..]. cbn.
    destruct (run_steps ls2 s2) as [[es2 s3]| |]; [|done..]. cbn. by rewrite app_assoc.
Qed.

(** An invariant of the states and of what has been told. *)
Lemma run_steps_inv (I : list A → S → Prop) ls es s :
  (∀ l es s, I es s → wp (step l) s (λ e s', I (es ++ option_list e) s')) →
  I es s → wp (run_steps ls) s (λ es' s', I (es ++ es') s').
Proof.
  intros Hstep. revert es s. induction ls as [|l ls IH]; intros es s Hs; cbn [run_steps].
  - apply wp_ret. by rewrite app_nil_r.
  - apply wp_bind. eapply wp_mono; [by apply Hstep|]. intros e s1 H1. cbv beta. apply wp_bind.
    eapply wp_mono; [exact (IH _ _ H1)|]. intros es' s2 H2. apply wp_ret. rewrite app_assoc. exact H2.
Qed.

Context {X : Type} (I : S → X → Prop) (m : S → X → nat) (stuck : L → S → X → Prop) (round : list L).
Context (Hstep : ∀ l s x, I s x → wp (step l) s (λ _ s', ∃ x', I s' x' ∧
  (m s' x' < m s x ∨ s' = s ∧ x' = x ∧ stuck l s x))).

Lemma run_steps_turns ls s x :
  I s x → wp (run_steps ls) s (λ _ s', ∃ x', I s' x' ∧
    (m s' x' < m s x ∨ s' = s ∧ x' = x ∧ ∀ l, l ∈ ls → stuck l s x)).
Proof.
  revert s x. induction ls as [|l ls IH]; intros s x Hs; cbn [run_steps].
  - apply wp_ret. exists x. split; [done|]. right. split_and!; [done..|]. by intros l ?%not_elem_of_nil.
  - apply wp_bind. eapply wp_mono; [by apply Hstep|]. intros e s1 (x1 & H1 & Hm). cbv beta.
    apply wp_bind. eapply wp_mono; [by apply (IH s1 x1)|]. intros es s2 (x2 & H2 & Hm2).
    apply wp_ret. exists x2. split; [done|]. destruct Hm as [Hm|(-> & -> & Hl)].
    + left. destruct Hm2 as [?|(-> & -> & _)]; lia.
    + destruct Hm2 as [?|(-> & -> & H)]; [by left|right]. split_and!; try done.
      intros j [->|Hj]%elem_of_cons; [done|by apply H].
Qed.

Context (Hround : ∀ s x, I s x → (∀ l, l ∈ round → stuck l s x) → m s x = 0).

Lemma run_steps_rounds k s x :
  I s x → wp (run_steps (concat (replicate k round))) s (λ _ s', ∃ x', I s' x' ∧ m s' x' ≤ m s x - k).
Proof.
  revert s x. induction k as [|k IH]; intros s x Hs; cbn [replicate concat].
  - apply wp_ret. exists x. split; [done|lia].
  - apply run_steps_app. eapply wp_mono; [by eapply run_steps_turns|].
    intros es s1 (x1 & H1 & Hm1). eapply wp_mono; [by apply (IH s1 x1)|].
    intros es2 s2 (x2 & H2 & Hm2). exists x2. split; [done|].
    destruct Hm1 as [?|(-> & -> & Hst)]; [lia|]. rewrite (Hround s x Hs Hst) in Hm2. lia.
Qed.
End schedules.

Lemma run_steps_fmap {S L K A} (f : K → L) (step : L → mon S (option A)) ls s :
  run_steps step (f <$> ls) s = run_steps (λ k, step (f k)) ls s.
Proof.
  revert s. induction ls as [|l ls IH]; intros s; [done|]. cbn [fmap list_fmap run_steps].
  unfold mbind, mon_bind. destruct (step (f l) s) as [[e s1]| |]; [|done..].
  change (list_fmap _ _ f ls) with (f <$> ls). by rewrite IH.
Qed.

(** ** Rings

    A ring of [length t] slots read from slot [h] on, and the index of its [i]th slot. *)
Definition rotation {A} (h : nat) (t : list A) : list A := drop h t ++ take h t.

Definition slot (cap h i : nat) : nat := if h + i <? cap then h + i else h + i - cap.

Lemma length_rotation {A} h (t : list A) : length (rotation h t) = length t.
Proof. unfold rotation. rewrite length_app, length_drop, length_take. lia. Qed.

Lemma rotation_lookup {A} (t : list A) h i :
  h < length t → i < length t → rotation h t !! i = t !! slot (length t) h i.
Proof.
  intros Hh Hi. unfold rotation, slot. destruct (Nat.ltb_spec (h + i) (length t)).
  - rewrite lookup_app_l by (rewrite length_drop; lia). apply lookup_drop.
  - rewrite lookup_app_r by (rewrite length_drop; lia). rewrite length_drop.
    rewrite lookup_take_lt by lia. f_equal. lia.
Qed.

Lemma slot_lt cap h i : h < cap → i < cap → slot cap h i < cap.
Proof. unfold slot. destruct (Nat.ltb_spec (h + i) cap); lia. Qed.

Lemma slot_inj cap h i j :
  h < cap → i < cap → j < cap → slot cap h i = slot cap h j → i = j.
Proof.
  unfold slot. destruct (Nat.ltb_spec (h + i) cap), (Nat.ltb_spec (h + j) cap); lia.
Qed.

Lemma rotation_insert {A} (t : list A) h i x :
  h < length t → i < length t →
  rotation h (<[slot (length t) h i := x]> t) = <[i := x]> (rotation h t).
Proof.
  intros Hh Hi. apply list_eq. intros j.
  destruct (decide (j < length t)) as [Hj|Hj].
  2:{ rewrite !lookup_ge_None_2; [done|..]; rewrite ?length_insert, length_rotation, ?length_insert; lia. }
  rewrite rotation_lookup by (rewrite length_insert; lia). rewrite length_insert.
  destruct (decide (i = j)) as [->|Hne].
  - rewrite !list_lookup_insert_eq; [done|by rewrite length_rotation|by apply slot_lt].
  - rewrite !list_lookup_insert_ne; [by rewrite rotation_lookup|done|].
    by intros E%slot_inj.
Qed.

(** A full ring's oldest slot is overwritten and becomes its newest. *)
Lemma rotate_step {A} (t : list A) p e :
  p < length t →
  let t' := <[p := e]> t in
  let p' := (p + 1) mod length t in
  p' < length t ∧ rotation p' t' = tail (rotation p t) ++ [e].
Proof.
  intros Hp t' p'. unfold rotation. destruct (lookup_lt_is_Some_2 t p Hp) as [x Hx].
  rewrite (drop_S _ _ _ Hx). cbn [tail app]. rewrite <- app_assoc.
  assert (t' = take p t ++ e :: drop (S p) t) as -> by (apply insert_take_drop; done).
  assert (length (take p t) = p) as Hl by (rewrite length_take; lia).
  destruct (decide (S p = length t)) as [E|E].
  - assert (p' = 0) as -> by (unfold p'; rewrite Nat.add_1_r, E; apply Nat.Div0.mod_same).
    split; [lia|]. cbn [drop take]. rewrite app_nil_r, !(drop_ge t (S p)) by lia. done.
  - assert (p' = S p) as -> by (unfold p'; rewrite Nat.mod_small; lia).
    split; [lia|]. rewrite take_app, drop_app, Hl.
    rewrite (take_ge (take p t) (S p)), (drop_ge (take p t) (S p)) by lia. replace (S p - p) with 1 by lia. done.
Qed.

(** ** Tactics *)

(** A decidable claim on concrete data. *)
Ltac by_evaluation := apply (bool_decide_eq_true_1 _); vm_compute; reflexivity.

(** Turn boolean comparisons in the context into propositions that [lia] reads. *)
Ltac b2p :=
  repeat match goal with
  | H : context [bool_of_int ?z] |- _ =>
      let E := fresh "E" in
      destruct (bool_of_int z) eqn:E;
      [apply bool_of_int_true in E | apply bool_of_int_false in E]
  | |- context [bool_of_int ?z] =>
      let E := fresh "E" in
      destruct (bool_of_int z) eqn:E;
      [apply bool_of_int_true in E | apply bool_of_int_false in E]
  | H : (_ && _) = true |- _ => apply andb_prop in H as [? ?]
  | H : (_ <=? _)%Z = true |- _ => apply Z.leb_le in H
  | H : (_ <=? _)%Z = false |- _ => apply Z.leb_gt in H
  | H : (_ <? _)%Z = true |- _ => apply Z.ltb_lt in H
  | H : (_ <? _)%Z = false |- _ => apply Z.ltb_ge in H
  | H : (_ =? _)%Z = true |- _ => apply Z.eqb_eq in H
  | H : (_ =? _)%Z = false |- _ => apply Z.eqb_neq in H
  end.

(** Case analysis on every test of the goal, comparisons made propositions. *)
Ltac tests :=
  repeat (case_match; try congruence); b2p; simplify_eq/=.
