(* ===== verification/Interleave.v ===== *)
(** * Interleave: interleavings of lists

    What several threads write one after the other to one output: the lists of the writes of
    each, merged in some way that keeps the order of each list. *)
From stdpp Require Import prelude list.
From Stdlib Require Import Lia.
From S2P Require Import Prelude.

Section interleave.
Context {X : Type}.
Implicit Types (xs l : list X) (ls : list (list X)).

(** [merges ls l]: [l] is an interleaving of the lists [ls], whatever their order. *)
Inductive merges : list (list X) → list X → Prop :=
  | merges_nil : merges [] []
  | merges_empty ls l : merges ls l → merges ([] :: ls) l
  | merges_snoc xs ls l x : merges (xs :: ls) l → merges ((xs ++ [x]) :: ls) (l ++ [x])
  | merges_perm ls ls' l : ls ≡ₚ ls' → merges ls l → merges ls' l.

#[export] Instance merges_Permutation : Proper ((≡ₚ) ==> eq ==> iff) merges.
Proof. intros ls ls' H l ? <-. by split; apply merges_perm. Qed.

Lemma merges_app xs ls l new : merges (xs :: ls) l → merges ((xs ++ new) :: ls) (l ++ new).
Proof.
  intros H. induction new as [|x new IH] using rev_ind; [by rewrite !app_nil_r|].
  rewrite !app_assoc. by apply merges_snoc.
Qed.

Lemma merges_concat ls l : merges ls l → l ≡ₚ concat ls.
Proof.
  induction 1 as [|ls l _ IH|xs ls l x _ IH|ls ls' l Hls _ IH]; cbn [concat] in *.
  - done.
  - done.
  - rewrite IH, <- !app_assoc. f_equiv. apply Permutation_app_comm.
  - rewrite IH. clear -Hls. induction Hls as [|x ls ls' _ IH|x y ls|]; cbn [concat].
    + done.
    + by rewrite IH.
    + apply Permutation_app_swap_app.
    + by etrans.
Qed.

(** Empty lists do not matter. *)
Lemma merges_empty_inv ls l : merges ([] :: ls) l → merges ls l.
Proof.
  intros H. remember ([] :: ls) as ks eqn:E. assert (ks ≡ₚ [] :: ls) as Hp by by rewrite E.
  clear E. revert ls Hp. induction H as [|ks l H _|xs ks l x _ IH|ks ks' l Hk _ IH]; intros ls Hp.
  - by apply Permutation_nil_cons in Hp.
  - apply Permutation_cons_inv in Hp. by rewrite <- Hp.
  - assert ((xs ++ [x]) ∈ [] :: ls) as [Hx|Hx]%elem_of_cons by (rewrite <- Hp; apply list_elem_of_here).
    { by destruct xs. }
    apply elem_of_Permutation in Hx as [ms Hms]. rewrite Hms in Hp |- *.
    rewrite (Permutation_swap (xs ++ [x]) []) in Hp. apply Permutation_cons_inv in Hp.
    apply merges_snoc, IH. rewrite Hp. apply perm_swap.
  - apply IH. by rewrite Hk.
Qed.

Lemma merges_empties_inv ls n l : merges (ls ++ replicate n []) l → merges ls l.
Proof.
  induction n as [|n IH]; cbn; [by rewrite app_nil_r|].
  rewrite <- Permutation_middle. by intros ?%merges_empty_inv%IH.
Qed.

Lemma merges_replicate_nil n : merges (replicate n []) [].
Proof. induction n; by constructor. Qed.

Lemma merges_filter (P : X → Prop) `{!∀ x, Decision (P x)} ls l :
  merges ls l → merges (filter P <$> ls) (filter P l).
Proof.
  induction 1 as [|ls l _ IH|xs ls l x _ IH|ls ls' l Hls _ IH].
  - constructor.
  - cbn. by constructor.
  - cbn [fmap list_fmap] in *. rewrite !filter_app. by apply merges_app.
  - by rewrite <- Hls.
Qed.

Abbreviation proper := (filter (λ xs : list X, xs ≠ [])).

Lemma concat_proper ls : concat (proper ls) = concat ls.
Proof.
  induction ls as [|xs ls IH]; [done|]. rewrite filter_cons.
  destruct (decide (xs ≠ [])) as [|H%dec_stable]; cbn [concat]; [by rewrite IH|by rewrite H, IH].
Qed.

(** With one list that is not empty there is nothing to interleave. *)
Lemma merges_one ls l : merges ls l → length (proper ls) ≤ 1 → l = concat ls.
Proof.
  induction 1 as [|ls l _ IH|xs ls l x _ IH|ls ls' l Hls _ IH]; intros Hl.
  - done.
  - rewrite filter_cons in Hl. by apply IH.
  - rewrite filter_cons, decide_True in Hl by (by destruct xs). cbn [length] in Hl.
    assert (proper ls = []) as E by (apply nil_length_inv; lia).
    rewrite filter_cons, E in IH. cbn [concat]. rewrite <- concat_proper, E.
    rewrite IH by (by destruct (decide (xs ≠ [])); cbn; lia). cbn [concat].
    by rewrite <- (concat_proper ls), E, !app_nil_r.
  - assert (proper ls ≡ₚ proper ls') as Hp by by rewrite Hls.
    rewrite IH by by rewrite Hp. rewrite <- (concat_proper ls), <- (concat_proper ls').
    rewrite <- Hp in Hl. destruct (proper ls) as [|a [|b k]] eqn:E; [| |cbn in Hl; lia].
    + by apply Permutation_nil_l in Hp as ->.
    + by apply Permutation_singleton_l in Hp as ->.
Qed.
End interleave.

(** An element of a list replaced. *)
Lemma insert_Permutation {A} (l : list A) i x y : l !! i = Some x → <[i:=y]> l ≡ₚ y :: delete i l.
Proof.
  intros H. rewrite delete_take_drop, insert_take_drop by by eapply lookup_lt_Some.
  by rewrite Permutation_middle.
Qed.
