(* ===== verification/History.v ===== *)
(** * History: programs over their system calls

    The state of such a program is the history of the calls that it has made, each with its
    result; what the system answers to the next call may depend on all of them. *)
From stdpp Require Import prelude list.
From Stdlib Require Import Lia.
From S2P Require Import Prelude.

Section history.
Context {E : Type}.
Implicit Types h : list E.

(** A call: the answer, and the event that records it. *)
Definition ask {R} (answer : list E → R) (ev : R → E) : mon (list E) R := λ h,
  let r := answer h in Done (r, h ++ [ev r]).

(** A call whose result is not used. *)
Definition note (e : E) : mon (list E) unit := λ h, Done (tt, h ++ [e]).

(** *** Lemmas *)

Lemma wp_ask {R} (answer : list E → R) ev h (Q : R → list E → Prop) :
  Q (answer h) (h ++ [ev (answer h)]) → wp (ask answer ev) h Q.
Proof. done. Qed.

Lemma wp_note e h (Q : unit → list E → Prop) : Q tt (h ++ [e]) → wp (note e) h Q.
Proof. done. Qed.

(** What a program adds to the history, whatever that was. *)
Definition adds_wp {A} (m : mon (list E) A) h (Q : A → list E → Prop) : Prop :=
  wp m h (λ a h', ∃ u, h' = h ++ u ∧ Q a u).

Lemma adds_ret {A} (a : A) h (Q : A → list E → Prop) : Q a [] → adds_wp (mret a) h Q.
Proof. intros H. exists []. by rewrite app_nil_r. Qed.

Lemma adds_ask {R} (answer : list E → R) ev h (Q : R → list E → Prop) :
  Q (answer h) [ev (answer h)] → adds_wp (ask answer ev) h Q.
Proof. intros H. by eexists. Qed.

Lemma adds_note e h (Q : unit → list E → Prop) : Q tt [e] → adds_wp (note e) h Q.
Proof. intros H. by eexists. Qed.

Lemma adds_bind {A B} (m : mon (list E) A) (k : A → mon (list E) B) h (Q : B → list E → Prop) :
  adds_wp m h (λ a u, adds_wp (k a) (h ++ u) (λ b v, Q b (u ++ v))) → adds_wp (m ≫= k) h Q.
Proof.
  unfold adds_wp. intros H. apply wp_bind. eapply wp_mono; [exact H|]. intros a h' (u & -> & Hk).
  eapply wp_mono; [exact Hk|]. intros b h' (v & -> & HQ). exists (u ++ v). by rewrite app_assoc.
Qed.

Lemma adds_mono {A} (m : mon (list E) A) h (P Q : A → list E → Prop) :
  adds_wp m h P → (∀ a u, P a u → Q a u) → adds_wp m h Q.
Proof.
  unfold adds_wp. intros H HPQ. eapply wp_mono; [exact H|]. intros a h' (u & ? & ?). exists u. auto.
Qed.

Lemma adds_done {A} (m : mon (list E) A) Q :
  adds_wp m [] Q → ∃ a h, m [] = Done (a, h) ∧ Q a h.
Proof. intros H. apply wp_done in H as (a & h & E1 & u & -> & HQ). by exists a, u. Qed.
End history.

(** One step of execution. *)
Ltac adds_step :=
  lazymatch goal with
  | |- adds_wp (_ ≫= _) _ _ => apply adds_bind
  | |- adds_wp (mret _) _ _ => apply adds_ret
  | |- adds_wp (ask _ _) _ _ => apply adds_ask
  | |- adds_wp (note _) _ _ => apply adds_note
  | |- adds_wp (if ?b then _ else _) _ _ => let E := fresh "Hb" in destruct b eqn:E
  end; cbv beta.
