(* ===== verification/CString.v ===== *)
(** * CString: the part of the C library's strings that the program uses

    A byte is an [ascii], a buffer a list of bytes.  A [const char *] parameter is modelled by
    the string it points to, the bytes before the terminating NUL; a pointer into a string is
    the suffix that starts there, so the difference of two pointers into one string is a
    difference of lengths.  Arrays that the program stores into ([char id[64]] and the like)
    are kept as their whole byte contents and read back through [cstr].  The definitions model
    <string.h>, <ctype.h>, [atoi]/[atol] as glibc defines them, and the size contract of
    [snprintf]. *)
From stdpp Require Import prelude strings list pretty.
From Stdlib Require Import Ascii ZArith Lia.
From S2P Require Import Prelude.

Abbreviation bytes := (list ascii).

Definition NUL : ascii := Ascii.zero.
Definition LF : ascii := "010"%char.
Definition QUOTE : ascii := "034"%char.
Definition lit (s : string) : bytes := String.list_ascii_of_string s.
Arguments lit s%_string_scope.

(** ** <string.h> *)

(** The string stored at the start of a buffer. *)
Fixpoint cstr (buf : bytes) : bytes :=
  match buf with
  | [] => []
  | c :: buf' => if Ascii.eqb c NUL then [] else c :: cstr buf'
  end.

Definition nul_free (s : bytes) : Prop := NUL ∉ s.

Definition strlen (s : bytes) : nat := length s.

Definition strcmp_eq (s t : bytes) : bool := bool_decide (s = t).

Fixpoint strchr (s : bytes) (c : ascii) : option bytes :=
  match s with
  | [] => None
  | x :: s' => if Ascii.eqb x c then Some s else strchr s' c
  end.

Fixpoint is_prefix (p s : bytes) : bool :=
  match p, s with
  | [], _ => true
  | _, [] => false
  | x :: p', y :: s' => Ascii.eqb x y && is_prefix p' s'
  end.

Fixpoint strstr (s pat : bytes) : option bytes :=
  if is_prefix pat s then Some s
  else match s with [] => None | _ :: s' => strstr s' pat end.

(** [q - p] for two pointers into one string, [p] before [q]. *)
Definition ptr_diff (q p : bytes) : nat := length p - length q.

(** [strncpy(dst, src, n)]: at most [n] bytes of the string, NUL padding up to [n], the rest
    of the destination untouched. *)
Definition strncpy (dst src : bytes) (n : nat) : bytes :=
  take n src ++ replicate (n - length src) NUL ++ drop n dst.

(** [memcpy(dst, src, n)] into the front of a buffer. *)
Definition memcpy (dst src : bytes) (n : nat) : bytes := take n src ++ drop n dst.

(** ** <ctype.h> and numbers *)

Definition code (c : ascii) : Z := Z.of_N (N_of_ascii c).

Definition isspace (c : ascii) : bool :=
  Z.eqb (code c) 32 || (Z.leb 9 (code c) && Z.leb (code c) 13).

Definition digit_of (c : ascii) : option Z :=
  if Z.leb 48 (code c) && Z.leb (code c) 57 then Some (code c - 48)%Z else None.

Fixpoint skip_space (s : bytes) : bytes :=
  match s with
  | c :: s' => if isspace c then skip_space s' else s
  | [] => []
  end.

(** The leading decimal digits of [s], accumulated onto [acc]. *)
Fixpoint scan_digits (acc : Z) (s : bytes) : Z :=
  match s with
  | c :: s' => match digit_of c with
               | Some d => scan_digits (acc * 10 + d)%Z s'
               | None => acc
               end
  | [] => acc
  end.

Definition LONG_MAX : Z := (2 ^ 63 - 1)%Z.
Definition LONG_MIN : Z := (- 2 ^ 63)%Z.

(** [strtol(s, NULL, 10)]: white space, an optional sign, digits, saturation. *)
Definition strtol10 (s : bytes) : Z :=
  let s := skip_space s in
  let v := match s with
           | c :: s' => if Ascii.eqb c "-" then (- scan_digits 0 s')%Z
                        else if Ascii.eqb c "+" then scan_digits 0 s'
                        else scan_digits 0 s
           | [] => 0%Z
           end in
  Z.max LONG_MIN (Z.min LONG_MAX v).

Definition atol (s : bytes) : Z := strtol10 s.
(** glibc: [atoi (s)] is [(int) strtol (s, NULL, 10)]. *)
Definition atoi (s : bytes) : Z := s32 (strtol10 s).

(** [%d], [%u], [%llu] *)
Definition dec (z : Z) : bytes := lit (pretty z).

(** ** snprintf

    [snprintf (buf, n, ...)] with [n > 0] leaves the string [snprintf_str n full] in [buf] and
    returns [length full], where [full] is the whole formatted text. *)
Definition snprintf_str (n : nat) (full : bytes) : bytes := take (n - 1) full.

(** The bytes of an array of size [sz] that [snprintf] has written: the text and its NUL. *)
Definition snprintf_buf (sz : nat) (full : bytes) : bytes := snprintf_str sz full ++ [NUL].

(** ** fgets

    The chunks that successive [fgets (line, n, f)] calls deliver for a file with the given
    contents: up to and including a newline, at most [n - 1] bytes. *)
Fixpoint fgets_from (n : nat) (cur contents : bytes) : list bytes :=
  match contents with
  | [] => match cur with [] => [] | _ => [cur] end
  | c :: rest =>
    let cur := cur ++ [c] in
    if Ascii.eqb c LF || (length cur =? n - 1) then cur :: fgets_from n [] rest
    else fgets_from n cur rest
  end.

Definition fgets_all (n : nat) (contents : bytes) : list bytes := fgets_from n [] contents.

(** ** Lemmas *)

Lemma lit_app s t : lit (s +:+ t) = lit s ++ lit t.
Proof. induction s; simpl; [done|]. by rewrite IHs. Qed.

Lemma cstr_length buf : length (cstr buf) ≤ length buf.
Proof. induction buf as [|c b IH]; simpl; [done|]. case_match; simpl; lia. Qed.

Lemma cstr_nul_free buf : nul_free (cstr buf).
Proof.
  induction buf as [|c b IH]; simpl; unfold nul_free in *; [set_solver|].
  destruct (Ascii.eqb_spec c NUL); set_solver.
Qed.

Lemma cstr_rest buf : ∃ rest, buf = cstr buf ++ rest.
Proof.
  induction buf as [|b buf [r IH]]; [by exists []|]. cbn [cstr].
  destruct (Ascii.eqb b NUL); [by exists (b :: buf)|]. exists r. cbn. by f_equal.
Qed.

Lemma nul_free_cons c s : nul_free (c :: s) ↔ c ≠ NUL ∧ nul_free s.
Proof. unfold nul_free. set_solver. Qed.

Lemma nul_free_app s t : nul_free (s ++ t) ↔ nul_free s ∧ nul_free t.
Proof. unfold nul_free. set_solver. Qed.

Lemma nul_free_concat ls : Forall nul_free ls → nul_free (concat ls).
Proof.
  induction 1 as [|l ls ? _ IH]; cbn [concat]; [unfold nul_free; set_solver|].
  by apply nul_free_app.
Qed.

Lemma nul_free_take n s : nul_free s → nul_free (take n s).
Proof. rewrite <- (take_drop n s) at 1. by intros [? _]%nul_free_app. Qed.

Lemma cstr_app_nul s t : nul_free s → cstr (s ++ NUL :: t) = s.
Proof.
  induction s as [|c s IH]; simpl; [done|]. rewrite nul_free_cons.
  intros [Hc Hs]. destruct (Ascii.eqb_spec c NUL); [done|]. by rewrite IH.
Qed.

Lemma cstr_id s : nul_free s → cstr s = s.
Proof.
  induction s as [|c s IH]; simpl; [done|]. rewrite nul_free_cons.
  intros [Hc Hs]. destruct (Ascii.eqb_spec c NUL); [done|]. by rewrite IH.
Qed.

Lemma cstr_replicate n t : cstr (replicate (S n) NUL ++ t) = [].
Proof. done. Qed.

Lemma length_strncpy dst src n :
  n ≤ length dst → length (strncpy dst src n) = length dst.
Proof.
  intros. unfold strncpy.
  rewrite !length_app, length_take, length_replicate, length_drop. lia.
Qed.

(** What a [strncpy] into an array of [S n] bytes followed by [a[n] = 0] stores. *)
Lemma strncpy_terminated dst src n :
  length dst = S n → nul_free src →
  cstr (<[n := NUL]> (strncpy dst src n)) = take n src.
Proof.
  intros Hlen Hs.
  assert (<[n := NUL]> (strncpy dst src n)
          = take n src ++ replicate (n - length src) NUL ++ [NUL]) as ->.
  { unfold strncpy. rewrite insert_app_r_alt by (rewrite length_take; lia).
    rewrite insert_app_r_alt by (rewrite length_take, length_replicate; lia).
    f_equal. f_equal. rewrite length_take, length_replicate.
    assert (∃ x, drop n dst = [x]) as [x ->].
    { assert (length (drop n dst) = 1) as H by (rewrite length_drop; lia).
      destruct (drop n dst) as [|x [|]]; simpl in H; try lia. by exists x. }
    replace (n - n `min` length src - (n - length src)) with 0 by lia. done. }
  destruct (n - length src) as [|k]; apply cstr_app_nul, nul_free_take, Hs.
Qed.

(** *** Searching *)

Lemma strchr_skip (a b : bytes) c : c ∉ a → strchr (a ++ b) c = strchr b c.
Proof.
  induction a as [|x a IH]; simpl; [done|]. intros [Hx Ha]%not_elem_of_cons.
  destruct (Ascii.eqb_spec x c); [congruence|]. auto.
Qed.

Lemma strchr_here (b : bytes) c : strchr (c :: b) c = Some (c :: b).
Proof. simpl. by rewrite Ascii.eqb_refl. Qed.

Lemma strchr_found (a b : bytes) c : c ∉ a → strchr (a ++ c :: b) c = Some (c :: b).
Proof. intros. by rewrite strchr_skip, strchr_here. Qed.

Lemma strchr_Some (s : bytes) c t :
  strchr s c = Some t → ∃ a b, s = a ++ c :: b ∧ t = c :: b ∧ c ∉ a.
Proof.
  revert t. induction s as [|x s IH]; simpl; intros t; [done|].
  destruct (Ascii.eqb_spec x c) as [->|Hne].
  - intros [= <-]. exists [], s. set_solver.
  - intros (a & b & -> & -> & Ha)%IH. exists (x :: a), b. set_solver.
Qed.

Lemma strchr_None (s : bytes) c : strchr s c = None ↔ c ∉ s.
Proof.
  induction s as [|x s IH]; simpl; [set_solver|].
  destruct (Ascii.eqb_spec x c); set_solver.
Qed.

Lemma is_prefix_spec p s : is_prefix p s = true ↔ ∃ t, s = p ++ t.
Proof.
  revert s. induction p as [|x p IH]; intros s; simpl.
  - split; [by exists s|done].
  - destruct s as [|y s].
    + split; [done|]. by intros [t ?].
    + rewrite andb_true_iff, Ascii.eqb_eq, IH. split.
      * intros [-> [t ->]]. by exists t.
      * intros [t [= -> ->]]. split; [done|]. by exists t.
Qed.

Lemma is_prefix_app p t : is_prefix p (p ++ t) = true.
Proof. apply is_prefix_spec. by exists t. Qed.

(** A byte that the pattern lacks ends what the pattern can match. *)
Lemma is_prefix_stop p b g u : g ∉ p → is_prefix p (b ++ g :: u) = is_prefix p b.
Proof.
  revert b. induction p as [|c p IH]; intros [|d b] Hg; cbn [is_prefix app]; [done..| |].
  - destruct (Ascii.eqb_spec c g); [set_solver|done].
  - rewrite IH by set_solver. done.
Qed.

Lemma strstr_Some s pat t :
  strstr s pat = Some t → ∃ a b, s = a ++ pat ++ b ∧ t = pat ++ b.
Proof.
  revert t. induction s as [|x s IH]; intros t; simpl.
  - destruct (is_prefix pat []) eqn:E; [|done]. intros [= <-].
    apply is_prefix_spec in E as [b Hb]. by exists [], b.
  - destruct (is_prefix pat (x :: s)) eqn:E.
    + intros [= <-]. apply is_prefix_spec in E as [b Hb]. exists [], b. by rewrite Hb.
    + intros (a & b & -> & ->)%IH. by exists (x :: a), b.
Qed.

Lemma strstr_here s pat : is_prefix pat s = true → strstr s pat = Some s.
Proof. destruct s; simpl; by intros ->. Qed.

Lemma strstr_step x s pat :
  is_prefix pat (x :: s) = false → strstr (x :: s) pat = strstr s pat.
Proof. simpl. by intros ->. Qed.

(** A pattern cannot start inside a part that lacks its first byte. *)
Lemma strstr_skip c a b pat : c ∉ a → strstr (a ++ b) (c :: pat) = strstr b (c :: pat).
Proof.
  induction a as [|x a IH]; [done|]. intros [Hx Ha]%not_elem_of_cons.
  rewrite <- app_comm_cons, strstr_step; [by apply IH|]. simpl.
  destruct (Ascii.eqb_spec c x); [congruence|done].
Qed.

(** A delimited pattern against a delimited word: equality of the words. *)
Lemma is_prefix_delim c p w t :
  c ∉ p → c ∉ w → is_prefix (p ++ [c]) (w ++ c :: t) = bool_decide (p = w).
Proof.
  revert w. induction p as [|x p IH]; intros [|y w] Hp Hw; cbn [is_prefix app].
  - by rewrite Ascii.eqb_refl.
  - destruct (Ascii.eqb_spec c y); [set_solver|]. by rewrite bool_decide_eq_false_2.
  - destruct (Ascii.eqb_spec x c); [set_solver|]. by rewrite bool_decide_eq_false_2.
  - rewrite IH by set_solver. destruct (Ascii.eqb_spec x y) as [->|]; cbn [andb].
    + apply bool_decide_ext. naive_solver.
    + rewrite bool_decide_eq_false_2; [done|congruence].
Qed.

(** *** fgets *)

Lemma fgets_from_line n cur l rest :
  LF ∉ l → length cur + length l + 1 < n →
  fgets_from n cur (l ++ LF :: rest) = (cur ++ l ++ [LF]) :: fgets_all n rest.
Proof.
  revert cur. induction l as [|c l IH]; intros cur Hl Hn; [done|].
  apply not_elem_of_cons in Hl as [Hc Hl]. cbn [app fgets_from].
  destruct (Ascii.eqb_spec c LF); [congruence|]. cbn [orb length] in *.
  rewrite length_app. cbn [length].
  destruct (Nat.eqb_spec (length cur + 1) (n - 1)); [lia|].
  rewrite IH; [by rewrite <- app_assoc|done|rewrite length_app; simpl; lia].
Qed.

(** A file of lines that fit the buffer is delivered line by line. *)
Lemma fgets_all_lines n ls :
  Forall (λ l, LF ∉ l ∧ length l + 1 < n) ls →
  fgets_all n (concat ((λ l, l ++ [LF]) <$> ls)) = (λ l, l ++ [LF]) <$> ls.
Proof.
  induction 1 as [|l ls [Hl Hn] _ IH]; [done|].
  cbn [fmap list_fmap concat]. rewrite <- app_assoc. unfold fgets_all at 1.
  cbn [app]. rewrite fgets_from_line by (simpl; done || lia). by rewrite IH.
Qed.

(** Every chunk fits the buffer. *)
Lemma fgets_from_size n cur s l :
  1 < n → length cur < n - 1 → l ∈ fgets_from n cur s → length l < n.
Proof.
  intros Hn. revert cur. induction s as [|c s IH]; intros cur Hc; cbn [fgets_from].
  - destruct cur; [set_solver|]. intros ->%list_elem_of_singleton. lia.
  - rewrite length_app. cbn [length]. case_match eqn:E.
    + intros [->|Hin]%elem_of_cons; [rewrite length_app; simpl; lia|].
      eapply IH; [|done]. simpl. lia.
    + apply orb_false_iff in E as [_ E%Nat.eqb_neq]. apply IH. rewrite length_app. simpl. lia.
Qed.

Lemma fgets_all_size n s l : 1 < n → l ∈ fgets_all n s → length l < n.
Proof. intros Hn. apply fgets_from_size; simpl; lia. Qed.

(** Nothing is lost or reordered. *)
Lemma fgets_from_concat n cur s : concat (fgets_from n cur s) = cur ++ s.
Proof.
  revert cur. induction s as [|c s IH]; intros cur; cbn [fgets_from].
  - destruct cur; cbn; by rewrite ?app_nil_r.
  - case_match; cbn [concat]; rewrite IH; by rewrite <- app_assoc.
Qed.

Lemma length_snprintf_buf sz full :
  length full < sz → snprintf_buf sz full = full ++ [NUL].
Proof. intros. unfold snprintf_buf, snprintf_str. by rewrite take_ge by lia. Qed.

(** *** Decimal numbers *)

Definition is_digit (c : ascii) : bool := bool_decide (is_Some (digit_of c)).

Lemma pretty_char_digit x : is_digit (pretty_N_char x) = true.
Proof. unfold pretty_N_char. repeat case_match; reflexivity. Qed.

Lemma pretty_digits k x s :
  (x < 10 ^ N.of_nat k)%N → Forall (λ c, is_digit c = true) (lit s) →
  length (lit (pretty_N_go x s)) ≤ k + length (lit s) ∧
  Forall (λ c, is_digit c = true) (lit (pretty_N_go x s)).
Proof.
  revert x s. induction k as [|k IH]; intros x s Hx Hs.
  { change (10 ^ N.of_nat 0)%N with 1%N in Hx. replace x with 0%N by lia. by rewrite pretty_N_go_0. }
  destruct (N.eq_dec x 0) as [->|]; [rewrite pretty_N_go_0; split; [lia|done]|].
  rewrite pretty_N_go_step by lia.
  destruct (IH (x / 10)%N (String (pretty_N_char (x mod 10)) s)) as [H1 H2].
  - apply N.Div0.div_lt_upper_bound. rewrite Nat2N.inj_succ, N.pow_succ_r' in Hx. lia.
  - cbn. apply Forall_cons. split; [apply pretty_char_digit|done].
  - split; [|done]. change (length (lit (String ?c s))) with (S (length (lit s))) in H1. lia.
Qed.

(** What [%llu] prints: digits only, at most 20 of them. *)
Lemma dec_u64 z :
  (0 ≤ z < 2 ^ 64)%Z → length (dec z) ≤ 20 ∧ Forall (λ c, is_digit c = true) (dec z).
Proof.
  intros Hz. destruct z as [|p|p]; [split; [simpl; lia|by repeat constructor]| |lia].
  unfold dec, pretty, pretty_Z, pretty, pretty_positive, pretty, pretty_N.
  destruct (decide _); [done|]. apply (pretty_digits 20).
  - change (10 ^ N.of_nat 20)%N with 100000000000000000000%N. lia.
  - constructor.
Qed.

Lemma pretty_grows k x s :
  (x < 10 ^ N.of_nat k)%N → length (lit s) ≤ length (lit (pretty_N_go x s)).
Proof.
  revert x s. induction k as [|k IH]; intros x s Hx.
  { change (10 ^ N.of_nat 0)%N with 1%N in Hx. replace x with 0%N by lia. by rewrite pretty_N_go_0. }
  destruct (N.eq_dec x 0) as [->|]; [by rewrite pretty_N_go_0|]. rewrite pretty_N_go_step by lia.
  etransitivity; [|apply IH; apply N.Div0.div_lt_upper_bound;
    rewrite Nat2N.inj_succ, N.pow_succ_r' in Hx; lia].
  apply Nat.le_succ_diag_r.
Qed.

(** A number has a digit. *)
Lemma dec_nonempty z : (0 ≤ z < 2 ^ 64)%Z → dec z ≠ [].
Proof.
  intros Hz. destruct z as [|p|p]; [done| |lia].
  unfold dec, pretty, pretty_Z, pretty, pretty_positive, pretty, pretty_N.
  destruct (decide _); [done|]. rewrite pretty_N_go_step by lia.
  intros E%(f_equal length). cbn [length] in E.
  assert (N.pos p / 10 < 10 ^ N.of_nat 20)%N as Hp.
  { apply N.Div0.div_lt_upper_bound.
    change (10 * 10 ^ N.of_nat 20)%N with 1000000000000000000000%N. lia. }
  apply (pretty_grows 20 _ (String (pretty_N_char (N.pos p `mod` 10)) "")) in Hp.
  rewrite E in Hp. by apply Nat.le_0_r in Hp.
Qed.

Lemma digits_lack c (s : bytes) : Forall (λ c, is_digit c = true) s → is_digit c = false → c ∉ s.
Proof. intros Hs Hc Hin. rewrite Forall_forall in Hs. specialize (Hs c Hin). congruence. Qed.
