(* ===== verification/Backoff.v ===== *)
(** * Backoff: userspace/libpm/include/backoff.h

    The exponential backoff shared by libpm's procfs I/O loops and loc_gen's VTS adapter.
    [cur_us] and [max_us] are [uint32_t]; doubling is done in 64 bits. *)
From stdpp Require Import prelude.
From Stdlib Require Import ZArith Lia.
From S2P Require Import Prelude.

Local Open Scope Z_scope.

Record pm_backoff := mk_backoff { cur_us : Z; max_us : Z }.

Definition pm_backoff_init (init_us max_us : Z) : pm_backoff :=
  {| cur_us := if bool_of_int init_us then init_us else 100;
     max_us := if bool_of_int max_us then max_us else 20000 |}.

Definition pm_backoff_next (b : pm_backoff) : Z * pm_backoff :=
  let v := cur_us b in
  let nxt := u64 (cur_us b * 2) in
  (v, {| cur_us := if max_us b <? nxt then max_us b else u32 nxt;
         max_us := max_us b |}).

(** The states and delays of a run of [pm_backoff_next]. *)
Fixpoint backoff_run (n : nat) (b : pm_backoff) : pm_backoff :=
  match n with
  | O => b
  | S n => (pm_backoff_next (backoff_run n b)).2
  end.

Definition backoff_delay (n : nat) (b : pm_backoff) : Z :=
  (pm_backoff_next (backoff_run n b)).1.

Definition wf_backoff (b : pm_backoff) : Prop :=
  1 ≤ cur_us b < 2 ^ 32 ∧ 1 ≤ max_us b < 2 ^ 32.

(** ** Lemmas *)

Lemma wf_backoff_init i m :
  in_u 32 i → in_u 32 m → wf_backoff (pm_backoff_init i m).
Proof. unfold in_u, wf_backoff, pm_backoff_init. simpl. intros; b2p; lia. Qed.

Lemma pm_backoff_next_spec b :
  wf_backoff b →
  pm_backoff_next b = (cur_us b, mk_backoff (Z.min (2 * cur_us b) (max_us b)) (max_us b)).
Proof.
  intros [Hc Hm]. unfold pm_backoff_next.
  assert (u64 (cur_us b * 2) = 2 * cur_us b) as ->.
  { unfold u64. rewrite wrapu_small; [lia|]. unfold in_u. lia. }
  f_equal. f_equal. tests; [lia|].
  unfold u32. rewrite wrapu_small; [lia|]. unfold in_u. lia.
Qed.

Lemma wf_backoff_next b : wf_backoff b → wf_backoff (pm_backoff_next b).2.
Proof.
  intros H. rewrite pm_backoff_next_spec by done. destruct H. unfold wf_backoff; simpl. lia.
Qed.

Lemma wf_backoff_run n b : wf_backoff b → wf_backoff (backoff_run n b).
Proof. intros H. induction n; simpl; [done|]. by apply wf_backoff_next. Qed.

Lemma backoff_run_succ n b :
  wf_backoff b →
  backoff_run (S n) b = mk_backoff (Z.min (2 ^ Z.of_nat (S n) * cur_us b) (max_us b)) (max_us b).
Proof.
  intros Hb. induction n as [|n IH].
  - cbn [backoff_run]. by rewrite pm_backoff_next_spec.
  - change (backoff_run (S (S n)) b) with (pm_backoff_next (backoff_run (S n) b)).2.
    rewrite pm_backoff_next_spec by by apply wf_backoff_run. rewrite IH; simpl. f_equal.
    replace (Z.of_nat (S (S n))) with (Z.of_nat (S n) + 1) by lia.
    rewrite Z.pow_add_r by lia. destruct Hb. lia.
Qed.

Lemma backoff_delay_ge n b :
  wf_backoff b → Z.min (cur_us b) (max_us b) ≤ backoff_delay n b.
Proof.
  intros Hb. unfold backoff_delay.
  rewrite pm_backoff_next_spec by by apply wf_backoff_run. cbn [fst].
  destruct n as [|n]; [simpl; lia|]. rewrite backoff_run_succ by done. cbn [cur_us].
  assert (1 ≤ 2 ^ Z.of_nat (S n)) by (change 1 with (2 ^ 0); apply Z.pow_le_mono_r; lia).
  destruct Hb. nia.
Qed.

(** ** Properties *)

(** The delays of a run. The first call returns the initial delay as it is, even above
    the maximum; call [n >= 1] returns [min (init * 2^n) max]: exponential growth capped at
    [max_us], with no wrap-around of the 32-bit fields. *)
Theorem backoff_delays (i m : Z) (n : nat) :
  in_u 32 i → in_u 32 m →
  let b := pm_backoff_init i m in
  backoff_delay 0 b = cur_us b
  ∧ backoff_delay (S n) b = Z.min (2 ^ Z.of_nat (S n) * cur_us b) (max_us b)
  ∧ in_u 32 (backoff_delay n b).
Proof.
  intros Hi Hm b. assert (wf_backoff b) as Hb by by apply wf_backoff_init.
  assert (∀ k, backoff_delay k b = cur_us (backoff_run k b)) as E.
  { intros k. unfold backoff_delay. by rewrite pm_backoff_next_spec by by apply wf_backoff_run. }
  rewrite !E. split_and!; [done|by rewrite backoff_run_succ|].
  destruct (wf_backoff_run n b Hb) as [? ?]. unfold in_u. lia.
Qed.

Lemma backoff_delays_witness :
  backoff_delay 7 (pm_backoff_init 200 20000) = 20000.
Proof.
  pose proof (backoff_delays 200 20000 6 ltac:(vm_compute; split; congruence)
    ltac:(vm_compute; split; congruence)) as [_ [H _]].
  rewrite H. reflexivity.
Defined.
