(* ===== verification/Breaker.v ===== *)
(** * Breaker: userspace/libpm/src/circuit_breaker.c

    The circuit breaker of libpm's procfs I/O.  A call that reads CLOCK_MONOTONIC takes the
    clock's reading [ts] as an argument.  [fail_n], [trip_threshold] and [half_open_ms] are
    [uint32_t], the millisecond clock [uint64_t], [open] an [int] used as a truth value.
    The contract is the small machine of Module [Spec]: a count of consecutive failures and,
    when the circuit is open, the millisecond at which a probe is let through again. *)
From stdpp Require Import prelude.
From Stdlib Require Import ZArith Lia.
From S2P Require Import Prelude.

Local Open Scope Z_scope.

Record timespec := mk_ts { tv_sec : Z; tv_nsec : Z }.

Record pm_breaker := mk_breaker {
  fail_n : Z;
  trip_threshold : Z;
  half_open_ms : Z;
  open_until : timespec;
  open : Z }.

Definition now_ms (ts : timespec) : Z :=
  u64 (u64 (tv_sec ts * 1000) + tv_nsec ts / 1000000).

Definition pm_breaker_init (trip_threshold half_open_ms : Z) : pm_breaker :=
  {| fail_n := 0;
     trip_threshold := if bool_of_int trip_threshold then trip_threshold else 8;
     half_open_ms := if bool_of_int half_open_ms then half_open_ms else 200;
     open_until := mk_ts 0 0;
     open := 0 |}.

(** The result is the C return value, 1 to let the I/O through, 0 to refuse it. *)
Definition pm_breaker_allow (cb : pm_breaker) (ts : timespec) : Z * pm_breaker :=
  if negb (bool_of_int (open cb)) then (1, cb)
  else
    let now := now_ms ts in
    let open_ms := now_ms (open_until cb) in
    if open_ms <=? now then
      (1, mk_breaker 0 (trip_threshold cb) (half_open_ms cb) (open_until cb) 0)
    else (0, cb).

Definition pm_breaker_record (cb : pm_breaker) (ok : Z) (ts : timespec) : pm_breaker :=
  if bool_of_int ok then
    mk_breaker 0 (trip_threshold cb) (half_open_ms cb) (open_until cb) (open cb)
  else
    let f := u32 (fail_n cb + 1) in
    if trip_threshold cb <=? f then
      let ns := u64 (tv_nsec ts + u64 (half_open_ms cb * 1000000)) in
      mk_breaker 0 (trip_threshold cb) (half_open_ms cb)
        (mk_ts (wraps 64 (u64 (tv_sec ts + ns / 1000000000))) (ns mod 1000000000)) 1
    else
      mk_breaker f (trip_threshold cb) (half_open_ms cb) (open_until cb) (open cb).

(** A run of [n] recorded failures, the clock read as [clk i] at the [i]th. *)
Fixpoint record_failures (n : nat) (clk : nat → timespec) (cb : pm_breaker) : pm_breaker :=
  match n with
  | O => cb
  | S n => pm_breaker_record (record_failures n clk cb) 0 (clk n)
  end.

(** A call on the breaker, with the clock's reading. *)
Inductive breaker_call := Allow (ts : timespec) | Report (ok : Z) (ts : timespec).

(** A run of calls; the answers of [pm_breaker_allow] in order. *)
Fixpoint breaker_run (calls : list breaker_call) (cb : pm_breaker) : list Z * pm_breaker :=
  match calls with
  | [] => ([], cb)
  | Allow ts :: calls =>
    let '(r, cb) := pm_breaker_allow cb ts in
    let '(rs, cb) := breaker_run calls cb in (r :: rs, cb)
  | Report ok ts :: calls => breaker_run calls (pm_breaker_record cb ok ts)
  end.

(** ** The contract *)

Module Spec.

(** Consecutive failures, and the probe time in milliseconds when open. *)
Record state := mk { fails : Z; until : option Z }.

Definition allow (now : Z) (s : state) : bool * state :=
  match until s with
  | None => (true, s)
  | Some t => if t <=? now then (true, mk 0 None) else (false, s)
  end.

Definition record (threshold half : Z) (ok : bool) (now : Z) (s : state) : state :=
  if ok then mk 0 (until s)
  else if threshold <=? fails s + 1 then mk 0 (Some (now + half))
  else mk (fails s + 1) (until s).

(** The same calls, threshold and waiting time being constants of the run. *)
Fixpoint run (threshold half : Z) (calls : list breaker_call) (s : state) : list bool * state :=
  match calls with
  | [] => ([], s)
  | Allow ts :: calls =>
    let '(r, s) := allow (now_ms ts) s in
    let '(rs, s) := run threshold half calls s in (r :: rs, s)
  | Report ok ts :: calls =>
    run threshold half calls (record threshold half (bool_of_int ok) (now_ms ts) s)
  end.

End Spec.

Definition abs_breaker (cb : pm_breaker) : Spec.state :=
  Spec.mk (fail_n cb) (if bool_of_int (open cb) then Some (now_ms (open_until cb)) else None).

(** A timestamp of the monotonic clock: normalised nanoseconds, less than 2^50 seconds. *)
Definition wf_ts (ts : timespec) : Prop :=
  0 ≤ tv_sec ts < 2 ^ 50 ∧ 0 ≤ tv_nsec ts < 1000000000.

#[export] Instance wf_ts_dec ts : Decision (wf_ts ts).
Proof. unfold wf_ts; apply _. Defined.

Definition wf_call (c : breaker_call) : Prop :=
  match c with Allow ts | Report _ ts => wf_ts ts end.

#[export] Instance wf_call_dec c : Decision (wf_call c).
Proof. destruct c; apply _. Defined.

Definition wf_breaker (cb : pm_breaker) : Prop :=
  1 ≤ trip_threshold cb < 2 ^ 32 ∧ 1 ≤ half_open_ms cb < 2 ^ 32
  ∧ 0 ≤ fail_n cb < trip_threshold cb.

(** ** Lemmas *)

Lemma wf_breaker_init t h : in_u 32 t → in_u 32 h → wf_breaker (pm_breaker_init t h).
Proof. unfold in_u, wf_breaker, pm_breaker_init. simpl. intros; b2p; lia. Qed.

Lemma now_ms_spec ts :
  0 ≤ tv_sec ts < 2 ^ 51 → 0 ≤ tv_nsec ts < 1000000000 →
  now_ms ts = tv_sec ts * 1000 + tv_nsec ts / 1000000.
Proof.
  intros Hs Hn. unfold now_ms, u64.
  assert (0 ≤ tv_nsec ts / 1000000 < 1000).
  { split; [apply Z.div_pos|apply Z.div_lt_upper_bound]; lia. }
  rewrite (wrapu_small _ (tv_sec ts * 1000)) by (unfold in_u; lia).
  rewrite wrapu_small; [done|unfold in_u; lia].
Qed.

(** The deadline arithmetic of a trip, in 64 bits and with a carry into the seconds, is the
    exact sum in milliseconds. *)
Lemma trip_deadline ts half :
  wf_ts ts → 1 ≤ half < 2 ^ 32 →
  let ns := u64 (tv_nsec ts + u64 (half * 1000000)) in
  now_ms (mk_ts (wraps 64 (u64 (tv_sec ts + ns / 1000000000))) (ns mod 1000000000))
  = now_ms ts + half.
Proof.
  intros [Hs Hn] Hh ns.
  assert (ns = tv_nsec ts + half * 1000000) as E.
  { unfold ns, u64. rewrite (wrapu_small _ (half * 1000000)) by (unfold in_u; lia).
    rewrite wrapu_small; [done|unfold in_u; lia]. }
  assert (0 ≤ ns / 1000000000 < 2 ^ 24).
  { rewrite E. split; [apply Z.div_pos|apply Z.div_lt_upper_bound]; lia. }
  assert (0 ≤ ns mod 1000000000 < 1000000000) by by apply Z.mod_pos_bound.
  unfold u64. rewrite (wrapu_small 64 (_ + _)) by (unfold in_u; lia).
  rewrite wraps_small by (unfold in_s; lia).
  rewrite !now_ms_spec by (simpl; lia). cbn [tv_sec tv_nsec].
  assert (tv_nsec ts + half * 1000000 = 1000000000 * (ns / 1000000000) + ns mod 1000000000) as D.
  { rewrite <- E. by apply Z.div_mod. }
  assert (ns mod 1000000000 + (ns / 1000000000) * 1000 * 1000000
          = tv_nsec ts + half * 1000000) as D' by lia.
  apply (f_equal (λ z, z / 1000000)) in D'. rewrite !Z.div_add in D' by done. lia.
Qed.

Lemma wf_breaker_allow cb ts : wf_breaker cb → wf_breaker (pm_breaker_allow cb ts).2.
Proof.
  unfold wf_breaker, pm_breaker_allow. intros. tests; simpl; lia.
Qed.

Lemma u32_fail cb : wf_breaker cb → u32 (fail_n cb + 1) = fail_n cb + 1.
Proof. intros (?&?&?). apply wrapu_small. unfold in_u. lia. Qed.

Lemma wf_breaker_record cb ok ts : wf_breaker cb → wf_breaker (pm_breaker_record cb ok ts).
Proof.
  intros H. unfold pm_breaker_record. rewrite u32_fail by done.
  destruct H as (?&?&?). unfold wf_breaker. tests; simpl; lia.
Qed.

#[export] Hint Resolve wf_breaker_allow wf_breaker_record : pm.

Lemma abs_allow cb ts :
  let '(r, cb') := pm_breaker_allow cb ts in
  Spec.allow (now_ms ts) (abs_breaker cb) = (bool_of_int r, abs_breaker cb').
Proof.
  unfold pm_breaker_allow, Spec.allow, abs_breaker.
  destruct (bool_of_int (open cb)) eqn:E; simpl; [|by rewrite E].
  destruct (now_ms (open_until cb) <=? now_ms ts); simpl; [done|by rewrite E].
Qed.

Lemma abs_record cb ok ts :
  wf_breaker cb → wf_ts ts →
  abs_breaker (pm_breaker_record cb ok ts)
  = Spec.record (trip_threshold cb) (half_open_ms cb) (bool_of_int ok) (now_ms ts)
      (abs_breaker cb).
Proof.
  intros Hcb Hts. unfold pm_breaker_record, Spec.record, abs_breaker.
  rewrite u32_fail by done. destruct (bool_of_int ok); cbn [fail_n open open_until Spec.fails Spec.until]; [done|].
  destruct (trip_threshold cb <=? fail_n cb + 1); [|done].
  cbn -[now_ms]. f_equal. f_equal. apply trip_deadline; [done|]. by destruct Hcb as (?&?&?).
Qed.

Lemma record_params cb ok ts :
  trip_threshold (pm_breaker_record cb ok ts) = trip_threshold cb
  ∧ half_open_ms (pm_breaker_record cb ok ts) = half_open_ms cb.
Proof. unfold pm_breaker_record. by repeat case_match. Qed.

Lemma allow_params cb ts :
  trip_threshold (pm_breaker_allow cb ts).2 = trip_threshold cb
  ∧ half_open_ms (pm_breaker_allow cb ts).2 = half_open_ms cb.
Proof. unfold pm_breaker_allow. by repeat case_match. Qed.

(** A run from any well-formed breaker. *)
Lemma breaker_run_refines calls cb :
  wf_breaker cb → Forall wf_call calls →
  let '(rs, cb') := breaker_run calls cb in
  Spec.run (trip_threshold cb) (half_open_ms cb) calls (abs_breaker cb)
    = (bool_of_int <$> rs, abs_breaker cb')
  ∧ wf_breaker cb' ∧ trip_threshold cb' = trip_threshold cb ∧ half_open_ms cb' = half_open_ms cb.
Proof.
  intros Hcb Hw. revert cb Hcb. induction Hw as [|[ts|ok ts] calls Hts _ IH]; intros cb Hcb;
    cbn [breaker_run Spec.run].
  - by split_and!.
  - pose proof (abs_allow cb ts) as Ha. pose proof (wf_breaker_allow cb ts Hcb) as Hcb1.
    destruct (allow_params cb ts) as [E1 E2]. destruct (pm_breaker_allow cb ts) as [r cb1].
    rewrite Ha. specialize (IH cb1 Hcb1). cbn [snd] in E1, E2. rewrite E1, E2 in IH.
    destruct (breaker_run calls cb1) as [rs cb2]. destruct IH as (-> & H). by split.
  - specialize (IH _ (wf_breaker_record cb ok ts Hcb)). destruct (record_params cb ok ts) as [E1 E2].
    rewrite E1, E2, abs_record in IH by done. exact IH.
Qed.

Lemma record_failures_below n clk cb :
  wf_breaker cb → fail_n cb + Z.of_nat n < trip_threshold cb →
  record_failures n clk cb
  = mk_breaker (fail_n cb + Z.of_nat n) (trip_threshold cb) (half_open_ms cb)
      (open_until cb) (open cb).
Proof.
  intros Hcb. induction n as [|n IH]; intros Hn.
  - simpl. rewrite Z.add_0_r. by destruct cb.
  - cbn [record_failures]. rewrite IH by lia. unfold pm_breaker_record. simpl.
    destruct Hcb as (?&?&?). unfold u32. rewrite wrapu_small by (unfold in_u; lia).
    tests; [lia|]. f_equal. lia.
Qed.

(** ** Properties *)

(** C18: refinement. Take a breaker as [pm_breaker_init] leaves it and any run of
    [pm_breaker_allow] and [pm_breaker_record] on it, each with its reading of the clock (normalised,
    below 2^50 seconds). The
    answers are those of the contract, run with the threshold and the waiting time of the
    initialisation (8 and 200 where the argument is 0); the state left is the contract's, the
    threshold and the waiting time are still those of the start, and the failure count is below
    the threshold: the 32- and 64-bit fields never wrap. *)
Theorem breaker_refines (t h : Z) (calls : list breaker_call) :
  in_u 32 t → in_u 32 h → Forall wf_call calls →
  let threshold := if (t =? 0)%Z then 8 else t in
  let half := if (h =? 0)%Z then 200 else h in
  let '(rs, cb) := breaker_run calls (pm_breaker_init t h) in
  Spec.run threshold half calls (Spec.mk 0 None) = (bool_of_int <$> rs, abs_breaker cb)
  ∧ trip_threshold cb = threshold ∧ half_open_ms cb = half ∧ 0 ≤ fail_n cb < threshold.
Proof.
  intros Ht Hh Hw threshold half. pose proof (wf_breaker_init t h Ht Hh) as Hcb.
  assert (trip_threshold (pm_breaker_init t h) = threshold
          ∧ half_open_ms (pm_breaker_init t h) = half) as [E1 E2].
  { unfold threshold, half. cbn. unfold bool_of_int. by destruct (t =? 0), (h =? 0). }
  pose proof (breaker_run_refines calls (pm_breaker_init t h) Hcb Hw) as H. rewrite E1, E2 in H.
  destruct (breaker_run calls _) as [rs cb]. destruct H as (H1 & (_ & _ & H2) & H3 & H4).
  rewrite H3 in H2. by split_and!; try lia.
Qed.

Lemma breaker_refines_witness :
  Spec.run 1 200 [Report 0 (mk_ts 5 999000000); Allow (mk_ts 6 198000000); Allow (mk_ts 6 199000000);
      Allow (mk_ts 6 0)] (Spec.mk 0 None)
  = ([false; true; true], Spec.mk 0 None).
Proof.
  pose proof (breaker_refines 1 200 [Report 0 (mk_ts 5 999000000); Allow (mk_ts 6 198000000);
    Allow (mk_ts 6 199000000); Allow (mk_ts 6 0)]
    ltac:(vm_compute; intuition congruence) ltac:(vm_compute; intuition congruence)
    ltac:(by_evaluation)) as H.
  cbv zeta in H. destruct (breaker_run _ _) as [rs cb] eqn:E. vm_compute in E. injection E as <- <-.
  destruct H as [H _]. exact H.
Defined.

(** The life of a trip. After [pm_breaker_init], fewer than [trip_threshold] consecutive
    failures leave the circuit closed (every call is let through); the failure that reaches
    the threshold, recorded at [clk n], opens it: until [half_open_ms] milliseconds later
    every call is refused without a change of state, and the first call from then on is let
    through with a closed circuit and a fresh failure count. *)
Theorem breaker_trip_window (t h : Z) (n : nat) (clk : nat → timespec) (ts : timespec) :
  in_u 32 t → in_u 32 h → wf_ts (clk n) → wf_ts ts →
  let cb := pm_breaker_init t h in
  Z.of_nat (S n) = trip_threshold cb →
  (∀ k, (k ≤ n)%nat → pm_breaker_allow (record_failures k clk cb) ts
                      = (1, record_failures k clk cb))
  ∧ let tripped := record_failures (S n) clk cb in
    (now_ms ts < now_ms (clk n) + half_open_ms cb →
       pm_breaker_allow tripped ts = (0, tripped))
    ∧ (now_ms (clk n) + half_open_ms cb ≤ now_ms ts →
       ∃ cb', pm_breaker_allow tripped ts = (1, cb') ∧ open cb' = 0 ∧ fail_n cb' = 0).
Proof.
  intros Ht Hh Hclk Hts cb Hn. assert (wf_breaker cb) as Hcb by by apply wf_breaker_init.
  assert (fail_n cb = 0 ∧ open cb = 0) as [Hf Ho] by done. clearbody cb.
  split.
  - intros k Hk. rewrite record_failures_below by (done || lia).
    unfold pm_breaker_allow. cbn [open]. by rewrite Ho.
  - cbn [record_failures]. rewrite record_failures_below by (done || lia).
    unfold pm_breaker_record. cbn [bool_of_int fail_n trip_threshold half_open_ms].
    destruct Hcb as (Ht' & Hh' & _).
    unfold u32. rewrite wrapu_small by (unfold in_u; lia).
    rewrite (proj2 (Z.leb_le (trip_threshold cb) _)) by lia.
    unfold pm_breaker_allow. cbn -[now_ms u64]. rewrite trip_deadline by done.
    split; intros; [rewrite (proj2 (Z.leb_gt _ _)) by lia; done|].
    rewrite (proj2 (Z.leb_le _ _)) by lia. eauto.
Qed.

Lemma breaker_trip_window_witness :
  (pm_breaker_allow
     (record_failures 2 (λ _, mk_ts 10 0) (pm_breaker_init 2 200)) (mk_ts 10 199999999)).1 = 0.
Proof.
  pose proof (breaker_trip_window 2 200 1 (λ _, mk_ts 10 0) (mk_ts 10 199999999)
    ltac:(vm_compute; intuition congruence) ltac:(vm_compute; intuition congruence)
    ltac:(vm_compute; intuition congruence) ltac:(vm_compute; intuition congruence)
    eq_refl) as [_ [H _]].
  rewrite H; reflexivity.
Defined.
