(* ===== verification/ProcfsIo.v ===== *)
(** * ProcfsIo: userspace/libpm/src/procfs_io.c

    libpm's non-blocking reads and writes of /proc/pm/<node>/<file>, with retries, timeout,
    statistics and the circuit breaker.  The operating system is the class [OS]: call number
    [n] of a run may answer anything, and each call lets [os_delay n] nanoseconds pass; time
    advances only in system calls.  The library's globals and the process state are one record
    [io_state]; the functions run in the monad of Prelude. *)
From stdpp Require Import prelude strings list.
From Stdlib Require Import Ascii ZArith Lia.
From S2P Require Import Prelude CString Backoff Breaker.

Local Open Scope Z_scope.

(** ** Data (libpm.h) *)

Inductive pm_rc := PM_OK | PM_AGAIN | PM_TIMEOUT | PM_IOERR.

Definition pm_rc_val (r : pm_rc) : Z :=
  match r with PM_OK => 0 | PM_AGAIN => 11 | PM_TIMEOUT => 110 | PM_IOERR => 5 end.

Inductive pm_node_t := PM_NODE_CPU | PM_NODE_MEM | PM_NODE_INF.
Inductive pm_file_t := PM_FILE_CONFIG | PM_FILE_STATUS | PM_FILE_DATA.

#[export] Instance pm_rc_dec : EqDecision pm_rc.
Proof. solve_decision. Defined.
#[export] Instance pm_node_dec : EqDecision pm_node_t.
Proof. solve_decision. Defined.
#[export] Instance pm_file_dec : EqDecision pm_file_t.
Proof. solve_decision. Defined.

Record pm_cfg := mk_cfg {
  root : option bytes;
  open_flags_extra : Z;
  timeout_ms : Z;
  backoff_init_us : Z;
  backoff_max_us : Z;
  breaker_fail_n : Z;
  breaker_half_ms : Z }.

Record pm_stats := mk_stats {
  io_ok : Z; io_retry : Z; io_timeout : Z; io_err : Z; breaker_trips : Z }.

(** The initial value of [g_cfg]. *)
Definition g_cfg_default : pm_cfg := mk_cfg (Some (lit "/proc/pm")) 0 200 200 20000 8 200.

(** ** The operating system *)

Definition EINTR : Z := 4.
Definition ENOENT : Z := 2.
Definition EAGAIN : Z := 11.
Definition EMFILE : Z := 24.

(** The answer of call number [n]; [inr e] is a failure with [errno = e]. *)
Class OS := {
  os_open : nat → bytes → Z → Z + Z;
  os_poll : nat → Z → Z → Z + Z;
  os_read : nat → Z → nat → bytes + Z;
  os_write : nat → Z → bytes → nat + Z;
  os_delay : nat → Z }.

(** What the code relies on: descriptors are not negative, a poll's answer is not negative,
    a read or write transfers at most what was asked, and no call takes 2^40 seconds. *)
Class OSLaws (o : OS) : Prop := {
  os_open_fd n p fl fd : os_open n p fl = inl fd → 0 ≤ fd;
  os_poll_nonneg n fd t r : os_poll n fd t = inl r → 0 ≤ r;
  os_read_le n fd k d : os_read n fd k = inl d → (length d ≤ k)%nat;
  os_write_le n fd d k : os_write n fd d = inl k → (k ≤ length d)%nat;
  os_delay_range n : 0 ≤ os_delay n ≤ 2 ^ 40 * 1000000000 }.

Record io_state := mk_io {
  g_cfg : pm_cfg;
  g_stats : pm_stats;
  g_cb : pm_breaker;
  os_ns : Z;          (* CLOCK_MONOTONIC, nanoseconds *)
  os_calls : nat;     (* system calls made so far *)
  os_errno : Z;
  os_fds : list Z     (* descriptors opened and not yet closed *) }.

Definition set_stats (f : pm_stats → pm_stats) (s : io_state) : io_state :=
  mk_io (g_cfg s) (f (g_stats s)) (g_cb s) (os_ns s) (os_calls s) (os_errno s) (os_fds s).
Definition set_cb (cb : pm_breaker) (s : io_state) : io_state :=
  mk_io (g_cfg s) (g_stats s) cb (os_ns s) (os_calls s) (os_errno s) (os_fds s).
Definition set_errno (e : Z) (s : io_state) : io_state :=
  mk_io (g_cfg s) (g_stats s) (g_cb s) (os_ns s) (os_calls s) e (os_fds s).
Definition set_fds (f : list Z → list Z) (s : io_state) : io_state :=
  mk_io (g_cfg s) (g_stats s) (g_cb s) (os_ns s) (os_calls s) (os_errno s) (f (os_fds s)).
Definition pass (ns : Z) (s : io_state) : io_state :=
  mk_io (g_cfg s) (g_stats s) (g_cb s) (os_ns s + ns) (S (os_calls s)) (os_errno s) (os_fds s).

Definition timespec_of_ns (ns : Z) : timespec := mk_ts (ns / 1000000000) (ns mod 1000000000).

(** [clock_gettime(CLOCK_MONOTONIC, &ts)] *)
Definition clock (s : io_state) : timespec := timespec_of_ns (os_ns s).

Fixpoint remove_fd (fd : Z) (l : list Z) : list Z :=
  match l with
  | [] => []
  | x :: l' => if x =? fd then l' else x :: remove_fd fd l'
  end.

(** ** Statistics and start-up *)

Definition stats_zero : pm_stats := mk_stats 0 0 0 0 0.
Definition inc_ok (t : pm_stats) : pm_stats :=
  mk_stats (u64 (io_ok t + 1)) (io_retry t) (io_timeout t) (io_err t) (breaker_trips t).
Definition inc_retry (t : pm_stats) : pm_stats :=
  mk_stats (io_ok t) (u64 (io_retry t + 1)) (io_timeout t) (io_err t) (breaker_trips t).
Definition inc_timeout (t : pm_stats) : pm_stats :=
  mk_stats (io_ok t) (io_retry t) (u64 (io_timeout t + 1)) (io_err t) (breaker_trips t).
Definition inc_err (t : pm_stats) : pm_stats :=
  mk_stats (io_ok t) (io_retry t) (io_timeout t) (u64 (io_err t + 1)) (breaker_trips t).
Definition inc_trips (t : pm_stats) : pm_stats :=
  mk_stats (io_ok t) (io_retry t) (io_timeout t) (io_err t) (u64 (breaker_trips t + 1)).

Definition pm_init (opt : option pm_cfg) (s : io_state) : io_state :=
  let cfg := match opt with Some c => c | None => g_cfg s end in
  mk_io cfg stats_zero (pm_breaker_init (breaker_fail_n cfg) (breaker_half_ms cfg))
    (os_ns s) (os_calls s) (os_errno s) (os_fds s).

Definition pm_get_stats (s : io_state) : pm_stats := g_stats s.
Definition pm_reset_stats (s : io_state) : io_state := set_stats (λ _, stats_zero) s.

(** ** Paths *)

Definition node_dir (n : pm_node_t) : bytes :=
  match n with
  | PM_NODE_CPU => lit "cpu"
  | PM_NODE_MEM => lit "mem"
  | _ => lit "inf"
  end.

Definition pm_node_str (n : pm_node_t) : bytes := node_dir n.

Definition file_str (f : pm_file_t) : bytes :=
  match f with
  | PM_FILE_CONFIG => lit "config"
  | PM_FILE_STATUS => lit "status"
  | _ => lit "data"
  end.

Definition build_path (cfg : pm_cfg) (cap : nat) (node : pm_node_t) (file : pm_file_t) : bytes :=
  snprintf_str cap
    (match root cfg with Some r => r | None => lit "/proc/pm" end
     ++ lit "/" ++ node_dir node ++ lit "/" ++ file_str file).

(** ** The I/O loops *)

(** One pass of a loop body: [Finish] returns from the function, [Retry] is [goto retry]. *)
Inductive attempt (A : Type) := Finish (a : A) | Retry.
Arguments Finish {A} a.
Arguments Retry {A}.

Section io.
Context {o : OS}.

(** One system call: its answer, and the time it takes. *)
Definition syscall {A} (f : nat → A) : mon io_state A := λ s,
  Done (f (os_calls s), pass (os_delay (os_calls s)) s).

(** -1 and [errno] on failure, as the C wrappers do. *)
Definition sys_open (path : bytes) (flags : Z) : mon io_state Z :=
  r ← syscall (λ n, os_open n path flags);
  match r with
  | inl fd => modify (set_fds (cons fd));; mret fd
  | inr e => modify (set_errno e);; mret (-1)
  end.

Definition sys_poll (fd timeout : Z) : mon io_state Z :=
  r ← syscall (λ n, os_poll n fd timeout);
  match r with
  | inl k => mret k
  | inr e => modify (set_errno e);; mret (-1)
  end.

(** The bytes read and the return value. *)
Definition sys_read (fd : Z) (count : nat) : mon io_state (Z * bytes) :=
  r ← syscall (λ n, os_read n fd count);
  match r with
  | inl d => mret (Z.of_nat (length d), d)
  | inr e => modify (set_errno e);; mret (-1, [])
  end.

Definition sys_write (fd : Z) (d : bytes) : mon io_state Z :=
  r ← syscall (λ n, os_write n fd d);
  match r with
  | inl k => mret (Z.of_nat k)
  | inr e => modify (set_errno e);; mret (-1)
  end.

Definition sys_close (fd : Z) : mon io_state unit :=
  syscall (λ _, tt);; modify (set_fds (remove_fd fd)).

(** usleep(us): at least [us] microseconds pass. *)
Definition usleep (us : Z) : mon io_state unit := λ s,
  Done (tt, pass (us * 1000 + os_delay (os_calls s)) s).

Definition count (f : pm_stats → pm_stats) : mon io_state unit := modify (set_stats f).

Definition breaker_allow : mon io_state Z := λ s,
  let '(r, cb) := pm_breaker_allow (g_cb s) (clock s) in Done (r, set_cb cb s).

Definition breaker_record (ok : Z) : mon io_state unit :=
  modify (λ s, set_cb (pm_breaker_record (g_cb s) ok (clock s)) s).

Definition open_nb (p : bytes) (write_mode : bool) : mon io_state Z :=
  cfg ← gets g_cfg;
  let O_RDONLY := 0 in let O_WRONLY := 1 in let O_NONBLOCK := 2048 in
  sys_open p (Z.lor (Z.lor (if write_mode then O_WRONLY else O_RDONLY) O_NONBLOCK)
                (open_flags_extra cfg)).

(** The function's results: the return code, the caller's buffer, and what was stored
    through [out_n]. *)
Definition read_res : Type := pm_rc * bytes * option nat.

Definition read_attempt (path buf : bytes) : mon io_state (attempt read_res) :=
  fd ← open_nb path false;
  if fd <? 0 then
    e ← gets os_errno;
    if (e =? EAGAIN) || (e =? EMFILE) then mret Retry
    else mret (Finish (PM_IOERR, buf, None))
  else
  cfg ← gets g_cfg;
  pr ← sys_poll fd (s32 (timeout_ms cfg));
  if pr =? 0 then
    sys_close fd;; count inc_timeout;; breaker_record 0;;
    mret (Finish (PM_TIMEOUT, buf, None))
  else if pr <? 0 then
    e ← gets os_errno;
    sys_close fd;;
    if e =? EINTR then mret Retry
    else breaker_record 0;; mret (Finish (PM_IOERR, buf, None))
  else
  '(n, d) ← sys_read fd (length buf - 1)%nat;
  e ← gets os_errno;
  sys_close fd;;
  if 0 <=? n then
    let buf' := memcpy buf d (length d) in
    let buf'' := if (0 <? length buf)%nat then <[Z.to_nat n := NUL]> buf' else buf' in
    count inc_ok;; breaker_record 1;;
    mret (Finish (PM_OK, buf'', Some (Z.to_nat n)))
  else if (e =? EAGAIN) || (e =? EINTR) then mret Retry
  else count inc_err;; breaker_record 0;; mret (Finish (PM_IOERR, buf, None)).

Definition write_attempt (path buf : bytes) : mon io_state (attempt pm_rc) :=
  fd ← open_nb path true;
  if fd <? 0 then
    e ← gets os_errno;
    if (e =? EAGAIN) || (e =? EMFILE) then mret Retry
    else mret (Finish PM_IOERR)
  else
  cfg ← gets g_cfg;
  pr ← sys_poll fd (s32 (timeout_ms cfg));
  if pr =? 0 then
    sys_close fd;; count inc_timeout;; breaker_record 0;; mret (Finish PM_TIMEOUT)
  else if pr <? 0 then
    e ← gets os_errno;
    sys_close fd;;
    if e =? EINTR then mret Retry
    else breaker_record 0;; mret (Finish PM_IOERR)
  else
  n ← sys_write fd buf;
  e ← gets os_errno;
  sys_close fd;;
  if n =? Z.of_nat (length buf) then
    count inc_ok;; breaker_record 1;; mret (Finish PM_OK)
  else if (e =? EAGAIN) || (e =? EINTR) then mret Retry
  else count inc_err;; breaker_record 0;; mret (Finish PM_IOERR).

(** The [for(;;)] with its retry block; [late] is the result of the timeout branch. *)
Fixpoint retry_loop {A} (body : mon io_state (attempt A)) (late : A) (t0 : Z)
    (fuel : nat) (bo : pm_backoff) : mon io_state A :=
  match fuel with
  | O => no_fuel
  | S fuel =>
    r ← body;
    match r with
    | Finish a => mret a
    | Retry =>
      count inc_retry;;
      now ← gets (λ s, now_ms (clock s));
      cfg ← gets g_cfg;
      if timeout_ms cfg <=? u64 (now - t0) then
        count inc_timeout;; breaker_record 0;; mret late
      else
        let '(us, bo') := pm_backoff_next bo in
        usleep us;; retry_loop body late t0 fuel bo'
    end
  end.

Definition guarded {A} (body : mon io_state (attempt A)) (refused late : A)
    (fuel : nat) : mon io_state A :=
  r ← breaker_allow;
  if negb (bool_of_int r) then count inc_trips;; mret refused
  else
  t0 ← gets (λ s, now_ms (clock s));
  cfg ← gets g_cfg;
  retry_loop body late t0 fuel
    (pm_backoff_init (backoff_init_us cfg) (backoff_max_us cfg)).

Definition read_text_file (fuel : nat) (path buf : bytes) : mon io_state read_res :=
  guarded (read_attempt path buf) (PM_AGAIN, buf, None) (PM_TIMEOUT, buf, None) fuel.

Definition write_text_file (fuel : nat) (path buf : bytes) : mon io_state pm_rc :=
  guarded (write_attempt path buf) PM_AGAIN PM_TIMEOUT fuel.

(** [out_n] is not passed by [pm_read_status]. *)
Definition pm_read_status (fuel : nat) (node : pm_node_t) (buf : bytes) :
    mon io_state (pm_rc * bytes) :=
  cfg ← gets g_cfg;
  r ← read_text_file fuel (build_path cfg 256 node PM_FILE_STATUS) buf;
  mret r.1.

Definition pm_read_data (fuel : nat) (node : pm_node_t) (buf : bytes) : mon io_state read_res :=
  cfg ← gets g_cfg;
  read_text_file fuel (build_path cfg 256 node PM_FILE_DATA) buf.

Definition pm_set_config (fuel : nat) (node : pm_node_t) (payload : bytes) : mon io_state pm_rc :=
  cfg ← gets g_cfg;
  write_text_file fuel (build_path cfg 256 node PM_FILE_CONFIG) payload.

End io.

(** ** Lemmas *)

(** The longest time a call may take, and the bound on the clock at the start of a run. *)
Definition max_delay : Z := 2 ^ 40 * 1000000000.

Definition wf_cfg (c : pm_cfg) : Prop :=
  in_u 32 (timeout_ms c) ∧ in_u 32 (backoff_init_us c) ∧ in_u 32 (backoff_max_us c)
  ∧ in_u 32 (breaker_fail_n c) ∧ in_u 32 (breaker_half_ms c).

#[export] Instance wf_cfg_dec c : Decision (wf_cfg c).
Proof. unfold wf_cfg; apply _. Defined.

Definition wf_io (s : io_state) : Prop :=
  wf_cfg (g_cfg s) ∧ wf_breaker (g_cb s) ∧ 0 ≤ os_ns s < max_delay.

(** What every attempt keeps, and how long it may take. *)
Definition frame (k : Z) (s s' : io_state) : Prop :=
  os_fds s' = os_fds s ∧ g_cfg s' = g_cfg s
  ∧ os_ns s ≤ os_ns s' ≤ os_ns s + k * max_delay.

Lemma frame_trans k k' s1 s2 s3 :
  frame k s1 s2 → frame k' s2 s3 → frame (k + k') s1 s3.
Proof. unfold frame, max_delay. intros (?&?&?) (?&?&?). split_and!; [congruence..|lia|lia]. Qed.

Lemma clock_ms s : 0 ≤ os_ns s < 1000 * max_delay → now_ms (clock s) = os_ns s / 1000000.
Proof.
  unfold max_delay, clock, timespec_of_ns. intros H.
  assert (0 ≤ os_ns s / 1000000000 < 2 ^ 51).
  { split; [apply Z.div_pos|apply Z.div_lt_upper_bound]; lia. }
  pose proof (Z.mod_pos_bound (os_ns s) 1000000000 ltac:(lia)).
  rewrite now_ms_spec by (simpl; lia). cbn [tv_sec tv_nsec].
  rewrite (Z.div_mod (os_ns s) 1000000000) at 3 by lia.
  replace (1000000000 * (os_ns s / 1000000000)) with (os_ns s / 1000000000 * 1000 * 1000000) by lia.
  by rewrite Z.div_add_l by lia.
Qed.

Lemma wf_ts_clock s : 0 ≤ os_ns s < 1000 * max_delay → wf_ts (clock s).
Proof.
  unfold max_delay, clock, timespec_of_ns, wf_ts. intros H. cbn [tv_sec tv_nsec].
  pose proof (Z.mod_pos_bound (os_ns s) 1000000000 ltac:(lia)).
  split; [|lia]. split; [apply Z.div_pos|apply Z.div_lt_upper_bound]; lia.
Qed.

(** *** The account of an attempt

    What an attempt must do, as a function of the answers that the system gives to its calls:
    end the function with a result, a change of the statistics and perhaps a report to the
    breaker, or be made again after [calls] calls that have left [errno]. *)
Inductive account (A : Type) :=
  | Ends (a : A) (change : pm_stats → pm_stats) (report : option Z)
  | Again (calls : nat) (errno : Z).
Arguments Ends {A} a change report.
Arguments Again {A} calls errno.

Section accounts.
Context {o : OS}.

(** The caller's buffer after a read of [d]: these bytes, a NUL, and the rest as it was. *)
Definition read_into (buf d : bytes) : bytes :=
  if decide (buf = []) then [] else d ++ NUL :: drop (S (length d)) buf.

Definition read_account (path buf : bytes) (s : io_state) : account read_res :=
  let n := os_calls s in
  match os_open n path (Z.lor (Z.lor 0 2048) (open_flags_extra (g_cfg s))) with
  | inr e =>
    if (e =? EAGAIN) || (e =? EMFILE) then Again 1 e else Ends (PM_IOERR, buf, None) id None
  | inl fd =>
    match os_poll (S n) fd (s32 (timeout_ms (g_cfg s))) with
    | inr e => if e =? EINTR then Again 3 e else Ends (PM_IOERR, buf, None) id (Some 0)
    | inl 0 => Ends (PM_TIMEOUT, buf, None) inc_timeout (Some 0)
    | inl _ =>
      match os_read (S (S n)) fd (length buf - 1)%nat with
      | inl d => Ends (PM_OK, read_into buf d, Some (length d)) inc_ok (Some 1)
      | inr e =>
        if (e =? EAGAIN) || (e =? EINTR) then Again 4 e
        else Ends (PM_IOERR, buf, None) inc_err (Some 0)
      end
    end
  end.

(** A short write leaves [errno] as earlier calls did. *)
Definition write_account (path buf : bytes) (s : io_state) : account pm_rc :=
  let n := os_calls s in
  match os_open n path (Z.lor (Z.lor 1 2048) (open_flags_extra (g_cfg s))) with
  | inr e => if (e =? EAGAIN) || (e =? EMFILE) then Again 1 e else Ends PM_IOERR id None
  | inl fd =>
    match os_poll (S n) fd (s32 (timeout_ms (g_cfg s))) with
    | inr e => if e =? EINTR then Again 3 e else Ends PM_IOERR id (Some 0)
    | inl 0 => Ends PM_TIMEOUT inc_timeout (Some 0)
    | inl _ =>
      let failed e :=
        if (e =? EAGAIN) || (e =? EINTR) then Again 4 e else Ends PM_IOERR inc_err (Some 0) in
      match os_write (S (S n)) fd buf with
      | inl k => if (k =? length buf)%nat then Ends PM_OK inc_ok (Some 1) else failed (os_errno s)
      | inr e => failed e
      end
    end
  end.
End accounts.

(** The breaker after the report of a result at the time of [s]. *)
Definition reported (report : option Z) (s : io_state) (cb : pm_breaker) : pm_breaker :=
  match report with Some ok => pm_breaker_record cb ok (clock s) | None => cb end.

(** An attempt from [s] has ended in [s'] as the account says. *)
Definition settled {A} (acct : account A) (s : io_state) (r : attempt A) (s' : io_state) : Prop :=
  match acct, r with
  | Ends a change report, Finish a' =>
      a' = a ∧ g_stats s' = change (g_stats s) ∧ g_cb s' = reported report s' (g_cb s)
  | Again calls e, Retry =>
      os_calls s' = (os_calls s + calls)%nat ∧ os_errno s' = e
      ∧ g_stats s' = g_stats s ∧ g_cb s' = g_cb s
  | _, _ => False
  end.

(** What a read that returns [a] has done to the caller's buffer: on success the bytes read,
    a NUL right after them, and the rest of the buffer untouched. *)
Definition stored (buf : bytes) (a : read_res) : Prop :=
  let '(rc, buf', out) := a in
  length buf' = length buf ∧
  if decide (rc = PM_OK) then
    ∃ d, out = Some (length d) ∧ (length d ≤ length buf - 1)%nat
         ∧ (buf = [] ∧ buf' = [] ∨ buf' = d ++ NUL :: drop (S (length d)) buf)
  else buf' = buf ∧ out = None.

Arguments stored : simpl never.

Definition attempt_post {A} (acct : io_state → account A) (s : io_state)
    (r : attempt A) (s' : io_state) : Prop :=
  frame 4 s s' ∧ settled (acct s) s r s'.

(** [r] attempts that had to be made again, one after the other, each counted and followed by
    a sleep: the calls of the next attempt come right after those of the last. *)
Inductive retries {A} (acct : io_state → account A) : nat → io_state → io_state → Prop :=
  | retries_0 s : retries acct 0 s s
  | retries_S r s m s' calls e :
      retries acct r s m → acct m = Again calls e →
      os_calls s' = S (os_calls m + calls) → os_errno s' = e →
      os_fds s' = os_fds m → g_cfg s' = g_cfg m → g_cb s' = g_cb m →
      g_stats s' = inc_retry (g_stats m) → retries acct (S r) s s'.

(** One run of a retry loop: [r] retries, then an attempt that ends the function, or one that
    would be made again had the time not run out. *)
Definition retried {A} (acct : io_state → account A) (late : A) (r : nat)
    (s : io_state) (a : A) (s' : io_state) : Prop :=
  ∃ m, retries acct r s m ∧
    match acct m with
    | Ends a' change report =>
        a = a' ∧ g_stats s' = change (g_stats m) ∧ g_cb s' = reported report s' (g_cb m)
    | Again _ _ =>
        a = late ∧ g_stats s' = inc_timeout (inc_retry (g_stats m))
        ∧ g_cb s' = reported (Some 0) s' (g_cb m)
    end.

Lemma remove_fd_head fd l : remove_fd fd (fd :: l) = l.
Proof. simpl. by rewrite Z.eqb_refl. Qed.

Lemma memcpy_nul buf d :
  (length d < length buf)%nat →
  <[length d := NUL]> (memcpy buf d (length d)) = d ++ NUL :: drop (S (length d)) buf.
Proof.
  intros Hd. unfold memcpy. rewrite firstn_all, insert_app_r_alt, Nat.sub_diag by lia. f_equal.
  destruct (lookup_lt_is_Some_2 buf (length d)) as [x Hx]; [done|]. by rewrite (drop_S _ _ _ Hx).
Qed.

Lemma stored_ok buf d :
  (length d ≤ length buf - 1)%nat →
  stored buf (PM_OK,
    if (0 <? length buf)%nat then <[length d := NUL]> (memcpy buf d (length d))
    else memcpy buf d (length d), Some (length d)).
Proof.
  intros Hd. unfold stored. destruct (Nat.ltb_spec 0 (length buf)) as [Hb|Hb].
  - rewrite memcpy_nul by lia. rewrite decide_True by done. split.
    + rewrite length_app. cbn [length]. rewrite length_drop. lia.
    + exists d. auto.
  - assert (buf = []) as -> by (apply nil_length_inv; lia).
    assert (d = []) as -> by (apply nil_length_inv; simpl in *; lia).
    split; [done|]. rewrite decide_True by done. exists []. simpl. auto.
Qed.

(** A stretch of at most [k] system calls leaves the library's globals alone. *)
Definition calm (k : Z) (s s' : io_state) : Prop :=
  g_cfg s' = g_cfg s ∧ g_stats s' = g_stats s ∧ g_cb s' = g_cb s
  ∧ os_ns s ≤ os_ns s' ≤ os_ns s + k * max_delay.

Lemma calm_trans k k' s1 s2 s3 : calm k s1 s2 → calm k' s2 s3 → calm (k + k') s1 s3.
Proof.
  unfold calm, max_delay. intros (?&?&?&?) (?&?&?&?). split_and!; [congruence..|lia|lia].
Qed.

Lemma calm_frame k k' s s' : calm k s s' → k ≤ k' → os_fds s' = os_fds s → frame k' s s'.
Proof. unfold calm, frame, max_delay. intros (?&?&?&?) ??. split_and!; [done..|lia|nia]. Qed.

Lemma wp_syscall `{OS} {A} (f : nat → A) s (Q : A → io_state → Prop) :
  Q (f (os_calls s)) (pass (os_delay (os_calls s)) s) → wp (syscall f) s Q.
Proof. done. Qed.

(** Execution along a path on which the answers of the system are known. *)
Ltac known_step :=
  lazymatch goal with
  | |- wp (syscall _) _ _ => apply wp_syscall; cbn [os_calls pass set_fds os_errno set_errno]
  | |- wp (sys_open _ _) _ _ => unfold sys_open
  | |- wp (sys_poll _ _) _ _ => unfold sys_poll
  | |- wp (sys_read _ _) _ _ => unfold sys_read
  | |- wp (sys_write _ _) _ _ => unfold sys_write
  | |- wp (sys_close _) _ _ => unfold sys_close
  | |- wp (open_nb _ _) _ _ => unfold open_nb; cbv zeta
  | |- wp (count _) _ _ => unfold count
  | |- wp (breaker_record _) _ _ => unfold breaker_record
  | |- wp (_ ≫= _) _ _ => apply wp_bind
  | |- wp (mret _) _ _ => apply wp_ret
  | |- wp (gets _) _ _ => apply wp_gets
  | |- wp (modify _) _ _ => apply wp_modify
  end; cbv beta iota.

(** Once all answers are known: what is left of a path, and its account. *)
Ltac path_known :=
  repeat first [known_step | progress cbn [os_errno set_errno set_fds pass Z.ltb Z.leb Z.eqb Z.compare]];
  try match goal with |- wp (if ?b then _ else _) _ _ => destruct b end;
  repeat known_step; cbn; split_and?; try done; try lia.

Section io_lemmas.
Context `{!OSLaws o}.

Ltac calls :=
  repeat (wp_step || (apply wp_syscall; cbv beta));
  unfold calm, max_delay;
  match goal with |- context [os_delay ?n] => pose proof (os_delay_range n) end;
  simpl; split_and!; try done; try lia.

Lemma sys_open_spec path flags s :
  wp (sys_open path flags) s (λ fd s', calm 1 s s' ∧
    if fd <? 0 then os_fds s' = os_fds s else os_fds s' = fd :: os_fds s).
Proof.
  unfold sys_open. calls.
  rewrite (proj2 (Z.ltb_ge _ _)); [done|]. by eapply os_open_fd.
Qed.

Lemma sys_poll_spec fd t s :
  wp (sys_poll fd t) s (λ _ s', calm 1 s s' ∧ os_fds s' = os_fds s).
Proof. unfold sys_poll. calls. Qed.

Lemma sys_read_spec fd k s :
  wp (sys_read fd k) s (λ '(n, d) s', calm 1 s s' ∧ os_fds s' = os_fds s ∧
    (n = -1 ∨ n = Z.of_nat (length d) ∧ (length d ≤ k)%nat)).
Proof.
  unfold sys_read. calls. right. split; [done|]. by eapply os_read_le.
Qed.

Lemma sys_write_spec fd d s :
  wp (sys_write fd d) s (λ _ s', calm 1 s s' ∧ os_fds s' = os_fds s).
Proof. unfold sys_write. calls. Qed.

Lemma sys_close_spec fd s :
  wp (sys_close fd) s (λ _ s', calm 1 s s' ∧ os_fds s' = remove_fd fd (os_fds s)).
Proof. unfold sys_close. calls. Qed.

(** Symbolic execution of an attempt: a call's specification in front of each path. *)
Ltac path :=
  repeat (lazymatch goal with
  | |- wp (sys_open _ _) _ _ => eapply wp_mono; [apply sys_open_spec|]; cbv beta; intros
  | |- wp (sys_poll _ _) _ _ => eapply wp_mono; [apply sys_poll_spec|]; cbv beta; intros
  | |- wp (sys_read _ _) _ _ => eapply wp_mono; [apply sys_read_spec|]; cbv beta; intros
  | |- wp (sys_write _ _) _ _ => eapply wp_mono; [apply sys_write_spec|]; cbv beta; intros
  | |- wp (sys_close _) _ _ => eapply wp_mono; [apply sys_close_spec|]; cbv beta; intros
  | _ => wp_step
  end).

(** The end of a path: the descriptor opened is closed again, and the clock went on. *)
Ltac path_end :=
  unfold frame, calm, max_delay in *; destruct_and?; simpl in *;
  repeat match goal with
  | H : ?b = _, H' : context [if ?b then _ else _] |- _ => rewrite H in H'
  end;
  split_and!; try congruence; try lia;
  repeat match goal with H : os_fds _ = _ |- _ => rewrite H; clear H end;
  simpl; rewrite ?Z.eqb_refl; try congruence.

Lemma read_attempt_frame path buf s : wp (read_attempt path buf) s (λ _ s', frame 4 s s').
Proof. unfold read_attempt, open_nb, count, breaker_record. path. all: path_end. Qed.

Lemma write_attempt_frame path buf s : wp (write_attempt path buf) s (λ _ s', frame 4 s s').
Proof. unfold write_attempt, open_nb, count, breaker_record. path. all: path_end. Qed.

(** The buffer that the code builds in two steps. *)
Lemma read_into_eq buf d :
  (length d ≤ length buf - 1)%nat →
  (if (0 <? length buf)%nat then <[length d := NUL]> (memcpy buf d (length d))
   else memcpy buf d (length d)) = read_into buf d.
Proof.
  intros Hd. unfold read_into. destruct (Nat.ltb_spec 0 (length buf)) as [Hb|Hb].
  - rewrite memcpy_nul by lia. by rewrite decide_False by (intros ->; simpl in Hb; lia).
  - assert (buf = []) as -> by (apply nil_length_inv; lia).
    assert (d = []) as -> by (apply nil_length_inv; simpl in *; lia). done.
Qed.

(** Up to the answer of [poll]. *)
Ltac to_poll path flags :=
  repeat known_step;
  destruct (os_open _ path flags) as [fd|e] eqn:Eo; [|by path_known];
  repeat known_step; rewrite (proj2 (Z.ltb_ge fd 0)) by (by eapply os_open_fd);
  repeat known_step; cbn [g_cfg set_fds pass];
  destruct (os_poll _ fd _) as [k|e] eqn:Ep; [|by path_known];
  pose proof (os_poll_nonneg _ _ _ _ Ep) as Hk; destruct k as [|k|k]; [by path_known| |lia];
  repeat known_step; cbn [Z.eqb Z.ltb Z.compare]; repeat known_step.

Lemma read_attempt_spec path buf s :
  wp (read_attempt path buf) s (attempt_post (read_account path buf) s).
Proof.
  apply wp_and; [apply read_attempt_frame|]. unfold read_attempt, read_account, settled.
  to_poll path (Z.lor (Z.lor 0 2048) (open_flags_extra (g_cfg s))).
  destruct (os_read _ fd _) as [d|e] eqn:Er; [|by path_known].
  pose proof (os_read_le _ _ _ _ Er) as Hl. repeat known_step.
  rewrite (proj2 (Z.leb_le _ _)) by lia. repeat known_step.
  rewrite Nat2Z.id. by rewrite read_into_eq by done.
Qed.

Lemma write_attempt_spec path buf s :
  wp (write_attempt path buf) s (attempt_post (write_account path buf) s).
Proof.
  apply wp_and; [apply write_attempt_frame|]. unfold write_attempt, write_account, settled.
  to_poll path (Z.lor (Z.lor 1 2048) (open_flags_extra (g_cfg s))).
  destruct (os_write _ fd _) as [k'|e] eqn:Er; repeat known_step.
  - destruct (Nat.eqb_spec k' (length buf)) as [->|Hne].
    + rewrite Z.eqb_refl. by path_known.
    + rewrite (proj2 (Z.eqb_neq _ _)) by lia. by path_known.
  - rewrite (proj2 (Z.eqb_neq _ _)) by lia. by path_known.
Qed.

(** The retry loop, for any body that meets its specification from every state: [i] counts
    the retries so far, each of which has slept at least [m] microseconds. *)
Section retry.
Context {A : Type} (body : mon io_state (attempt A)) (late : A).
Context (acct : io_state → account A).
Context (body_spec : ∀ s, wp body s (attempt_post acct s)).

Lemma elapsed_lt T a b :
  0 ≤ b ≤ a → a / 1000000 - b / 1000000 < T → a - b < T * 1000000.
Proof.
  intros H Hd. pose proof (Z.div_mod a 1000000 ltac:(lia)).
  pose proof (Z.div_mod b 1000000 ltac:(lia)).
  pose proof (Z.mod_pos_bound a 1000000 ltac:(lia)).
  pose proof (Z.mod_pos_bound b 1000000 ltac:(lia)). lia.
Qed.

Lemma retry_loop_spec m s0 fuel i bo s :
  wf_io s0 → 0 < m →
  wf_backoff bo → m ≤ Z.min (cur_us bo) (max_us bo) →
  retries acct i s0 s → os_fds s = os_fds s0 → g_cfg s = g_cfg s0 →
  os_ns s0 + Z.of_nat i * (m * 1000) ≤ os_ns s →
  os_ns s ≤ os_ns s0 + 3 * max_delay →
  (Z.of_nat i - 1) * m < timeout_ms (g_cfg s0) * 1000 →
  timeout_ms (g_cfg s0) * 1000 ≤ (Z.of_nat (i + fuel) - 1) * m →
  wp (retry_loop body late (now_ms (clock s0)) fuel bo) s (λ a s',
    ∃ r, retried acct late r s0 a s'
         ∧ (Z.of_nat r - 1) * m < timeout_ms (g_cfg s0) * 1000
         ∧ os_fds s' = os_fds s0 ∧ g_cfg s' = g_cfg s0
         ∧ os_ns s0 ≤ os_ns s' ≤ os_ns s0 + 7 * max_delay).
Proof.
  intros ([HT _] & _ & Ht0) Hm. unfold in_u in HT.
  revert i bo s. induction fuel as [|fuel IH]; intros i bo s Hbo Hmin Hre Hfd Hcfg Hlo Hhi Hi Hf.
  { rewrite Nat.add_0_r in Hf. lia. }
  cbn [retry_loop]. wp_step. eapply wp_mono; [apply body_spec|].
  intros r s1 [(Hfd1 & Hcfg1 & Hns1) Hpost]. unfold settled in Hpost.
  destruct (acct s) as [a change report|calls e] eqn:Ea, r as [a'|]; try done.
  { wp_step. exists i. split_and!; [|lia|congruence..|lia|lia].
    exists s. split; [done|]. by rewrite Ea. }
  assert (os_ns s0 ≤ os_ns s1 < 1000 * max_delay) as Hs1 by (unfold max_delay in *; nia).
  destruct Hpost as (Hca1 & He1 & Hst1 & Hcb1). unfold count, breaker_record. repeat wp_step.
  all: rewrite clock_ms in Hb by (simpl; unfold max_delay in *; lia).
  all: rewrite clock_ms in Hb by (simpl; unfold max_delay in *; lia).
  all: cbn [set_stats os_ns g_cfg] in Hb; rewrite Hcfg1, Hcfg in Hb.
  all: assert (os_ns s0 / 1000000 ≤ os_ns s1 / 1000000) by (apply Z.div_le_mono; lia).
  all: assert (os_ns s1 / 1000000 ≤ 2 ^ 63)
    by (apply Z.div_le_upper_bound; unfold max_delay in *; lia).
  all: assert (0 ≤ os_ns s0 / 1000000) by (apply Z.div_pos; lia).
  all: unfold u64 in Hb; rewrite wrapu_small in Hb by (unfold in_u; lia).
  - exists i. split_and!; simpl; [|lia|congruence..|lia|lia].
    exists s. rewrite Ea. split_and!; [done..|cbn; congruence|].
    unfold reported, clock. simpl. by rewrite Hcb1.
  - apply Z.leb_gt, elapsed_lt in Hb; [|lia].
    match goal with H : pm_backoff_next bo = _ |- _ =>
      rewrite pm_backoff_next_spec in H by done; simplify_eq end.
    unfold wp, mbind, mon_bind, usleep. pose proof (os_delay_range (os_calls s1)).
    destruct Hbo as [Hc Hx]. apply (IH (S i)); cbn -[Z.of_nat Z.mul Z.sub Nat.add max_delay].
    + unfold wf_backoff. simpl. lia.
    + lia.
    + eapply (retries_S acct i s0 s); try done; cbn; congruence.
    + congruence.
    + congruence.
    + rewrite Nat2Z.inj_succ, Z.mul_succ_l. lia.
    + unfold max_delay in *. lia.
    + rewrite Nat2Z.inj_succ.
      assert (Z.of_nat i * m * 1000 < timeout_ms (g_cfg s0) * 1000000) by lia. lia.
    + replace (S i + fuel)%nat with (i + S fuel)%nat by lia. exact Hf.
Qed.
End retry.

End io_lemmas.

(** An [open] that fails for good ends the attempt with nothing counted. *)
Lemma read_attempt_open_fails `{OS} e path buf s (Q : attempt read_res → io_state → Prop) :
  (∀ k p fl, os_open k p fl = inr e) → e ≠ EAGAIN → e ≠ EMFILE →
  (∀ s', g_stats s' = g_stats s → g_cb s' = g_cb s → os_fds s' = os_fds s →
         Q (Finish (PM_IOERR, buf, None)) s') →
  wp (read_attempt path buf) s Q.
Proof.
  intros Ho H1 H2 HQ. unfold read_attempt, open_nb, sys_open. do 4 wp_step.
  unfold wp at 1, syscall. rewrite Ho. do 3 wp_step. cbn [Z.ltb Z.compare].
  do 2 wp_step. cbn [set_errno os_errno].
  rewrite (proj2 (Z.eqb_neq e EAGAIN)), (proj2 (Z.eqb_neq e EMFILE)) by done.
  cbn [orb]. wp_step. by apply HQ.
Qed.

(** A status read of a tree that is not there. *)
Lemma read_status_missing `{OS} e fuel node buf s :
  (∀ k p fl, os_open k p fl = inr e) → e ≠ EAGAIN → e ≠ EMFILE → open (g_cb s) = 0 →
  wp (pm_read_status (S fuel) node buf) s (λ r s1, r = (PM_IOERR, buf)
    ∧ g_stats s1 = g_stats s ∧ g_cb s1 = g_cb s ∧ os_fds s1 = os_fds s).
Proof.
  intros Ho H1 H2 Hs. unfold pm_read_status, read_text_file, guarded. do 4 wp_step.
  unfold wp at 1, breaker_allow, pm_breaker_allow. rewrite Hs. cbn [bool_of_int Z.eqb negb].
  do 4 wp_step. cbn [retry_loop]. wp_step. by apply read_attempt_open_fails with e.
Qed.

(** What a read that ends has done to the caller's buffer. *)
Lemma read_account_stored `{!OSLaws o} path buf s a change report :
  read_account path buf s = Ends a change report → stored buf a.
Proof.
  unfold read_account. destruct (os_open _ _ _) as [fd|e].
  2:{ destruct (_ || _); intros [= <- _ _]. by split. }
  destruct (os_poll _ _ _) as [k|e]; [|destruct (_ =? _); intros [= <- _ _]; by split].
  assert (∀ r, os_read (S (S (os_calls s))) fd (length buf - 1) = r →
    match r with
    | inl d => Ends (PM_OK, read_into buf d, Some (length d)) inc_ok (Some 1)
    | inr e => if (e =? EAGAIN) || (e =? EINTR) then Again 4 e
               else Ends (PM_IOERR, buf, None) inc_err (Some 0)
    end = Ends a change report → stored buf a) as Hread.
  { intros [d|e] E; [|destruct (_ || _); intros [= <- _ _]; by split]. intros [= <- _ _].
    rewrite <- read_into_eq by (by eapply os_read_le). apply stored_ok. by eapply os_read_le. }
  destruct k as [|k|k]; [|by eapply Hread..]. intros [= <- _ _]. by split.
Qed.

(** *** Whole calls *)

(** The least a retry sleeps, and the fuel that is enough for the configured timeout. *)
Definition least_sleep (c : pm_cfg) : Z :=
  let b := pm_backoff_init (backoff_init_us c) (backoff_max_us c) in
  Z.min (cur_us b) (max_us b).

Definition fuel_enough (c : pm_cfg) (fuel : nat) : Prop :=
  timeout_ms c * 1000 ≤ (Z.of_nat fuel - 1) * least_sleep c.

#[export] Instance fuel_enough_dec c n : Decision (fuel_enough c n).
Proof. unfold fuel_enough; apply _. Defined.

(** What a whole call does: a refusal by the open breaker touches nothing but the trip
    counter; otherwise there are a bounded number of retries and a last attempt, each with its
    account.  Either way no descriptor is left open. *)
Definition io_outcome {A} (acct : io_state → account A) (refused late : A)
    (s : io_state) (a : A) (s' : io_state) : Prop :=
  os_fds s' = os_fds s ∧ g_cfg s' = g_cfg s ∧ os_ns s ≤ os_ns s' ∧
  let '(ok, cb) := pm_breaker_allow (g_cb s) (clock s) in
  if bool_of_int ok then
    ∃ n, retried acct late n (set_cb cb s) a s'
         ∧ (Z.of_nat n - 1) * least_sleep (g_cfg s) < timeout_ms (g_cfg s) * 1000
  else a = refused ∧ s' = set_stats inc_trips s.

Lemma wf_least_sleep c : wf_cfg c → 0 < least_sleep c.
Proof.
  intros (_ & Hi & Hm & _). pose proof (wf_backoff_init _ _ Hi Hm) as [? ?].
  unfold least_sleep. lia.
Qed.

Section calls.
Context `{!OSLaws o}.

Lemma guarded_spec {A} (body : mon io_state (attempt A)) acct refused late fuel s :
  (∀ s, wp body s (attempt_post acct s)) →
  wf_io s → fuel_enough (g_cfg s) fuel →
  wp (guarded body refused late fuel) s (io_outcome acct refused late s).
Proof.
  intros Hbody Hs Hfuel. pose proof Hs as (Hcfg & Hcb & Hns).
  unfold guarded, breaker_allow, io_outcome, count. wp_step. unfold wp at 1.
  destruct (pm_breaker_allow (g_cb s) (clock s)) as [ok cb] eqn:Ea.
  assert (bool_of_int ok = false → cb = g_cb s) as Hsame.
  { unfold pm_breaker_allow in Ea. repeat case_match; simplify_eq/=; done. }
  assert (wf_breaker cb) as Hcb'.
  { change cb with (ok, cb).2. rewrite <- Ea. by apply wf_breaker_allow. }
  destruct (bool_of_int ok); cbn [negb]; repeat wp_step.
  - pose proof Hcfg as (_ & Hi & Hm & _). pose proof (wf_least_sleep _ Hcfg).
    change (now_ms (clock (set_cb cb s))) with (now_ms (clock (set_cb cb s))).
    eapply wp_mono.
    + eapply (retry_loop_spec body late acct Hbody (least_sleep (g_cfg s)) (set_cb cb s) fuel 0);
        simpl; try done; try lia.
      * by apply wf_backoff_init.
      * apply retries_0.
      * destruct Hcfg as [[??] _]. nia.
    + intros a s' (n & Hn & Hb & ? & ? & ?). simpl in *. split_and!; try done; try lia. eauto.
  - rewrite Hsame by done. split_and!; try done; simpl; lia.
Qed.

End calls.

(** A run of [n] status reads of one node. *)
Fixpoint read_status_times `{OS} (n fuel : nat) (node : pm_node_t) (buf : bytes) :
    mon io_state (list pm_rc) :=
  match n with
  | O => mret []
  | S n =>
    r ← pm_read_status fuel node buf;
    rs ← read_status_times n fuel node r.2;
    mret (r.1 :: rs)
  end.

(** *** Concrete systems for the witnesses *)

(** A tree that answers: every file reads as [d], every write is complete. *)
Definition os_serving (d : bytes) : OS := {|
  os_open := λ _ _ _, inl 3;
  os_poll := λ _ _ _, inl 1;
  os_read := λ _ _ k, inl (take k d);
  os_write := λ _ _ b, inl (length b);
  os_delay := λ _, 5000 |}.

(** A system where [open] always fails with [e]. *)
Definition os_failing (e : Z) : OS := {|
  os_open := λ _ _ _, inr e;
  os_poll := λ _ _ _, inl 1;
  os_read := λ _ _ k, inl [];
  os_write := λ _ _ b, inl 0%nat;
  os_delay := λ _, 5000 |}.

(** A system whose writes are cut short at one byte. *)
Definition os_short : OS := {|
  os_open := λ _ _ _, inl 3;
  os_poll := λ _ _ _, inl 1;
  os_read := λ _ _ k, inl [];
  os_write := λ _ _ b, inl (Nat.min 1 (length b));
  os_delay := λ _, 0 |}.

#[export] Instance os_serving_laws d : OSLaws (os_serving d).
Proof.
  split; cbn; intros; simplify_eq; try lia. rewrite length_take. lia.
Qed.
#[export] Instance os_failing_laws e : OSLaws (os_failing e).
Proof. split; cbn; intros; simplify_eq; simpl; lia. Qed.
#[export] Instance os_short_laws : OSLaws os_short.
Proof. split; cbn; intros; simplify_eq; simpl; try lia. case_match; lia. Qed.

(** The library after [pm_init(NULL)] at one second of uptime. *)
Definition io_start : io_state :=
  pm_init None (mk_io g_cfg_default stats_zero (pm_breaker_init 0 0) 1000000000 0 0 []).

(** ** Properties *)



(** A write returns, with the same account of retries, descriptors, statistics and
    breaker. *)
Theorem write_text_file_total (o : OS) (laws : OSLaws o) (fuel : nat) (path buf : bytes)
    (s : io_state) :
  wf_io s → fuel_enough (g_cfg s) fuel →
  ∃ rc s', write_text_file fuel path buf s = Done (rc, s')
    ∧ io_outcome (write_account path buf) PM_AGAIN PM_TIMEOUT s rc s'.
Proof.
  intros Hs Hf. apply wp_done. apply guarded_spec; [|done..].
  intros. apply write_attempt_spec.
Qed.

Lemma write_text_file_total_witness :
  ∃ rc s', @write_text_file (os_serving []) 1002 (lit "/proc/pm/cpu/config") (lit "1 100")
             io_start = Done (rc, s')
    ∧ rc = PM_OK ∧ os_fds s' = [].
Proof.
  destruct (write_text_file_total (os_serving []) _ 1002 (lit "/proc/pm/cpu/config")
    (lit "1 100") io_start) as (a & s' & H & Hfd & _).
  - vm_compute. intuition congruence.
  - vm_compute. congruence.
  - exists a, s'. split; [exact H|]. split; [|exact Hfd].
    assert (H' := H). vm_compute in H'. injection H' as <- _. reflexivity.
Defined.

(** An absent tree never trips the breaker. When [open] fails with an error that is not
    retried, a status read returns PM_IOERR and changes neither the statistics nor the
    breaker, so no number of such reads opens the circuit or counts a trip. *)
Theorem missing_tree_never_trips (o : OS) (e : Z) (n fuel : nat) (node : pm_node_t)
    (buf : bytes) (s : io_state) :
  (∀ k p fl, os_open k p fl = inr e) → e ≠ EAGAIN → e ≠ EMFILE → open (g_cb s) = 0 →
  ∃ s', read_status_times n (S fuel) node buf s = Done (replicate n PM_IOERR, s')
        ∧ g_stats s' = g_stats s ∧ g_cb s' = g_cb s ∧ os_fds s' = os_fds s.
Proof.
  intros Ho H1 H2. revert s. induction n as [|n IH]; intros s Hs; [by exists s|].
  pose proof (read_status_missing e fuel node buf s Ho H1 H2 Hs) as Hone.
  apply wp_done in Hone as (r & s1 & E & -> & Hst & Hcb & Hfd).
  cbn [read_status_times]. unfold mbind, mon_bind. rewrite E. cbn [fst snd].
  destruct (IH s1) as (s2 & E2 & ? & ? & ?); [congruence|].
  rewrite E2. exists s2. cbn. split_and!; [done|congruence..].
Qed.

Lemma missing_tree_never_trips_witness :
  ∃ s', @read_status_times (os_failing ENOENT) 20 5 PM_NODE_CPU (replicate 8 NUL) io_start
        = Done (replicate 20 PM_IOERR, s')
        ∧ breaker_trips (g_stats s') = 0 ∧ open (g_cb s') = 0.
Proof.
  destruct (missing_tree_never_trips (os_failing ENOENT) ENOENT 20 4 PM_NODE_CPU
    (replicate 8 NUL) io_start) as (s' & H & Hst & Hcb & _).
  - intros. reflexivity.
  - discriminate.
  - discriminate.
  - reflexivity.
  - exists s'. split; [exact H|]. rewrite Hst, Hcb. split; reflexivity.
Defined.

(** A short write. When [write] accepts fewer bytes than the payload it does not set
    [errno], yet the code consults it: the attempt is repeated from the first byte when an
    earlier call left EAGAIN or EINTR there, and fails with PM_IOERR otherwise. *)
Theorem short_write_reads_stale_errno (o : OS) (path buf : bytes) (s : io_state) (fd pr : Z)
    (k : nat) :
  let n := os_calls s in
  let flags := Z.lor (Z.lor 1 2048) (open_flags_extra (g_cfg s)) in
  os_open n path flags = inl fd → 0 ≤ fd →
  os_poll (S n) fd (s32 (timeout_ms (g_cfg s))) = inl pr → 0 < pr →
  os_write (S (S n)) fd buf = inl k → (k < length buf)%nat →
  ∃ s', write_attempt path buf s
        = Done (if (os_errno s =? EAGAIN) || (os_errno s =? EINTR) then Retry
                else Finish PM_IOERR, s').
Proof.
  intros n flags Ho Hfd Hp Hpr Hw Hk.
  unfold write_attempt, open_nb, sys_open, sys_poll, sys_write, sys_close, syscall, count,
    breaker_record, mbind, mon_bind, mret, mon_ret, gets, modify.
  cbn -[Z.lor Z.eqb Z.ltb s32]. fold flags n. rewrite Ho. cbn -[Z.eqb Z.ltb s32].
  rewrite (proj2 (Z.ltb_ge fd 0)) by done. cbn -[Z.eqb Z.ltb s32]. fold n. rewrite Hp.
  rewrite (proj2 (Z.eqb_neq pr 0)), (proj2 (Z.ltb_ge pr 0)) by lia.
  cbn -[Z.eqb Z.ltb]. fold n. rewrite Hw. cbn -[Z.eqb Z.ltb].
  rewrite (proj2 (Z.eqb_neq (Z.of_nat k) _)) by lia. fold EAGAIN EINTR.
  destruct ((os_errno s =? EAGAIN) || (os_errno s =? EINTR)); eauto.
Qed.

Lemma short_write_reads_stale_errno_witness :
  ∃ s', @write_attempt os_short (lit "f") (lit "1 100") (set_errno EAGAIN io_start)
        = Done (Retry, s').
Proof.
  destruct (short_write_reads_stale_errno os_short (lit "f") (lit "1 100")
    (set_errno EAGAIN io_start) 3 1 1) as [s' H];
    try reflexivity; try (vm_compute; congruence); [simpl; lia|].
  exists s'. exact H.
Defined.

(** The paths. While the root leaves room in the 256-byte buffer the path is
    root/node/file, distinct nodes and files have distinct paths; a root of 255 bytes or
    more is cut there, and every node and file has the same path. *)
Theorem build_path_spec (cfg : pm_cfg) (r : bytes) (n n' : pm_node_t) (f f' : pm_file_t) :
  root cfg = Some r →
  ((length r ≤ 244)%nat →
     build_path cfg 256 n f = r ++ lit "/" ++ node_dir n ++ lit "/" ++ file_str f
     ∧ (build_path cfg 256 n f = build_path cfg 256 n' f' → n = n' ∧ f = f'))
  ∧ ((255 ≤ length r)%nat → build_path cfg 256 n f = build_path cfg 256 n' f').
Proof.
  intros Hr. unfold build_path, snprintf_str. rewrite Hr.
  split; intros Hlen.
  - assert (∀ n f, take (256 - 1) (r ++ lit "/" ++ node_dir n ++ lit "/" ++ file_str f)
                   = r ++ lit "/" ++ node_dir n ++ lit "/" ++ file_str f) as E.
    { intros. apply take_ge. rewrite length_app. destruct n0, f0; simpl; lia. }
    rewrite !E. split; [done|]. intros H%app_inv_head.
    destruct n, n', f, f'; try done; discriminate H.
  - rewrite !take_app_le by lia. done.
Qed.

Lemma build_path_spec_witness :
  build_path g_cfg_default 256 PM_NODE_MEM PM_FILE_DATA = lit "/proc/pm/mem/data".
Proof.
  destruct (proj1 (build_path_spec g_cfg_default (lit "/proc/pm") PM_NODE_MEM PM_NODE_MEM
    PM_FILE_DATA PM_FILE_DATA eq_refl)) as [H _]; [simpl; lia|]. exact H.
Defined.
