(* ===== verification/LibpmTests.v ===== *)
(** * LibpmTests: the tests of libpm (tests/libpm)

    [test_cb], [test_integ_fakefs] and [test_io_backoff] as programs over ProcfsIo.v.  An
    assertion that fails ends the program: the result is [None], otherwise the exit status.  A
    fake tree, as scripts/gen_fake_procfs.sh makes it, is a promise about the operating
    system. *)
From stdpp Require Import prelude strings list.
From Stdlib Require Import Ascii ZArith Lia.
From S2P Require Import Prelude CString Backoff Breaker ProcfsIo.

Local Open Scope Z_scope.

(** ** test_util.h *)

Definition test_cfg (root : bytes) : pm_cfg := mk_cfg (Some root) 0 200 200 5000 8 100.

Definition pm_test_bootstrap (root : bytes) : mon io_state unit :=
  modify (pm_init (Some (test_cfg root)));; modify pm_reset_stats.

Definition is_ok (rc : pm_rc) : bool := bool_decide (rc = PM_OK).

Section tests.
Context {o : OS} (fuel : nat).

(** ** test_cb.c

    [b] is what the array holds before. *)
Fixpoint cb_loop (n : nat) (b : bytes) (trips : Z) : mon io_state Z :=
  match n with
  | O => mret trips
  | S n =>
    r ← pm_read_status fuel PM_NODE_CPU b;
    cb_loop n r.2 (if bool_decide (r.1 = PM_AGAIN) then trips + 1 else trips)
  end.

Definition test_cb_main (b : bytes) : mon io_state (option Z) :=
  pm_test_bootstrap (lit "/path/not/exist");;
  trips ← cb_loop 20 b 0;
  st ← gets pm_get_stats;
  mret (if (0 <? trips) || (0 <? breaker_trips st) then Some 0 else None).

(** ** test_integ_fakefs.c *)

Definition fake_root (env : option bytes) : bytes := default (lit "/tmp/fake_pm") env.

Definition test_integ_main (env : option bytes) (sbuf : bytes) : mon io_state (option Z) :=
  pm_test_bootstrap (fake_root env);;
  r1 ← pm_read_status fuel PM_NODE_CPU sbuf;
  if negb (is_ok r1.1) then mret None else
  r2 ← pm_read_status fuel PM_NODE_MEM r1.2;
  if negb (is_ok r2.1) then mret None else
  r3 ← pm_read_status fuel PM_NODE_INF r2.2;
  if negb (is_ok r3.1) then mret None else
  w1 ← pm_set_config fuel PM_NODE_CPU (lit "1 50" ++ [LF]);
  if negb (is_ok w1) then mret None else
  w2 ← pm_set_config fuel PM_NODE_CPU (lit "0" ++ [LF]);
  if negb (is_ok w2) then mret None else
  mret (Some 0).

(** ** test_io_backoff.c

    The rate is compared as a fraction: 0.05 + 0.02 is the double nearest to 7/100, and for
    the few operations of this program no other quotient rounds to it. *)
Definition rate_ok (st : pm_stats) : bool :=
  let total := u64 (u64 (io_ok st + io_err st) + io_timeout st) in
  if negb (total =? 0) then 100 * io_retry st <? 7 * total else true.

Definition test_io_backoff_main (env : option bytes) (buf dbuf : bytes) :
    mon io_state (option Z) :=
  pm_test_bootstrap (fake_root env);;
  r ← pm_read_status fuel PM_NODE_MEM buf;
  if negb (is_ok r.1) then mret None else
  match strstr (cstr r.2) (lit "ok=") with
  | None => mret None
  | Some _ =>
    d ← pm_read_data fuel PM_NODE_MEM dbuf;
    let '(rc, _, out_n) := d in
    if negb (is_ok rc) then mret None else
    if negb (0 <? default 0%nat out_n)%nat then mret None else
    w ← pm_set_config fuel PM_NODE_MEM (lit "1 100" ++ [LF]);
    if negb (is_ok w) then mret None else
    st ← gets pm_get_stats;
    mret (if rate_ok st then Some 0 else None)
  end.
End tests.

(** ** A tree of files

    Opening a file of the tree succeeds, the descriptor is ready at once, a read delivers the
    file from its start, and a write takes everything. *)
Definition file_tree (o : OS) (files : bytes → option bytes) : Prop :=
  ∀ n p fl d, files p = Some d → ∃ fd,
    os_open n p fl = inl fd ∧ 0 ≤ fd
    ∧ (∀ t, ∃ k, os_poll (S n) fd t = inl k ∧ 0 < k)
    ∧ (∀ k, os_read (S (S n)) fd k = inl (take k d))
    ∧ (∀ b, os_write (S (S n)) fd b = inl (length b)).

Definition tree_path (root : bytes) (node : pm_node_t) (file : pm_file_t) : bytes :=
  root ++ lit "/" ++ node_dir node ++ lit "/" ++ file_str file.

(** ** Lemmas *)

(** The state of the library while all goes well. *)
Definition all_well (root : bytes) (k : Z) (s : io_state) : Prop :=
  g_cfg s = test_cfg root ∧ open (g_cb s) = 0
  ∧ g_stats s = mk_stats k 0 0 0 0.

Lemma cstr_cut d t : cstr (d ++ NUL :: t) = cstr d.
Proof. induction d as [|c d IH]; [done|]. cbn. destruct (Ascii.eqb c NUL); [done|]. by f_equal. Qed.

Section tree.
Context {o : OS} (files : bytes → option bytes) (Ht : file_tree o files).

Lemma wp_guarded_once {A} (body : mon io_state (attempt A)) refused late fuel s Q :
  open (g_cb s) = 0 → wp body s (λ r s', ∃ a, r = Finish a ∧ Q a s') →
  wp (guarded body refused late (S fuel)) s Q.
Proof.
  intros Ho H. unfold guarded. wp_step. unfold wp at 1, breaker_allow, pm_breaker_allow. rewrite Ho.
  cbn [bool_of_int Z.eqb negb]. assert (set_cb (g_cb s) s = s) as -> by by destruct s.
  do 4 wp_step. cbn [retry_loop]. wp_step. eapply wp_mono; [exact H|].
  by intros r s' (a & -> & HQ).
Qed.

Lemma well_bounds k : 0 ≤ k < 2 ^ 63 → u64 (k + 1) = k + 1.
Proof. intros Hk. unfold u64. apply wrapu_small. unfold in_u. lia. Qed.

(** What a call that succeeds leaves. *)
Lemma well_after root k s s' :
  all_well root k s → 0 ≤ k < 2 ^ 63 → g_cfg s' = g_cfg s → g_stats s' = inc_ok (g_stats s) →
  g_cb s' = pm_breaker_record (g_cb s) 1 (clock s') → all_well root (k + 1) s'.
Proof.
  intros (Hc & Ho & Hs) Hk E1 E2 E3. split; [congruence|]. rewrite E2, E3, Hs. split; [done|].
  unfold inc_ok. cbn. by rewrite well_bounds.
Qed.

Lemma read_tree fuel p d buf root k s :
  files p = Some d → all_well root k s → 0 ≤ k < 2 ^ 63 →
  wp (read_text_file (S fuel) p buf) s (λ r s', r.1.1 = PM_OK
    ∧ r.2 = Some (length (take (length buf - 1) d)) ∧ length r.1.2 = length buf
    ∧ ((0 < length buf)%nat → cstr r.1.2 = cstr (take (length buf - 1) d)) ∧ all_well root (k + 1) s').
Proof.
  intros Hp Hw Hk. set (t := take (length buf - 1) d).
  assert (length t ≤ length buf - 1)%nat as Hl by (unfold t; rewrite length_take; lia).
  unfold read_text_file. apply wp_guarded_once; [apply Hw|]. unfold read_attempt.
  destruct (Ht (os_calls s) p (Z.lor (Z.lor 0 2048) (open_flags_extra (g_cfg s))) d Hp)
    as (fd & E & H0 & H1 & H2 & _). destruct (H1 (s32 (timeout_ms (g_cfg s)))) as (j & Ej & Hj).
  repeat known_step. rewrite E. repeat known_step. rewrite (proj2 (Z.ltb_ge _ _)) by done.
  repeat known_step. cbn [g_cfg set_fds pass]. rewrite Ej. repeat known_step.
  rewrite (proj2 (Z.eqb_neq _ _)), (proj2 (Z.ltb_ge j 0)) by lia. repeat known_step.
  rewrite H2. repeat known_step. rewrite (proj2 (Z.leb_le _ _)) by lia. cbv zeta.
  repeat known_step. eexists. split; [done|]. rewrite Nat2Z.id. split; [done|]. split; [done|].
  fold t. pose proof (stored_ok buf t Hl) as [Hlen _]. split; [exact Hlen|].
  split; [|by eapply well_after]. intros Hb. cbn [fst snd]. rewrite (proj2 (Nat.ltb_lt _ _)) by done.
  rewrite memcpy_nul by lia. apply cstr_cut.
Qed.

Lemma write_tree fuel p d b root k s :
  files p = Some d → all_well root k s → 0 ≤ k < 2 ^ 63 →
  wp (write_text_file (S fuel) p b) s (λ rc s', rc = PM_OK ∧ all_well root (k + 1) s').
Proof.
  intros Hp Hw Hk. unfold write_text_file. apply wp_guarded_once; [apply Hw|]. unfold write_attempt.
  destruct (Ht (os_calls s) p (Z.lor (Z.lor 1 2048) (open_flags_extra (g_cfg s))) d Hp)
    as (fd & E & H0 & H1 & _ & H3). destruct (H1 (s32 (timeout_ms (g_cfg s)))) as (j & Ej & Hj).
  repeat known_step. rewrite E. repeat known_step. rewrite (proj2 (Z.ltb_ge _ _)) by done.
  repeat known_step. cbn [g_cfg set_fds pass]. rewrite Ej. repeat known_step.
  rewrite (proj2 (Z.eqb_neq _ _)), (proj2 (Z.ltb_ge j 0)) by lia. repeat known_step.
  rewrite H3. repeat known_step. rewrite Z.eqb_refl. repeat known_step.
  eexists. split; [done|]. split; [done|]. by eapply well_after.
Qed.
End tree.

Lemma build_tree_path root node file :
  (length root ≤ 240)%nat → build_path (test_cfg root) 256 node file = tree_path root node file.
Proof.
  intros Hl. unfold build_path, snprintf_str, tree_path. cbn [ProcfsIo.root test_cfg].
  apply take_ge. rewrite !length_app. destruct node, file; cbn; lia.
Qed.

Lemma bootstrap_well root s : all_well root 0 (pm_reset_stats (pm_init (Some (test_cfg root)) s)).
Proof. by repeat split. Qed.

Section calls.
Context {o : OS} (files : bytes → option bytes) (Ht : file_tree o files) (root : bytes).
Context (Hroot : (length root ≤ 240)%nat) (fuel : nat).

Lemma status_tree node d buf k s :
  files (tree_path root node PM_FILE_STATUS) = Some d → all_well root k s → 0 ≤ k < 2 ^ 63 →
  wp (pm_read_status (S fuel) node buf) s (λ r s', r.1 = PM_OK ∧ length r.2 = length buf
    ∧ ((0 < length buf)%nat → cstr r.2 = cstr (take (length buf - 1) d)) ∧ all_well root (k + 1) s').
Proof.
  intros Hd Hw Hk. unfold pm_read_status. do 3 wp_step. rewrite (proj1 Hw), build_tree_path by done.
  eapply wp_mono; [by eapply read_tree|]. intros r s' (H1 & _ & H2 & H3 & H4). by wp_step.
Qed.

Lemma data_tree node d buf k s :
  files (tree_path root node PM_FILE_DATA) = Some d → all_well root k s → 0 ≤ k < 2 ^ 63 →
  wp (pm_read_data (S fuel) node buf) s (λ r s', r.1.1 = PM_OK
    ∧ r.2 = Some (length (take (length buf - 1) d)) ∧ all_well root (k + 1) s').
Proof.
  intros Hd Hw Hk. unfold pm_read_data. do 2 wp_step. rewrite (proj1 Hw), build_tree_path by done.
  eapply wp_mono; [by eapply read_tree|]. intros r s' (H1 & H2 & _ & _ & H4). by split_and!.
Qed.

Lemma config_tree node d b k s :
  files (tree_path root node PM_FILE_CONFIG) = Some d → all_well root k s → 0 ≤ k < 2 ^ 63 →
  wp (pm_set_config (S fuel) node b) s (λ rc s', rc = PM_OK ∧ all_well root (k + 1) s').
Proof.
  intros Hd Hw Hk. unfold pm_set_config. do 2 wp_step. rewrite (proj1 Hw), build_tree_path by done.
  by eapply write_tree.
Qed.
End calls.

(** The loop of [test_cb] over a tree that is not there. *)
Lemma cb_loop_missing {o : OS} e fuel n b trips s :
  (∀ k p fl, os_open k p fl = inr e) → e ≠ EAGAIN → e ≠ EMFILE → open (g_cb s) = 0 →
  wp (cb_loop (S fuel) n b trips) s (λ t s', t = trips ∧ g_stats s' = g_stats s).
Proof.
  intros Ho H1 H2. revert s. induction n as [|n IH]; intros s Hs; cbn [cb_loop]; [by wp_step|].
  wp_step. eapply wp_mono; [by eapply read_status_missing|]. intros r s1 (-> & Hst & Hcb & _).
  cbn [fst snd]. rewrite bool_decide_false by done.
  eapply wp_mono; [apply IH; congruence|]. intros t s2 [-> E]. split; [done|congruence].
Qed.

(** Both tests on a fake tree. *)
Section fake_tree.
Context {o : OS} (files : bytes → option bytes) (env : option bytes) (Ht : file_tree o files).
Abbreviation root := (fake_root env).
Context (Hroot : (length root ≤ 240)%nat) (fuel : nat).
Context (Hfiles : ∀ node file, is_Some (files (tree_path root node file))).

Lemma test_integ_spec sbuf s :
  wp (test_integ_main (S fuel) env sbuf) s (λ r s', r = Some 0 ∧ g_stats s' = mk_stats 5 0 0 0 0).
Proof.
  unfold test_integ_main, pm_test_bootstrap. do 4 wp_step. generalize (bootstrap_well root s).
  generalize (pm_reset_stats (pm_init (Some (test_cfg root)) s)). intros s0 H0.
  assert (∀ node b k s, all_well root k s → 0 ≤ k < 2 ^ 63 →
    wp (pm_read_status (S fuel) node b) s (λ r s', r.1 = PM_OK ∧ all_well root (k + 1) s')) as Hread.
  { intros node b k s' Hw Hk. destruct (Hfiles node PM_FILE_STATUS) as [x Hx].
    eapply wp_mono; [by eapply status_tree|]. by intros r s'' (-> & _ & _ & ?). }
  assert (∀ b k s, all_well root k s → 0 ≤ k < 2 ^ 63 →
    wp (pm_set_config (S fuel) PM_NODE_CPU b) s (λ rc s', rc = PM_OK ∧ all_well root (k + 1) s'))
    as Hwrite.
  { intros b k s' Hw Hk. destruct (Hfiles PM_NODE_CPU PM_FILE_CONFIG) as [x Hx]. by eapply config_tree. }
  do 3 (wp_step; eapply wp_mono; [eapply Hread; [eassumption|lia]|]; cbv beta; intros ? ? [-> ?];
    change (is_ok PM_OK) with true; cbn [negb]).
  do 2 (wp_step; eapply wp_mono; [eapply Hwrite; [eassumption|lia]|]; cbv beta; intros ? ? [-> ?];
    change (is_ok PM_OK) with true; cbn [negb]).
  wp_step. split; [done|]. match goal with H : all_well _ _ ?s |- g_stats ?s = _ => apply H end.
Qed.

Lemma test_io_backoff_spec buf dbuf st d s :
  (0 < length buf)%nat → (1 < length dbuf)%nat →
  files (tree_path root PM_NODE_MEM PM_FILE_STATUS) = Some st →
  strstr (cstr (take (length buf - 1) st)) (lit "ok=") ≠ None →
  files (tree_path root PM_NODE_MEM PM_FILE_DATA) = Some d → d ≠ [] →
  wp (test_io_backoff_main (S fuel) env buf dbuf) s (λ r s',
    r = Some 0 ∧ g_stats s' = mk_stats 3 0 0 0 0).
Proof.
  intros Hb Hdb Hst Hok Hd Hne. unfold test_io_backoff_main, pm_test_bootstrap. do 4 wp_step.
  generalize (bootstrap_well root s).
  generalize (pm_reset_stats (pm_init (Some (test_cfg root)) s)). intros s0 H0.
  destruct (Hfiles PM_NODE_MEM PM_FILE_CONFIG) as [x Hx].
  wp_step. eapply wp_mono; [eapply status_tree; [done|done|exact Hst|exact H0|lia]|].
  intros r s1 (-> & _ & Hs & H3). change (is_ok PM_OK) with true. cbn [negb]. rewrite Hs by done.
  destruct (strstr _ _); [|done]. wp_step.
  eapply wp_mono; [eapply data_tree; [done|done|exact Hd|exact H3|lia]|].
  intros [[rc db] n] s2 (Hrc & Hn & H4). cbn [fst snd] in *. subst.
  change (is_ok PM_OK) with true. cbn [negb default].
  rewrite (proj2 (Nat.ltb_lt _ _)) by (rewrite length_take; destruct d; [done|simpl; lia]).
  cbn [negb]. wp_step. eapply wp_mono; [eapply config_tree; [done|done|exact Hx|exact H4|lia]|].
  intros ? s3 [-> H5]. change (is_ok PM_OK) with true. cbn [negb]. do 3 wp_step. unfold pm_get_stats.
  destruct H5 as (_ & _ & ->). by split.
Qed.
End fake_tree.

(** ** Properties *)

(** C39: the tests of libpm on a fake tree. On any system that serves the files of a tree under
    the root, where each node has its three files, the status of [mem] reads "ok=" and its
    data is not empty, both tests pass, whatever the arrays hold and whatever state the
    library was in; every one of their calls succeeds at its first attempt, and the statistics
    have counted these calls and nothing else. *)
Theorem fake_tree_tests_pass (o : OS) (files : bytes → option bytes) (env : option bytes)
    (fuel : nat) (sbuf buf dbuf st d : bytes) (s : io_state) :
  file_tree o files → (length (fake_root env) ≤ 240)%nat → (0 < fuel)%nat →
  (∀ node file, is_Some (files (tree_path (fake_root env) node file))) →
  (0 < length buf)%nat → (1 < length dbuf)%nat →
  files (tree_path (fake_root env) PM_NODE_MEM PM_FILE_STATUS) = Some st →
  strstr (cstr (take (length buf - 1) st)) (lit "ok=") ≠ None →
  files (tree_path (fake_root env) PM_NODE_MEM PM_FILE_DATA) = Some d → d ≠ [] →
  ∃ s1 s2, test_integ_main fuel env sbuf s = Done (Some 0, s1) ∧ g_stats s1 = mk_stats 5 0 0 0 0
    ∧ test_io_backoff_main fuel env buf dbuf s = Done (Some 0, s2) ∧ g_stats s2 = mk_stats 3 0 0 0 0.
Proof.
  intros Ht Hr Hf Hfiles Hb Hdb Hst Hok Hd Hne. destruct fuel as [|fuel]; [lia|].
  pose proof (test_integ_spec files env Ht Hr fuel Hfiles sbuf s) as H1.
  pose proof (test_io_backoff_spec files env Ht Hr fuel Hfiles buf dbuf st d s Hb Hdb Hst Hok Hd Hne) as H2.
  apply wp_done in H1 as (r1 & s1 & E1 & -> & Hs1). apply wp_done in H2 as (r2 & s2 & E2 & -> & Hs2).
  by exists s1, s2.
Qed.

Lemma fake_tree_tests_pass_witness :
  ∃ s1 s2, @test_integ_main (os_serving (lit "ok=1 retries=0" ++ [LF])) 1 None (replicate 256 NUL) io_start
      = Done (Some 0, s1)
    ∧ @test_io_backoff_main (os_serving (lit "ok=1 retries=0" ++ [LF])) 1 None (replicate 512 "?"%char)
        (replicate 512 "?"%char) io_start = Done (Some 0, s2)
    ∧ g_stats s2 = mk_stats 3 0 0 0 0.
Proof.
  destruct (fake_tree_tests_pass (os_serving (lit "ok=1 retries=0" ++ [LF]))
    (λ _, Some (lit "ok=1 retries=0" ++ [LF])) None 1 (replicate 256 NUL) (replicate 512 "?"%char)
    (replicate 512 "?"%char) (lit "ok=1 retries=0" ++ [LF]) (lit "ok=1 retries=0" ++ [LF]) io_start)
    as (s1 & s2 & E1 & _ & E2 & H2).
  - intros n p fl d [= <-]. exists 3. split; [reflexivity|]. split; [lia|].
    split; [intros t; exists 1; by split|]. split; [done|]. intros b. reflexivity.
  - simpl. lia.
  - lia.
  - intros node file. by eexists.
  - rewrite length_replicate. lia.
  - rewrite length_replicate. lia.
  - reflexivity.
  - vm_compute. discriminate.
  - reflexivity.
  - discriminate.
  - exists s1, s2. split; [exact E1|]. split; [exact E2|exact H2].
Defined.

(** [test_cb] fails. It points the library at a path that does not exist and asserts that the
    breaker has tripped; but an [open] that fails for good is not recorded with the breaker,
    so that its 20 reads trip nothing, whatever the state before. *)
Theorem test_cb_fails (o : OS) (e : Z) (fuel : nat) (b : bytes) (s : io_state) :
  (∀ k p fl, os_open k p fl = inr e) → e ≠ EAGAIN → e ≠ EMFILE → (0 < fuel)%nat →
  ∃ s', test_cb_main fuel b s = Done (None, s').
Proof.
  intros Ho H1 H2 Hf. destruct fuel as [|fuel]; [lia|].
  assert (wp (test_cb_main (S fuel) b) s (λ r _, r = None)) as H.
  { unfold test_cb_main, pm_test_bootstrap. do 5 wp_step.
    eapply wp_mono; [by eapply cb_loop_missing|]. intros t s1 [-> Hs]. do 3 wp_step.
    unfold pm_get_stats. by rewrite Hs. }
  apply wp_done in H as (r & s' & E & ->). by exists s'.
Qed.

Lemma test_cb_fails_witness :
  ∃ s', @test_cb_main (os_failing ENOENT) 1 (replicate 8 NUL) io_start = Done (None, s').
Proof.
  apply (test_cb_fails (os_failing ENOENT) ENOENT 1 (replicate 8 NUL) io_start).
  - intros. reflexivity.
  - discriminate.
  - discriminate.
  - lia.
Defined.
