(* ===== verification/KvParser.v ===== *)
(** * KvParser: userspace/libpm/src/parser.c

    [pm_parse_kv] looks up a key in a text of [key=value] lines and leaves the trimmed value in
    the caller's array. *)
From stdpp Require Import prelude strings list.
From Stdlib Require Import Ascii Lia.
From S2P Require Import Prelude CString.

(** ** trim *)

(** [while(len>0 && isspace(p[len-1])) p[--len]=0;] with [p] at [off]: the array and [len]. *)
Fixpoint trim_end (s : bytes) (off len : nat) : bytes * nat :=
  match len with
  | O => (s, O)
  | S n =>
    match s !! (off + n) with
    | Some c => if isspace c then trim_end (<[off + n := NUL]> s) off n else (s, len)
    | None => (s, len)
    end
  end.

(** [s] is the whole array; [memmove(s, p, len+1)] at the end. *)
Definition trim (s : bytes) : bytes :=
  let p := skip_space (cstr s) in
  let off := ptr_diff p (cstr s) in
  let '(s, len) := trim_end s off (strlen p) in
  if off =? 0 then s else take (len + 1) (drop off s) ++ drop (len + 1) s.

(** ** pm_parse_kv *)

(** [strncmp(line, key, klen) == 0], [line] being longer than [klen]. *)
Definition starts_with (key line : bytes) : bool := is_prefix key line.

(** The return value and the array; [fuel] bounds the lines.  With [val_sz] 0 the subtraction
    wraps around, and the copy runs out of every array. *)
Fixpoint parse_kv_from (fuel : nat) (line key val : bytes) : res (Z * bytes) :=
  match fuel with
  | O => NoFuel
  | S fuel =>
    match line with
    | [] => Done ((-1)%Z, val)
    | _ =>
      let klen := strlen key in
      let eol := default [] (strchr line LF) in
      if (klen + 1 <? ptr_diff eol line) && starts_with key line
         && bool_decide (line !! klen = Some "="%char) then
        let copy := ptr_diff eol (drop (klen + 1) line) in
        if length val =? 0 then Undef else
        let copy := if length val <=? copy then length val - 1 else copy in
        Done (0%Z, trim (<[copy := NUL]> (memcpy val (drop (klen + 1) line) copy)))
      else parse_kv_from fuel (match eol with [] => [] | _ :: rest => rest end) key val
    end
  end.

(** [val] is the array, its length [val_sz]. *)
Definition pm_parse_kv (text key val : bytes) : res (Z * bytes) :=
  parse_kv_from (S (length text)) text key val.

(** ** The contract *)

(** A string without the white space at its ends. *)
Definition strip_end (s : bytes) : bytes := reverse (skip_space (reverse s)).
Definition strip (s : bytes) : bytes := strip_end (skip_space s).

Definition value_of (key line : bytes) : option bytes :=
  if is_prefix (key ++ ["="%char]) line && (length key + 1 <? length line)
  then Some (drop (length key + 1) line) else None.

Fixpoint lookup_line (key : bytes) (ls : list bytes) : option bytes :=
  match ls with
  | [] => None
  | l :: ls => match value_of key l with Some v => Some v | None => lookup_line key ls end
  end.

(** Lines ended by newlines, and a last one that need not be. *)
Definition text_of (ls : list bytes) (last : bytes) : bytes :=
  concat ((λ l, l ++ [LF]) <$> ls) ++ last.

(** ** Lemmas: trim *)

Lemma length_trim_end s off len : length (trim_end s off len).1 = length s.
Proof.
  revert s. induction len as [|n IH]; intros s; cbn [trim_end]; [done|].
  destruct (s !! (off + n)) as [c|]; [|done]. destruct (isspace c); [|done].
  by rewrite IH, length_insert.
Qed.

Lemma strip_end_snoc s c : strip_end (s ++ [c]) = if isspace c then strip_end s else s ++ [c].
Proof.
  unfold strip_end. rewrite reverse_snoc. cbn [skip_space]. destruct (isspace c); [done|].
  by rewrite <- reverse_snoc, reverse_involutive.
Qed.

Lemma nul_not_space : isspace NUL = false.
Proof. reflexivity. Qed.

(** The loop leaves, from [off] on, the string without its trailing space. *)
Lemma trim_end_spec a p : ∀ b,
  ∃ z, trim_end (a ++ p ++ NUL :: b) (length a) (length p)
    = (a ++ strip_end p ++ NUL :: z, length (strip_end p)).
Proof.
  induction p as [|c p IH] using rev_ind; intros b.
  - exists b. done.
  - rewrite length_app, Nat.add_1_r. cbn [trim_end length].
    assert ((a ++ (p ++ [c]) ++ NUL :: b) !! (length a + length p) = Some c) as ->.
    { rewrite <- app_assoc, lookup_app_r by lia.
      replace (length a + length p - length a) with (length p) by lia. by apply list_lookup_middle. }
    rewrite strip_end_snoc. destruct (isspace c) eqn:E.
    + destruct (IH (NUL :: b)) as (z & Hz). exists z. rewrite <- Hz. f_equal.
      rewrite <- app_assoc, insert_app_r_alt by lia.
      replace (length a + length p - length a) with (length p) by lia.
      by rewrite insert_app_r_alt, Nat.sub_diag by lia.
    + exists b. by rewrite length_app, Nat.add_1_r.
Qed.

Lemma skip_space_suffix s : ∃ w, s = w ++ skip_space s.
Proof.
  induction s as [|c s [w IH]]; [by exists []|]. cbn [skip_space].
  destruct (isspace c); [|by exists []]. exists (c :: w). cbn [app]. by f_equal.
Qed.

Lemma strip_end_prefix s : ∃ w, s = strip_end s ++ w.
Proof.
  unfold strip_end. destruct (skip_space_suffix (reverse s)) as [w Hw]. exists (reverse w).
  rewrite <- reverse_app, <- Hw. by rewrite reverse_involutive.
Qed.

Lemma trim_spec s (v b : bytes) :
  s = v ++ NUL :: b → nul_free v → cstr (trim s) = strip v ∧ length (trim s) = length s.
Proof.
  intros -> Hv. unfold trim. rewrite cstr_app_nul by done.
  destruct (skip_space_suffix v) as [w Hw]. set (p := skip_space v) in *.
  assert (ptr_diff p v = length w) as ->.
  { unfold ptr_diff. rewrite Hw at 1. rewrite length_app. lia. }
  assert (v ++ NUL :: b = w ++ p ++ NUL :: b) as E by (rewrite Hw at 1; by rewrite <- app_assoc).
  rewrite E. destruct (trim_end_spec w p b) as (z & Hz).
  pose proof (length_trim_end (w ++ p ++ NUL :: b) (length w) (length p)) as Hl.
  unfold strlen. rewrite Hz in Hl |- *. cbn [fst] in Hl.
  assert (nul_free (strip_end p)) as Hn.
  { destruct (strip_end_prefix p) as [u Hu]. rewrite Hw, nul_free_app, Hu, nul_free_app in Hv. tauto. }
  change (strip v) with (strip_end p). destruct (Nat.eqb_spec (length w) 0) as [E0|E0].
  - apply nil_length_inv in E0 as ->. split; [by apply cstr_app_nul|done].
  - rewrite drop_app_length, <- Hl.
    assert (take (length (strip_end p) + 1) (strip_end p ++ NUL :: z) = strip_end p ++ [NUL]) as ->.
    { rewrite take_app_ge by lia.
      by replace (length (strip_end p) + 1 - length (strip_end p)) with 1 by lia. }
    split; [rewrite <- app_assoc; by apply cstr_app_nul|].
    rewrite !length_app, length_drop, !length_app. cbn [length]. lia.
Qed.

(** ** Lemmas: lines *)

(** The text after the end of the line. *)
Definition after (rest : bytes) : bytes := match rest with [] => [] | _ :: r => r end.

Lemma strchr_eol (l rest : bytes) :
  LF ∉ l → (rest = [] ∨ ∃ r, rest = LF :: r) → default [] (strchr (l ++ rest) LF) = rest.
Proof.
  intros Hl [->|[r ->]].
  - rewrite app_nil_r. apply strchr_None in Hl. by rewrite Hl.
  - by rewrite strchr_found.
Qed.

Lemma ptr_diff_app (l rest : bytes) : ptr_diff rest (l ++ rest) = length l.
Proof. unfold ptr_diff. rewrite length_app. lia. Qed.

(** The tests of one line decide whether it gives the key a value. *)
Lemma line_tests key l rest :
  (length key + 1 <? length l) && starts_with key (l ++ rest)
    && bool_decide ((l ++ rest) !! length key = Some "="%char)
  = match value_of key l with Some _ => true | None => false end.
Proof.
  unfold value_of, starts_with.
  destruct (Nat.ltb_spec (length key + 1) (length l)) as [Hl|Hl]; cbn [andb];
    [|by rewrite andb_false_r].
  rewrite andb_true_r. apply eq_bool_prop_intro. split; intros H.
  - apply Is_true_true in H. apply andb_true_iff in H as [Hp He]. apply bool_decide_eq_true_1 in He.
    apply is_prefix_spec in Hp as [t Ht].
    assert (is_prefix (key ++ ["="%char]) l = true) as ->; [|done].
    assert (key = take (length key) l) as Hk.
    { rewrite <- (take_app_le l rest) by lia. rewrite Ht. by rewrite take_app_length. }
    rewrite lookup_app_l in He by lia.
    apply is_prefix_spec. exists (drop (S (length key)) l).
    rewrite <- (take_drop_middle l (length key) "="%char) at 1 by done.
    rewrite <- Hk. by rewrite <- app_assoc.
  - destruct (is_prefix (key ++ ["="%char]) l) eqn:Hp; [|done].
    apply is_prefix_spec in Hp as [t ->]. rewrite <- !app_assoc.
    rewrite is_prefix_app. cbn [andb app]. rewrite list_lookup_middle by done.
    by rewrite bool_decide_eq_true_2.
Qed.

Lemma value_of_drop key l v : value_of key l = Some v → v = drop (length key + 1) l ∧ length key + 1 < length l.
Proof.
  unfold value_of. destruct (Nat.ltb_spec (length key + 1) (length l)); [|by rewrite andb_false_r].
  destruct (is_prefix _ l); [|done]. by intros [= <-].
Qed.

(** What the array holds when a value is found. *)
Definition found (val v : bytes) (val' : bytes) : Prop :=
  cstr val' = strip (take (length val - 1) v) ∧ length val' = length val.

(** One line. *)
Lemma parse_line fuel key val l rest :
  LF ∉ l → nul_free l → (rest = [] ∨ ∃ r, rest = LF :: r) → l ++ rest ≠ [] → 0 < length val →
  match value_of key l with
  | Some v => ∃ val', parse_kv_from (S fuel) (l ++ rest) key val = Done (0%Z, val') ∧ found val v val'
  | None => parse_kv_from (S fuel) (l ++ rest) key val = parse_kv_from fuel (after rest) key val
  end.
Proof.
  intros Hl Hn Hrest Hne Hval. pose proof (line_tests key l rest) as Ht.
  cbn [parse_kv_from]. destruct (l ++ rest) as [|c t] eqn:E; [done|]. rewrite <- E in *. clear c t E.
  rewrite strchr_eol, ptr_diff_app by done. unfold strlen. rewrite Ht.
  destruct (value_of key l) as [v|] eqn:Ev; [|done].
  apply value_of_drop in Ev as [-> Hlen]. set (k := length key + 1) in *.
  assert (drop k (l ++ rest) = drop k l ++ rest) as -> by (by rewrite drop_app_le by lia).
  rewrite ptr_diff_app. set (v := drop k l) in *.
  rewrite (proj2 (Nat.eqb_neq (length val) 0)) by lia.
  set (n := if length val <=? length v then length val - 1 else length v).
  assert (n ≤ length v ∧ n < length val ∧ take n v = take (length val - 1) v) as (H1 & H2 & H3).
  { unfold n. destruct (Nat.leb_spec (length val) (length v)); [split_and!; [lia|lia|done]|].
    split_and!; [lia|lia|]. by rewrite !take_ge by lia. }
  eexists. split; [done|].
  assert (<[n:=NUL]> (memcpy val (v ++ rest) n) = take n v ++ NUL :: drop (S n) val) as ->.
  { unfold memcpy. rewrite take_app_le by done.
    rewrite insert_app_r_alt by (rewrite length_take; lia).
    rewrite length_take, Nat.min_l, Nat.sub_diag by lia.
    destruct (drop n val) as [|x d] eqn:Ed.
    { apply (f_equal length) in Ed. rewrite length_drop in Ed. simpl in Ed. lia. }
    cbn [insert list_insert]. do 2 f_equal. replace (S n) with (n + 1) by lia.
    by rewrite <- drop_drop, Ed. }
  destruct (trim_spec (take n v ++ NUL :: drop (S n) val) (take n v) (drop (S n) val) eq_refl) as [T1 T2].
  { apply nul_free_take. unfold v. rewrite <- (take_drop k l), nul_free_app in Hn. tauto. }
  split; [by rewrite T1, H3|]. rewrite T2, length_app, length_take. cbn [length].
  rewrite length_drop. lia.
Qed.

(** ** Properties *)

(** C35: the first line that gives the key a value decides. For every text of NUL-free lines,
    every key and every array of at least one byte, the search ends; it returns 0 and leaves in
    the array the value of the first line of the form [key=value] with a non-empty value, cut
    to the array and without the white space around it; or, when no line gives the key a value,
    it returns -1 and leaves the array alone. *)
Theorem parse_kv_first_line (ls : list bytes) (last key val : bytes) :
  Forall (λ l, LF ∉ l ∧ nul_free l) (ls ++ [last]) → 0 < length val →
  match lookup_line key (ls ++ [last]) with
  | Some v => ∃ val', pm_parse_kv (text_of ls last) key val = Done (0%Z, val') ∧ found val v val'
  | None => pm_parse_kv (text_of ls last) key val = Done ((-1)%Z, val)
  end.
Proof.
  intros Hls Hval. unfold pm_parse_kv.
  assert (∀ fuel, length (text_of ls last) < fuel →
    match lookup_line key (ls ++ [last]) with
    | Some v => ∃ val', parse_kv_from fuel (text_of ls last) key val = Done (0%Z, val') ∧ found val v val'
    | None => parse_kv_from fuel (text_of ls last) key val = Done ((-1)%Z, val)
    end) as H; [|apply H; lia].
  induction ls as [|l ls IH]; intros [|fuel] Hf; try lia.
  - apply Forall_singleton in Hls as [Hl Hn]. unfold text_of in *. cbn [fmap list_fmap concat app lookup_line] in *.
    destruct last as [|c last]; [by destruct key|].
    pose proof (parse_line fuel key val (c :: last) [] Hl Hn (or_introl eq_refl)) as H.
    rewrite app_nil_r in H. specialize (H ltac:(done) Hval). destruct (value_of key (c :: last)); [done|].
    rewrite H. cbn [length] in Hf. destruct fuel; [lia|done].
  - apply Forall_cons in Hls as [[Hl Hn] Hls].
    assert (text_of (l :: ls) last = l ++ LF :: text_of ls last) as E
      by (unfold text_of; cbn [fmap list_fmap concat]; by rewrite <- !app_assoc).
    rewrite E in *. rewrite length_app in Hf. cbn [length app lookup_line] in *.
    pose proof (parse_line fuel key val l (LF :: text_of ls last) Hl Hn
      (or_intror (ex_intro _ _ eq_refl)) ltac:(by destruct l) Hval) as H.
    destruct (value_of key l); [done|]. rewrite H. cbn [after]. apply IH; [done|lia].
Qed.

Lemma parse_kv_first_line_witness :
  let ls := [lit "enabled=1"; lit "interval_ms="; lit "interval_ms=  250 "] in
  let val := replicate 8 "?"%char in
  (Forall (λ l, LF ∉ l ∧ nul_free l) (ls ++ [[]]) ∧ 0 < length val) ∧
  ∃ val', pm_parse_kv (text_of ls []) (lit "interval_ms") val = Done (0%Z, val')
    ∧ found val (lit "  250 ") val' ∧ cstr val' = lit "250".
Proof.
  intros ls val.
  assert (Forall (λ l, LF ∉ l ∧ nul_free l) (ls ++ [[]])) as H.
  { repeat constructor; by_evaluation. }
  split; [split; [exact H|simpl; lia]|].
  destruct (parse_kv_first_line ls [] (lit "interval_ms") val H) as (v & E & Hf); [simpl; lia|].
  exists v. split; [exact E|]. split; [exact Hf|]. rewrite (proj1 Hf). reflexivity.
Defined.

(** An array of no bytes: the key is found, and the copy leaves the array. *)
Lemma empty_array_overruns :
  pm_parse_kv (lit "a=bc") (lit "a") [] = Undef ∧ pm_parse_kv (lit "a=bc") (lit "b") [] = Done ((-1)%Z, []).
Proof. by vm_compute. Qed.
