(* ===== verification/MemReader.v ===== *)
(** * MemReader: userspace/loc_gen/src/room_mem_reader.c

    The snapshot of a room's node: libpm first, then four paths read directly.  The calls run
    on the operating system of ProcfsIo; [access] is a further answer of the system. *)
From stdpp Require Import prelude strings list.
From Stdlib Require Import Ascii ZArith Lia.
From S2P Require Import Prelude CString Backoff Breaker ProcfsIo.

Local Open Scope Z_scope.

Section reader.
Context {o : OS} (access : bytes → bool) (PM_PROC_ROOT : option bytes).

Definition get_proc_root : bytes :=
  if access (lit "/proc/pm") then lit "/proc/pm"
  else
    let rest := if access (lit "/proc/pm_drv") then lit "/proc/pm_drv" else lit "/proc/pm" in
    match PM_PROC_ROOT with
    | Some env => if access env then env else rest
    | None => rest
    end.

(** The result and the array; [buflen], its length, is positive. *)
Definition try_read_file (path buf : bytes) : mon io_state (Z * bytes) :=
  fd ← sys_open path 0;
  if fd <? 0 then mret (-1, buf)
  else
    '(n, d) ← sys_read fd (length buf - 1)%nat;
    sys_close fd;;
    let buf := memcpy buf d (length d) in
    if n <=? 0 then mret (-1, buf) else mret (0, <[Z.to_nat n := NUL]> buf).

Definition map_room_type_to_node (room_type : bytes) : pm_node_t :=
  if strcmp_eq room_type (lit "cpu") then PM_NODE_CPU
  else if strcmp_eq room_type (lit "mem") then PM_NODE_MEM
  else if strcmp_eq room_type (lit "inf") then PM_NODE_INF
  else PM_NODE_INF.

(** The four paths, in order. *)
Definition candidates (root room_type : bytes) : list bytes :=
  snprintf_str 128 <$>
    [root ++ lit "/" ++ room_type ++ lit "/data"; root ++ lit "/" ++ room_type ++ lit "/status";
     root ++ lit "/data"; root ++ lit "/status"].

(** [if (access(path, R_OK)==0 && try_read_file(path, buf, buflen)==0) return 0;] for each. *)
Fixpoint try_paths (paths : list bytes) (buf : bytes) : mon io_state (Z * bytes) :=
  match paths with
  | [] => mret (-1, buf)
  | path :: paths =>
    if access path then
      '(rc, buf) ← try_read_file path buf;
      if rc =? 0 then mret (0, buf) else try_paths paths buf
    else try_paths paths buf
  end.

Definition mem_show_snapshot (fuel : nat) (room_type buf : bytes) : mon io_state (Z * bytes) :=
  '(rc, buf) ← pm_read_status fuel (map_room_type_to_node room_type) buf;
  if bool_decide (rc = PM_OK) then mret (0, buf)
  else try_paths (candidates get_proc_root room_type) buf.
End reader.

(** ** Lemmas *)

Section lemmas.
Context {o : OS} `{!OSLaws o} (access : bytes → bool).

(** A string of at least one byte less than the array, terminated. *)
Definition filled (buf : bytes) (d : bytes) : Prop :=
  ∃ rest, buf = d ++ NUL :: rest.

Lemma memcpy_filled (buf d : bytes) :
  (length d < length buf)%nat →
  filled (<[length d := NUL]> (memcpy buf d (length d))) d.
Proof.
  intros Hl. unfold filled, memcpy. rewrite firstn_all, insert_app_r_alt, Nat.sub_diag by lia.
  destruct (drop (length d) buf) as [|x r] eqn:E.
  - apply (f_equal length) in E. rewrite length_drop in E. simpl in E. lia.
  - by exists r.
Qed.

Lemma length_memcpy (buf d : bytes) :
  (length d ≤ length buf)%nat → length (memcpy buf d (length d)) = length buf.
Proof. intros. unfold memcpy. rewrite firstn_all, length_app, length_drop. lia. Qed.

Lemma sys_read_data fd k s :
  wp (sys_read fd k) s (λ '(n, d) s', os_fds s' = os_fds s ∧ (length d ≤ k)%nat ∧
    (n = -1 ∧ d = [] ∨ n = Z.of_nat (length d))).
Proof.
  unfold sys_read, syscall, mbind, mon_bind, wp. destruct (os_read (os_calls s) fd k) as [d|e] eqn:E.
  - cbn. split; [done|]. split; [by eapply os_read_le|by right].
  - cbn. split; [done|]. split; [lia|by left].
Qed.

(** What a direct read leaves: no descriptor, the same array length, and on success the bytes
    read and a terminator. *)
Definition read_post (n : nat) (s : io_state) (r : Z * bytes) (s' : io_state) : Prop :=
  os_fds s' = os_fds s ∧ length r.2 = n ∧ (r.1 = 0 ∧ (∃ d, d ≠ [] ∧ filled r.2 d) ∨ r.1 = -1).

Lemma try_read_file_spec path buf s :
  (0 < length buf)%nat → wp (try_read_file path buf) s (read_post (length buf) s).
Proof.
  intros Hb. unfold try_read_file, read_post. wp_step.
  eapply wp_mono; [apply sys_open_spec|]. cbv beta. intros fd s1 [_ H1].
  destruct (fd <? 0) eqn:Hfd; [apply wp_ret; cbn; auto|].
  wp_step. eapply wp_mono; [apply sys_read_data|]. cbv beta. intros [n d] s2 (H2 & Hd & Hn).
  wp_step. eapply wp_mono; [apply sys_close_spec|]. cbv beta. intros [] s3 [_ H3].
  assert (os_fds s3 = os_fds s) as Hfds by by rewrite H3, H2, H1, remove_fd_head.
  destruct (Z.leb_spec n 0) as [H0|H0]; apply wp_ret; cbn [fst snd].
  - split; [done|]. split; [|by right]. apply length_memcpy. lia.
  - destruct Hn as [[-> _]|Hn]; [lia|]. rewrite Hn, Nat2Z.id, length_insert, length_memcpy by lia.
    split; [done|]. split; [done|]. left. split; [done|]. exists d.
    split; [intros ->; simpl in Hn; lia|]. apply memcpy_filled. lia.
Qed.

Lemma try_paths_spec paths : ∀ buf s,
  (0 < length buf)%nat → wp (try_paths access paths buf) s (read_post (length buf) s).
Proof.
  induction paths as [|p paths IH]; intros buf s Hb; cbn [try_paths].
  - apply wp_ret. unfold read_post. cbn. auto.
  - destruct (access p); [|by apply IH].
    wp_step. eapply wp_mono; [by apply try_read_file_spec|]. cbv beta.
    intros [rc buf1] s1 (H1 & H2 & H3). cbn [fst snd] in *.
    destruct (Z.eqb_spec rc 0) as [->|Hrc]; [by apply wp_ret|].
    eapply wp_mono; [apply IH; lia|]. intros r s2 (H4 & H5 & H6).
    split; [congruence|]. split; [congruence|done].
Qed.

(** libpm's answer leaves the array terminated on success and untouched otherwise. *)
Lemma pm_read_status_spec fuel node buf s :
  wf_io s → fuel_enough (g_cfg s) fuel →
  wp (pm_read_status fuel node buf) s (λ r s', os_fds s' = os_fds s ∧ length r.2 = length buf ∧
    (r.1 = PM_OK → (0 < length buf)%nat → ∃ d, filled r.2 d)).
Proof.
  intros Hs Hf. unfold pm_read_status. wp_step. wp_step. wp_step.
  eapply wp_mono; [apply guarded_spec; [intros; apply read_attempt_spec|done..]|].
  intros [[rc buf'] out] s' (Hfd & _ & _ & H).
  apply wp_ret. cbn [fst snd]. split; [done|].
  assert (stored buf (rc, buf', out) ∨ buf' = buf ∧ rc ≠ PM_OK) as Hst.
  { destruct (pm_breaker_allow _ _) as [ok cb]. destruct (bool_of_int ok).
    - destruct H as (n & (m & _ & H) & _). destruct (read_account _ buf m) eqn:E.
      + destruct H as [-> _]. left. by eapply read_account_stored.
      + destruct H as [Er _]. injection Er as -> -> _. by right.
    - destruct H as [E _]. injection E as -> -> _. by right. }
  destruct Hst as [Hst|[-> Hne]]; [|by split; [|intros ?; congruence]].
  unfold stored in Hst. destruct Hst as [Hl Hst]. split; [done|]. intros -> Hb.
  rewrite decide_True in Hst by done. destruct Hst as (d & _ & _ & [[-> _]|Hbuf]); [simpl in Hb; lia|].
  exists d. rewrite Hbuf. by eexists.
Qed.
End lemmas.

(** ** Properties *)

(** A snapshot is taken or refused, never half done. On any operating system that keeps its
    promises, whatever is readable and whatever the environment says, the snapshot of any room
    type ends, leaves no descriptor open and the array at its length, and returns 0 with a
    terminated string in the array, or -1. *)
Theorem mem_show_snapshot_total (o : OS) (laws : OSLaws o) (access : bytes → bool)
    (env : option bytes) (fuel : nat) (room_type buf : bytes) (s : io_state) :
  wf_io s → fuel_enough (g_cfg s) fuel → (0 < length buf)%nat →
  ∃ rc buf' s', mem_show_snapshot access env fuel room_type buf s = Done ((rc, buf'), s') ∧
    os_fds s' = os_fds s ∧ length buf' = length buf ∧
    (rc = 0 ∧ (∃ d, filled buf' d) ∨ rc = -1).
Proof.
  intros Hs Hf Hb.
  assert (wp (mem_show_snapshot access env fuel room_type buf) s (λ r s', os_fds s' = os_fds s ∧
    length r.2 = length buf ∧ (r.1 = 0 ∧ (∃ d, filled r.2 d) ∨ r.1 = -1))) as H.
  { unfold mem_show_snapshot. wp_step. eapply wp_mono; [by apply pm_read_status_spec|].
    intros [rc buf1] s1 (H1 & H2 & H3). cbn [fst snd] in *. case_bool_decide as Hrc.
    - apply wp_ret. cbn [fst snd]. split; [done|]. split; [done|]. left. split; [done|]. auto.
    - eapply wp_mono; [apply try_paths_spec; lia|]. intros r s2 (H4 & H5 & H6).
      split; [congruence|]. split; [congruence|]. destruct H6 as [(? & d & _ & ?)|?]; [left|by right].
      split; [done|by exists d]. }
  apply wp_done in H as ([rc buf'] & s' & E & H). by exists rc, buf', s'.
Qed.

Lemma mem_show_snapshot_total_witness :
  ∃ rc buf' s', @mem_show_snapshot (os_serving (lit "cpu0.usage=7")) (λ _, true) None 1002 (lit "cpu")
      (replicate 64 "?"%char) io_start = Done ((rc, buf'), s')
    ∧ os_fds s' = [] ∧ rc = 0 ∧ cstr buf' = lit "cpu0.usage=7".
Proof.
  destruct (mem_show_snapshot_total (os_serving (lit "cpu0.usage=7")) _ (λ _, true) None 1002
    (lit "cpu") (replicate 64 "?"%char) io_start) as (rc & b & s' & E & Hfd & _).
  - vm_compute. intuition congruence.
  - vm_compute. congruence.
  - simpl. lia.
  - exists rc, b, s'. split; [exact E|]. split; [exact Hfd|].
    vm_compute in E. injection E as <- <- _. split; reflexivity.
Defined.
