(* ===== verification/DropOldest.v ===== *)
(** * DropOldest: the interface of the bounded queues

    Three parts of the daemon keep a bounded sequence that discards its oldest element to
    make room: the message ring of fifo.c, the request queue of req_handler.c and the window
    of cached results.  [bounded_push] is the shared contract; the class states what an
    implementation promises, and the theorems about its clients are proved from the class. *)
From stdpp Require Import prelude list.
From Stdlib Require Import Lia.
From S2P Require Import Prelude.

(** Append, dropping the oldest element of a full sequence. *)
Definition bounded_push {A} (cap : nat) (l : list A) (a : A) : list A :=
  (if cap <=? length l then tail l else l) ++ [a].

Definition bounded_pop {A} (l : list A) : option A * list A :=
  match l with [] => (None, []) | a :: l => (Some a, l) end.

Class DropOldest (A St : Type) := {
  dq_cap : nat;
  dq_push : A → mon St unit;
  dq_pop : mon St (option A);
  dq_rep : St → list A → Prop }.

(** The implementation never reaches undefined behaviour and follows the contract. *)
Class DropOldestLaws {A St} (q : DropOldest A St) : Prop := {
  dq_cap_pos : 0 < dq_cap;
  dq_rep_cap s l : dq_rep s l → length l ≤ dq_cap;
  dq_push_spec s l a :
    dq_rep s l → wp (dq_push a) s (λ _ s', dq_rep s' (bounded_push dq_cap l a));
  dq_pop_spec s l :
    dq_rep s l → wp dq_pop s (λ r s', r = (bounded_pop l).1 ∧ dq_rep s' (bounded_pop l).2) }.

(** ** Clients *)

Inductive q_op (A : Type) := Push (a : A) | Pop.
Arguments Push {A} a.
Arguments Pop {A}.

(** A client's sequence of operations, and what its pops deliver. *)
Fixpoint q_run `{DropOldest A St} (ops : list (q_op A)) : mon St (list A) :=
  match ops with
  | [] => mret []
  | Push a :: ops => dq_push a;; q_run ops
  | Pop :: ops =>
    r ← dq_pop;
    out ← q_run ops;
    mret (match r with Some a => a :: out | None => out end)
  end.

Fixpoint q_spec {A} (cap : nat) (ops : list (q_op A)) (l : list A) : list A * list A :=
  match ops with
  | [] => ([], l)
  | Push a :: ops => q_spec cap ops (bounded_push cap l a)
  | Pop :: ops =>
    let '(out, l') := q_spec cap ops (bounded_pop l).2 in
    (match (bounded_pop l).1 with Some a => a :: out | None => out end, l')
  end.

Definition pushed {A} (ops : list (q_op A)) : list A :=
  omap (λ o, match o with Push a => Some a | Pop => None end) ops.

(** ** Lemmas *)

Lemma bounded_push_room {A} cap (l : list A) a :
  length l < cap → bounded_push cap l a = l ++ [a].
Proof. intros. unfold bounded_push. by rewrite (proj2 (Nat.leb_gt _ _)). Qed.

Lemma bounded_push_full {A} cap (l : list A) a :
  cap ≤ length l → bounded_push cap l a = tail l ++ [a].
Proof. intros. unfold bounded_push. by rewrite (proj2 (Nat.leb_le _ _)). Qed.

Lemma length_bounded_push {A} cap (l : list A) a :
  0 < cap → length l ≤ cap → length (bounded_push cap l a) = min cap (S (length l)).
Proof.
  intros. unfold bounded_push. rewrite length_app. simpl.
  destruct (Nat.leb_spec cap (length l)); [|lia]. destruct l; simpl in *; lia.
Qed.

Lemma bounded_push_sublist {A} cap (l : list A) a :
  sublist (bounded_push cap l a) (l ++ [a]).
Proof.
  unfold bounded_push. apply sublist_app; [|done]. case_match; [|done].
  destruct l; [done|]. by constructor.
Qed.

Lemma bounded_push_all {A} cap (l l0 : list A) :
  0 < cap → length l0 ≤ cap →
  foldl (bounded_push cap) l0 l = drop (length l0 + length l - cap) (l0 ++ l).
Proof.
  intros Hcap. revert l0. induction l as [|a l IH]; intros l0 Hl0; simpl.
  - rewrite app_nil_r, Nat.add_0_r. by replace (length l0 - cap) with 0 by lia.
  - rewrite IH by (rewrite length_bounded_push; lia). rewrite length_bounded_push by done.
    destruct (decide (length l0 < cap)) as [Hlt|Hge].
    + rewrite bounded_push_room by done. rewrite <- app_assoc. simpl. f_equal. lia.
    + rewrite bounded_push_full by lia. destruct l0 as [|b l0]; [simpl in *; lia|].
      simpl tail. rewrite <- app_assoc. simpl in *.
      replace (min cap (S (S (length l0))) + length l - cap) with (length l) by lia.
      by replace (S (length l0 + S (length l)) - cap) with (S (length l)) by lia.
Qed.

Lemma q_spec_sublist {A} cap (ops : list (q_op A)) l :
  let '(out, l') := q_spec cap ops l in sublist (out ++ l') (l ++ pushed ops).
Proof.
  revert l. induction ops as [|[a|] ops IH]; intros l; simpl.
  - by rewrite app_nil_r.
  - specialize (IH (bounded_push cap l a)). destruct (q_spec _ _ _) as [out l'].
    etrans; [exact IH|]. rewrite (cons_middle a), (assoc_L (++)).
    apply sublist_app; [apply bounded_push_sublist|done].
  - specialize (IH (bounded_pop l).2). destruct (q_spec _ _ _) as [out l'].
    destruct l; simpl in *; [done|]. by constructor.
Qed.

Section clients.
Context {A St : Type} {q : DropOldest A St} `{!DropOldestLaws q}.

Lemma q_run_spec ops s l :
  dq_rep s l →
  wp (q_run ops) s (λ out s', (out, (q_spec dq_cap ops l).2) = q_spec dq_cap ops l
                              ∧ dq_rep s' (q_spec dq_cap ops l).2).
Proof.
  revert s l. induction ops as [|[a|] ops IH]; intros s l Hrep; cbn [q_run q_spec].
  - wp_step. done.
  - wp_step. eapply wp_mono; [by apply dq_push_spec|]. intros [] s' Hs'. by apply IH.
  - wp_step. eapply wp_mono; [by apply dq_pop_spec|]. intros r s' [-> Hs'].
    wp_step. eapply wp_mono; [by apply IH|]. intros out s'' [Hout Hs'']. wp_step.
    destruct (q_spec dq_cap ops (bounded_pop l).2) as [out' l'] eqn:E.
    cbn [fst snd] in *. injection Hout as ->. by split.
Qed.

Lemma q_push_all l s l0 :
  dq_rep s l0 →
  wp (q_run (Push <$> l)) s (λ out s', out = [] ∧ dq_rep s' (foldl (bounded_push dq_cap) l0 l)).
Proof.
  revert s l0. induction l as [|a l IH]; intros s l0 Hrep; simpl.
  - by wp_step.
  - wp_step. eapply wp_mono; [by apply dq_push_spec|]. intros [] s' Hs'. by apply IH.
Qed.

Lemma q_pop_all s l :
  dq_rep s l → wp (q_run (replicate (length l) Pop)) s (λ out s', out = l ∧ dq_rep s' []).
Proof.
  revert s. induction l as [|a l IH]; intros s Hrep; simpl.
  - by wp_step.
  - wp_step. eapply wp_mono; [by apply dq_pop_spec|]. intros r s' [-> Hs']. simpl in *.
    wp_step. eapply wp_mono; [by apply IH|]. intros out s'' [-> Hs'']. by wp_step.
Qed.

End clients.
