(* ===== verification/Fifo.v ===== *)
(** * Fifo: the message ring of userspace/vts/src/fifo.c

    [vts_fifo_t] is a ring of pointers to strings owned by the ring: [strdup] allocates a
    string, a pop hands it to the caller, [free] of a pointer that is not allocated is
    undefined behaviour, and so is a slot outside the array.  [strdup] does not fail.  The
    four counters of the metrics are kept as the code updates them.  This file runs one
    operation at a time; FifoRace has the two threads. *)
From stdpp Require Import prelude strings list gmap fin_sets.
From Stdlib Require Import Ascii ZArith Lia.
From S2P Require Import Prelude CString DropOldest.

Abbreviation ptr := positive.

(** [vts_fifo_metrics_t] *)
Record metrics := mk_metrics { pushes : Z; pops : Z; drops : Z; max_depth : nat }.

(** [vts_fifo_t], and the strings that are allocated. *)
Record fifo := mk_fifo {
  cap : nat;
  head : nat;
  tail : nat;
  buf : list (option ptr);
  m : metrics;
  heap : gmap ptr bytes }.

Definition set_head (h : nat) (q : fifo) : fifo :=
  mk_fifo (cap q) h (tail q) (buf q) (m q) (heap q).
Definition set_tail (t : nat) (q : fifo) : fifo :=
  mk_fifo (cap q) (head q) t (buf q) (m q) (heap q).
Definition set_buf (b : list (option ptr)) (q : fifo) : fifo :=
  mk_fifo (cap q) (head q) (tail q) b (m q) (heap q).
Definition set_m (x : metrics) (q : fifo) : fifo :=
  mk_fifo (cap q) (head q) (tail q) (buf q) x (heap q).
Definition set_heap (x : gmap ptr bytes) (q : fifo) : fifo :=
  mk_fifo (cap q) (head q) (tail q) (buf q) (m q) x.

(** ** Memory *)

Definition load_slot (i : nat) : mon fifo (option ptr) := λ q,
  match buf q !! i with Some p => Done (p, q) | None => Undef end.

Definition store_slot (i : nat) (p : option ptr) : mon fifo unit := λ q,
  if i <? length (buf q) then Done (tt, set_buf (<[i := p]> (buf q)) q) else Undef.

Definition free (p : option ptr) : mon fifo unit := λ q,
  match p with
  | None => Done (tt, q)
  | Some p =>
    match heap q !! p with
    | Some _ => Done (tt, set_heap (delete p (heap q)) q)
    | None => Undef
    end
  end.

(** The address of a new block: above every allocated one. *)
Definition next_ptr (h : gmap ptr bytes) : ptr :=
  map_fold (λ p _ acc, Pos.max (Pos.succ p) acc) 1%positive h.

Definition strdup (msg : bytes) : mon fifo ptr := λ q,
  let p := next_ptr (heap q) in Done (p, set_heap (<[p := msg]> (heap q)) q).

(** ** fifo.c *)

Definition next_idx (i cap : nat) : nat := if i + 1 =? cap then 0 else i + 1.

Definition vts_fifo_init (cap : nat) (h : gmap ptr bytes) : fifo :=
  mk_fifo cap 0 0 (replicate cap None) (mk_metrics 0 0 0 0) h.

Definition vts_fifo_depth (q : fifo) : nat :=
  if head q <=? tail q then tail q - head q else cap q - (head q - tail q).

Definition metrics_update_depth : mon fifo unit :=
  x ← gets m;
  d ← gets vts_fifo_depth;
  if max_depth x <? d then modify (set_m (mk_metrics (pushes x) (pops x) (drops x) d))
  else mret tt.

Definition vts_fifo_push_spsc (msg : bytes) : mon fifo Z :=
  tl ← gets tail;
  hd ← gets head;
  c ← gets cap;
  let nxt := next_idx tl c in
  x ← gets m;
  dropped ← (if nxt =? hd then
    p ← load_slot hd;
    free p;;
    store_slot hd None;;
    modify (set_head (next_idx hd c));;
    (* [m.drops;] *) mret true
  else mret false);
  dup ← strdup msg;
  store_slot tl (Some dup);;
  modify (set_tail nxt);;
  (* [m.pushes;] *) modify (set_m x);;
  metrics_update_depth;;
  mret (if dropped : bool then 0%Z else 1%Z).

Definition vts_fifo_pop_spsc : mon fifo (option ptr) :=
  hd ← gets head;
  tl ← gets tail;
  if hd =? tl then mret None
  else
    out ← load_slot hd;
    store_slot hd None;;
    c ← gets cap;
    modify (set_head (next_idx hd c));;
    x ← gets m;
    (* [m.pops;] *) modify (set_m x);;
    mret out.

(** The loop of [vts_fifo_free]; the array itself is released after it. *)
Fixpoint free_loop (fuel h t c : nat) : mon fifo unit :=
  match fuel with
  | O => no_fuel
  | S fuel =>
    if h =? t then mret tt
    else
      p ← load_slot h;
      free p;;
      store_slot h None;;
      free_loop fuel (next_idx h c) t c
  end.

(** The empty array stands for [q->buf == NULL], as a first [vts_fifo_free] leaves it. *)
Definition vts_fifo_free (fuel : nat) : mon fifo unit :=
  b ← gets buf;
  match b with
  | [] => mret tt
  | _ =>
    h ← gets head;
    t ← gets tail;
    c ← gets cap;
    free_loop fuel h t c;;
    modify (set_buf [])
  end.

(** The consumer's side of a pop: read the string, then free it. *)
Definition take_message : mon fifo (option bytes) :=
  p ← vts_fifo_pop_spsc;
  match p with
  | None => mret None
  | Some p =>
    h ← gets heap;
    s ← lift (h !! p);
    free (Some p);;
    mret (Some s)
  end.

(** ** Invariant *)

(** The pointers [ps] in order, the rest of the ring empty. *)
Record ring (q : fifo) (ps : list ptr) : Prop := {
  ring_len : length (buf q) = cap q;
  ring_cap : 2 ≤ cap q;
  ring_head : head q < cap q;
  ring_size : length ps < cap q;
  ring_tail : tail q = slot (cap q) (head q) (length ps);
  ring_slots : rotation (head q) (buf q) = (Some <$> ps) ++ replicate (cap q - length ps) None }.

(** The strings of the ring and those that consumers hold, each allocated once. *)
Record owned (q : fifo) (ps own : list ptr) (l : list bytes) : Prop := {
  owned_nodup : NoDup (ps ++ own);
  owned_dom : dom (heap q) = list_to_set (ps ++ own);
  owned_strings : Forall2 (λ p s, heap q !! p = Some s) ps l }.

Definition fifo_rep (q : fifo) (l : list bytes) : Prop :=
  ∃ ps, ring q ps ∧ owned q ps [] l.

(** ** Lemmas *)

Lemma next_slot c h i : h < c → i < c → next_idx (slot c h i) c = slot c h (S i) ∨ S i = c.
Proof.
  unfold next_idx, slot. intros. destruct (decide (S i = c)); [by right|left].
  destruct (Nat.ltb_spec (h + i) c), (Nat.ltb_spec (h + S i) c);
    destruct (Nat.eqb_spec (h + i) c); repeat case_match; b2p; rewrite ?Nat.eqb_eq, ?Nat.eqb_neq in *; lia.
Qed.

Lemma slot_next c h i : h < c → S i < c → slot c (next_idx h c) i = slot c h (S i).
Proof.
  unfold next_idx, slot. intros. destruct (Nat.eqb_spec (h + 1) c);
    repeat case_match; rewrite ?Nat.ltb_lt, ?Nat.ltb_ge in *; lia.
Qed.

Lemma slot_0 c h : h < c → slot c h 0 = h.
Proof. unfold slot. intros. destruct (Nat.ltb_spec (h + 0) c); lia. Qed.

Lemma next_idx_lt c h : h < c → next_idx h c < c.
Proof. unfold next_idx. intros. destruct (Nat.eqb_spec (h + 1) c); lia. Qed.

Lemma next_idx_mod c h : h < c → next_idx h c = (h + 1) mod c.
Proof.
  unfold next_idx. intros. destruct (Nat.eqb_spec (h + 1) c) as [->|].
  - by rewrite Nat.Div0.mod_same.
  - rewrite Nat.mod_small; lia.
Qed.

(** The producer's test for a full ring. *)
Lemma ring_full q ps :
  ring q ps → (next_idx (tail q) (cap q) =? head q) = (S (length ps) =? cap q).
Proof.
  intros [Hl Hc Hh Hs Ht _]. rewrite Ht. apply eq_true_iff_eq. rewrite !Nat.eqb_eq.
  unfold next_idx, slot. destruct (Nat.ltb_spec (head q + length ps) (cap q));
    repeat case_match; rewrite ?Nat.eqb_eq, ?Nat.eqb_neq in *; lia.
Qed.

Lemma ring_empty q ps : ring q ps → (head q =? tail q) = (length ps =? 0).
Proof.
  intros [Hl Hc Hh Hs Ht _]. rewrite Ht. apply eq_true_iff_eq. rewrite !Nat.eqb_eq.
  unfold slot. destruct (Nat.ltb_spec (head q + length ps) (cap q)); lia.
Qed.

Lemma ring_depth q ps : ring q ps → vts_fifo_depth q = length ps.
Proof.
  intros [Hl Hc Hh Hs Ht _]. unfold vts_fifo_depth. rewrite Ht. unfold slot.
  destruct (Nat.ltb_spec (head q + length ps) (cap q));
    match goal with |- context [?a <=? ?b] => destruct (Nat.leb_spec a b) end; lia.
Qed.

Lemma ring_slot q ps i : ring q ps → i < cap q →
  buf q !! slot (cap q) (head q) i = Some (ps !! i).
Proof.
  intros [Hl Hc Hh Hs Ht Hr] Hi. rewrite <- Hl, <- rotation_lookup, Hr by lia.
  destruct (decide (i < length ps)) as [Hlt|Hge].
  - rewrite lookup_app_l by (rewrite length_fmap; lia). rewrite list_lookup_fmap.
    by destruct (lookup_lt_is_Some_2 ps i Hlt) as [p ->].
  - rewrite lookup_app_r by (rewrite length_fmap; lia). rewrite length_fmap.
    rewrite lookup_replicate_2 by lia. by rewrite (lookup_ge_None_2 ps) by lia.
Qed.

(** Taking the oldest pointer out of the ring. *)
Lemma ring_pop q p ps q' :
  ring q (p :: ps) → buf q' = <[head q := None]> (buf q) → cap q' = cap q →
  head q' = next_idx (head q) (cap q) → tail q' = tail q → ring q' ps.
Proof.
  intros [Hl Hc Hh Hs Ht Hr] Eb Ec Eh Et. simpl in *.
  destruct (rotate_step (buf q) (head q) None) as [Hlt Hrot]; [lia|].
  rewrite Hl, <- next_idx_mod in Hlt, Hrot by done.
  split; rewrite ?Eb, ?Ec, ?Eh, ?Et; try done.
  - by rewrite length_insert.
  - lia.
  - rewrite Ht. by rewrite slot_next.
  - rewrite Hrot, Hr. cbn [fmap list_fmap app list.tail].
    rewrite <- app_assoc. f_equal. rewrite <- replicate_S_end. f_equal. lia.
Qed.

(** Putting a pointer into a ring that is not full. *)
Lemma ring_push q p ps q' :
  ring q ps → S (length ps) < cap q → buf q' = <[tail q := Some p]> (buf q) →
  cap q' = cap q → head q' = head q → tail q' = next_idx (tail q) (cap q) → ring q' (ps ++ [p]).
Proof.
  intros [Hl Hc Hh Hs Ht Hr] Hnf Eb Ec Eh Et.
  split; rewrite ?Eb, ?Ec, ?Eh, ?Et, ?length_app; simpl; try lia.
  - by rewrite length_insert.
  - rewrite Ht. replace (length ps + 1) with (S (length ps)) by lia.
    destruct (next_slot (cap q) (head q) (length ps)); lia.
  - rewrite Ht. rewrite <- Hl at 1. rewrite rotation_insert, Hr by lia.
    destruct (cap q - length ps) as [|k] eqn:E; [lia|].
    rewrite insert_app_r_alt by (rewrite length_fmap; lia). rewrite length_fmap, Nat.sub_diag.
    cbn [replicate insert list_insert]. rewrite fmap_app. simpl. rewrite <- app_assoc. simpl.
    f_equal. f_equal. f_equal. lia.
Qed.

Lemma owned_heap q q' ps own l : heap q' = heap q → owned q ps own l → owned q' ps own l.
Proof. intros E []. split; by rewrite ?E. Qed.

Lemma next_ptr_new (h : gmap ptr bytes) : next_ptr h ∉ dom h.
Proof.
  assert (∀ p, p ∈ dom h → (p < next_ptr h)%positive) as Hlt.
  { unfold next_ptr. apply (map_fold_weak_ind (λ r h', ∀ p, p ∈ dom h' → (p < r)%positive)).
    - intros p Hp. rewrite dom_empty_L in Hp. by apply not_elem_of_empty in Hp.
    - intros i x h' r _ IH p. rewrite dom_insert_L, elem_of_union, elem_of_singleton.
      intros [->|Hp%IH]; lia. }
  intros Hp%Hlt. lia.
Qed.

(** Changes elsewhere in memory keep the strings. *)
Lemma strings_frame (h h' : gmap ptr bytes) ps l :
  (∀ p, p ∈ ps → h' !! p = h !! p) →
  Forall2 (λ p s, h !! p = Some s) ps l → Forall2 (λ p s, h' !! p = Some s) ps l.
Proof.
  intros Hf H. induction H; constructor; [rewrite Hf; [done|set_solver]|].
  apply IHForall2. set_solver.
Qed.

(** Freeing the oldest string of the ring, or one that a consumer holds. *)
Lemma owned_free q p ps own s l :
  owned q (p :: ps) own (s :: l) →
  ∃ q', free (Some p) q = Done (tt, q') ∧ q' = set_heap (delete p (heap q)) q ∧ owned q' ps own l.
Proof.
  intros [Hnd Hdom [Hp Hl]%Forall2_cons]. unfold free. rewrite Hp. eexists. split; [done|].
  split; [done|]. cbn [app] in *. apply NoDup_cons in Hnd as [Hn Hnd]. split; cbn [heap set_heap].
  - done.
  - rewrite dom_delete_L, Hdom. set_solver.
  - eapply strings_frame; [|exact Hl]. intros x Hx. apply lookup_delete_ne. set_solver.
Qed.

Lemma owned_pop q p ps own s l :
  owned q (p :: ps) own (s :: l) → owned q ps (p :: own) l ∧ heap q !! p = Some s.
Proof.
  intros [Hnd Hdom [Hp Hl]%Forall2_cons]. split; [|done]. cbn [app] in *. split; [|set_solver|done].
  by rewrite <- Permutation_middle.
Qed.

Lemma owned_release q p ps own l :
  owned q ps (p :: own) l →
  ∃ q', free (Some p) q = Done (tt, q') ∧ q' = set_heap (delete p (heap q)) q ∧ owned q' ps own l.
Proof.
  intros [Hnd Hdom Hl]. unfold free.
  destruct (heap q !! p) as [s|] eqn:Ep.
  2:{ apply not_elem_of_dom in Ep. set_solver. }
  eexists. split; [done|]. split; [done|].
  rewrite <- Permutation_middle in Hnd. apply NoDup_cons in Hnd as [Hn Hnd].
  split; cbn [heap set_heap].
  - done.
  - rewrite dom_delete_L, Hdom. set_solver.
  - eapply strings_frame; [|exact Hl]. intros x Hx. apply lookup_delete_ne. set_solver.
Qed.

Lemma owned_strdup q ps own l s :
  owned q ps own l →
  let p := next_ptr (heap q) in owned (set_heap (<[p := s]> (heap q)) q) (ps ++ [p]) own (l ++ [s]).
Proof.
  intros [Hnd Hdom Hl] p. assert (p ∉ ps ++ own) as Hp.
  { intros Hp. apply (next_ptr_new (heap q)). fold p. rewrite Hdom. by apply elem_of_list_to_set. }
  split; cbn [heap set_heap].
  - rewrite <- app_assoc. cbn [app]. rewrite <- Permutation_middle. by constructor.
  - rewrite dom_insert_L, Hdom. set_solver.
  - apply Forall2_app; [|by constructor; [apply lookup_insert_eq|]].
    eapply strings_frame; [|exact Hl]. intros x Hx. apply lookup_insert_ne. set_solver.
Qed.

(** ** The operations *)

(** What every operation leaves alone. *)
Definition kept (q q' : fifo) : Prop :=
  cap q' = cap q ∧ pushes (m q') = pushes (m q) ∧ pops (m q') = pops (m q) ∧
  drops (m q') = drops (m q).

Lemma update_depth_spec q : 
  wp metrics_update_depth q (λ _ q', q' = set_m (mk_metrics (pushes (m q)) (pops (m q)) (drops (m q))
                                   (max (max_depth (m q)) (vts_fifo_depth q))) q).
Proof.
  unfold metrics_update_depth. do 4 wp_step. destruct (Nat.ltb_spec (max_depth (m q)) (vts_fifo_depth q)).
  - wp_step. by rewrite Nat.max_r by lia.
  - wp_step. rewrite Nat.max_l by lia. by destruct q as [? ? ? ? []].
Qed.

Lemma push_tail q ps own l msg (b : bool) :
  ring q ps → owned q ps own l → S (length ps) < cap q →
  wp (dup ← strdup msg;
      store_slot (tail q) (Some dup);;
      modify (set_tail (next_idx (tail q) (cap q)));;
      modify (set_m (m q));;
      metrics_update_depth;;
      mret (if b then 0%Z else 1%Z)) q
    (λ z q', z = (if b then 0%Z else 1%Z) ∧ kept q q' ∧
       max_depth (m q') = max (max_depth (m q)) (S (length l)) ∧
       ∃ p, ring q' (ps ++ [p]) ∧ owned q' (ps ++ [p]) own (l ++ [msg])).
Proof.
  intros Hr Ho Hnf. pose proof (owned_strdup q ps own l msg Ho) as Ho'. cbv zeta in Ho'.
  pose proof (Forall2_length _ _ _ (owned_strings _ _ _ _ Ho)) as Hll.
  wp_step. unfold wp at 1, strdup. set (p := next_ptr _) in *. set (q1 := set_heap _ q) in *.
  assert (tail q < length (buf q)) as Htl.
  { destruct Hr as [Hl Hc Hh Hs Ht _]. rewrite Ht, Hl. by apply slot_lt. }
  wp_step. unfold wp at 1, store_slot. cbn [buf q1 set_heap].
  rewrite (proj2 (Nat.ltb_lt _ _)) by done. do 4 wp_step. wp_step.
  eapply wp_mono; [apply update_depth_spec|]. intros [] q' ->. wp_step.
  match goal with |- context [vts_fifo_depth ?x] => set (q2 := x) end.
  assert (ring q2 (ps ++ [p])) as Hr2 by by eapply ring_push.
  rewrite (ring_depth q2 (ps ++ [p]) Hr2). rewrite length_app. simpl length.
  split; [done|]. split; [done|]. split; [simpl; lia|]. exists p.
  split; [by destruct Hr2; split|]. by apply (owned_heap q1).
Qed.

Lemma push_spsc_spec q ps own l msg :
  ring q ps → owned q ps own l →
  wp (vts_fifo_push_spsc msg) q (λ z q',
    z = (if S (length l) =? cap q then 0%Z else 1%Z) ∧ kept q q' ∧
    max_depth (m q') = max (max_depth (m q)) (min (S (length l)) (cap q - 1)) ∧
    ∃ ps', ring q' ps' ∧ owned q' ps' own (bounded_push (cap q - 1) l msg)).
Proof.
  intros Hr Ho. unfold vts_fifo_push_spsc. do 8 wp_step.
  rewrite (ring_full q ps Hr). pose proof (Forall2_length _ _ _ (owned_strings _ _ _ _ Ho)) as Hll.
  rewrite Hll. pose proof (ring_size q ps Hr) as Hs. pose proof (ring_cap q ps Hr) as Hc.
  wp_step. destruct (Nat.eqb_spec (S (length l)) (cap q)) as [Hfull|Hroom].
  - destruct ps as [|p ps]; [simpl in *; lia|]. destruct l as [|s l]; [done|].
    wp_step. unfold load_slot at 1, wp at 1.
    pose proof (ring_slot q (p :: ps) 0 Hr ltac:(lia)) as Hsl.
    rewrite slot_0 in Hsl by apply Hr. rewrite Hsl. change ((p :: ps) !! 0) with (Some p). cbv iota beta.
    destruct (owned_free q p ps own s l Ho) as (q1 & E1 & -> & Ho1).
    wp_step. unfold wp at 1. unfold free in E1. unfold free.
    destruct (heap q !! p); [|done]. wp_step. unfold wp at 1, store_slot.
    cbn [buf set_heap]. rewrite (proj2 (Nat.ltb_lt _ _)) by (rewrite (ring_len q _ Hr); apply Hr).
    do 3 wp_step. set (q2 := set_head _ _).
    assert (ring q2 ps) as Hr2 by by eapply ring_pop.
    assert (owned q2 ps own l) as Ho2 by by apply (owned_heap (set_heap (delete p (heap q)) q)).
    change (tail q) with (tail q2). change (cap q) with (cap q2). change (m q) with (m q2).
    eapply wp_mono; [apply (push_tail q2 ps own l msg true); [done..|simpl in *; lia]|].
    intros z q' (-> & Hk & Hm & p' & Hr' & Ho'). split; [done|]. split; [exact Hk|].
    split; [rewrite Hm; change (m q2) with (m q); change (cap q2) with (cap q); cbn [length] in *; lia|].
    exists (ps ++ [p']). split; [done|].
    rewrite bounded_push_full by (simpl in *; lia). done.
  - wp_step. eapply wp_mono; [apply (push_tail q ps own l msg false); [done..|lia]|].
    intros z q' (-> & Hk & Hm & p' & Hr' & Ho'). split; [done|]. split; [exact Hk|].
    split; [rewrite Hm; lia|]. exists (ps ++ [p']). split; [done|].
    rewrite bounded_push_room by lia. done.
Qed.

Lemma pop_spec q ps own l :
  ring q ps → owned q ps own l →
  wp vts_fifo_pop_spsc q (λ r q', kept q q' ∧ max_depth (m q') = max_depth (m q) ∧
    match l with
    | [] => r = None ∧ q' = q
    | s :: l => ∃ p ps', r = Some p ∧ heap q' !! p = Some s ∧ ring q' ps' ∧ owned q' ps' (p :: own) l
    end).
Proof.
  intros Hr Ho. unfold vts_fifo_pop_spsc. do 4 wp_step. rewrite (ring_empty q ps Hr).
  pose proof (Forall2_length _ _ _ (owned_strings _ _ _ _ Ho)) as Hll. rewrite Hll.
  destruct l as [|s l]; simpl.
  - wp_step. by split.
  - destruct ps as [|p ps]; [done|]. wp_step. unfold load_slot, wp at 1.
    pose proof (ring_cap q _ Hr) as Hc.
    pose proof (ring_slot q (p :: ps) 0 Hr ltac:(lia)) as Hsl.
    rewrite slot_0 in Hsl by apply Hr. rewrite Hsl. simpl. wp_step.
    unfold wp at 1, store_slot.
    rewrite (proj2 (Nat.ltb_lt _ _)) by (rewrite (ring_len q _ Hr); apply Hr).
    repeat wp_step. destruct (owned_pop q p ps own s l Ho) as [Ho' Hp].
    split; [done|]. split; [done|]. exists p, ps. split; [done|]. split; [done|].
    split; [by eapply ring_pop|]. by apply (owned_heap q).
Qed.

Lemma take_message_spec q l ps own :
  ring q ps → owned q ps own l →
  wp take_message q (λ r q', kept q q' ∧ max_depth (m q') = max_depth (m q) ∧
    r = (bounded_pop l).1 ∧ ∃ ps', ring q' ps' ∧ owned q' ps' own (bounded_pop l).2).
Proof.
  intros Hr Ho. unfold take_message. wp_step. eapply wp_mono; [by apply (pop_spec q ps own l)|].
  intros r q' (Hk & Hm & H). destruct l as [|s l].
  - destruct H as [-> ->]. wp_step. split_and!; try done. by exists ps.
  - destruct H as (p & ps' & -> & Hp & Hr' & Ho'). do 3 wp_step. rewrite Hp. do 2 wp_step.
    destruct (owned_release q' p ps' own l Ho') as (q2 & E & -> & Ho2).
    unfold wp at 1. rewrite E. wp_step. split; [exact Hk|]. split; [exact Hm|]. split; [done|].
    exists ps'. split; [|done]. by destruct Hr'; split.
Qed.

(** Emptying the ring: the strings of the ring go, those that consumers hold stay.  The
    loop's own index [h] runs ahead of [head], which does not move. *)
Lemma free_loop_spec fuel h q ps own l :
  ring (set_head h q) ps → owned q ps own l → length ps < fuel →
  wp (free_loop fuel h (tail q) (cap q)) q (λ _ q', dom (heap q') = list_to_set own).
Proof.
  revert h q ps l. induction fuel as [|fuel IH]; intros h q ps l Hr Ho Hf; [lia|].
  pose proof (ring_empty _ ps Hr) as He. cbn [head tail set_head] in He.
  cbn [free_loop]. rewrite He. destruct ps as [|p ps]; cbn [length Nat.eqb].
  { wp_step. by destruct Ho. }
  pose proof (ring_cap _ _ Hr) as Hc. pose proof (ring_head _ _ Hr) as Hh.
  pose proof (ring_len _ _ Hr) as Hl. cbn [cap head buf set_head] in Hc, Hh, Hl.
  pose proof (ring_slot _ (p :: ps) 0 Hr ltac:(cbn [cap set_head]; lia)) as Hsl.
  cbn [cap head buf set_head] in Hsl. rewrite slot_0 in Hsl by done.
  wp_step. unfold load_slot, wp at 1. rewrite Hsl. change ((p :: ps) !! 0) with (Some p).
  cbv iota beta. destruct l as [|s l].
  { pose proof (owned_strings _ _ _ _ Ho) as Hs. by inversion Hs. }
  destruct (owned_free q p ps own s l Ho) as (q1 & E1 & -> & Ho1).
  wp_step. unfold wp at 1. rewrite E1. wp_step. unfold wp at 1, store_slot. cbn [buf set_heap].
  rewrite (proj2 (Nat.ltb_lt _ _)) by lia. set (q2 := set_buf _ _).
  change (tail q) with (tail q2). change (cap q) with (cap q2).
  apply (IH (next_idx h (cap q)) q2 ps l); [|by apply (owned_heap (set_heap (delete p (heap q)) q))|simpl in *; lia].
  eapply (ring_pop (set_head h q)); [exact Hr|done..].
Qed.

Lemma free_slot_spec fuel q ps own l :
  ring q ps → owned q ps own l → cap q ≤ fuel →
  wp (vts_fifo_free fuel) q (λ _ q', dom (heap q') = list_to_set own).
Proof.
  intros Hr Ho Hf. unfold vts_fifo_free. do 2 wp_step. destruct (buf q) as [|x b] eqn:Eb.
  { pose proof (ring_len q ps Hr) as Hl. pose proof (ring_cap q ps Hr). rewrite Eb in Hl. simpl in Hl. lia. }
  do 7 wp_step.
  eapply wp_mono; [apply (free_loop_spec fuel (head q) q ps own l); [by destruct q|done|]|].
  - pose proof (ring_size q ps Hr). lia.
  - intros [] q' H. by wp_step.
Qed.

Lemma ring_init c h : 2 ≤ c → ring (vts_fifo_init c h) [].
Proof.
  intros Hc. split; cbn [buf cap head tail vts_fifo_init length]; try lia.
  - apply length_replicate.
  - by rewrite slot_0 by lia.
  - unfold rotation. rewrite drop_0, take_0, app_nil_r, Nat.sub_0_r. done.
Qed.

Lemma owned_init c : owned (vts_fifo_init c ∅) [] [] [].
Proof. split; [constructor|done|constructor]. Qed.

(** ** The interface *)

#[export] Instance fifo_ops (c : nat) : DropOldest bytes fifo := {|
  dq_cap := c - 1;
  dq_push := λ a, vts_fifo_push_spsc a;; mret tt;
  dq_pop := take_message;
  dq_rep := λ q l, cap q = c ∧ fifo_rep q l |}.

Lemma fifo_laws (c : nat) : 2 ≤ c → DropOldestLaws (fifo_ops c).
Proof.
  intros Hc. split; cbn [dq_cap dq_push dq_pop dq_rep fifo_ops].
  - lia.
  - intros q l (Hq & ps & Hr & Ho). pose proof (Forall2_length _ _ _ (owned_strings _ _ _ _ Ho)).
    pose proof (ring_size q ps Hr). lia.
  - intros q l a (Hq & ps & Hr & Ho). wp_step. eapply wp_mono; [by apply (push_spsc_spec q ps [] l a)|].
    intros z q' (_ & (Hk & _) & _ & ps' & Hr' & Ho'). wp_step. rewrite Hq in *. split; [done|].
    by exists ps'.
  - intros q l (Hq & ps & Hr & Ho). eapply wp_mono; [by apply (take_message_spec q l ps [])|].
    intros r q' ((Hk & _) & _ & -> & ps' & Hr' & Ho'). split; [done|]. split; [congruence|].
    by exists ps'.
Qed.

(** What the counters see of a run: the deepest the ring has been after a push. *)
Fixpoint peak {A} (cap : nat) (ops : list (q_op A)) (l : list A) : nat :=
  match ops with
  | [] => 0
  | Push a :: ops => max (min (S (length l)) cap) (peak cap ops (bounded_push cap l a))
  | Pop :: ops => peak cap ops (bounded_pop l).2
  end.

Lemma run_metrics c ops q ps l :
  2 ≤ c → cap q = c → ring q ps → owned q ps [] l →
  wp (@q_run _ _ (fifo_ops c) ops) q (λ _ q', kept q q' ∧
    max_depth (m q') = max (max_depth (m q)) (peak (c - 1) ops l)).
Proof.
  intros Hc. revert q ps l. induction ops as [|[a|] ops IH]; intros q ps l Hq Hr Ho; cbn [q_run peak].
  - wp_step. split; [done|]. lia.
  - cbn [dq_push fifo_ops]. do 2 wp_step. eapply wp_mono; [by apply (push_spsc_spec q ps [] l a)|].
    intros z q' (_ & Hk & Hm & ps' & Hr' & Ho'). wp_step.
    pose proof (proj1 Hk) as Hq'. rewrite Hq in *.
    eapply wp_mono; [by apply (IH q' ps' (bounded_push (c - 1) l a))|].
    intros _ q2 [Hk2 ->]. split; [unfold kept in *; naive_solver congruence|]. rewrite Hm. lia.
  - cbn [dq_pop fifo_ops]. wp_step. eapply wp_mono; [by apply (take_message_spec q l ps [])|].
    intros r q' (Hk & Hm & _ & ps' & Hr' & Ho'). pose proof (proj1 Hk) as Hq'. rewrite Hq in *.
    wp_step. eapply wp_mono; [by apply (IH q' ps' (bounded_pop l).2)|].
    intros out q2 [Hk2 Hm2]. wp_step. split; [unfold kept in *; naive_solver congruence|].
    by rewrite Hm2, Hm.
Qed.

(** ** Properties *)

(** C9: the ring is a drop-oldest queue. For a capacity [c] of at least 2, any sequence of
    pushes and pops on a new ring runs without touching memory that is not allocated,
    delivers what the drop-oldest queue of [c - 1] messages delivers, and releasing the ring
    afterwards frees every string: none is freed twice and none is leaked. *)
Theorem fifo_refines (c fuel : nat) (ops : list (q_op bytes)) :
  2 ≤ c → c ≤ fuel →
  let '(out, l) := q_spec (c - 1) ops [] in
  ∃ q q', @q_run _ _ (fifo_ops c) ops (vts_fifo_init c ∅) = Done (out, q) ∧
    fifo_rep q l ∧ vts_fifo_depth q = length l ∧
    vts_fifo_free fuel q = Done (tt, q') ∧ heap q' = ∅.
Proof.
  intros Hc Hf. pose proof (fifo_laws c Hc) as Hlaws.
  assert (@dq_rep _ _ (fifo_ops c) (vts_fifo_init c ∅) []) as Hrep.
  { split; [done|]. exists []. split; [by apply ring_init|apply owned_init]. }
  pose proof (q_run_spec (q := fifo_ops c) ops _ [] Hrep) as H. cbn [dq_cap fifo_ops] in H.
  apply wp_done in H as (out' & q & E & Hout & Hq).
  destruct (q_spec (c - 1) ops []) as [out l]. cbn [fst snd] in *. injection Hout as ->.
  destruct Hq as (Hcq & ps & Hr & Ho). pose proof (free_slot_spec fuel q ps [] l Hr Ho ltac:(lia)) as H.
  apply wp_done in H as ([] & q' & E' & Hd). exists q, q'. split; [exact E|].
  split; [by exists ps|]. split.
  - rewrite (ring_depth q ps Hr). by apply (Forall2_length _ _ _ (owned_strings _ _ _ _ Ho)).
  - split; [exact E'|]. by apply dom_empty_inv_L.
Qed.

Lemma fifo_refines_witness :
  ∃ q q', @q_run _ _ (fifo_ops 3) [Push (lit "a"); Push (lit "b"); Push (lit "c"); Pop]
            (vts_fifo_init 3 ∅) = Done ([lit "b"], q) ∧
    vts_fifo_free 3 q = Done (tt, q') ∧ heap q' = ∅.
Proof.
  destruct (fifo_refines 3 3 [Push (lit "a"); Push (lit "b"); Push (lit "c"); Pop]
    ltac:(lia) ltac:(lia)) as (q & q' & E & _ & _ & E' & Hh).
  exists q, q'. split; [exact E|]. split; [exact E'|exact Hh].
Defined.

(** The metrics. Over any run on a ring of at least 2 slots [max_depth] is the deepest the
    ring has been, and the counters of pushes, pops and drops stay 0, whatever has been
    pushed, popped and dropped: the statements [m.pushes;], [m.pops;] and [m.drops;] do
    nothing. *)
Theorem fifo_counters_stay (c : nat) (ops : list (q_op bytes)) :
  2 ≤ c →
  ∃ out q, @q_run _ _ (fifo_ops c) ops (vts_fifo_init c ∅) = Done (out, q) ∧
    m q = mk_metrics 0 0 0 (peak (c - 1) ops []).
Proof.
  intros Hc. pose proof (run_metrics c ops (vts_fifo_init c ∅) [] [] Hc eq_refl (ring_init c ∅ Hc)
    (owned_init c)) as H.
  apply wp_done in H as (out & q & E & (_ & H1 & H2 & H3) & Hm). exists out, q. split; [exact E|].
  destruct (m q) as [a b d e]. cbn in *. by subst.
Qed.

Lemma fifo_counters_stay_witness :
  ∃ out q, @q_run _ _ (fifo_ops 2) [Push (lit "a"); Push (lit "b"); Pop] (vts_fifo_init 2 ∅)
           = Done (out, q) ∧ m q = mk_metrics 0 0 0 1.
Proof. exact (fifo_counters_stay 2 [Push (lit "a"); Push (lit "b"); Pop] ltac:(lia)). Defined.

(** Capacities below 2. A ring of 1 slot accepts every message (result 0, as for a dropped
    one) and delivers none, and releasing it leaks the string; the first push into a ring of
    0 slots, the capacity of [vts -c 0], writes outside its array. *)
Theorem fifo_small_caps (a : bytes) :
  (∃ q p, vts_fifo_push_spsc a (vts_fifo_init 1 ∅) = Done (0%Z, q) ∧
     vts_fifo_pop_spsc q = Done (None, q) ∧
     ∃ q', vts_fifo_free 2 q = Done (tt, q') ∧ heap q' = {[p := a]}) ∧
  vts_fifo_push_spsc a (vts_fifo_init 0 ∅) = Undef.
Proof.
  split; [|reflexivity].
  exists (mk_fifo 1 0 0 [Some 1%positive] (mk_metrics 0 0 0 0) {[1%positive := a]}), 1%positive.
  split; [vm_compute; reflexivity|]. split; [reflexivity|]. eexists. split; reflexivity.
Qed.
