(* ===== verification/FifoRace.v ===== *)
(** * FifoRace: the message ring under its two threads

    The receiver thread pushes (threads_recv.c through fifo.c) while the coordinator thread
    pops, logs and frees (threads_coords.c).  Every access to [head], [tail], a slot or the
    heap is one step of its thread, in the order of the code; a schedule says who moves.
    Steps are sequentially consistent; the metrics are left out.  The first result covers the
    schedules in which the producer never finds the ring full, the second shows what the
    drop-oldest branch does while a pop is under way. *)
From stdpp Require Import prelude strings list gmap fin_sets.
From Stdlib Require Import Ascii ZArith Lia.
From S2P Require Import Prelude CString DropOldest Fifo.

(** Where the producer stands inside [vts_fifo_push_spsc]: what it has loaded. *)
Inductive producer :=
  | PIdle
  | PTailLoaded (msg : bytes) (tl : nat)
  | PHeadLoaded (msg : bytes) (tl hd : nat)
  | PFree (msg : bytes) (tl hd : nat) (p : option ptr)
  | PNull (msg : bytes) (tl hd : nat)
  | PHead (msg : bytes) (tl hd : nat)
  | PDup (msg : bytes) (tl : nat)
  | PStore (tl : nat) (p : ptr)
  | PTail (tl : nat).

(** The consumer inside [vts_fifo_pop_spsc], then with a popped message. *)
Inductive consumer :=
  | CIdle
  | CHeadLoaded (hd : nat)
  | CTailLoaded (hd tl : nat)
  | CSlot (hd : nat) (out : option ptr)
  | CNull (hd : nat) (out : option ptr)
  | CGot (out : option ptr)
  | CLogged (p : ptr).

Record threads := mk_threads {
  ring_of : fifo;
  prod : producer;
  cons : consumer;
  todo : list bytes;
  delivered : list bytes }.

Definition init (c : nat) (msgs : list bytes) : threads :=
  mk_threads (vts_fifo_init c ∅) PIdle CIdle msgs [].

(** One access by the producer, and where it then stands. *)
Definition set_prod (p : producer) (s : threads) : threads :=
  mk_threads (ring_of s) p (cons s) (todo s) (delivered s).
Definition set_cons (c : consumer) (s : threads) : threads :=
  mk_threads (ring_of s) (prod s) c (todo s) (delivered s).
Definition set_ring (q : fifo) (s : threads) : threads :=
  mk_threads q (prod s) (cons s) (todo s) (delivered s).

(** An operation of the ring as a step of the threads. *)
Definition on_ring {A} (op : mon fifo A) : mon threads A := λ s,
  match op (ring_of s) with
  | Done (a, q) => Done (a, set_ring q s)
  | Undef => Undef
  | NoFuel => NoFuel
  end.

Definition full (q : fifo) (tl hd : nat) : bool := next_idx tl (cap q) =? hd.

Definition pstep : mon threads unit :=
  s ← gets id;
  match prod s with
  | PIdle =>
    match todo s with
    | [] => mret tt
    | msg :: rest =>
      tl ← on_ring (gets tail);
      modify (λ s, mk_threads (ring_of s) (PTailLoaded msg tl) (cons s) rest (delivered s))
    end
  | PTailLoaded msg tl => hd ← on_ring (gets head); modify (set_prod (PHeadLoaded msg tl hd))
  | PHeadLoaded msg tl hd =>
    if full (ring_of s) tl hd then
      p ← on_ring (load_slot hd); modify (set_prod (PFree msg tl hd p))
    else modify (set_prod (PDup msg tl))
  | PFree msg tl hd p => on_ring (free p);; modify (set_prod (PNull msg tl hd))
  | PNull msg tl hd => on_ring (store_slot hd None);; modify (set_prod (PHead msg tl hd))
  | PHead msg tl hd =>
    on_ring (modify (λ q, set_head (next_idx hd (cap q)) q));; modify (set_prod (PDup msg tl))
  | PDup msg tl => p ← on_ring (strdup msg); modify (set_prod (PStore tl p))
  | PStore tl p => on_ring (store_slot tl (Some p));; modify (set_prod (PTail tl))
  | PTail tl => on_ring (modify (λ q, set_tail (next_idx tl (cap q)) q));; modify (set_prod PIdle)
  end.

Definition cstep : mon threads unit :=
  s ← gets id;
  match cons s with
  | CIdle => hd ← on_ring (gets head); modify (set_cons (CHeadLoaded hd))
  | CHeadLoaded hd => tl ← on_ring (gets tail); modify (set_cons (CTailLoaded hd tl))
  | CTailLoaded hd tl =>
    if hd =? tl then modify (set_cons CIdle)
    else out ← on_ring (load_slot hd); modify (set_cons (CSlot hd out))
  | CSlot hd out => on_ring (store_slot hd None);; modify (set_cons (CNull hd out))
  | CNull hd out =>
    on_ring (modify (λ q, set_head (next_idx hd (cap q)) q));; modify (set_cons (CGot out))
  | CGot None => modify (set_cons CIdle)
  | CGot (Some p) =>
    (* [vts_log_write] reads the string *)
    h ← on_ring (gets heap);
    msg ← lift (h !! p);
    modify (λ s, mk_threads (ring_of s) (prod s) (CLogged p) (todo s) (delivered s ++ [msg]))
  | CLogged p => on_ring (free (Some p));; modify (set_cons CIdle)
  end.

Inductive thread := Producer | Consumer.

Definition step (t : thread) : mon threads unit :=
  match t with Producer => pstep | Consumer => cstep end.

Fixpoint run (sched : list thread) : mon threads unit :=
  match sched with
  | [] => mret tt
  | t :: sched => step t;; run sched
  end.

(** The producer is about to take the drop-oldest branch. *)
Definition overrun (s : threads) : bool :=
  match prod s with
  | PHeadLoaded _ tl hd => full (ring_of s) tl hd
  | _ => false
  end.

(** No state of the run is an overrun. *)
Fixpoint calm (sched : list thread) (s : threads) : bool :=
  negb (overrun s) &&
  match sched with
  | [] => true
  | t :: sched => match step t s with Done (_, s) => calm sched s | _ => true end
  end.

(** ** Invariant *)

Definition hole (s : threads) : nat := match cons s with CNull _ _ => 1 | _ => 0 end.
Definition pend (s : threads) : nat := match prod s with PTail _ => 1 | _ => 0 end.

(** The ring as it will be when the pop and the push under way have moved the indices. *)
Definition vhead (s : threads) : nat :=
  match cons s with CNull _ _ => next_idx (head (ring_of s)) (cap (ring_of s)) | _ => head (ring_of s) end.
Definition vtail (s : threads) : nat :=
  match prod s with PTail _ => next_idx (tail (ring_of s)) (cap (ring_of s)) | _ => tail (ring_of s) end.
Definition vring (s : threads) : fifo := set_head (vhead s) (set_tail (vtail s) (ring_of s)).

(** Strings outside the ring, and messages on their way. *)
Definition held (s : threads) : list ptr :=
  (match cons s with CNull _ (Some p) | CGot (Some p) | CLogged p => [p] | _ => [] end)
  ++ (match prod s with PStore _ p => [p] | _ => [] end).
Definition popped (s : threads) : list bytes :=
  match cons s with
  | CNull _ (Some p) | CGot (Some p) => option_list (heap (ring_of s) !! p)
  | _ => []
  end.
Definition pushing (s : threads) : list bytes :=
  match prod s with
  | PTailLoaded msg _ | PHeadLoaded msg _ _ | PDup msg _ => [msg]
  | PStore _ p => option_list (heap (ring_of s) !! p)
  | _ => []
  end.

Definition prod_ok (s : threads) (n : nat) : Prop :=
  let q := ring_of s in
  match prod s with
  | PIdle => True
  | PTailLoaded _ tl => tl = tail q
  | PHeadLoaded _ tl hd => tl = tail q ∧ (full q tl hd = false → S (hole s + n) < cap q)
  | PDup _ tl | PStore tl _ => tl = tail q ∧ S (hole s + n) < cap q
  | PTail tl => tl = tail q
  | _ => False
  end.

Definition cons_ok (s : threads) (ps : list ptr) : Prop :=
  let q := ring_of s in
  match cons s with
  | CIdle | CLogged _ => True
  | CHeadLoaded hd => hd = head q
  | CTailLoaded hd tl => hd = head q ∧ (hd ≠ tl → pend s < length ps)
  | CSlot hd out => hd = head q ∧ pend s < length ps ∧ ∃ p, out = Some p ∧ list.head ps = Some p
  | CNull hd out => hd = head q ∧ ∃ p, out = Some p
  | CGot out => ∃ p, out = Some p
  end.

Record inv (msgs : list bytes) (s : threads) (ps : list ptr) (l : list bytes) : Prop := {
  inv_ring : ring (vring s) ps;
  inv_size : hole s + length ps < cap (ring_of s);
  inv_head : head (ring_of s) < cap (ring_of s);
  inv_tail : tail (ring_of s) = slot (cap (ring_of s)) (vhead s) (length ps - pend s);
  inv_pend : pend s ≤ length ps;
  inv_owned : owned (ring_of s) ps (held s) l;
  inv_prod : prod_ok s (length ps);
  inv_cons : cons_ok s ps;
  inv_msgs : delivered s ++ popped s ++ l ++ pushing s ++ todo s = msgs }.

(** ** Lemmas *)

Lemma ring_ext q q' ps :
  ring q ps → buf q' = buf q → cap q' = cap q → head q' = head q → tail q' = tail q → ring q' ps.
Proof. intros [] E1 E2 E3 E4. split; by rewrite ?E1, ?E2, ?E3, ?E4. Qed.

Lemma next_slot_full c h k : h < c → k < c → (next_idx (slot c h k) c =? h) = (S k =? c).
Proof.
  intros Hh Hk. apply eq_true_iff_eq. rewrite !Nat.eqb_eq. unfold next_idx, slot.
  destruct (Nat.ltb_spec (h + k) c); repeat case_match; rewrite ?Nat.eqb_eq, ?Nat.eqb_neq in *; lia.
Qed.

(** A string moves between the end of the ring and the hands of the producer. *)
Lemma owned_unlink q ps own l p s :
  owned q (ps ++ [p]) own (l ++ [s]) → owned q ps (own ++ [p]) l ∧ heap q !! p = Some s.
Proof.
  intros [Hnd Hdom Hs]. apply Forall2_app_inv in Hs as [Hl Hp].
  2:{ apply Forall2_length in Hs. rewrite !length_app in Hs. simpl in Hs. lia. }
  apply Forall2_cons in Hp as [Hp _]. split; [|done].
  assert ((ps ++ [p]) ++ own ≡ₚ ps ++ own ++ [p]) as E
    by (rewrite <- app_assoc; f_equiv; apply Permutation_app_comm).
  split; [by rewrite <- E|rewrite Hdom; by apply list_to_set_perm_L|done].
Qed.

Lemma owned_link q ps own l p s :
  owned q ps (own ++ [p]) l → heap q !! p = Some s → owned q (ps ++ [p]) own (l ++ [s]).
Proof.
  intros [Hnd Hdom Hs] Hp.
  assert ((ps ++ [p]) ++ own ≡ₚ ps ++ own ++ [p]) as E
    by (rewrite <- app_assoc; f_equiv; apply Permutation_app_comm).
  split; [by rewrite E|rewrite Hdom; by apply list_to_set_perm_L|].
  apply Forall2_app; [done|]. by constructor.
Qed.

Lemma owned_held q ps own l p : owned q ps own l → p ∈ own → ∃ s, heap q !! p = Some s.
Proof.
  intros [_ Hdom _] Hp. assert (p ∈ dom (heap q)) as [s Hs]%elem_of_dom by (rewrite Hdom; set_solver).
  eauto.
Qed.

Lemma owned_dup q ps own l msg :
  owned q ps own l →
  let p := next_ptr (heap q) in
  let h := <[p := msg]> (heap q) in
  owned (set_heap h q) ps (own ++ [p]) l ∧ h !! p = Some msg ∧
  ∀ p', p' ∈ own → h !! p' = heap q !! p'.
Proof.
  intros Ho p h. pose proof (owned_strdup q ps own l msg Ho) as Ho'.
  apply owned_unlink in Ho' as [Ho' Hp]. split; [done|]. split; [done|].
  intros p' Hp'. apply lookup_insert_ne. intros <-. apply (next_ptr_new (heap q)).
  destruct Ho as [_ -> _]. set_solver.
Qed.

Lemma tail_slot msgs s ps l :
  inv msgs s ps l → pend s = 0 →
  tail (ring_of s) = slot (cap (ring_of s)) (head (ring_of s)) (hole s + length ps).
Proof.
  intros [Hr Hs Hh Ht _ _ _ _ _] Hp. rewrite Ht, Hp, Nat.sub_0_r.
  unfold vhead, hole in *. destruct (cons s); try done. simpl in *. by rewrite slot_next by lia.
Qed.

(** The consumer's moves only make room. *)
Lemma prod_ok_mono s s' n n' :
  prod s' = prod s → tail (ring_of s') = tail (ring_of s) → cap (ring_of s') = cap (ring_of s) →
  hole s' + n' ≤ hole s + n → prod_ok s n → prod_ok s' n'.
Proof.
  intros E1 E2 E3 Hle. unfold prod_ok, full. rewrite E1, E2, E3. destruct (prod s); try done.
  - intros [-> H]. split; [done|]. intros Hf%H. lia.
  - intros [-> H]. split; [done|lia].
  - intros [-> H]. split; [done|lia].
Qed.

(** ** Steps *)

Ltac solve_ring Hr := apply (ring_ext _ _ _ Hr); done.

Lemma store_inv msgs q tl p c td dl ps l :
  let s := mk_threads q (PStore tl p) c td dl in
  inv msgs s ps l → wp pstep s (λ _ s', ∃ ps' l', inv msgs s' ps' l').
Proof.
  intros s Hi. pose proof (tail_slot _ _ _ _ Hi) as Hts. destruct Hi as [Hr Hs Hh Ht Hpe Ho Hp Hc Hm].
  subst s. unfold pstep. wp_step. wp_step. cbn [prod cons id] in *.
  wp_step. unfold wp at 1, on_ring, store_slot. cbn [ring_of].
  destruct Hp as [-> Hroom]. unfold vring in Hr. cbn [ring_of] in *.
  assert (tail q < length (buf q)) as Hlt.
  { pose proof (ring_len _ _ Hr) as Hl. cbn [buf cap set_head set_tail] in Hl. rewrite Hl.
    rewrite (Hts eq_refl). apply slot_lt; [done|]. unfold hole in *. cbn in *. lia. }
  rewrite (proj2 (Nat.ltb_lt _ _)) by done. wp_step.
  destruct (owned_held _ _ _ _ p Ho) as [msg Hmsg]; [unfold held; cbn; set_solver|].
  exists (ps ++ [p]), (l ++ [msg]). unfold set_ring, set_prod. cbn [ring_of prod cons todo delivered].
  unfold pend in *. cbn [prod] in *. split; unfold hole, pend in *; cbn [prod cons ring_of] in *.
  - eapply (ring_push _ p ps); [exact Hr|cbn; lia|done..].
  - rewrite length_app. cbn. lia.
  - done.
  - transitivity (tail q); [reflexivity|]. rewrite Ht, Nat.sub_0_r, length_app, Nat.add_sub.
    by destruct c.
  - rewrite length_app. cbn. lia.
  - apply (owned_heap q); [done|]. apply owned_link; [|done].
    unfold held in *. cbn in *. by rewrite app_nil_r.
  - done.
  - unfold cons_ok, pend in *. cbn in *. rewrite length_app. destruct c; try done; cbn.
    + destruct Hc as [-> Hc]. split; [done|]. intros Hne%Hc. lia.
    + destruct Hc as (-> & Hpos & p' & -> & Hhd). split; [done|]. split; [lia|].
      exists p'. split; [done|]. by destruct ps.
  - unfold popped, pushing in *. cbn in *. rewrite Hmsg in Hm. cbn in Hm.
    rewrite <- Hm. f_equal. f_equal. by rewrite <- app_assoc.
Qed.

Lemma publish_inv msgs q tl c td dl ps l :
  let s := mk_threads q (PTail tl) c td dl in
  inv msgs s ps l → wp pstep s (λ _ s', ∃ ps' l', inv msgs s' ps' l').
Proof.
  intros s Hi. pose proof (tail_slot _ _ _ _ Hi) as Hts. destruct Hi as [Hr Hs Hh Ht Hpe Ho Hp Hc Hm].
  subst s. unfold pstep. wp_step. wp_step. cbn [prod cons id] in *.
  wp_step. unfold wp, on_ring, modify. cbn [ring_of].
  exists ps, l. unfold set_ring, set_prod, vring in *. cbn [ring_of prod cons todo delivered] in *.
  unfold prod_ok in Hp. cbn in Hp. subst tl.
  split; unfold hole, pend, vhead, vtail in *; cbn [prod cons ring_of cap head tail set_tail] in *; try done.
  - pose proof (ring_tail _ _ Hr) as Hrt. cbn in Hrt. by rewrite Hrt, Nat.sub_0_r.
  - lia.
  - by apply (owned_heap q).
  - unfold cons_ok, pend in *. cbn in *. destruct c; try done.
    + destruct Hc as [-> Hc]. split; [done|]. intros Hne%Hc. lia.
    + destruct Hc as (-> & Hc & ?). split; [done|]. split; [lia|done].
Qed.

Lemma pstep_inv msgs s ps l :
  inv msgs s ps l → overrun s = false → wp pstep s (λ _ s', ∃ ps' l', inv msgs s' ps' l').
Proof.
  intros Hi Hov. pose proof (tail_slot _ _ _ _ Hi) as Hts. pose proof Hi as [Hr Hs Hh Ht Hpe Ho Hp Hc Hm].
  destruct s as [q p c td dl].
  destruct p as [|msg tl|msg tl hd|msg tl hd p|msg tl hd|msg tl hd|msg tl|tl p|tl]; try done;
    [..|by eapply store_inv|by eapply publish_inv];
    unfold pstep; wp_step; wp_step; cbn [prod id todo] in *; try done.
  - destruct td as [|msg td]; wp_step; [by exists ps, l|]. unfold wp at 1, on_ring. cbn.
    exists ps, l. split; try done.
  - wp_step. unfold wp at 1, on_ring. cbn. exists ps, l. split; try done.
    unfold prod_ok in *. cbn in *. split; [done|]. unfold full. rewrite Hp, (Hts eq_refl).
    rewrite next_slot_full by (unfold hole in *; cbn in *; lia).
    intros Hf%Nat.eqb_neq. unfold hole in *. cbn in *. lia.
  - unfold overrun in Hov. cbn in Hov. cbn [ring_of]. rewrite Hov. wp_step.
    exists ps, l. split; try done. unfold prod_ok in *. cbn in *. destruct Hp as [-> Hp]. by auto.
  - wp_step. unfold wp at 1, on_ring, strdup. cbn [ring_of]. wp_step.
    destruct (owned_dup q ps (held (mk_threads q (PDup msg tl) c td dl)) l msg Ho) as (Ho' & Hpm & Hkeep).
    exists ps, l. unfold set_ring, set_prod. cbn [ring_of prod cons todo delivered]. split; try done.
    + solve_ring Hr.
    + unfold held in *. cbn in *. by rewrite app_nil_r in Ho'.
    + unfold popped, pushing, held in *. cbn in *. rewrite Hpm. cbn.
      rewrite <- Hm. f_equal. f_equal. destruct c as [| | | |hd [p|]|[p|]|]; try done;
        rewrite Hkeep by set_solver; done.
Qed.

Lemma clear_inv msgs q p hd out td dl ps l :
  let s := mk_threads q p (CSlot hd out) td dl in
  inv msgs s ps l → wp cstep s (λ _ s', ∃ ps' l', inv msgs s' ps' l').
Proof.
  intros s Hi. pose proof (tail_slot _ _ _ _ Hi) as Hts. destruct Hi as [Hr Hs Hh Ht Hpe Ho Hp Hc Hm].
  subst s. unfold cstep. wp_step. wp_step. cbn [prod cons id] in *.
  unfold cons_ok in Hc; cbn [cons ring_of] in *.
  destruct Hc as (-> & Hpos & pt & -> & Hhd). destruct ps as [|pt' ps]; [done|].
  injection Hhd as ->. wp_step. unfold wp at 1, on_ring, store_slot. cbn [ring_of].
  pose proof (ring_len _ _ Hr) as Hl. cbn in Hl.
  rewrite (proj2 (Nat.ltb_lt _ _)) by lia. wp_step.
  destruct l as [|msg l]; [by pose proof (owned_strings _ _ _ _ Ho) as Hx; inversion Hx|].
  destruct (owned_pop q pt ps _ msg l Ho) as [Ho' Hmsg].
  exists ps, l. unfold set_ring, set_cons, vring in *. cbn [ring_of prod cons todo delivered] in *.
  split; unfold hole, pend, vhead, vtail in *; cbn [prod cons ring_of cap head tail set_buf length] in *; try done.
  - eapply (ring_pop _ pt ps); [exact Hr|done..].
  - rewrite Ht, slot_next by lia. f_equal. lia.
  - lia.
  - by apply (owned_heap q).
  - unfold cons_ok. cbn. eauto.
  - unfold popped, pushing in *. cbn in *. rewrite Hmsg. cbn. done.
Qed.

Lemma cstep_inv msgs s ps l :
  inv msgs s ps l → wp cstep s (λ _ s', ∃ ps' l', inv msgs s' ps' l').
Proof.
  intros Hi. pose proof Hi as [Hr Hs Hh Ht Hpe Ho Hp Hc Hm].
  destruct s as [q p c td dl]. 
  destruct c as [|hd|hd tl|hd out|hd out|[pt|]|pt]; try (by destruct Hc);
    [..|by eapply clear_inv| | |]; unfold cstep; wp_step; wp_step; cbn [cons id] in *.
  all: unfold cons_ok in Hc; cbn [cons ring_of] in *.
  - wp_step. unfold wp at 1, on_ring. cbn. exists ps, l. by split.
  - wp_step. unfold wp at 1, on_ring. cbn. exists ps, l. split; try done.
    unfold cons_ok, pend in *. cbn in *. split; [done|]. subst hd. unfold vhead in Ht. cbn in Ht.
    intros Hne. destruct (length ps - _) as [|n] eqn:E; [|lia].
    rewrite slot_0 in Ht by done. congruence.
  - destruct Hc as [-> Hc]. destruct (Nat.eqb_spec (head q) tl) as [Heq|Hne].
    + apply wp_modify. exists ps, l. by split.
    + specialize (Hc Hne). wp_step. unfold wp at 1, on_ring, load_slot. cbn [ring_of].
      pose proof (ring_slot _ ps 0 Hr) as Hsl. unfold vring, vhead in Hsl. cbn in Hsl.
      rewrite slot_0 in Hsl by done. rewrite Hsl by lia.
      destruct ps as [|pt ps]; [cbn in Hc; lia|]. wp_step.
      exists (pt :: ps), l. split; try done. unfold cons_ok. cbn. by eauto.
  - destruct Hc as (-> & pt & ->). wp_step. unfold wp, on_ring, modify. cbn [ring_of].
    exists ps, l. unfold set_ring, set_cons, vring in *. cbn [ring_of prod cons todo delivered] in *.
    split; unfold hole, pend, vhead, vtail in *; cbn [prod cons ring_of cap head tail set_head set_tail] in *; try done.
    + lia.
    + by apply next_idx_lt.
    + by apply (owned_heap q).
    + eapply prod_ok_mono, Hp; [done..|]. unfold hole. cbn. lia.
    + unfold cons_ok. cbn. eauto.
  - destruct (owned_held _ _ _ _ pt Ho) as [msg Hmsg]; [unfold held; cbn; set_solver|].
    wp_step. unfold wp at 1, on_ring. cbn [gets ring_of]. wp_step. rewrite Hmsg. wp_step. wp_step.
    exists ps, l. split; try done. unfold popped, pushing in *. cbn in *. rewrite Hmsg in Hm. cbn in Hm.
    by rewrite <- app_assoc.
  - destruct (owned_release q pt ps _ l Ho) as (q' & E & -> & Ho').
    wp_step. unfold wp at 1, on_ring. cbn [ring_of]. rewrite E. wp_step.
    exists ps, l. split; try done; [solve_ring Hr|].
    unfold popped, pushing, held in *. cbn in *. destruct p; try done. cbn.
    rewrite lookup_delete_ne; [done|]. intros <-. destruct Ho as [Hnd _ _].
    apply NoDup_app in Hnd as (_ & _ & Hnd). by apply NoDup_cons in Hnd as [Hnd _]; set_solver.
Qed.

Lemma cstep_frame s s' :
  cstep s = Done (tt, s') → prod s' = prod s ∧ cap (ring_of s') = cap (ring_of s).
Proof.
  destruct s as [q p c td dl]. unfold cstep, mbind, mon_bind, gets. cbn [cons id].
  unfold on_ring, load_slot, store_slot, free, lift, gets, modify.
  destruct c as [|hd|hd tl|hd out|hd out|[pt|]|pt]; cbn [ring_of];
    repeat (case_match; simplify_eq/=); try done; by intros [= <-].
Qed.

(** With fewer messages than slots the producer never finds the ring full. *)
Lemma step_overrun t msgs s s' ps l :
  inv msgs s ps l → overrun s = false → length msgs < cap (ring_of s) →
  step t s = Done (tt, s') → overrun s' = false ∧ cap (ring_of s') = cap (ring_of s).
Proof.
  intros Hi Hov Hfew. destruct t.
  2:{ intros [H1 H2]%cstep_frame. split; [|done]. unfold overrun, full in *. by rewrite H1, H2. }
  pose proof (tail_slot _ _ _ _ Hi) as Hts. destruct Hi as [Hr Hs Hh Ht Hpe Ho Hp Hc Hm].
  pose proof (Forall2_length _ _ _ (owned_strings _ _ _ _ Ho)) as Hll.
  assert (hole s ≤ length (popped s)) as Hhole.
  { unfold hole, popped, cons_ok in *. destruct (cons s) as [| | | |hd out| |] eqn:Ec; try (cbn; lia).
    destruct Hc as (_ & pt & ->). destruct (owned_held _ _ _ _ pt Ho) as [x Hx].
    - unfold held. rewrite Ec. set_solver.
    - rewrite Hx. cbn. lia. }
  destruct s as [q p c td dl]. unfold step, pstep, mbind, mon_bind, gets.
  unfold on_ring, load_slot, store_slot, free, lift, gets, modify, strdup. cbn [prod id ring_of] in *.
  destruct p as [|msg tl|msg tl hd|msg tl hd p|msg tl hd|msg tl hd|msg tl|tl p|tl];
    try (repeat (case_match; simplify_eq/=); try done; by intros [= <-]).
  intros [= <-]. split; [|done]. unfold prod_ok in Hp. cbn in Hp, Hts. subst tl. unfold overrun, full. cbn.
  rewrite (Hts eq_refl).
  rewrite next_slot_full by (unfold hole in *; cbn in *; lia).
  apply Nat.eqb_neq. apply (f_equal length) in Hm. rewrite !length_app in Hm. unfold pushing in Hm.
  cbn in *. unfold hole in *. cbn in *. lia.
Qed.

Lemma step_inv t msgs s ps l :
  inv msgs s ps l → overrun s = false → wp (step t) s (λ _ s', ∃ ps' l', inv msgs s' ps' l').
Proof. intros. destruct t; [by eapply pstep_inv|by eapply cstep_inv]. Qed.

Lemma run_inv sched msgs s ps l :
  inv msgs s ps l → calm sched s = true → wp (run sched) s (λ _ s', ∃ ps' l', inv msgs s' ps' l').
Proof.
  revert s ps l. induction sched as [|t sched IH]; intros s ps l Hi; cbn [run calm].
  - intros _. wp_step. eauto.
  - intros [Hov%negb_true_iff Hcalm]%andb_prop. wp_step.
    pose proof (step_inv t msgs s ps l Hi Hov) as H. apply wp_done in H as ([] & s' & E & ps' & l' & Hi').
    rewrite E in Hcalm. unfold wp at 1. rewrite E. by eapply IH.
Qed.

Lemma few_calm sched msgs s ps l :
  inv msgs s ps l → overrun s = false → length msgs < cap (ring_of s) → calm sched s = true.
Proof.
  revert s ps l. induction sched as [|t sched IH]; intros s ps l Hi Hov Hfew; cbn [calm]; rewrite Hov; [done|].
  pose proof (step_inv t msgs s ps l Hi Hov) as H. apply wp_done in H as ([] & s' & E & ps' & l' & Hi').
  rewrite E. destruct (step_overrun t msgs s s' ps l Hi Hov Hfew E) as [Hov' Hcap].
  eapply IH; [done..|]. by rewrite Hcap.
Qed.

Lemma inv_init c msgs : 2 ≤ c → inv msgs (init c msgs) [] [].
Proof.
  intros Hc. pose proof (ring_init c ∅ Hc) as Hr. split; try done; cbn; try lia.
  - by rewrite slot_0 by lia.
  - apply owned_init.
Qed.

(** ** The drop-oldest branch against a pop *)

Lemma run_step t sched s s' : step t s = Done (tt, s') → run (t :: sched) s = run sched s'.
Proof. intros E. cbn [run]. unfold mbind, mon_bind. by rewrite E. Qed.

Lemma run_app sched sched' s s' :
  run sched s = Done (tt, s') → run (sched ++ sched') s = run sched' s'.
Proof.
  revert s. induction sched as [|t sched IH]; intros s E; cbn [run app] in *.
  - by injection E as ->.
  - unfold mbind, mon_bind in *. destruct (step t s) as [[[] s1]| |]; try done. by apply IH.
Qed.

(** Execute the step of the goal. *)
Ltac stepping :=
  unfold step, pstep, cstep, set_prod, set_cons, set_ring, on_ring, load_slot, store_slot, free,
    full, lift, gets, modify, mbind, mon_bind; cbn -[Nat.ltb].

(** Six steps of the producer push one message when there is room. *)
Lemma push_steps q c ps l msg td dl :
  ring q ps → owned q ps [] l → S (length ps) < cap q →
  ∃ q' p, run (replicate 6 Producer) (mk_threads q PIdle c (msg :: td) dl) =
      Done (tt, mk_threads q' PIdle c td dl) ∧
    ring q' (ps ++ [p]) ∧ owned q' (ps ++ [p]) [] (l ++ [msg]) ∧ cap q' = cap q.
Proof.
  intros Hr Ho Hroom. pose proof (owned_strdup q ps [] l msg Ho) as Ho'. cbv zeta in Ho'.
  set (p := next_ptr (heap q)) in *. set (h := <[p := msg]> (heap q)) in *.
  exists (set_tail (next_idx (tail q) (cap q)) (set_buf (<[tail q := Some p]> (buf q)) (set_heap h q))), p.
  assert (tail q < length (buf q)) as Htl.
  { destruct Hr as [Hl Hc Hh Hs Ht _]. rewrite Ht, Hl. by apply slot_lt. }
  pose proof (ring_full q ps Hr) as Hf. rewrite (proj2 (Nat.eqb_neq (S _) _)) in Hf by lia.
  split; [|split; [|split; [|done]]].
  - cbn [replicate]. erewrite run_step by reflexivity. erewrite run_step by reflexivity.
    erewrite run_step; [|stepping; rewrite Hf; reflexivity].
    erewrite run_step by reflexivity.
    erewrite run_step; [|stepping;
      rewrite (proj2 (Nat.ltb_lt _ _)) by done; reflexivity].
    erewrite run_step by reflexivity. done.
  - by eapply ring_push.
  - by apply (owned_heap (set_heap h q)).
Qed.

(** Any number of messages that fits, pushed before the consumer has moved. *)
Lemma push_many q ps l ms td dl :
  ring q ps → owned q ps [] l → length ps + length ms < cap q →
  ∃ sched q' ps', run sched (mk_threads q PIdle CIdle (ms ++ td) dl) =
      Done (tt, mk_threads q' PIdle CIdle td dl) ∧
    ring q' ps' ∧ owned q' ps' [] (l ++ ms) ∧ cap q' = cap q.
Proof.
  revert q ps l. induction ms as [|msg ms IH]; intros q ps l Hr Ho Hl; cbn [app length] in *.
  { exists [], q, ps. by rewrite app_nil_r. }
  destruct (push_steps q CIdle ps l msg (ms ++ td) dl Hr Ho) as (q1 & p & E1 & Hr1 & Ho1 & Hc1); [lia|].
  destruct (IH q1 (ps ++ [p]) (l ++ [msg]) Hr1 Ho1) as (sched & q' & ps' & E & Hr' & Ho' & Hc').
  { rewrite length_app. cbn. lia. }
  exists (replicate 6 Producer ++ sched), q', ps'. split_and!; [|done|by rewrite <- app_assoc in Ho'|congruence].
  by rewrite (run_app _ _ _ _ E1).
Qed.

(** A pop that has loaded its pointer, a push that finds the ring full, and then the reader. *)
Definition race : list thread :=
  [Consumer; Consumer; Consumer; Producer; Producer; Producer; Producer;
   Consumer; Consumer; Consumer].

Lemma race_undef q ps l b td dl :
  ring q ps → owned q ps [] l → S (length ps) = cap q →
  run race (mk_threads q PIdle CIdle (b :: td) dl) = Undef.
Proof.
  intros Hr Ho Hfull. pose proof (ring_cap q ps Hr) as Hc.
  pose proof (ring_full q ps Hr) as Hf. rewrite (proj2 (Nat.eqb_eq (S _) _)) in Hf by done.
  pose proof (ring_empty q ps Hr) as He. rewrite (proj2 (Nat.eqb_neq (length ps) 0)) in He by lia.
  pose proof (ring_slot q ps 0 Hr ltac:(lia)) as Hsl. rewrite slot_0 in Hsl by apply Hr.
  pose proof (ring_len q ps Hr) as Hl. pose proof (ring_head q ps Hr) as Hh.
  destruct ps as [|p ps]; [simpl in *; lia|]. destruct l as [|s l].
  { pose proof (owned_strings _ _ _ _ Ho) as Hx. by inversion Hx. }
  destruct (owned_pop q p ps [] s l Ho) as [_ Hp].
  change ((p :: ps) !! 0) with (Some p) in Hsl. unfold race.
  erewrite run_step by reflexivity. erewrite run_step by reflexivity.
  erewrite run_step; [|stepping; rewrite He; stepping; rewrite Hsl; reflexivity].
  erewrite run_step by reflexivity. erewrite run_step by reflexivity.
  erewrite run_step; [|stepping; rewrite Hf; stepping; rewrite Hsl; reflexivity].
  erewrite run_step; [|stepping; rewrite Hp; reflexivity].
  erewrite run_step; [|stepping;
    rewrite (proj2 (Nat.ltb_lt _ _)) by lia; reflexivity].
  erewrite run_step by reflexivity.
  cbn [run]. stepping. by rewrite lookup_delete_eq.
Qed.

(** ** Properties *)

(** C11: one producer, one consumer. Take any schedule in which the producer never finds the
    ring full, in particular any schedule at all when there are fewer messages than slots.
    No thread touches memory that is not allocated; the messages logged are a prefix of the
    messages pushed, in order, none twice; and once both threads are idle and the ring is
    empty all of them have been logged and all their memory released. *)
Theorem spsc_safe (c : nat) (msgs : list bytes) (sched : list thread) :
  2 ≤ c → length msgs < c ∨ calm sched (init c msgs) = true →
  ∃ s, run sched (init c msgs) = Done (tt, s) ∧ delivered s `prefix_of` msgs ∧
    (prod s = PIdle → cons s = CIdle → todo s = [] → head (ring_of s) = tail (ring_of s) →
     delivered s = msgs ∧ heap (ring_of s) = ∅).
Proof.
  intros Hc Hcalm. pose proof (inv_init c msgs Hc) as Hi.
  assert (calm sched (init c msgs) = true) as Hcalm'.
  { destruct Hcalm as [Hfew|]; [|done]. by eapply few_calm. }
  pose proof (run_inv sched _ _ _ _ Hi Hcalm') as H.
  apply wp_done in H as ([] & s & E & ps & l & [Hr Hs Hh Ht Hpe Ho Hp Hco Hm]).
  exists s. split; [done|]. split; [rewrite <- Hm; by apply prefix_app_r|].
  intros E1 E2 E3 E4. unfold popped, pushing, vring, vhead, vtail, held in *.
  rewrite E1, E2, E3 in *. pose proof (ring_empty _ _ Hr) as He. cbn in He.
  rewrite E4, Nat.eqb_refl in He. symmetry in He. apply Nat.eqb_eq in He.
  destruct ps; [|done]. destruct Ho as [_ Hd Hl]. inversion Hl; subst.
  split; [by rewrite !app_nil_r|]. by apply dom_empty_inv_L.
Qed.

Lemma spsc_safe_witness :
  ∃ s, run (replicate 6 Producer ++ replicate 7 Consumer) (init 2 [lit "hello"]) = Done (tt, s) ∧
    delivered s = [lit "hello"] ∧ heap (ring_of s) = ∅.
Proof.
  destruct (spsc_safe 2 [lit "hello"] (replicate 6 Producer ++ replicate 7 Consumer)
    ltac:(lia) ltac:(left; simpl; lia)) as (s & E & _ & H).
  exists s. split; [exact E|]. vm_compute in E. injection E as <-. apply H; reflexivity.
Defined.

(** The drop-oldest branch is not safe against a pop. For every capacity of at least 2 and
    every [c] messages or more there is a schedule in which the consumer uses a string after
    the producer has freed it: the consumer loads the oldest pointer, the producer finds the
    ring full and frees the same pointer, and the consumer then logs it. *)
Theorem drop_oldest_races (c : nat) (msgs : list bytes) :
  2 ≤ c → c ≤ length msgs → ∃ sched, run sched (init c msgs) = Undef.
Proof.
  intros Hc Hl. rewrite <- (take_drop (c - 1) msgs).
  destruct (drop (c - 1) msgs) as [|b td] eqn:E.
  { apply (f_equal length) in E. rewrite length_drop in E. simpl in E. lia. }
  destruct (push_many (vts_fifo_init c ∅) [] [] (take (c - 1) msgs) (b :: td) [])
    as (sched & q & ps & Er & Hr & Ho & Hcap);
    [by apply ring_init|apply owned_init|cbn; rewrite length_take; lia|].
  exists (sched ++ race). pose proof (Forall2_length _ _ _ (owned_strings _ _ _ _ Ho)) as Hll.
  cbn [app cap vts_fifo_init] in *. rewrite length_take in Hll.
  pose proof (race_undef q ps _ b td [] Hr Ho ltac:(lia)) as Hu. rewrite <- Hu.
  unfold init. by apply run_app.
Qed.

Lemma drop_oldest_races_witness :
  ∃ sched, run sched (init 2 [lit "a"; lit "b"]) = Undef.
Proof. exact (drop_oldest_races 2 [lit "a"; lit "b"] ltac:(lia) ltac:(simpl; lia)). Defined.
