(* ===== verification/Rooms.v ===== *)
(** * Rooms: the room registry of userspace/vts/src/req_handler.c

    [g_rooms] is the array of 64 rows of 64 bytes, kept whole; only its first [g_room_count]
    rows are live.  The three operations run under [rooms_lock] and are atomic.  The contract
    is a finite set of names with room for 64 of them. *)
From stdpp Require Import prelude strings list gmap fin_sets.
From Stdlib Require Import Ascii ZArith Lia.
From S2P Require Import Prelude CString.

Definition MAX_ROOMS : nat := 64.
Definition ROOM_SIZE : nat := 64.

Record rooms := mk_rooms { g_rooms : list bytes; g_room_count : nat }.

Definition rooms_init : rooms :=
  mk_rooms (replicate MAX_ROOMS (replicate ROOM_SIZE NUL)) 0.

(** The loop the three operations share: the first live row that holds [name]. *)
Definition find_room (r : rooms) (name : bytes) : option nat :=
  fst <$> list_find (λ row, cstr row = name) (take (g_room_count r) (g_rooms r)).

Definition room_exists (r : rooms) (name : bytes) : bool :=
  match find_room r name with Some _ => true | None => false end.

Definition room_create (r : rooms) (name : bytes) : Z * rooms :=
  match find_room r name with
  | Some _ => (1%Z, r)
  | None =>
    if MAX_ROOMS <=? g_room_count r then ((-1)%Z, r)
    else
      let i := g_room_count r in
      let row := strncpy (default [] (g_rooms r !! i)) name (ROOM_SIZE - 1) in
      let row := <[ROOM_SIZE - 1 := NUL]> row in
      (0%Z, mk_rooms (<[i := row]> (g_rooms r)) (g_room_count r + 1))
  end.

Definition room_delete (r : rooms) (name : bytes) : Z * rooms :=
  match find_room r name with
  | Some i =>
    let count := g_room_count r - 1 in
    let rows :=
      if negb (i =? count) then
        <[i := memcpy (default [] (g_rooms r !! i)) (default [] (g_rooms r !! count)) ROOM_SIZE]>
          (g_rooms r)
      else g_rooms r in
    (0%Z, mk_rooms rows count)
  | None => (1%Z, r)
  end.

(** ** The contract *)

Inductive room_op := Create (name : bytes) | Delete (name : bytes) | Exists (name : bytes).

Definition op_name (o : room_op) : bytes :=
  match o with Create n | Delete n | Exists n => n end.

Definition room_step (o : room_op) (r : rooms) : Z * rooms :=
  match o with
  | Create n => room_create r n
  | Delete n => room_delete r n
  | Exists n => (if room_exists r n then 1%Z else 0%Z, r)
  end.

(** The same operations on a set of names. *)
Definition set_step (o : room_op) (X : gset bytes) : Z * gset bytes :=
  match o with
  | Create n =>
      if decide (n ∈ X) then (1%Z, X)
      else if decide (MAX_ROOMS ≤ size X) then ((-1)%Z, X)
      else (0%Z, {[n]} ∪ X)
  | Delete n => if decide (n ∈ X) then (0%Z, X ∖ {[n]}) else (1%Z, X)
  | Exists n => (if decide (n ∈ X) then 1%Z else 0%Z, X)
  end.

Fixpoint run {St} (step : room_op → St → Z * St) (ops : list room_op) (s : St) : list Z * St :=
  match ops with
  | [] => ([], s)
  | o :: ops => let '(z, s) := step o s in let '(zs, s) := run step ops s in (z :: zs, s)
  end.

(** The names the registry holds. *)
Definition room_names (r : rooms) : list bytes := cstr <$> take (g_room_count r) (g_rooms r).
Definition room_set (r : rooms) : gset bytes := list_to_set (room_names r).

(** A name that fits a row. *)
Definition valid_name (n : bytes) : Prop := nul_free n ∧ length n ≤ ROOM_SIZE - 1.

#[export] Instance valid_name_dec n : Decision (valid_name n).
Proof. unfold valid_name, nul_free. apply _. Defined.

Record wf_rooms (r : rooms) : Prop := {
  wf_rows : length (g_rooms r) = MAX_ROOMS;
  wf_row : Forall (λ row, length row = ROOM_SIZE) (g_rooms r);
  wf_count : g_room_count r ≤ MAX_ROOMS;
  wf_nodup : NoDup (room_names r) }.

(** ** Lemmas *)

Lemma swap_remove_perm {A} (l : list A) i n x y :
  length l = S n → l !! i = Some x → l !! n = Some y →
  x :: take n (<[i := y]> l) ≡ₚ l.
Proof.
  intros Hlen Hi Hn. assert (take n l ++ [y] = l) as Hl.
  { rewrite <- (take_drop n l) at 2. f_equal. rewrite (drop_S _ _ _ Hn). f_equal.
    by rewrite drop_ge by lia. }
  destruct (decide (i = n)) as [->|Hne].
  - rewrite take_insert_ge by lia. simplify_eq. rewrite <- Hl at 2.
    by rewrite Permutation_app_comm.
  - apply lookup_lt_Some in Hi as Hlt. rewrite take_insert_lt by lia.
    assert (take n l !! i = Some x) as Ht by by rewrite lookup_take_lt by lia.
    assert (i < length (take n l)) by (rewrite length_take; lia).
    rewrite <- Hl at 2. rewrite <- (take_drop_middle _ _ _ Ht) at 2.
    rewrite insert_take_drop by done. rewrite <- app_assoc. simpl.
    rewrite Permutation_middle. f_equiv.
    by rewrite (Permutation_app_comm (drop _ _) [y]).
Qed.

Lemma find_room_Some r name i :
  find_room r name = Some i →
  room_names r !! i = Some name ∧ i < g_room_count r.
Proof.
  unfold find_room, room_names. destruct (list_find _ _) as [[j row]|] eqn:E; [|done].
  intros [= <-]. apply list_find_Some in E as (Hj & Hn & _).
  rewrite list_lookup_fmap, Hj. simpl. split; [congruence|].
  apply lookup_lt_Some in Hj. rewrite length_take in Hj. lia.
Qed.

Lemma find_room_None r name : find_room r name = None ↔ name ∉ room_set r.
Proof.
  unfold find_room, room_set, room_names. rewrite elem_of_list_to_set, list_elem_of_fmap.
  destruct (list_find _ _) as [[j row]|] eqn:E; simpl; split; try done.
  - apply list_find_Some in E as (Hj & Hn & _). intros []. exists row.
    split; [done|]. by eapply list_elem_of_lookup_2.
  - apply list_find_None in E. intros _ (row & -> & Hrow).
    by eapply Forall_forall in E.
Qed.

Lemma find_room_elem r name : is_Some (find_room r name) ↔ name ∈ room_set r.
Proof.
  destruct (find_room r name) eqn:E.
  - split; [|eauto]. intros _. destruct (decide (name ∈ room_set r)) as [|H]; [done|].
    apply find_room_None in H. congruence.
  - apply find_room_None in E. split; [by intros []|done].
Qed.

Lemma length_room_names r : wf_rooms r → length (room_names r) = g_room_count r.
Proof. intros []. unfold room_names. rewrite length_fmap, length_take. lia. Qed.

Lemma size_room_set r : wf_rooms r → size (room_set r) = g_room_count r.
Proof.
  intros Hr. unfold room_set. rewrite size_list_to_set by by destruct Hr.
  by apply length_room_names.
Qed.

Lemma wf_rooms_init : wf_rooms rooms_init ∧ room_set rooms_init = ∅.
Proof.
  split; [|done]. split; unfold rooms_init; cbn [g_rooms g_room_count].
  - apply length_replicate.
  - by apply Forall_replicate.
  - lia.
  - constructor.
Qed.

(** Storing a valid name into the first free row. *)
Lemma room_create_stored r name :
  wf_rooms r → valid_name name → name ∉ room_set r → g_room_count r < MAX_ROOMS →
  ∃ r', room_create r name = (0%Z, r') ∧ wf_rooms r' ∧ room_names r' = room_names r ++ [name].
Proof.
  intros Hr [Hnul Hlen] Hnew Hc. unfold room_create.
  rewrite (proj2 (find_room_None r name)) by done.
  destruct (MAX_ROOMS <=? _) eqn:E; [apply Nat.leb_le in E; lia|]. clear E.
  eexists. split; [done|]. destruct Hr as [Hrows Hrow Hcount Hnd].
  destruct (lookup_lt_is_Some_2 (g_rooms r) (g_room_count r)) as [old Hold]; [lia|].
  rewrite Hold. change (default [] (Some old)) with old. assert (length old = ROOM_SIZE) as Hol.
  { by eapply Forall_lookup_1 in Hrow. }
  set (row := <[ROOM_SIZE - 1 := NUL]> _).
  assert (cstr row = name) as Hcr.
  { unfold row. rewrite strncpy_terminated by done. by apply take_ge. }
  assert (length row = ROOM_SIZE) as Hlr.
  { unfold row. rewrite length_insert, length_strncpy; unfold ROOM_SIZE in *; lia. }
  assert (room_names (mk_rooms (<[g_room_count r := row]> (g_rooms r)) (g_room_count r + 1))
          = room_names r ++ [name]) as Hn.
  { unfold room_names. simpl. rewrite Nat.add_1_r.
    rewrite (take_S_r _ _ row) by (rewrite list_lookup_insert_eq; [done|lia]).
    rewrite take_insert_ge by lia. by rewrite fmap_app, <- Hcr. }
  split; [|done]. split; simpl.
  - by rewrite length_insert.
  - by apply Forall_insert.
  - lia.
  - rewrite Hn. apply NoDup_app. split_and!; [done| |apply NoDup_singleton].
    intros x Hx ->%list_elem_of_singleton. apply Hnew.
    unfold room_set. by apply elem_of_list_to_set.
Qed.

(** Deleting the name in row [i]: the last row takes its place. *)
Lemma room_delete_found r name i :
  wf_rooms r → find_room r name = Some i →
  ∃ r', room_delete r name = (0%Z, r') ∧ wf_rooms r' ∧ name :: room_names r' ≡ₚ room_names r.
Proof.
  intros Hr Hi. unfold room_delete. rewrite Hi.
  apply find_room_Some in Hi as [Hname Hlt]. pose proof (length_room_names r Hr) as Hln.
  destruct Hr as [Hrows Hrow Hcount Hnd]. eexists. split; [done|].
  destruct (g_room_count r) as [|n] eqn:Hc; [lia|]. cbn [Nat.sub]. rewrite Nat.sub_0_r.
  destruct (lookup_lt_is_Some_2 (g_rooms r) i) as [ri Hri]; [lia|].
  destruct (lookup_lt_is_Some_2 (g_rooms r) n) as [rn Hrn]; [lia|].
  rewrite Hri, Hrn. change (default [] (Some ri)) with ri. change (default [] (Some rn)) with rn.
  assert (memcpy ri rn ROOM_SIZE = rn) as ->.
  { assert (length ri = ROOM_SIZE) by exact (Forall_lookup_1 _ _ _ _ Hrow Hri).
    assert (length rn = ROOM_SIZE) by exact (Forall_lookup_1 _ _ _ _ Hrow Hrn).
    unfold memcpy. rewrite take_ge, drop_ge, app_nil_r; [done|lia..]. }
  assert (room_names (mk_rooms (if negb (i =? n) then <[i := rn]> (g_rooms r) else g_rooms r) n)
          = take n (<[i := cstr rn]> (room_names r))) as Hn.
  { unfold room_names. rewrite Hc. simpl. destruct (Nat.eqb_spec i n) as [->|Hne]; simpl.
    - rewrite take_insert_ge by lia. by rewrite <- fmap_take, take_take, Nat.min_l by lia.
    - rewrite <- list_fmap_insert, <- fmap_take, take_insert_lt, take_insert_lt by lia.
      by rewrite take_take, Nat.min_l by lia. }
  assert (name :: take n (<[i := cstr rn]> (room_names r)) ≡ₚ room_names r) as Hperm.
  { apply swap_remove_perm; [by rewrite Hln|done|].
    unfold room_names. rewrite list_lookup_fmap, Hc, lookup_take_lt, Hrn by lia. done. }
  split.
  - split; cbn [g_rooms g_room_count].
    + case_match; by rewrite ?length_insert.
    + case_match; [|done]. apply Forall_insert; [done|].
      exact (Forall_lookup_1 _ _ _ _ Hrow Hrn).
    + lia.
    + rewrite Hn. rewrite <- Hperm in Hnd. by apply NoDup_cons in Hnd as [_ ?].
  - by rewrite Hn.
Qed.

(** One operation of the registry is one operation of the set. *)
Lemma room_step_refines o r :
  wf_rooms r → valid_name (op_name o) →
  let '(z, r') := room_step o r in
  wf_rooms r' ∧ set_step o (room_set r) = (z, room_set r').
Proof.
  intros Hr Hn. destruct o as [n|n|n]; cbn [room_step set_step op_name] in *.
  - destruct (find_room r n) as [i|] eqn:E.
    + rewrite decide_True by (apply find_room_elem; eauto).
      unfold room_create. rewrite E. done.
    + apply find_room_None in E as Hnew. rewrite decide_False by done.
      rewrite size_room_set by done. case_decide as Hfull.
      * unfold room_create. rewrite E, (proj2 (Nat.leb_le _ _)) by done. done.
      * destruct (room_create_stored r n) as (r' & -> & Hwf & Hr'); [done..|lia|].
        split; [done|]. f_equal. unfold room_set. rewrite Hr', list_to_set_app_L. set_solver.
  - destruct (find_room r n) as [i|] eqn:E.
    + rewrite decide_True by (apply find_room_elem; eauto).
      destruct (room_delete_found r n i) as (r' & -> & Hwf & Hr'); [done..|].
      split; [done|]. f_equal.
      assert (room_set r = {[n]} ∪ room_set r') as ->.
      { unfold room_set. by rewrite <- (list_to_set_perm_L _ _ Hr'). }
      assert (n ∉ room_set r'); [|set_solver].
      unfold room_set. rewrite elem_of_list_to_set. destruct Hr as [_ _ _ Hnd].
      rewrite <- Hr' in Hnd. by apply NoDup_cons in Hnd as [? _].
    + apply find_room_None in E as Hnew. rewrite decide_False by done.
      unfold room_delete. by rewrite E.
  - unfold room_exists. destruct (find_room r n) as [i|] eqn:E.
    + rewrite decide_True by (apply find_room_elem; eauto). done.
    + apply find_room_None in E as Hnew. by rewrite decide_False.
Qed.

Lemma run_refines ops r :
  wf_rooms r → Forall (λ o, valid_name (op_name o)) ops →
  let '(zs, r') := run room_step ops r in
  wf_rooms r' ∧ run set_step ops (room_set r) = (zs, room_set r').
Proof.
  intros Hr Hops. revert r Hr. induction Hops as [|o ops Ho _ IH]; intros r Hr; [done|].
  cbn [run]. pose proof (room_step_refines o r Hr Ho) as Hstep.
  destruct (room_step o r) as [z r1]. destruct Hstep as [Hr1 ->].
  specialize (IH r1 Hr1). destruct (run room_step ops r1) as [zs r2].
  destruct IH as [Hr2 ->]. done.
Qed.

(** ** Properties *)

(** C12: the registry is a bounded set. From the empty registry, any sequence of create,
    delete and lookup calls whose names fit a row answers exactly as a set of at most 64
    names does (0 done, 1 exists / not found, -1 full), and keeps the array well formed: no
    name twice, every row 64 bytes, at most 64 live rows. *)
Theorem rooms_refine_set (ops : list room_op) :
  Forall (λ o, valid_name (op_name o)) ops →
  let '(zs, r) := run room_step ops rooms_init in
  wf_rooms r ∧ run set_step ops ∅ = (zs, room_set r).
Proof.
  intros Hops. destruct wf_rooms_init as [Hwf Hempty].
  pose proof (run_refines ops rooms_init Hwf Hops) as H. by rewrite Hempty in H.
Qed.

Lemma rooms_refine_set_witness :
  (run room_step [Create (lit "a"); Create (lit "b"); Create (lit "a"); Delete (lit "a");
                  Exists (lit "a"); Exists (lit "b")] rooms_init).1
  = [0%Z; 0%Z; 1%Z; 0%Z; 0%Z; 1%Z].
Proof.
  pose proof (rooms_refine_set
    [Create (lit "a"); Create (lit "b"); Create (lit "a"); Delete (lit "a");
     Exists (lit "a"); Exists (lit "b")]
    ltac:(by_evaluation)) as H.
  destruct (run room_step _ _) as [zs r]. destruct H as [_ H].
  apply (f_equal fst) in H. cbn [fst] in H |- *. rewrite <- H. vm_compute. reflexivity.
Defined.

(** Deletion is local. A successful [room_delete] removes exactly the row of [name]: the
    live names are the others, each as often as before, although the last row moves. *)
Theorem room_delete_local (r : rooms) (name : bytes) :
  wf_rooms r → name ∈ room_set r →
  ∃ r', room_delete r name = (0%Z, r') ∧ wf_rooms r'
        ∧ name :: room_names r' ≡ₚ room_names r ∧ room_exists r' name = false
        ∧ S (g_room_count r') = g_room_count r.
Proof.
  intros Hr [i Hi]%find_room_elem.
  destruct (room_delete_found r name i Hr Hi) as (r' & E & Hwf & Hp).
  exists r'. split_and!; [done..| |].
  - unfold room_exists. rewrite (proj2 (find_room_None r' name)); [done|].
    unfold room_set. rewrite elem_of_list_to_set. destruct Hr as [_ _ _ Hnd].
    rewrite <- Hp in Hnd. by apply NoDup_cons in Hnd as [? _].
  - rewrite <- (length_room_names r), <- (length_room_names r') by done. by rewrite <- Hp.
Qed.

Lemma room_delete_local_witness :
  let r := (room_create (room_create rooms_init (lit "a")).2 (lit "b")).2 in
  room_names (room_delete r (lit "a")).2 = [lit "b"].
Proof.
  intros r.
  destruct (room_delete_local r (lit "a")) as (r' & E & _ & Hp & _).
  - destruct wf_rooms_init as [H0 He].
    pose proof (room_step_refines (Create (lit "a")) rooms_init H0
      ltac:(by_evaluation)) as [H1 _].
    pose proof (room_step_refines (Create (lit "b")) (room_create rooms_init (lit "a")).2 H1
      ltac:(by_evaluation)) as [H2 _].
    exact H2.
  - apply find_room_elem. vm_compute. eauto.
  - rewrite E. cbn [snd]. assert (room_names r = [lit "a"; lit "b"]) as Hr by reflexivity.
    rewrite Hr in Hp. apply (inj (cons (lit "a"))) in Hp || apply Permutation_cons_inv in Hp.
    by apply Permutation_singleton_r in Hp || apply Permutation_singleton_inj.
Defined.
