(* ===== verification/Dedup.v ===== *)
(** * Dedup: the request-id cache of userspace/vts/src/req_handler.c

    [dedup_tab] is a ring of 4096 entries written at [dedup_pos]; each holds a 64-byte id, a
    result and a use flag.  The contract is a window of the last 4096 results in order of
    insertion, in which the oldest is dropped first. *)
From stdpp Require Import prelude strings list.
From Stdlib Require Import Ascii ZArith Lia.
From S2P Require Import Prelude CString DropOldest.

Definition DEDUP_MAX : nat := 4096.
Definition ID_SIZE : nat := 64.

Record entry := mk_entry { id : bytes; result : Z; used : Z }.
Record dedup := mk_dedup { dedup_tab : list entry; dedup_pos : nat }.

Definition entry_zero : entry := mk_entry (replicate ID_SIZE NUL) 0 0.
Definition dedup_init : dedup := mk_dedup (replicate DEDUP_MAX entry_zero) 0.

(** The entry of the first slot in use that holds the id. *)
Definition hit (i : bytes) (e : entry) : Prop := used e ≠ 0%Z ∧ cstr (id e) = i.

#[export] Instance hit_dec i e : Decision (hit i e).
Proof. unfold hit. apply _. Defined.

(** [Some r] is the C result 1 with [r] stored through [out_res]. *)
Definition dedup_find (d : dedup) (i : bytes) : option Z :=
  (λ p, result p.2) <$> list_find (hit i) (dedup_tab d).

Definition dedup_put (d : dedup) (i : bytes) (res : Z) : dedup :=
  match i with
  | [] => d
  | _ =>
    let old := default entry_zero (dedup_tab d !! dedup_pos d) in
    let buf := <[ID_SIZE - 1 := NUL]> (strncpy (id old) i (ID_SIZE - 1)) in
    mk_dedup (<[dedup_pos d := mk_entry buf res 1]> (dedup_tab d))
             ((dedup_pos d + 1) mod DEDUP_MAX)
  end.

(** How [handle_legacy] uses the cache, one request at a time: the cached result when there
    is one, else the request's own result, which is then stored. *)
Definition dedup_request (d : dedup) (i : bytes) (res : Z) : Z * dedup :=
  match dedup_find d i with
  | Some cached => (cached, d)
  | None => (res, dedup_put d i res)
  end.

(** ** The contract *)

Definition window : Type := list (bytes * Z).

Definition window_find (w : window) (i : bytes) : option Z :=
  (λ p, p.2.2) <$> list_find (λ q, q.1 = i) w.

Definition window_put (w : window) (i : bytes) (res : Z) : window :=
  bounded_push DEDUP_MAX w (i, res).

Definition window_request (w : window) (i : bytes) (res : Z) : Z * window :=
  match window_find w i with
  | Some cached => (cached, w)
  | None => (res, window_put w i res)
  end.

Fixpoint answers {St} (step : St → bytes → Z → Z * St) (reqs : list (bytes * Z)) (s : St) :
    list Z :=
  match reqs with
  | [] => []
  | (i, r) :: reqs => let '(a, s) := step s i r in a :: answers step reqs s
  end.

(** An id as [json_get_str] delivers it: not empty, at most 63 bytes. *)
Definition valid_id (i : bytes) : Prop := i ≠ [] ∧ nul_free i ∧ length i ≤ ID_SIZE - 1.

#[export] Instance valid_id_dec i : Decision (valid_id i).
Proof. unfold valid_id, nul_free. apply _. Defined.

Definition view (e : entry) : bytes * Z := (cstr (id e), result e).
Definition live (e : entry) : Prop := used e ≠ 0%Z ∧ length (id e) = ID_SIZE.

(** The ring against the window: a filled prefix, or the whole ring from [dedup_pos] on. *)
Inductive rep : dedup → window → Prop :=
  | rep_part l w :
      Forall live l → w = view <$> l → length l < DEDUP_MAX → NoDup w.*1 →
      rep (mk_dedup (l ++ replicate (DEDUP_MAX - length l) entry_zero) (length l)) w
  | rep_full t p w :
      Forall live t → length t = DEDUP_MAX → p < DEDUP_MAX →
      w = view <$> rotation p t → NoDup w.*1 →
      rep (mk_dedup t p) w.

(** ** Lemmas *)

Lemma DEDUP_MAX_pos : 0 < DEDUP_MAX.
Proof. unfold DEDUP_MAX. lia. Qed.

Opaque DEDUP_MAX.

Lemma rep_init : rep dedup_init [].
Proof.
  pose proof (rep_part [] [] (Forall_nil_2 _) eq_refl DEDUP_MAX_pos (NoDup_nil_2)) as H.
  simpl in H. by rewrite Nat.sub_0_r in H.
Qed.

Lemma window_find_elem w i r :
  NoDup w.*1 → (window_find w i = Some r ↔ (i, r) ∈ w).
Proof.
  intros Hnd. unfold window_find. split.
  - destruct (list_find _ w) as [[k [i' r']]|] eqn:E; [|done]. intros [= <-].
    apply list_find_Some in E as (Hk & Hi & _). simpl in *. subst.
    by eapply list_elem_of_lookup_2.
  - intros Hin. destruct (list_find_elem_of (λ q, q.1 = i) w (i, r) Hin eq_refl)
      as [[k [i' r']] E].
    rewrite E. apply list_find_Some in E as (Hk & Hi & _). simpl in *. subst i'.
    apply list_elem_of_lookup in Hin as [k' Hk'].
    assert (k = k') as ->.
    { eapply (NoDup_lookup w.*1 _ _ i); [done|..]; rewrite list_lookup_fmap;
        by rewrite ?Hk, ?Hk'. }
    congruence.
Qed.

Lemma dedup_find_elem d i r :
  dedup_find d i = Some r → ∃ e, e ∈ dedup_tab d ∧ used e ≠ 0%Z ∧ view e = (i, r).
Proof.
  unfold dedup_find. destruct (list_find _ _) as [[k e]|] eqn:E; [|done]. intros [= <-].
  apply list_find_Some in E as (Hk & [Hu Hi] & _). exists e. split_and!; [|done|].
  - by eapply list_elem_of_lookup_2.
  - unfold view. simpl. by rewrite Hi.
Qed.

Lemma dedup_find_None d i :
  dedup_find d i = None → ∀ e, e ∈ dedup_tab d → used e ≠ 0%Z → cstr (id e) ≠ i.
Proof.
  unfold dedup_find. destruct (list_find _ _) eqn:E; [done|]. intros _ e He Hu Hi.
  apply list_find_None in E. eapply Forall_forall in E; [|done]. by apply E.
Qed.

(** The live entries of the ring are the window. *)
Lemma rep_elem d w :
  rep d w → NoDup w.*1 ∧ ∀ q, q ∈ w ↔ ∃ e, e ∈ dedup_tab d ∧ used e ≠ 0%Z ∧ view e = q.
Proof.
  intros [l w' Hl -> Hlen Hnd|t p w' Ht Hlen Hp -> Hnd]; (split; [done|]); intros q; simpl.
  - rewrite list_elem_of_fmap. setoid_rewrite elem_of_app. split.
    + intros (e & -> & He). exists e. split_and!; [by left|by eapply Forall_forall in Hl as []|done].
    + intros (e & [He|He] & Hu & <-); [eauto|].
      apply elem_of_replicate in He as [-> _]. done.
  - rewrite list_elem_of_fmap. unfold rotation. setoid_rewrite elem_of_app. assert (∀ e, e ∈ drop p t ∨ e ∈ take p t ↔ e ∈ t) as E.
    { intros e. rewrite <- (take_drop p t) at 3. rewrite elem_of_app. tauto. }
    setoid_rewrite E. split.
    + intros (e & -> & He). exists e. split_and!; [done|by eapply Forall_forall in Ht as []|done].
    + intros (e & He & Hu & <-). eauto.
Qed.

Lemma dedup_find_rep d w i : rep d w → dedup_find d i = window_find w i.
Proof.
  intros [Hnd Hw]%rep_elem. destruct (dedup_find d i) as [r|] eqn:E.
  - symmetry. apply window_find_elem; [done|]. apply Hw. by apply dedup_find_elem.
  - destruct (window_find w i) as [r|] eqn:E'; [|done]. exfalso.
    apply window_find_elem in E'; [|done]. apply Hw in E' as (e & He & Hu & Hv).
    eapply dedup_find_None in E; [|done..]. by injection Hv.
Qed.

(** The entry a put writes. *)
Lemma put_entry old i res :
  length (id old) = ID_SIZE → valid_id i →
  let e := mk_entry (<[ID_SIZE - 1 := NUL]> (strncpy (id old) i (ID_SIZE - 1))) res 1 in
  live e ∧ view e = (i, res).
Proof.
  intros Hold (_ & Hnul & Hlen) e. unfold live, view, e. cbn [id used result].
  rewrite length_insert, length_strncpy by (rewrite Hold; unfold ID_SIZE; lia).
  rewrite strncpy_terminated by done. rewrite take_ge by done. by split.
Qed.

Lemma dedup_put_unfold d i res :
  valid_id i →
  dedup_put d i res =
    mk_dedup (<[dedup_pos d := mk_entry (<[ID_SIZE - 1 := NUL]>
                 (strncpy (id (default entry_zero (dedup_tab d !! dedup_pos d))) i (ID_SIZE - 1)))
                 res 1]> (dedup_tab d))
      ((dedup_pos d + 1) mod DEDUP_MAX).
Proof. intros [Hi _]. by destruct i. Qed.

Lemma window_put_nodup w i res :
  NoDup w.*1 → window_find w i = None → NoDup (window_put w i res).*1.
Proof.
  intros Hnd Hnew. assert (i ∉ w.*1).
  { intros ([i' r] & -> & Hin)%list_elem_of_fmap. apply window_find_elem in Hin; [|done].
    simpl in *. congruence. }
  eapply sublist_NoDup; [|apply fmap_sublist, bounded_push_sublist].
  rewrite fmap_app. apply NoDup_app. split_and!; [done| |apply NoDup_singleton].
  by intros x Hx ->%list_elem_of_singleton.
Qed.

(** A result that has just been stored is found. *)
Lemma window_find_put w i res :
  NoDup w.*1 → window_find w i = None → window_find (window_put w i res) i = Some res.
Proof.
  intros Hnd Hnew. apply window_find_elem; [by apply window_put_nodup|].
  apply elem_of_app. right. by apply list_elem_of_singleton.
Qed.

Lemma rep_put d w i res :
  rep d w → valid_id i → window_find w i = None →
  rep (dedup_put d i res) (window_put w i res).
Proof.
  intros Hrep Hi Hnew. rewrite dedup_put_unfold by done.
  assert (NoDup (window_put w i res).*1) as Hnd'.
  { apply window_put_nodup; [|done]. by apply rep_elem in Hrep as [Hnd _]. }
  destruct Hrep as [l w Hl -> Hlen Hnd|t p w Ht Hlen Hp -> Hnd];
    cbn [dedup_tab dedup_pos].
  - assert (length l < DEDUP_MAX) by done.
    unfold window_put in *. rewrite bounded_push_room in * by by rewrite length_fmap.
    destruct (DEDUP_MAX - length l) as [|n] eqn:En; [lia|]. cbn [replicate].
    rewrite list_lookup_middle by done. change (default _ (Some ?x)) with x.
    destruct (put_entry entry_zero i res eq_refl Hi) as [Hlive Hview].
    set (e := mk_entry _ _ _) in *.
    rewrite insert_app_r_alt by lia. rewrite Nat.sub_diag. cbn [insert list_insert].
    assert ((view <$> l) ++ [(i, res)] = view <$> (l ++ [e])) as Hw
      by (by rewrite fmap_app; simpl; rewrite Hview).
    rewrite (cons_middle e), (assoc_L (++) l). rewrite Hw in *.
    assert (Forall live (l ++ [e])) by (apply Forall_app; auto).
    assert (length (l ++ [e]) = length l + 1) as Hlen' by (rewrite length_app; done).
    destruct (decide (length l + 1 = DEDUP_MAX)) as [Heq|Hne].
    + assert (n = 0) as -> by lia. rewrite Heq, Nat.Div0.mod_same. cbn [replicate].
      rewrite app_nil_r. apply rep_full; [done|lia|apply DEDUP_MAX_pos| |done].
      unfold rotation. cbn [drop take]. by rewrite app_nil_r.
    + rewrite Nat.mod_small by lia. replace n with (DEDUP_MAX - length (l ++ [e])) by lia.
      rewrite <- Hlen'. apply rep_part; [done..|lia|done].
  - destruct (lookup_lt_is_Some_2 t p) as [old Hold]; [lia|]. rewrite Hold.
    change (default _ (Some old)) with old.
    destruct (Forall_lookup_1 _ _ _ _ Ht Hold) as [_ Hlo].
    destruct (put_entry old i res Hlo Hi) as [Hlive Hview].
    set (e := mk_entry _ _ _) in *.
    destruct (rotate_step t p e) as [Hp' Hrot]; [lia|]. rewrite Hlen in Hp', Hrot.
    apply rep_full; [by apply Forall_insert|by rewrite length_insert|done| |done].
    rewrite Hrot. unfold window_put. rewrite bounded_push_full
      by (rewrite length_fmap, length_rotation; lia).
    rewrite (fmap_app view (tail _) [e]), fmap_cons, Hview. f_equal.
    by destruct (rotation p t).
Qed.

Lemma request_refines d w i res :
  rep d w → valid_id i →
  let '(a, d') := dedup_request d i res in
  ∃ w', window_request w i res = (a, w') ∧ rep d' w'.
Proof.
  intros Hrep Hi. unfold dedup_request, window_request. rewrite (dedup_find_rep d w) by done.
  destruct (window_find w i) eqn:E; [eauto|]. eexists. split; [done|]. by apply rep_put.
Qed.

Lemma answers_refine reqs d w :
  rep d w → Forall (λ q, valid_id q.1) reqs →
  answers dedup_request reqs d = answers window_request reqs w.
Proof.
  intros Hrep Hreqs. revert d w Hrep.
  induction Hreqs as [|[i r] reqs Hi _ IH]; intros d w Hrep; [done|]. cbn [answers].
  pose proof (request_refines d w i r Hrep Hi) as H.
  destruct (dedup_request d i r) as [a d']. destruct H as (w' & -> & Hw'). f_equal. by apply IH.
Qed.

(** ** Properties *)

(** C14: the cache is a sliding window. Whatever the sequence of requests with valid ids, the
    ring answers as the window of the last 4096 stored results does: a repeated id gets the
    result stored first until 4096 newer ids have been stored, and then runs again. *)
Theorem dedup_refines_window (reqs : list (bytes * Z)) :
  Forall (λ q, valid_id q.1) reqs →
  answers dedup_request reqs dedup_init = answers window_request reqs [].
Proof. apply answers_refine, rep_init. Qed.

Lemma dedup_refines_window_witness :
  answers dedup_request [(lit "a", 1%Z); (lit "b", 0%Z); (lit "a", 0%Z); (lit "b", 1%Z)] dedup_init
  = [1%Z; 0%Z; 1%Z; 0%Z].
Proof.
  rewrite dedup_refines_window.
  - reflexivity.
  - by_evaluation.
Defined.
