(* ===== verification/ReqQueue.v ===== *)
(** * ReqQueue: the worker queue of userspace/vts/src/req_handler.c

    A singly linked list of [work_t] cells with [qhead], [qtail] and [qlen], on a heap of
    cells: reading or freeing a location that is not allocated is undefined behaviour, so the
    theorems also say that the code never does it.  Both operations run under [qlock].  A
    worker takes a cell off the list, processes it outside the lock and frees it at the end
    ([process_one]); such cells are "in flight". *)
From stdpp Require Import prelude strings list gmap fin_maps fin_sets.
From Stdlib Require Import Ascii ZArith Lia.
From S2P Require Import Prelude CString DropOldest.

Definition WORKER_COUNT : nat := 8.
Definition QUEUE_DEPTH : nat := Z.to_nat 10240.

(** [payload] is the [malloc(len+1)] copy, NUL included. *)
Record work := mk_work { payload : bytes; len : Z; peer_fd : Z }.

Record cell := mk_cell { cell_work : work; next : option nat }.

Record req_queue := mk_queue {
  heap : gmap nat cell;
  brk : nat;             (* the next location the allocator hands out *)
  qhead : option nat;
  qtail : option nat;
  qlen : Z }.

Definition req_queue_init : req_queue := mk_queue ∅ 0 None None 0.

Definition set_head (h : option nat) (q : req_queue) : req_queue :=
  mk_queue (heap q) (brk q) h (qtail q) (qlen q).
Definition set_tail (t : option nat) (q : req_queue) : req_queue :=
  mk_queue (heap q) (brk q) (qhead q) t (qlen q).
Definition set_qlen (n : Z) (q : req_queue) : req_queue :=
  mk_queue (heap q) (brk q) (qhead q) (qtail q) n.
Definition set_heap (h : gmap nat cell) (q : req_queue) : req_queue :=
  mk_queue h (brk q) (qhead q) (qtail q) (qlen q).

(** malloc, free and the accesses through a pointer. *)
Definition alloc (c : cell) : mon req_queue nat := λ q,
  Done (brk q, mk_queue (<[brk q := c]> (heap q)) (S (brk q)) (qhead q) (qtail q) (qlen q)).

Definition load (p : nat) : mon req_queue cell := λ q,
  match heap q !! p with Some c => Done (c, q) | None => Undef end.

Definition store (p : nat) (c : cell) : mon req_queue unit := λ q,
  match heap q !! p with Some _ => Done (tt, set_heap (<[p := c]> (heap q)) q) | None => Undef end.

Definition free (p : nat) : mon req_queue unit := λ q,
  match heap q !! p with Some _ => Done (tt, set_heap (delete p (heap q)) q) | None => Undef end.

(** A dereference of a pointer that may be NULL. *)
Definition non_null (p : option nat) : mon req_queue nat := lift p.

(** [qhead = p->next; if(!qhead) qtail = NULL;] *)
Definition unlink_head (p : nat) : mon req_queue cell :=
  c ← load p;
  modify (set_head (next c));;
  (match next c with None => modify (set_tail None) | Some _ => mret tt end);;
  mret c.

(** [if(!qhead) qhead = w, qtail = w; else { qtail->next = w; qtail = w; }] *)
Definition link_tail (w : nat) : mon req_queue unit :=
  h ← gets qhead;
  match h with
  | None => modify (set_head (Some w));; modify (set_tail (Some w))
  | Some _ =>
    t ← gets qtail; t ← non_null t;
    c ← load t;
    store t (mk_cell (cell_work c) (Some w));;
    modify (set_tail (Some w))
  end.

Definition req_queue_push (data : bytes) (fd : Z) : mon req_queue unit :=
  w ← alloc (mk_cell (mk_work (data ++ [NUL]) (Z.of_nat (length data)) fd) None);
  n ← gets qlen;
  (if (Z.of_nat QUEUE_DEPTH <=? n)%Z then
     old ← gets qhead;
     match old with
     | Some old =>
       unlink_head old;;
       free old;;
       n ← gets qlen; modify (set_qlen (n - 1))
     | None => mret tt
     end
   else mret tt);;
  link_tail w;;
  n ← gets qlen; modify (set_qlen (n + 1)).

(** The critical section of [worker_fn] when the list is not empty; on an empty list the
    worker waits on the condition, and nothing happens. *)
Definition worker_take : mon req_queue (option (nat * work)) :=
  h ← gets qhead;
  match h with
  | None => mret None
  | Some w =>
    c ← unlink_head w;
    n ← gets qlen; modify (set_qlen (n - 1));;
    mret (Some (w, cell_work c))
  end.

(** [free(w->payload); free(w);] at the end of [process_one]. *)
Definition work_release (w : nat) : mon req_queue unit := free w.

(** Take a request and release it. *)
Definition worker_pop : mon req_queue (option work) :=
  r ← worker_take;
  match r with
  | None => mret None
  | Some (w, x) => work_release w;; mret (Some x)
  end.

(** ** The representation *)

Definition mk_request (data : bytes) (fd : Z) : work :=
  mk_work (data ++ [NUL]) (Z.of_nat (length data)) fd.

(** Cell [i] of the chain holds work [i] and points to cell [i+1]. *)
Fixpoint chain (h : gmap nat cell) (ps : list nat) (ws : list work) : Prop :=
  match ps, ws with
  | [], [] => True
  | p :: ps, w :: ws => h !! p = Some (mk_cell w (head ps)) ∧ chain h ps ws
  | _, _ => False
  end.

(** The list of [q] holds [ws], and the cells [fl] are in flight: every other location is
    free, so nothing leaks and nothing dangles. *)
Definition is_list (q : req_queue) (fl : gset nat) (ws : list work) : Prop :=
  ∃ ps, chain (heap q) ps ws ∧ NoDup ps ∧ list_to_set ps ## fl
    ∧ dom (heap q) = list_to_set ps ∪ fl
    ∧ (∀ p, p ∈ dom (heap q) → p < brk q)
    ∧ qhead q = head ps ∧ qtail q = last ps.

Definition is_queue (q : req_queue) (fl : gset nat) (ws : list work) : Prop :=
  is_list q fl ws ∧ qlen q = Z.of_nat (length ws) ∧ length ws ≤ QUEUE_DEPTH.

(** ** Lemmas *)

Lemma QUEUE_DEPTH_pos : 0 < QUEUE_DEPTH.
Proof. unfold QUEUE_DEPTH. lia. Qed.

Lemma QUEUE_DEPTH_large : 8 ≤ QUEUE_DEPTH.
Proof. unfold QUEUE_DEPTH. lia. Qed.

Opaque QUEUE_DEPTH.

Lemma chain_length h ps ws : chain h ps ws → length ps = length ws.
Proof.
  revert ws. induction ps as [|p ps IH]; intros [|w ws]; simpl; try done.
  intros [_ H]. by rewrite (IH ws).
Qed.

(** The list of a queue is the one that its cells hold. *)
Lemma chain_fun h ps ws ps' ws' :
  chain h ps ws → chain h ps' ws' → head ps = head ps' → ws = ws'.
Proof.
  revert ws ps' ws'. induction ps as [|p ps IH]; intros [|w ws] [|p' ps'] [|w' ws']; simpl; try done.
  intros [E1 H1] [E2 H2] [= ->]. rewrite E1 in E2. injection E2 as -> E. f_equal. by eapply IH.
Qed.

Lemma is_queue_fun q fl ws fl' ws' : is_queue q fl ws → is_queue q fl' ws' → ws = ws'.
Proof.
  intros [(ps & Hc & _ & _ & _ & _ & Hh & _) _] [(ps' & Hc' & _ & _ & _ & _ & Hh' & _) _].
  eapply chain_fun; [done..|congruence].
Qed.

Lemma chain_frame h h' ps ws :
  (∀ p, p ∈ ps → h' !! p = h !! p) → chain h ps ws → chain h' ps ws.
Proof.
  revert ws. induction ps as [|p ps IH]; intros [|w ws] Hh; simpl; try done.
  intros [H1 H2]. split; [rewrite Hh; [done|set_solver]|].
  apply IH; [|done]. intros. apply Hh. set_solver.
Qed.

(** Linking a new cell behind the last one. *)
Lemma chain_snoc h ps ws t wt p w :
  NoDup (ps ++ [t]) → p ∉ ps ++ [t] →
  chain h (ps ++ [t]) (ws ++ [wt]) → h !! p = Some (mk_cell w None) →
  chain (<[t := mk_cell wt (Some p)]> h) ((ps ++ [t]) ++ [p]) ((ws ++ [wt]) ++ [w]).
Proof.
  intros Hnd Hp Hc Hpw. revert ws Hnd Hp Hc.
  induction ps as [|x ps IH]; intros [|y ws] Hnd Hp Hc; simpl in *.
  - destruct Hc as [Ht _]. rewrite lookup_insert_eq. split; [done|].
    rewrite lookup_insert_ne by set_solver. by rewrite Hpw.
  - destruct Hc as [_ Hc]. by destruct ws.
  - destruct Hc as [_ Hc]. apply chain_length in Hc. rewrite length_app in Hc. simpl in Hc. lia.
  - destruct Hc as [Hx Hc]. apply NoDup_cons in Hnd as [Hxn Hnd]. split.
    + rewrite lookup_insert_ne by set_solver. rewrite Hx. by destruct ps.
    + apply IH; [done|set_solver|done].
Qed.

Lemma chain_last h ps ws p :
  chain h ps ws → last ps = Some p →
  ∃ ps' ws' w, ps = ps' ++ [p] ∧ ws = ws' ++ [w] ∧ h !! p = Some (mk_cell w None).
Proof.
  intros Hc [ps' ->]%last_Some. apply chain_length in Hc as Hl.
  rewrite length_app in Hl. simpl in Hl.
  destruct ws as [|w ws _] using rev_ind; [simpl in *; lia|].
  rewrite length_app in Hl. simpl in Hl. exists ps', ws, w. split_and!; [done..|].
  revert ws Hc Hl. induction ps' as [|x ps' IH]; intros [|y ws] Hc Hl; simpl in *; try lia.
  - by destruct Hc.
  - destruct Hc as [_ Hc]. apply (IH ws); [done|lia].
Qed.

Lemma alloc_spec c q fl ws :
  is_list q fl ws →
  wp (alloc c) q (λ w q', is_list q' ({[w]} ∪ fl) ws ∧ (w ∉ fl) ∧ heap q' !! w = Some c
                          ∧ qlen q' = qlen q).
Proof.
  intros (ps & Hc & Hnd & Hdis & Hdom & Hbrk & Hh & Ht). unfold wp, alloc. cbn.
  assert (brk q ∉ dom (heap q)) as Hnew by (intros H%Hbrk; lia).
  split_and!; [|set_solver|by rewrite lookup_insert_eq|done].
  exists ps. cbn. split_and!; try done.
  - eapply chain_frame; [|done]. intros p Hp. apply lookup_insert_ne.
    intros <-. apply Hnew. rewrite Hdom. set_solver.
  - set_solver.
  - rewrite dom_insert_L. set_solver.
  - intros p. rewrite dom_insert_L, elem_of_union, elem_of_singleton.
    intros [->|H%Hbrk]; lia.
Qed.

Lemma unlink_spec q fl w ws :
  is_list q fl (w :: ws) →
  ∃ p, qhead q = Some p ∧ (p ∉ fl) ∧
       wp (unlink_head p) q (λ c q', cell_work c = w ∧ is_list q' ({[p]} ∪ fl) ws
                                     ∧ qlen q' = qlen q ∧ heap q' = heap q).
Proof.
  intros ([|p ps] & Hc & Hnd & Hdis & Hdom & Hbrk & Hh & Ht); [done|].
  destruct Hc as [Hp Hc]. apply NoDup_cons in Hnd as [Hpn Hnd].
  exists p. split_and!; [done|set_solver|].
  unfold wp, unlink_head, load, mbind, mon_bind, modify. rewrite Hp. cbn.
  assert (∀ q', heap q' = heap q → brk q' = brk q → qhead q' = head ps → qtail q' = last ps →
    is_list q' ({[p]} ∪ fl) ws) as Hlist.
  { intros q' E1 E2 E3 E4. exists ps. rewrite E1, E2. split_and!; try done; set_solver. }
  destruct ps as [|p' ps]; cbn; (split_and!; [done|apply Hlist; done|done|done]).
Qed.

Lemma free_spec p q fl ws :
  is_list q ({[p]} ∪ fl) ws → p ∉ fl →
  wp (free p) q (λ _ q', is_list q' fl ws ∧ qlen q' = qlen q
                         ∧ (∀ p', p' ≠ p → heap q' !! p' = heap q !! p')).
Proof.
  intros (ps & Hc & Hnd & Hdis & Hdom & Hbrk & Hh & Ht) Hp. unfold wp, free.
  destruct (heap q !! p) as [c|] eqn:E.
  2:{ apply not_elem_of_dom in E. set_solver. }
  cbn. split_and!; [|done|by intros; apply lookup_delete_ne].
  exists ps. cbn. split_and!; try done.
  - eapply chain_frame; [|done]. intros x Hx. apply lookup_delete_ne. set_solver.
  - set_solver.
  - rewrite dom_delete_L. set_solver.
  - intros x. rewrite dom_delete_L. intros Hx. apply Hbrk. set_solver.
Qed.

Lemma link_spec w x q fl ws :
  is_list q ({[w]} ∪ fl) ws → w ∉ fl → heap q !! w = Some (mk_cell x None) →
  wp (link_tail w) q (λ _ q', is_list q' fl (ws ++ [x]) ∧ qlen q' = qlen q).
Proof.
  intros (ps & Hc & Hnd & Hdis & Hdom & Hbrk & Hh & Ht) Hw Hx.
  unfold wp, link_tail, mbind, mon_bind, gets. rewrite Hh.
  destruct ps as [|p ps'] using rev_ind.
  - destruct ws; [|done]. cbn. split; [|done]. exists [w]. cbn.
    rewrite Hx. split_and!; try done; try set_solver. apply NoDup_singleton.
  - clear IHps'. assert (∃ y, head (ps' ++ [p]) = Some y) as [y ->] by (destruct ps'; eauto).
    rewrite Ht, last_snoc. cbn. destruct (chain_last _ _ _ p Hc) as (ps1 & ws1 & wt & E & -> & Hp).
    { apply last_snoc. }
    apply app_inj_tail in E as [<- _]. unfold load, store. rewrite Hp. cbn. rewrite Hp. cbn.
    split; [|done]. exists ((ps' ++ [p]) ++ [w]). cbn. split_and!.
    + apply chain_snoc; [done|set_solver|done|done].
    + apply NoDup_app. split_and!; [done|set_solver|apply NoDup_singleton].
    + set_solver.
    + rewrite dom_insert_L, Hdom, !list_to_set_app_L. set_solver.
    + intros z. rewrite dom_insert_L. intros Hz. apply Hbrk. set_solver.
    + rewrite Hh. by destruct ps'.
    + by rewrite last_snoc.
Qed.

(** A push from any state of the queue, whatever is in flight. *)
Lemma push_spec data fd q fl ws :
  is_queue q fl ws →
  wp (req_queue_push data fd) q (λ _ q',
    is_queue q' fl (bounded_push QUEUE_DEPTH ws (mk_request data fd))).
Proof.
  intros (Hl & Hn & Hcap). unfold req_queue_push. wp_step.
  eapply wp_mono; [by apply alloc_spec|]. intros w q1 (Hl1 & Hw & Hx & Hn1). cbv beta.
  do 2 wp_step. rewrite Hn1, Hn.
  assert (∀ q ws, is_list q ({[w]} ∪ fl) ws → qlen q = Z.of_nat (length ws) →
    heap q !! w = Some (mk_cell (mk_request data fd) None) → length ws < QUEUE_DEPTH →
    wp (link_tail w;; n ← gets qlen; modify (set_qlen (n + 1))) q
      (λ _ q', is_queue q' fl (ws ++ [mk_request data fd]))) as Hlink.
  { intros q2 ws2 Hl2 Hn2 Hx2 Hc2. wp_step. eapply wp_mono; [by apply link_spec|].
    intros [] q3 [Hl3 Hn3]. repeat wp_step. split_and!; [done| |].
    - cbn. rewrite Hn3, Hn2, length_app. cbn. lia.
    - rewrite length_app. cbn. lia. }
  wp_step. wp_step.
  - apply Z.leb_le in Hb. destruct ws as [|x ws]; [cbn in *; pose proof QUEUE_DEPTH_pos; lia|].
    destruct (unlink_spec _ _ _ _ Hl1) as (p & Hh & Hp & Hun).
    do 2 wp_step. rewrite Hh. wp_step.
    eapply wp_mono; [exact Hun|]. intros c q2 (_ & Hl2 & Hn2 & Hheap). cbv beta.
    wp_step. eapply wp_mono; [by apply free_spec|]. intros [] q3 (Hl3 & Hn3 & Hheap3). cbv beta.
    do 3 wp_step. rewrite bounded_push_full by lia. cbn [tail].
    apply Hlink; cbn [qlen set_qlen heap length] in *.
    + done.
    + rewrite Hn3, Hn2, Hn1, Hn. lia.
    + rewrite Hheap3, Hheap; [done|set_solver].
    + lia.
  - apply Z.leb_gt in Hb. wp_step. rewrite bounded_push_room by lia.
    apply Hlink; [done|congruence|done|lia].
Qed.

(** Taking the head: the cell is in flight until it is released. *)
Lemma take_spec q fl ws :
  is_queue q fl ws →
  wp worker_take q (λ r q',
    match ws with
    | [] => r = None ∧ q' = q
    | x :: ws => ∃ p, r = Some (p, x) ∧ (p ∉ fl) ∧ is_queue q' ({[p]} ∪ fl) ws
    end).
Proof.
  intros (Hl & Hn & Hcap). unfold worker_take. do 2 wp_step. destruct ws as [|x ws].
  - destruct Hl as (ps & Hc & _ & _ & _ & _ & Hh & _). destruct ps; [|done].
    rewrite Hh. cbn [head]. by wp_step.
  - destruct (unlink_spec _ _ _ _ Hl) as (p & Hh & Hp & Hun). rewrite Hh. wp_step.
    eapply wp_mono; [exact Hun|]. intros c q2 (<- & Hl2 & Hn2 & _). cbv beta. repeat wp_step.
    exists p. unfold is_queue. cbn [qlen set_qlen length] in *.
    split_and!; [done|done|exact Hl2|rewrite Hn2, Hn; lia|lia].
Qed.

Lemma release_spec p q fl ws :
  is_queue q ({[p]} ∪ fl) ws → p ∉ fl → wp (work_release p) q (λ _ q', is_queue q' fl ws).
Proof.
  intros (Hl & Hn & Hcap) Hp. eapply wp_mono; [by apply free_spec|].
  intros [] q' (Hl' & Hn' & _). split_and!; [done|congruence|done].
Qed.

Lemma is_queue_init : is_queue req_queue_init ∅ [].
Proof.
  split_and!; [|done|cbn; lia]. exists []. cbn.
  split_and!; try done; first [apply NoDup_nil_2|set_solver].
Qed.

(** ** The interface *)

#[export] Instance req_queue_ops : DropOldest (bytes * Z) req_queue := {|
  dq_cap := QUEUE_DEPTH;
  dq_push := λ a, req_queue_push a.1 a.2;
  dq_pop := r ← worker_pop; mret ((λ w, (take (Z.to_nat (len w)) (payload w), peer_fd w)) <$> r);
  dq_rep := λ q l, is_queue q ∅ ((λ a, mk_request a.1 a.2) <$> l) |}.

Lemma bounded_push_fmap {A B} (f : A → B) cap l a :
  f <$> bounded_push cap l a = bounded_push cap (f <$> l) (f a).
Proof.
  unfold bounded_push. rewrite fmap_app, length_fmap. f_equal. case_match; [|done]. by destruct l.
Qed.

#[export] Instance req_queue_laws : DropOldestLaws req_queue_ops.
Proof.
  split; cbn [dq_cap dq_push dq_pop dq_rep req_queue_ops].
  - apply QUEUE_DEPTH_pos.
  - intros s l (_ & _ & H). by rewrite length_fmap in H.
  - intros s l [d fd] Hq. rewrite bounded_push_fmap. by apply push_spec.
  - intros s l Hq. unfold worker_pop. do 2 wp_step.
    eapply wp_mono; [by apply take_spec|]. intros r q'. destruct l as [|[d fd] l]; cbn.
    + intros [-> ->]. repeat wp_step. by split.
    + intros (p & -> & Hp & Hq'). wp_step. eapply wp_mono; [by apply release_spec|].
      intros [] q2 Hq2. repeat wp_step. split; [|done].
      unfold mk_request. cbn. by rewrite Nat2Z.id, take_app_length.
Qed.

(** ** Properties *)

(** C10: the list is a bounded queue. Any sequence of pushes and takes, started on the empty
    queue, runs without touching a cell that is not allocated (no dangling pointer, no double
    free, no NULL [qtail]), delivers what the 10240-element drop-oldest queue delivers, and
    ends with exactly the queued cells allocated. *)
Theorem req_queue_refines (ops : list (q_op (bytes * Z))) :
  ∃ out q,
    q_run ops req_queue_init = Done (out, q)
    ∧ let '(out', l) := q_spec QUEUE_DEPTH ops [] in
      out = out' ∧ is_queue q ∅ ((λ a, mk_request a.1 a.2) <$> l).
Proof.
  pose proof (q_run_spec ops req_queue_init [] is_queue_init) as H.
  apply wp_done in H as (out & q & E & Hout & Hq). exists out, q. split; [done|].
  cbn [dq_cap req_queue_ops] in *. destruct (q_spec QUEUE_DEPTH ops []) as [out' l].
  cbn in *. injection Hout as ->. by split.
Qed.

(** Order and loss. When every request of a batch has been pushed before any is taken,
    the workers get the last 10240 of them, each payload whole and in order of arrival: older
    ones are the only ones lost. *)
Theorem req_queue_keeps_newest (reqs : list (bytes * Z)) :
  let kept := drop (length reqs - QUEUE_DEPTH) reqs in
  ∃ q q', q_run (Push <$> reqs) req_queue_init = Done ([], q)
          ∧ q_run (replicate (length kept) Pop) q = Done (kept, q').
Proof.
  intros kept. pose proof (q_push_all reqs req_queue_init [] is_queue_init) as H.
  apply wp_done in H as (out & q & E & -> & Hq). exists q.
  pose proof (bounded_push_all QUEUE_DEPTH reqs [] QUEUE_DEPTH_pos ltac:(cbn; lia)) as Hall.
  cbn [dq_cap req_queue_ops] in Hq. rewrite Hall in Hq. cbn [app length Nat.add] in Hq.
  apply q_pop_all in Hq. apply wp_done in Hq as (out & q' & E' & -> & _).
  exists q'. by split.
Qed.

(** A worker's cell is its own. While a request is being processed its cell stays
    allocated and off the list, whatever is pushed meanwhile; releasing it then frees that
    cell and no other. *)
Theorem in_flight_cell_safe (q : req_queue) (fl : gset nat) (x : work) (ws : list work)
    (data : bytes) (fd : Z) :
  is_queue q fl (x :: ws) →
  ∃ p q1 q2 q3,
    worker_take q = Done (Some (p, x), q1)
    ∧ req_queue_push data fd q1 = Done (tt, q2)
    ∧ work_release p q2 = Done (tt, q3)
    ∧ (p ∈ dom (heap q2)) ∧ (p ∉ dom (heap q3))
    ∧ is_queue q3 fl (bounded_push QUEUE_DEPTH ws (mk_request data fd)).
Proof.
  intros Hq. pose proof (take_spec _ _ _ Hq) as H.
  apply wp_done in H as (r & q1 & E1 & p & -> & Hp & Hq1).
  pose proof (push_spec data fd _ _ _ Hq1) as H. apply wp_done in H as ([] & q2 & E2 & Hq2).
  pose proof (release_spec p _ _ _ Hq2 Hp) as H. apply wp_done in H as ([] & q3 & E3 & Hq3).
  exists p, q1, q2, q3. split_and!; try done.
  - destruct Hq2 as [(ps & _ & _ & _ & -> & _) _]. set_solver.
  - unfold work_release, free in E3. case_match; [|done]. injection E3 as <-.
    cbn. rewrite dom_delete_L. set_solver.
Qed.

Lemma in_flight_cell_safe_witness :
  ∃ p q1 q2 q3 q0,
    req_queue_push (lit "a") 5 req_queue_init = Done (tt, q0)
    ∧ worker_take q0 = Done (Some (p, mk_request (lit "a") 5), q1)
    ∧ req_queue_push (lit "b") 6 q1 = Done (tt, q2) ∧ work_release p q2 = Done (tt, q3).
Proof.
  pose proof (push_spec (lit "a") 5 _ _ _ is_queue_init) as H.
  apply wp_done in H as ([] & q0 & E0 & Hq0).
  rewrite bounded_push_room in Hq0 by (cbn; apply QUEUE_DEPTH_pos).
  destruct (in_flight_cell_safe q0 ∅ _ [] (lit "b") 6 Hq0) as (p & q1 & q2 & q3 & ? & ? & ? & _).
  exists p, q1, q2, q3, q0. auto.
Defined.
