(* ===== verification/Protocol.v ===== *)
(** * Protocol: vts_protocol.h and io_util.h

    The wire format shared by the server and its clients, a 4-byte length in network order
    followed by the payload, on a little-endian host with 32-bit [uint32_t]; and [write_full],
    which the server uses to send a reply. *)
From stdpp Require Import prelude strings list.
From Stdlib Require Import Ascii ZArith Lia.
From S2P Require Import Prelude CString.

Local Open Scope Z_scope.

Definition VTS_MAX_FRAME : Z := Z.shiftl 1 20.

(** ** Words in memory *)

Definition byte_of (z : Z) : ascii := ascii_of_N (Z.to_N (z mod 256)).

(** The four bytes of a [uint32_t] in memory, and the word read back from them. *)
Definition store32 (x : Z) : bytes :=
  [byte_of x; byte_of (x / 2 ^ 8); byte_of (x / 2 ^ 16); byte_of (x / 2 ^ 24)].

Definition load32 (b : bytes) : Z :=
  match b with
  | [b0; b1; b2; b3] => code b0 + code b1 * 2 ^ 8 + code b2 * 2 ^ 16 + code b3 * 2 ^ 24
  | _ => 0
  end.

(** [htonl] and [ntohl] on a little-endian host: the byte swap. *)
Definition bswap32 (x : Z) : Z :=
  (x mod 256) * 2 ^ 24 + (x / 2 ^ 8 mod 256) * 2 ^ 16
  + (x / 2 ^ 16 mod 256) * 2 ^ 8 + (x / 2 ^ 24 mod 256).

Definition be32 (x : Z) : Z := bswap32 x.
Definition le32_to_host (x : Z) : Z := bswap32 x.

(** A message on the wire. *)
Definition encode_frame (p : bytes) : bytes := store32 (be32 (Z.of_nat (length p))) ++ p.

(** ** write_full *)

Section write_full.
(** The answer of the [n]th [write] of a descriptor: bytes taken, or [errno]. *)
Context (wr : nat → bytes → nat + Z).

(** The return value and the bytes that reached the descriptor. *)
Fixpoint write_full_loop (fuel n : nat) (buf : bytes) (off : nat) (sent : bytes) :
    res (Z * bytes) :=
  match fuel with
  | O => NoFuel
  | S fuel =>
    if (off <? length buf)%nat then
      let rest := drop off buf in
      match wr n rest with
      | inl k =>
        if (0 <? k)%nat then write_full_loop fuel (S n) buf (off + k) (sent ++ take k rest)
        else Done (0, sent)
      | inr e =>
        if e =? 4 (* EINTR *) then write_full_loop fuel (S n) buf off sent
        else Done (-1, sent)
      end
    else Done (Z.of_nat off, sent)
  end.

Definition write_full (fuel : nat) (buf : bytes) : res (Z * bytes) :=
  write_full_loop fuel 0 buf 0 [].
End write_full.

(** ** Lemmas *)

Lemma code_range c : 0 ≤ code c < 256.
Proof. unfold code. pose proof (N_ascii_bounded c). lia. Qed.

Lemma code_byte_of z : code (byte_of z) = z mod 256.
Proof.
  unfold code, byte_of. pose proof (Z.mod_pos_bound z 256 ltac:(lia)).
  rewrite N_ascii_embedding by lia. lia.
Qed.

Lemma byte_of_code c : byte_of (code c) = c.
Proof.
  unfold byte_of. rewrite Z.mod_small by apply code_range. unfold code.
  rewrite N2Z.id. apply ascii_N_embedding.
Qed.

(** The four digits of a word in base 256. *)
Lemma digits32 x : in_u 32 x →
  ∃ a b c d, x = a + b * 2 ^ 8 + c * 2 ^ 16 + d * 2 ^ 24
    ∧ 0 ≤ a < 256 ∧ 0 ≤ b < 256 ∧ 0 ≤ c < 256 ∧ 0 ≤ d < 256.
Proof.
  unfold in_u. intros Hx. exists (x mod 256), (x / 256 mod 256), (x / 256 / 256 mod 256),
    (x / 256 / 256 / 256).
  pose proof (Z.div_mod x 256 ltac:(lia)). pose proof (Z.div_mod (x / 256) 256 ltac:(lia)).
  pose proof (Z.div_mod (x / 256 / 256) 256 ltac:(lia)).
  pose proof (Z.mod_pos_bound x 256 ltac:(lia)).
  pose proof (Z.mod_pos_bound (x / 256) 256 ltac:(lia)).
  pose proof (Z.mod_pos_bound (x / 256 / 256) 256 ltac:(lia)).
  lia.
Qed.

Lemma digits_eval a b c d :
  0 ≤ a < 256 → 0 ≤ b < 256 → 0 ≤ c < 256 → 0 ≤ d < 256 →
  let x := a + b * 2 ^ 8 + c * 2 ^ 16 + d * 2 ^ 24 in
  x mod 256 = a ∧ x / 2 ^ 8 mod 256 = b ∧ x / 2 ^ 16 mod 256 = c ∧ x / 2 ^ 24 mod 256 = d.
Proof.
  intros Ha Hb Hc Hd x. unfold x.
  assert (a + b * 2 ^ 8 + c * 2 ^ 16 + d * 2 ^ 24 = a + (b + c * 256 + d * 65536) * 256) as E1
    by lia.
  assert (a + b * 2 ^ 8 + c * 2 ^ 16 + d * 2 ^ 24 = (a + b * 256) + (c + d * 256) * 65536) as E2
    by lia.
  assert (a + b * 2 ^ 8 + c * 2 ^ 16 + d * 2 ^ 24 = (a + b * 256 + c * 65536) + d * 2 ^ 24) as E3
    by lia.
  split_and!.
  - rewrite E1, Z.mod_add, Z.mod_small by lia. done.
  - rewrite E1. change (2 ^ 8) with 256. rewrite Z.div_add, (Z.div_small a) by lia.
    replace (0 + (b + c * 256 + d * 65536)) with (b + (c + d * 256) * 256) by lia.
    rewrite Z.mod_add, Z.mod_small by lia. done.
  - rewrite E2. change (2 ^ 16) with 65536. rewrite Z.div_add, (Z.div_small (a + _)) by lia.
    rewrite Z.add_0_l, Z.mod_add, Z.mod_small by lia. done.
  - rewrite E3, Z.div_add, (Z.div_small (a + _ + _)) by lia. apply Z.mod_small. lia.
Qed.

Lemma bswap32_digits a b c d :
  0 ≤ a < 256 → 0 ≤ b < 256 → 0 ≤ c < 256 → 0 ≤ d < 256 →
  bswap32 (a + b * 2 ^ 8 + c * 2 ^ 16 + d * 2 ^ 24) = d + c * 2 ^ 8 + b * 2 ^ 16 + a * 2 ^ 24.
Proof.
  intros Ha Hb Hc Hd. unfold bswap32.
  destruct (digits_eval a b c d) as (-> & -> & -> & ->); [done..|lia].
Qed.

Lemma bswap32_involutive x : in_u 32 x → bswap32 (bswap32 x) = x.
Proof.
  intros (a & b & c & d & -> & Ha & Hb & Hc & Hd)%digits32.
  rewrite bswap32_digits by done. by rewrite bswap32_digits.
Qed.

Lemma in_u_bswap32 x : in_u 32 x → in_u 32 (bswap32 x).
Proof.
  intros (a & b & c & d & -> & Ha & Hb & Hc & Hd)%digits32.
  rewrite bswap32_digits by done. unfold in_u. lia.
Qed.

Lemma load32_store32 x : in_u 32 x → load32 (store32 x) = x.
Proof.
  intros (a & b & c & d & -> & Ha & Hb & Hc & Hd)%digits32. unfold load32, store32.
  rewrite !code_byte_of. destruct (digits_eval a b c d) as (-> & -> & -> & ->); done.
Qed.

Lemma load32_range b : length b = 4%nat → in_u 32 (load32 b).
Proof.
  destruct b as [|b0 [|b1 [|b2 [|b3 [|]]]]]; try done. intros _.
  pose proof (code_range b0). pose proof (code_range b1). pose proof (code_range b2).
  pose proof (code_range b3). unfold in_u, load32. lia.
Qed.

Lemma store32_load32 b : length b = 4%nat → store32 (load32 b) = b.
Proof.
  destruct b as [|b0 [|b1 [|b2 [|b3 [|]]]]]; try done. intros _.
  destruct (digits_eval (code b0) (code b1) (code b2) (code b3)) as (E0 & E1 & E2 & E3);
    try apply code_range. unfold load32, store32, byte_of. rewrite E0, E1, E2, E3.
  unfold code. by rewrite !N2Z.id, !ascii_N_embedding.
Qed.

(** A length word and as many bytes as it says make a frame. *)
Lemma frame_of_word w b :
  length w = 4%nat → Z.of_nat (length b) = le32_to_host (load32 w) → w ++ b = encode_frame b.
Proof.
  intros Hw Hb. unfold encode_frame. rewrite Hb. unfold be32, le32_to_host.
  by rewrite bswap32_involutive, store32_load32 by (try apply load32_range; done).
Qed.

Lemma length_encode_frame p : length (encode_frame p) = (4 + length p)%nat.
Proof. done. Qed.

(** What a receiver decodes from a frame's header is the payload's length. *)
Lemma frame_header (p : bytes) :
  in_u 32 (Z.of_nat (length p)) →
  le32_to_host (load32 (store32 (be32 (Z.of_nat (length p))))) = Z.of_nat (length p).
Proof.
  intros H. rewrite load32_store32 by by apply in_u_bswap32. by apply bswap32_involutive.
Qed.

Section write_full_lemmas.
Context (wr : nat → bytes → nat + Z).
Context (wr_le : ∀ n (b : bytes) k, wr n b = inl k → (k ≤ length b)%nat).

(** The part of the buffer before [off] has been sent; with [K] bounding the calls that may
    be interrupted, the remaining bytes and calls bound the iterations. *)
Lemma write_full_loop_spec (K fuel n : nat) (buf : bytes) (off : nat) :
  (∀ m b, (K ≤ m)%nat → wr m b ≠ inr 4) →
  (off ≤ length buf)%nat → (K - n + (length buf - off) < fuel)%nat →
  ∃ r sent, write_full_loop wr fuel n buf off (take off buf) = Done (r, sent)
    ∧ (r = Z.of_nat (length buf) ∧ sent = buf
       ∨ r ≤ 0 ∧ ∃ k, (k < length buf)%nat ∧ sent = take k buf).
Proof.
  intros HK. revert n off. induction fuel as [|fuel IH]; intros n off Hoff Hfuel; [lia|].
  cbn [write_full_loop]. destruct (Nat.ltb_spec off (length buf)) as [Hlt|Hge].
  - destruct (wr n (drop off buf)) as [k|e] eqn:E.
    + apply wr_le in E as Hk. rewrite length_drop in Hk.
      destruct (Nat.ltb_spec 0 k) as [Hpos|Hzero].
      * rewrite take_take_drop. apply IH; lia.
      * exists 0, (take off buf). split; [done|]. right. split; [lia|]. eauto.
    + destruct (Z.eqb_spec e 4) as [->|Hne].
      * apply IH; [done|]. destruct (decide (K ≤ n)%nat) as [Hn|]; [|lia].
        by apply (HK n (drop off buf)) in Hn.
      * exists (-1), (take off buf). split; [done|]. right. split; [lia|]. eauto.
  - exists (Z.of_nat off), (take off buf). split; [done|]. left.
    rewrite take_ge by lia. split; [lia|done].
Qed.
End write_full_lemmas.

(** ** Properties *)

(** C34: [write_full]. Whatever the descriptor answers (short writes, interruptions, errors),
    as long as it is interrupted finitely often the loop ends: it reports the whole length
    exactly when the bytes that reached the descriptor are the whole buffer, in order and
    without a gap or repetition; otherwise the result is not positive and a proper prefix
    was sent. *)
Theorem write_full_sends (wr : nat → bytes → nat + Z) (K fuel : nat) (buf : bytes) :
  (∀ n (b : bytes) k, wr n b = inl k → (k ≤ length b)%nat) →
  (∀ m b, (K ≤ m)%nat → wr m b ≠ inr 4) →
  (K + length buf < fuel)%nat →
  ∃ r sent, write_full wr fuel buf = Done (r, sent)
    ∧ (r = Z.of_nat (length buf) ∧ sent = buf
       ∨ r ≤ 0 ∧ ∃ k, (k < length buf)%nat ∧ sent = take k buf).
Proof. intros H1 H2 H3. apply (write_full_loop_spec wr H1 K fuel 0 buf 0); [done|lia|lia]. Qed.

Lemma write_full_sends_witness :
  ∃ r sent, write_full (λ n b, if Nat.eqb n 1 then inr 4 else inl (Nat.min 2 (length b))) 9
              (lit "hello") = Done (r, sent) ∧ r = 5 ∧ sent = lit "hello".
Proof.
  destruct (write_full_sends (λ n b, if Nat.eqb n 1 then inr 4 else inl (Nat.min 2 (length b)))
    2 9 (lit "hello")) as (r & sent & E & _).
  - intros n b k. destruct (Nat.eqb n 1); [done|]. intros H. injection H as <-. destruct b as [|? [|? ?]]; simpl; lia.
  - intros m b Hm. destruct (Nat.eqb_spec m 1); [lia|done].
  - simpl. lia.
  - exists r, sent. split; [exact E|]. vm_compute in E. injection E as <- <-. by split.
Defined.

(** Byte order. The receiver's [ntohl] of the bytes in memory inverts the sender's
    [htonl] on every 32-bit length, and the most significant byte goes first on the wire. *)
Theorem wire_order (x : Z) :
  in_u 32 x →
  le32_to_host (load32 (store32 (be32 x))) = x
  ∧ store32 (be32 x) = [byte_of (x / 2 ^ 24); byte_of (x / 2 ^ 16); byte_of (x / 2 ^ 8); byte_of x].
Proof.
  intros Hx. split.
  - rewrite load32_store32 by by apply in_u_bswap32. by apply bswap32_involutive.
  - destruct (digits32 x Hx) as (a & b & c & d & -> & Ha & Hb & Hc & Hd).
    unfold be32. rewrite bswap32_digits by done. unfold store32, byte_of.
    destruct (digits_eval a b c d) as (-> & -> & -> & ->); [done..|].
    by destruct (digits_eval d c b a) as (-> & -> & -> & ->).
Qed.

Lemma wire_order_witness : store32 (be32 258) = [byte_of 0; byte_of 0; byte_of 1; byte_of 2].
Proof.
  destruct (wire_order 258) as [_ H]; [vm_compute; split; congruence|]. rewrite H. reflexivity.
Defined.
