(* ===== verification/NetConn.v ===== *)
(** * NetConn: per-connection framing of userspace/vts/src/net_server.c

    [struct conn] and [read_from_conn], the edge-triggered reader that turns a TCP byte stream
    into frames.  The kernel's side of the socket is a list of chunks, one per successful
    read at most, and what a read answers after them: end of stream, or an error number
    (EAGAIN when no data is left for now).  Writes through [c->header] and [c->payload] are
    checked: outside the array they are undefined behaviour.  The contract is [decode], a
    decoder that takes the stream one byte at a time. *)
From stdpp Require Import prelude strings list.
From Stdlib Require Import Ascii ZArith Lia.
From S2P Require Import Prelude CString Protocol.

Record conn := mk_conn {
  fd : Z;
  header : bytes;
  header_read : nat;
  payload_len : Z;
  payload : option bytes;
  payload_read : nat }.

(** [calloc] and the descriptor. *)
Definition conn_new (fd : Z) : conn := mk_conn fd (replicate 4 NUL) 0 0 None 0.

Record net := mk_net {
  cn : conn;
  chunks : list bytes;
  idle : option Z;               (* None: end of stream; Some e: -1 with errno e *)
  queued : list (bytes * Z)      (* calls of req_queue_push: payload and peer_fd *) }.

Definition set_conn (c : conn) (s : net) : net := mk_net c (chunks s) (idle s) (queued s).

Definition set_header (h : bytes) (n : nat) (c : conn) : conn :=
  mk_conn (fd c) h n (payload_len c) (payload c) (payload_read c).
Definition set_header_read (n : nat) (c : conn) : conn := set_header (header c) n c.
Definition set_payload (len : Z) (p : option bytes) (n : nat) (c : conn) : conn :=
  mk_conn (fd c) (header c) (header_read c) len p n.

(** [memcpy] of [d] to offset [off] of an array, [None] when it does not fit. *)
Definition memwrite (buf : bytes) (off : nat) (d : bytes) : option bytes :=
  if off + length d <=? length buf then Some (take off buf ++ d ++ drop (off + length d) buf)
  else None.

(** [read(fd, p, n)]: at most [n] bytes of the next chunk, the rest of it stays. *)
Definition sock_read (n : nat) : mon net (bytes + Z) := λ s,
  match chunks s with
  | d :: ds =>
    Done (inl (take n d),
          mk_net (cn s) (if length d <=? n then ds else drop n d :: ds) (idle s) (queued s))
  | [] => Done (match idle s with None => inl [] | Some e => inr e end, s)
  end.

Definition EAGAIN : Z := 11.

(** The return code of a failed read. *)
Definition read_failed (e : Z) : Z := if (e =? EAGAIN)%Z then 1%Z else (-1)%Z.

(** How one part of the loop body ends. *)
Inductive step := Return (z : Z) | Continue | Proceed.

Definition handle_frame : mon net unit :=
  c ← gets cn;
  p ← lift (payload c);
  let len := Z.to_nat (payload_len c) in
  p ← lift (if len <=? length p then Some (take len p) else None);
  modify (λ s, mk_net (cn s) (chunks s) (idle s) (queued s ++ [(p, fd c)]));;
  modify (set_conn (set_payload 0 None 0 c)).

(** The [while] that reads the payload; [None] when it is complete. *)
Fixpoint read_payload (fuel : nat) : mon net (option Z) :=
  match fuel with
  | O => no_fuel
  | S fuel =>
    c ← gets cn;
    if payload_read c <? Z.to_nat (payload_len c) then
      r ← sock_read (Z.to_nat (payload_len c) - payload_read c);
      match r with
      | inl [] => mret (Some 0%Z)
      | inr e => mret (Some (read_failed e))
      | inl d =>
        p ← lift (payload c);
        p ← lift (memwrite p (payload_read c) d);
        modify (set_conn (set_payload (payload_len c) (Some p) (payload_read c + length d) c));;
        read_payload fuel
      end
    else mret None
  end.

Section conn.
(** Whether [malloc] finds room for a payload of this size. *)
Context (malloc : Z → bool).

Definition read_header : mon net step :=
  c ← gets cn;
  if header_read c <? 4 then
    r ← sock_read (4 - header_read c);
    match r with
    | inl [] => mret (Return 0)
    | inr e => mret (Return (read_failed e))
    | inl d =>
      h ← lift (memwrite (header c) (header_read c) d);
      let c := set_header h (header_read c + length d) c in
      modify (set_conn c);;
      if header_read c <? 4 then mret Continue
      else
        let plen := le32_to_host (load32 (header c)) in
        if (plen =? 0)%Z || (VTS_MAX_FRAME <? plen)%Z then mret (Return (-1))
        else
          let c := set_payload plen (payload c) (payload_read c) c in
          if malloc plen then
            modify (set_conn (set_payload plen (Some (replicate (Z.to_nat plen) NUL)) 0 c));;
            mret Proceed
          else
            modify (set_conn (set_payload plen None (payload_read c) c));;
            mret (Return (-1))
    end
  else mret Proceed.

Fixpoint read_from_conn (fuel : nat) : mon net Z :=
  match fuel with
  | O => no_fuel
  | S fuel =>
    r ← read_header;
    match r with
    | Return z => mret z
    | Continue => read_from_conn fuel
    | Proceed =>
      p ← read_payload fuel;
      match p with
      | Some z => mret z
      | None =>
        c ← gets cn;
        modify (set_conn (set_header_read 0 c));;
        handle_frame;;
        read_from_conn fuel
      end
    end
  end.
End conn.

(** ** The contract *)

Inductive dstate :=
  | DHeader (h : bytes)
  | DPayload (n : nat) (p : bytes)
  | DBad.

Definition frame_len (h : bytes) : Z := le32_to_host (load32 h).

Section decoder.
Context (malloc : Z → bool).

(** A length that ends the connection: out of bounds, or no memory for it. *)
Definition refused (h : bytes) : bool :=
  ((frame_len h =? 0)%Z || (VTS_MAX_FRAME <? frame_len h)%Z) || negb (malloc (frame_len h)).

Definition dstep (st : dstate) (b : ascii) : dstate * list bytes :=
  match st with
  | DHeader h =>
    let h := h ++ [b] in
    if length h <? 4 then (DHeader h, [])
    else if refused h then (DBad, [])
    else (DPayload (Z.to_nat (frame_len h)) [], [])
  | DPayload n p =>
    let p := p ++ [b] in
    if length p <? n then (DPayload n p, []) else (DHeader [], [p])
  | DBad => (DBad, [])
  end.

Fixpoint decode (st : dstate) (l : bytes) : dstate * list bytes :=
  match l with
  | [] => (st, [])
  | b :: l =>
    let '(st, f) := dstep st b in
    let '(st, fs) := decode st l in
    (st, f ++ fs)
  end.
End decoder.

(** The connection's fields against the decoder's state, between reads. *)
Definition conn_at (c : conn) (st : dstate) : Prop :=
  length (header c) = 4 ∧
  match st with
  | DHeader h => header_read c = length h ∧ length h < 4 ∧ take (length h) (header c) = h
  | DPayload n p =>
      header_read c = 4 ∧ payload_len c = Z.of_nat n ∧ length p < n ∧ payload_read c = length p
      ∧ ∃ buf, payload c = Some buf ∧ length buf = n ∧ take (length p) buf = p
  | DBad => header_read c = 4
  end.

(** The return code: malformed length, or what the socket says when the data is used up. *)
Definition ret_code (st : dstate) (idle : option Z) : Z :=
  match st with
  | DBad => -1
  | _ => match idle with None => 0 | Some e => read_failed e end
  end.

(** ** Lemmas on the decoder *)

Section lemmas.
Context (malloc : Z → bool).
#[local] Abbreviation dstep := (dstep malloc).
#[local] Abbreviation decode := (decode malloc).

Definition emit (f : list bytes) (r : dstate * list bytes) : dstate * list bytes :=
  (r.1, f ++ r.2).

Lemma emit_emit f g r : emit f (emit g r) = emit (f ++ g) r.
Proof. unfold emit. by rewrite <- app_assoc. Qed.

Lemma emit_nil r : emit [] r = r.
Proof. by destruct r. Qed.

Lemma decode_cons st b l : decode st (b :: l) = emit (dstep st b).2 (decode (dstep st b).1 l).
Proof. cbn [NetConn.decode]. unfold emit. by destruct (dstep st b), (decode _ l). Qed.

Lemma decode_app st a b :
  decode st (a ++ b) = emit (decode st a).2 (decode (decode st a).1 b).
Proof.
  revert st. induction a as [|x a IH]; intros st; [by rewrite emit_nil|].
  cbn [app]. rewrite !decode_cons, IH. unfold emit. simpl. by rewrite <- app_assoc.
Qed.

Lemma decode_bad l : decode DBad l = (DBad, []).
Proof. induction l as [|b l IH]; [done|]. rewrite decode_cons. cbn [dstep fst snd]. by rewrite IH. Qed.

(** The decoder after four header bytes, and inside a payload that may be full. *)
Definition after_header (h : bytes) : dstate :=
  if refused malloc h then DBad
  else DPayload (Z.to_nat (frame_len h)) [].

Definition decode_pay (n : nat) (p l : bytes) : dstate * list bytes :=
  if length p <? n then decode (DPayload n p) l else emit [p] (decode (DHeader []) l).

Lemma decode_header_short h d :
  length h + length d < 4 → decode (DHeader h) d = (DHeader (h ++ d), []).
Proof.
  revert h. induction d as [|b d IH]; intros h Hl; [by rewrite app_nil_r|].
  simpl in Hl. rewrite decode_cons. unfold NetConn.dstep. rewrite length_app. simpl.
  destruct (Nat.ltb_spec (length h + 1) 4); [|lia]. simpl.
  rewrite emit_nil, IH by (rewrite length_app; simpl; lia). by rewrite <- app_assoc.
Qed.

Lemma decode_header_full h d :
  d ≠ [] → length h + length d = 4 → decode (DHeader h) d = (after_header (h ++ d), []).
Proof.
  intros Hd Hl. destruct d as [|b d _] using rev_ind; [done|].
  rewrite length_app in Hl; simpl in Hl. rewrite decode_app, decode_header_short by lia.
  simpl. rewrite !length_app; simpl. destruct (Nat.ltb_spec (length h + length d + 1) 4); [lia|].
  unfold after_header. rewrite <- app_assoc. by destruct (refused _ _).
Qed.

Lemma decode_pay_app n p d l :
  length p < n → length p + length d ≤ n →
  decode_pay n p (d ++ l) = decode_pay n (p ++ d) l.
Proof.
  revert p. induction d as [|b d IH]; intros p Hp Hl; [by rewrite app_nil_r|].
  simpl in Hl. unfold decode_pay at 1. destruct (Nat.ltb_spec (length p) n); [|lia].
  cbn [app]. rewrite decode_cons. unfold NetConn.dstep. rewrite length_app. simpl length.
  replace (p ++ b :: d) with ((p ++ [b]) ++ d) by by rewrite <- app_assoc.
  destruct (Nat.ltb_spec (length p + 1) n) as [Hlt|Hge]; cbn [fst snd].
  - rewrite emit_nil. rewrite <- IH by (rewrite length_app; simpl; lia).
    unfold decode_pay. rewrite length_app; simpl. by destruct (Nat.ltb_spec (length p + 1) n); [|lia].
  - destruct d; [|simpl in Hl; lia]. rewrite app_nil_r. unfold decode_pay. rewrite length_app.
    simpl. by destruct (Nat.ltb_spec (length p + 1) n); [lia|].
Qed.

(** ** Lemmas on the reads *)

Definition nonempty (d : bytes) : Prop := d ≠ [].

(** What reading changes: the connection's fields and the data still to come. *)
Definition frame_of (s s' : net) : Prop :=
  idle s' = idle s ∧ fd (cn s') = fd (cn s) ∧ Forall nonempty (chunks s').

Lemma memwrite_at buf p d :
  length p + length d ≤ length buf → take (length p) buf = p →
  ∃ buf', memwrite buf (length p) d = Some buf' ∧ length buf' = length buf
    ∧ take (length (p ++ d)) buf' = p ++ d.
Proof.
  intros Hl Hp. unfold memwrite. destruct (Nat.leb_spec (length p + length d) (length buf)); [|lia].
  eexists. split; [done|]. rewrite Hp. split.
  - rewrite !length_app, length_drop. lia.
  - rewrite app_assoc. by rewrite take_app_length.
Qed.

Lemma sock_read_spec n s (Q : bytes + Z → net → Prop) :
  0 < n → Forall nonempty (chunks s) →
  (chunks s = [] → Q (match idle s with None => inl [] | Some e => inr e end) s) →
  (∀ d ds, d ≠ [] → length d ≤ n → concat (chunks s) = d ++ concat ds →
     Forall nonempty ds → Q (inl d) (mk_net (cn s) ds (idle s) (queued s))) →
  wp (sock_read n) s Q.
Proof.
  intros Hn Hne H0 H1. unfold wp, sock_read. destruct (chunks s) as [|d ds] eqn:E; [by apply H0|].
  apply Forall_cons in Hne as [Hd Hds]. destruct (Nat.leb_spec (length d) n).
  - apply H1; [by rewrite take_ge|rewrite length_take; lia|by rewrite take_ge|done].
  - apply H1.
    + intros Hx%(f_equal length). rewrite length_take in Hx. simpl in Hx. lia.
    + rewrite length_take. lia.
    + simpl. by rewrite app_assoc, take_drop.
    + apply Forall_cons. split; [|done]. intros Hx%(f_equal length).
      rewrite length_drop in Hx. simpl in Hx. lia.
Qed.

Lemma ret_idle st i :
  st ≠ DBad → ret_code st i = match i with None => 0%Z | Some e => read_failed e end.
Proof. by destruct st. Qed.

(** ** The reader against the decoder *)

(** The payload part of [conn_at], where the payload may be full. *)
Definition pay_at (c : conn) (n : nat) (p : bytes) : Prop :=
  length (header c) = 4 ∧ header_read c = 4 ∧ payload_len c = Z.of_nat n ∧ length p ≤ n ∧
  payload_read c = length p ∧
  ∃ buf, payload c = Some buf ∧ length buf = n ∧ take (length p) buf = p.

Lemma pay_at_conn c n p : pay_at c n p → length p < n → conn_at c (DPayload n p).
Proof. unfold pay_at, conn_at. naive_solver. Qed.

Lemma conn_pay_at c n p : conn_at c (DPayload n p) → pay_at c n p ∧ length p < n.
Proof. unfold pay_at, conn_at. intros (? & ? & ? & ? & ? & ?). split; [|done]. by repeat split; auto with lia. Qed.

Lemma read_payload_spec fuel n p s :
  pay_at (cn s) n p → Forall nonempty (chunks s) → length (concat (chunks s)) < fuel →
  wp (read_payload fuel) s (λ r s', frame_of s s' ∧ queued s' = queued s ∧
    ∃ p', pay_at (cn s') n p' ∧
      length p' + length (concat (chunks s')) = length p + length (concat (chunks s)) ∧
      decode_pay n p (concat (chunks s)) = decode_pay n p' (concat (chunks s')) ∧
      match r with
      | None => length p' = n
      | Some z => chunks s' = [] ∧ length p' < n ∧ z = ret_code (DPayload n p') (idle s)
      end).
Proof.
  revert p s. induction fuel as [|fuel IH]; intros p s Hpay Hne Hfuel; [lia|].
  destruct (Hpay) as (Hh & Hhr & Hlen & Hple & Hread & buf & Hbuf & Hbl & Htk).
  cbn [read_payload]. repeat (wp_step; try done). all: rewrite ?Hread, ?Hlen, ?Nat2Z.id in *.
  - apply Nat.ltb_lt in Hb. apply sock_read_spec; [lia|done|..].
    + intros E. destruct (idle s) as [e|] eqn:Ei; apply wp_ret; unfold frame_of;
        split_and!; try done; exists p; rewrite E, ret_idle by done; naive_solver lia.
    + intros d ds Hd Hdn Ec Hds. destruct d as [|b d]; [done|].
      repeat wp_step. rewrite Hbuf. cbn [lift]. apply wp_bind, wp_ret.
      destruct (memwrite_at buf p (b :: d)) as (buf' & -> & Hbl' & Htk'); [lia|done|].
      apply wp_bind, wp_ret. repeat wp_step. rewrite Ec in *.
      rewrite decode_pay_app by lia. eapply wp_mono.
      * apply (IH (p ++ b :: d)); [|done|simpl in *; rewrite ?length_app in *; lia].
        unfold pay_at. simpl. rewrite !length_app. simpl in *.
        split_and!; try done; [lia|]. exists buf'. rewrite length_app in Htk'. split_and!; [done|congruence|done].
      * intros r s' (Hf & Hq & p' & Hp' & Hl & H). split; [exact Hf|]. split; [exact Hq|].
        exists p'. split; [exact Hp'|]. split; [|exact H]. simpl in *. rewrite !length_app in *.
        simpl in *. lia.
  - apply Nat.ltb_ge in Hb. unfold frame_of. split_and!; [done..|]. exists p. by split_and!; [..|lia].
Qed.

Lemma frame_len_nonneg h : length h = 4 → (0 ≤ frame_len h)%Z.
Proof. intros H%load32_range%in_u_bswap32. apply H. Qed.

Lemma after_header_good h :
  length h = 4 → refused malloc h = false →
  after_header h = DPayload (Z.to_nat (frame_len h)) [] ∧ (0 < frame_len h)%Z.
Proof.
  intros Hl E. unfold after_header. rewrite E. split; [done|].
  apply orb_false_iff in E as [[E _]%orb_false_iff _]. apply Z.eqb_neq in E.
  pose proof (frame_len_nonneg h Hl). lia.
Qed.


Lemma read_header_spec st s :
  conn_at (cn s) st → st ≠ DBad → Forall nonempty (chunks s) →
  wp (read_header malloc) s (λ r s', frame_of s s' ∧ queued s' = queued s ∧ ∃ st',
    conn_at (cn s') st' ∧
    decode st (concat (chunks s)) = decode st' (concat (chunks s')) ∧
    match r with
    | Return z => decode st' (concat (chunks s')) = (st', []) ∧ z = ret_code st' (idle s)
    | Continue => st' ≠ DBad ∧ length (concat (chunks s')) < length (concat (chunks s))
    | Proceed => (∃ n p, st' = DPayload n p) ∧
        length (concat (chunks s')) ≤ length (concat (chunks s))
    end).
Proof.
  intros Hc Hst Hne. unfold read_header. wp_step. wp_step. 
  destruct st as [h|n p|]; [|..|done]; destruct Hc as [Hh4 Hc].
  2:{ destruct Hc as (Hhr & Hc). rewrite Hhr. repeat wp_step; [done|].
      split; [done|]. split; [done|]. exists (DPayload n p).
      split; [exact (conj Hh4 (conj Hhr Hc))|]. split; [done|]. split; [by eauto|done]. }
  destruct Hc as (Hhr & Hlt & Htk). rewrite Hhr.
  destruct (Nat.ltb_spec (length h) 4); [|lia]. wp_step. apply sock_read_spec; [lia|done|..].
  - intros E. destruct (idle s) as [e|] eqn:Ei; apply wp_ret; unfold frame_of; rewrite E;
      (split_and!; [try done..|]); exists (DHeader h); repeat split; try done; naive_solver.
  - intros d ds Hd Hdn Ec Hds. destruct d as [|b d]; [done|].
    destruct (memwrite_at (header (cn s)) h (b :: d)) as (buf' & Hmw & Hbl & Htk'); [lia|done|].
    rewrite Hmw. do 4 wp_step. rewrite Ec. clear Hmw Ec.
    destruct (Nat.ltb_spec (length h + length (b :: d)) 4) as [Hs|Hs]; cbn [header_read set_header].
    + (* more header bytes to come *)
      destruct (Nat.ltb_spec (length h + length (b :: d)) 4); [|lia]. wp_step.
      split; [done|]. split; [done|]. exists (DHeader (h ++ b :: d)). simpl chunks. split; [|split; [|split]].
      * split; [simpl; lia|]. simpl. rewrite length_app in *. simpl in *. split_and!; [done|lia|done].
      * by rewrite decode_app, decode_header_short, emit_nil by done.
      * done.
      * rewrite length_app. simpl. lia.
    + destruct (Nat.ltb_spec (length h + length (b :: d)) 4); [lia|].
      assert (length (h ++ b :: d) = 4) as Hl4 by (rewrite length_app; lia).
      rewrite Hl4, take_ge in Htk' by lia. subst buf'.
      assert (decode (DHeader h) ((b :: d) ++ concat ds) =
              decode (after_header (h ++ b :: d)) (concat ds)) as Hdec.
      { rewrite decode_app, decode_header_full by (try done; lia). by rewrite emit_nil. }
      rewrite Hdec. cbn [header set_header]. fold (frame_len (h ++ b :: d)). wp_step.
      * wp_step. split; [done|]. split; [done|]. exists DBad. unfold after_header, refused. rewrite Hb.
        rewrite !decode_bad. split; [split; simpl in *; lia|]. done.
      * wp_step; wp_step; wp_step; wp_step.
        2:{ split; [done|]. split; [done|]. exists DBad. unfold after_header, refused. rewrite Hb, Hb0.
            rewrite !decode_bad. split; [split; simpl in *; lia|]. done. }
        destruct (after_header_good (h ++ b :: d)) as [-> Hpos];
          [done|unfold refused; by rewrite Hb, Hb0|].
        split; [done|]. split; [done|]. eexists. split; [|split; [done|]].
        -- split; [simpl; lia|]. simpl in *. split_and!; [lia|lia|lia|done|].
           eexists. split; [done|]. by rewrite length_replicate.
        -- simpl chunks. split; [by eauto|]. rewrite length_app. lia.
Qed.

(** Runs of the reader from any point of a connection's stream. *)
Lemma read_from_conn_spec fuel st s :
  conn_at (cn s) st → st ≠ DBad → Forall nonempty (chunks s) →
  length (concat (chunks s)) + 1 < fuel →
  wp (read_from_conn malloc fuel) s (λ z s',
    let r := decode st (concat (chunks s)) in
    z = ret_code r.1 (idle s) ∧ conn_at (cn s') r.1 ∧ fd (cn s') = fd (cn s) ∧
    queued s' = queued s ++ ((λ p, (p, fd (cn s))) <$> r.2)).
Proof.
  revert st s. induction fuel as [|fuel IH]; intros st s Hc Hst Hne Hf; [lia|].
  cbn [read_from_conn]. apply wp_bind. eapply wp_mono; [by apply read_header_spec|].
  intros r s1 ((Hi1 & Hfd1 & Hne1) & Hq1 & st1 & Hc1 & -> & Hr).
  destruct r as [z| |].
  - destruct Hr as [Hd ->]. apply wp_ret. rewrite Hd. simpl. by rewrite Hq1, app_nil_r.
  - destruct Hr as [Hst1 Hl]. rewrite <- Hi1, <- Hfd1, <- Hq1. apply IH; [done..|lia].
  - destruct Hr as [(n & p & ->) Hl]. apply conn_pay_at in Hc1 as [Hp1 Hpn].
    apply wp_bind. eapply wp_mono; [apply (read_payload_spec fuel n p); [done..|lia]|].
    intros o s2 ((Hi2 & Hfd2 & Hne2) & Hq2 & p' & Hp' & Hl2 & Hdec & Ho).
    replace (decode (DPayload n p) (concat (chunks s1))) with (decode_pay n p (concat (chunks s1)))
      by (unfold decode_pay; by destruct (Nat.ltb_spec (length p) n); [|lia]).
    rewrite Hdec. unfold decode_pay. destruct o as [z|].
    + destruct Ho as (E & Hlt & ->). apply wp_ret. rewrite E.
      destruct (Nat.ltb_spec (length p') n); [|lia]. simpl.
      split; [by rewrite Hi1|]. split; [by apply pay_at_conn|]. split; [congruence|].
      by rewrite app_nil_r, Hq2, Hq1.
    + destruct (Nat.ltb_spec (length p') n); [lia|].
      destruct Hp' as (Hh & Hhr & Hplen & _ & Hpr & buf & Hbuf & Hbl & Htk).
      do 4 wp_step. unfold handle_frame. do 3 wp_step.
      cbn [set_conn cn set_header_read set_header payload payload_len].
      rewrite Hbuf, Hplen, Nat2Z.id. do 3 wp_step.
      destruct (Nat.leb_spec n (length buf)); [|lia]. do 4 wp_step.
      rewrite <- Ho, Htk. eapply wp_mono; [apply (IH (DHeader []))|]; simpl.
      * split; [done|]. simpl. split_and!; [done|lia|done].
      * done.
      * done.
      * lia.
      * intros z s' (Hz & Hc' & Hfd' & Hq'). rewrite Hz, Hi2, Hi1, Hfd', Hq', Hq2, Hq1, Hfd2, Hfd1.
        split_and!; [done..|]. by rewrite <- app_assoc.
Qed.
End lemmas.

(** ** Lemmas on whole frames *)

Section frames.
Context (malloc : Z → bool) (malloc_ok : ∀ n, malloc n = true).

(** A payload the protocol can carry. *)
Definition sendable (p : bytes) : Prop := (0 < Z.of_nat (length p) ≤ VTS_MAX_FRAME)%Z.

Lemma decode_frame p l :
  sendable p → decode malloc (DHeader []) (encode_frame p ++ l) =
  emit [p] (decode malloc (DHeader []) l).
Proof.
  unfold sendable. change VTS_MAX_FRAME with (2 ^ 20)%Z. intros Hp. unfold encode_frame.
  assert (frame_len (store32 (be32 (Z.of_nat (length p)))) = Z.of_nat (length p)) as E
    by (apply frame_header; unfold in_u; lia).
  rewrite <- app_assoc, decode_app, decode_header_full by done. cbn [fst snd app].
  rewrite emit_nil. unfold after_header, refused. rewrite E, malloc_ok.
  change VTS_MAX_FRAME with (2 ^ 20)%Z.
  destruct (Z.eqb_spec (Z.of_nat (length p)) 0); [lia|].
  destruct (Z.ltb_spec (2 ^ 20) (Z.of_nat (length p))); [lia|]. simpl orb. cbv iota.
  rewrite Nat2Z.id. pose proof (decode_pay_app malloc (length p) [] p l) as Hd.
  unfold decode_pay in Hd. simpl in Hd.
  destruct (Nat.ltb_spec 0 (length p)); [|lia]. destruct (Nat.ltb_spec (length p) (length p)); [lia|].
  apply Hd; lia.
Qed.

Lemma decode_frames ps l :
  Forall sendable ps → decode malloc (DHeader []) (concat (encode_frame <$> ps) ++ l) =
  emit ps (decode malloc (DHeader []) l).
Proof.
  induction 1 as [|p ps Hp _ IH]; [by rewrite emit_nil|].
  cbn [fmap list_fmap concat]. by rewrite <- app_assoc, decode_frame, IH, emit_emit.
Qed.
End frames.

(** The bound that every state and frame of the decoder keeps. *)
Definition small_state (st : dstate) : Prop :=
  match st with
  | DPayload n p => (Z.of_nat n ≤ VTS_MAX_FRAME)%Z ∧ length p < n
  | DHeader h => length h < 4
  | DBad => True
  end.

Lemma dstep_small malloc st b :
  small_state st → small_state (dstep malloc st b).1 ∧ Forall sendable (dstep malloc st b).2.
Proof.
  destruct st as [h|n p|]; cbn [small_state dstep]; [intros Hh|intros [Hn Hp]|by repeat split].
  - rewrite length_app. simpl. destruct (Nat.ltb_spec (length h + 1) 4) as [Hl|Hl]; simpl.
    { rewrite length_app. simpl. by split; [lia|]. }
    destruct (refused malloc (h ++ [b])) eqn:E; simpl; [done|]. split; [|done].
    assert (length (h ++ [b]) = 4) as H4 by (rewrite length_app; simpl; lia).
    pose proof (after_header_good malloc _ H4 E) as [_ Hpos].
    unfold refused in E. apply orb_false_iff in E as [[_ E]%orb_false_iff _]. b2p. lia.
  - rewrite length_app. simpl. destruct (Nat.ltb_spec (length p + 1) n); simpl;
      rewrite ?length_app; simpl; [by split; [lia|]|]. split; [lia|].
    apply Forall_singleton. unfold sendable. rewrite length_app. simpl. lia.
Qed.

Lemma decode_small malloc st l :
  small_state st → small_state (decode malloc st l).1 ∧ Forall sendable (decode malloc st l).2.
Proof.
  revert st. induction l as [|b l IH]; intros st Hst; [by split|]. rewrite decode_cons.
  apply (dstep_small malloc st b) in Hst as [Hst Hf]. apply IH in Hst as [Hst Hfs].
  split; [done|]. by apply Forall_app.
Qed.

(** ** Properties *)

(** C8: framing. However the kernel cuts the stream into reads, [read_from_conn] ends without
    touching memory outside its buffers, and does to the stream what the byte-at-a-time
    decoder does: the same frames are queued, in order and under the connection's own
    descriptor; what is left of an incomplete header or payload stays in the connection;
    the result says end of stream, no data for now, or a connection to drop. *)
Theorem read_from_conn_decodes (malloc : Z → bool) (st : dstate) (s : net) (fuel : nat) :
  conn_at (cn s) st → st ≠ DBad → Forall nonempty (chunks s) →
  length (concat (chunks s)) + 1 < fuel →
  ∃ z s', read_from_conn malloc fuel s = Done (z, s') ∧
    let r := decode malloc st (concat (chunks s)) in
    z = ret_code r.1 (idle s) ∧ conn_at (cn s') r.1 ∧ fd (cn s') = fd (cn s) ∧
    queued s' = queued s ++ ((λ p, (p, fd (cn s))) <$> r.2) ∧
    (small_state st → Forall sendable r.2).
Proof.
  intros Hc Hst Hne Hf. pose proof (read_from_conn_spec malloc fuel st s Hc Hst Hne Hf) as H.
  apply wp_done in H as (z & s' & E & Hz & H1 & H2 & H3). exists z, s'.
  split; [exact E|]. cbv zeta. repeat (split; [assumption|]). intros Hs. by apply decode_small.
Qed.

Lemma read_from_conn_decodes_witness :
  ∃ z s', read_from_conn (λ _, true) 30 (mk_net (conn_new 7)
            [take 2 (encode_frame (lit "ab")); drop 2 (encode_frame (lit "ab")) ++ lit "xy"]
            (Some EAGAIN) []) = Done (z, s')
    ∧ z = 1%Z ∧ queued s' = [(lit "ab", 7%Z)] ∧ header_read (cn s') = 2.
Proof.
  destruct (read_from_conn_decodes (λ _, true) (DHeader []) (mk_net (conn_new 7)
    [take 2 (encode_frame (lit "ab")); drop 2 (encode_frame (lit "ab")) ++ lit "xy"]
    (Some EAGAIN) []) 30) as (z & s' & E & Hz & Hc & _ & Hq & _).
  - repeat split. simpl. lia.
  - done.
  - repeat constructor; done.
  - simpl. lia.
  - exists z, s'. split; [exact E|]. split; [exact Hz|]. split; [exact Hq|]. exact (proj1 (proj2 Hc)).
Defined.

(** C31: end to end framing. A client that writes the frames of the messages [ps], every one
    within the protocol's bounds, has exactly these messages queued in order, and nothing
    else, whatever sizes the reads return; if the stream goes on with an unfinished frame
    the connection stays open, and a length of 0 or above [VTS_MAX_FRAME] closes it after
    the messages before it have been queued. *)
Theorem frames_arrive (malloc : Z → bool) (fdn : Z) (ps : list bytes) (h : bytes)
    (rest : bytes) (s : net) (fuel : nat) :
  (∀ n, malloc n = true) → Forall sendable ps → length h = 4 →
  cn s = conn_new fdn → idle s = Some EAGAIN → queued s = [] → Forall nonempty (chunks s) →
  length (concat (chunks s)) + 1 < fuel →
  (concat (chunks s) = concat (encode_frame <$> ps) →
     ∃ s', read_from_conn malloc fuel s = Done (1%Z, s') ∧ queued s' = (λ p, (p, fdn)) <$> ps) ∧
  (concat (chunks s) = concat (encode_frame <$> ps) ++ h ++ rest →
     ¬ (0 < frame_len h ≤ VTS_MAX_FRAME)%Z →
     ∃ s', read_from_conn malloc fuel s = Done ((-1)%Z, s') ∧ queued s' = (λ p, (p, fdn)) <$> ps).
Proof.
  intros Hm Hps Hh Hcn Hi Hq Hne Hf.
  assert (conn_at (cn s) (DHeader [])) as Hc by (rewrite Hcn; repeat split; simpl; lia).
  pose proof (read_from_conn_spec malloc fuel (DHeader []) s Hc ltac:(done) Hne Hf) as H.
  apply wp_done in H as (z & s' & E & Hz & _ & _ & Hq'). rewrite Hi in Hz. rewrite Hq, Hcn in Hq'.
  split.
  - intros Es. exists s'. rewrite <- (app_nil_r (concat (encode_frame <$> ps))) in Es.
    rewrite Es, decode_frames in Hz, Hq' by done. cbn [emit decode fst snd] in Hz, Hq'.
    rewrite app_nil_r in Hq'. rewrite E, Hz. by split.
  - intros Es Hbad. exists s'.
    assert (after_header malloc h = DBad) as Hab.
    { unfold after_header, refused. pose proof (frame_len_nonneg h Hh).
      destruct (Z.eqb_spec (frame_len h) 0); [done|]. destruct (Z.ltb_spec VTS_MAX_FRAME (frame_len h)); [done|lia]. }
    rewrite Es, decode_frames, decode_app, decode_header_full in Hz, Hq'; try done.
    2,3: by destruct h.
    cbn [emit fst snd app] in Hz, Hq'. rewrite Hab, decode_bad in Hz, Hq'. simpl in Hz, Hq'.
    rewrite app_nil_r in Hq'. rewrite E, Hz. by split.
Qed.

Lemma frames_arrive_witness :
  ∃ s', read_from_conn (λ _, true) 40 (mk_net (conn_new 5)
      ((λ b, [b]) <$> (encode_frame (lit "one") ++ encode_frame (lit "two")))
      (Some EAGAIN) []) = Done (1%Z, s')
    ∧ queued s' = [(lit "one", 5%Z); (lit "two", 5%Z)].
Proof.
  refine (proj1 (frames_arrive (λ _, true) 5 [lit "one"; lit "two"] [NUL; NUL; NUL; NUL] []
    (mk_net (conn_new 5) ((λ b, [b]) <$> (encode_frame (lit "one") ++ encode_frame (lit "two")))
      (Some EAGAIN) []) 40 _ _ _ _ _ _ _ _) _); try reflexivity.
  - by repeat constructor.
  - by repeat constructor.
  - simpl. lia.
Defined.
