(* ===== verification/ReqHandler.v ===== *)
(** * ReqHandler: request processing of userspace/vts/src/req_handler.c

    What a worker does with one payload: [process_one] looks for the field [cmd] and runs the
    command handler or the legacy handler.  The state is the room registry, the request-id
    cache, the calls of [write_full] (descriptor and bytes, two per reply) and the calls of
    [log_write_req_result].  The critical sections under [rooms_lock] and [dedup_lock] are
    single steps, and one request is processed at a time.  [snprintf] may report more bytes
    than its array holds; sending bytes past the array is undefined behaviour. *)
From stdpp Require Import prelude strings list gmap fin_sets.
From Stdlib Require Import Ascii ZArith Lia.
From S2P Require Import Prelude CString DropOldest Rooms Dedup Protocol.

Record server := mk_server {
  registry : rooms;
  cache : dedup;
  sent : list (Z * bytes);
  log : list (bytes * Z) }.

Definition server_init : server := mk_server rooms_init dedup_init [] [].

Definition set_registry (r : rooms) (s : server) : server := mk_server r (cache s) (sent s) (log s).
Definition set_cache (d : dedup) (s : server) : server := mk_server (registry s) d (sent s) (log s).

(** ** Replies *)

Definition quoted (s : bytes) : bytes := QUOTE :: s ++ [QUOTE].

Definition write (fd : Z) (b : bytes) : mon server unit :=
  modify (λ s, mk_server (registry s) (cache s) (sent s ++ [(fd, b)]) (log s)).

Definition log_write_req_result (req_id : bytes) (success : Z) : mon server unit :=
  modify (λ s, mk_server (registry s) (cache s) (sent s) (log s ++ [(req_id, success)])).

Definition send_length_prefixed (fd : Z) (buf : bytes) (n : nat) : mon server unit :=
  write fd (store32 (be32 (u32 (Z.of_nat n))));;
  p ← lift (if n <=? length buf then Some (take n buf) else None);
  write fd p.

Definition legacy_body (req_id : bytes) (success : Z) : bytes :=
  lit "{" ++ quoted (lit "req_id") ++ lit ":" ++ quoted req_id ++ lit ","
  ++ quoted (lit "result") ++ lit ":"
  ++ quoted (if bool_of_int success then lit "OK" else lit "ERR") ++ lit "}".

Definition send_resp_legacy (fd : Z) (req_id : bytes) (success : Z) : mon server unit :=
  let full := legacy_body req_id success in
  send_length_prefixed fd (snprintf_buf 256 full) (length full).

(** [data] is the C string, empty where the code passes NULL. *)
Definition json_body (code : Z) (msg data : bytes) : bytes :=
  let head := lit "{" ++ quoted (lit "code") ++ lit ":" ++ dec code ++ lit ","
              ++ quoted (lit "msg") ++ lit ":" ++ quoted msg in
  match data with
  | [] => head ++ lit "}"
  | _ => head ++ lit "," ++ quoted (lit "data") ++ lit ":" ++ quoted data ++ lit "}"
  end.

Definition reply_json (fd code : Z) (msg data : bytes) : mon server unit :=
  let full := json_body code msg data in
  send_length_prefixed fd (snprintf_buf 512 full) (length full).

(** The string left in [out], [None] for the result -1 that leaves [out] alone. *)
Definition json_get_str (payload key : bytes) (outsz : nat) : option bytes :=
  let pat := snprintf_str 64 (quoted key) in
  k ← strstr payload pat;
  colon ← strchr k ":"%char;
  q1 ← strchr colon QUOTE;
  q2 ← strchr (tail q1) QUOTE;
  let n := ptr_diff q2 (tail q1) in
  let n := if outsz <=? n then outsz - 1 else n in
  Some (take n (tail q1)).

(** ** Handlers *)

Definition handle_legacy (payload : bytes) (fd : Z) : mon server unit :=
  let req_id := default (lit "noid") (json_get_str payload (lit "req_id") 64) in
  let op := default (lit "NOP") (json_get_str payload (lit "op") 32) in
  cached ← match req_id with
           | [] => mret None
           | _ => gets (λ s, dedup_find (cache s) req_id)
           end;
  match cached with
  | Some cached_res =>
    log_write_req_result req_id cached_res;;
    send_resp_legacy fd req_id cached_res
  | None =>
    let success := if strcmp_eq op (lit "FAIL") then 0%Z else 1%Z in
    match req_id with
    | [] => mret tt
    | _ => modify (λ s, set_cache (dedup_put (cache s) req_id success) s)
    end;;
    log_write_req_result (match req_id with [] => lit "-" | _ => req_id end) success;;
    send_resp_legacy fd req_id success
  end.

Definition handle_cli (payload : bytes) (fd : Z) : mon server unit :=
  match json_get_str payload (lit "cmd") 32, json_get_str payload (lit "target") 32,
        json_get_str payload (lit "name") 64 with
  | Some cmd, Some target, Some name =>
    if negb (strcmp_eq target (lit "room")) then reply_json fd 1001 (lit "Bad request") []
    else if strcmp_eq cmd (lit "create") then
      r ← gets (λ s, room_create (registry s) name);
      modify (set_registry r.2);;
      if (r.1 =? 0)%Z then reply_json fd 0 (lit "OK") []
      else if (r.1 =? 1)%Z then reply_json fd 1003 (lit "Already exists") []
      else reply_json fd 1100 (lit "Internal error") []
    else if strcmp_eq cmd (lit "delete") then
      r ← gets (λ s, room_delete (registry s) name);
      modify (set_registry r.2);;
      if (r.1 =? 0)%Z then reply_json fd 0 (lit "OK") []
      else reply_json fd 1002 (lit "Not found") []
    else if strcmp_eq cmd (lit "start") then
      e ← gets (λ s, room_exists (registry s) name);
      if negb e then reply_json fd 1002 (lit "Not found") []
      else reply_json fd 0 (lit "OK") []
    else if strcmp_eq cmd (lit "stop") then
      e ← gets (λ s, room_exists (registry s) name);
      if negb e then reply_json fd 1002 (lit "Not found") []
      else reply_json fd 0 (lit "OK") []
    else if strcmp_eq cmd (lit "edit") then
      e ← gets (λ s, room_exists (registry s) name);
      if negb e then reply_json fd 1002 (lit "Not found") []
      else (* key and val are read and not used *) reply_json fd 0 (lit "OK") []
    else if strcmp_eq cmd (lit "show") then
      e ← gets (λ s, room_exists (registry s) name);
      if negb e then reply_json fd 1002 (lit "Not found") []
      else reply_json fd 0 (lit "OK")
             (lit "{" ++ quoted (lit "room") ++ lit ":" ++ quoted (lit "dummy") ++ lit "}")
    else reply_json fd 1001 (lit "Bad request") []
  | _, _, _ => reply_json fd 1001 (lit "Bad request") []
  end.

(** [payload] is the work item's buffer, the frame followed by a NUL. *)
Definition process_one (payload : bytes) (fd : Z) : mon server unit :=
  let payload := cstr payload in
  match strstr payload (quoted (lit "cmd")) with
  | Some _ => handle_cli payload fd
  | None => handle_legacy payload fd
  end.

(** ** The contract *)

(** One reply: the length word and the body. *)
Definition frame (fd : Z) (body : bytes) : list (Z * bytes) :=
  [(fd, store32 (be32 (Z.of_nat (length body)))); (fd, body)].

Definition wf_server (s : server) : Prop :=
  wf_rooms (registry s) ∧ ∃ w, rep (cache s) w.

(** ** Lemmas on [json_get_str] *)

Lemma json_get_str_valid (payload key : bytes) outsz v :
  nul_free payload → json_get_str payload key outsz = Some v →
  nul_free v ∧ QUOTE ∉ v ∧ length v ≤ outsz - 1.
Proof.
  unfold json_get_str. intros Hn. destruct (strstr _ _) as [k|] eqn:Ek; [|done]. simpl.
  destruct (strchr k _) as [colon|] eqn:Ec; [|done]. simpl.
  destruct (strchr colon _) as [q1|] eqn:E1; [|done]. simpl.
  destruct (strchr (tail q1) _) as [q2|] eqn:E2; [|done]. simpl. intros [= <-].
  apply strstr_Some in Ek as (a & b & -> & ->).
  apply strchr_Some in Ec as (a1 & b1 & Ek & -> & _). rewrite Ek in Hn.
  apply strchr_Some in E1 as (a2 & b2 & Ec & -> & _). rewrite Ec in Hn.
  simpl in E2 |- *. apply strchr_Some in E2 as (v & b3 & -> & -> & Hv).
  unfold ptr_diff. rewrite length_app, Nat.add_sub, take_app_le
    by (destruct (Nat.leb_spec outsz (length v)); lia).
  repeat (apply nul_free_app in Hn as [? Hn] || apply nul_free_cons in Hn as [? Hn]).
  split_and!.
  - by apply nul_free_take.
  - intros Hin. apply Hv. by eapply elem_of_take in Hin as (? & Hin & _);
      apply list_elem_of_lookup_2 in Hin.
  - rewrite length_take. destruct (Nat.leb_spec outsz (length v)); lia.
Qed.

(** A field written as ["key":"v"] at the first place where [strstr] finds the key. *)
Lemma json_get_str_field payload key v b outsz :
  length key ≤ 61 → ":"%char ∉ key → QUOTE ∉ v →
  strstr payload (quoted key) = Some (quoted key ++ lit ":" ++ quoted v ++ b) →
  json_get_str payload key outsz = Some (take (outsz - 1) v).
Proof.
  intros Hk Hc Hv E. unfold json_get_str, snprintf_str.
  rewrite (take_ge (quoted key)) by (unfold quoted; simpl; rewrite length_app; simpl; lia).
  rewrite E. simpl mbind. cbv beta. change (lit ":" ++ ?x) with (":"%char :: x).
  rewrite strchr_found; [|unfold quoted; set_solver]. cbn [mbind option_bind].
  change (":"%char :: QUOTE :: ?x) with ([":"%char] ++ QUOTE :: x).
  rewrite strchr_found by (set_solver by done). cbn [mbind option_bind tail].
  rewrite <- app_assoc. simpl ([QUOTE] ++ b). rewrite strchr_found by done.
  cbn [mbind option_bind]. unfold ptr_diff. rewrite length_app, Nat.add_sub. f_equal.
  destruct (Nat.leb_spec outsz (length v)).
  - by rewrite take_app_le by lia.
  - by rewrite take_app_length, take_ge by lia.
Qed.

(** ** Lemmas on replies *)


Lemma send_frame fd sz full s :
  length full < sz → sz ≤ 512 →
  send_length_prefixed fd (snprintf_buf sz full) (length full) s =
  Done (tt, mk_server (registry s) (cache s) (sent s ++ frame fd full) (log s)).
Proof.
  intros Hl Hsz. unfold send_length_prefixed. rewrite length_snprintf_buf by done.
  rewrite length_app. destruct (Nat.leb_spec (length full) (length full + length [NUL])); [|lia].
  rewrite take_app_length. unfold u32. rewrite wrapu_small by (unfold in_u; lia).
  unfold mbind, mon_bind, write, modify, lift, frame. simpl. by rewrite <- app_assoc.
Qed.

Lemma length_quoted s : length (quoted s) = length s + 2.
Proof. unfold quoted. simpl. rewrite length_app. simpl. lia. Qed.

Lemma length_legacy_body i z : length i ≤ 63 → length (legacy_body i z) ≤ 255.
Proof.
  intros. unfold legacy_body. rewrite !length_app, !length_quoted.
  destruct (bool_of_int z); simpl; lia.
Qed.

Lemma send_resp_legacy_spec fd i z s :
  length i ≤ 63 →
  send_resp_legacy fd i z s =
  Done (tt, mk_server (registry s) (cache s) (sent s ++ frame fd (legacy_body i z)) (log s)).
Proof.
  intros Hi. pose proof (length_legacy_body i z Hi). apply send_frame; lia.
Qed.

(** The bodies that [handle_cli] sends. *)
Inductive cli_reply := ROk | RShow | RBad | RNotFound | RExists | RInternal.

Definition reply_code (r : cli_reply) : Z :=
  match r with ROk | RShow => 0 | RBad => 1001 | RNotFound => 1002 | RExists => 1003 | RInternal => 1100 end.
Definition reply_body (r : cli_reply) : bytes :=
  match r with
  | ROk => json_body 0 (lit "OK") []
  | RShow => json_body 0 (lit "OK")
      (lit "{" ++ quoted (lit "room") ++ lit ":" ++ quoted (lit "dummy") ++ lit "}")
  | RBad => json_body 1001 (lit "Bad request") []
  | RNotFound => json_body 1002 (lit "Not found") []
  | RExists => json_body 1003 (lit "Already exists") []
  | RInternal => json_body 1100 (lit "Internal error") []
  end.

Lemma length_reply_body r : length (reply_body r) < 512.
Proof. destruct r; apply Nat.ltb_lt; vm_compute; reflexivity. Qed.

(** ** The abstract server

    Requests over any registry and any cache: the operations are parameters, instantiated
    with the arrays of the code and with a set of names and a window of results. *)
Section answer.
Context {R D : Type} (rstep : room_op → R → Z * R) (dreq : D → bytes → Z → Z * D).

Definition found (name : bytes) (x : cli_reply) (r : R) : cli_reply * R :=
  let '(z, r) := rstep (Exists name) r in (if (z =? 0)%Z then RNotFound else x, r).

Definition cli_step (cmd target name : bytes) (r : R) : cli_reply * R :=
  if negb (strcmp_eq target (lit "room")) then (RBad, r)
  else if strcmp_eq cmd (lit "create") then
    let '(z, r) := rstep (Create name) r in
    (if (z =? 0)%Z then ROk else if (z =? 1)%Z then RExists else RInternal, r)
  else if strcmp_eq cmd (lit "delete") then
    let '(z, r) := rstep (Delete name) r in (if (z =? 0)%Z then ROk else RNotFound, r)
  else if strcmp_eq cmd (lit "start") then found name ROk r
  else if strcmp_eq cmd (lit "stop") then found name ROk r
  else if strcmp_eq cmd (lit "edit") then found name ROk r
  else if strcmp_eq cmd (lit "show") then found name RShow r
  else (RBad, r).

Definition cli_request (payload : bytes) (r : R) : cli_reply * R :=
  match json_get_str payload (lit "cmd") 32, json_get_str payload (lit "target") 32,
        json_get_str payload (lit "name") 64 with
  | Some cmd, Some target, Some name => cli_step cmd target name r
  | _, _, _ => (RBad, r)
  end.

Definition legacy_id (payload : bytes) : bytes :=
  default (lit "noid") (json_get_str payload (lit "req_id") 64).
Definition legacy_result (payload : bytes) : Z :=
  if strcmp_eq (default (lit "NOP") (json_get_str payload (lit "op") 32)) (lit "FAIL")
  then 0%Z else 1%Z.

Definition legacy_request (payload : bytes) (d : D) : Z * D :=
  match legacy_id payload with
  | [] => (legacy_result payload, d)
  | i => dreq d i (legacy_result payload)
  end.

(** The body of the reply, what is logged, and the new state. *)
Definition answer (payload : bytes) (rd : R * D) : bytes * list (bytes * Z) * (R * D) :=
  match strstr payload (quoted (lit "cmd")) with
  | Some _ =>
    let '(rep, r) := cli_request payload rd.1 in (reply_body rep, [], (r, rd.2))
  | None =>
    let '(z, d) := legacy_request payload rd.2 in
    let i := legacy_id payload in
    (legacy_body i z, [(match i with [] => lit "-" | _ => i end, z)], (rd.1, d))
  end.
End answer.

Lemma reply_json_spec fd r code msg data s :
  reply_body r = json_body code msg data →
  reply_json fd code msg data s =
  Done (tt, mk_server (registry s) (cache s) (sent s ++ frame fd (reply_body r)) (log s)).
Proof.
  intros E. unfold reply_json. rewrite <- E. apply send_frame; [apply length_reply_body|done].
Qed.

(** The handler's lookup of a room followed by one of two replies. *)
Lemma found_spec fd name code msg data x s :
  reply_body x = json_body code msg data →
  (e ← gets (λ s, room_exists (registry s) name);
   if negb e then reply_json fd 1002 (lit "Not found") [] else reply_json fd code msg data) s =
  let '(rep, r) := found room_step name x (registry s) in
  Done (tt, mk_server r (cache s) (sent s ++ frame fd (reply_body rep)) (log s)).
Proof.
  intros E. unfold found, room_step, mbind, mon_bind, gets.
  destruct (room_exists (registry s) name); cbn [negb Z.eqb].
  - by apply reply_json_spec.
  - by apply (reply_json_spec fd RNotFound).
Qed.

Lemma handle_cli_spec payload fd s :
  handle_cli payload fd s =
  let '(rep, r) := cli_request room_step payload (registry s) in
  Done (tt, mk_server r (cache s) (sent s ++ frame fd (reply_body rep)) (log s)).
Proof.
  unfold cli_request, handle_cli, cli_step.
  destruct (json_get_str _ (lit "cmd") _) as [cmd|]; [|by apply (reply_json_spec _ RBad)].
  destruct (json_get_str _ (lit "target") _) as [target|]; [|by apply (reply_json_spec _ RBad)].
  destruct (json_get_str _ (lit "name") _) as [name|]; [|by apply (reply_json_spec _ RBad)].
  destruct (negb _); [by apply (reply_json_spec _ RBad)|].
  destruct (strcmp_eq cmd (lit "create")).
  { unfold room_step, mbind, mon_bind, gets, modify.
    destruct (room_create (registry s) name) as [z r]. cbn [fst snd].
    destruct (z =? 0)%Z; [by apply (reply_json_spec _ ROk _ _ _ (set_registry r s))|].
    destruct (z =? 1)%Z; [by apply (reply_json_spec _ RExists _ _ _ (set_registry r s))|].
    by apply (reply_json_spec _ RInternal _ _ _ (set_registry r s)). }
  destruct (strcmp_eq cmd (lit "delete")).
  { unfold room_step, mbind, mon_bind, gets, modify.
    destruct (room_delete (registry s) name) as [z r]. cbn [fst snd].
    destruct (z =? 0)%Z; [by apply (reply_json_spec _ ROk _ _ _ (set_registry r s))|].
    by apply (reply_json_spec _ RNotFound _ _ _ (set_registry r s)). }
  destruct (strcmp_eq cmd (lit "start")); [by apply found_spec|].
  destruct (strcmp_eq cmd (lit "stop")); [by apply found_spec|].
  destruct (strcmp_eq cmd (lit "edit")); [by apply found_spec|].
  destruct (strcmp_eq cmd (lit "show")); [by apply found_spec|].
  by apply (reply_json_spec _ RBad).
Qed.

Lemma legacy_id_valid payload :
  nul_free payload → nul_free (legacy_id payload) ∧ length (legacy_id payload) ≤ 63.
Proof.
  intros Hp. unfold legacy_id. destruct (json_get_str _ _ _) as [v|] eqn:E.
  - apply json_get_str_valid in E as (? & _ & ?); [|done]. by split.
  - split; [|simpl; lia]. by_evaluation.
Qed.

Lemma handle_legacy_spec payload fd s :
  nul_free payload →
  handle_legacy payload fd s =
  let '(z, d) := legacy_request dedup_request payload (cache s) in
  let i := legacy_id payload in
  Done (tt, mk_server (registry s) d (sent s ++ frame fd (legacy_body i z))
              (log s ++ [(match i with [] => lit "-" | _ => i end, z)])).
Proof.
  intros [_ Hlen]%legacy_id_valid. unfold handle_legacy, legacy_request.
  fold (legacy_id payload). fold (legacy_result payload).
  unfold mbind, mon_bind, gets, modify, log_write_req_result.
  destruct (legacy_id payload) as [|c i] eqn:E; cbn [mret mon_ret].
  - unfold modify. rewrite send_resp_legacy_spec; [done|simpl; lia].
  - unfold dedup_request. cbn [mret mon_ret]. 
    destruct (dedup_find (cache s) (c :: i)) as [z|]; unfold modify; cbn [registry cache sent log];
      by rewrite send_resp_legacy_spec.
Qed.

(** ** Refinement *)

(** The specification's state: the names registered, and the results remembered. *)
Abbreviation spec_state := (gset bytes * window)%type.
Definition spec_answer : bytes → spec_state → bytes * list (bytes * Z) * spec_state :=
  answer set_step window_request.

Definition srv_rep (s : server) (a : spec_state) : Prop :=
  wf_rooms (registry s) ∧ room_set (registry s) = a.1 ∧ rep (cache s) a.2.

Lemma srv_rep_init : srv_rep server_init (∅, []).
Proof. destruct wf_rooms_init as [H1 H2]. split_and!; [done..|apply rep_init]. Qed.

Lemma found_refines name x r :
  wf_rooms r → valid_name name →
  let '(rep, r') := found room_step name x r in
  wf_rooms r' ∧ found set_step name x (room_set r) = (rep, room_set r').
Proof.
  intros Hr Hn. unfold found. pose proof (room_step_refines (Exists name) r Hr Hn) as H.
  destruct (room_step _ r) as [z r']. by destruct H as [Hr' ->].
Qed.

Lemma cli_step_refines cmd target name r :
  wf_rooms r → valid_name name →
  let '(rep, r') := cli_step room_step cmd target name r in
  wf_rooms r' ∧ cli_step set_step cmd target name (room_set r) = (rep, room_set r').
Proof.
  intros Hr Hn. unfold cli_step. destruct (negb _); [done|].
  destruct (strcmp_eq cmd (lit "create")).
  { pose proof (room_step_refines (Create name) r Hr Hn) as H.
    destruct (room_step _ r) as [z r']. by destruct H as [Hr' ->]. }
  destruct (strcmp_eq cmd (lit "delete")).
  { pose proof (room_step_refines (Delete name) r Hr Hn) as H.
    destruct (room_step _ r) as [z r']. by destruct H as [Hr' ->]. }
  destruct (strcmp_eq cmd (lit "start")); [by apply found_refines|].
  destruct (strcmp_eq cmd (lit "stop")); [by apply found_refines|].
  destruct (strcmp_eq cmd (lit "edit")); [by apply found_refines|].
  by destruct (strcmp_eq cmd (lit "show")); [apply found_refines|].
Qed.

Lemma cli_request_refines payload r :
  wf_rooms r → nul_free payload →
  let '(rep, r') := cli_request room_step payload r in
  wf_rooms r' ∧ cli_request set_step payload (room_set r) = (rep, room_set r').
Proof.
  intros Hr Hp. unfold cli_request.
  destruct (json_get_str payload (lit "cmd") 32) as [cmd|]; [|done].
  destruct (json_get_str payload (lit "target") 32) as [target|]; [|done].
  destruct (json_get_str payload (lit "name") 64) as [name|] eqn:E; [|done].
  apply cli_step_refines; [done|].
  apply json_get_str_valid in E as (? & _ & ?); [|done]. by split.
Qed.

Lemma legacy_request_refines payload d w :
  rep d w → nul_free payload →
  let '(z, d') := legacy_request dedup_request payload d in
  ∃ w', legacy_request window_request payload w = (z, w') ∧ rep d' w'.
Proof.
  intros Hd Hp%legacy_id_valid. unfold legacy_request.
  destruct (legacy_id payload) as [|c i]; [by exists w|].
  apply request_refines; [done|]. by split.
Qed.

Lemma process_one_spec payload fd s a :
  srv_rep s a →
  let '(body, lg, a') := spec_answer (cstr payload) a in
  ∃ s', process_one payload fd s = Done (tt, s') ∧ srv_rep s' a' ∧
    sent s' = sent s ++ frame fd body ∧ log s' = log s ++ lg ∧ length body < 512.
Proof.
  destruct a as [X w]. intros (Hr & HX & Hw). cbn [fst snd] in HX, Hw. subst X. pose proof (cstr_nul_free payload) as Hn.
  unfold spec_answer, answer, process_one. cbn [fst snd]. destruct (strstr _ _).
  - rewrite handle_cli_spec. pose proof (cli_request_refines _ (registry s) Hr Hn) as H.
    destruct (cli_request room_step _ _) as [rp r']. destruct H as [Hr' ->].
    eexists. split; [done|]. split; [done|]. split; [done|]. rewrite app_nil_r.
    split; [done|apply length_reply_body].
  - rewrite handle_legacy_spec by done. pose proof (legacy_request_refines _ _ w Hw Hn) as H.
    destruct (legacy_request dedup_request _ _) as [z d']. destruct H as (w' & -> & Hw').
    eexists. split; [done|]. split; [done|]. split; [done|]. split; [done|].
    apply legacy_id_valid in Hn as [_ Hl]. pose proof (length_legacy_body _ z Hl). lia.
Qed.

(** The requests of a queue, one after the other. *)
Fixpoint serve (reqs : list (bytes * Z)) : mon server unit :=
  match reqs with
  | [] => mret tt
  | (payload, fd) :: reqs => process_one payload fd;; serve reqs
  end.

Fixpoint spec_serve (reqs : list (bytes * Z)) (a : spec_state) :
    list (Z * bytes) * list (bytes * Z) * spec_state :=
  match reqs with
  | [] => ([], [], a)
  | (payload, fd) :: reqs =>
    let '(body, lg, a) := spec_answer (cstr payload) a in
    let '(out, lgs, a) := spec_serve reqs a in
    ((fd, body) :: out, lg ++ lgs, a)
  end.

Definition frames (out : list (Z * bytes)) : list (Z * bytes) :=
  out ≫= λ p, frame p.1 p.2.

Lemma serve_spec reqs s a :
  srv_rep s a →
  let '(out, lgs, a') := spec_serve reqs a in
  ∃ s', serve reqs s = Done (tt, s') ∧ srv_rep s' a' ∧
    sent s' = sent s ++ frames out ∧ log s' = log s ++ lgs ∧
    Forall (λ p, length p.2 < 512) out.
Proof.
  revert s a. induction reqs as [|[payload fd] reqs IH]; intros s a Hs; cbn [serve spec_serve].
  - exists s. rewrite !app_nil_r. split_and!; auto.
  - pose proof (process_one_spec payload fd s a Hs) as H.
    destruct (spec_answer _ a) as [[body lg] a1]. destruct H as (s1 & E & Hs1 & Ho & Hl & Hb).
    specialize (IH s1 a1 Hs1). destruct (spec_serve reqs a1) as [[out lgs] a2].
    destruct IH as (s2 & E2 & Hs2 & Ho2 & Hl2 & Hf). exists s2.
    unfold mbind, mon_bind. rewrite E. split; [done|]. split; [done|].
    rewrite Ho2, Ho, Hl2, Hl. cbn [frames mbind list_bind fst snd].
    rewrite <- !app_assoc. split; [done|]. split; [done|]. by constructor.
Qed.

(** ** Properties *)

(** C4: the server refines its specification. Whatever bytes the clients send, in any number,
    a worker that serves the requests in order never touches memory outside its buffers and
    sends exactly one reply per request, to the descriptor the request came from, framed by
    its own length; bodies, log entries and answers are those of the specification, in which
    the registry is a set of at most 64 names and the cache a window of the last 4096 legacy
    results; and the arrays stay well formed. *)
Theorem serve_refines (reqs : list (bytes * Z)) :
  let '(out, lgs, a) := spec_serve reqs (∅, []) in
  ∃ s, serve reqs server_init = Done (tt, s) ∧ srv_rep s a ∧
    sent s = frames out ∧ log s = lgs ∧
    out.*1 = reqs.*2 ∧ Forall (λ p, length p.2 < 512) out.
Proof.
  pose proof (serve_spec reqs server_init (∅, []) srv_rep_init) as H.
  assert ((spec_serve reqs (∅, [])).1.1.*1 = reqs.*2) as Hfd.
  { clear H. generalize ((∅, []) : spec_state). induction reqs as [|[p fd] reqs IH];
      intros a; cbn [spec_serve]; [done|].
    destruct (spec_answer _ a) as [[b l] a1]. specialize (IH a1).
    destruct (spec_serve reqs a1) as [[o ls] a2]. cbn [fst snd fmap list_fmap] in *. by f_equal. }
  destruct (spec_serve reqs (∅, [])) as [[out lgs] a]. destruct H as (s & E & Hs & Ho & Hl & Hf).
  by exists s.
Qed.

(** Legacy requests are idempotent. In any reachable state, a legacy request repeated at
    once under the same non-empty id, whatever its other fields and the descriptor, gets the
    body that the first one got and changes neither the cache nor the registry. *)
Theorem legacy_idempotent (p1 p2 : bytes) (f1 f2 : Z) (s : server) (a : spec_state) :
  srv_rep s a →
  strstr (cstr p1) (quoted (lit "cmd")) = None → strstr (cstr p2) (quoted (lit "cmd")) = None →
  legacy_id (cstr p2) = legacy_id (cstr p1) → legacy_id (cstr p1) ≠ [] →
  ∃ s1 s2 body, process_one p1 f1 s = Done (tt, s1) ∧ process_one p2 f2 s1 = Done (tt, s2) ∧
    sent s2 = sent s ++ frame f1 body ++ frame f2 body ∧
    cache s2 = cache s1 ∧ registry s2 = registry s.
Proof.
  intros (Hr & HX & Hw) E1 E2 Hid Hne.
  pose proof (cstr_nul_free p1) as Hn1. pose proof (cstr_nul_free p2) as Hn2.
  pose proof (legacy_id_valid _ Hn1) as [Hi Hl].
  unfold process_one. rewrite E1, E2. rewrite (handle_legacy_spec _ f1 s) by done.
  unfold legacy_request.
  destruct (legacy_id (cstr p1)) as [|c i] eqn:Ei; [done|]. clear Hne.
  assert (valid_id (c :: i)) as Hv by (split_and!; [done|done|exact Hl]).
  pose proof (request_refines (cache s) a.2 (c :: i) (legacy_result (cstr p1)) Hw Hv) as H.
  destruct (dedup_request (cache s) (c :: i) _) as [z d] eqn:Ed.
  destruct H as (w' & Hwr & Hd). eexists _, _, _. split; [done|].
  rewrite handle_legacy_spec by done.
  unfold legacy_request. cbn [cache registry sent log]. rewrite Hid.
  assert (dedup_find d (c :: i) = Some z) as Hf.
  { rewrite (dedup_find_rep d w') by done. revert Hwr. unfold window_request.
    destruct (window_find a.2 (c :: i)) as [z'|] eqn:Ew; intros [= <- <-]; [done|].
    apply window_find_put; [|done]. by apply rep_elem in Hw as [? _]. }
  unfold dedup_request. rewrite Hf. split; [done|].
  cbn [sent cache registry]. rewrite <- app_assoc. done.
Qed.

Lemma legacy_idempotent_witness :
  let req op := lit "{" ++ quoted (lit "req_id") ++ lit ":" ++ quoted (lit "r1") ++ lit ","
                ++ quoted (lit "op") ++ lit ":" ++ quoted (lit op) ++ lit "}" in
  ∃ s1 s2 body, process_one (req "FAIL") 4 server_init = Done (tt, s1)
    ∧ process_one (req "GET") 5 s1 = Done (tt, s2)
    ∧ sent s2 = frame 4 body ++ frame 5 body ∧ registry s2 = rooms_init.
Proof.
  intros req.
  pose proof (legacy_idempotent (req "FAIL"%string) (req "GET"%string) 4 5 server_init (∅, [])
    srv_rep_init) as H.
  destruct H as (s1 & s2 & b & E1 & E2 & Hs & _ & Hr);
    [vm_compute; reflexivity|vm_compute; reflexivity|vm_compute; reflexivity|vm_compute; discriminate|].
  exists s1, s2, b. split; [exact E1|]. split; [exact E2|]. split; [exact Hs|exact Hr].
Defined.

(** The data of a [show] reply. The reply embeds an object's text in a JSON string without
    escaping its quotes, so that a reader that extracts the field as the server itself does,
    up to the next quote, gets an opening brace only. *)
Theorem show_reply_data :
  json_get_str (reply_body RShow) (lit "data") 64 = Some (lit "{")
  ∧ json_get_str (reply_body RShow) (lit "msg") 64 = Some (lit "OK").
Proof. split; vm_compute; reflexivity. Qed.
