(* ===== verification/Workers.v ===== *)
(** * Workers: the worker threads of userspace/vts/src/req_handler.c

    Eight workers share the queue, the room registry, the request-id cache, the log and the
    clients' sockets.  A step is one critical section or one call that leaves a mark outside:
    taking a request ([qlock]), a registry operation ([rooms_lock]), a look-up or an insertion
    in the cache ([dedup_lock]), a log entry, each of the two [write_full] calls of a reply,
    and the release of the request's memory.  The network thread pushes requests at any time,
    and the steps of all the threads interleave freely. *)
From stdpp Require Import prelude strings list gmap fin_sets.
From Stdlib Require Import Ascii ZArith Lia.
From S2P Require Import Prelude CString DropOldest Rooms Dedup ReqQueue Protocol ReqHandler.

(** Where a worker stands; [p] is the cell of its request.  A reply is the text [full] that
    [snprintf] wrote into an array of [sz] bytes. *)
Inductive worker :=
  | WIdle
  | WGot (p : nat) (x : work)
  | WMissed (p : nat) (x : work)
  | WLog (p : nat) (fd : Z) (req_id : bytes) (success : Z)
  | WSendLen (p : nat) (fd : Z) (sz : nat) (full : bytes)
  | WSendBody (p : nat) (fd : Z) (sz : nat) (full : bytes)
  | WRelease (p : nat).

Record pool := mk_pool { queue : req_queue; srv : server; workers : list worker }.

Definition pool_init (n : nat) : pool := mk_pool req_queue_init server_init (replicate n WIdle).

(** The threads are created and detached; a failure of [pthread_create] is not looked at. *)
Definition req_handler_start : Z * pool := (0%Z, pool_init WORKER_COUNT).

Definition set_worker (i : nat) (w : worker) (s : pool) : pool :=
  mk_pool (queue s) (srv s) (<[i := w]> (workers s)).

(** Operations of a part as operations of the whole. *)
Definition on_queue {A} (op : mon req_queue A) : mon pool A := λ s,
  match op (queue s) with
  | Done (a, q) => Done (a, mk_pool q (srv s) (workers s))
  | Undef => Undef
  | NoFuel => NoFuel
  end.

Definition on_srv {A} (op : mon server A) : mon pool A := λ s,
  match op (srv s) with
  | Done (a, v) => Done (a, mk_pool (queue s) v (workers s))
  | Undef => Undef
  | NoFuel => NoFuel
  end.

(** One step of worker [i]; the result tells the command request it has decided, if any. *)
Definition worker_step (i : nat) (w : worker) : mon pool (option (bytes * cli_reply)) :=
  match w with
  | WIdle =>
    r ← on_queue worker_take;
    modify (set_worker i (match r with Some (p, x) => WGot p x | None => WIdle end));; mret None
  | WGot p x =>
    let text := cstr (payload x) in
    match strstr text (quoted (lit "cmd")) with
    | Some _ =>
      a ← on_srv (gets (λ v, cli_request room_step text (registry v)));
      on_srv (modify (set_registry a.2));;
      modify (set_worker i (WSendLen p (peer_fd x) 512 (reply_body a.1)));; mret (Some (text, a.1))
    | None =>
      match legacy_id text with
      | [] => modify (set_worker i (WLog p (peer_fd x) [] (legacy_result text)));; mret None
      | id =>
        cached ← on_srv (gets (λ v, dedup_find (cache v) id));
        modify (set_worker i (match cached with
                              | Some z => WLog p (peer_fd x) id z
                              | None => WMissed p x
                              end));;
        mret None
      end
    end
  | WMissed p x =>
    let text := cstr (payload x) in
    on_srv (modify (λ v, set_cache (dedup_put (cache v) (legacy_id text) (legacy_result text)) v));;
    modify (set_worker i (WLog p (peer_fd x) (legacy_id text) (legacy_result text)));;
    mret None
  | WLog p fd req_id success =>
    on_srv (log_write_req_result (match req_id with [] => lit "-" | _ => req_id end) success);;
    modify (set_worker i (WSendLen p fd 256 (legacy_body req_id success)));; mret None
  | WSendLen p fd sz full =>
    on_srv (write fd (store32 (be32 (u32 (Z.of_nat (length full))))));;
    modify (set_worker i (WSendBody p fd sz full));; mret None
  | WSendBody p fd sz full =>
    let buf := snprintf_buf sz full in
    b ← lift (if length full <=? length buf then Some (take (length full) buf) else None);
    on_srv (write fd b);;
    modify (set_worker i (WRelease p));; mret None
  | WRelease p => on_queue (work_release p);; modify (set_worker i WIdle);; mret None
  end.

Inductive label := Push (data : bytes) (fd : Z) | Work (i : nat).

Definition pool_step (l : label) : mon pool (option (bytes * cli_reply)) :=
  match l with
  | Push data fd => on_queue (req_queue_push data fd);; mret None
  | Work i =>
    w ← gets (λ s, workers s !! i);
    match w with Some w => worker_step i w | None => mret None end
  end.

(** A schedule; the commands decided, in the order of their critical sections. *)
Fixpoint pool_run (ls : list label) : mon pool (list (bytes * cli_reply)) :=
  match ls with
  | [] => mret []
  | l :: ls => e ← pool_step l; es ← pool_run ls; mret (option_list e ++ es)
  end.

(** ** Invariant *)

Definition cell_of (w : worker) : option nat :=
  match w with
  | WIdle => None
  | WGot p _ | WMissed p _ | WLog p _ _ _ | WSendLen p _ _ _ | WSendBody p _ _ _ | WRelease p =>
    Some p
  end.

(** The cells taken and not yet released. *)
Definition held (s : pool) : list nat := omap cell_of (workers s).

(** A reply fits the array it is written to. *)
Definition worker_ok (w : worker) : Prop :=
  match w with
  | WLog _ _ i _ => length i ≤ 63
  | WSendLen _ _ sz full | WSendBody _ _ sz full => length full < sz
  | _ => True
  end.

(** The table's writes are in bounds. *)
Definition wf_cache (d : dedup) : Prop :=
  length (dedup_tab d) = DEDUP_MAX ∧ dedup_pos d < DEDUP_MAX.

Definition pool_inv (s : pool) (ws : list work) : Prop :=
  is_queue (queue s) (list_to_set (held s)) ws ∧ NoDup (held s)
  ∧ wf_rooms (registry (srv s)) ∧ wf_cache (cache (srv s)) ∧ Forall worker_ok (workers s).

(** The commands one after the other over the set of names. *)
Fixpoint serial (texts : list bytes) (X : gset bytes) : list cli_reply * gset bytes :=
  match texts with
  | [] => ([], X)
  | t :: texts =>
    let '(rep, X) := cli_request set_step t X in
    let '(reps, X) := serial texts X in (rep :: reps, X)
  end.

Definition set_of (s : pool) : gset bytes := room_set (registry (srv s)).

(** ** Lemmas *)

Lemma serial_app l1 l2 X :
  serial (l1 ++ l2) X =
  ((serial l1 X).1 ++ (serial l2 (serial l1 X).2).1, (serial l2 (serial l1 X).2).2).
Proof.
  revert X. induction l1 as [|t l1 IH]; intros X; cbn [app serial].
  - cbn [fst snd app]. by destruct (serial l2 X).
  - destruct (cli_request set_step t X) as [rep Y]. rewrite IH.
    by destruct (serial l1 Y) as [reps Z].
Qed.

Lemma wp_on_queue {A} (op : mon req_queue A) s (Q : A → pool → Prop) :
  wp op (queue s) (λ a q, Q a (mk_pool q (srv s) (workers s))) → wp (on_queue op) s Q.
Proof. unfold wp, on_queue. by destruct (op (queue s)) as [[a q]| |]. Qed.

Lemma wp_on_srv {A} (op : mon server A) s (Q : A → pool → Prop) :
  wp op (srv s) (λ a v, Q a (mk_pool (queue s) v (workers s))) → wp (on_srv op) s Q.
Proof. unfold wp, on_srv. by destruct (op (srv s)) as [[a v]| |]. Qed.

Ltac pool_steps :=
  repeat first [wp_step | apply wp_on_srv | progress cbv beta | progress cbn [fst snd]].

Lemma workers_split (l : list worker) i w :
  l !! i = Some w → ∃ a b, l = a ++ w :: b ∧ ∀ w', <[i := w']> l = a ++ w' :: b.
Proof.
  intros Hi. exists (take i l), (drop (S i) l). split.
  - symmetry. by apply take_drop_middle.
  - intros w'. rewrite insert_take_drop; [done|]. by eapply lookup_lt_Some.
Qed.

(** Replacing one worker changes its own cell only. *)
Lemma held_set l i w :
  l !! i = Some w →
  ∃ a b, ∀ w', omap cell_of (<[i := w']> l) = a ++ option_list (cell_of w') ++ b
               ∧ omap cell_of l = a ++ option_list (cell_of w) ++ b.
Proof.
  intros (a & b & E & Hset)%workers_split. exists (omap cell_of a), (omap cell_of b). intros w'.
  rewrite Hset, E, !omap_app. cbn. by destruct (cell_of w'), (cell_of w).
Qed.

Lemma held_keep s i w w' :
  workers s !! i = Some w → cell_of w' = cell_of w → held (set_worker i w' s) = held s.
Proof.
  intros Hi E. destruct (held_set _ _ _ Hi) as (a & b & H). destruct (H w') as [H1 H2].
  unfold held. cbn. by rewrite H1, H2, E.
Qed.

Lemma wf_cache_put d i z : wf_cache d → wf_cache (dedup_put d i z).
Proof.
  intros [Hl Hp]. unfold dedup_put. destruct i; [done|].
  split; cbn [dedup_tab dedup_pos].
  - by rewrite length_insert.
  - apply Nat.mod_upper_bound. pose proof DEDUP_MAX_pos. lia.
Qed.

(** A worker that keeps its cell and changes the shared tables at most. *)
Lemma pool_inv_local s ws i w w' v :
  pool_inv s ws → workers s !! i = Some w → cell_of w' = cell_of w → worker_ok w' →
  wf_rooms (registry v) → wf_cache (cache v) →
  pool_inv (set_worker i w' (mk_pool (queue s) v (workers s))) ws.
Proof.
  intros (Hq & Hnd & _ & _ & Hok) Hi Hc Hw Hr Hca.
  assert (held (set_worker i w' (mk_pool (queue s) v (workers s))) = held s) as Hh.
  { rewrite (held_keep _ i w) by done. done. }
  unfold pool_inv. rewrite Hh. split_and!; try done. by apply Forall_insert.
Qed.

Lemma held_fresh s i q p w :
  workers s !! i = Some WIdle → cell_of w = Some p → p ∉ held s → NoDup (held s) →
  NoDup (held (set_worker i w (mk_pool q (srv s) (workers s))))
  ∧ (list_to_set (held (set_worker i w (mk_pool q (srv s) (workers s)))) : gset nat)
    = {[p]} ∪ list_to_set (held s).
Proof.
  intros Hi Hw Hp Hnd. destruct (held_set _ _ _ Hi) as (a & b & H). destruct (H w) as [H1 H2].
  unfold held in *. cbn in *. rewrite H1. rewrite H2 in Hp, Hnd |- *. rewrite Hw. cbn in *.
  split; [|set_solver]. rewrite Permutation_app_comm. cbn. apply NoDup_cons. split; [set_solver|].
  by rewrite Permutation_app_comm.
Qed.

Lemma held_release s i q p :
  workers s !! i = Some (WRelease p) → NoDup (held s) →
  let s' := set_worker i WIdle (mk_pool q (srv s) (workers s)) in
  NoDup (held s') ∧ p ∉ held s'
  ∧ (list_to_set (held s) : gset nat) = {[p]} ∪ list_to_set (held s').
Proof.
  intros Hi Hnd s'. destruct (held_set _ _ _ Hi) as (a & b & H). destruct (H WIdle) as [H1 H2].
  unfold s', held in *. cbn in *. rewrite H1. rewrite H2 in Hnd |- *. cbn in *.
  rewrite Permutation_app_comm in Hnd. cbn in Hnd. apply NoDup_cons in Hnd as [Hp Hnd].
  split_and!; [by rewrite Permutation_app_comm|set_solver|set_solver].
Qed.

(** ** Progress

    A bound of the steps that a worker still needs for its request, and of the steps that all
    the requests still need. *)
Definition remaining (w : worker) : nat :=
  match w with
  | WIdle => 0 | WRelease _ => 1 | WSendBody _ _ _ _ => 2 | WSendLen _ _ _ _ => 3
  | WLog _ _ _ _ => 4 | WMissed _ _ => 5 | WGot _ _ => 6
  end.

Definition work_left (s : pool) (ws : list work) : nat :=
  7 * length ws + sum_list_with remaining (workers s).

(** A step of worker [i] brings the work forward unless the worker has nothing to do. *)
Definition progress (i : nat) (s : pool) (ws : list work) (s' : pool) (ws' : list work) : Prop :=
  length (workers s') = length (workers s) ∧ length ws' ≤ length ws ∧
  (work_left s' ws' < work_left s ws
   ∨ s' = s ∧ ws' = ws ∧ (workers s !! i = None ∨ ws = [] ∧ workers s !! i = Some WIdle)).

(** Worker [i] moves, with the queue at [ws'] afterwards. *)
Lemma progress_move i w w' s ws ws' q v :
  workers s !! i = Some w → length ws' ≤ length ws →
  7 * length ws' + remaining w' < 7 * length ws + remaining w →
  progress i s ws (set_worker i w' (mk_pool q v (workers s))) ws'.
Proof.
  intros Hi Hl Hr. destruct (workers_split _ _ _ Hi) as (a & b & E & Hset).
  unfold progress, work_left. cbn [set_worker srv workers queue].
  rewrite length_insert, Hset, E, !sum_list_with_app. cbn [sum_list_with].
  split; [done|]. split; [done|]. left. lia.
Qed.

(** What one step does to the registry, and what it decides. *)
Definition effect (s s' : pool) (e : option (bytes * cli_reply)) : Prop :=
  match e with
  | None => set_of s' = set_of s
  | Some (t, rep) => cli_request set_step t (set_of s) = (rep, set_of s')
  end.

Definition step_post (i : nat) (s : pool) (ws : list work) (e : option (bytes * cli_reply))
    (s' : pool) : Prop :=
  effect s s' e ∧ ∃ ws', pool_inv s' ws' ∧ progress i s ws s' ws'.

(** A step that leaves the queue alone. *)
Lemma local_post i w w' v e s ws :
  pool_inv s ws → workers s !! i = Some w → cell_of w' = cell_of w → worker_ok w' →
  wf_rooms (registry v) → wf_cache (cache v) →
  remaining w' < remaining w → effect s (set_worker i w' (mk_pool (queue s) v (workers s))) e →
  step_post i s ws e (set_worker i w' (mk_pool (queue s) v (workers s))).
Proof.
  intros Hs Hi Hc Hok Hr Hd Hrem He. split; [exact He|]. exists ws.
  split; [by eapply pool_inv_local|eapply progress_move; [done|lia|lia]].
Qed.

Lemma idle_step i s ws :
  pool_inv s ws → workers s !! i = Some WIdle → wp (worker_step i WIdle) s (step_post i s ws).
Proof.
  intros Hs Hi. pose proof Hs as (Hq & Hnd & Hr & Hc & Hok). cbn [worker_step].
  wp_step. apply wp_on_queue. eapply wp_mono; [by apply take_spec|]. intros r q.
  destruct ws as [|x ws].
  - intros [-> ->]. pool_steps. split; [done|]. exists [].
    assert (set_worker i WIdle (mk_pool (queue s) (srv s) (workers s)) = s) as ->.
    { destruct s as [q v l]. unfold set_worker. cbn in *. by rewrite list_insert_id. }
    split; [done|]. split; [done|]. split; [done|]. right. auto.
  - intros (p & -> & Hp & Hq'). pool_steps. split; [done|]. exists ws.
    destruct (held_fresh s i q p (WGot p x) Hi eq_refl) as [H1 H2]; [set_solver|done|].
    split; [|eapply progress_move; [done|cbn; lia|cbn; lia]].
    split_and!; [by rewrite H2|done..|by apply Forall_insert].
Qed.

Lemma got_step i p x s ws :
  pool_inv s ws → workers s !! i = Some (WGot p x) →
  wp (worker_step i (WGot p x)) s (step_post i s ws).
Proof.
  intros Hs Hi. pose proof Hs as (_ & _ & Hr & Hc & _). cbn [worker_step].
  pose proof (cstr_nul_free (payload x)) as Hn. cbv zeta.
  destruct (strstr (cstr (payload x)) _) as [k|].
  - pool_steps. pose proof (cli_request_refines _ (registry (srv s)) Hr Hn) as H.
    destruct (cli_request room_step _ _) as [rep r]. destruct H as [Hr' E].
    apply (local_post i (WGot p x) _ (set_registry r (srv s)) _ s ws); try done;
      [apply length_reply_body|cbn; lia].
  - pose proof (legacy_id_valid _ Hn) as [_ Hl].
    destruct (legacy_id (cstr (payload x))) as [|c id] eqn:Ei; pool_steps;
      apply (local_post i (WGot p x) _ (srv s) _ s ws); try done; try case_match; try done;
      cbn; lia.
Qed.

Lemma release_step i p s ws :
  pool_inv s ws → workers s !! i = Some (WRelease p) →
  wp (worker_step i (WRelease p)) s (step_post i s ws).
Proof.
  intros Hs Hi. pose proof Hs as (Hq & Hnd & Hr & Hc & Hok). cbn [worker_step].
  wp_step. apply wp_on_queue.
  assert (∀ q, let s' := set_worker i WIdle (mk_pool q (srv s) (workers s)) in
    NoDup (held s') ∧ p ∉ held s'
    ∧ (list_to_set (held s) : gset nat) = {[p]} ∪ list_to_set (held s')) as H
    by (intros; by apply held_release).
  destruct (H (queue s)) as (Hnd' & Hp & E). rewrite E in Hq.
  eapply wp_mono; [apply (release_spec _ _ _ _ Hq); set_solver|]. intros [] q Hq'.
  pool_steps. split; [done|]. exists ws.
  split; [|eapply progress_move; [done|lia|cbn; lia]].
  split_and!; [exact Hq'|done..|by apply Forall_insert].
Qed.

Lemma worker_step_spec i w s ws :
  pool_inv s ws → workers s !! i = Some w → wp (worker_step i w) s (step_post i s ws).
Proof.
  intros Hs Hi. pose proof Hs as (_ & _ & Hr & Hc & Hok).
  pose proof (Forall_lookup_1 _ _ _ _ Hok Hi) as Hwi.
  destruct w as [|p x|p x|p fd id z|p fd sz full|p fd sz full|p].
  - by apply idle_step.
  - by apply got_step.
  - pose proof (legacy_id_valid _ (cstr_nul_free (payload x))) as [_ Hl].
    cbn [worker_step]. pool_steps.
    apply (local_post i (WMissed p x) _ (set_cache _ (srv s)) _ s ws); try done;
      [by apply wf_cache_put|cbn; lia].
  - pose proof (length_legacy_body id z Hwi). cbn [worker_step]. pool_steps.
    apply (local_post i (WLog p fd id z) _ (mk_server _ _ _ _) _ s ws); try done;
      [unfold worker_ok; lia|cbn; lia].
  - cbn [worker_step]. pool_steps.
    apply (local_post i (WSendLen p fd sz full) _ (mk_server _ _ _ _) _ s ws); try done;
      cbn; lia.
  - cbn in Hwi. cbn [worker_step]. cbv zeta. rewrite length_snprintf_buf by done. rewrite length_app.
    destruct (Nat.leb_spec (length full) (length full + length [NUL])); [|lia]. pool_steps.
    apply (local_post i (WSendBody p fd sz full) _ (mk_server _ _ _ _) _ s ws); try done;
      cbn; lia.
  - by apply release_step.
Qed.

Lemma pool_step_spec l s ws :
  pool_inv s ws → wp (pool_step l) s (λ e s', effect s s' e ∧ ∃ ws', pool_inv s' ws').
Proof.
  intros Hs. destruct l as [d fd|i]; cbn [pool_step].
  - wp_step. apply wp_on_queue. eapply wp_mono; [apply push_spec; apply Hs|].
    intros [] q Hq. pool_steps. split; [done|].
    eexists. destruct Hs as (_ & Hs). split; [exact Hq|exact Hs].
  - do 2 wp_step. destruct (workers s !! i) as [w|] eqn:E.
    + eapply wp_mono; [by eapply worker_step_spec|].
      intros e s' (He & ws' & Hs' & _). split; [done|]. by exists ws'.
    + wp_step. split; [done|]. by exists ws.
Qed.

Lemma pool_run_spec ls s ws :
  pool_inv s ws →
  wp (pool_run ls) s (λ es s',
    serial es.*1 (set_of s) = (es.*2, set_of s') ∧ ∃ ws', pool_inv s' ws').
Proof.
  revert s ws. induction ls as [|l ls IH]; intros s ws Hs; cbn [pool_run].
  - wp_step. split; [done|]. by exists ws.
  - wp_step. eapply wp_mono; [by eapply pool_step_spec|]. intros e s1 (He & ws1 & Hs1).
    cbv beta. wp_step. eapply wp_mono; [by eapply IH|]. intros es s2 (Hes & Hs2).
    pool_steps. split; [|done]. unfold effect in He.
    destruct e as [[t rep]|]; cbn.
    + rewrite He. cbn. by rewrite Hes.
    + by rewrite <- He.
Qed.

Lemma pool_inv_init n : pool_inv (pool_init n) [].
Proof.
  assert (held (pool_init n) = []) as Hh by (unfold held; cbn; by induction n).
  unfold pool_inv. rewrite Hh. cbn [pool_init queue srv workers server_init registry cache].
  split; [apply is_queue_init|]. split; [apply NoDup_nil_2|]. split; [apply wf_rooms_init|].
  split; [|by apply Forall_replicate].
  split; [by cbn [dedup_init dedup_tab]; rewrite length_replicate|apply DEDUP_MAX_pos].
Qed.

(** ** One worker alone *)

Lemma run_work i k s w e s1 es s2 :
  workers s !! i = Some w → worker_step i w s = Done (e, s1) →
  pool_run (replicate k (Work i)) s1 = Done (es, s2) →
  pool_run (replicate (S k) (Work i)) s = Done (option_list e ++ es, s2).
Proof.
  intros Hi E1 E2. cbn [replicate pool_run pool_step]. unfold mbind, mon_bind, gets.
  by rewrite Hi, E1, E2.
Qed.

Lemma set_worker_at i w s :
  i < length (workers s) → workers (set_worker i w s) !! i = Some w.
Proof. intros. cbn. by apply list_lookup_insert_eq. Qed.

(** The last three steps: the two parts of the reply, and the release. *)
Lemma finish_reply i p fd sz full s q2 :
  workers s !! i = Some (WSendLen p fd sz full) → length full < sz → sz ≤ 512 →
  work_release p (queue s) = Done (tt, q2) →
  pool_run (replicate 3 (Work i)) s = Done ([],
    set_worker i WIdle (mk_pool q2
      (mk_server (registry (srv s)) (cache (srv s)) (sent (srv s) ++ frame fd full) (log (srv s)))
      (workers s))).
Proof.
  intros Hi Hl Hsz Hq. pose proof (lookup_lt_Some _ _ _ Hi) as Hlt.
  eapply (run_work _ _ _ _ None _ []); [done|reflexivity|].
  eapply (run_work _ _ _ _ None _ []); [by apply set_worker_at|..].
  { cbn [worker_step]. cbv zeta. rewrite length_snprintf_buf by done. rewrite length_app.
    destruct (Nat.leb_spec (length full) (length full + length [NUL])); [|lia].
    rewrite take_app_length. reflexivity. }
  eapply (run_work _ _ _ _ None _ []); [by apply set_worker_at; cbn; rewrite length_insert|..].
  { cbn [worker_step]. unfold on_queue, mbind, mon_bind. cbn [queue set_worker]. rewrite Hq.
    reflexivity. }
  unfold set_worker. cbn. rewrite !list_insert_insert_eq. unfold u32.
  rewrite wrapu_small by (unfold in_u; lia). rewrite <- app_assoc. reflexivity.
Qed.

(** A legacy request with its result: the log entry, the reply and the release. *)
Lemma serve_logged i p fd id z s v q2 :
  length id ≤ 63 → i < length (workers s) → work_release p (queue s) = Done (tt, q2) →
  pool_run (replicate 4 (Work i)) (set_worker i (WLog p fd id z) (mk_pool (queue s) v (workers s)))
  = Done ([], set_worker i WIdle (mk_pool q2 (mk_server (registry v) (cache v)
      (sent v ++ frame fd (legacy_body id z))
      (log v ++ [(match id with [] => lit "-" | _ => id end, z)])) (workers s))).
Proof.
  intros Hid Hlt Hq. pose proof (length_legacy_body _ z Hid).
  eapply (run_work _ _ _ _ None _ []); [by apply set_worker_at|reflexivity|].
  erewrite finish_reply; [|by apply set_worker_at; cbn; rewrite length_insert|lia|lia|exact Hq].
  unfold set_worker. cbn. by rewrite !list_insert_insert_eq.
Qed.

(** From a request in hand to its release: what [process_one] does to the tables, the log and
    the socket. *)
Lemma serve_held i p x s q2 :
  workers s !! i = Some (WGot p x) → work_release p (queue s) = Done (tt, q2) →
  ∃ k es v, k ≤ 6 ∧ process_one (payload x) (peer_fd x) (srv s) = Done (tt, v)
    ∧ pool_run (replicate k (Work i)) s
      = Done (es, set_worker i WIdle (mk_pool q2 v (workers s))).
Proof.
  intros Hi Hq. pose proof (lookup_lt_Some _ _ _ Hi) as Hlt.
  pose proof (cstr_nul_free (payload x)) as Hn.
  pose proof (legacy_id_valid _ Hn) as [_ Hid].
  pose proof (serve_logged i p (peer_fd x) (legacy_id (cstr (payload x)))) as Hlog.
  unfold process_one. destruct (strstr (cstr (payload x)) (quoted (lit "cmd"))) as [y|] eqn:Ec.
  - rewrite handle_cli_spec. destruct (cli_request room_step _ _) as [rep r] eqn:E.
    eexists 4, _, _. split; [lia|]. split; [done|].
    eapply (run_work _ _ _ _ (Some _) _ []); [done|..].
    { cbn [worker_step]. cbv zeta. rewrite Ec. unfold mbind, mon_bind, on_srv, gets, modify.
      rewrite E. reflexivity. }
    erewrite finish_reply; [|by apply set_worker_at|apply length_reply_body|lia|exact Hq].
    unfold set_worker. cbn. by rewrite list_insert_insert_eq.
  - rewrite handle_legacy_spec by done. unfold legacy_request, dedup_request.
    destruct (legacy_id (cstr (payload x))) as [|c id] eqn:Ei;
      [|destruct (dedup_find (cache (srv s)) (c :: id)) as [z|] eqn:Ef].
    + pose proof (Hlog (legacy_result (cstr (payload x))) s (srv s) q2 Hid Hlt Hq) as E.
      eexists 5, _, _. split; [lia|]. split; [done|].
      eapply (run_work _ _ _ _ None _ []); [done| |exact E].
      cbn [worker_step]. cbv zeta. rewrite Ec, Ei. by destruct s.
    + pose proof (Hlog z s (srv s) q2 Hid Hlt Hq) as E.
      eexists 5, _, _. split; [lia|]. split; [done|].
      eapply (run_work _ _ _ _ None _ []); [done| |exact E].
      cbn [worker_step]. cbv zeta. rewrite Ec, Ei.
      unfold mbind, mon_bind, on_srv, gets. by rewrite Ef.
    + pose proof (Hlog (legacy_result (cstr (payload x))) s
        (set_cache (dedup_put (cache (srv s)) (c :: id) (legacy_result (cstr (payload x)))) (srv s))
        q2 Hid Hlt Hq) as E.
      eexists 6, _, _. split; [lia|]. split; [done|].
      eapply (run_work _ _ _ _ None _ []); [done|..].
      { cbn [worker_step]. cbv zeta. rewrite Ec, Ei.
        unfold mbind, mon_bind, on_srv, gets. rewrite Ef. reflexivity. }
      eapply (run_work _ _ _ _ None _ []); [by apply set_worker_at| |exact E].
      cbn [worker_step]. cbv zeta. rewrite Ei.
      unfold mbind, mon_bind, on_srv, modify, mret, mon_ret, set_worker. cbn [queue srv workers].
      by rewrite list_insert_insert_eq.
Qed.

(** ** Two workers *)

(** What has been written to a descriptor. *)
Definition stream (fd : Z) (s : pool) : bytes :=
  concat (omap (λ p, if decide (p.1 = fd) then Some p.2 else None) (sent (srv s))).

Definition length_word (b : bytes) : bytes := store32 (be32 (u32 (Z.of_nat (length b)))).

Lemma length_word_head b : length b < 512 → ∃ t, length_word b = NUL :: t.
Proof.
  intros H. unfold length_word, u32. rewrite wrapu_small by (unfold in_u; lia).
  destruct (wire_order (Z.of_nat (length b))) as [_ ->]; [unfold in_u; lia|].
  rewrite Z.div_small by lia. by eexists.
Qed.

Lemma run_cons l ls s e s1 es s2 :
  pool_step l s = Done (e, s1) → pool_run ls s1 = Done (es, s2) →
  pool_run (l :: ls) s = Done (option_list e ++ es, s2).
Proof. intros E1 E2. cbn [pool_run]. unfold mbind, mon_bind. by rewrite E1, E2. Qed.

Definition after_len (i p : nat) (fd : Z) (b : bytes) (s : pool) : pool :=
  set_worker i (WSendBody p fd 512 b) (mk_pool (queue s)
    (mk_server (registry (srv s)) (cache (srv s)) (sent (srv s) ++ [(fd, length_word b)]) (log (srv s)))
    (workers s)).

Definition after_body (i p : nat) (fd : Z) (b : bytes) (s : pool) : pool :=
  set_worker i (WRelease p) (mk_pool (queue s)
    (mk_server (registry (srv s)) (cache (srv s)) (sent (srv s) ++ [(fd, b)]) (log (srv s)))
    (workers s)).

Lemma send_steps i p fd b s :
  workers s !! i = Some (WSendLen p fd 512 b) → length b < 512 →
  pool_step (Work i) s = Done (None, after_len i p fd b s)
  ∧ ∀ s', workers s' !! i = Some (WSendBody p fd 512 b) →
      pool_step (Work i) s' = Done (None, after_body i p fd b s').
Proof.
  intros Hi Hb. split.
  - cbn [pool_step]. unfold mbind, mon_bind, gets. by rewrite Hi.
  - intros s' Hi'. cbn [pool_step]. unfold mbind, mon_bind, gets. rewrite Hi'.
    cbn [worker_step]. cbv zeta. rewrite length_snprintf_buf by done. rewrite length_app.
    destruct (Nat.leb_spec (length b) (length b + length [NUL])); [|lia].
    by rewrite take_app_length.
Qed.

Definition store_result (i p : nat) (x : work) (s : pool) : pool :=
  let text := cstr (payload x) in
  set_worker i (WLog p (peer_fd x) (legacy_id text) (legacy_result text)) (mk_pool (queue s)
    (set_cache (dedup_put (cache (srv s)) (legacy_id text) (legacy_result text)) (srv s))
    (workers s)).

Lemma legacy_steps i p x s :
  workers s !! i = Some (WGot p x) → strstr (cstr (payload x)) (quoted (lit "cmd")) = None →
  legacy_id (cstr (payload x)) ≠ [] →
  dedup_find (cache (srv s)) (legacy_id (cstr (payload x))) = None →
  pool_step (Work i) s = Done (None, set_worker i (WMissed p x) s)
  ∧ ∀ s', workers s' !! i = Some (WMissed p x) →
      pool_step (Work i) s' = Done (None, store_result i p x s').
Proof.
  intros Hi Hc Hne Hf. split.
  - cbn [pool_step]. unfold mbind, mon_bind, gets. rewrite Hi. cbn [worker_step]. cbv zeta.
    rewrite Hc. destruct (legacy_id (cstr (payload x))) as [|c id] eqn:E; [done|].
    unfold mbind, mon_bind, on_srv, gets. rewrite Hf. by destruct s.
  - intros s' Hi'. cbn [pool_step]. unfold mbind, mon_bind, gets. by rewrite Hi'.
Qed.

(** Two workers after a schedule, for the examples. *)
Definition two_after (ls : list label) : pool :=
  match pool_run ls (pool_init 2) with Done (_, s) => s | _ => pool_init 2 end.

Definition legacy_text (op : bytes) : bytes :=
  lit "{" ++ quoted (lit "req_id") ++ lit ":" ++ quoted (lit "r1") ++ lit ","
  ++ quoted (lit "op") ++ lit ":" ++ quoted op ++ lit "}".

Definition create_text (name : bytes) : bytes :=
  lit "{" ++ quoted (lit "cmd") ++ lit ":" ++ quoted (lit "create") ++ lit ","
  ++ quoted (lit "target") ++ lit ":" ++ quoted (lit "room") ++ lit ","
  ++ quoted (lit "name") ++ lit ":" ++ quoted name ++ lit "}".

(** ** Properties *)

(** The workers serve the requests in some order. Whatever is pushed and however the steps of
    [n] workers and of the network thread interleave, no step touches memory that is not
    allocated or writes outside an array; the commands decided get the replies, and leave the
    set of rooms, of the same commands run one after the other in the order of their critical
    sections; and at the end the cells allocated are those in the list and those that a worker
    holds, no cell twice. *)
Theorem workers_serialize (n : nat) (ls : list label) :
  ∃ es s ws, pool_run ls (pool_init n) = Done (es, s)
    ∧ serial es.*1 ∅ = (es.*2, set_of s) ∧ pool_inv s ws.
Proof.
  pose proof (pool_run_spec ls (pool_init n) [] (pool_inv_init n)) as H.
  apply wp_done in H as (es & s & E & H & ws & Hs). exists es, s, ws. split; [done|].
  split; [|done]. rewrite <- H. reflexivity.
Qed.

(** C15: A worker left alone takes the head of the queue and does with it what [process_one] does:
    within seven steps it has served the request, released its cell and is idle again, and the
    other workers are where they were. *)
Theorem worker_alone_serves (i : nat) (x : work) (ws : list work) (s : pool) :
  pool_inv s (x :: ws) → workers s !! i = Some WIdle →
  ∃ k es s', k ≤ 7 ∧ pool_run (replicate k (Work i)) s = Done (es, s')
    ∧ process_one (payload x) (peer_fd x) (srv s) = Done (tt, srv s')
    ∧ workers s' = workers s ∧ pool_inv s' ws.
Proof.
  intros Hs Hi. pose proof (lookup_lt_Some _ _ _ Hi) as Hlt.
  pose proof (take_spec _ _ _ (proj1 Hs)) as H. apply wp_done in H as (r & q1 & E1 & p & -> & Hp & Hq1).
  pose proof (release_spec p _ _ _ Hq1 Hp) as H. apply wp_done in H as ([] & q2 & E2 & Hq2).
  pose (s1 := set_worker i (WGot p x) (mk_pool q1 (srv s) (workers s))).
  destruct (serve_held i p x s1 q2) as (k & es & v & Hk & Hv & E3);
    [by apply set_worker_at|done|].
  assert (pool_run (replicate (S k) (Work i)) s = Done (es,
    set_worker i WIdle (mk_pool q2 v (workers s1)))) as E.
  { apply (run_work _ _ _ _ None s1 es _ Hi); [|done].
    cbn [worker_step]. unfold mbind, mon_bind, on_queue. by rewrite E1. }
  pose proof (pool_run_spec (replicate (S k) (Work i)) s _ Hs) as H.
  apply wp_done in H as (es' & s2 & E' & _ & ws' & Hs2). rewrite E in E'. injection E' as <- <-.
  eexists (S k), es, _. split; [lia|]. split; [exact E|]. split; [exact Hv|].
  assert (workers (set_worker i WIdle (mk_pool q2 v (workers s1))) = workers s) as Hw.
  { cbn. by rewrite list_insert_insert_eq, list_insert_id. }
  split; [done|]. destruct Hs2 as (_ & Hs2). split; [|exact Hs2]. unfold held. by rewrite Hw.
Qed.

Lemma worker_alone_serves_witness :
  let push := [Push (create_text (lit "lab")) 7; Push (create_text (lit "lab")) 8] in
  ∃ k es s', k ≤ 7 ∧ pool_run (replicate k (Work 1)) (two_after push) = Done (es, s')
    ∧ process_one (create_text (lit "lab") ++ [NUL]) 7 (srv (two_after push)) = Done (tt, srv s')
    ∧ pool_inv s' [mk_request (create_text (lit "lab")) 8].
Proof.
  intros push.
  assert (∃ ws, pool_inv (two_after push) ws ∧
    ws = [mk_request (create_text (lit "lab")) 7; mk_request (create_text (lit "lab")) 8])
    as (ws & Hs & ->).
  { pose proof (push_spec (create_text (lit "lab")) 7 _ _ _ is_queue_init) as H1.
    apply wp_done in H1 as ([] & q1 & E1 & H1).
    pose proof (push_spec (create_text (lit "lab")) 8 _ _ _ H1) as H2.
    apply wp_done in H2 as ([] & q2 & E2 & H2).
    rewrite !bounded_push_room in H2
      by (rewrite ?bounded_push_room; cbn; pose proof QUEUE_DEPTH_large; lia).
    assert (two_after push = mk_pool q2 server_init (replicate 2 WIdle)) as ->.
    { unfold two_after, push. cbn [pool_run pool_step]. unfold mbind, mon_bind, on_queue.
      cbn [queue pool_init srv workers]. rewrite E1. cbn [queue srv workers mret mon_ret].
      by rewrite E2. }
    eexists. split; [|reflexivity]. pose proof (pool_inv_init 2) as (_ & H).
    split; [exact H2|exact H]. }
  destruct (worker_alone_serves 1 _ _ _ Hs) as (k & es & s' & Hk & E & Hp & _ & Hs').
  - vm_compute. reflexivity.
  - exists k, es, s'. split; [exact Hk|]. split; [exact E|]. split; [exact Hp|exact Hs'].
Defined.

(** Replies are not atomic. [send_length_prefixed] writes the length and the body with two
    calls and no lock: two workers that answer requests of the same connection can put both
    lengths before both bodies, and a client that reads the first frame then takes the second
    length for the start of the first body. *)
Theorem replies_interleave (i j : nat) (p q : nat) (fd : Z) (b1 b2 : bytes) (s : pool) :
  i ≠ j → length b1 < 512 → length b2 < 512 → head b1 = Some "{"%char →
  workers s !! i = Some (WSendLen p fd 512 b1) → workers s !! j = Some (WSendLen q fd 512 b2) →
  let rest := length_word b2 ++ b1 ++ b2 in
  ∃ s', pool_run [Work i; Work j; Work i; Work j] s = Done ([], s')
    ∧ stream fd s' = stream fd s ++ length_word b1 ++ rest
    ∧ take (length b1) rest ≠ b1.
Proof.
  intros Hij H1 H2 Hb Hi Hj rest. destruct (send_steps i p fd b1 s Hi H1) as (E1 & E2).
  destruct (send_steps j q fd b2 (after_len i p fd b1 s)) as (E3 & E4); [|done|].
  { cbn. by rewrite list_lookup_insert_ne. }
  eexists. split; [|split].
  - apply (run_cons _ _ _ None _ [] _ E1), (run_cons _ _ _ None _ [] _ E3).
    eapply (run_cons _ _ _ None _ []); [|eapply (run_cons _ _ _ None _ []); [|reflexivity]].
    + apply E2. cbn. by rewrite list_lookup_insert_ne, list_lookup_insert_eq
        by (try done; by eapply lookup_lt_Some).
    + apply E4. cbn. rewrite list_lookup_insert_ne, list_lookup_insert_eq; try done.
      rewrite length_insert. by eapply lookup_lt_Some.
  - unfold stream. cbn. rewrite !omap_app, !concat_app. cbn. rewrite !decide_True by done. cbn.
    unfold rest. by rewrite !app_nil_r, <- !app_assoc.
  - destruct b1 as [|c b1]; [done|]. cbn in Hb. injection Hb as ->.
    unfold rest.
    destruct (length_word_head b2) as [t ->]; [lia|]. done.
Qed.

Lemma replies_interleave_witness :
  let create := create_text (lit "lab") in
  let s := two_after [Push create 7; Push create 7; Work 0; Work 1; Work 0; Work 1] in
  ∃ s', pool_run [Work 0; Work 1; Work 0; Work 1] s = Done ([], s')
    ∧ stream 7 s' = length_word (reply_body ROk) ++ length_word (reply_body RExists)
                    ++ reply_body ROk ++ reply_body RExists.
Proof.
  intros create s.
  destruct (replies_interleave 0 1 0 1 7 (reply_body ROk) (reply_body RExists) s)
    as (s' & E & Hs & _).
  - discriminate.
  - apply length_reply_body.
  - apply length_reply_body.
  - vm_compute. reflexivity.
  - vm_compute. reflexivity.
  - vm_compute. reflexivity.
  - exists s'. split; [exact E|exact Hs].
Defined.

(** The cache is looked up and filled in two critical sections, so that the idempotence of one
    request at a time is lost: two workers with legacy requests under the same new id both
    miss, both store, and each answers with the result of its own request. *)
Theorem same_id_runs_twice (i j p q : nat) (x y : work) (s : pool) :
  let id := legacy_id (cstr (payload x)) in
  i ≠ j → workers s !! i = Some (WGot p x) → workers s !! j = Some (WGot q y) →
  strstr (cstr (payload x)) (quoted (lit "cmd")) = None →
  strstr (cstr (payload y)) (quoted (lit "cmd")) = None →
  legacy_id (cstr (payload y)) = id → id ≠ [] → dedup_find (cache (srv s)) id = None →
  ∃ s', pool_run [Work i; Work j; Work i; Work j] s = Done ([], s')
    ∧ workers s' !! i = Some (WLog p (peer_fd x) id (legacy_result (cstr (payload x))))
    ∧ workers s' !! j = Some (WLog q (peer_fd y) id (legacy_result (cstr (payload y)))).
Proof.
  intros id Hij Hi Hj Cx Cy Hid Hne Hf.
  pose proof (lookup_lt_Some _ _ _ Hi). pose proof (lookup_lt_Some _ _ _ Hj).
  destruct (legacy_steps i p x s Hi Cx Hne Hf) as [E1 E2].
  destruct (legacy_steps j q y (set_worker i (WMissed p x) s)) as [E3 E4];
    [by cbn; rewrite list_lookup_insert_ne|done|by rewrite Hid|by rewrite Hid|].
  eexists. split; [|split].
  - apply (run_cons _ _ _ None _ [] _ E1), (run_cons _ _ _ None _ [] _ E3).
    eapply (run_cons _ _ _ None _ []); [|eapply (run_cons _ _ _ None _ []); [|reflexivity]].
    + apply E2. cbn. by rewrite list_lookup_insert_ne, list_lookup_insert_eq.
    + apply E4. cbn. rewrite list_lookup_insert_ne, list_lookup_insert_eq; try done.
      by rewrite length_insert.
  - cbn [workers set_worker store_result]. rewrite list_lookup_insert_ne by done.
    by rewrite list_lookup_insert_eq by (rewrite !length_insert; done).
  - cbn [workers set_worker store_result]. rewrite Hid.
    by rewrite list_lookup_insert_eq by (rewrite !length_insert; done).
Qed.

Lemma same_id_runs_twice_witness :
  let x := mk_request (legacy_text (lit "FAIL")) 7 in
  let y := mk_request (legacy_text (lit "GET")) 8 in
  let s := two_after [Push (legacy_text (lit "FAIL")) 7; Push (legacy_text (lit "GET")) 8;
                      Work 0; Work 1] in
  ∃ s', pool_run [Work 0; Work 1; Work 0; Work 1] s = Done ([], s')
    ∧ workers s' !! 0 = Some (WLog 0 7 (lit "r1") 0)
    ∧ workers s' !! 1 = Some (WLog 1 8 (lit "r1") 1).
Proof.
  intros x y s. destruct (same_id_runs_twice 0 1 0 1 x y s) as (s' & E & H0 & H1).
  - discriminate.
  - vm_compute. reflexivity.
  - vm_compute. reflexivity.
  - vm_compute. reflexivity.
  - vm_compute. reflexivity.
  - vm_compute. reflexivity.
  - vm_compute. discriminate.
  - vm_compute. reflexivity.
  - exists s'. split; [exact E|]. split; [exact H0|exact H1].
Defined.
