(* ===== verification/WorkersReplies.v ===== *)
(** * WorkersReplies: which reply goes where

    userspace/vts/src/req_handler.c, over the interleaved workers of Workers.v: every request
    pushed is answered with one reply of its own, written to its own descriptor, or waits, or
    has been dropped by a full queue; every command decided is that of one reply; and every legacy result, cached or not, is that of a
    request under the same id.  The invariant follows the requests through the queue, the
    workers and the cache. *)
From stdpp Require Import prelude strings list gmap fin_sets.
From Stdlib Require Import Ascii ZArith Lia.
From S2P Require Import Prelude Interleave CString DropOldest Rooms Dedup ReqQueue Protocol ReqHandler Workers.

(** A request as it is pushed: payload and descriptor. *)
Abbreviation request := (bytes * Z)%type.

(** The requests pushed by a schedule. *)
Definition requested (ls : list label) : list request :=
  omap (λ l, match l with Workers.Push d fd => Some (d, fd) | Work _ => None end) ls.

Definition work_of (r : request) : work := mk_request r.1 r.2.

(** The text that the handlers see. *)
Definition req_text (r : request) : bytes := cstr (r.1 ++ [NUL]).
Definition is_command (r : request) : Prop := strstr (req_text r) (quoted (lit "cmd")) ≠ None.

(** What a request is answered with: the reply that its command was decided with, or a result
    under its id. *)
Inductive verdict := Decided (rep : cli_reply) | Legacy (z : Z).

Definition body_of (a : request * verdict) : bytes :=
  match a.2 with
  | Decided rep => reply_body rep
  | Legacy z => legacy_body (legacy_id (req_text a.1)) z
  end.

(** The command that an answer has decided. *)
Definition decision (a : request * verdict) : option (bytes * cli_reply) :=
  match a.2 with Decided rep => Some (req_text a.1, rep) | Legacy _ => None end.

(** The two writes of a reply, and the first of them where a worker is between the two. *)
Definition reply_frame (a : request * verdict) : list (Z * bytes) :=
  [(a.1.2, length_word (body_of a)); (a.1.2, body_of a)].
Definition half (w : worker) : list (Z * bytes) :=
  match w with WSendBody _ fd _ full => [(fd, length_word full)] | _ => [] end.

(** The request that a worker has in hand until it has written the reply, with the answer once
    that is known. *)
Definition hand : Type := option (request * option verdict).
Definition hand_request (o : hand) : option request := fst <$> o.
Definition hand_decision (o : hand) : option (bytes * cli_reply) :=
  '(r, oa) ← o; a ← oa; decision (r, a).

Section justified.
(** The requests pushed. *)
Context (P : list request).

(** Some legacy request under the id [i] has the result [z] of its own. *)
Definition legacy_source (i : bytes) (z : Z) : Prop :=
  ∃ r, r ∈ P ∧ ¬ is_command r ∧ legacy_id (req_text r) = i ∧ legacy_result (req_text r) = z.

(** A command is answered with a decision, a legacy request with a result of its id. *)
Definition fits (a : request * verdict) : Prop :=
  match a.2 with
  | Decided _ => is_command a.1
  | Legacy z => ¬ is_command a.1 ∧ legacy_source (legacy_id (req_text a.1)) z
  end.

Definition serves (w : worker) (o : hand) : Prop :=
  match w, o with
  | WIdle, None | WRelease _, None => True
  | WGot _ x, Some (r, None) => x = work_of r
  | WMissed _ x, Some (r, None) => x = work_of r ∧ ¬ is_command r ∧ legacy_id (req_text r) ≠ []
  | WLog _ fd i z, Some (r, None) =>
    fd = r.2 ∧ ¬ is_command r ∧ i = legacy_id (req_text r) ∧ legacy_source i z
  | WSendLen _ fd sz full, Some (r, Some a) | WSendBody _ fd sz full, Some (r, Some a) =>
    fd = r.2 ∧ fits (r, a) ∧ full = body_of (r, a) ∧ length full < sz
  | _, _ => False
  end.

Definition entry_just (e : entry) : Prop :=
  length (id e) = ID_SIZE ∧ (used e ≠ 0%Z → legacy_source (cstr (id e)) (result e)).

Definition log_ok (e : bytes * Z) : Prop :=
  ∃ i, legacy_source i e.2 ∧ e.1 = match i with [] => lit "-" | _ => i end.

(** [E]: the commands decided, with their replies; [A]: the requests answered, with their
    answers; [W]: those that the workers have in hand; [Q]: those that wait; [D]: those that
    the queue has dropped. *)
Record just (E : list (bytes * cli_reply)) (s : pool) (A : list (request * verdict))
    (W : list hand) (Q D : list request) : Prop := {
  just_workers : Forall2 serves (workers s) W;
  just_all : P ≡ₚ A.*1 ++ omap hand_request W ++ Q ++ D;
  just_decided : E ≡ₚ omap decision A ++ omap hand_decision W;
  just_dropped : length P ≤ QUEUE_DEPTH → D = [];
  just_answers : Forall fits A;
  just_sent : merges ((reply_frame <$> A) ++ (half <$> workers s)) (sent (srv s));
  just_cache : Forall entry_just (dedup_tab (cache (srv s)));
  just_log : Forall log_ok (log (srv s)) }.
End justified.

(** The account of a state: its requests in some order, and the list of the queue. *)
Definition accounted (P : list request) (E : list (bytes * cli_reply)) (s : pool)
    (ws : list work) : Prop :=
  ∃ A W Q D, ws = work_of <$> Q ∧ just P E s A W Q D.

(** ** Lemmas *)

(** Later requests take nothing away. *)
Section mono.
Context (P P' : list request) (HP : P ⊆ P').

Lemma legacy_source_mono i z : legacy_source P i z → legacy_source P' i z.
Proof. intros (r & H & Hr). exists r. auto. Qed.

Lemma answers_mono a : fits P a → fits P' a.
Proof. unfold fits. destruct a.2; [done|]. intros [? ?]. split; [done|]. by apply legacy_source_mono. Qed.

Lemma serves_mono w o : serves P w o → serves P' w o.
Proof.
  destruct w, o as [[r [a|]]|]; cbn; try done.
  - intros (? & ? & ? & ?). split_and!; try done. by apply legacy_source_mono.
  - intros (? & ? & ?). split_and!; try tauto. by apply answers_mono.
  - intros (? & ? & ?). split_and!; try tauto. by apply answers_mono.
Qed.

Lemma entry_just_mono e : entry_just P e → entry_just P' e.
Proof. intros [? H]. split; [done|]. intros Hu. by apply legacy_source_mono, H. Qed.

Lemma log_ok_mono e : log_ok P e → log_ok P' e.
Proof. intros (i & H & ?). exists i. split; [by apply legacy_source_mono|done]. Qed.
End mono.

(** Storing a justified result. *)
Lemma cache_put_just P d i z :
  valid_id i → legacy_source P i z → Forall (entry_just P) (dedup_tab d) →
  Forall (entry_just P) (dedup_tab (dedup_put d i z)).
Proof.
  intros Hi Hs Hd. rewrite dedup_put_unfold by done. cbn [dedup_tab].
  apply Forall_insert; [done|].
  assert (length (id (default entry_zero (dedup_tab d !! dedup_pos d))) = ID_SIZE) as Hl.
  { destruct (dedup_tab d !! dedup_pos d) as [e|] eqn:Ee; [|done].
    by apply (Forall_lookup_1 _ _ _ _ Hd Ee). }
  destruct (put_entry _ i z Hl Hi) as [[_ Hlen] Hv]. split; [exact Hlen|]. intros _.
  apply (f_equal fst) in Hv. cbn [fst view] in Hv. by rewrite Hv.
Qed.

Lemma cache_find_just P d i z :
  Forall (entry_just P) (dedup_tab d) → dedup_find d i = Some z → legacy_source P i z.
Proof.
  intros Hd (e & He & Hu & Hv)%dedup_find_elem. injection Hv as <- <-.
  rewrite Forall_forall in Hd. by apply Hd.
Qed.

(** A step of worker [i] that takes what it has in hand from [o] to [o'], may decide the command
    [e], makes the writes [new] and may finish replies [fin]. *)
Lemma just_move P E s A W Q Q' D i w w' o o' q v new fin e :
  just P E s A W Q D → workers s !! i = Some w → W !! i = Some o → serves P w' o' →
  option_list (hand_request o) ++ Q ≡ₚ fin.*1 ++ option_list (hand_request o') ++ Q' →
  option_list (hand_decision o) ++ option_list e
    ≡ₚ omap decision fin ++ option_list (hand_decision o') →
  Forall (fits P) fin →
  sent v = sent (srv s) ++ new →
  (∀ ls l, merges ((half w ++ new) :: ls) l → merges ((reply_frame <$> fin) ++ half w' :: ls) l) →
  Forall (entry_just P) (dedup_tab (cache v)) → Forall (log_ok P) (log v) →
  just P (E ++ option_list e) (set_worker i w' (mk_pool q v (workers s))) (A ++ fin)
    (<[i := o']> W) Q' D.
Proof.
  intros [H1 H2 H3 H4 H5 H6 H7 H8] Hi Ho Hw' Heq Hdec Hfin Hs Hnew Hc Hl.
  pose proof (insert_Permutation _ _ _ o' Ho) as EW'. pose proof (insert_Permutation _ _ _ w' Hi) as Ew'.
  assert (∀ {B} (f : hand → option B) x l, omap f (x :: l) = option_list (f x) ++ omap f l) as Hom
    by (intros B f x l; cbn; by destruct (f x)).
  rewrite (delete_Permutation W i o Ho), Hom in H2, H3.
  rewrite (delete_Permutation (workers s) i w Hi), fmap_cons in H6.
  split; cbn [set_worker srv workers]; rewrite ?EW', ?Hom; try done.
  - by apply Forall2_insert.
  - rewrite H2, fmap_app. trans (A.*1 ++ omap hand_request (delete i W) ++ D
      ++ option_list (hand_request o) ++ Q); [solve_Permutation|]. rewrite Heq. solve_Permutation.
  - rewrite H3, omap_app. trans (omap decision A ++ omap hand_decision (delete i W)
      ++ option_list (hand_decision o) ++ option_list e); [solve_Permutation|].
    rewrite Hdec. solve_Permutation.
  - by apply Forall_app.
  - rewrite Hs, Ew', fmap_app, fmap_cons.
    eapply merges_perm; [|apply (Hnew ((reply_frame <$> A) ++ (half <$> delete i (workers s))))];
      [solve_Permutation|]. apply merges_app. by rewrite Permutation_middle.
Qed.

(** What a step leaves: the queue holds a list that the account explains. *)
Definition just_after (P : list request) (E : list (bytes * cli_reply))
    (e : option (bytes * cli_reply)) (s : pool) : Prop :=
  ∃ fl ws, is_queue (queue s) fl ws ∧ accounted P (E ++ option_list e) s ws.

(** A step that leaves the queue alone, keeps the request [r] and makes the writes [new]. *)
Lemma after_keep P E s A W Q D i w w' r oa oa' v new e :
  is_queue (queue s) (list_to_set (held s)) (work_of <$> Q) →
  just P E s A W Q D → workers s !! i = Some w → W !! i = Some (Some (r, oa)) →
  serves P w' (Some (r, oa')) →
  option_list (hand_decision (Some (r, oa))) ++ option_list e
    ≡ₚ option_list (hand_decision (Some (r, oa'))) →
  sent v = sent (srv s) ++ new → half w ++ new = half w' →
  Forall (entry_just P) (dedup_tab (cache v)) → Forall (log_ok P) (log v) →
  just_after P E e (set_worker i w' (mk_pool (queue s) v (workers s))).
Proof.
  intros Hq Hj Hi Hr Hw' He Hs Hnew Hc Hl. eexists _, _. split; [exact Hq|].
  exists (A ++ []), (<[i := Some (r, oa')]> W), Q, D. split; [done|].
  eapply (just_move P E s A W Q Q D i w w' _ _ (queue s) v new []); try done.
  by rewrite Hnew.
Qed.

Lemma take_just P E i s A W Q D :
  pool_inv s (work_of <$> Q) → just P E s A W Q D → workers s !! i = Some WIdle →
  W !! i = Some None → wp (worker_step i WIdle) s (just_after P E).
Proof.
  intros Hs Hj Hi Ho. pose proof Hj as [_ _ _ _ _ _ Hc Hl]. cbn [worker_step]. wp_step.
  apply wp_on_queue. eapply wp_mono; [by apply take_spec, Hs|]. intros x q Hx. cbv beta.
  do 3 wp_step. destruct Q as [|r Q]; cbn [fmap list_fmap] in Hx.
  - destruct Hx as [-> ->]. eexists _, []. split; [apply Hs|].
    exists (A ++ []), (<[i := None]> W), [], D. split; [done|].
    by eapply (just_move P E s A W [] [] D i WIdle WIdle None None (queue s) (srv s) [] [] None);
      rewrite ?app_nil_r.
  - destruct Hx as (p & -> & _ & Hq). eexists _, _. split; [exact Hq|].
    exists (A ++ []), (<[i := Some (r, None)]> W), Q, D. split; [done|].
    by eapply (just_move P E s A W (r :: Q) Q D i WIdle _ None (Some (r, None)) q (srv s) [] [] None);
      rewrite ?app_nil_r.
Qed.

Lemma release_just P E i p s A W Q D :
  pool_inv s (work_of <$> Q) → just P E s A W Q D → workers s !! i = Some (WRelease p) →
  W !! i = Some None → wp (worker_step i (WRelease p)) s (just_after P E).
Proof.
  intros Hs Hj Hi Ho. pose proof Hs as (Hq & Hnd & _). pose proof Hj as [_ _ _ _ _ _ Hc Hl].
  cbn [worker_step]. wp_step.
  apply wp_on_queue. destruct (held_release s i (queue s) p Hi Hnd) as (_ & Hp & Eh).
  rewrite Eh in Hq. eapply wp_mono; [apply (release_spec _ _ _ _ Hq); set_solver|].
  intros [] q Hq'. pool_steps. eexists _, _. split; [exact Hq'|].
  exists (A ++ []), (<[i := None]> W), Q, D. split; [done|].
  by eapply (just_move P E s A W Q Q D i (WRelease p) WIdle None None q (srv s) [] [] None);
    rewrite ?app_nil_r.
Qed.

Lemma got_just P E i p x r s A W Q D :
  pool_inv s (work_of <$> Q) → just P E s A W Q D → workers s !! i = Some (WGot p x) →
  W !! i = Some (Some (r, None)) → x = work_of r → r ∈ P →
  wp (worker_step i (WGot p x)) s (just_after P E).
Proof.
  intros [Hq _] Hj Hi Ho -> Hr. pose proof Hj as [_ _ _ _ _ _ Hc Hl]. cbn [worker_step]. cbv zeta.
  cbn [work_of mk_request payload peer_fd]. change (cstr (r.1 ++ [NUL])) with (req_text r).
  destruct (strstr (req_text r) (quoted (lit "cmd"))) as [k|] eqn:Ec.
  - pool_steps.
    eapply (after_keep P E s A W Q D i (WGot p (work_of r)) _ r None
      (Some (Decided (cli_request room_step (req_text r) (registry (srv s))).1))
      (set_registry _ (srv s)) []); try done; [|by rewrite app_nil_r].
    split; [done|]. split; [|split; [done|apply length_reply_body]].
    cbn. unfold is_command. by rewrite Ec.
  - assert (¬ is_command r) as Hn by (unfold is_command; rewrite Ec; tauto).
    assert (legacy_source P (legacy_id (req_text r)) (legacy_result (req_text r))) as Hown
      by by exists r.
    assert (∀ w', serves P w' (Some (r, None)) → half w' = [] →
      just_after P E None (set_worker i w' (mk_pool (queue s) (srv s) (workers s)))) as Hstep.
    { intros w' Hw' Hh. eapply (after_keep P E s A W Q D i _ w' r None None (srv s) [] None); try done.
      by rewrite app_nil_r. }
    destruct (legacy_id (req_text r)) as [|c id] eqn:Ei; pool_steps; apply Hstep; try done.
    + destruct (dedup_find _ _) as [z|] eqn:Ef.
      * split_and!; try done. by eapply cache_find_just.
      * split_and!; try done. by rewrite Ei.
    + by case_match.
Qed.

(** A worker with a reply to send. *)
Lemma send_just P E i p fd sz full r oa s A W Q D :
  pool_inv s (work_of <$> Q) → just P E s A W Q D → W !! i = Some (Some (r, oa)) →
  (∀ w, w = WSendLen p fd sz full ∨ w = WSendBody p fd sz full → workers s !! i = Some w →
   serves P w (Some (r, oa)) → wp (worker_step i w) s (just_after P E)).
Proof.
  intros [Hq _] Hj Ho w Hw Hi Hs. pose proof Hj as [_ _ _ _ _ _ Hc Hl].
  destruct oa as [a|]; [|by destruct Hw as [->| ->]].
  destruct Hw as [->| ->]; destruct Hs as (-> & Hr & -> & Hlen); cbn [worker_step].
  - pool_steps. eapply (after_keep P E s A W Q D i _ _ r (Some a) (Some a) (mk_server _ _ _ _)
      [(r.2, length_word (body_of (r, a)))] None); try done. by rewrite app_nil_r.
  - cbv zeta. rewrite length_snprintf_buf by done. rewrite length_app.
    destruct (Nat.leb_spec (length (body_of (r, a))) (length (body_of (r, a)) + length [NUL])); [|lia].
    pool_steps. rewrite take_app_length. eexists _, _. split; [exact Hq|].
    exists (A ++ [(r, a)]), (<[i := None]> W), Q, D. split; [done|].
    eapply (just_move P E s A W Q Q D i (WSendBody p r.2 sz _) (WRelease p) (Some (r, Some a)) None
      (queue s) (mk_server _ _ _ _) [(r.2, body_of (r, a))] [(r, a)] None); try done.
    + by apply Forall_singleton.
    + intros ls l Hm. apply (merges_perm ([] :: reply_frame (r, a) :: ls)); [apply perm_swap|].
      by apply merges_empty.
Qed.

Lemma step_just P E i w s A W Q D :
  pool_inv s (work_of <$> Q) → just P E s A W Q D → workers s !! i = Some w →
  wp (worker_step i w) s (just_after P E).
Proof.
  intros Hs Hj Hi. pose proof Hj as [H1 H2 _ _ _ _ Hc Hl]. pose proof (proj1 Hs) as Hq.
  destruct (Forall2_lookup_l _ _ _ _ _ H1 Hi) as (o & Ho & Hw).
  destruct o as [[r oa]|]; [|destruct w; try done; [by eapply take_just|by eapply release_just]].
  assert (r ∈ P) as Hr.
  { rewrite H2. apply elem_of_app. right. apply elem_of_app. left.
    apply list_elem_of_omap. exists (Some (r, oa)). split; [by eapply list_elem_of_lookup_2|done]. }
  destruct w as [|p x|p x|p fd id z|p fd sz full|p fd sz full|p]; try done.
  - destruct oa; [done|]. by eapply got_just.
  - destruct oa; [done|]. destruct Hw as (-> & Hn & Hne). cbn [worker_step]. cbv zeta.
    change (cstr (payload (work_of r))) with (req_text r).
    pose proof (legacy_id_valid _ (cstr_nul_free (r.1 ++ [NUL]))) as [Hnul Hlen].
    assert (legacy_source P (legacy_id (req_text r)) (legacy_result (req_text r))) as Hown
      by by exists r.
    pool_steps.
    eapply (after_keep P E s A W Q D i _ _ r None None (set_cache _ (srv s)) [] None); try done.
    + by rewrite app_nil_r.
    + by apply cache_put_just.
  - destruct oa; [done|]. destruct Hw as (-> & Hn & -> & Hz). cbn [worker_step]. pool_steps.
    eapply (after_keep P E s A W Q D i _ _ r None (Some (Legacy z)) (mk_server _ _ _ _) [] None);
      try done.
    + split; [done|]. split; [by split|]. split; [done|].
      pose proof (legacy_id_valid _ (cstr_nul_free (r.1 ++ [NUL]))) as [_ Hlen].
      apply (Nat.le_lt_trans _ 255); [by apply length_legacy_body|lia].
    + by rewrite app_nil_r.
    + apply Forall_app. split; [done|]. apply Forall_singleton. by exists (legacy_id (req_text r)).
  - eapply send_just; [done..|by left|done|done].
  - eapply send_just; [done..|by right|done|done].
Qed.

(** A push; a full queue drops its oldest request. *)
Lemma push_just P E d fd s A W Q D :
  pool_inv s (work_of <$> Q) → just P E s A W Q D →
  wp (pool_step (Workers.Push d fd)) s (just_after (P ++ [(d, fd)]) E).
Proof.
  intros Hs [H1 H2 HE H3 H4 H5 H6 H7]. cbn [pool_step]. wp_step. apply wp_on_queue.
  eapply wp_mono; [apply push_spec, Hs|]. intros [] q Hq. wp_step.
  eexists _, _. split; [exact Hq|]. rewrite app_nil_r. clear Hq.
  assert (P ⊆ P ++ [(d, fd)]) as HP by set_solver.
  assert (∀ Q' D', Q' ++ D' ≡ₚ Q ++ D ++ [(d, fd)] → (length (P ++ [(d, fd)]) ≤ QUEUE_DEPTH → D' = []) →
    just (P ++ [(d, fd)]) E (mk_pool q (srv s) (workers s)) A W Q' D') as Hpush.
  { intros Q' D' HQ HD. split; cbn [srv workers]; try done.
    - eapply Forall2_impl; [exact H1|]. intros ??. by apply serves_mono.
    - rewrite H2, HQ. solve_Permutation.
    - eapply Forall_impl; [exact H4|]. intros ?. by apply answers_mono.
    - eapply Forall_impl; [exact H6|]. intros ?. by apply entry_just_mono.
    - eapply Forall_impl; [exact H7|]. intros ?. by apply log_ok_mono. }
  assert (length Q ≤ length P) as HQP by (rewrite H2, !length_app; lia).
  destruct (decide (length Q < QUEUE_DEPTH)) as [Hlt|Hge].
  - exists A, W, (Q ++ [(d, fd)]), D. split.
    + rewrite bounded_push_room by by rewrite length_fmap. by rewrite fmap_app.
    + apply Hpush; [solve_Permutation|]. rewrite length_app. intros. apply H3. lia.
  - destruct Q as [|r Q]; [cbn in Hge; pose proof QUEUE_DEPTH_pos; lia|].
    exists A, W, (Q ++ [(d, fd)]), (r :: D). split.
    + rewrite bounded_push_full by (rewrite length_fmap; lia). by rewrite fmap_app.
    + apply Hpush; [solve_Permutation|]. rewrite length_app. cbn [length] in *. lia.
Qed.

(** A step of the network thread or of a worker. *)
Lemma pool_step_just P E l s ws :
  pool_inv s ws → accounted P E s ws →
  wp (pool_step l) s (λ e s', effect s s' e ∧
    ∃ ws', pool_inv s' ws' ∧ accounted (P ++ requested [l]) (E ++ option_list e) s' ws').
Proof.
  intros Hs (A & W & Q & D & -> & Hj).
  assert (wp (pool_step l) s (just_after (P ++ requested [l]) E)) as H.
  { destruct l as [d fd|i]; [by eapply push_just|]. change (requested [Work i]) with (@nil request).
    rewrite app_nil_r. cbn [pool_step]. do 2 wp_step. destruct (workers s !! i) as [w|] eqn:Ew.
    - by eapply step_just.
    - wp_step. eexists _, _. split; [apply Hs|]. rewrite app_nil_r. by exists A, W, Q, D. }
  eapply wp_mono; [apply (wp_and _ _ _ _ (pool_step_spec l s _ Hs) H)|].
  intros e s' [[He (ws' & Hs')] (fl & ws2 & Hq & Hj2)]. split; [done|]. exists ws'.
  split; [done|]. by rewrite (is_queue_fun _ _ _ _ _ (proj1 Hs') Hq).
Qed.

Lemma pool_run_just P E ls s ws :
  pool_inv s ws → accounted P E s ws →
  wp (pool_run ls) s (λ es s', serial es.*1 (set_of s) = (es.*2, set_of s') ∧
    ∃ ws', pool_inv s' ws' ∧ accounted (P ++ requested ls) (E ++ es) s' ws').
Proof.
  revert P E s ws. induction ls as [|l ls IH]; intros P E s ws Hs Hj; cbn [pool_run].
  - wp_step. split; [done|]. exists ws. change (requested []) with (@nil request).
    by rewrite !app_nil_r.
  - wp_step. eapply wp_mono; [by eapply pool_step_just|]. intros e s1 (He & ws1 & Hs1 & Hj1).
    cbv beta. wp_step. eapply wp_mono; [by eapply IH|]. intros es s2 (Hes & ws2 & Hs2 & Hj2).
    wp_step. split.
    + unfold effect in He. destruct e as [[t rep]|]; cbn.
      * rewrite He. cbn. by rewrite Hes.
      * by rewrite <- He.
    + exists ws2. split; [done|]. change (l :: ls) with ([l] ++ ls). unfold requested in *.
      rewrite omap_app. by rewrite !app_assoc in *.
Qed.

Lemma accounted_init n : accounted [] [] (pool_init n) [].
Proof.
  exists [], (replicate n None), [], []. split; [done|].
  split; cbn [pool_init workers srv server_init cache sent log dedup_init dedup_tab]; try done.
  - apply Forall2_replicate; done.
  - cbn. by induction n.
  - cbn. by induction n.
  - rewrite fmap_replicate. apply merges_replicate_nil.
  - apply Forall_replicate. split; [done|]. intros H. by destruct H.
Qed.

(** ** Properties *)

(** C6: every write answers a request of its own client. However the steps of [n] workers and
    of the network thread interleave, nothing undefined happens, the cells allocated are those
    queued and those that one worker each holds, and the requests pushed are, in some order,
    those answered, those that the workers have in hand, those that wait and those that the
    queue has dropped, none of them with at most 10240 requests. The writes to the clients
    interleave the replies, one to each request answered, on its own descriptor, and the
    lengths of the replies that workers are about to send. The commands decided, as if one
    after the other, are those of these replies, once each; a legacy request gets its own id
    with the result of a request under that id - its own, or the one that the cache had - and
    so does each result in the log. *)
Theorem replies_are_justified (n : nat) (ls : list label) :
  ∃ es s ws, pool_run ls (pool_init n) = Done (es, s)
    ∧ serial es.*1 ∅ = (es.*2, set_of s)
    ∧ pool_inv s ws ∧ accounted (requested ls) es s ws.
Proof.
  pose proof (pool_run_just [] [] ls _ [] (pool_inv_init n) (accounted_init n)) as H.
  apply wp_done in H as (es & s & Er & Hes & ws & Hs & Hj). exists es, s, ws. split; [done|].
  split; [rewrite <- Hes; reflexivity|]. split; [exact Hs|exact Hj].
Qed.
