(* ===== verification/WorkersLive.v ===== *)
(** * WorkersLive: every request is answered

    userspace/vts/src/req_handler.c: the measure of the work left, over the interleaved workers
    of Workers.v.  A step of a worker that has something to do brings the work forward, so that
    the workers, each given a turn again and again, empty the queue; the account of
    WorkersReplies.v then says where every request has gone. *)
From stdpp Require Import prelude strings list gmap fin_sets.
From Stdlib Require Import Ascii ZArith Lia.
From S2P Require Import Prelude Interleave CString DropOldest Rooms Dedup ReqQueue Protocol ReqHandler Workers WorkersReplies.

(** One turn for each of [n] workers, and [k] such rounds. *)
Definition round (n : nat) : list label := Work <$> seq 0 n.
Definition rounds (k n : nat) : list label := concat (replicate k (round n)).

(** All requests answered: no worker has one, none waits, and no cell is allocated. *)
Definition quiet (n : nat) (s : pool) : Prop :=
  workers s = replicate n WIdle ∧ is_queue (queue s) ∅ [].

(** ** Lemmas *)

Lemma pool_run_steps ls : pool_run ls = run_steps pool_step ls.
Proof. induction ls as [|l ls IH]; [done|]. cbn [pool_run run_steps]. by rewrite IH. Qed.

Lemma pool_run_app ls1 ls2 s (Q : list (bytes * cli_reply) → pool → Prop) :
  wp (pool_run ls1) s (λ es1 s1, wp (pool_run ls2) s1 (λ es2 s2, Q (es1 ++ es2) s2)) →
  wp (pool_run (ls1 ++ ls2)) s Q.
Proof.
  rewrite !pool_run_steps. intros H. apply run_steps_app. eapply wp_mono; [exact H|].
  intros es s1. by rewrite pool_run_steps.
Qed.

Lemma work_step_live i s ws :
  pool_inv s ws →
  wp (pool_step (Work i)) s (λ _ s', ∃ ws', pool_inv s' ws' ∧ progress i s ws s' ws').
Proof.
  intros Hs. cbn [pool_step]. do 2 wp_step. destruct (workers s !! i) as [w|] eqn:E.
  - eapply wp_mono; [by apply worker_step_spec|]. by intros e s' (_ & H).
  - wp_step. exists ws. split; [done|]. split; [done|]. split; [done|]. right. auto.
Qed.

Lemma push_live d fd s ws :
  pool_inv s ws →
  wp (pool_step (Workers.Push d fd)) s (λ _ s', ∃ ws', pool_inv s' ws'
    ∧ length (workers s') = length (workers s) ∧ work_left s' ws' ≤ work_left s ws + 7).
Proof.
  intros Hs. cbn [pool_step]. wp_step. apply wp_on_queue.
  eapply wp_mono; [apply push_spec; apply Hs|]. intros [] q Hq. wp_step. eexists.
  split; [destruct Hs as (_ & Hs); split; [exact Hq|exact Hs]|]. split; [done|].
  unfold work_left. cbn [workers].
  pose proof (sublist_length _ _ (bounded_push_sublist QUEUE_DEPTH ws (mk_request d fd))) as Hl.
  rewrite length_app in Hl. cbn [length] in Hl. lia.
Qed.

(** Any schedule: each push adds seven steps of work at most. *)
Lemma run_account ls s ws :
  pool_inv s ws →
  wp (pool_run ls) s (λ _ s', ∃ ws', pool_inv s' ws' ∧ length (workers s') = length (workers s)
    ∧ work_left s' ws' ≤ work_left s ws + 7 * length (requested ls)).
Proof.
  revert s ws. induction ls as [|l ls IH]; intros s ws Hs; cbn [pool_run].
  - wp_step. exists ws. split_and!; try done. lia.
  - wp_step.
    assert (wp (pool_step l) s (λ _ s', ∃ ws', pool_inv s' ws' ∧ length (workers s') = length (workers s)
      ∧ work_left s' ws' + 7 * length (requested ls) ≤ work_left s ws + 7 * length (requested (l :: ls))))
      as Hstep.
    { destruct l as [d fd|i].
      - change (requested (Workers.Push d fd :: ls)) with ((d, fd) :: requested ls). cbn [length].
        eapply wp_mono; [by apply push_live|]. intros e s1 (ws1 & ? & ? & ?). exists ws1.
        split_and!; try done. lia.
      - change (requested (Work i :: ls)) with (requested ls).
        eapply wp_mono; [by apply work_step_live|]. intros e s1 (ws1 & ? & ? & ? & Hm). exists ws1.
        split_and!; try done. destruct Hm as [Hm|(-> & -> & _)]; lia. }
    eapply wp_mono; [exact Hstep|]. intros e s1 (ws1 & Hs1 & Hn & Hm). cbv beta. wp_step.
    eapply wp_mono; [by apply (IH _ ws1)|]. intros es s2 (ws2 & Hs2 & Hn2 & Hm2). wp_step.
    exists ws2. split; [done|]. split; [congruence|lia].
Qed.

Lemma idle_no_work l : Forall (λ w, w = WIdle) l → sum_list_with remaining l = 0.
Proof. induction 1 as [|w l -> _ IH]; [done|]. exact IH. Qed.

Lemma no_work_idle l : sum_list_with remaining l = 0 → l = replicate (length l) WIdle.
Proof.
  induction l as [|w l IH]; cbn [sum_list_with]; intros H; [done|].
  destruct w; cbn [remaining] in H; try lia. cbn [length replicate]. f_equal. by apply IH.
Qed.

(** Worker [i] has nothing to do. *)
Definition stuck (i : nat) (s : pool) (ws : list work) : Prop :=
  workers s !! i = None ∨ ws = [] ∧ workers s !! i = Some WIdle.

(** A pool whose workers are all stuck has no work left. *)
Lemma stuck_no_work n s ws :
  0 < n → length (workers s) = n → (∀ i, i < n → stuck i s ws) → work_left s ws = 0.
Proof.
  intros Hn Hl H.
  assert (∀ i w, workers s !! i = Some w → ws = [] ∧ w = WIdle) as Hidle.
  { intros i w Hi. destruct (H i) as [E|[-> E]]; [|congruence|].
    - apply lookup_lt_Some in Hi. lia.
    - split; congruence. }
  destruct (lookup_lt_is_Some_2 (workers s) 0) as [w Hw0]; [lia|].
  destruct (Hidle 0 w Hw0) as [-> _]. unfold work_left.
  rewrite idle_no_work; [done|]. apply Forall_lookup. intros i w' Hi. by eapply Hidle.
Qed.

Lemma rounds_spec k n s ws :
  0 < n → length (workers s) = n → pool_inv s ws →
  wp (pool_run (rounds k n)) s (λ _ s', ∃ ws', pool_inv s' ws'
    ∧ length (workers s') = n ∧ work_left s' ws' ≤ work_left s ws - k).
Proof.
  intros Hn Hl Hs.
  assert (rounds k n = Work <$> concat (replicate k (seq 0 n))) as ->.
  { unfold rounds. induction k as [|k IH]; [done|]. cbn [replicate concat]. by rewrite fmap_app, IH. }
  eapply wp_eq; [by rewrite pool_run_steps, run_steps_fmap|].
  eapply wp_mono; [apply (run_steps_rounds _ (λ s ws, pool_inv s ws ∧ length (workers s) = n)
    work_left stuck (seq 0 n)); [| |by split]|].
  - intros i s1 ws1 [Hs1 Hl1]. eapply wp_mono; [by apply work_step_live|].
    intros e s2 (ws2 & Hs2 & Hn2 & _ & Hm). exists ws2. split; [split; [done|congruence]|exact Hm].
  - intros s1 ws1 [Hs1 Hl1] H. apply (stuck_no_work n); [done..|]. intros i Hi. apply H.
    apply elem_of_seq. lia.
  - intros es s' (ws' & [Hs' Hl'] & Hm). by exists ws'.
Qed.

(** With no work left there is no request in the pool. *)
Lemma work_left_quiet n s ws :
  pool_inv s ws → length (workers s) = n → work_left s ws = 0 → quiet n s.
Proof.
  unfold work_left. intros (Hq & _) Hn H. destruct ws; [|simpl in H; lia].
  assert (workers s = replicate n WIdle) as Hidle by (rewrite <- Hn; apply no_work_idle; lia).
  split; [done|]. unfold held in Hq. rewrite Hidle in Hq.
  replace (omap cell_of (replicate n WIdle)) with (@nil nat) in Hq; [exact Hq|]. clear. by induction n.
Qed.

Lemma rounds_quiet k n ls :
  0 < n → 7 * length (requested ls) ≤ k →
  wp (pool_run (ls ++ rounds k n)) (pool_init n) (λ _ s, quiet n s).
Proof.
  intros Hn Hk. apply pool_run_app.
  eapply wp_mono; [apply (run_account ls (pool_init n) []), pool_inv_init|].
  intros es1 s1 (ws1 & Hs1 & Hn1 & Hm1). cbn [workers pool_init] in Hn1.
  rewrite length_replicate in Hn1.
  assert (work_left (pool_init n) [] = 0) as H0.
  { unfold work_left. cbn [workers pool_init length].
    rewrite idle_no_work; [done|]. by apply Forall_replicate. }
  eapply wp_mono; [by apply (rounds_spec k n s1 ws1)|].
  intros es2 s2 (ws2 & Hs2 & Hn2 & Hm2). apply (work_left_quiet _ _ ws2); [done..|lia].
Qed.

Lemma requested_rounds k n : requested (rounds k n) = [].
Proof.
  assert (∀ l, requested (Work <$> l) = []) as Hr by (by induction l).
  unfold rounds, requested. induction k as [|k IH]; [done|]. cbn [replicate concat].
  rewrite omap_app, IH, app_nil_r. apply Hr.
Qed.

(** The account of a quiet pool: the requests [A] answered, with their answers, and those
    dropped, [D]; the commands decided are those answered, and the writes are the replies. *)
Record settled (P : list request) (E : list (bytes * cli_reply)) (writes : list (Z * bytes))
    (A : list (request * verdict)) (D : list request) : Prop := {
  settled_all : P ≡ₚ A.*1 ++ D;
  settled_dropped : length P ≤ QUEUE_DEPTH → D = [];
  settled_answers : Forall (fits P) A;
  settled_decided : E ≡ₚ omap decision A;
  settled_writes : merges (reply_frame <$> A) writes }.

Lemma quiet_account P E n s ws :
  quiet n s → is_queue (queue s) (list_to_set (held s)) ws → accounted P E s ws →
  ∃ A D, settled P E (sent (srv s)) A D.
Proof.
  intros [Hi Hq0] Hq (A & W & Q & D & -> & Hj). exists A, D.
  destruct Hj as [H1 H2 H3 H4 H5 H6 _ _].
  pose proof (is_queue_fun _ _ _ _ _ Hq Hq0) as HQ. destruct Q; [|done].
  rewrite Hi in H1, H6. rewrite fmap_replicate in H6.
  assert (∀ {B} (f : hand → option B), f None = None → omap f W = []) as HW.
  { intros B f Hf. clear -H1 Hf. revert W H1. induction n as [|n IH]; intros W H; cbn in H.
    - by apply Forall2_nil_inv_l in H as ->.
    - apply Forall2_cons_inv_l in H as (o & W' & Ho & H & ->). destruct o; [done|]. cbn.
      rewrite Hf. exact (IH W' H). }
  rewrite HW in H2, H3 by done. rewrite app_nil_r in H3. split; try done.
  by eapply merges_empties_inv.
Qed.

(** ** Properties *)

(** C7: every request is answered, once, with its own reply. After any schedule of pushes and
    steps of [n] workers, letting each worker take a turn seven times per request empties the
    queue: every worker is idle, every cell is freed, and the requests are those answered and
    those that a full queue has dropped, none of them with at most 10240. The writes to the
    clients interleave the replies, one for each request answered, on the descriptor that it
    came from, and no others, the length before the body; to a command it is the reply that it
    was decided with, each command having been decided once, to a legacy request its own id
    with a result of that id. *)
Theorem every_request_answered (n k : nat) (ls : list label) :
  0 < n → 7 * length (requested ls) ≤ k →
  ∃ es s A D, pool_run (ls ++ rounds k n) (pool_init n) = Done (es, s)
    ∧ workers s = replicate n WIdle ∧ is_queue (queue s) ∅ []
    ∧ serial es.*1 ∅ = (es.*2, set_of s) ∧ settled (requested ls) es (sent (srv s)) A D.
Proof.
  intros Hn Hk. pose proof (rounds_quiet k n ls Hn Hk) as H1.
  pose proof (pool_run_just [] [] (ls ++ rounds k n) _ [] (pool_inv_init n) (accounted_init n)) as H2.
  pose proof (wp_and _ _ _ _ H1 H2) as H. clear H1 H2.
  apply wp_done in H as (es & s & Er & Hq & Hes & ws & Hs & Hj).
  assert ([] ++ requested (ls ++ rounds k n) = requested ls) as E.
  { pose proof (requested_rounds k n) as Hr. unfold requested in *. cbn.
    by rewrite omap_app, Hr, app_nil_r. }
  rewrite E in Hj.
  destruct (quiet_account _ _ n _ _ Hq (proj1 Hs) Hj) as (A & D & HA). exists es, s, A, D.
  split; [exact Er|]. split; [apply Hq|]. split; [apply Hq|]. split; [rewrite <- Hes; done|exact HA].
Qed.

Lemma every_request_answered_witness :
  let ls := [Workers.Push (create_text (lit "lab")) 7; Work 0;
             Workers.Push (legacy_text (lit "GET")) 8; Work 1] in
  ∃ es s A, pool_run (ls ++ rounds 14 2) (pool_init 2) = Done (es, s)
    ∧ workers s = [WIdle; WIdle] ∧ merges (reply_frame <$> A) (sent (srv s))
    ∧ A.*1 ≡ₚ [(create_text (lit "lab"), 7); (legacy_text (lit "GET"), 8)]%Z.
Proof.
  intros ls. destruct (every_request_answered 2 14 ls) as (es & s & A & D & E & Hi & _ & _ & [HP HD _ _ Hs]).
  - lia.
  - simpl. lia.
  - rewrite HD, app_nil_r in HP by (pose proof QUEUE_DEPTH_large; simpl; lia).
    exists es, s, A. split; [exact E|]. split; [exact Hi|]. split; [exact Hs|symmetry; exact HP].
Defined.
