(* ===== verification/Cli.v ===== *)
(** * Cli: the command-line client cli/src/system_monitor.c

    [build_payload] turns the arguments into a JSON request, [send_req] is the retry loop
    around one TCP exchange, and [main] maps the outcome to an exit status.  The network is
    an argument: what every system call of every attempt answers.  An attempt leaves a trace
    of what it opened, sent, closed and slept.  The end of the file joins the client to the
    request handler of the server. *)
From stdpp Require Import prelude strings list gmap fin_sets.
From Stdlib Require Import Ascii ZArith Lia.
From S2P Require Import Prelude CString DropOldest Rooms Dedup Protocol ReqHandler.

Local Open Scope Z_scope.

Definition E_OK : Z := 0.
Definition E_BADREQ : Z := 1001.
Definition E_IO : Z := 1100.
Definition E_TIMEOUT : Z := 1101.

(** ** build_payload *)

(** ["key":"value"] *)
Definition field (key value : bytes) : bytes := quoted key ++ lit ":" ++ quoted value.

Definition simple_cmd (cmd : bytes) : bool :=
  strcmp_eq cmd (lit "create") || strcmp_eq cmd (lit "delete") || strcmp_eq cmd (lit "start")
  || strcmp_eq cmd (lit "stop") || strcmp_eq cmd (lit "show").

(** The return value, and the string left in [out] when one is written. *)
Definition build_payload (argv : list bytes) (outsz : nat) : Z * option bytes :=
  match argv with
  | _ :: cmd :: args =>
    if strcmp_eq cmd (lit "help") then (1, None)
    else if simple_cmd cmd then
      match args with
      | target :: name :: _ =>
        (0, Some (snprintf_str outsz
          (lit "{" ++ field (lit "cmd") cmd ++ lit "," ++ field (lit "target") target
           ++ lit "," ++ field (lit "name") name ++ lit "}")))
      | _ => (-1, None)
      end
    else if strcmp_eq cmd (lit "edit") then
      match args with
      | target :: name :: opt :: key :: val :: _ =>
        if negb (strcmp_eq opt (lit "--set")) then (-1, None)
        else
          (0, Some (snprintf_str outsz
            (lit "{" ++ field (lit "cmd") cmd ++ lit "," ++ field (lit "target") target
             ++ lit "," ++ field (lit "name") name ++ lit "," ++ field (lit "key") key
             ++ lit "," ++ field (lit "val") val ++ lit "}")))
      | _ => (-1, None)
      end
    else (-1, None)
  | _ => (-1, None)
  end.

(** ** send_req *)

(** What the system answers to the calls of one attempt; [a_data] are the reads of the reply
    body, which fail or time out when they run out. *)
Record attempt := mk_attempt {
  a_getaddrinfo : Z;
  a_socket : Z;
  a_connect : Z;
  a_write_len : Z;
  a_write_payload : Z;
  a_read_len : Z * bytes;
  a_data : list bytes }.

Inductive event := Open (fd : Z) | Send (fd : Z) (b : bytes) | Close (fd : Z) | Sleep (secs : Z).

(** The loop that reads the body: the bytes stored from [resp] on, and whether all came. *)
Fixpoint read_body (rlen : nat) (got : bytes) (data : list bytes) : bytes * bool :=
  if (length got <? rlen)%nat then
    match data with
    | [] => (got, false)
    | d :: data =>
      match take (rlen - length got) d with
      | [] => (got, false)
      | d => read_body rlen (got ++ d) data
      end
    end
  else (got, true).

(** One turn of the loop body: the reply, or the error to remember, and what was done. *)
Definition exchange (a : attempt) (payload : bytes) (rspsz : nat) : (bytes + Z) * list event :=
  if negb (a_getaddrinfo a =? 0) then (inr E_IO, [])
  else
    let fd := a_socket a in
    if fd <? 0 then (inr E_IO, [])
    else if a_connect a <? 0 then (inr E_IO, [Open fd; Close fd])
    else
      let len := Z.of_nat (strlen payload) in
      let hdr := store32 (be32 (u32 len)) in
      if negb (a_write_len a =? 4) then (inr E_IO, [Open fd; Send fd hdr; Close fd])
      else if negb (a_write_payload a =? len) then
        (inr E_IO, [Open fd; Send fd hdr; Send fd payload; Close fd])
      else
        let evs := [Open fd; Send fd hdr; Send fd payload; Close fd] in
        let '(n, w) := a_read_len a in
        if negb (n =? 4) then (inr E_TIMEOUT, evs)
        else
          let rlen := le32_to_host (load32 w) in
          let rlen := if Z.of_nat rspsz <=? rlen then Z.of_nat rspsz - 1 else rlen in
          match read_body (Z.to_nat rlen) [] (a_data a) with
          | (got, true) => (inl got, evs)
          | (_, false) => (inr E_TIMEOUT, evs)
          end.

Section send_req.
Context (net : nat → attempt) (payload : bytes) (retry_max backoff_ms : Z) (rspsz : nat).

(** [i] counts the turns made; [attempt] is the C variable at the loop test. *)
Fixpoint send_req_loop (fuel : nat) (attempt : Z) (i : nat) (last_err : Z) :
    res ((bytes + Z) * list event) :=
  match fuel with
  | O => NoFuel
  | S fuel =>
    if attempt <=? retry_max then
      let attempt := attempt + 1 in
      let '(r, evs) := exchange (net i) payload rspsz in
      match r with
      | inl got => Done (inl got, evs)
      | inr err =>
        let nap := if attempt <=? retry_max then [Sleep (u32 (backoff_ms * 1000))] else [] in
        match send_req_loop fuel attempt (S i) err with
        | Done (r, evs') => Done (r, evs ++ nap ++ evs')
        | Undef => Undef
        | NoFuel => NoFuel
        end
      end
    else Done (inr last_err, [])
  end.

Definition send_req (fuel : nat) : res ((bytes + Z) * list event) := send_req_loop fuel 0 0 E_IO.
End send_req.

(** ** main *)

Record env := mk_env { VTS_RETRY_MAX : option bytes; VTS_BACKOFF_MS : option bytes }.

Definition USAGE : bytes :=
  lit "system-monitor create|delete|start|stop|edit|show|help [ARGS]" ++ [LF] ++
  lit "Examples:" ++ [LF] ++
  lit " system-monitor create room cpu_room" ++ [LF] ++
  lit " system-monitor show room cpu_room --via vts" ++ [LF].

(** Exit status, the text given to [puts], and what happened on the network. *)
Definition main (argv : list bytes) (e : env) (net : nat → attempt) (fuel : nat) :
    res (Z * option bytes * list event) :=
  match argv with
  | _ :: cmd :: _ =>
    if strcmp_eq cmd (lit "help") then Done (0, Some USAGE, [])
    else
      let retry_max := from_option atoi 3 (VTS_RETRY_MAX e) in
      let backoff := from_option atoi 50 (VTS_BACKOFF_MS e) in
      match build_payload argv 512 with
      | (r, None) => Done (if r =? 1 then 0 else 3, Some USAGE, [])
      | (r, Some payload) =>
        match send_req net payload retry_max backoff 1024 fuel with
        | Done (inl resp, evs) => Done (0, Some (cstr resp), evs)
        | Done (inr _, evs) => Done (4, None, evs)
        | Undef => Undef
        | NoFuel => NoFuel
        end
      end
  | _ => Done (2, Some USAGE, [])
  end.

(** ** Lemmas on the retry loop *)

Definition opened (evs : list event) : list Z :=
  omap (λ e, match e with Open fd => Some fd | _ => None end) evs.
Definition closed (evs : list event) : list Z :=
  omap (λ e, match e with Close fd => Some fd | _ => None end) evs.
Definition slept (evs : list event) : list Z :=
  omap (λ e, match e with Sleep t => Some t | _ => None end) evs.

Lemma exchange_balanced a payload rspsz :
  let evs := (exchange a payload rspsz).2 in opened evs = closed evs ∧ slept evs = [].
Proof. unfold exchange. cbv zeta. repeat (case_match; try by split). Qed.

Lemma read_body_complete rlen got data :
  Forall (λ d, d ≠ []) data → length (got ++ concat data) = rlen →
  read_body rlen got data = (got ++ concat data, true).
Proof.
  revert got. induction data as [|d data IH]; intros got Hne Hl; cbn [read_body concat] in *.
  - rewrite app_nil_r in *. destruct (Nat.ltb_spec (length got) rlen); [lia|done].
  - apply Forall_cons in Hne as [Hd Hne]. rewrite !length_app in Hl.
    assert (0 < length d)%nat by (destruct d; simpl; [done|lia]).
    destruct (Nat.ltb_spec (length got) rlen); [|lia].
    rewrite (take_ge d) by lia. destruct d as [|b d]; [done|].
    rewrite IH; [by rewrite <- app_assoc|done|]. rewrite <- app_assoc, !length_app. lia.
Qed.

Lemma read_body_bound rlen got data :
  (length got ≤ rlen)%nat → (length (read_body rlen got data).1 ≤ rlen)%nat ∧
  ((read_body rlen got data).2 = true → length (read_body rlen got data).1 = rlen).
Proof.
  revert got. induction data as [|d data IH]; intros got Hl; cbn [read_body];
    destruct (Nat.ltb_spec (length got) rlen) as [Hlt|Hge]; simpl; try (split; [lia|done || lia]).
  destruct (take (rlen - length got) d) as [|b d'] eqn:E; [by split|].
  apply IH. rewrite length_app, <- E, length_take. lia.
Qed.

Section send_req_lemmas.
Context (net : nat → attempt) (payload : bytes) (retry_max backoff_ms : Z) (rspsz : nat).
Abbreviation result_of := (λ i, (exchange (net i) payload rspsz).1).
Abbreviation loop := (send_req_loop net payload retry_max backoff_ms rspsz).

(** What the rest of the loop does from the test with [attempt = i]. *)
Lemma send_req_loop_spec fuel i last_err :
  (Z.to_nat (retry_max + 1) - i < fuel)%nat →
  ∃ r evs, loop fuel (Z.of_nat i) i last_err = Done (r, evs) ∧ opened evs = closed evs ∧
    ∃ naps, slept evs = replicate naps (u32 (backoff_ms * 1000)) ∧
    match r with
    | inl got => Z.of_nat (i + naps) ≤ retry_max ∧ result_of (i + naps)%nat = inl got ∧
        ∀ j, (i ≤ j < i + naps)%nat → ∃ e, result_of j = inr e
    | inr err => (naps = Z.to_nat (retry_max + 1) - i - 1)%nat ∧
        (∀ j, (i ≤ j)%nat → Z.of_nat j ≤ retry_max → ∃ e, result_of j = inr e) ∧
        (retry_max < Z.of_nat i ∧ err = last_err ∨
         Z.of_nat i ≤ retry_max ∧ result_of (Z.to_nat retry_max) = inr err)
    end.
Proof.
  revert i last_err. induction fuel as [|fuel IH]; intros i last_err Hf; [lia|].
  cbn [send_req_loop]. destruct (Z.leb_spec (Z.of_nat i) retry_max) as [Hi|Hi].
  2:{ exists (inr last_err), []. split; [done|]. split; [done|]. exists 0%nat.
      split; [done|]. split; [lia|]. split; [intros; lia|]. by left. }
  pose proof (exchange_balanced (net i) payload rspsz) as [Hb Hsl].
  destruct (exchange (net i) payload rspsz) as [[got|err] evs] eqn:E; cbn [snd] in Hb, Hsl.
  - exists (inl got), evs. split; [done|]. split; [done|]. exists 0%nat. rewrite Nat.add_0_r, E.
    split; [done|]. split; [done|]. split; [done|]. intros; lia.
  - replace (Z.of_nat i + 1) with (Z.of_nat (S i)) by lia.
    destruct (IH (S i) err) as (r & evs' & -> & Hb' & naps & Hn & Hr); [lia|].
    destruct (Z.leb_spec (Z.of_nat (S i)) retry_max) as [Hl|Hl].
    + eexists r, _. split; [done|]. unfold opened, closed, slept in *. rewrite !omap_app. simpl.
      split; [congruence|]. exists (S naps). split; [by rewrite Hsl, Hn|]. destruct r as [got|err'].
      * destruct Hr as (H1 & H2 & H3). rewrite Nat.add_succ_r. rewrite Nat.add_succ_l in *.
        split; [done|]. split; [done|]. intros j Hj. destruct (decide (j = i)) as [->|]; [|apply H3; lia].
        rewrite E. by eexists.
      * destruct Hr as (H1 & H2 & H3). split; [lia|]. split.
        -- intros j Hj Hjm. destruct (decide (j = i)) as [->|]; [|apply H2; lia]. rewrite E. by eexists.
        -- right. split; [done|]. by destruct H3 as [[? _]|[_ ?]]; [lia|].
    + eexists r, _. split; [done|]. unfold opened, closed, slept in *. rewrite !omap_app. simpl.
      split; [congruence|]. exists naps. split; [by rewrite Hsl, Hn|]. destruct r as [got|err'].
      * destruct Hr as (H1 & _). lia.
      * destruct Hr as (H1 & H2 & H3). split; [lia|]. split.
        -- intros j Hj Hjm. destruct (decide (j = i)) as [->|]; [|apply H2; lia]. rewrite E. by eexists.
        -- right. split; [done|]. destruct H3 as [[? ->]|[? _]]; [|lia].
           replace (Z.to_nat retry_max) with i by lia. by rewrite E.
Qed.
End send_req_lemmas.

(** ** Commands on the server *)

Inductive command := CCreate | CDelete | CStart | CStop | CShow.

Definition word (c : command) : bytes :=
  match c with
  | CCreate => lit "create" | CDelete => lit "delete" | CStart => lit "start"
  | CStop => lit "stop" | CShow => lit "show"
  end.

(** What a command on room [n] means for the set of rooms, with its error code. *)
Definition meaning (c : command) (n : bytes) (X : gset bytes) : Z * gset bytes :=
  match c with
  | CCreate =>
      if decide (n ∈ X) then (1003, X)
      else if decide (MAX_ROOMS ≤ size X)%nat then (E_IO, X)
      else (E_OK, {[n]} ∪ X)
  | CDelete => if decide (n ∈ X) then (E_OK, X ∖ {[n]}) else (1002, X)
  | CStart | CStop | CShow => (if decide (n ∈ X) then E_OK else 1002, X)
  end.

Definition request_text (c : command) (name : bytes) : bytes :=
  lit "{" ++ field (lit "cmd") (word c) ++ lit "," ++ field (lit "target") (lit "room")
  ++ lit "," ++ field (lit "name") name ++ lit "}".

Lemma length_request_text c name : (length (request_text c name) ≤ 48 + length name)%nat.
Proof.
  unfold request_text, field. rewrite !length_app, !length_quoted. destruct c; simpl; lia.
Qed.

Lemma build_payload_text c prog name :
  (length name ≤ 463)%nat →
  build_payload [prog; word c; lit "room"; name] 512 = (0, Some (request_text c name)).
Proof.
  intros Hl. pose proof (length_request_text c name).
  transitivity (0, Some (snprintf_str 512 (request_text c name))); [by destruct c|].
  unfold snprintf_str. by rewrite take_ge by lia.
Qed.

(** The three fields as the server reads them back. *)
Lemma request_fields c name :
  QUOTE ∉ name →
  json_get_str (request_text c name) (lit "cmd") 32 = Some (word c) ∧
  json_get_str (request_text c name) (lit "target") 32 = Some (lit "room") ∧
  json_get_str (request_text c name) (lit "name") 64 = Some (take 63 name).
Proof.
  intros Hq. split_and!.
  - rewrite (json_get_str_field _ _ (word c) (lit "," ++ field (lit "target") (lit "room")
      ++ lit "," ++ field (lit "name") name ++ lit "}")).
    + by destruct c.
    + simpl. lia.
    + by_evaluation.
    + destruct c; by_evaluation.
    + destruct c; reflexivity.
  - rewrite (json_get_str_field _ _ (lit "room") (lit "," ++ field (lit "name") name ++ lit "}")).
    + done.
    + simpl. lia.
    + by_evaluation.
    + by_evaluation.
    + destruct c; reflexivity.
  - apply (json_get_str_field _ _ name (lit "}")).
    + simpl. lia.
    + by_evaluation.
    + done.
    + destruct c; reflexivity.
Qed.

Lemma cli_step_meaning c name X :
  let '(rep, X') := cli_step set_step (word c) (lit "room") name X in
  meaning c name X = (reply_code rep, X').
Proof.
  destruct c; unfold cli_step; simpl; unfold found; simpl; repeat case_decide; done.
Qed.

Lemma reply_body_code rp : ∃ msg data, reply_body rp = json_body (reply_code rp) msg data.
Proof. destruct rp; by eexists _, _. Qed.

Lemma nul_free_request_text c name : nul_free name → nul_free (request_text c name).
Proof.
  intros Hn. unfold request_text, field, quoted.
  rewrite !nul_free_app, !nul_free_cons, !nul_free_app.
  assert (∀ s, bool_decide (NUL ∉ s) = true → nul_free s) as Hd
    by (intros s ?%bool_decide_eq_true_1; done).
  split_and!; try done; try (apply Hd; vm_compute; reflexivity).
  destruct c; apply Hd; vm_compute; reflexivity.
Qed.

(** ** Properties *)

(** A command does what it means. For each of the five commands on any room name that
    fits the protocol (no quote, no NUL, at most 63 bytes), the payload the client builds
    fits its buffer, and the server that processes it, in any reachable state, changes the
    set of rooms as the command means, leaves the cache and the log alone, and replies once,
    with the error code of the outcome: 0, 1002 not found, 1003 exists, 1100 full. *)
Theorem cli_command_effect (c : command) (prog name : bytes) (fd : Z) (s : server)
    (X : gset bytes) (w : window) :
  srv_rep s (X, w) → nul_free name → QUOTE ∉ name → (length name ≤ 63)%nat →
  let '(code, X') := meaning c name X in
  ∃ payload s' msg data,
    build_payload [prog; word c; lit "room"; name] 512 = (0, Some payload) ∧
    (0 < length payload ≤ 111)%nat ∧
    process_one (payload ++ [NUL]) fd s = Done (tt, s') ∧ srv_rep s' (X', w) ∧
    sent s' = sent s ++ frame fd (json_body code msg data) ∧ log s' = log s.
Proof.
  intros Hs Hn Hq Hl. pose proof (cli_step_meaning c name X) as Hm.
  pose proof (process_one_spec (request_text c name ++ [NUL]) fd s (X, w) Hs) as H.
  rewrite cstr_app_nul in H by by apply nul_free_request_text.
  unfold spec_answer, answer, cli_request in H.
  destruct (request_fields c name Hq) as (E1 & E2 & E3).
  rewrite E1, E2, E3, take_ge in H by lia. cbn [fst snd] in H.
  destruct (strstr (request_text c name) (quoted (lit "cmd"))) eqn:E; [|by destruct c].
  destruct (cli_step set_step (word c) (lit "room") name X) as [rp X']. rewrite Hm.
  destruct H as (s' & Hp & Hs' & Ho & Hlg & _). destruct (reply_body_code rp) as (msg & data & Eb).
  exists (request_text c name), s', msg, data. rewrite app_nil_r in Hlg. rewrite <- Eb.
  split; [by apply build_payload_text; lia|]. pose proof (length_request_text c name).
  split; [|done]. split; [|lia]. unfold request_text. simpl. lia.
Qed.

Lemma cli_command_effect_witness :
  ∃ payload s' msg data,
    build_payload [lit "sm"; word CCreate; lit "room"; lit "cpu_room"] 512 = (0, Some payload) ∧
    process_one (payload ++ [NUL]) 9 server_init = Done (tt, s') ∧
    srv_rep s' ({[lit "cpu_room"]}, []) ∧ sent s' = frame 9 (json_body 0 msg data).
Proof.
  pose proof (cli_command_effect CCreate (lit "sm") (lit "cpu_room") 9 server_init ∅ []
    srv_rep_init) as H.
  assert (meaning CCreate (lit "cpu_room") ∅ = (0, {[lit "cpu_room"]} ∪ ∅)) as E by reflexivity.
  rewrite E, (right_id_L ∅ (∪)) in H.
  destruct H as (p & s' & m & d & E1 & _ & E2 & E3 & E4 & _).
  - by_evaluation.
  - by_evaluation.
  - simpl. lia.
  - exists p, s', m, d. split; [exact E1|]. split; [exact E2|]. split; [exact E3|exact E4].
Defined.

(** A reply is read back whole. If the exchange gets as far as the reply, and the server's
    reply is a frame whose body fits the client's buffer, then the client returns exactly
    this body, whatever pieces the reads deliver. *)
Theorem cli_reads_reply (a : attempt) (payload body : bytes) (rspsz : nat) :
  a_getaddrinfo a = 0 → 0 ≤ a_socket a → 0 ≤ a_connect a →
  a_write_len a = 4 → a_write_payload a = Z.of_nat (length payload) →
  Z.of_nat rspsz < 2 ^ 32 → (length body < rspsz)%nat →
  a_read_len a = (4, store32 (be32 (Z.of_nat (length body)))) →
  Forall (λ d, d ≠ []) (a_data a) → concat (a_data a) = body →
  exchange a payload rspsz = (inl body, [Open (a_socket a);
    Send (a_socket a) (store32 (be32 (u32 (Z.of_nat (length payload)))));
    Send (a_socket a) payload; Close (a_socket a)]).
Proof.
  intros H1 H2 H3 H4 H5 Hsz Hb H6 Hne Hd. unfold exchange. rewrite H1, H4, H5, H6.
  change (negb (0 =? 0)) with false. change (negb (4 =? 4)) with false. cbv iota zeta.
  destruct (Z.ltb_spec (a_socket a) 0); [lia|]. destruct (Z.ltb_spec (a_connect a) 0); [lia|].
  unfold strlen. rewrite Z.eqb_refl. cbn [negb].
  rewrite frame_header by (unfold in_u; lia).
  destruct (Z.leb_spec (Z.of_nat rspsz) (Z.of_nat (length body))); [lia|]. rewrite Nat2Z.id.
  rewrite read_body_complete; [|done|by rewrite Hd]. by rewrite Hd.
Qed.

Lemma cli_reads_reply_witness :
  exchange (mk_attempt 0 3 0 4 2 (4, store32 (be32 5)) [lit "he"; lit "llo"]) (lit "hi") 1024
  = (inl (lit "hello"), [Open 3; Send 3 (store32 (be32 (u32 2))); Send 3 (lit "hi"); Close 3]).
Proof.
  apply (cli_reads_reply (mk_attempt 0 3 0 4 2 (4, store32 (be32 5)) [lit "he"; lit "llo"])
    (lit "hi") (lit "hello") 1024); try reflexivity; try (simpl; lia).
  repeat constructor; done.
Defined.

(** The retry loop. With any network, [send_req] ends after at most [retry_max + 1]
    attempts, never leaks a socket, and sleeps between attempts only: it returns the reply
    of the first attempt that succeeds, after one sleep per failed attempt before it, or,
    when all of them fail, the error of the last one (E_IO when no attempt is allowed).
    Every sleep is of [backoff_ms * 1000] seconds. *)
Theorem send_req_retries (net : nat → attempt) (payload : bytes) (retry_max backoff_ms : Z)
    (rspsz fuel : nat) :
  (Z.to_nat (retry_max + 1) < fuel)%nat →
  ∃ r evs, send_req net payload retry_max backoff_ms rspsz fuel = Done (r, evs) ∧
    opened evs = closed evs ∧
    ∃ naps, slept evs = replicate naps (u32 (backoff_ms * 1000)) ∧
    match r with
    | inl got => Z.of_nat naps ≤ retry_max ∧ (exchange (net naps) payload rspsz).1 = inl got ∧
        ∀ j, (j < naps)%nat → ∃ e, (exchange (net j) payload rspsz).1 = inr e
    | inr err => (naps = Z.to_nat (retry_max + 1) - 1)%nat ∧
        (∀ j, Z.of_nat j ≤ retry_max → ∃ e, (exchange (net j) payload rspsz).1 = inr e) ∧
        (retry_max < 0 ∧ err = E_IO ∨
         0 ≤ retry_max ∧ (exchange (net (Z.to_nat retry_max)) payload rspsz).1 = inr err)
    end.
Proof.
  intros Hf. destruct (send_req_loop_spec net payload retry_max backoff_ms rspsz fuel 0 E_IO)
    as (r & evs & E & Hb & naps & Hn & Hr); [lia|].
  exists r, evs. split; [exact E|]. split; [done|]. exists naps. split; [done|]. destruct r.
  - destruct Hr as (? & ? & Hj). split; [done|]. split; [done|]. intros j ?. apply Hj. lia.
  - destruct Hr as (? & Hj & ?). split; [lia|]. split; [|done]. intros j ?. apply Hj; lia.
Qed.

Lemma send_req_retries_witness :
  ∃ r evs, send_req (λ _, mk_attempt 0 3 (-1) 0 0 (0, []) []) (lit "hi") 3 50 1024 5 = Done (r, evs)
    ∧ r = inr E_IO ∧ slept evs = [50000; 50000; 50000].
Proof.
  destruct (send_req_retries (λ _, mk_attempt 0 3 (-1) 0 0 (0, []) []) (lit "hi") 3 50 1024 5)
    as (r & evs & E & _); [simpl; lia|].
  exists r, evs. split; [exact E|]. vm_compute in E. injection E as <- <-. by split.
Defined.
