(* ===== verification/Recv.v ===== *)
(** * Recv: the receiver thread of userspace/vts/src/threads_recv.c

    [thr_recv] reads a named pipe through epoll and cuts the stream into lines of at most
    4095 bytes, each pushed as a C string into the message ring.  The descriptor's
    registration with epoll is part of the state, with the documented behaviour of the
    system: an event is only reported for a registered descriptor, closing a descriptor ends
    its registration, and EPOLL_CTL_MOD fails for a descriptor that is not registered. *)
From stdpp Require Import prelude strings list.
From Stdlib Require Import Ascii ZArith Lia.
From S2P Require Import Prelude CString.

(** [sizeof(line) - 1] *)
Definition LINE_MAX : nat := 4095.

Record recv := mk_recv {
  fd : Z;
  registered : bool;             (* [fd] is in the interest list of [ep] *)
  line : bytes;                  (* the first [lpos] bytes of [line] *)
  pushed_lines : list bytes      (* calls of [vts_fifo_push_spsc] *) }.

Definition set_fd (f : Z) (r : bool) (s : recv) : recv := mk_recv f r (line s) (pushed_lines s).

(** [handle_line]: the callee sees a C string. *)
Definition handle_line (l : bytes) (s : recv) : recv :=
  mk_recv (fd s) (registered s) (line s) (pushed_lines s ++ [cstr l]).

(** The body of the [for] loop over the bytes read. *)
Definition recv_byte (s : recv) (b : ascii) : recv :=
  if Ascii.eqb b LF || (length (line s) =? LINE_MAX) then
    let s := if 0 <? length (line s) then handle_line (line s) s else s in
    mk_recv (fd s) (registered s) [] (pushed_lines s)
  else mk_recv (fd s) (registered s) (line s ++ [b]) (pushed_lines s).

(** What one turn of the outer loop meets: [epoll_wait] reports nothing; an event with
    EPOLLHUP or EPOLLERR; a readable descriptor and what [read] then answers.  [next] is the
    descriptor that the reopening of the pipe yields. *)
Inductive event :=
  | Quiet
  | Hup (next : Z)
  | Readable (r : bytes + Z) (next : Z).

Definition EAGAIN : Z := 11.
Definition EINTR : Z := 4.

(** [close(fd); fd = open_fifo_ro(path);] *)
Definition reopen (next : Z) (s : recv) : recv := set_fd next false s.

(** [epoll_ctl(ep, EPOLL_CTL_MOD, fd, &ev)]: changes the events of a registered descriptor,
    and fails for any other. *)
Definition epoll_mod (s : recv) : recv := s.

Definition recv_turn (s : recv) (e : event) : recv :=
  if negb (registered s) then s
  else
    match e with
    | Quiet => s
    | Hup next =>
      let s := reopen next s in
      if (fd s <? 0)%Z then s else epoll_mod s
    | Readable (inr e) next =>
      if (e =? EAGAIN)%Z || (e =? EINTR)%Z then s else reopen next s
    | Readable (inl []) next => reopen next s
    | Readable (inl d) _ => foldl recv_byte s d
    end.

Definition recv_init (f : Z) : recv := mk_recv f true [] [].

(** ** The contract of the line splitter *)

(** The lines of a stream, and the unfinished one at its end. *)
Fixpoint split_lines (cur l : bytes) : list bytes * bytes :=
  match l with
  | [] => ([], cur)
  | b :: l =>
    if Ascii.eqb b LF then let '(ls, r) := split_lines [] l in (cur :: ls, r)
    else split_lines (cur ++ [b]) l
  end.

(** The pieces of a line: blocks of 4095 bytes, the byte after a full block left out.  The
    last piece is what is left, possibly empty. *)
Fixpoint blocks (fuel : nat) (l : bytes) : list bytes * bytes :=
  match fuel with
  | O => ([], l)
  | S fuel =>
    if length l <=? LINE_MAX then ([], l)
    else let '(bs, r) := blocks fuel (drop (S LINE_MAX) l) in (take LINE_MAX l :: bs, r)
  end.

Definition pieces (l : bytes) : list bytes * bytes := blocks (length l) l.

Definition nonempty (l : bytes) : bool := 0 <? length l.

(** What a finished line delivers. *)
Definition line_messages (l : bytes) : list bytes :=
  cstr <$> filter nonempty ((pieces l).1 ++ [(pieces l).2]).

(** ** Lemmas *)

Lemma LINE_MAX_pos : 0 < LINE_MAX.
Proof. unfold LINE_MAX. lia. Qed.

#[global] Opaque LINE_MAX.

Lemma blocks_fuel f g l : length l ≤ f → length l ≤ g → blocks f l = blocks g l.
Proof.
  revert g l. induction f as [|f IH]; intros [|g] l Hf Hg; cbn [blocks]; try done.
  - by rewrite (proj2 (Nat.leb_le _ _)) by lia.
  - by rewrite (proj2 (Nat.leb_le _ _)) by lia.
  - destruct (Nat.leb_spec (length l) LINE_MAX); [done|].
    rewrite (IH g); [done|..]; rewrite length_drop; lia.
Qed.

Lemma pieces_short l : length l ≤ LINE_MAX → pieces l = ([], l).
Proof.
  intros Hl. unfold pieces. destruct (length l) eqn:E; cbn [blocks]; [done|].
  by rewrite (proj2 (Nat.leb_le _ _)) by lia.
Qed.

Lemma pieces_nil : pieces [] = ([], []).
Proof. done. Qed.

Lemma pieces_long l : LINE_MAX < length l →
  pieces l = let '(bs, r) := pieces (drop (S LINE_MAX) l) in (take LINE_MAX l :: bs, r).
Proof.
  intros Hl. unfold pieces at 1. destruct (length l) as [|n] eqn:E; cbn [blocks]; [lia|].
  rewrite E. destruct (Nat.leb_spec (S n) LINE_MAX); [lia|].
  unfold pieces. by rewrite (blocks_fuel n (length (drop (S LINE_MAX) l)))
    by (rewrite length_drop; lia).
Qed.

(** One more byte at the end of a line. *)
Lemma pieces_snoc l b :
  (pieces (l ++ [b])).1 = (pieces l).1 ++ (if length (pieces l).2 =? LINE_MAX then [(pieces l).2] else [])
  ∧ (pieces (l ++ [b])).2 = (if length (pieces l).2 =? LINE_MAX then [] else (pieces l).2 ++ [b]).
Proof.
  induction l as [l IH] using (induction_ltof1 _ length). unfold ltof in IH.
  destruct (decide (length l ≤ LINE_MAX)) as [Hs|Hl].
  - rewrite (pieces_short l) by done. cbn [fst snd]. destruct (Nat.eqb_spec (length l) LINE_MAX).
    + rewrite pieces_long by (rewrite length_app; simpl; lia).
      rewrite drop_ge by (rewrite length_app; simpl; lia). rewrite take_app_le, take_ge by lia.
      rewrite pieces_short by (simpl; lia). done.
    + rewrite pieces_short by (rewrite length_app; simpl; lia). done.
  - pose proof LINE_MAX_pos. rewrite (pieces_long l) by lia.
    rewrite pieces_long by (rewrite length_app; simpl; lia).
    rewrite drop_app_le, take_app_le by lia.
    destruct (IH (drop (S LINE_MAX) l)) as [E1 E2]; [rewrite length_drop; lia|].
    destruct (pieces (drop _ l ++ [b])) as [bs' r'], (pieces (drop _ l)) as [bs r].
    cbn [fst snd] in *. by rewrite E1, E2.
Qed.

Lemma pieces_last_short l : length (pieces l).2 ≤ LINE_MAX.
Proof.
  induction l as [l IH] using (induction_ltof1 _ length). unfold ltof in IH.
  destruct (decide (length l ≤ LINE_MAX)) as [Hs|Hl]; [by rewrite pieces_short|].
  pose proof LINE_MAX_pos. rewrite (pieces_long l) by lia.
  specialize (IH (drop (S LINE_MAX) l)). destruct (pieces (drop _ l)) as [bs r]. apply IH.
  rewrite length_drop. lia.
Qed.

Definition full_pieces (l : bytes) : list bytes := cstr <$> filter nonempty (pieces l).1.

Lemma line_messages_split l :
  line_messages l = full_pieces l ++ (cstr <$> filter nonempty [(pieces l).2]).
Proof. unfold line_messages, full_pieces. by rewrite filter_app, fmap_app. Qed.

Lemma flush_line l (s : recv) :
  (if 0 <? length l then handle_line l s else s) =
  mk_recv (fd s) (registered s) (line s) (pushed_lines s ++ (cstr <$> filter nonempty [l])).
Proof.
  rewrite filter_cons. unfold nonempty. destruct (Nat.ltb_spec 0 (length l)).
  - by rewrite decide_True.
  - rewrite decide_False by (by intros ?%Is_true_true). rewrite filter_nil. simpl.
    rewrite app_nil_r. by destruct s.
Qed.

Lemma recv_byte_eq s b :
  recv_byte s b =
  if Ascii.eqb b LF || (length (line s) =? LINE_MAX) then
    mk_recv (fd s) (registered s) [] (pushed_lines s ++ (cstr <$> filter nonempty [line s]))
  else mk_recv (fd s) (registered s) (line s ++ [b]) (pushed_lines s).
Proof. unfold recv_byte. by rewrite flush_line. Qed.

(** The splitter against the contract, from any point of a line. *)
Lemma recv_bytes l cur s before :
  line s = (pieces cur).2 → pushed_lines s = before ++ full_pieces cur →
  let s' := foldl recv_byte s l in
  let '(ls, r) := split_lines cur l in
  fd s' = fd s ∧ registered s' = registered s ∧ line s' = (pieces r).2 ∧
  pushed_lines s' = before ++ (ls ≫= line_messages) ++ full_pieces r.
Proof.
  revert cur s before. induction l as [|b l IH]; intros cur s before Hline Hpush; cbn [foldl split_lines].
  { split_and!; done. }
  rewrite recv_byte_eq, Hline, Hpush.
  destruct (Ascii.eqb_spec b LF) as [->|Hb]; cbn [orb].
  - specialize (IH [] (mk_recv (fd s) (registered s) []
      ((before ++ full_pieces cur) ++ (cstr <$> filter nonempty [(pieces cur).2])))
      (before ++ line_messages cur)). cbv zeta in IH.
    destruct (split_lines [] l) as [ls r]. destruct IH as (H1 & H2 & H3 & H4).
    + done.
    + cbn [pushed_lines]. change (full_pieces []) with (@nil bytes).
      by rewrite line_messages_split, app_nil_r, !app_assoc.
    + split_and!; [done..|]. rewrite H4. cbn [mbind list_bind]. by rewrite <- !app_assoc.
  - destruct (pieces_snoc cur b) as [E1 E2].
    assert (full_pieces (cur ++ [b]) = full_pieces cur ++
      (if length (pieces cur).2 =? LINE_MAX then cstr <$> filter nonempty [(pieces cur).2] else []))
      as E3.
    { unfold full_pieces. rewrite E1, filter_app, fmap_app. by destruct (_ =? _). }
    destruct (length (pieces cur).2 =? LINE_MAX) eqn:El.
    + match goal with |- context [foldl recv_byte ?s' l] => apply (IH (cur ++ [b]) s' before) end;
        cbn [line pushed_lines]; [by rewrite E2|]. by rewrite E3, app_assoc.
    + match goal with |- context [foldl recv_byte ?s' l] => apply (IH (cur ++ [b]) s' before) end;
        cbn [line pushed_lines]; [by rewrite E2|]. by rewrite E3, app_nil_r.
Qed.

(** Data only, however it is cut into reads. *)
Lemma data_turns s (reads : list bytes) (next : Z) :
  registered s = true → Forall (λ d, d ≠ []) reads →
  foldl recv_turn s ((λ d, Readable (inl d) next) <$> reads) = foldl recv_byte s (concat reads).
Proof.
  intros Hreg Hne. revert s Hreg. induction Hne as [|d reads Hd _ IH]; intros s Hreg; [done|].
  cbn [fmap list_fmap foldl concat]. rewrite foldl_app. unfold recv_turn at 2. rewrite Hreg.
  destruct d as [|b d]; [done|]. cbn [negb]. apply IH.
  clear -Hreg. revert s Hreg. induction (b :: d) as [|x l IH]; intros s Hreg; [done|]. cbn [foldl].
  apply IH. rewrite recv_byte_eq. by destruct (_ || _).
Qed.

Lemma short_line_messages ls :
  Forall (λ l, length l ≤ LINE_MAX) ls → ls ≫= line_messages = cstr <$> filter nonempty ls.
Proof.
  induction 1 as [|l ls Hl _ IH]; [done|]. cbn [mbind list_bind]. rewrite IH, filter_cons.
  unfold line_messages at 1. rewrite pieces_short by exact Hl. cbn [fst snd app].
  rewrite filter_cons. by destruct (decide _).
Qed.

(** The splitter from its start. *)
Lemma reads_split (f : Z) (reads : list bytes) (next : Z) :
  Forall (λ d, d ≠ []) reads →
  let s := foldl recv_turn (recv_init f) ((λ d, Readable (inl d) next) <$> reads) in
  let '(ls, r) := split_lines [] (concat reads) in
  line s = (pieces r).2 ∧ pushed_lines s = (ls ≫= line_messages) ++ full_pieces r.
Proof.
  intros Hne s. unfold s. rewrite data_turns by done.
  pose proof (recv_bytes (concat reads) [] (recv_init f) []) as H. cbv zeta in H.
  destruct (split_lines [] (concat reads)) as [ls r].
  destruct H as (_ & _ & H1 & H2); [by rewrite pieces_nil|by unfold full_pieces; rewrite pieces_nil|].
  by split.
Qed.

(** A line at the start of a stream. *)
Lemma split_lines_line cur l rest :
  LF ∉ l → split_lines cur (l ++ LF :: rest)
    = ((cur ++ l) :: (split_lines [] rest).1, (split_lines [] rest).2).
Proof.
  revert cur. induction l as [|x l IH]; intros cur Hl; cbn [split_lines app].
  - rewrite Ascii.eqb_refl, app_nil_r. by destruct (split_lines [] rest).
  - apply not_elem_of_cons in Hl as [Hx Hl]. destruct (Ascii.eqb_spec x LF); [congruence|].
    rewrite IH by done. by rewrite <- app_assoc.
Qed.

(** ** Properties *)

(** C27: line splitting. However the pipe's data is cut into reads, the messages pushed are
    those of the stream's lines: every non-empty line of at most 4095 bytes once, whole and
    in order, an empty line never; of a longer line, blocks of 4095 bytes and the rest, the
    byte after each block being lost; the unfinished last line waits for more data. *)
Theorem recv_splits_lines (f : Z) (reads : list bytes) (next : Z) :
  Forall (λ d, d ≠ []) reads →
  let s := foldl recv_turn (recv_init f) ((λ d, Readable (inl d) next) <$> reads) in
  let '(ls, r) := split_lines [] (concat reads) in
  line s = (pieces r).2 ∧ pushed_lines s = (ls ≫= line_messages) ++ full_pieces r ∧
  (Forall (λ l, length l ≤ LINE_MAX) (ls ++ [r]) →
     line s = r ∧ pushed_lines s = cstr <$> filter nonempty ls).
Proof.
  intros Hne s. pose proof (reads_split f reads next Hne) as H. fold s in H.
  destruct (split_lines [] (concat reads)) as [ls r]. destruct H as [H1 H2].
  split; [done|]. split; [done|]. intros [Hls Hr]%Forall_app. apply Forall_cons in Hr as [Hr _].
  rewrite H1, H2. unfold full_pieces. rewrite (pieces_short r) by exact Hr. split; [done|].
  rewrite short_line_messages by done. cbn. by rewrite app_nil_r.
Qed.

Lemma recv_splits_lines_witness :
  pushed_lines (foldl recv_turn (recv_init 3) ((λ d, Readable (inl d) 4) <$>
    [lit "ab"; lit "c" ++ [LF; LF] ++ lit "d"; [LF]])) = [lit "abc"; lit "d"].
Proof.
  pose proof (recv_splits_lines 3 [lit "ab"; lit "c" ++ [LF; LF] ++ lit "d"; [LF]] 4) as H.
  cbv zeta in H. destruct (split_lines [] _) as [ls r] eqn:E.
  destruct H as (_ & _ & H); [by repeat constructor|].
  vm_compute in E. injection E as <- <-.
  destruct H as [_ H]; [by_evaluation|].
  etransitivity; [exact H|]. vm_compute. reflexivity.
Defined.

(** A line one byte too long. Of a line of 4096 bytes the first 4095 are delivered and the
    last one is not, in any message. *)
Theorem recv_loses_byte (f next : Z) (l : bytes) (b : ascii) :
  length l = LINE_MAX → LF ∉ l → b ≠ LF →
  pushed_lines (recv_turn (recv_init f) (Readable (inl (l ++ [b; LF])) next)) = [cstr l].
Proof.
  intros Hl Hn Hb. pose proof LINE_MAX_pos as Hpos.
  pose proof (reads_split f [l ++ [b; LF]] next) as H. cbv zeta in H.
  assert (split_lines [] (l ++ [b; LF]) = ([l ++ [b]], [])) as Es.
  { change [b; LF] with ([b] ++ [LF]). rewrite app_assoc, split_lines_line; [done|].
    rewrite not_elem_of_app, list_elem_of_singleton. auto. }
  cbn [concat] in H. rewrite app_nil_r, Es in H. destruct H as [_ H].
  - repeat constructor. by destruct l.
  - cbn [fmap list_fmap foldl] in H. rewrite H. cbn [app mbind list_bind].
    unfold line_messages. rewrite pieces_long by (rewrite length_app; simpl; lia).
    rewrite drop_ge by (rewrite length_app; simpl; lia).
    rewrite take_app_le, take_ge by lia. change (pieces []) with (@nil bytes, @nil ascii).
    change (full_pieces []) with (@nil bytes). cbn [fst snd app]. rewrite !filter_cons.
    unfold nonempty. rewrite (proj2 (Nat.ltb_lt _ _)) by lia. done.
Qed.

Lemma recv_loses_byte_witness :
  pushed_lines (recv_turn (recv_init 3)
    (Readable (inl (replicate LINE_MAX "x"%char ++ ["y"%char; LF])) 4))
  = [cstr (replicate LINE_MAX "x"%char)].
Proof.
  apply (recv_loses_byte 3 4 (replicate LINE_MAX "x"%char) "y"%char).
  - apply length_replicate.
  - intros [H _]%elem_of_replicate. discriminate.
  - discriminate.
Defined.

(** The turns after which the pipe has been reopened. *)
Definition ends_session (e : event) : bool :=
  match e with
  | Hup _ | Readable (inl []) _ => true
  | Readable (inr e) _ => negb ((e =? EAGAIN)%Z || (e =? EINTR)%Z)
  | _ => false
  end.

Lemma unregistered_deaf evs s : registered s = false → foldl recv_turn s evs = s.
Proof.
  induction evs as [|e evs IH]; intros H; [done|]. cbn [foldl]. unfold recv_turn at 2.
  rewrite H. by apply IH.
Qed.

(** One writer's session. Once the receiver has seen the writer hang up, the end of the
    pipe's data or a read error, it pushes nothing any more, whatever later writers send: the
    reopened descriptor is never added to the epoll set. Data that is pending when the
    hang-up is reported is not read either. *)
Theorem recv_deaf_after_hangup (s : recv) (e : event) (evs : list event) :
  ends_session e = true → registered s = true →
  pushed_lines (foldl recv_turn (recv_turn s e) evs) = pushed_lines s.
Proof.
  intros He Hs. assert (registered (recv_turn s e) = false ∧ pushed_lines (recv_turn s e) = pushed_lines s)
    as [H1 H2].
  { unfold recv_turn. rewrite Hs. destruct e as [|n|[[|b d]|err] n]; try done; cbn in *.
    - by destruct (n <? 0)%Z.
    - by rewrite (proj1 (negb_true_iff _) He). }
  by rewrite unregistered_deaf.
Qed.

Lemma recv_deaf_after_hangup_witness :
  pushed_lines (foldl recv_turn (recv_turn (recv_init 3) (Hup 4))
    [Readable (inl (lit "lost" ++ [LF])) 5]) = [].
Proof. apply (recv_deaf_after_hangup (recv_init 3) (Hup 4)); reflexivity. Defined.
