(* ===== verification/StressWriter.v ===== *)
(** * StressWriter: the load generator of the daemon's pipe (tests/vts/stress_writer.c)

    The program writes numbered lines into the FIFO for a minute, 64 of them with one [writev],
    and drops what a full pipe does not take.  Its state is the history of its calls; the end
    of the file joins it to the receiver of Recv.v. *)
From stdpp Require Import prelude strings list.
From Stdlib Require Import Ascii ZArith Lia.
From S2P Require Import Prelude History CString Recv.

Inductive call :=
  | Time (t : Z)
  | Mkfifo (path : bytes)
  | Open (path : bytes) (fd : Z)
  | SetPipeSize (fd size : Z)
  | Writev (fd : Z) (iov : list bytes) (w : Z)     (* [w]: the result, -1 for a failure *)
  | Nanosleep (ns : Z)
  | Close (fd : Z)
  | Perror (msg : bytes).

Definition EAGAIN : Z := 11.
Definition BATCH : nat := 64.

Definition nsec_per_rate (rate : Z) : Z :=
  if (rate <=? 0)%Z then 0%Z
  else
    let ns := (1000000000 / rate)%Z in
    if (ns <? 1000)%Z then 1000%Z else ns.

(** [snprintf(buf, 64, "msg seq=%llu ts=%ld\n", ...)]: the text, and what [iov] then has. *)
Definition line_text (seq t : Z) : bytes :=
  lit "msg seq=" ++ dec seq ++ lit " ts=" ++ dec t ++ [LF].
Definition iov_of (seq t : Z) : bytes :=
  let full := line_text seq t in
  let n := length full in
  let n := if 64 <? n then 64 else n in
  take n (snprintf_buf 64 full).

Section writer.
(** The clock, the descriptor of [open], and what [writev] takes or its [errno]. *)
Context (clock : list call → Z) (open_ : list call → Z) (writev_ : list call → list bytes → nat + Z).

Definition time : mon (list call) Z := ask clock Time.

Definition writev (fd : Z) (iov : list bytes) : mon (list call) (nat + Z) :=
  ask (λ h, writev_ h iov)
    (λ r, Writev fd iov (match r with inl n => Z.of_nat n | inr _ => (-1)%Z end)).

(** The loop that fills a batch, with room for [room] more lines; [seq] is the next number. *)
Fixpoint fill (room : nat) (t0 seq : Z) (iov : list bytes) : mon (list call) (Z * list bytes) :=
  match room with
  | O => mret (seq, iov)
  | S room =>
    t ← time;
    if (t - t0 <? 60)%Z then
      ts ← time;
      fill room t0 (u64 (seq + 1)) (iov ++ [iov_of seq ts])
    else mret (seq, iov)
  end.

Fixpoint send_loop (fuel : nat) (fd ns t0 seq : Z) : mon (list call) unit :=
  match fuel with
  | O => no_fuel
  | S fuel =>
    t ← time;
    if (t - t0 <? 60)%Z then
      b ← fill BATCH t0 seq [];
      w ← writev fd b.2;
      match w with
      | inl _ => note (Nanosleep ns);; send_loop fuel fd ns t0 b.1
      | inr e =>
        if (e =? EAGAIN)%Z then note (Nanosleep ns);; send_loop fuel fd ns t0 b.1
        else note (Perror (lit "writev"))
      end
    else mret tt
  end.

Definition main (argv : list bytes) (fuel : nat) : mon (list call) Z :=
  let fifo := match argv with _ :: f :: _ => f | _ => lit "logs/vts_input.fifo" end in
  let rate := match argv with _ :: _ :: r :: _ => atoi r | _ => 100000%Z end in
  let rate := if (rate <=? 0)%Z then 100000%Z else rate in
  note (Mkfifo fifo);;
  fd ← ask open_ (Open fifo);
  if (fd <? 0)%Z then note (Perror (lit "open fifo"));; mret 1%Z
  else
    note (SetPipeSize fd (Z.shiftl 1 20));;
    t0 ← time;
    send_loop fuel fd (nsec_per_rate rate) t0 0%Z;;
    note (Close fd);; mret 0%Z.
End writer.

(** ** Accounts of a history *)

Definition opened (h : list call) : list Z :=
  omap (λ c, match c with Open _ fd => if (fd <? 0)%Z then None else Some fd | _ => None end) h.
Definition closed (h : list call) : list Z :=
  omap (λ c, match c with Close fd => Some fd | _ => None end) h.

(** The lines offered to the pipe, and the bytes that it took. *)
Definition batches (h : list call) : list (list bytes * Z) :=
  omap (λ c, match c with Writev _ iov w => Some (iov, w) | _ => None end) h.
Definition stream (h : list call) : bytes :=
  concat ((λ b : list bytes * Z, take (Z.to_nat b.2) (concat b.1)) <$> batches h).

(** No [writev] takes a part of its batch only. *)
Definition whole_batches (h : list call) : Prop :=
  Forall (λ b : list bytes * Z, (b.2 < 0)%Z ∨ b.2 = Z.of_nat (length (concat b.1))) (batches h).

(** The numbers from [seq] on, each with a time, and the lines that they make. *)
Definition numbers (seq : Z) (ts : list Z) : list (Z * Z) :=
  imap (λ i t, (u64 (seq + Z.of_nat i), t)) ts.
Definition msg_text (x : Z * Z) : bytes := lit "msg seq=" ++ dec x.1 ++ lit " ts=" ++ dec x.2.
Definition lines (xs : list (Z * Z)) : list bytes := (λ x, line_text x.1 x.2) <$> xs.

Definition sane (t : Z) : Prop := (0 ≤ t < 2 ^ 63)%Z.
Definition printable (x : Z * Z) : Prop := in_u 64 x.1 ∧ sane x.2.

(** ** Lemmas *)

Lemma line_text_msg x : line_text x.1 x.2 = msg_text x ++ [LF].
Proof. unfold line_text, msg_text. by rewrite <- !app_assoc. Qed.

Lemma msg_text_ok x :
  printable x → msg_text x ≠ [] ∧ length (msg_text x) ≤ 52 ∧ LF ∉ msg_text x ∧ nul_free (msg_text x).
Proof.
  intros [H1 H2]. unfold sane, in_u in *.
  destruct (dec_u64 x.1) as [L1 D1]; [lia|]. destruct (dec_u64 x.2) as [L2 D2]; [lia|].
  assert (∀ c, is_digit c = false → c ∉ lit "msg seq=" → c ∉ lit " ts=" → c ∉ msg_text x) as Hc.
  { intros c Hd Ha Hb. unfold msg_text. rewrite !not_elem_of_app.
    split_and!; try done; by apply digits_lack. }
  split; [done|]. split; [unfold msg_text; rewrite !length_app; change (length (lit "msg seq=")) with 8;
    change (length (lit " ts=")) with 4; lia|].
  split; apply Hc; try done; by_evaluation.
Qed.

Lemma iov_of_text seq t : in_u 64 seq → sane t → iov_of seq t = line_text seq t.
Proof.
  intros Hs Ht. destruct (msg_text_ok (seq, t)) as (_ & Hl & _); [by split|]. unfold iov_of.
  pose proof (line_text_msg (seq, t)) as E. cbn [fst snd] in E.
  assert (length (line_text seq t) ≤ 53) by (rewrite E, length_app; cbn [length]; lia). cbv zeta.
  destruct (Nat.ltb_spec 64 (length (line_text seq t))); [lia|].
  rewrite length_snprintf_buf by lia. apply take_app_length.
Qed.

Lemma u64_succ seq i : u64 (u64 (seq + 1) + i) = u64 (seq + (1 + i)).
Proof. unfold u64, wrapu. rewrite Zplus_mod_idemp_l. f_equal. lia. Qed.

Lemma numbers_cons seq t ts : numbers seq (t :: ts) = (u64 seq, t) :: numbers (u64 (seq + 1)) ts.
Proof.
  unfold numbers. cbn [imap]. rewrite Z.add_0_r. f_equal. apply imap_ext. intros i x _. cbn.
  rewrite u64_succ. do 2 f_equal. lia.
Qed.

Lemma numbers_app seq ts us :
  numbers seq (ts ++ us) = numbers seq ts ++ numbers (u64 (seq + Z.of_nat (length ts))) us.
Proof.
  unfold numbers. rewrite imap_app. f_equal. apply imap_ext. intros i x _. cbn. f_equal.
  unfold u64, wrapu. rewrite Zplus_mod_idemp_l. f_equal. lia.
Qed.

Lemma numbers_printable seq ts : Forall sane ts → Forall printable (numbers seq ts).
Proof.
  revert seq. induction ts as [|t ts IH]; intros seq H; [constructor|].
  apply Forall_cons in H as [Ht H]. rewrite numbers_cons. constructor; [|by apply IH].
  split; [apply wrapu_range; lia|done].
Qed.

Lemma batches_app h u : batches (h ++ u) = batches h ++ batches u.
Proof. apply omap_app. Qed.
Lemma opens_apart h u : opened (h ++ u) = opened h ++ opened u.
Proof. apply omap_app. Qed.
Lemma closes_apart h u : closed (h ++ u) = closed h ++ closed u.
Proof. apply omap_app. Qed.

(** What a part of the program does apart from opening and closing. *)
Definition inner (u : list call) : Prop := opened u = [] ∧ closed u = [].

Lemma inner_app u v : inner u → inner v → inner (u ++ v).
Proof. intros [A1 A2] [B1 B2]. split; [by rewrite opens_apart, A1, B1|by rewrite closes_apart, A2, B2]. Qed.

Section loops.
Context (clock : list call → Z) (open_ : list call → Z) (writev_ : list call → list bytes → nat + Z).
Context (Hsane : ∀ h, sane (clock h)).

Lemma fill_spec room t0 seq iov h :
  in_u 64 seq →
  adds_wp (fill clock room t0 seq iov) h (λ b u, ∃ ts, length ts ≤ room ∧ Forall sane ts
    ∧ b = (u64 (seq + Z.of_nat (length ts)), iov ++ lines (numbers seq ts))
    ∧ inner u ∧ batches u = []).
Proof.
  revert seq iov h. induction room as [|room IH]; intros seq iov h Hs; cbn [fill].
  { adds_step. exists []. split_and!; try done. rewrite Z.add_0_r, app_nil_r. unfold u64.
    by rewrite wrapu_small. }
  unfold time. repeat adds_step.
  - eapply adds_mono; [apply IH, wrapu_range; lia|]. intros b u (ts & H1 & H2 & -> & H3 & H4).
    exists (clock (h ++ [Time (clock h)]) :: ts). cbn [length]. split; [lia|].
    split; [constructor; [apply Hsane|done]|]. split.
    + assert (u64 seq = seq) as Eu by by apply wrapu_small.
      rewrite iov_of_text by done. rewrite u64_succ, numbers_cons, Eu. unfold lines.
      rewrite fmap_cons, <- app_assoc. cbn [fst snd app]. f_equal. f_equal. lia.
    + split; [by apply (inner_app [_]); [|apply (inner_app [_])]|done].
  - exists []. split_and!; try done; [cbn; lia|]. rewrite Z.add_0_r, app_nil_r. unfold u64.
    by rewrite wrapu_small.
Qed.

(** [N] calls after the history [h] a minute has gone. *)
Definition passes (h : list call) (N : nat) : Prop :=
  ∀ u, N ≤ length u → (clock h + 60 ≤ clock (h ++ u))%Z.

(** What the loop has done: numbered lines offered, in batches. *)
Definition offers (seq : Z) (u : list call) : Prop :=
  ∃ ts, Forall sane ts ∧ concat (batches u).*1 = lines (numbers seq ts)
    ∧ Forall (λ b : list bytes * Z, length b.1 ≤ BATCH) (batches u) ∧ inner u.

Lemma offers_nil seq u : batches u = [] → inner u → offers seq u.
Proof. intros Hb Hi. exists []. by rewrite Hb. Qed.

Lemma send_loop_spec N fuel fd ns h0 h seq :
  passes h0 N → in_u 64 seq → N - length h < fuel →
  adds_wp (send_loop clock writev_ fuel fd ns (clock h0) seq) (h0 ++ h) (λ _ u, offers seq u).
Proof.
  intros HN. revert h seq. induction fuel as [|fuel IH]; intros h seq Hs Hf; cbn [send_loop]; [lia|].
  unfold time. do 2 adds_step. destruct (Z.ltb_spec (clock (h0 ++ h) - clock h0) 60) as [Ht|Ht].
  2:{ adds_step. by apply offers_nil. }
  assert (length h < N) as Hh.
  { destruct (Nat.lt_ge_cases (length h) N) as [|Hge]; [done|]. specialize (HN h Hge). lia. }
  adds_step. eapply adds_mono; [by apply fill_spec|]. intros b u (ts & Hl & Hts & -> & Hiu & Hbu). cbn [fst snd app].
  unfold writev. do 2 adds_step.
  assert (∀ w c v, inner [c] → batches [c] = [] → offers (u64 (seq + Z.of_nat (length ts))) v →
    offers seq ([Time (clock (h0 ++ h))] ++ u ++ [Writev fd (lines (numbers seq ts)) w] ++ [c] ++ v))
    as Hmore.
  { intros w c v Hc Hbc (us & H1 & H2 & H3 & H4). exists (ts ++ us). split; [by apply Forall_app|].
    rewrite !batches_app, Hbu, Hbc. cbn [batches omap list_omap app fmap list_fmap fst concat].
    split; [rewrite H2, numbers_app; unfold lines; by rewrite fmap_app|]. split.
    - constructor; [|done]. unfold lines, numbers. cbn [fst]. by rewrite length_fmap, length_imap.
    - apply (inner_app [_]); [done|]. apply inner_app; [done|]. apply (inner_app [_]); [done|].
      by apply (inner_app [_]). }
  destruct (writev_ _ _) as [k|e].
  - adds_step. adds_step. eapply adds_mono; [rewrite <- !app_assoc; apply IH|].
    + apply wrapu_range. lia.
    + rewrite !length_app. cbn [length]. lia.
    + intros [] v Hv. cbv beta in Hv |- *. by apply Hmore.
  - destruct (e =? EAGAIN)%Z.
    + adds_step. adds_step. eapply adds_mono; [rewrite <- !app_assoc; apply IH|].
      * apply wrapu_range. lia.
      * rewrite !length_app. cbn [length]. lia.
      * intros [] v Hv. cbv beta in Hv |- *. by apply Hmore.
    + adds_step. rewrite <- (app_nil_r [Perror _]). apply Hmore; try done. by apply offers_nil.
Qed.

Lemma main_spec N fuel argv :
  (∀ h, length h = 3 → passes h N) → N < fuel →
  adds_wp (main clock open_ writev_ argv fuel) [] (λ r u, opened u = closed u
    ∧ (r = 0%Z ∨ r = 1%Z ∧ batches u = []) ∧ ∃ ts, Forall sane ts
    ∧ concat (batches u).*1 = lines (numbers 0 ts)
    ∧ Forall (λ b : list bytes * Z, length b.1 ≤ BATCH) (batches u)).
Proof.
  intros HN Hf. unfold main, time. cbv zeta.
  match goal with |- context [Mkfifo ?p] => set (fifo := p) end. do 4 adds_step. destruct (Z.ltb_spec (open_ ([] ++ [Mkfifo fifo])) 0) as [Ho|Ho].
  - do 3 adds_step. cbn. rewrite (proj2 (Z.ltb_lt _ _)) by done.
    split; [done|]. split; [by right|]. by exists [].
  - do 5 adds_step. eapply adds_mono; [eapply (send_loop_spec N); [by apply HN|done|cbn; lia]|].
    intros [] u (ts & H1 & H2 & H3 & H4 & H5). cbv beta. do 3 adds_step.
    rewrite !opens_apart, !closes_apart, !batches_app, H4, H5. cbn. rewrite (proj2 (Z.ltb_ge _ _)) by done.
    split; [done|]. split; [by left|]. exists ts. rewrite app_nil_r. by split_and!.
Qed.
End loops.

(** The batches that the pipe took, line by line. *)
Lemma kept_lines (bs : list (list bytes * Z)) xs :
  Forall (λ b : list bytes * Z, (b.2 < 0)%Z ∨ b.2 = Z.of_nat (length (concat b.1))) bs →
  concat bs.*1 = lines xs →
  ∃ ks, ks `sublist_of` xs
    ∧ concat ((λ b : list bytes * Z, take (Z.to_nat b.2) (concat b.1)) <$> bs) = concat (lines ks)
    ∧ (Forall (λ b : list bytes * Z, (0 ≤ b.2)%Z) bs → ks = xs).
Proof.
  intros Hb. revert xs. induction Hb as [|[iov w] bs Hw _ IH]; intros xs E; cbn [fmap list_fmap concat fst snd] in *.
  - symmetry in E. apply fmap_nil_inv in E as ->. by exists [].
  - symmetry in E. apply fmap_app_inv in E as (xs1 & xs2 & -> & E & ->).
    destruct (IH xs2 E) as (ks & H1 & H2 & H3). destruct Hw as [Hw|Hw].
    + exists ks. split; [by apply sublist_inserts_l|]. replace (Z.to_nat w) with 0 by (cbn in Hw; lia). split; [done|].
      intros [Hc _]%Forall_cons. cbn in Hc. lia.
    + exists (xs1 ++ ks). split; [by apply sublist_app|]. split.
      * cbn [fst snd] in Hw. rewrite Hw, Nat2Z.id, take_ge by done. unfold lines in *.
        change (list_fmap _ _ ?f bs) with (f <$> bs). by rewrite H2, fmap_app, concat_app.
      * intros [_ Hc]%Forall_cons. by rewrite H3.
Qed.

(** Whole lines as the receiver takes them. *)
Lemma lines_split ks :
  Forall printable ks → split_lines [] (concat (lines ks)) = (msg_text <$> ks, []).
Proof.
  induction 1 as [|x ks Hx _ IH]; [done|]. cbn [lines fmap list_fmap concat].
  rewrite line_text_msg, <- app_assoc. cbn [app]. destruct (msg_text_ok x Hx) as (_ & _ & Hn & _).
  rewrite split_lines_line by done. unfold lines in IH. by rewrite IH.
Qed.

Lemma lines_received f next reads ks :
  Forall printable ks → Forall (λ d, d ≠ []) reads → concat reads = concat (lines ks) →
  pushed_lines (foldl recv_turn (recv_init f) ((λ d, Readable (inl d) next) <$> reads)) = msg_text <$> ks.
Proof.
  intros Hk Hr E. pose proof (reads_split f reads next Hr) as H. cbv zeta in H.
  rewrite E, lines_split in H by done. destruct H as [_ H]. rewrite H.
  unfold full_pieces. rewrite pieces_nil. cbn [fst fmap list_fmap filter list_filter].
  rewrite app_nil_r. clear -Hk. induction Hk as [|x ks Hx _ IH]; [done|]. cbn [fmap list_fmap mbind list_bind].
  change (list_bind _ _ _ ?l) with (l ≫= line_messages). rewrite IH.
  destruct (msg_text_ok x Hx) as (Hne & Hl & _ & Hn). revert Hne Hl Hn. generalize (msg_text x).
  intros m Hne Hl Hn. unfold line_messages at 1.
  rewrite pieces_short by (etransitivity; [exact Hl|apply Nat.leb_le; vm_compute; reflexivity]).
  cbn [fst snd app]. rewrite filter_cons, decide_True by (destruct m; done). cbn.
  by rewrite cstr_id.
Qed.

(** ** Properties *)

(** C28: the load generator and the receiver. When a minute goes by within some number of calls,
    the program ends: it
    has closed what it opened, and offered to the pipe consecutively numbered lines, each a
    whole one, at most 64 with one call. If every [writev] takes its whole batch or fails, the
    pipe holds some of these lines, whole and in order - all of them if none failed - and the
    receiver that reads the pipe, in any pieces, pushes exactly these, one message a line. *)
Theorem writer_lines_arrive (clock open_ : list call → Z)
    (writev_ : list call → list bytes → nat + Z) (N fuel : nat) (argv : list bytes) :
  (∀ h, sane (clock h)) → (∀ h, length h = 3 → passes clock h N) → N < fuel →
  ∃ r h ts, main clock open_ writev_ argv fuel [] = Done (r, h) ∧ opened h = closed h
    ∧ (r = 0%Z ∨ r = 1%Z ∧ batches h = []) ∧ concat (batches h).*1 = lines (numbers 0 ts)
    ∧ Forall (λ b : list bytes * Z, length b.1 ≤ BATCH) (batches h)
    ∧ (whole_batches h → ∃ ks, ks `sublist_of` numbers 0 ts ∧ stream h = concat (lines ks)
       ∧ (Forall (λ b : list bytes * Z, (0 ≤ b.2)%Z) (batches h) → ks = numbers 0 ts)
       ∧ ∀ f next reads, Forall (λ d, d ≠ []) reads → concat reads = stream h →
          pushed_lines (foldl recv_turn (recv_init f) ((λ d, Readable (inl d) next) <$> reads))
          = msg_text <$> ks).
Proof.
  intros Hs HN Hf. pose proof (main_spec clock open_ writev_ Hs N fuel argv HN Hf) as H.
  apply adds_done in H as (r & h & E & H1 & H2 & ts & Hts & H3 & H4). exists r, h, ts.
  split; [exact E|]. split; [exact H1|]. split; [exact H2|]. split; [exact H3|]. split; [exact H4|].
  intros Hw. destruct (kept_lines (batches h) _ Hw H3) as (ks & K1 & K2 & K3). exists ks.
  split; [exact K1|]. split; [exact K2|]. split; [exact K3|]. intros f next reads Hr Hc.
  apply lines_received; [|exact Hr|by rewrite Hc].
  pose proof (numbers_printable 0 ts Hts) as Hp. rewrite Forall_forall in Hp |- *. intros x Hx.
  apply Hp. eapply elem_of_submseteq; [exact Hx|by apply sublist_submseteq].
Qed.

Lemma writer_lines_arrive_witness :
  let clock h := Z.min 1000 (Z.of_nat (length h)) in
  let out := main clock (λ _, 3%Z) (λ h iov, inl (length (concat iov))) [] 61 [] in
  let h := match out with Done (_, h) => h | _ => [] end in
  out = Done (0%Z, h) ∧ opened h = [3%Z] ∧ closed h = [3%Z]
  ∧ ∃ ks, length ks = 29
    ∧ pushed_lines (foldl recv_turn (recv_init 5) [Readable (inl (stream h)) 6]) = msg_text <$> ks.
Proof.
  intros clock out h.
  assert (out = Done (0%Z, h)) as E' by (vm_compute; reflexivity).
  destruct (writer_lines_arrive clock (λ _, 3%Z) (λ h iov, inl (length (concat iov))) 60 61 [])
    as (r & h' & ts & E & _ & _ & _ & _ & H).
  - intros h1. unfold sane, clock. lia.
  - intros h1 Hh u Hu. unfold clock. rewrite length_app. lia.
  - lia.
  - assert (h = h') as <- by exact (f_equal (λ o : res (Z * list call),
      match o with Done (_, h0) => h0 | _ => [] end) E).
    destruct H as (ks & _ & _ & _ & H); [by_evaluation|].
    assert (Forall (λ d : bytes, d ≠ []) [stream h]) as Hd
      by (by_evaluation).
    pose proof (H 5%Z 6%Z [stream h] Hd (app_nil_r _)) as H'.
    split; [exact E'|]. split; [vm_compute; reflexivity|]. split; [vm_compute; reflexivity|].
    exists ks. split; [|exact H']. transitivity (length (msg_text <$> ks)); [symmetry; apply length_fmap|].
    transitivity (length (pushed_lines (foldl recv_turn (recv_init 5) [Readable (inl (stream h)) 6%Z])));
      [exact (f_equal length (eq_sym H'))|]. vm_compute. reflexivity.
Defined.

(** A short [writev] (line 65): the pipe takes ten bytes of the first batch, everything later;
    the program goes on with the next batch, and the receiver pushes a message that no line of
    the program is. *)
Lemma short_writev_splices :
  let clock h := Z.min 1000 (Z.of_nat (length h) / 3)%Z in
  let taken h (iov : list bytes) := inl (if length h <=? 150 then 10 else length (concat iov)) in
  ∃ h, main clock (λ _, 3%Z) taken [] 361 [] = Done (0%Z, h)
    ∧ ∃ m, m ∈ pushed_lines (foldl recv_turn (recv_init 5) [Readable (inl (stream h)) 6%Z])
      ∧ m ++ [LF] ∉ concat (batches h).*1.
Proof.
  intros clock taken. set (out := main clock (λ _, 3%Z) taken [] 361 []).
  exists (match out with Done (_, h) => h | _ => [] end). split; [vm_compute; reflexivity|].
  exists (lit "msg seq=0 msg seq=64 ts=45").
  split; by_evaluation.
Qed.
