(* ===== verification/StressClient.v ===== *)
(** * StressClient: the load generator of the server (tests/vts/stress_client.c)

    Each of its threads opens a connection of its own and sends requests, over TCP waiting for
    each reply, over UDP not; [main] starts and joins the threads.  The state of a thread is
    the history of its calls.  StressSession.v has the theorems on the threads. *)
From stdpp Require Import prelude strings list gmap fin_sets.
From Stdlib Require Import Ascii ZArith Lia.
From S2P Require Import Prelude History CString Protocol.
From S2P Require Cli.

Inductive socket_type := SOCK_STREAM | SOCK_DGRAM.

Inductive call :=
  | Socket (ty : socket_type) (s : Z)
  | InetPton (host : bytes) (r : Z)
  | Connect (s port r : Z)
  | SetTimeout (s secs : Z)
  | NowMs (t : Z)
  | Write (s : Z) (b : bytes) (w : Z)       (* [w]: the bytes taken, -1 for a failure *)
  | Read (s : Z) (n : nat) (r : bytes + Z)
  | Malloc (n : Z) (ok : bool)
  | Free
  | TooBig (n : Z)
  | SendTo (s port : Z) (b : bytes) (r : Z)
  | Close (s : Z)
  | Perror (msg : bytes).

Definition EINTR : Z := 4.

Record worker_cfg_t := mk_cfg {
  host : bytes; port : Z; use_udp : bool; req_per_thread : Z; thread_id : Z }.

Definition tid_text (t i rid : Z) : bytes := lit "t" ++ dec t ++ lit "-" ++ dec i ++ lit "-" ++ dec rid.
Definition tcp_text (t i rid : Z) : bytes :=
  lit "{" ++ Cli.field (lit "req_id") (tid_text t i rid) ++ lit "," ++ Cli.field (lit "op") (lit "PING")
  ++ lit "," ++ Cli.field (lit "body") (lit "hello") ++ lit "}".
Definition udp_text (t i rid : Z) : bytes :=
  lit "{" ++ Cli.field (lit "req_id") (tid_text t i rid) ++ lit "," ++ Cli.field (lit "op") (lit "GET")
  ++ lit "," ++ Cli.field (lit "via") (lit "udp") ++ lit "}".

(** The first [n] bytes of an array; reading past it is undefined. *)
Definition bytes_at (buf : bytes) (n : nat) : mon (list call) bytes :=
  lift (if n <=? length buf then Some (take n buf) else None).

(** What the system answers to each call. *)
Record system := mk_system {
  sys_socket : list call → Z;
  sys_pton : list call → Z;
  sys_connect : list call → Z;
  sys_clock : list call → Z * Z;
  sys_write : list call → bytes → nat + Z;
  sys_read : list call → nat → bytes + Z;
  sys_malloc : list call → bool;
  sys_sendto : list call → Z }.

Section client.
Context (sys : system).

Definition write (s : Z) (b : bytes) : mon (list call) (nat + Z) :=
  ask (λ h, sys_write sys h b)
    (λ r, Write s b (match r with inl n => Z.of_nat n | inr _ => (-1)%Z end)).

Definition read (s : Z) (n : nat) : mon (list call) (bytes + Z) :=
  ask (λ h, sys_read sys h n) (Read s n).

Fixpoint write_loop (fuel : nat) (s : Z) (buf : bytes) (off : nat) : mon (list call) Z :=
  match fuel with
  | O => no_fuel
  | S fuel =>
    if off <? length buf then
      n ← write s (drop off buf);
      match n with
      | inl (S k) => write_loop fuel s buf (off + S k)
      | inl O => mret (-1)%Z
      | inr e => if (e =? EINTR)%Z then write_loop fuel s buf off else mret (-1)%Z
      end
    else mret (Z.of_nat off)
  end.
Definition write_full (fuel : nat) (s : Z) (buf : bytes) : mon (list call) Z := write_loop fuel s buf 0.

(** [got]: the bytes stored so far, [off] of them. *)
Fixpoint read_loop (fuel : nat) (s : Z) (len : nat) (got : bytes) : mon (list call) (Z * bytes) :=
  match fuel with
  | O => no_fuel
  | S fuel =>
    if length got <? len then
      d ← read s (len - length got);
      match d with
      | inl (c :: d) => read_loop fuel s len (got ++ c :: d)
      | inl [] => mret ((-1)%Z, got)
      | inr e => if (e =? EINTR)%Z then read_loop fuel s len got else mret ((-1)%Z, got)
      end
    else mret (Z.of_nat (length got), got)
  end.
Definition read_full (fuel : nat) (s : Z) (len : nat) : mon (list call) (Z * bytes) :=
  read_loop fuel s len [].

Definition now_ms : mon (list call) Z :=
  ask (λ h, let ts := sys_clock sys h in u64 (u64 (u64 ts.1 * 1000) + u64 ts.2 / 1000000)) NowMs.

(** The three parts of a turn of [thr_fn_tcp]; [false] for a [break].  [full] is the text that
    [snprintf] has put into [payload]. *)
Definition send_request (fuel : nat) (s : Z) (full : bytes) : mon (list call) bool :=
  let plen := length full in
  let plen := if 256 <? plen then 256 else plen in
  w ← write_full fuel s (store32 (be32 (u32 (Z.of_nat plen))));
  if negb (w =? 4)%Z then mret false
  else
    p ← bytes_at (snprintf_buf 256 full) plen;
    w ← write_full fuel s p;
    mret (w =? Z.of_nat plen)%Z.

Definition read_reply (fuel : nat) (s : Z) : mon (list call) bool :=
  r ← read_full fuel s 4;
  if negb (r.1 =? 4)%Z then mret false
  else
    let rlen := le32_to_host (load32 r.2) in
    if (1024 * 1024 <? rlen)%Z then note (TooBig rlen);; mret false
    else
      buf ← ask (sys_malloc sys) (Malloc (u32 (rlen + 1)));
      if negb buf then mret false
      else
        r ← read_full fuel s (Z.to_nat rlen);
        note Free;;
        mret (r.1 =? rlen)%Z.

Definition tcp_turn (fuel : nat) (cfg : worker_cfg_t) (s i : Z) : mon (list call) bool :=
  rid ← now_ms;
  ok ← send_request fuel s (tcp_text (thread_id cfg) i rid);
  if ok : bool then read_reply fuel s else mret false.

(** The turns that are left, from the [i]th on. *)
Fixpoint tcp_turns (fuel todo : nat) (cfg : worker_cfg_t) (s i : Z) : mon (list call) unit :=
  match todo with
  | O => mret tt
  | S todo =>
    go ← tcp_turn fuel cfg s i;
    if go : bool then tcp_turns fuel todo cfg s (i + 1) else mret tt
  end.

Definition thr_fn_tcp (fuel : nat) (cfg : worker_cfg_t) : mon (list call) unit :=
  s ← ask (sys_socket sys) (Socket SOCK_STREAM);
  if (s <? 0)%Z then note (Perror (lit "socket"))
  else
    r ← ask (sys_pton sys) (InetPton (host cfg));
    if negb (r =? 1)%Z then note (Perror (lit "inet_pton"));; note (Close s)
    else
      r ← ask (sys_connect sys) (Connect s (u16 (port cfg)));
      if (r <? 0)%Z then note (Perror (lit "connect"));; note (Close s)
      else
        note (SetTimeout s 2);;
        tcp_turns fuel (Z.to_nat (req_per_thread cfg)) cfg s 0;;
        note (Close s).

Fixpoint udp_turns (todo : nat) (cfg : worker_cfg_t) (s i : Z) : mon (list call) unit :=
  match todo with
  | O => mret tt
  | S todo =>
    rid ← now_ms;
    let full := udp_text (thread_id cfg) i rid in
    p ← bytes_at (snprintf_buf 256 full) (length full);
    ask (sys_sendto sys) (SendTo s (u16 (port cfg)) p);;
    udp_turns todo cfg s (i + 1)
  end.

Definition thr_fn_udp (cfg : worker_cfg_t) : mon (list call) unit :=
  s ← ask (sys_socket sys) (Socket SOCK_DGRAM);
  if (s <? 0)%Z then note (Perror (lit "socket"))
  else
    r ← ask (sys_pton sys) (InetPton (host cfg));
    if negb (r =? 1)%Z then note (Perror (lit "inet_pton"));; note (Close s)
    else
      udp_turns (Z.to_nat (req_per_thread cfg)) cfg s 0;;
      note (Close s).
End client.

(** ** main *)

Inductive mcall :=
  | Usage
  | Calloc (n : Z) (ok : bool)
  | NewCfg (ok : bool)
  | Create (i : nat) (c : worker_cfg_t) (r : Z)
  | Join (i : nat)
  | FreeThreads
  | Printf (text : bytes).

Record opts := mk_opts { o_host : bytes; o_port : Z; o_req : Z; o_threads : Z; o_udp : bool }.
Definition opts_default : opts := mk_opts (lit "127.0.0.1") 9000 2000 8 false.

(** One result of [getopt], with [optarg]; [None] where the program shows its usage. *)
Definition option_step (a : ascii * bytes) (o : opts) : option opts :=
  let '(c, arg) := a in
  match c with
  | "H"%char => Some (mk_opts arg (o_port o) (o_req o) (o_threads o) (o_udp o))
  | "p"%char => Some (mk_opts (o_host o) (atoi arg) (o_req o) (o_threads o) (o_udp o))
  | "n"%char => Some (mk_opts (o_host o) (o_port o) (atoi arg) (o_threads o) (o_udp o))
  | "c"%char => Some (mk_opts (o_host o) (o_port o) (o_req o) (atoi arg) (o_udp o))
  | "u"%char => Some (mk_opts (o_host o) (o_port o) (o_req o) (o_threads o) true)
  | _ => None
  end.
Fixpoint options (args : list (ascii * bytes)) (o : opts) : option opts :=
  match args with
  | [] => Some o
  | a :: args => o ← option_step a o; options args o
  end.

Section main.
(** Whether [calloc] and the [malloc] of a configuration succeed, and what [pthread_create]
    returns. *)
Context (calloc_ : bool) (malloc_ : list mcall → bool) (create_ : list mcall → Z).

(** Thread [i] of the loop, [todo] of them left; [t]: whether there is an array of threads. *)
Fixpoint create_threads (todo : nat) (i : nat) (cfg : worker_cfg_t) : mon (list mcall) unit :=
  match todo with
  | O => mret tt
  | S todo =>
    c ← ask malloc_ NewCfg;
    c ← lift (if c : bool
      then Some (mk_cfg (host cfg) (port cfg) (use_udp cfg) (req_per_thread cfg) (Z.of_nat i)) else None);
    lift (if calloc_ then Some tt else None);;
    ask create_ (Create i c);;
    create_threads todo (S i) cfg
  end.

(** The join of a thread that was not made is undefined. *)
Definition made (h : list mcall) (i : nat) : bool :=
  existsb (λ c, match c with Create j _ r => (i =? j) && (r =? 0)%Z | _ => false end) h.
Fixpoint join_threads (todo : nat) (i : nat) : mon (list mcall) unit :=
  match todo with
  | O => mret tt
  | S todo =>
    ok ← gets (λ h, made h i);
    lift (if ok : bool then Some tt else None);;
    note (Join i);;
    join_threads todo (S i)
  end.

Definition main (args : list (ascii * bytes)) : mon (list mcall) Z :=
  match options args opts_default with
  | None => note Usage;; mret 2%Z
  | Some o =>
    let port := if o_udp o && (o_port o =? 9000)%Z then 9001%Z else o_port o in
    let threads := o_threads o in
    note (Calloc threads calloc_);;
    let cfg := mk_cfg (o_host o) port (o_udp o) (o_req o) 0 in
    create_threads (Z.to_nat threads) 0 cfg;;
    join_threads (Z.to_nat threads) 0;;
    note FreeThreads;;
    note (Printf (lit "done" ++ [LF]));;
    mret 0%Z
  end.
End main.

(** ** Accounts of a history *)

Definition sent (h : list call) : bytes :=
  concat (omap (λ c, match c with Write _ b w => Some (take (Z.to_nat w) b) | _ => None end) h).
Definition received (h : list call) : bytes :=
  concat (omap (λ c, match c with Read _ _ (inl d) => Some d | _ => None end) h).

(** The calls that take or give back a descriptor or memory. *)
Definition resource (c : call) : Prop :=
  match c with
  | Socket _ s => (0 ≤ s)%Z
  | Malloc _ ok => ok = true
  | Free | Close _ => True
  | _ => False
  end.
#[export] Instance resource_dec c : Decision (resource c).
Proof. destruct c; cbn [resource]; apply _. Defined.
Definition resources (h : list call) : list call := filter resource h.

(** Reads and writes transfer no more than they are asked to, and from the [N]th call on none
    is interrupted by a signal. *)
Record lawful (sys : system) (N : nat) : Prop := {
  write_le : ∀ h b k, sys_write sys h b = inl k → k ≤ length b;
  read_le : ∀ h n d, sys_read sys h n = inl d → length d ≤ n;
  write_calm : ∀ h b, N ≤ length h → sys_write sys h b ≠ inr EINTR;
  read_calm : ∀ h n, N ≤ length h → sys_read sys h n ≠ inr EINTR }.

(** ** Lemmas *)

Lemma sent_app h u : sent (h ++ u) = sent h ++ sent u.
Proof. unfold sent. by rewrite omap_app, concat_app. Qed.
Lemma received_app h u : received (h ++ u) = received h ++ received u.
Proof. unfold received. by rewrite omap_app, concat_app. Qed.
Lemma resources_app h u : resources (h ++ u) = resources h ++ resources u.
Proof. apply filter_app. Qed.

(** Sending and receiving only. *)
Definition writes (u : list call) (b : bytes) : Prop := resources u = [] ∧ received u = [] ∧ sent u = b.
Definition gets_only (u : list call) (b : bytes) : Prop := resources u = [] ∧ received u = b ∧ sent u = [].

Lemma writes_app u v b c : writes u b → writes v c → writes (u ++ v) (b ++ c).
Proof.
  intros (A1 & A2 & A3) (B1 & B2 & B3). unfold writes.
  by rewrite resources_app, received_app, sent_app, A1, A2, A3, B1, B2, B3.
Qed.
Lemma gets_app u v b c : gets_only u b → gets_only v c → gets_only (u ++ v) (b ++ c).
Proof.
  intros (A1 & A2 & A3) (B1 & B2 & B3). unfold gets_only.
  by rewrite resources_app, received_app, sent_app, A1, A2, A3, B1, B2, B3.
Qed.

Section transfer.
Context (sys : system) (N : nat) (Hsys : lawful sys N).

(** Every [write] takes something. *)
Definition willing : Prop := ∀ h b, b ≠ [] → ∃ k, sys_write sys h b = inl (S k).

Lemma write_loop_spec fuel s buf off h :
  off ≤ length buf → N - length h + (length buf - off) < fuel →
  adds_wp (write_loop sys fuel s buf off) h (λ r u, ∃ k, off ≤ k ≤ length buf
    ∧ writes u (take (k - off) (drop off buf))
    ∧ (r = Z.of_nat (length buf) ∧ k = length buf ∨ r = (-1)%Z ∧ k < length buf ∧ ¬ willing)).
Proof.
  revert off h. induction fuel as [|fuel IH]; intros off h Ho Hf; cbn [write_loop]; [lia|].
  destruct (Nat.ltb_spec off (length buf)) as [Hl|Hl].
  2:{ apply adds_ret. exists off. rewrite Nat.sub_diag. split; [lia|]. split; [done|left]. split; lia. }
  assert (∀ w, writes [Write s (drop off buf) w] (take (Z.to_nat w) (drop off buf))) as Hone
    by (intros w; unfold writes, sent; cbn; by rewrite app_nil_r).
  assert (willing → ∃ k, sys_write sys h (drop off buf) = inl (S k)) as HW.
  { intros W. apply W. intros E0%(f_equal length). rewrite length_drop in E0. simpl in E0. lia. }
  unfold write. do 2 adds_step. destruct (sys_write sys h (drop off buf)) as [[|k]|e] eqn:E.
  - adds_step. exists off. rewrite Nat.sub_diag. split; [lia|]. split; [apply (Hone 0%Z)|]. right.
    split; [done|]. split; [lia|]. intros [k Hk]%HW. congruence.
  - apply (write_le _ _ Hsys) in E. rewrite length_drop in E.
    eapply adds_mono; [apply IH; rewrite ?length_app; cbn [length]; lia|].
    intros r u (j & Hj & Hw & Hr). exists j. split; [lia|]. split; [|exact Hr].
    pose proof (writes_app _ _ _ _ (Hone (Z.of_nat (S k))) Hw) as H. rewrite Nat2Z.id in H.
    rewrite <- drop_drop, take_take_drop in H. by replace (S k + (j - (off + S k))) with (j - off) in H by lia.
  - destruct (Z.eqb_spec e EINTR) as [->|He].
    + destruct (decide (N ≤ length h)) as [Hn|Hn]; [by apply (write_calm _ _ Hsys h) in E|].
      eapply adds_mono; [apply IH; rewrite ?length_app; cbn [length]; lia|].
      intros r u (j & Hj & Hw & Hr). exists j. split; [lia|]. split; [|exact Hr].
      exact (writes_app _ _ _ _ (Hone (-1)%Z) Hw).
    + adds_step. exists off. rewrite Nat.sub_diag. split; [lia|]. split; [apply (Hone (-1)%Z)|]. right.
      split; [done|]. split; [lia|]. intros [k Hk]%HW. congruence.
Qed.

(** The result, and how much of the buffer has gone. *)
Lemma write_full_spec fuel s buf h :
  N + length buf < fuel →
  adds_wp (write_full sys fuel s buf) h (λ r u,
    r = Z.of_nat (length buf) ∧ writes u buf
    ∨ r = (-1)%Z ∧ ¬ willing ∧ ∃ k, k < length buf ∧ writes u (take k buf)).
Proof.
  intros Hf. eapply adds_mono; [apply write_loop_spec; lia|]. intros r u (k & Hk & Hw & Hr).
  rewrite Nat.sub_0_r, drop_0 in Hw. destruct Hr as [[-> ->]|(-> & Hl & HW)].
  - left. by rewrite take_ge in Hw by lia.
  - right. split; [done|]. split; [done|]. by exists k.
Qed.

Lemma read_loop_spec fuel s len got h :
  length got ≤ len → N - length h + (len - length got) < fuel →
  adds_wp (read_loop sys fuel s len got) h (λ r u, ∃ d, r.2 = got ++ d ∧ gets_only u d
    ∧ (r.1 = Z.of_nat len ∧ length r.2 = len ∨ r.1 = (-1)%Z ∧ length r.2 < len)).
Proof.
  revert got h. induction fuel as [|fuel IH]; intros got h Ho Hf; cbn [read_loop]; [lia|].
  destruct (Nat.ltb_spec (length got) len) as [Hl|Hl].
  2:{ adds_step. exists []. rewrite app_nil_r. split; [done|]. split; [done|left]. cbn. split; [f_equal|]; lia. }
  assert (∀ e, gets_only [Read s (len - length got) (inr e)] []) as Herr by done.
  unfold read. do 2 adds_step. destruct (sys_read sys h (len - length got)) as [[|c d]|e] eqn:E.
  - adds_step. exists []. rewrite app_nil_r. split; [done|]. split; [done|]. by right.
  - apply (read_le _ _ Hsys) in E. cbn [length] in E.
    eapply adds_mono; [apply IH; rewrite ?length_app; cbn [length]; lia|].
    intros r u (d' & Hd & Hu & Hr). exists ((c :: d) ++ d'). split; [by rewrite Hd, <- app_assoc|].
    split; [|exact Hr]. apply gets_app; [|done]. unfold gets_only, received. cbn. by rewrite app_nil_r.
  - destruct (Z.eqb_spec e EINTR) as [->|He].
    + destruct (decide (N ≤ length h)) as [Hn|Hn]; [by apply (read_calm _ _ Hsys h) in E|].
      eapply adds_mono; [apply IH; rewrite ?length_app; cbn [length]; lia|].
      intros r u (d' & Hd & Hu & Hr). exists d'. split; [done|]. split; [|exact Hr].
      exact (gets_app _ _ _ _ (Herr EINTR) Hu).
    + adds_step. exists []. rewrite app_nil_r. split; [done|]. split; [apply Herr|]. by right.
Qed.

Lemma read_full_spec fuel s len h :
  N + len < fuel →
  adds_wp (read_full sys fuel s len) h (λ r u, gets_only u r.2
    ∧ (r.1 = Z.of_nat len ∧ length r.2 = len ∨ r.1 = (-1)%Z ∧ length r.2 < len)).
Proof.
  intros Hf. eapply adds_mono; [apply read_loop_spec; cbn [length]; lia|]. cbn.
  by intros r u (d & -> & Hd & Hr).
Qed.
End transfer.

(** *** main *)

Definition with_id (cfg : worker_cfg_t) (i : nat) : worker_cfg_t :=
  mk_cfg (host cfg) (port cfg) (use_udp cfg) (req_per_thread cfg) (Z.of_nat i).

Section main_lemmas.
Context (malloc_ : list mcall → bool) (create_ : list mcall → Z).
Context (Hm : ∀ h, malloc_ h = true) (Hc : ∀ h, create_ h = 0%Z).

Definition started (cfg : worker_cfg_t) (ids : list nat) : list mcall :=
  ids ≫= λ i, [NewCfg true; Create i (with_id cfg i) 0].

Lemma create_threads_spec todo i cfg h :
  adds_wp (create_threads true malloc_ create_ todo i cfg) h (λ _ u, u = started cfg (seq i todo)).
Proof.
  revert i h. induction todo as [|todo IH]; intros i h; cbn [create_threads seq]; [by adds_step|].
  do 2 adds_step. rewrite Hm. change (lift (Some ?c)) with (mret (M := mon (list mcall)) c).
  do 6 adds_step. rewrite Hc. eapply adds_mono; [apply IH|]. by intros [] u ->.
Qed.

Lemma made_started h cfg ids i : i ∈ ids → made (h ++ started cfg ids) i = true.
Proof.
  intros Hi. unfold made. rewrite existsb_app. apply orb_true_iff. right.
  apply existsb_exists. exists (Create i (with_id cfg i) 0). split.
  - apply list_elem_of_In. unfold started. apply list_elem_of_bind. exists i. split; [|done].
    apply list_elem_of_further, list_elem_of_here.
  - by rewrite Nat.eqb_refl.
Qed.

Lemma join_threads_spec todo i h :
  (∀ j, i ≤ j < i + todo → made h j = true) →
  adds_wp (join_threads todo i) h (λ _ u, u = Join <$> seq i todo).
Proof.
  revert i h. induction todo as [|todo IH]; intros i h Hj; cbn [join_threads seq]; [by adds_step|].
  apply adds_bind. exists []. rewrite app_nil_r. split; [done|]. rewrite Hj by lia.
  change (lift (Some ?c)) with (mret (M := mon (list mcall)) c). do 4 adds_step.
  eapply adds_mono; [apply IH|by intros [] u ->]. rewrite !app_nil_r. intros j ?.
  unfold made. rewrite existsb_app. fold (made h j). by rewrite Hj by lia.
Qed.
End main_lemmas.

(** ** Properties *)

(** [main] of the load generator. Options are taken in order, the last one counting; an
    unknown option or [-h] ends with the usage text and 2. With enough memory and threads, the
    program creates one thread for each [i] below the number asked for, with a configuration of
    its own whose id is [i], joins each, and ends with 0; a UDP run asked for port 9000 goes to
    9001. *)
Theorem stress_main_starts (malloc_ : list mcall → bool) (create_ : list mcall → Z)
    (args : list (ascii * bytes)) :
  (∀ h, malloc_ h = true) → (∀ h, create_ h = 0%Z) →
  main true malloc_ create_ args [] =
  match options args opts_default with
  | None => Done (2%Z, [Usage])
  | Some o =>
    let ids := seq 0 (Z.to_nat (o_threads o)) in
    let port := if o_udp o && bool_decide (o_port o = 9000%Z) then 9001%Z else o_port o in
    Done (0%Z, Calloc (o_threads o) true
      :: started (mk_cfg (o_host o) port (o_udp o) (o_req o) 0) ids
      ++ (Join <$> ids) ++ [FreeThreads; Printf (lit "done" ++ [LF])])
  end.
Proof.
  intros Hm Hc. unfold main. destruct (options args opts_default) as [o|]; [|done]. cbv zeta.
  replace (bool_decide (o_port o = 9000%Z)) with (o_port o =? 9000)%Z
    by (destruct (Z.eqb_spec (o_port o) 9000); case_bool_decide; done).
  set (cfg := mk_cfg _ _ _ _ _). set (n := Z.to_nat _).
  match goal with |- ?m [] = _ => assert (adds_wp m [] (λ r u, r = 0%Z ∧ u = Calloc (o_threads o) true
    :: started cfg (seq 0 n) ++ (Join <$> seq 0 n) ++ [FreeThreads; Printf (lit "done" ++ [LF])])) as H end.
  { do 3 adds_step. eapply adds_mono; [by apply create_threads_spec|]. intros [] u ->. adds_step.
    eapply adds_mono; [apply join_threads_spec|].
    - intros j ?. apply made_started, elem_of_seq. lia.
    - intros [] u ->. do 5 adds_step. split; [done|]. done. }
  by apply adds_done in H as (r & h & -> & -> & ->).
Qed.

Lemma stress_main_starts_witness :
  let cfg i := mk_cfg (lit "127.0.0.1") 9001 true 5 i in
  main true (λ _, true) (λ _, 0%Z) [("n"%char, lit "5"); ("u"%char, []); ("c"%char, lit "2")] []
  = Done (0%Z, [Calloc 2 true; NewCfg true; Create 0 (cfg 0%Z) 0; NewCfg true; Create 1 (cfg 1%Z) 0;
      Join 0; Join 1; FreeThreads; Printf (lit "done" ++ [LF])]).
Proof.
  intros cfg.
  pose proof (stress_main_starts (λ _, true) (λ _, 0%Z) [("n"%char, lit "5"); ("u"%char, []);
    ("c"%char, lit "2")] (λ _, eq_refl) (λ _, eq_refl)) as H.
  rewrite H. vm_compute. reflexivity.
Defined.

(** The result of [pthread_create] is not looked at: a thread that could not be made is joined
    through a handle that [calloc] has zeroed. *)
Lemma unmade_thread_joined :
  main true (λ _, true) (λ _, 11%Z) [("c"%char, lit "1")] [] = Undef.
Proof. reflexivity. Qed.

(** A port given with [-p] is replaced when it is 9000. *)
Lemma explicit_port_replaced :
  ∃ h c, main true (λ _, true) (λ _, 0%Z) [("u"%char, []); ("p"%char, lit "9000"); ("c"%char, lit "1")] []
    = Done (0%Z, h) ∧ Create 0 c 0 ∈ h ∧ port c = 9001%Z.
Proof.
  eexists _, _. split; [vm_compute; reflexivity|].
  split; [do 2 apply list_elem_of_further; apply list_elem_of_here|done].
Qed.
