(* ===== verification/StressSession.v ===== *)
(** * StressSession: the threads of the load generator and the server

    What the threads of tests/vts/stress_client.c do, whatever the system answers, and what the
    request handler of the server (req_handler.c) answers to what they send. *)
From stdpp Require Import prelude strings list gmap fin_sets.
From Stdlib Require Import Ascii ZArith Lia.
From S2P Require Import Prelude History CString DropOldest Rooms Dedup Protocol NetConn ReqHandler StressClient.
From S2P Require Cli.

(** ** Lemmas on the requests *)

Definition small_int (z : Z) : Prop := (0 ≤ z < 2 ^ 31)%Z.

Section texts.
Context (t i rid : Z) (Ht : small_int t) (Hi : small_int i) (Hr : in_u 64 rid).

Lemma tid_text_ok :
  length (tid_text t i rid) ≤ 63 ∧ ∀ c, is_digit c = false → c ∉ lit "t-" → c ∉ tid_text t i rid.
Proof.
  unfold small_int, in_u in *. destruct (dec_u64 t) as [L1 D1]; [lia|].
  destruct (dec_u64 i) as [L2 D2]; [lia|]. destruct (dec_u64 rid) as [L3 D3]; [lia|]. unfold tid_text. split.
  - rewrite !length_app. change (length (lit "t")) with 1. change (length (lit "-")) with 1. lia.
  - intros c Hc Hm. change (lit "t-") with (lit "t" ++ lit "-") in Hm.
    apply not_elem_of_app in Hm as [Hm1 Hm2]. rewrite !not_elem_of_app.
    split_and!; try done; by apply digits_lack.
Qed.

Lemma tid_tail_no_quote : QUOTE ∉ dec t ++ lit "-" ++ dec i ++ lit "-" ++ dec rid.
Proof.
  destruct tid_text_ok as [_ H]. specialize (H QUOTE eq_refl ltac:(by_evaluation)).
  unfold tid_text in H. rewrite not_elem_of_app in H. apply H.
Qed.

(** The field [op] and no field [cmd], with any fields after the id. *)
Lemma strstr_past_id pat rest :
  pat = quoted (lit "cmd") ∨ pat = quoted (lit "op") →
  strstr (lit "{" ++ Cli.field (lit "req_id") (tid_text t i rid) ++ rest) pat = strstr (QUOTE :: rest) pat.
Proof.
  pose proof tid_tail_no_quote as Hq. set (x := dec t ++ lit "-" ++ dec i ++ lit "-" ++ dec rid) in *.
  intros H. transitivity (strstr ((x ++ [QUOTE]) ++ rest) pat).
  - destruct H as [->| ->]; reflexivity.
  - rewrite <- app_assoc. destruct H as [->| ->]; by apply strstr_skip.
Qed.

Lemma id_field rest :
  json_get_str (lit "{" ++ Cli.field (lit "req_id") (tid_text t i rid) ++ rest) (lit "req_id") 64
  = Some (tid_text t i rid).
Proof.
  destruct tid_text_ok as [Hl Hq]. rewrite (json_get_str_field _ _ (tid_text t i rid) rest).
  - by rewrite take_ge by lia.
  - simpl. lia.
  - by_evaluation.
  - apply Hq; [done|by_evaluation].
  - reflexivity.
Qed.
End texts.

(** A request of the program. *)
Definition from_client (p : bytes) : Prop := ∃ t i rid, small_int t ∧ small_int i ∧ in_u 64 rid
  ∧ (p = tcp_text t i rid ∨ p = udp_text t i rid).

Lemma nul_free_field k v : nul_free k → nul_free v → nul_free (Cli.field k v).
Proof.
  intros Hk Hv. unfold Cli.field, quoted. rewrite !nul_free_app, !nul_free_cons, !nul_free_app.
  split_and!; try done; by_evaluation.
Qed.

Lemma from_client_ok p :
  from_client p → p ≠ [] ∧ length p < 256 ∧ nul_free p ∧ strstr p (quoted (lit "cmd")) = None
    ∧ legacy_id p ≠ [] ∧ legacy_result p = 1%Z.
Proof.
  intros (t & i & rid & Ht & Hi & Hr & Hp). destruct (tid_text_ok t i rid Ht Hi Hr) as [Hl Hc].
  assert (nul_free (tid_text t i rid)) as Hn by (apply Hc; [done|by_evaluation]).
  assert (legacy_id p = tid_text t i rid) as Hid
    by (unfold legacy_id; destruct Hp as [-> | ->]; unfold tcp_text, udp_text; by rewrite id_field).
  split; [by destruct Hp as [-> | ->]|]. split.
  { clear -Hl Hp. destruct Hp as [-> | ->]; unfold tcp_text, udp_text, Cli.field; revert Hl;
      generalize (tid_text t i rid) as x; intros x Hl; rewrite !length_app, !length_quoted; simpl; lia. }
  split.
  { destruct Hp as [-> | ->]; unfold tcp_text, udp_text; rewrite !nul_free_app;
      split_and!; first [apply nul_free_field; [by_evaluation|exact Hn]|by_evaluation]. }
  split.
  { destruct Hp as [-> | ->]; unfold tcp_text, udp_text;
      rewrite strstr_past_id by auto; reflexivity. }
  split; [by rewrite Hid|]. unfold legacy_result.
  destruct Hp as [-> | ->]; unfold tcp_text, udp_text.
  - rewrite (json_get_str_field _ _ (lit "PING") (lit "," ++ Cli.field (lit "body") (lit "hello") ++ lit "}"));
      [reflexivity|simpl; lia|by_evaluation..|]. rewrite strstr_past_id by auto. reflexivity.
  - rewrite (json_get_str_field _ _ (lit "GET") (lit "," ++ Cli.field (lit "via") (lit "udp") ++ lit "}"));
      [reflexivity|simpl; lia|by_evaluation..|]. rewrite strstr_past_id by auto. reflexivity.
Qed.

(** Every remembered result is a success. *)
Definition all_ok (w : window) : Prop := Forall (λ e : bytes * Z, e.2 = 1%Z) w.

Lemma window_request_ok w i :
  all_ok w → ∃ w', window_request w i 1 = (1%Z, w') ∧ all_ok w'.
Proof.
  intros Hw. unfold window_request, window_find. destruct (list_find _ w) as [[k e]|] eqn:E; cbn.
  - apply list_find_Some in E as (Hk & _). exists w. split; [|done].
    apply (Forall_lookup_1 _ _ _ _ Hw) in Hk. by rewrite Hk.
  - eexists. split; [done|]. unfold all_ok, window_put, bounded_push. apply Forall_app. split; [|by repeat constructor].
    case_match; [by destruct Hw|done].
Qed.

(** What the server answers to it. *)
Definition ok_reply (p : bytes) : bytes := legacy_body (legacy_id p) 1.

Lemma client_answer p X w :
  from_client p → all_ok w →
  ∃ w', spec_answer (cstr p) (X, w) = (ok_reply p, [(legacy_id p, 1%Z)], (X, w')) ∧ all_ok w'.
Proof.
  intros Hp Hw. apply from_client_ok in Hp as (_ & _ & Hn & Hc & Hid & Hres).
  destruct (window_request_ok w (legacy_id p) Hw) as (w' & E & Hw'). exists w'. split; [|done].
  rewrite cstr_id by done. unfold spec_answer, answer, legacy_request. cbn [fst snd]. rewrite Hc, Hres.
  unfold ok_reply. destruct (legacy_id p) as [|c i]; [done|]. by rewrite E.
Qed.

Lemma client_serve reqs X w :
  Forall from_client reqs.*1 → all_ok w →
  ∃ w', spec_serve reqs (X, w) = ((λ r, (r.2, ok_reply r.1)) <$> reqs,
    (λ r, (legacy_id r.1, 1%Z)) <$> reqs, (X, w')) ∧ all_ok w'.
Proof.
  revert w. induction reqs as [|[p fd] reqs IH]; intros w Hr Hw; [by exists w|].
  apply Forall_cons in Hr as [Hp Hr]. destruct (client_answer p X w Hp Hw) as (w1 & E & H1).
  destruct (IH w1 Hr H1) as (w2 & E2 & H2). exists w2. split; [|done]. cbn [spec_serve]. by rewrite E, E2.
Qed.

(** The server's side of one connection: what it has written when it has read [b]. *)
Definition replies (b : bytes) : bytes :=
  match serve ((λ p, (p, 1%Z)) <$> (decode (λ _, true) (DHeader []) b).2) server_init with
  | Done (_, s) => concat (ReqHandler.sent s).*2
  | _ => []
  end.

Lemma from_client_sendable p : from_client p → sendable p.
Proof.
  intros (Hne & Hl & _)%from_client_ok. unfold sendable. destruct p; [done|].
  change VTS_MAX_FRAME with 1048576%Z. simpl in *. lia.
Qed.

Lemma frames_bytes out : concat (frames out).*2 = concat (encode_frame <$> out.*2).
Proof.
  induction out as [|x out IH]; [done|]. change (frames (x :: out)) with (frame x.1 x.2 ++ frames out).
  rewrite fmap_app, concat_app, IH. cbn. by rewrite app_nil_r.
Qed.

(** The requests in the bytes [b]. *)
Definition decoded (b : bytes) : list bytes := (decode (λ _, true) (DHeader []) b).2.

Lemma decoded_frames ps b :
  Forall from_client ps → decoded (concat (encode_frame <$> ps) ++ b) = ps ++ decoded b.
Proof.
  intros Hps. unfold decoded. rewrite decode_frames; [done|done|].
  eapply Forall_impl; [exact Hps|apply from_client_sendable].
Qed.

Lemma decoded_part p k :
  from_client p → decoded (take k (encode_frame p)) = [] ∨ decoded (take k (encode_frame p)) = [p].
Proof.
  intros Hp. pose proof (decode_frame (λ _, true) ltac:(done) p [] (from_client_sendable p Hp)) as H.
  rewrite app_nil_r, <- (take_drop k (encode_frame p)), decode_app in H.
  apply (f_equal snd) in H. unfold emit in H. cbn [decode fst snd] in H. rewrite app_nil_r in H.
  unfold decoded. destruct (decode _ _ (take k _)).2 as [|q [|q' l]]; [by left| |done].
  right. by injection H as -> _.
Qed.

Lemma replies_ok ps b :
  Forall from_client ps → decoded b = ps → replies b = concat (encode_frame <$> (ok_reply <$> ps)).
Proof.
  intros Hps Hb. unfold replies. fold (decoded b). rewrite Hb.
  set (reqs := (λ p, (p, 1%Z)) <$> ps). pose proof (serve_spec reqs server_init (∅, [] : window) srv_rep_init) as H.
  destruct (client_serve reqs ∅ []) as (w & E & _).
  { unfold reqs. rewrite <- list_fmap_compose. by rewrite list_fmap_id. }
  { constructor. }
  rewrite E in H. destruct H as (s & -> & _ & Hs & _). rewrite Hs. cbn [server_init ReqHandler.sent app].
  rewrite frames_bytes. unfold reqs. by rewrite <- !list_fmap_compose.
Qed.

(** ** Lemmas on a thread *)

(** Memory for one reply. *)
Definition one_buffer (r : list call) : Prop := ∃ n, (0 < n ≤ 1048577)%Z ∧ r = [Malloc n true; Free].


Lemma full_of_text p :
  from_client p → bytes_at (snprintf_buf 256 p) (length p) = mret p
    ∧ (256 <? length p) = false ∧ u32 (Z.of_nat (length p)) = Z.of_nat (length p).
Proof.
  intros (_ & Hl & _)%from_client_ok. split; [|split; [apply Nat.ltb_ge; lia|]].
  - unfold bytes_at. rewrite length_snprintf_buf, length_app by done. cbn [length].
    destruct (Nat.leb_spec (length p) (length p + 1)); [|lia]. by rewrite take_app_length.
  - apply wrapu_small. unfold in_u. lia.
Qed.

(** The texts of the requests from the [i]th on. *)
Definition texts (t i : Z) (rids : list Z) : list bytes :=
  imap (λ j rid, tcp_text t (i + Z.of_nat j) rid) rids.

Lemma texts_cons t i rid rids : texts t i (rid :: rids) = tcp_text t i rid :: texts t (i + 1) rids.
Proof.
  unfold texts. cbn [imap]. rewrite Z.add_0_r. f_equal. apply imap_ext. intros j r _.
  change (tcp_text t (i + Z.of_nat (S j)) r = tcp_text t (i + 1 + Z.of_nat j) r). f_equal. lia.
Qed.

Lemma texts_from_client t i rids :
  small_int t → small_int i → (i + Z.of_nat (length rids) < 2 ^ 31)%Z → Forall (in_u 64) rids →
  Forall from_client (texts t i rids).
Proof.
  intros Ht. revert i. induction rids as [|rid rids IH]; intros i Hi Hl H; [constructor|].
  apply Forall_cons in H as [Hr H]. cbn [length] in Hl. rewrite texts_cons. constructor.
  - exists t, i, rid. auto.
  - apply IH; unfold small_int in *; [lia|lia|done].
Qed.

(** What [n] turns from the [i]th on have sent and received: whole turns, and at most one that
    broke off. *)
Definition turned (t i : Z) (n : nat) (out inp : bytes) : Prop := ∃ rids bs rest rest',
  Forall (in_u 64) rids ∧ length bs = length rids
  ∧ out = concat (encode_frame <$> texts t i rids) ++ rest
  ∧ inp = concat (encode_frame <$> bs) ++ rest'
  ∧ (length rids = n ∧ rest = [] ∧ rest' = []
     ∨ length rids < n ∧ ∃ rid k, in_u 64 rid
       ∧ rest = take k (encode_frame (tcp_text t (i + Z.of_nat (length rids)) rid))).

Section thread.
Context (sys : system) (N : nat) (Hsys : lawful sys N) (fuel : nat) (Hf : N + Z.to_nat 1048576 < fuel).

Lemma send_request_spec s p h :
  from_client p →
  adds_wp (send_request sys fuel s p) h (λ ok u, resources u = [] ∧ received u = [] ∧
    if ok : bool then sent u = encode_frame p
    else ¬ willing sys ∧ ∃ k, k < length (encode_frame p) ∧ sent u = take k (encode_frame p)).
Proof.
  intros Hp. destruct (full_of_text p Hp) as (E1 & E2 & E3). unfold send_request. cbv zeta.
  rewrite E2, E3, E1. pose proof (from_client_ok p Hp) as (_ & Hl & _).
  assert (length (store32 (be32 (Z.of_nat (length p)))) = 4) as H4 by done.
  unfold encode_frame. set (w := store32 _) in *.
  adds_step. eapply adds_mono; [apply (write_full_spec _ N Hsys); lia|].
  intros r u [[-> Hu]|(-> & HW & k & Hk & Hu)]; cbn [Z.eqb negb].
  - rewrite H4. change (negb (Z.of_nat 4 =? 4)%Z) with false. cbv iota. do 2 adds_step. adds_step. eapply adds_mono; [apply (write_full_spec _ N Hsys); lia|].
    intros r' v Hv. adds_step. rewrite app_nil_l. destruct Hv as [[-> Hv]|(-> & HW & k & Hk & Hv)].
    + rewrite Z.eqb_refl, app_nil_r. apply (writes_app _ _ _ _ Hu Hv).
    + rewrite app_nil_r. destruct (writes_app _ _ _ _ Hu Hv) as (A1 & A2 & A3). split; [done|].
      split; [done|]. destruct (Z.eqb_spec (-1) (Z.of_nat (length p))); [lia|]. split; [done|].
      exists (length w + k). rewrite length_app, A3. split; [lia|]. by rewrite take_app_add.
  - adds_step. rewrite app_nil_r. destruct Hu as (A1 & A2 & A3). split; [done|]. split; [done|].
    split; [done|]. exists k. rewrite length_app, A3. split; [lia|]. by rewrite take_app_le by lia.
Qed.

Lemma read_reply_spec s h :
  adds_wp (read_reply sys fuel s) h (λ ok u, sent u = [] ∧
    (resources u = [] ∨ one_buffer (resources u)) ∧
    (ok = true → ∃ b, received u = encode_frame b)).
Proof.
  unfold read_reply. adds_step. eapply adds_mono; [apply (read_full_spec _ N Hsys); lia|].
  intros [r1 w] u [(A1 & A2 & A3) Hr]. cbn [fst snd] in *.
  destruct (Z.eqb_spec r1 4) as [->|]; cbn [negb].
  2:{ adds_step. rewrite app_nil_r. naive_solver. }
  destruct Hr as [[_ Hw]|[? _]]; [|done]. cbv zeta.
  pose proof (load32_range w Hw) as Hrange%in_u_bswap32. unfold in_u in Hrange.
  fold (le32_to_host (load32 w)) in Hrange. set (rlen := le32_to_host _) in *.
  destruct (Z.ltb_spec (1024 * 1024) rlen) as [Hb|Hb].
  { do 3 adds_step. rewrite app_nil_r, sent_app, resources_app, A1, A3. naive_solver. }
  do 2 adds_step. destruct (sys_malloc sys (h ++ u)) eqn:Em; cbn [negb].
  2:{ adds_step. rewrite app_nil_r, sent_app, resources_app, A1, A3. naive_solver. }
  adds_step. eapply adds_mono; [apply (read_full_spec _ N Hsys); lia|].
  intros [r2 b] v [(B1 & B2 & B3) Hr]. cbn [fst snd] in *. do 3 adds_step. rewrite app_nil_r.
  rewrite !sent_app, !resources_app, !received_app, A1, A2, A3, B1, B2, B3. split; [done|]. split.
  - right. exists (u32 (rlen + 1)). split; [|done]. unfold u32. rewrite wrapu_small by (unfold in_u; lia). lia.
  - intros ->%Z.eqb_eq. destruct Hr as [[_ Hl]|[E _]]; [|lia]. exists b. cbn [received omap list_omap concat].
    rewrite app_nil_r. apply frame_of_word; [done|]. fold rlen. lia.
Qed.

(** A turn: the frame of its request, or a part of it, has gone; a turn that goes on has
    read a whole frame. *)
Lemma tcp_turn_spec cfg s i h :
  small_int (thread_id cfg) → small_int i →
  adds_wp (tcp_turn sys fuel cfg s i) h (λ go u, ∃ rid, in_u 64 rid ∧
    let f := encode_frame (tcp_text (thread_id cfg) i rid) in
    (resources u = [] ∨ one_buffer (resources u)) ∧
    if go : bool then sent u = f ∧ ∃ b, received u = encode_frame b
    else ∃ k, k ≤ length f ∧ sent u = take k f).
Proof.
  intros Ht Hi. unfold tcp_turn, now_ms. do 2 adds_step. set (rid := u64 _).
  assert (in_u 64 rid) as Hr by (apply wrapu_range; lia).
  assert (from_client (tcp_text (thread_id cfg) i rid)) as Hp by (exists (thread_id cfg), i, rid; auto).
  adds_step. eapply adds_mono; [by apply send_request_spec|]. intros [|] u (A1 & A2 & A3).
  - eapply adds_mono; [apply read_reply_spec|]. intros go v (B1 & B2 & B3). exists rid. split; [done|].
    cbv zeta. rewrite !resources_app, !sent_app, !received_app, A1, A2, A3, B1. split; [exact B2|].
    cbn [sent omap list_omap concat app]. rewrite app_nil_r. destruct go; [by auto|].
    exists (length (encode_frame (tcp_text (thread_id cfg) i rid))). by rewrite take_ge.
  - adds_step. exists rid. split; [done|]. cbv zeta. rewrite !resources_app, !sent_app, A1.
    split; [by left|]. destruct A3 as (_ & k & Hk & ->). exists k. split; [lia|]. by rewrite app_nil_r.
Qed.
Lemma tcp_turns_spec todo cfg s i h :
  small_int (thread_id cfg) → small_int i → (i + Z.of_nat todo < 2 ^ 31)%Z →
  adds_wp (tcp_turns sys fuel todo cfg s i) h (λ _ u,
    (∃ ms, Forall one_buffer ms ∧ resources u = concat ms)
    ∧ turned (thread_id cfg) i todo (sent u) (received u)).
Proof.
  intros Ht. revert i h. induction todo as [|todo IH]; intros i h Hi Hl; cbn [tcp_turns].
  { adds_step. split; [by exists []|]. exists [], [], [], []. split; [done|]. split; [done|].
    split; [done|]. split; [done|]. by left. }
  adds_step. eapply adds_mono; [by apply tcp_turn_spec|]. intros go u (rid & Hr & Hm & H).
  assert (∃ ms, Forall one_buffer ms ∧ resources u = concat ms) as (ms & Hms & Eu).
  { destruct Hm as [->|Hm]; [by exists []|]. exists [resources u]. cbn. rewrite app_nil_r. auto. }
  destruct go.
  - destruct H as (Hsent & b & Hrec).
    eapply adds_mono; [apply IH; unfold small_int in *; lia|].
    intros [] v [(ms' & Hms' & Ev) (rids & bs & rest & rest' & H1 & H2 & H4 & H5 & H6)].
    split; [exists (ms ++ ms'); rewrite resources_app, Eu, Ev, concat_app; split; [by apply Forall_app|done]|].
    exists (rid :: rids), (b :: bs), rest, rest'.
    rewrite sent_app, received_app, Hsent, Hrec, H4, H5, texts_cons.
    split; [by constructor|]. split; [by cbn; f_equal|].
    rewrite !fmap_cons. cbn [concat]. split; [by rewrite app_assoc|]. split; [by rewrite app_assoc|].
    destruct H6 as [(<- & -> & ->)|(Hn & rid' & k & Hr' & ->)]; [by left|right]. cbn [length].
    split; [lia|]. exists rid', k. split; [done|]. do 3 f_equal. lia.
  - adds_step. rewrite app_nil_r. split; [by exists ms|].
    exists [], [], (sent u), (received u). split; [done|]. split; [done|]. split; [done|]. split; [done|]. right.
    cbn [length]. split; [lia|]. destruct H as (k & _ & ->). exists rid, k. by rewrite Z.add_0_r.
Qed.
End thread.

(** *** Against the server *)

(** What the server has written to the connection and the client has not read. *)
Definition owed (h : list call) : bytes := drop (length (received h)) (replies (sent h)).

(** A connection to the server on which every call succeeds, whatever it cuts the bytes into. *)
Record serving (sys : system) : Prop := {
  serve_socket : ∀ h, (0 ≤ sys_socket sys h)%Z;
  serve_pton : ∀ h, sys_pton sys h = 1%Z;
  serve_connect : ∀ h, (0 ≤ sys_connect sys h)%Z;
  serve_malloc : ∀ h, sys_malloc sys h = true;
  serve_write : willing sys;
  serve_read : ∀ h n, 0 < n → owed h ≠ [] →
    ∃ d, sys_read sys h n = inl d ∧ d ≠ [] ∧ d `prefix_of` owed h }.

Section served.
Context (sys : system) (N : nat) (Hsys : lawful sys N) (Hok : serving sys).
Context (fuel : nat) (Hf : N + Z.to_nat 1048576 < fuel).

Lemma owed_add h u d : received u = d → sent u = [] → owed (h ++ u) = drop (length d) (owed h).
Proof.
  intros Hr Hs. unfold owed.
  by rewrite sent_app, received_app, Hr, Hs, app_nil_r, length_app, drop_drop.
Qed.

Lemma owed_read h u d : gets_only u d → owed (h ++ u) = drop (length d) (owed h).
Proof. intros (_ & Hr & Hs). by apply owed_add. Qed.

Lemma read_loop_served f s len got h :
  length got ≤ len → len - length got ≤ length (owed h) → len - length got < f →
  adds_wp (read_loop sys f s len got) h (λ r u, ∃ d, r = (Z.of_nat len, got ++ d)
    ∧ d = take (len - length got) (owed h) ∧ gets_only u d).
Proof.
  revert got h. induction f as [|f IH]; intros got h Hl Ho Hlt; cbn [read_loop]; [lia|].
  destruct (Nat.ltb_spec (length got) len) as [Hg|Hg].
  2:{ adds_step. exists []. replace (len - length got) with 0 by lia. rewrite app_nil_r.
      split; [do 2 f_equal; lia|done]. }
  unfold read. do 2 adds_step. destruct (serve_read _ Hok h (len - length got)) as (d & E & Hd & t & Ht);
    [lia|intros E0; rewrite E0 in Ho; simpl in Ho; lia|].
  pose proof (read_le _ _ Hsys _ _ _ E) as Hle. rewrite E. destruct d as [|c d]; [done|].
  set (d' := c :: d) in *. assert (gets_only [Read s (len - length got) (inl d')] d') as Hone
    by (unfold gets_only, received; cbn; by rewrite app_nil_r).
  assert (0 < length d') by (cbn; lia). pose proof (owed_read h _ _ Hone) as Eo.
  rewrite Ht, drop_app_length in Eo. rewrite Ht, length_app in Ho.
  eapply adds_mono; [apply IH; rewrite ?Eo, ?length_app; lia|].
  intros r u (e & -> & -> & Hu). rewrite Eo in *. exists (d' ++ take (len - length (got ++ d')) t).
  split; [by rewrite app_assoc|]. split; [|by apply gets_app].
  rewrite Ht, take_app_ge by lia. rewrite length_app. do 2 f_equal. lia.
Qed.

Lemma read_full_served s len h :
  len ≤ length (owed h) → len < fuel →
  adds_wp (read_full sys fuel s len) h (λ r u, r = (Z.of_nat len, take len (owed h))
    ∧ gets_only u (take len (owed h))).
Proof.
  intros Ho Hlt. eapply adds_mono; [apply read_loop_served; cbn [length]; lia|].
  cbn [length app]. rewrite Nat.sub_0_r. by intros r u (d & -> & -> & Hu).
Qed.

Lemma read_reply_served s b h :
  owed h = encode_frame b → length b ≤ 1000 →
  adds_wp (read_reply sys fuel s) h (λ ok u, ok = true ∧ sent u = [] ∧ received u = encode_frame b).
Proof.
  intros Ho Hb. unfold read_reply. adds_step. unfold encode_frame in Ho. set (w := store32 _) in *.
  assert (length w = 4) as Hw by done.
  assert (le32_to_host (load32 w) = Z.of_nat (length b)) as Ew by (apply frame_header; unfold in_u; lia).
  eapply adds_mono; [apply read_full_served; rewrite ?Ho, ?length_app; lia|].
  rewrite Ho, take_app_length' by done. intros r u (-> & Hu). cbn [fst snd].
  change (negb (Z.of_nat 4 =? 4)%Z) with false. rewrite Ew. cbv iota zeta. pose proof (owed_read h u w Hu) as Eo. rewrite Ho, drop_app_length in Eo.
  destruct (Z.ltb_spec (1024 * 1024) (Z.of_nat (length b))); [lia|].
  do 2 adds_step. rewrite (serve_malloc _ Hok). cbn [negb]. set (m := Malloc _ _).
  assert (owed ((h ++ u) ++ [m]) = b) as Eo' by (by rewrite (owed_add _ _ []), Eo).
  adds_step. rewrite Nat2Z.id. eapply adds_mono; [apply read_full_served; rewrite ?Eo'; lia|].
  rewrite Eo', take_ge by done. intros r v (-> & Hv). do 3 adds_step. cbn [fst].
  split; [by apply Z.eqb_eq|]. rewrite app_nil_r, !sent_app, !received_app.
  destruct Hu as (_ & -> & ->), Hv as (_ & -> & ->). cbn. by rewrite app_nil_r.
Qed.

(** A turn when all that was owed has been read. *)
Lemma tcp_turn_served cfg s i ps h :
  small_int (thread_id cfg) → small_int i → Forall from_client ps →
  sent h = concat (encode_frame <$> ps) → received h = concat (encode_frame <$> (ok_reply <$> ps)) →
  adds_wp (tcp_turn sys fuel cfg s i) h (λ go u, go = true ∧ ∃ rid, in_u 64 rid ∧
    let p := tcp_text (thread_id cfg) i rid in
    sent u = encode_frame p ∧ received u = encode_frame (ok_reply p)).
Proof.
  intros Ht Hi Hps Hs Hr. unfold tcp_turn, now_ms. do 2 adds_step. set (rid := u64 _).
  assert (in_u 64 rid) as Hrid by (apply wrapu_range; lia).
  assert (from_client (tcp_text (thread_id cfg) i rid)) as Hp by (exists (thread_id cfg), i, rid; auto).
  set (p := tcp_text _ _ _) in *. set (c := NowMs rid).
  adds_step. eapply adds_mono; [by apply (send_request_spec sys N Hsys fuel Hf)|].
  intros [|] u (_ & A2 & A3); [|by destruct A3 as [[] _]; apply Hok].
  assert (owed ((h ++ [c]) ++ u) = encode_frame (ok_reply p)) as Ho.
  { unfold owed. rewrite !sent_app, !received_app, A2, A3, Hs, Hr. cbn [c sent received omap list_omap concat].
    rewrite !app_nil_r, (replies_ok (ps ++ [p])).
    - rewrite !fmap_app, concat_app, drop_app_length. cbn. by rewrite app_nil_r.
    - apply Forall_app. by repeat constructor.
    - rewrite decoded_frames by done. f_equal.
      pose proof (decoded_frames [p] [] ltac:(by repeat constructor)) as E. cbn [fmap list_fmap concat] in E.
      by rewrite !app_nil_r in E. }
  assert (length (ok_reply p) ≤ 1000) as Hl.
  { unfold ok_reply. apply from_client_ok in Hp as (_ & _ & Hn & _).
    apply legacy_id_valid in Hn as [_ Hid]. pose proof (length_legacy_body _ 1 Hid). lia. }
  eapply adds_mono; [by apply (read_reply_served s (ok_reply p))|].
  intros go v (-> & B1 & B2). split; [done|]. exists rid. split; [done|]. cbv zeta.
  rewrite !sent_app, !received_app, A2, A3, B1, B2. by rewrite app_nil_r.
Qed.
Lemma tcp_turns_served todo cfg s i ps h :
  small_int (thread_id cfg) → small_int i → (i + Z.of_nat todo < 2 ^ 31)%Z → Forall from_client ps →
  sent h = concat (encode_frame <$> ps) → received h = concat (encode_frame <$> (ok_reply <$> ps)) →
  adds_wp (tcp_turns sys fuel todo cfg s i) h (λ _ u, ∃ rids, length rids = todo ∧ Forall (in_u 64) rids
    ∧ sent u = concat (encode_frame <$> texts (thread_id cfg) i rids)
    ∧ received u = concat (encode_frame <$> (ok_reply <$> texts (thread_id cfg) i rids))).
Proof.
  intros Ht. revert i ps h. induction todo as [|todo IH]; intros i ps h Hi Hl Hps Hs Hr; cbn [tcp_turns].
  { adds_step. by exists []. }
  adds_step. eapply adds_mono; [by eapply tcp_turn_served|]. intros go u (-> & rid & Hrid & A1 & A2).
  set (p := tcp_text _ _ _) in *. assert (from_client p) as Hp by (exists (thread_id cfg), i, rid; auto).
  eapply adds_mono; [apply (IH (i + 1)%Z (ps ++ [p]))|].
  - unfold small_int in *. lia.
  - lia.
  - apply Forall_app. by repeat constructor.
  - rewrite sent_app, Hs, A1, fmap_app, concat_app. cbn. by rewrite app_nil_r.
  - rewrite received_app, Hr, A2, !fmap_app, concat_app. cbn. by rewrite app_nil_r.
  - intros [] v (rids & <- & B1 & B2 & B3). exists (rid :: rids). split; [done|]. split; [by constructor|].
    rewrite sent_app, received_app, A1, A2, B2, B3, texts_cons. by rewrite !fmap_cons.
Qed.
End served.

(** *** The calls around the turns *)

(** The descriptor and the memory of a thread: nothing, or a socket that is closed at the end
    and buffers that are each freed before the next. *)
Definition balanced (ty : socket_type) (h : list call) : Prop :=
  resources h = []
  ∨ ∃ s ms, (0 ≤ s)%Z ∧ Forall one_buffer ms ∧ resources h = Socket ty s :: concat ms ++ [Close s].

Lemma balanced_parts ty s u v ms :
  (0 ≤ s)%Z → resources u = [Socket ty s] → Forall one_buffer ms → resources v = concat ms ++ [Close s] →
  balanced ty (u ++ v).
Proof. intros H1 H2 H3 H4. right. exists s, ms. by rewrite resources_app, H2, H4. Qed.

Lemma resources_socket ty s : (0 ≤ s)%Z → resources [Socket ty s] = [Socket ty s].
Proof. intros Hs. unfold resources. rewrite filter_cons. cbn [resource]. by rewrite decide_True. Qed.

Section threads.
Context (sys : system) (N : nat) (Hsys : lawful sys N) (fuel : nat) (Hf : N + Z.to_nat 1048576 < fuel).

Lemma turned_nothing t i n : turned t i n [] [].
Proof.
  exists [], [], [], []. split; [done|]. split; [done|]. split; [done|]. split; [done|].
  destruct n as [|n]; [by left|right]. split; [cbn; lia|]. exists 0%Z, 0. by split; [|vm_compute].
Qed.

Lemma thr_fn_tcp_spec cfg :
  small_int (thread_id cfg) → (req_per_thread cfg < 2 ^ 31)%Z →
  adds_wp (thr_fn_tcp sys fuel cfg) [] (λ _ h, balanced SOCK_STREAM h
    ∧ turned (thread_id cfg) 0 (Z.to_nat (req_per_thread cfg)) (sent h) (received h)).
Proof.
  intros Ht Hn. unfold thr_fn_tcp. do 2 adds_step. set (s := sys_socket _ _).
  destruct (Z.ltb_spec s 0) as [Hs|Hs].
  { adds_step. split; [left|apply turned_nothing]. unfold resources. cbn [app]. rewrite filter_cons. cbn [resource].
    by rewrite decide_False by lia. }
  pose proof (resources_socket SOCK_STREAM s Hs) as Es. do 2 adds_step. set (c := InetPton _ _).
  destruct (negb _).
  { do 3 adds_step. split; [|apply turned_nothing]. by apply (balanced_parts _ s _ _ []). }
  do 2 adds_step. set (d := Connect _ _ _). destruct (_ <? 0)%Z.
  { do 3 adds_step. split; [|apply turned_nothing]. by apply (balanced_parts _ s _ _ []). }
  do 3 adds_step. eapply adds_mono; [apply (tcp_turns_spec sys N Hsys fuel Hf); [done|by split|lia]|].
  intros [] u [(ms & Hms & Eu) Hu]. adds_step. split.
  - apply (balanced_parts _ s _ _ ms); try done. change (resources ([c] ++ [d] ++ [SetTimeout s 2] ++ u ++ [Close s]))
      with (resources (u ++ [Close s])). by rewrite resources_app, Eu.
  - revert Hu. rewrite !sent_app, !received_app. cbn. by rewrite !app_nil_r.
Qed.
End threads.

(** The datagrams sent. *)
Definition datagrams (h : list call) : list bytes :=
  omap (λ c, match c with SendTo _ _ b _ => Some b | _ => None end) h.

Lemma datagrams_app h u : datagrams (h ++ u) = datagrams h ++ datagrams u.
Proof. apply omap_app. Qed.

Lemma udp_turns_spec sys todo cfg s i h :
  small_int (thread_id cfg) → small_int i → (i + Z.of_nat todo < 2 ^ 31)%Z →
  adds_wp (udp_turns sys todo cfg s i) h (λ _ u, resources u = [] ∧ Forall from_client (datagrams u)
    ∧ length (datagrams u) = todo).
Proof.
  intros Ht. revert i h. induction todo as [|todo IH]; intros i h Hi Hl; cbn [udp_turns]; [by adds_step|].
  unfold now_ms. do 2 adds_step. set (rid := u64 _).
  assert (from_client (udp_text (thread_id cfg) i rid)) as Hp.
  { exists (thread_id cfg), i, rid. split_and!; try done; [|by right]. apply wrapu_range. lia. }
  destruct (full_of_text _ Hp) as (E & _ & _). cbv zeta. rewrite E. do 4 adds_step.
  eapply adds_mono; [apply IH; unfold small_int in *; lia|]. intros [] u (H1 & H2 & H3).
  rewrite !resources_app, !datagrams_app. split; [done|]. split; [by constructor|]. cbn. by f_equal.
Qed.

Lemma thr_fn_udp_spec sys cfg :
  small_int (thread_id cfg) → (req_per_thread cfg < 2 ^ 31)%Z →
  adds_wp (thr_fn_udp sys cfg) [] (λ _ h, balanced SOCK_DGRAM h ∧ Forall from_client (datagrams h)
    ∧ (length (datagrams h) = Z.to_nat (req_per_thread cfg)
       ∨ datagrams h = [] ∧ ∃ m, Perror m ∈ h)).
Proof.
  intros Ht Hn. unfold thr_fn_udp. do 2 adds_step. set (s := sys_socket _ _).
  destruct (Z.ltb_spec s 0) as [Hs|Hs].
  { adds_step. split; [left; unfold resources; cbn [app]; rewrite filter_cons; cbn [resource];
      by rewrite decide_False by lia|]. split; [constructor|]. right. split; [done|]. exists (lit "socket").
    apply list_elem_of_further, list_elem_of_here. }
  pose proof (resources_socket SOCK_DGRAM s Hs) as Es. do 2 adds_step. set (c := InetPton _ _).
  destruct (negb _).
  { do 3 adds_step. split; [by apply (balanced_parts _ s _ _ [])|]. split; [constructor|]. right.
    split; [done|]. exists (lit "inet_pton"). do 2 apply list_elem_of_further. apply list_elem_of_here. }
  adds_step. eapply adds_mono; [apply udp_turns_spec; [done|by split|lia]|].
  intros [] u (Eu & Hu & Hl). adds_step. split.
  - apply (balanced_parts _ s _ _ []); try done. change (resources ([c] ++ u ++ [Close s]))
      with (resources (u ++ [Close s])). by rewrite resources_app, Eu.
  - rewrite !datagrams_app. cbn. rewrite app_nil_r. by split; [|left].
Qed.

(** The requests that a thread has sent, as the server reads them. *)
Lemma turned_decoded t n out inp :
  small_int t → (Z.of_nat n < 2 ^ 31)%Z → turned t 0 n out inp →
  Forall from_client (decoded out) ∧ length (decoded out) ≤ n.
Proof.
  intros Ht Hn (rids & bs & rest & rest' & Hr & _ & -> & _ & H).
  assert (length rids ≤ n) as Hl by (destruct H as [[E _]|[? _]]; lia).
  pose proof (texts_from_client t 0 rids Ht ltac:(done) ltac:(lia) Hr) as Hx.
  assert (length (texts t 0 rids) = length rids) as El by apply length_imap.
  rewrite decoded_frames, Forall_app, length_app, El by done.
  destruct H as [(<- & -> & _)|(Hlt & rid & k & Hrid & ->)]; [cbn; split; [by split|lia]|].
  set (p := tcp_text _ _ _). assert (from_client p) as Hp.
  { exists t, (0 + Z.of_nat (length rids))%Z, rid. unfold small_int in *. split_and!; auto; lia. }
  destruct (decoded_part p k Hp) as [-> | ->]; cbn [length]; split; try lia; split; auto.
Qed.

(** ** Properties *)

(** C30: the threads of the load generator. Whatever the system answers to their calls, as long
    as reads and writes transfer no more than asked and interruptions come to an end, a thread
    ends and nothing undefined happens; it has closed its one socket last and freed each buffer,
    of at most 1048577 bytes, before the next. A TCP thread has sent whole requests and read a
    whole reply to each, up to a turn that broke off; the requests that the server reads in
    these bytes are legacy requests, at most [req_per_thread], and all are answered OK. A UDP
    thread has sent one whole request with each datagram, all of them if it had a socket. *)
Theorem stress_threads_run (sys : system) (N fuel : nat) (cfg : worker_cfg_t) :
  lawful sys N → N + Z.to_nat 1048576 < fuel → small_int (thread_id cfg) → (req_per_thread cfg < 2 ^ 31)%Z →
  let n := Z.to_nat (req_per_thread cfg) in
  (∃ h, thr_fn_tcp sys fuel cfg [] = Done (tt, h) ∧ balanced SOCK_STREAM h
    ∧ turned (thread_id cfg) 0 n (sent h) (received h) ∧ length (decoded (sent h)) ≤ n
    ∧ Forall (λ p, strstr p (quoted (lit "cmd")) = None) (decoded (sent h))
    ∧ replies (sent h) = concat (encode_frame <$> (ok_reply <$> decoded (sent h))))
  ∧ ∃ h, thr_fn_udp sys cfg [] = Done (tt, h) ∧ balanced SOCK_DGRAM h
    ∧ Forall from_client (datagrams h)
    ∧ (length (datagrams h) = n ∨ datagrams h = [] ∧ ∃ m, Perror m ∈ h).
Proof.
  intros Hsys Hf Ht Hn n. split.
  - destruct (adds_done _ _ (thr_fn_tcp_spec sys N Hsys fuel Hf cfg Ht Hn)) as ([] & h & E & Hb & Hh).
    exists h. split; [exact E|]. split; [exact Hb|]. split; [exact Hh|].
    apply turned_decoded in Hh as [Hd Hl]; [|done|unfold n in *; lia]. split; [done|].
    split; [|by apply replies_ok]. eapply Forall_impl; [exact Hd|].
    by intros p (_ & _ & _ & Hc & _)%from_client_ok.
  - destruct (adds_done _ _ (thr_fn_udp_spec sys cfg Ht Hn)) as ([] & h & E & Hh). by exists h.
Qed.

(** A connection that takes 100 bytes at a time, interrupts the second call and is then closed. *)
Definition closing : system :=
  mk_system (λ _, 3%Z) (λ _, 1%Z) (λ _, 0%Z) (λ _, (1700000000, 5000000)%Z)
    (λ h b, if length h =? 5 then inr EINTR else inl (length b `min` 100)) (λ _ _, inl []) (λ _, true) (λ _, 0%Z).

Lemma stress_threads_run_witness :
  let cfg := mk_cfg (lit "127.0.0.1") 9000 false 2 7 in
  ∃ h, thr_fn_tcp closing (Z.to_nat 1048590) cfg [] = Done (tt, h) ∧ balanced SOCK_STREAM h
    ∧ decoded (sent h) = [tcp_text 7 0 1700000000005].
Proof.
  intros cfg. destruct (stress_threads_run closing 6 (Z.to_nat 1048590) cfg) as [(h & E & Hb & _) _].
  - split; cbn.
    + intros h b k. destruct (length h =? 5); [done|]. intros [= <-]. lia.
    + intros h n d [= <-]. cbn. lia.
    + intros h b Hl. destruct (Nat.eqb_spec (length h) 5); [lia|done].
    + done.
  - lia.
  - by split.
  - done.
  - exists h. split; [exact E|]. split; [exact Hb|]. vm_compute in E. injection E as <-. vm_compute. reflexivity.
Defined.

(** C16: a thread and the server. On a connection on which every call succeeds, cut into pieces
    in any way, and whose reads bring what the request handler writes for the requests sent so
    far, a TCP thread sends all of its requests and reads the reply OK to each, and nothing
    else is sent or received. *)
Theorem stress_session_ok (sys : system) (N fuel : nat) (cfg : worker_cfg_t) :
  lawful sys N → serving sys → N + Z.to_nat 1048576 < fuel →
  small_int (thread_id cfg) → (req_per_thread cfg < 2 ^ 31)%Z →
  ∃ h rids, thr_fn_tcp sys fuel cfg [] = Done (tt, h) ∧ length rids = Z.to_nat (req_per_thread cfg)
    ∧ sent h = concat (encode_frame <$> texts (thread_id cfg) 0 rids)
    ∧ received h = concat (encode_frame <$> (ok_reply <$> texts (thread_id cfg) 0 rids)).
Proof.
  intros Hsys Hok Hf Ht Hn.
  assert (adds_wp (thr_fn_tcp sys fuel cfg) [] (λ _ h, ∃ rids, length rids = Z.to_nat (req_per_thread cfg)
    ∧ sent h = concat (encode_frame <$> texts (thread_id cfg) 0 rids)
    ∧ received h = concat (encode_frame <$> (ok_reply <$> texts (thread_id cfg) 0 rids)))) as H.
  { unfold thr_fn_tcp. do 2 adds_step. rewrite (proj2 (Z.ltb_ge _ _)) by apply (serve_socket _ Hok).
    do 2 adds_step. rewrite (serve_pton _ Hok). change (negb (1 =? 1)%Z) with false. cbv iota.
    do 2 adds_step. rewrite (proj2 (Z.ltb_ge _ _)) by apply (serve_connect _ Hok). do 3 adds_step.
    eapply adds_mono; [apply (tcp_turns_served sys N Hsys Hok fuel Hf _ _ _ _ []); try done; lia|].
    intros [] u (rids & H1 & _ & H2 & H3). adds_step. exists rids. split; [done|].
    rewrite !sent_app, !received_app, H2, H3. cbn. by rewrite !app_nil_r. }
  apply adds_done in H as ([] & h & E & rids & H). by exists h, rids.
Qed.

(** A connection that carries at most seven bytes with each call. *)
Definition loopback : system :=
  mk_system (λ _, 3%Z) (λ _, 1%Z) (λ _, 0%Z) (λ h, (1700000000 + Z.of_nat (length h), 0)%Z)
    (λ _ b, inl (length b `min` 7)) (λ h n, inl (take (n `min` 7) (owed h))) (λ _, true) (λ _, 0%Z).

Lemma stress_session_ok_witness :
  let cfg := mk_cfg (lit "127.0.0.1") 9000 false 2 7 in
  ∃ h, thr_fn_tcp loopback (Z.to_nat 1048580) cfg [] = Done (tt, h)
    ∧ decoded (received h) = [legacy_body (lit "t7-0-1700000004000") 1; legacy_body (lit "t7-1-1700000025000") 1].
Proof.
  intros cfg. destruct (stress_session_ok loopback 0 (Z.to_nat 1048580) cfg) as (h & rids & E & _).
  - split; cbn; [intros h b k [= <-]; lia|intros h n d [= <-]; rewrite length_take; lia|done|done].
  - split; cbn; try done.
    + intros h b Hb. destruct b as [|c b]; [done|]. exists (length b `min` 6). cbn. by destruct (length b).
    + intros h n Hn Ho. exists (take (n `min` 7) (owed h)). split; [done|]. split.
      * destruct n as [|n]; [lia|]. destruct (owed h); [done|]. cbn. done.
      * exists (drop (n `min` 7) (owed h)). symmetry. apply take_drop.
  - lia.
  - by split.
  - done.
  - exists h. split; [exact E|]. vm_compute in E. injection E as <-. vm_compute. reflexivity.
Defined.
