(* ===== verification/RecvRun.v ===== *)
(** * RecvRun: the receiver thread with its system calls (userspace/vts/src/threads_recv.c)

    [thr_recv] from its set-up to its end: the pipe is made and opened, registered with epoll,
    read and reopened, and everything is closed when [g_stop] is seen.  The state is the list
    of the calls with an effect outside the thread and the thread's own variables, those of
    Recv.v; what the system answers is an argument. *)
From stdpp Require Import prelude strings list.
From Stdlib Require Import Ascii ZArith Lia.
From S2P Require Import Prelude CString Recv.

Inductive rcall :=
  | Mkfifo
  | Opened (fd : Z)                      (* [open] or [epoll_create1] with its result *)
  | Closed (fd : Z)
  | EpollAdd (ep fd : Z)
  | EpollMod (ep fd : Z)
  | Slept (seconds : Z)
  | Perror (msg : bytes).

#[export] Instance rcall_eq_dec : EqDecision rcall.
Proof. solve_decision. Defined.

Record rrun := mk_rrun { rcalls : list rcall; vars : recv }.

Definition EEXIST : Z := 17.

Definition emit (c : rcall) : mon rrun unit := modify (λ s, mk_rrun (rcalls s ++ [c]) (vars s)).
Definition upd (f : recv → recv) : mon rrun unit := modify (λ s, mk_rrun (rcalls s) (f (vars s))).

(** What [mkfifo] answers, with [errno], and what [open] answers. *)
Record open_ans := mk_ans { mkfifo_rc : Z; mkfifo_errno : Z; open_rc : Z }.

Definition open_fifo_ro (a : open_ans) : mon rrun Z :=
  emit Mkfifo;;
  (if (mkfifo_rc a <? 0)%Z && negb (mkfifo_errno a =? EEXIST)%Z
   then emit (Perror (lit "mkfifo")) else mret tt);;
  emit (Opened (open_rc a));; mret (open_rc a).

(** One turn of the loop: nothing within the timeout; an event with EPOLLHUP or EPOLLERR; a
    read, with what it answers.  The reopening that may follow gets [a]. *)
Inductive turn :=
  | TNone
  | THup (a : open_ans)
  | TRead (r : bytes + Z) (a : open_ans).

(** [close(fd); fd = open_fifo_ro(path);] *)
Definition close_and_open (a : open_ans) : mon rrun Z :=
  f ← gets (λ s, fd (vars s));
  emit (Closed f);;
  f ← open_fifo_ro a;
  upd (set_fd f false);; mret f.

Definition sleep_if_failed (f : Z) : mon rrun unit :=
  if (f <? 0)%Z then emit (Slept (1000 * 100)) else mret tt.

Definition run_turn (ep : Z) (t : turn) : mon rrun unit :=
  match t with
  | TNone => mret tt
  | THup a =>
    f ← close_and_open a;
    if (f <? 0)%Z then emit (Slept (1000 * 100)) else emit (EpollMod ep f);; upd epoll_mod
  | TRead (inr e) a =>
    if (e =? EAGAIN)%Z || (e =? EINTR)%Z then mret tt
    else f ← close_and_open a; sleep_if_failed f
  | TRead (inl []) a => f ← close_and_open a; sleep_if_failed f
  | TRead (inl d) _ => upd (λ s, foldl recv_byte s d)
  end.

Fixpoint run_turns (ep : Z) (ts : list turn) : mon rrun unit :=
  match ts with
  | [] => mret tt
  | t :: ts => run_turn ep t;; run_turns ep ts
  end.

(** [ts]: the turns before [g_stop] is seen. *)
Definition thr_recv (a : open_ans) (epoll_create1 : Z) (ts : list turn) : mon rrun unit :=
  f ← open_fifo_ro a;
  upd (set_fd f false);;
  if (f <? 0)%Z then emit (Perror (lit "open fifo"))
  else
    emit (Opened epoll_create1);;
    if (epoll_create1 <? 0)%Z then emit (Perror (lit "epoll_create1"));; emit (Closed f)
    else
      emit (EpollAdd epoll_create1 f);; upd (set_fd f true);;
      run_turns epoll_create1 ts;;
      f ← gets (λ s, fd (vars s));
      emit (Closed f);; emit (Closed epoll_create1).

Definition rrun_init : rrun := mk_rrun [] (recv_init (-1)).

(** ** The contract *)

Definition opened_fds (cs : list rcall) : list Z :=
  omap (λ c, match c with Opened f => if (f <? 0)%Z then None else Some f | _ => None end) cs.

(** [close] of a negative number does nothing. *)
Definition closed_fds (cs : list rcall) : list Z :=
  omap (λ c, match c with Closed f => if (f <? 0)%Z then None else Some f | _ => None end) cs.

Definition event_of (t : turn) : event :=
  match t with
  | TNone => Quiet
  | THup a => Hup (open_rc a)
  | TRead r a => Readable r (open_rc a)
  end.

(** Events are reported for a registered descriptor only. *)
Fixpoint reported (ts : list turn) (s : recv) : Prop :=
  match ts with
  | [] => True
  | t :: ts => (registered s = false → t = TNone) ∧ reported ts (recv_turn s (event_of t))
  end.

Definition fd_open (f : Z) : list Z := if (f <? 0)%Z then [] else [f].

(** ** Lemmas *)

Lemma opened_fds_app a b : opened_fds (a ++ b) = opened_fds a ++ opened_fds b.
Proof. apply omap_app. Qed.
Lemma closed_fds_app a b : closed_fds (a ++ b) = closed_fds a ++ closed_fds b.
Proof. apply omap_app. Qed.

(** The calls keep the descriptors in [keep] open. *)
Definition keeps (keep : list Z) (cs : list rcall) : Prop :=
  opened_fds cs ≡ₚ closed_fds cs ++ keep.

Lemma wp_rcall c s (Q : unit → rrun → Prop) :
  Q tt (mk_rrun (rcalls s ++ [c]) (vars s)) → wp (emit c) s Q.
Proof. done. Qed.

Lemma wp_rvars f s (Q : unit → rrun → Prop) : Q tt (mk_rrun (rcalls s) (f (vars s))) → wp (upd f) s Q.
Proof. done. Qed.

Ltac calls_steps :=
  repeat first [wp_step | apply wp_rcall | apply wp_rvars]; cbn [rcalls vars].

Lemma keeps_opened k f cs : keeps k cs → keeps (fd_open f ++ k) (cs ++ [Opened f]).
Proof.
  unfold keeps, fd_open. intros H. rewrite opened_fds_app, closed_fds_app, H. cbn.
  destruct (f <? 0)%Z; cbn; rewrite !app_nil_r; [done|]. solve_Permutation.
Qed.

Lemma keeps_closed k f cs : keeps (fd_open f ++ k) cs → keeps k (cs ++ [Closed f]).
Proof.
  unfold keeps, fd_open. intros H. rewrite opened_fds_app, closed_fds_app, H. cbn.
  destruct (f <? 0)%Z; cbn; rewrite !app_nil_r; [done|]. solve_Permutation.
Qed.

(** Other calls. *)
Lemma keeps_other k c cs :
  match c with Opened _ | Closed _ => False | _ => True end → keeps k cs → keeps k (cs ++ [c]).
Proof.
  unfold keeps. intros Hc H. rewrite opened_fds_app, closed_fds_app, H.
  destruct c; try done; cbn; by rewrite !app_nil_r.
Qed.

Lemma open_fifo_ro_spec a s k :
  keeps k (rcalls s) → wp (open_fifo_ro a) s (λ r s', r = open_rc a ∧ vars s' = vars s
    ∧ keeps (fd_open (open_rc a) ++ k) (rcalls s')).
Proof.
  intros Hk. unfold open_fifo_ro. wp_step. apply wp_rcall. wp_step. cbn [rcalls vars].
  destruct (_ && _); [apply wp_rcall|]; calls_steps; (split; [done|]); (split; [done|]);
    apply keeps_opened; repeat (apply keeps_other; [done|]); exact Hk.
Qed.

Lemma close_and_open_spec a s k :
  keeps (fd_open (fd (vars s)) ++ k) (rcalls s) →
  wp (close_and_open a) s (λ r s', r = open_rc a ∧ vars s' = reopen (open_rc a) (vars s)
    ∧ keeps (fd_open (open_rc a) ++ k) (rcalls s')).
Proof.
  intros Hk. unfold close_and_open. do 2 wp_step. wp_step. apply wp_rcall.
  wp_step. eapply wp_mono; [by apply open_fifo_ro_spec, keeps_closed|].
  intros r s' (-> & Hv & Hk'). calls_steps. by rewrite Hv.
Qed.

Lemma sleep_spec f s k :
  keeps k (rcalls s) → wp (sleep_if_failed f) s (λ _ s', vars s' = vars s ∧ keeps k (rcalls s')).
Proof.
  intros Hk. unfold sleep_if_failed. destruct (f <? 0)%Z; [apply wp_rcall|wp_step]; (split; [done|]);
    [by apply keeps_other|done].
Qed.

(** Bytes leave the descriptor alone. *)
Lemma bytes_fd d s : fd (foldl recv_byte s d) = fd s.
Proof.
  revert s. induction d as [|b d IH]; intros s; [done|]. cbn [foldl]. rewrite IH.
  unfold recv_byte. by repeat case_match.
Qed.

(** One turn: what Recv.v says of the variables, and the descriptors. *)
Lemma run_turn_spec ep t s k :
  (registered (vars s) = false → t = TNone) → keeps (fd_open (fd (vars s)) ++ k) (rcalls s) →
  wp (run_turn ep t) s (λ _ s', vars s' = recv_turn (vars s) (event_of t)
    ∧ keeps (fd_open (fd (vars s')) ++ k) (rcalls s')).
Proof.
  intros Hr Hk. destruct t as [|a|r a]; cbn [run_turn event_of].
  - wp_step. split; [|done]. unfold recv_turn. by destruct (negb _).
  - unfold recv_turn. destruct (registered (vars s)) eqn:Er; [|by specialize (Hr eq_refl)]. cbn [negb].
    wp_step. eapply wp_mono; [by apply close_and_open_spec|]. intros f s' (-> & Hv & Hk'). cbv beta.
    cbn [fd reopen set_fd]. destruct (open_rc a <? 0)%Z.
    + apply wp_rcall. cbn [vars rcalls]. rewrite Hv. split; [done|]. by apply keeps_other.
    + calls_steps. rewrite Hv. split; [done|]. by apply keeps_other.
  - unfold recv_turn. destruct (registered (vars s)) eqn:Er; [|by specialize (Hr eq_refl)]. cbn [negb].
    assert (wp (f ← close_and_open a; sleep_if_failed f) s (λ _ s', vars s' = reopen (open_rc a) (vars s)
      ∧ keeps (fd_open (fd (vars s')) ++ k) (rcalls s'))) as Hre.
    { wp_step. eapply wp_mono; [by apply close_and_open_spec|]. intros f s' (-> & Hv & Hk'). cbv beta.
      eapply wp_mono; [by apply sleep_spec|]. intros [] s2 [Hv2 Hk2]. rewrite Hv2, Hv. by split. }
    destruct r as [[|b d]|e]; cbn [run_turn].
    + exact Hre.
    + apply wp_rvars. cbn [vars rcalls]. rewrite bytes_fd. by split.
    + destruct (_ || _); [by wp_step|exact Hre].
Qed.

Lemma run_turns_spec ep ts s k :
  reported ts (vars s) → keeps (fd_open (fd (vars s)) ++ k) (rcalls s) →
  wp (run_turns ep ts) s (λ _ s', vars s' = foldl recv_turn (vars s) (event_of <$> ts)
    ∧ keeps (fd_open (fd (vars s')) ++ k) (rcalls s')).
Proof.
  revert s. induction ts as [|t ts IH]; intros s Hr Hk; cbn [run_turns].
  - wp_step. by split.
  - destruct Hr as [Hr Hrs]. wp_step. eapply wp_mono; [by apply run_turn_spec|].
    intros [] s' [Hv Hk']. cbv beta. rewrite <- Hv in Hrs.
    eapply wp_mono; [by apply IH|]. intros [] s2 [Hv2 Hk2]. split; [|done].
    cbn [fmap list_fmap foldl]. by rewrite <- Hv.
Qed.

(** ** Properties *)

(** C29: the receiver thread from start to stop. Whatever the system answers, every descriptor
    that the thread is given, for the pipe however often it is reopened and for epoll, has been
    closed exactly once when the thread ends; and when its set-up succeeds and events are
    reported for registered descriptors only, the lines pushed are those that the turns of
    Recv.v push, which is nothing after the first reopening. *)
Theorem recv_thread_runs (a : open_ans) (ep : Z) (ts : list turn) :
  reported ts (recv_init (open_rc a)) →
  ∃ s, thr_recv a ep ts rrun_init = Done (tt, s)
    ∧ opened_fds (rcalls s) ≡ₚ closed_fds (rcalls s)
    ∧ pushed_lines (vars s) =
        if (open_rc a <? 0)%Z || (ep <? 0)%Z then []
        else pushed_lines (foldl recv_turn (recv_init (open_rc a)) (event_of <$> ts)).
Proof.
  intros Hr.
  assert (wp (thr_recv a ep ts) rrun_init (λ _ s, keeps [] (rcalls s) ∧ pushed_lines (vars s) =
    if (open_rc a <? 0)%Z || (ep <? 0)%Z then []
    else pushed_lines (foldl recv_turn (recv_init (open_rc a)) (event_of <$> ts)))) as H.
  { unfold thr_recv. wp_step. eapply wp_mono; [apply (open_fifo_ro_spec a rrun_init []); by unfold keeps|].
    intros r [cs v] (-> & Hv & Hk). cbn [vars rcalls] in *. subst v. rewrite app_nil_r in Hk.
    wp_step. apply wp_rvars. cbn [vars rcalls rrun_init].
    assert (fd_open (open_rc a) = if (open_rc a <? 0)%Z then [] else [open_rc a]) as Ef by done.
    destruct (open_rc a <? 0)%Z; cbn [orb].
    - apply wp_rcall. cbn [rcalls vars]. rewrite Ef in Hk. split; [by apply keeps_other|done].
    - wp_step. apply wp_rcall. cbn [rcalls vars]. apply (keeps_opened _ ep) in Hk.
      destruct (ep <? 0)%Z eqn:Eep.
      + calls_steps. split; [|done]. apply keeps_closed, keeps_other; [done|].
        unfold fd_open in Hk at 1. rewrite Eep in Hk. by rewrite app_nil_r.
      + wp_step. apply wp_rcall. wp_step. apply wp_rvars. wp_step. cbn [rcalls vars].
        eapply wp_mono; [apply (run_turns_spec ep ts _ (fd_open ep))|]; cbn [rcalls vars].
        * exact Hr.
        * apply keeps_other; [done|]. cbn [fd set_fd]. unfold keeps in *. rewrite Hk. solve_Permutation.
        * intros [] [cs2 v2] [Hv2 Hk2]. cbn [rcalls vars] in *. calls_steps. rewrite Hv2.
          split; [|done]. do 2 apply keeps_closed. by rewrite app_nil_r, <- Hv2. }
  apply wp_done in H as ([] & s & E & Hk & Hl). exists s. split; [done|]. split; [|done].
  unfold keeps in Hk. by rewrite app_nil_r in Hk.
Qed.

Lemma recv_thread_runs_witness :
  let a f := mk_ans 0 0 f in
  let ts := [TNone; TRead (inl (lit "one" ++ [LF])) (a 9%Z); THup (a 7%Z); TNone] in
  ∃ s, thr_recv (a 5%Z) 6 ts rrun_init = Done (tt, s)
    ∧ opened_fds (rcalls s) ≡ₚ closed_fds (rcalls s) ∧ pushed_lines (vars s) = [lit "one"].
Proof.
  intros a ts. destruct (recv_thread_runs (a 5%Z) 6 ts) as (s & E & Ho & Hp).
  - cbn. by split_and!.
  - exists s. split; [exact E|]. split; [exact Ho|]. etransitivity; [exact Hp|]. reflexivity.
Defined.
