(* ===== verification/Log.v ===== *)
(** * Log: the log files of userspace/vts/src/log_write.c

    Two streams write [logs/vts.log]: [fp], of [vts_log_write], which rotates the files when
    the log has grown past [MAXB], and [g_logf], of [log_write_req_result].  A directory maps
    the names 0, 1 and 2 (vts.log, vts.log.1, vts.log.2) to inodes; an open stream appends to
    its inode, whatever name that has by then.  Every print is flushed as one append.  When
    the directory cannot be written [fopen] fails; [fprintf] to a NULL stream is undefined. *)
From stdpp Require Import prelude strings list gmap.
From Stdlib Require Import Ascii ZArith Lia.
From S2P Require Import Prelude CString.

Abbreviation inode := nat.

Record logs := mk_logs {
  names : gmap nat inode;
  data : gmap inode bytes;
  fp : option inode;
  g_logf : option inode }.

Section log.
Context (writable : bool) (MAXB : nat).

(** ** The file system *)

Definition next_inode (d : gmap inode bytes) : inode :=
  map_fold (λ i _ acc, Nat.max (S i) acc) 0 d.

(** [fopen(LOG0, "a")] *)
Definition fopen_log0 : mon logs (option inode) := λ s,
  if writable then
    match names s !! 0 with
    | Some i => Done (Some i, s)
    | None =>
      let i := next_inode (data s) in
      Done (Some i, mk_logs (<[0 := i]> (names s)) (<[i := []]> (data s)) (fp s) (g_logf s))
    end
  else Done (None, s).

Definition rename (a b : nat) : mon logs unit := modify (λ s,
  match names s !! a with
  | Some i => mk_logs (delete a (<[b := i]> (names s))) (data s) (fp s) (g_logf s)
  | None => s
  end).

Definition append (f : option inode) (t : bytes) : mon logs unit :=
  i ← lift f;
  modify (λ s, mk_logs (names s) (<[i := default [] (data s !! i) ++ t]> (data s)) (fp s) (g_logf s)).

(** ** log_write.c *)

Definition rotate : mon logs unit := rename 1 2;; rename 0 1.

Definition set_fp (f : option inode) (s : logs) : logs := mk_logs (names s) (data s) f (g_logf s).
Definition set_g_logf (f : option inode) (s : logs) : logs := mk_logs (names s) (data s) (fp s) f.

Definition ensure_open : mon logs unit :=
  f ← gets fp;
  match f with
  | None => f ← fopen_log0; modify (set_fp f)
  | Some _ => mret tt
  end.

Definition vts_log_write (t : bytes) : mon logs unit :=
  ensure_open;;
  f ← gets fp;
  append f t;;
  size ← gets (λ s, length (default [] (i ← f; data s !! i)));
  if MAXB <? size then
    modify (set_fp None);;
    rotate;;
    ensure_open
  else mret tt.

Definition vts_log_write_line (line : bytes) : mon logs unit := vts_log_write (line ++ [LF]).

Definition ensure_log_open : mon logs unit :=
  f ← gets g_logf;
  match f with
  | Some _ => mret tt
  | None => f ← fopen_log0; modify (set_g_logf f)
  end.

(** [ts] is the time stamp. *)
Definition result_line (ts req_id : bytes) (success : Z) : bytes :=
  ts ++ lit " req_id=" ++ req_id ++ lit " result="
  ++ (if bool_of_int success then lit "OK" else lit "ERR") ++ [LF].

Definition log_write_req_result (ts req_id : bytes) (success : Z) : mon logs unit :=
  ensure_log_open;;
  f ← gets g_logf;
  match f with
  | Some _ => append f (result_line ts req_id success)
  | None => mret tt
  end.

Inductive log_op := Line (t : bytes) | Result (ts req_id : bytes) (success : Z).

Definition log_step (o : log_op) : mon logs unit :=
  match o with
  | Line t => vts_log_write_line t
  | Result ts req_id success => log_write_req_result ts req_id success
  end.

Fixpoint log_run (ops : list log_op) : mon logs unit :=
  match ops with [] => mret tt | o :: ops => log_step o;; log_run ops end.
End log.

Definition logs_init : logs := mk_logs ∅ ∅ None None.

(** ** The contract *)

Definition content (s : logs) (n : nat) : option bytes := i ← names s !! n; data s !! i.

(** The three files under [vts_log_write] alone. *)
Definition files : Type := option bytes * option bytes * option bytes.
Definition view (s : logs) : files := (content s 0, content s 1, content s 2).

Definition spec_line (maxb : nat) (f : files) (t : bytes) : files :=
  let '(l0, l1, l2) := f in
  let c := default [] l0 ++ t ++ [LF] in
  if maxb <? length c then (Some [], Some c, match l1 with Some c => Some c | None => l2 end)
  else (Some c, l1, l2).

(** The directory is sound: names stand for distinct, existing inodes. *)
Record wf_logs (s : logs) : Prop := {
  wf_alloc n i : names s !! n = Some i → is_Some (data s !! i);
  wf_distinct a b i : names s !! a = Some i → names s !! b = Some i → a = b;
  wf_fp i : fp s = Some i → names s !! 0 = Some i;
  wf_g i : g_logf s = Some i → is_Some (data s !! i) }.

(** ** Lemmas *)

Lemma next_inode_new d i : is_Some (d !! i) → i < next_inode d.
Proof.
  rewrite <- elem_of_dom. unfold next_inode.
  apply (map_fold_weak_ind (λ r d', i ∈ dom d' → i < r)).
  - rewrite dom_empty_L. by intros ?%not_elem_of_empty.
  - intros j x d' r _ IH. rewrite dom_insert_L, elem_of_union, elem_of_singleton.
    intros [->|Hi%IH]; lia.
Qed.

Lemma next_inode_fresh d : d !! next_inode d = None.
Proof.
  destruct (d !! next_inode d) eqn:E; [|done].
  assert (is_Some (d !! next_inode d)) as H%next_inode_new by eauto. lia.
Qed.

Section lemmas.
Context (MAXB : nat).
Abbreviation vts_log_write := (vts_log_write true MAXB).
Abbreviation ensure_open := (ensure_open true).

(** What the operations of one stream keep of the other. *)
Definition data_kept (s s' : logs) : Prop := ∀ i, is_Some (data s !! i) → is_Some (data s' !! i).

Lemma content_eq s s' n : names s' = names s → data s' = data s → content s' n = content s n.
Proof. unfold content. by intros -> ->. Qed.

Lemma fopen_spec s :
  wf_logs s → wp (fopen_log0 true) s (λ r s', wf_logs s' ∧ fp s' = fp s ∧ g_logf s' = g_logf s ∧
    data_kept s s' ∧ content s' 0 = Some (default [] (content s 0)) ∧
    content s' 1 = content s 1 ∧ content s' 2 = content s 2 ∧
    ∃ i, r = Some i ∧ names s' !! 0 = Some i ∧
      (data s !! i = None ∨ names s !! 0 = Some i)).
Proof.
  intros Hwf. unfold wp, fopen_log0. destruct (names s !! 0) as [i|] eqn:E.
  - split; [done|]. split; [done|]. split; [done|]. split; [by intros j|].
    assert (∃ c, content s 0 = Some c) as [c Hc].
    { unfold content. rewrite E. simpl. by destruct (wf_alloc s Hwf 0 i E) as [c ->]; eauto. }
    rewrite Hc. split; [done|]. split; [done|]. split; [done|]. exists i. split_and!; auto.
  - pose proof (next_inode_fresh (data s)) as Hf. set (i := next_inode (data s)) in *.
    assert (∀ n j, names s !! n = Some j → j ≠ i) as Hne.
    { intros n j Hj ->. destruct (wf_alloc s Hwf n i Hj). congruence. }
    split.
    { split; cbn.
      - intros n j. rewrite lookup_insert_Some. intros [[<- <-]|[Hn Hj]].
        + rewrite lookup_insert_eq. eauto.
        + rewrite lookup_insert_ne by (symmetry; by eapply Hne). by eapply wf_alloc.
      - intros a b j. rewrite !lookup_insert_Some.
        intros [[<- <-]|[Ha Hja]] [[<- Hi]|[Hb Hjb]]; try done.
        + by apply Hne in Hjb.
        + by apply Hne in Hja.
        + by eapply wf_distinct.
      - intros j Hj. apply wf_fp in Hj; [|done]. congruence.
      - intros j Hj%wf_g; [|done]. destruct (decide (i = j)) as [->|]; [rewrite lookup_insert_eq; eauto|].
        by rewrite lookup_insert_ne. }
    split; [done|]. split; [done|]. split.
    { intros j Hj. cbn. destruct (decide (i = j)) as [->|]; [rewrite lookup_insert_eq; eauto|].
      by rewrite lookup_insert_ne. }
    unfold content. rewrite E. cbn. rewrite lookup_insert_eq. cbn. rewrite lookup_insert_eq.
    split; [done|]. rewrite !lookup_insert_ne by done.
    assert (∀ n, (j ← names s !! n; <[i := []]> (data s) !! j) = (j ← names s !! n; data s !! j)) as Hc.
    { intros n. destruct (names s !! n) as [j|] eqn:Ej; [|done]. cbn.
      rewrite lookup_insert_ne; [done|]. symmetry. by eapply Hne. }
    rewrite !Hc. split; [done|]. split; [done|]. exists i. split_and!; auto.
Qed.

Lemma wf_set_fp s f :
  wf_logs s → (∀ i, f = Some i → names s !! 0 = Some i) → wf_logs (set_fp f s).
Proof. intros [] Hf. by split. Qed.

Lemma ensure_open_spec s :
  wf_logs s → wp ensure_open s (λ _ s', wf_logs s' ∧ g_logf s' = g_logf s ∧ data_kept s s' ∧
    content s' 0 = Some (default [] (content s 0)) ∧
    content s' 1 = content s 1 ∧ content s' 2 = content s 2 ∧
    ∃ i, fp s' = Some i ∧ names s' !! 0 = Some i ∧
      (data s !! i = None ∨ names s !! 0 = Some i)).
Proof.
  intros Hwf. unfold Log.ensure_open. do 2 wp_step. destruct (fp s) as [i|] eqn:E.
  - wp_step. pose proof (wf_fp s Hwf i E) as Hi. destruct (wf_alloc s Hwf 0 i Hi) as [c Hc].
    split; [done|]. split; [done|]. split; [by intros j|].
    assert (content s 0 = Some c) as -> by (unfold content; by rewrite Hi).
    split; [done|]. split; [done|]. split; [done|]. exists i. split_and!; auto.
  - wp_step. eapply wp_mono; [by apply fopen_spec|].
    intros r s' (Hwf' & Hfp & Hg & Hd & H0 & H1 & H2 & i & -> & Hi & Hnew). wp_step.
    split; [apply wf_set_fp; [done|congruence]|]. split; [done|]. split; [done|].
    split; [done|]. split; [done|]. split; [done|]. by exists i.
Qed.

(** Appending to the file that [fp] has open. *)
Lemma append_spec s i t :
  wf_logs s → is_Some (data s !! i) →
  wp (append (Some i) t) s (λ _ s', wf_logs s' ∧ fp s' = fp s ∧ g_logf s' = g_logf s ∧
    names s' = names s ∧ data_kept s s' ∧
    data s' !! i = Some (default [] (data s !! i) ++ t) ∧
    ∀ n, names s !! n ≠ Some i → content s' n = content s n).
Proof.
  intros Hwf Hi. unfold append. do 2 wp_step. wp_step.
  assert (∀ j, is_Some (data s !! j) → is_Some (<[i := default [] (data s !! i) ++ t]> (data s) !! j)) as Hk.
  { intros j Hj. destruct (decide (i = j)) as [->|]; [rewrite lookup_insert_eq; eauto|].
    by rewrite lookup_insert_ne. }
  split; [|split; [done|]; split; [done|]; split; [done|]; split; [done|]; split].
  - split; cbn; [|by eapply wf_distinct|by apply wf_fp|].
    + intros n j Hj. by eapply Hk, wf_alloc.
    + intros j Hj. by eapply Hk, wf_g.
  - cbn. by rewrite lookup_insert_eq.
  - intros n Hn. unfold content. cbn. destruct (names s !! n) as [j|]; [|done]. cbn.
    rewrite lookup_insert_ne; [done|]. congruence.
Qed.

Lemma rename_spec s a b :
  wf_logs s → fp s = None → a ≠ b →
  wp (rename a b) s (λ _ s', wf_logs s' ∧ fp s' = None ∧ g_logf s' = g_logf s ∧ data s' = data s ∧
    names s' !! a = None ∧
    names s' !! b = match names s !! a with Some i => Some i | None => names s !! b end ∧
    ∀ n, n ≠ a → n ≠ b → names s' !! n = names s !! n).
Proof.
  intros Hwf Hfp Hab. unfold rename. wp_step. destruct (names s !! a) as [i|] eqn:E.
  - split.
    { split; cbn.
      - intros n j [_ Hj]%lookup_delete_Some. apply lookup_insert_Some in Hj as [[_ <-]|[_ Hj]];
          by eapply wf_alloc.
      - intros x y j [Hx Hjx]%lookup_delete_Some [Hy Hjy]%lookup_delete_Some.
        apply lookup_insert_Some in Hjx as [[<- <-]|[Hbx Hjx]];
          apply lookup_insert_Some in Hjy as [[<- Hjy]|[Hby Hjy]]; try done.
        + destruct Hy. by eapply (wf_distinct s Hwf a y).
        + subst. destruct Hx. by eapply (wf_distinct s Hwf a x).
        + by eapply (wf_distinct s Hwf).
      - congruence.
      - by apply wf_g. }
    cbn. split_and!; try done.
    + apply lookup_delete_eq.
    + rewrite lookup_delete_ne by done. by rewrite lookup_insert_eq.
    + intros n Ha Hb. by rewrite lookup_delete_ne, lookup_insert_ne.
  - by split_and!.
Qed.

Lemma rotate_spec s :
  wf_logs s → fp s = None → is_Some (content s 0) →
  wp rotate s (λ _ s', wf_logs s' ∧ fp s' = None ∧ g_logf s' = g_logf s ∧ data s' = data s ∧
    names s' !! 0 = None ∧ content s' 0 = None ∧ content s' 1 = content s 0 ∧
    content s' 2 = match content s 1 with Some c => Some c | None => content s 2 end).
Proof.
  intros Hwf Hfp H0. unfold rotate. wp_step. eapply wp_mono; [by apply rename_spec|].
  intros [] s1 (Hwf1 & Hfp1 & Hg1 & Hd1 & H11 & H12 & Hn1). 
  eapply wp_mono; [by apply rename_spec|].
  intros [] s2 (Hwf2 & Hfp2 & Hg2 & Hd2 & H20 & H21 & Hn2).
  split; [done|]. split; [done|]. split; [congruence|]. split; [congruence|]. split; [done|].
  unfold content in *. rewrite H20. split; [done|].
  rewrite H21, (Hn1 0), (Hn2 2), H12, Hd2, Hd1 by done.
  destruct (names s !! 0) as [i|]; [|by destruct H0]. split; [done|].
  destruct (names s !! 1) as [j|] eqn:E; [|done]. cbn.
  by destruct (wf_alloc s Hwf 1 j E) as [c ->].
Qed.

(** One line through [fp]: the contract, and no stream left on a renamed file. *)
Lemma line_spec s t :
  wf_logs s → wp (log_step true MAXB (Line t)) s (λ _ s', wf_logs s' ∧ g_logf s' = g_logf s ∧
    is_Some (fp s') ∧ view s' = spec_line MAXB (view s) t ∧
    ∀ i, g_logf s = Some i →
      (names s !! 0 ≠ Some i → names s' !! 0 ≠ Some i) ∧
      (MAXB < length (default [] (content s 0) ++ t ++ [LF]) → names s' !! 0 ≠ Some i)).
Proof.
  intros Hwf. cbn [log_step]. unfold vts_log_write_line, Log.vts_log_write. wp_step.
  eapply wp_mono; [by apply ensure_open_spec|].
  intros [] s1 (Hwf1 & Hg1 & Hd1 & H10 & H11 & H12 & i & Hfp1 & Hi1 & Hnew1).
  do 2 wp_step. rewrite Hfp1. wp_step.
  pose proof (wf_alloc s1 Hwf1 0 i Hi1) as Ha.
  eapply wp_mono; [by apply append_spec|].
  intros [] s2 (Hwf2 & Hfp2 & Hg2 & Hn2 & Hd2 & Hdi & Hc2). do 2 wp_step. cbn [mbind option_bind].
  assert (data s1 !! i = Some (default [] (content s 0))) as Ec.
  { unfold content in H10 at 1. rewrite Hi1 in H10. exact H10. }
  rewrite Ec in Hdi. cbn [default] in Hdi.
  assert (content s2 0 = Some (default [] (content s 0) ++ t ++ [LF])) as H20
    by (unfold content at 1; rewrite Hn2, Hi1; exact Hdi).
  assert (∀ n, n ≠ 0 → content s2 n = content s1 n) as Hoth.
  { intros n Hn. apply Hc2. intros E. by apply Hn, (wf_distinct s1 Hwf1 n 0 i). }
  assert (∀ j, g_logf s = Some j → names s !! 0 ≠ Some j → i ≠ j) as Hkeep.
  { intros j Hj H0 ->. destruct Hnew1 as [Hnew|]; [|done].
    destruct (wf_g s Hwf j Hj). congruence. }
  rewrite Hdi. cbn [default]. unfold view, spec_line.
  rewrite <- H11, <- H12, <- !Hoth by done.
  wp_step.
  - apply Nat.ltb_lt in Hb. change (MAXB < length (default [] (content s 0) ++ t ++ [LF])) in Hb.
    do 3 wp_step.
    eapply wp_mono; [apply rotate_spec; [by apply wf_set_fp|done|by eexists]|].
    intros [] s3 (Hwf3 & Hfp3 & Hg3 & Hd3 & Hn3 & H30 & H31 & H32).
    eapply wp_mono; [by apply ensure_open_spec|].
    intros [] s4 (Hwf4 & Hg4 & Hd4 & H40 & H41 & H42 & k & Hfp4 & Hk4 & Hnew4).
    split; [done|]. split; [cbn in *; congruence|]. split; [by eexists|].
    rewrite H40, H41, H42, H30, H31, H32. cbn [default].
    rewrite !(content_eq s2 (set_fp None s2)) by done. rewrite H20. split; [by rewrite ?(proj2 (Nat.ltb_lt _ _) Hb)|].
    assert (∀ j, g_logf s = Some j → names s4 !! 0 ≠ Some j) as Hne; [|by auto].
    intros j Hj Hj4. destruct Hnew4 as [Hnew4|]; [|congruence].
    assert (is_Some (data s !! j)) as Hsj by by apply (wf_g s Hwf).
    apply Hd1, Hd2 in Hsj. cbn in Hd3. rewrite <- Hd3 in Hsj. destruct Hsj. congruence.
  - apply Nat.ltb_ge in Hb. change (length (default [] (content s 0) ++ t ++ [LF]) ≤ MAXB) in Hb.
    wp_step.
    split; [done|]. split; [congruence|]. split; [rewrite Hfp2; by eexists|].
    rewrite H20. split; [by rewrite ?(proj2 (Nat.ltb_ge _ _) Hb)|]. intros j Hj. rewrite Hn2, Hi1. split.
    + intros H0 [= ->]. by apply (Hkeep j).
    + intros. lia.
Qed.

(** A result goes to the inode that [g_logf] has open. *)
Lemma result_spec s j ts id z :
  wf_logs s → g_logf s = Some j →
  wp (log_step true MAXB (Result ts id z)) s (λ _ s', wf_logs s' ∧ g_logf s' = Some j ∧
    fp s' = fp s ∧ names s' = names s ∧
    data s' !! j = Some (default [] (data s !! j) ++ result_line ts id z) ∧
    ∀ n, names s !! n ≠ Some j → content s' n = content s n).
Proof.
  intros Hwf Hj. cbn [log_step]. unfold log_write_req_result, ensure_log_open.
  do 3 wp_step. rewrite Hj. wp_step. do 2 wp_step. rewrite Hj.
  eapply wp_mono; [apply append_spec; [done|by apply wf_g]|].
  intros [] s' (H1 & H2 & H3 & H4 & _ & H5 & H6). by rewrite Hj in H3.
Qed.

Lemma lines_spec ts s :
  wf_logs s → wp (log_run true MAXB (Line <$> ts)) s (λ _ s', wf_logs s' ∧
    view s' = foldl (spec_line MAXB) (view s) ts).
Proof.
  revert s. induction ts as [|t ts IH]; intros s Hwf; cbn [fmap list_fmap log_run foldl].
  - by wp_step.
  - wp_step. eapply wp_mono; [by apply line_spec|]. intros [] s1 (Hwf1 & _ & _ & Hv & _).
    eapply wp_mono; [by apply IH|]. intros [] s2 [Hwf2 ->]. by rewrite Hv.
Qed.
End lemmas.

Lemma wf_logs_init : wf_logs logs_init.
Proof. split; unfold logs_init; cbn; intros *; by rewrite ?lookup_empty. Qed.

(** ** The contract's own laws *)

Definition size_of (c : option bytes) : nat := length (default [] c).

(** Nothing is lost but the oldest file, and the live log stays within bounds. *)
Lemma spec_lines_keep maxb ts f0 :
  (f0.1.2 = None → f0.2 = None) → size_of f0.1.1 ≤ maxb →
  let '(l0, l1, l2) := foldl (spec_line maxb) f0 ts in
  (l1 = None → l2 = None) ∧ size_of l0 ≤ maxb ∧
  ∃ lost, default [] f0.2 ++ default [] f0.1.2 ++ default [] f0.1.1
          ++ concat ((λ t, t ++ [LF]) <$> ts)
    = lost ++ default [] l2 ++ default [] l1 ++ default [] l0.
Proof.
  revert f0. induction ts as [|t ts IH]; intros [[l0 l1] l2] Hn Hs; cbn [foldl fst snd] in *.
  - split; [done|]. split; [done|]. exists []. cbn. by rewrite app_nil_r.
  - unfold spec_line at 2. destruct (Nat.ltb_spec maxb (length (default [] l0 ++ t ++ [LF]))) as [Hr|Hr].
    + specialize (IH (Some [], Some (default [] l0 ++ t ++ [LF]),
        match l1 with Some c => Some c | None => l2 end)).
      destruct (foldl _ _ ts) as [[k0 k1] k2]. destruct IH as (H1 & H2 & lost & H3); cbn in *; [done|lia|].
      split; [done|]. split; [done|]. destruct l1 as [c|]; cbn in *.
      * exists (default [] l2 ++ lost). rewrite <- (app_assoc _ lost), <- H3. by rewrite <- !app_assoc.
      * rewrite Hn in * by done. cbn in *. exists lost. rewrite <- H3. by rewrite <- !app_assoc.
    + specialize (IH (Some (default [] l0 ++ t ++ [LF]), l1, l2)).
      destruct (foldl _ _ ts) as [[k0 k1] k2]. destruct IH as (H1 & H2 & lost & H3); cbn in *; [done|done|].
      split; [done|]. split; [done|]. exists lost. rewrite <- H3. by rewrite <- !app_assoc.
Qed.

(** The lines among the operations, and what the live log holds when only they reach it. *)
Definition lines_of (ops : list log_op) : list bytes :=
  omap (λ o, match o with Line t => Some t | Result _ _ _ => None end) ops.

Definition spec_live (maxb : nat) (c : option bytes) (t : bytes) : option bytes :=
  (spec_line maxb (c, None, None) t).1.1.

Lemma spec_line_live maxb f t : (spec_line maxb f t).1.1 = spec_live maxb f.1.1 t.
Proof. destruct f as [[l0 l1] l2]. unfold spec_live, spec_line. by destruct (_ <? _). Qed.

(** A result stream whose file is not the live log never reaches it again. *)
Lemma detached_run maxb ops j s :
  wf_logs s → g_logf s = Some j → names s !! 0 ≠ Some j →
  wp (log_run true maxb ops) s (λ _ s', content s' 0 = foldl (spec_live maxb) (content s 0) (lines_of ops)).
Proof.
  revert s. induction ops as [|[t|ts i z] ops IH]; intros s Hwf Hg Hn; cbn [log_run].
  - by wp_step.
  - wp_step. eapply wp_mono; [by apply line_spec|]. intros [] s1 (Hwf1 & Hg1 & _ & Hv & Hd).
    destruct (Hd j Hg) as [Hd1 _]. eapply wp_mono; [apply IH; [done|congruence|by apply Hd1]|].
    intros [] s2 ->. cbn [lines_of omap list_omap foldl]. f_equal.
    apply (f_equal (λ v : files, v.1.1)) in Hv. rewrite spec_line_live in Hv. exact Hv.
  - wp_step. eapply wp_mono; [by apply result_spec|].
    intros [] s1 (Hwf1 & Hg1 & _ & Hn1 & _ & Hc). eapply wp_mono; [apply IH; [done|done|by rewrite Hn1]|].
    intros [] s2 ->. by rewrite (Hc 0).
Qed.

(** ** Properties *)

(** C25: rotation. For any limit and any sequence of lines written from an empty directory,
    the three files are those of the contract; the live log never exceeds the limit; and the
    oldest file, the middle one and the live log together are the end of what was written,
    in order, nothing repeated and nothing missing in between. *)
Theorem log_rotates (maxb : nat) (ts : list bytes) :
  ∃ s, log_run true maxb (Line <$> ts) logs_init = Done (tt, s) ∧
    view s = foldl (spec_line maxb) (None, None, None) ts ∧
    size_of (content s 0) ≤ maxb ∧
    ∃ lost, concat ((λ t, t ++ [LF]) <$> ts)
      = lost ++ default [] (content s 2) ++ default [] (content s 1) ++ default [] (content s 0).
Proof.
  pose proof (lines_spec maxb ts logs_init wf_logs_init) as H.
  apply wp_done in H as ([] & s & E & _ & Hv). exists s. split; [done|]. split; [exact Hv|].
  pose proof (spec_lines_keep maxb ts (view logs_init)) as H. rewrite <- Hv in H.
  destruct H as (_ & H1 & lost & H2); [done|apply Nat.le_0_l|]. split; [done|]. by exists lost.
Qed.

(** Results after a rotation. Once the result stream has been opened, the first line that
    makes [vts_log_write] rotate the files separates it from the live log for good: whatever
    is logged afterwards, the live log holds the plain lines only, and every request result
    goes to the renamed (and later unlinked) file. *)
Theorem results_leave_live_log (maxb : nat) (s : logs) (j : inode) (t : bytes) (ops : list log_op) :
  wf_logs s → g_logf s = Some j →
  maxb < length (default [] (content s 0) ++ t ++ [LF]) →
  ∃ s', log_run true maxb (Line t :: ops) s = Done (tt, s') ∧
    content s' 0 = foldl (spec_live maxb) (Some []) (lines_of ops).
Proof.
  intros Hwf Hg Hl. pose proof (line_spec maxb s t Hwf) as H.
  apply wp_done in H as ([] & s1 & E & Hwf1 & Hg1 & _ & Hv & Hd).
  destruct (Hd j Hg) as [_ Hd1]. specialize (Hd1 Hl).
  pose proof (detached_run maxb ops j s1 Hwf1 ltac:(congruence) Hd1) as H.
  apply wp_done in H as ([] & s2 & E2 & Hc). exists s2. cbn [log_run].
  unfold mbind, mon_bind. rewrite E. split; [done|]. rewrite Hc. f_equal.
  apply (f_equal (λ v : files, v.1.1)) in Hv.
  change (content s1 0 = (spec_line maxb (view s) t).1.1) in Hv. rewrite Hv.
  unfold view, spec_line. by rewrite (proj2 (Nat.ltb_lt _ _)).
Qed.

Lemma results_leave_live_log_witness :
  let s := mk_logs {[0 := 7]} {[7 := lit "12345678"]} (Some 7) (Some 7) in
  ∃ s', log_run true 8 [Line (lit "x"); Result (lit "t") (lit "r1") 1; Result (lit "t") (lit "r2") 0] s
        = Done (tt, s') ∧ content s' 0 = Some [].
Proof.
  intros s. apply (results_leave_live_log 8 s 7 (lit "x")
    [Result (lit "t") (lit "r1") 1; Result (lit "t") (lit "r2") 0]).
  - split; cbn.
    + intros n i Hn. destruct (decide (n = 0)) as [->|].
      * rewrite lookup_singleton_eq in Hn. injection Hn as <-. by eexists.
      * by rewrite lookup_singleton_ne in Hn.
    + intros a b i [<- _]%lookup_singleton_Some [<- _]%lookup_singleton_Some. done.
    + intros i [= <-]. done.
    + intros i [= <-]. by eexists.
  - reflexivity.
  - apply Nat.ltb_lt. reflexivity.
Defined.

(** No log directory. When [logs/vts.log] cannot be opened, [log_write_req_result] does
    nothing, but [vts_log_write] prints to a NULL stream. *)
Theorem unwritable_log (maxb : nat) (t ts i : bytes) (z : Z) :
  log_step false maxb (Line t) logs_init = Undef ∧
  log_step false maxb (Result ts i z) logs_init = Done (tt, logs_init).
Proof. by split. Qed.
