(* ===== verification/SharedLog.v ===== *)
(** * SharedLog: the coordinator and a worker in one log (userspace/vts/src/log_write.c)

    [vts_log_write_line] of the coordinator and [log_write_req_result] of the workers with the
    calls of each as steps that interleave.  The workers exclude each other with [g_log_lock],
    so that one of them is in the log at a time; the coordinator takes no lock.  The operations
    on files are those of Log.v; a schedule says who moves, and whether [fopen] succeeds if the
    step calls it. *)
From stdpp Require Import prelude strings list gmap sorting.
From Stdlib Require Import Ascii ZArith Lia.
From S2P Require Import Prelude CString Log.

(** The next call of [vts_log_write]: [vfprintf] and [fflush], [fstat], the two [rename] of
    [rotate], [ensure_open] at the end. *)
Inductive cpc := CIdle | CPrint (t : bytes) | CSize | CRename1 | CRename2 | CReopen.
(** The next call of [log_write_req_result], under the lock. *)
Inductive wpc := WIdle | WPrint (t : bytes).

Record shared := mk_shared {
  lg : logs;
  coord : cpc;
  worker : wpc;
  lines : list bytes;                    (* what the coordinator has still to log *)
  results : list (bytes * bytes * Z) }.  (* and the workers: time stamp, id, success *)

Definition shared_init (ls : list bytes) (rs : list (bytes * bytes * Z)) : shared :=
  mk_shared logs_init CIdle WIdle ls rs.

Inductive writer := Coord | Worker.

(** A text printed: by whom, and to which inode. *)
Abbreviation entry := (writer * inode * bytes)%type.

Definition on_files {A} (m : mon logs A) : mon shared A := λ s,
  match m (lg s) with
  | Done (a, l) => Done (a, mk_shared l (coord s) (worker s) (lines s) (results s))
  | Undef => Undef
  | NoFuel => NoFuel
  end.
Definition set_coord (c : cpc) (s : shared) : shared := mk_shared (lg s) c (worker s) (lines s) (results s).
Definition set_worker (w : wpc) (s : shared) : shared := mk_shared (lg s) (coord s) w (lines s) (results s).
Definition set_lines (l : list bytes) (s : shared) : shared := mk_shared (lg s) (coord s) (worker s) l (results s).
Definition set_results (r : list (bytes * bytes * Z)) (s : shared) : shared :=
  mk_shared (lg s) (coord s) (worker s) (lines s) r.

(** Who moves, and the answer of [fopen]. *)
Abbreviation turn := (writer * bool)%type.

Section steps.
Context (MAXB : nat).

(** Printing to an open stream; a NULL stream is undefined. *)
Definition print (w : writer) (f : option inode) (t : bytes) : mon shared (option entry) :=
  on_files (append f t);;
  i ← lift f;
  mret (Some (w, i, t)).

Definition log_coord_step (writable : bool) : mon shared (option entry) :=
  pc ← gets coord;
  match pc with
  | CIdle =>
    ls ← gets lines;
    match ls with
    | [] => mret None
    | t :: ls => on_files (ensure_open writable);; modify (set_coord (CPrint (t ++ [LF])));; modify (set_lines ls);; mret None
    end
  | CPrint t =>
    f ← gets (λ s, fp (lg s));
    e ← print Coord f t;
    modify (set_coord CSize);; mret e
  | CSize =>
    size ← gets (λ s, length (default [] (i ← fp (lg s); data (lg s) !! i)));
    if MAXB <? size then on_files (modify (set_fp None));; modify (set_coord CRename1);; mret None
    else modify (set_coord CIdle);; mret None
  | CRename1 => on_files (rename 1 2);; modify (set_coord CRename2);; mret None
  | CRename2 => on_files (rename 0 1);; modify (set_coord CReopen);; mret None
  | CReopen => on_files (ensure_open writable);; modify (set_coord CIdle);; mret None
  end.

Definition log_worker_step (writable : bool) : mon shared (option entry) :=
  pc ← gets worker;
  match pc with
  | WIdle =>
    rs ← gets results;
    match rs with
    | [] => mret None
    | (ts, id, success) :: rs =>
      on_files (ensure_log_open writable);;
      modify (set_worker (WPrint (result_line ts id success)));; modify (set_results rs);; mret None
    end
  | WPrint t =>
    f ← gets (λ s, g_logf (lg s));
    e ← match f with Some _ => print Worker f t | None => mret None end;
    modify (set_worker WIdle);; mret e
  end.

Definition step (t : turn) : mon shared (option entry) :=
  match t with
  | (Coord, opens) => log_coord_step opens
  | (Worker, opens) => log_worker_step opens
  end.
End steps.

(** ** Accounts *)

Definition texts_in (i : inode) (es : list entry) : list bytes :=
  omap (λ e : entry, if decide (e.1.2 = i) then Some e.2 else None) es.
Definition printed (w : writer) (es : list entry) : list bytes :=
  omap (λ e : entry, match w, e.1.1 with
    | Coord, Coord | Worker, Worker => Some e.2 | _, _ => None end) es.
Definition inodes (w : writer) (es : list entry) : list inode :=
  omap (λ e : entry, match w, e.1.1 with
    | Coord, Coord | Worker, Worker => Some e.1.2 | _, _ => None end) es.

(** The texts that are still to be printed. *)
Definition lines_left (s : shared) : list bytes :=
  match coord s with CPrint t => [t] | _ => [] end ++ ((λ t, t ++ [LF]) <$> lines s).
Definition line_of (r : bytes * bytes * Z) : bytes := result_line r.1.1 r.1.2 r.2.
Definition results_left (s : shared) : list bytes :=
  match worker s with WPrint t => [t] | _ => [] end ++ (line_of <$> results s).

(** [past]: the turns so far. *)
Definition stream_ok (past : list turn) (s : shared) : Prop :=
  match coord s with
  | CIdle => True
  | CPrint _ => is_Some (fp (lg s)) ∨ (Coord, false) ∈ past
  | CSize => is_Some (fp (lg s))
  | CRename1 | CRename2 | CReopen => fp (lg s) = None
  end ∧ match worker s with
        | WIdle => True
        | WPrint _ => is_Some (g_logf (lg s)) ∨ (Worker, false) ∈ past
        end.

Record files_ok (es : list entry) (l : logs) : Prop := {
  files_wf : wf_logs l;
  files_data i : default [] (data l !! i) = concat (texts_in i es);
  files_alloc e : e ∈ es → is_Some (data l !! e.1.2);
  files_coord j i : names l !! 0 = Some j → i ∈ inodes Coord es → i ≤ j;
  files_worker i : i ∈ inodes Worker es → g_logf l = Some i;
  files_sorted : StronglySorted le (inodes Coord es) }.

Record accounted (ls : list bytes) (rs : list (bytes * bytes * Z)) (past : list turn)
    (es : list entry) (s : shared) : Prop := {
  acc_files : files_ok es (lg s);
  acc_stream : stream_ok past s;
  acc_lines : printed Coord es ++ lines_left s = (λ t, t ++ [LF]) <$> ls;
  acc_results : sublist (printed Worker es ++ results_left s) (line_of <$> rs);
  acc_all : (Worker, false) ∉ past → printed Worker es ++ results_left s = line_of <$> rs }.

(** ** Lemmas *)

Lemma wp_on_files {A} (m : mon logs A) s (Q : A → shared → Prop) :
  wp m (lg s) (λ a l, Q a (mk_shared l (coord s) (worker s) (lines s) (results s))) → wp (on_files m) s Q.
Proof. unfold wp, on_files. by destruct (m (lg s)) as [[a l]| |]. Qed.

(** Opening the log: a file that is there, or a new one with a larger number. *)
Lemma fopen_files es l :
  files_ok es l → wp (fopen_log0 true) l (λ r l', files_ok es l' ∧ fp l' = fp l ∧ g_logf l' = g_logf l
    ∧ ∃ i, r = Some i ∧ names l' !! 0 = Some i).
Proof.
  intros Hf. pose proof (files_wf _ _ Hf) as Hwf.
  assert (wp (fopen_log0 true) l (λ _ l', (∀ i, default [] (data l' !! i) = default [] (data l !! i))
    ∧ ∀ i j, names l' !! 0 = Some j → i ∈ inodes Coord es → i ≤ j)) as H.
  { unfold wp, fopen_log0. destruct (names l !! 0) as [j|] eqn:E.
    - split; [done|]. intros i j' Hj. by apply (files_coord _ _ Hf).
    - pose proof (next_inode_fresh (data l)) as Hfr. set (k := next_inode (data l)) in *. cbn. split.
      + intros i. destruct (decide (k = i)) as [<-|]; [by rewrite lookup_insert_eq, Hfr|].
        by rewrite lookup_insert_ne.
      + intros i j. rewrite lookup_insert_eq. intros [= <-] Hi.
        apply list_elem_of_omap in Hi as (e & He & Hi). apply Nat.lt_le_incl, next_inode_new.
        pose proof (files_alloc _ _ Hf e He) as Ha. destruct e as [[[|] i'] t]; [by injection Hi as <-|done]. }
  eapply wp_mono; [exact (wp_and _ _ _ _ (fopen_spec l Hwf) H)|].
  intros r l' [(H1 & H2 & H3 & H4 & _ & _ & _ & i & -> & Hi & _) [H5 H6]].
  split; [|by eauto]. split; [done|..].
  - intros j. rewrite H5. apply Hf.
  - intros e He. apply H4. by apply (files_alloc _ _ Hf).
  - intros j i'. apply H6.
  - intros j Hj. rewrite H3. by apply (files_worker _ _ Hf).
  - apply Hf.
Qed.

Lemma files_set_fp es l f :
  files_ok es l → (∀ i, f = Some i → names l !! 0 = Some i) → files_ok es (set_fp f l).
Proof. intros [] H. split; try done. by apply wf_set_fp. Qed.

Lemma ensure_open_files ok es l :
  files_ok es l → wp (ensure_open ok) l (λ _ l', files_ok es l' ∧ (is_Some (fp l') ∨ ok = false)
    ∧ g_logf l' = g_logf l).
Proof.
  intros Hf. unfold ensure_open. do 2 wp_step. destruct (fp l) as [i|] eqn:E; wp_step; [rewrite E; by auto|].
  destruct ok.
  - eapply wp_mono; [by apply fopen_files|]. intros r l' (Hf' & _ & Hg & i & -> & Hi). wp_step.
    split; [|split; [left; by eexists|done]]. apply files_set_fp; [done|]. by intros j [= <-].
  - unfold wp at 1. cbn. split; [by apply files_set_fp|by auto].
Qed.

Lemma ensure_log_open_files ok es l :
  files_ok es l → wp (ensure_log_open ok) l (λ _ l', files_ok es l' ∧ (is_Some (g_logf l') ∨ ok = false)
    ∧ fp l' = fp l).
Proof.
  intros Hf. unfold ensure_log_open. do 2 wp_step.
  destruct (g_logf l) as [i|] eqn:E; wp_step; [rewrite E; by auto|]. destruct ok.
  - eapply wp_mono; [by apply fopen_files|]. intros r l' (Hf' & Hfp & Hg & i & -> & Hi). wp_step.
    split; [|split; [left; by eexists|done]]. destruct Hf' as [[] Hd Ha Hc Hw Hs]. split; try done.
    + split; try done. intros j [= <-]. eauto.
    + intros j Hj%Hw. congruence.
  - unfold wp at 1. cbn. assert (set_g_logf None l = l) as -> by (destruct l; cbn in *; by subst).
    auto.
Qed.

Lemma rename_files es l a b :
  files_ok es l → fp l = None → a ≠ b → b ≠ 0 →
  wp (rename a b) l (λ _ l', files_ok es l' ∧ fp l' = None ∧ g_logf l' = g_logf l).
Proof.
  intros Hf Hfp Hab Hb. eapply wp_mono; [apply rename_spec; try done; by apply Hf|].
  intros [] l' (Hwf & Hfp' & Hg & Hd & Ha & _ & Hn). split; [|done]. split; [done|..].
  - intros i. rewrite Hd. apply Hf.
  - intros e. rewrite Hd. apply Hf.
  - intros j i. destruct (decide (a = 0)) as [->|]; [by rewrite Ha|]. rewrite Hn by done. apply Hf.
  - intros i. rewrite Hg. apply Hf.
  - apply Hf.
Qed.

Lemma texts_in_snoc i es w j t :
  concat (texts_in i (es ++ [(w, j, t)])) = concat (texts_in i es) ++ (if decide (j = i) then t else []).
Proof.
  unfold texts_in. rewrite omap_app, concat_app. cbn. case_decide; cbn; by rewrite ?app_nil_r.
Qed.

Lemma inodes_snoc w es v j t :
  inodes w (es ++ [(v, j, t)]) = inodes w es ++ match w, v with Coord, Coord | Worker, Worker => [j] | _, _ => [] end.
Proof. unfold inodes. rewrite omap_app. by destruct w, v. Qed.

Lemma printed_snoc w es v j t :
  printed w (es ++ [(v, j, t)]) = printed w es ++ match w, v with Coord, Coord | Worker, Worker => [t] | _, _ => [] end.
Proof. unfold printed. rewrite omap_app. by destruct w, v. Qed.

Lemma append_files es l w i t :
  files_ok es l → match w with Coord => fp l | Worker => g_logf l end = Some i →
  wp (append (Some i) t) l (λ _ l', files_ok (es ++ [(w, i, t)]) l' ∧ fp l' = fp l ∧ g_logf l' = g_logf l).
Proof.
  intros Hf Hi. pose proof (files_wf _ _ Hf) as Hwf.
  assert (is_Some (data l !! i)) as Ha.
  { destruct w; [eapply wf_alloc, wf_fp|eapply wf_g]; done. }
  pose proof (append_spec l i t Hwf Ha) as H.
  assert (wp (append (Some i) t) l (λ _ l', data l' = <[i := default [] (data l !! i) ++ t]> (data l))) as Hd
    by (unfold append; do 3 wp_step; done).
  eapply wp_mono; [exact (wp_and _ _ _ _ H Hd)|]. clear H Hd.
  intros [] l' [(Hwf' & Hfp & Hg & Hn & Hk & _) Hd]. split; [|done]. split; [done|..].
  - intros j. rewrite texts_in_snoc, Hd. case_decide as Hij; subst.
    + rewrite lookup_insert_eq. cbn. by rewrite (files_data _ _ Hf).
    + rewrite lookup_insert_ne, app_nil_r by done. apply Hf.
  - intros e [He|He%list_elem_of_singleton]%elem_of_app; [by apply Hk, (files_alloc _ _ Hf)|].
    subst e. by apply Hk.
  - intros j k. rewrite Hn, inodes_snoc. intros Hj [Hk'|Hk']%elem_of_app; [by apply (files_coord _ _ Hf)|].
    destruct w; [|by apply not_elem_of_nil in Hk']. apply list_elem_of_singleton in Hk' as ->.
    apply (wf_fp _ Hwf) in Hi. assert (i = j) as -> by congruence. done.
  - intros k. rewrite Hg, inodes_snoc. intros [Hk'|Hk']%elem_of_app; [by apply (files_worker _ _ Hf)|].
    destruct w; [by apply not_elem_of_nil in Hk'|]. by apply list_elem_of_singleton in Hk' as ->.
  - rewrite inodes_snoc. apply StronglySorted_app_2; [|apply Hf|destruct w; by repeat constructor].
    intros x y Hx Hy. destruct w; [|by apply not_elem_of_nil in Hy]. apply list_elem_of_singleton in Hy as ->.
    apply (wf_fp _ Hwf) in Hi. by apply (files_coord _ _ Hf _ _ Hi).
Qed.

(** Turns that are needed, and a writer with nothing to do. *)
Definition turns_left (s : shared) : nat :=
  match coord s with
  | CIdle => 0 | CPrint _ => 5 | CSize => 4 | CRename1 => 3 | CRename2 => 2 | CReopen => 1
  end + 6 * length (lines s)
  + (match worker s with WIdle => 0 | WPrint _ => 1 end + 2 * length (results s)).
Definition idle (w : writer) (s : shared) : Prop :=
  match w with Coord => coord s = CIdle ∧ lines s = [] | Worker => worker s = WIdle ∧ results s = [] end.

Section keep.
Context (MAXB : nat) (ls : list bytes) (rs : list (bytes * bytes * Z)).

Lemma print_spec w f t es s :
  files_ok es (lg s) → match w with Coord => fp (lg s) | Worker => g_logf (lg s) end = Some f →
  wp (print w (Some f) t) s (λ e s', e = Some (w, f, t) ∧ files_ok (es ++ [(w, f, t)]) (lg s')
    ∧ fp (lg s') = fp (lg s) ∧ g_logf (lg s') = g_logf (lg s)
    ∧ coord s' = coord s ∧ worker s' = worker s ∧ lines s' = lines s ∧ results s' = results s).
Proof.
  intros Hf Hw. unfold print. wp_step. apply wp_on_files. eapply wp_mono; [by apply append_files|].
  intros [] l (Hf' & H1 & H2). do 3 wp_step. by split_and!.
Qed.

(** The coordinator is about to print to a NULL stream. *)
Definition doomed (s : shared) : Prop := (∃ t, coord s = CPrint t) ∧ fp (lg s) = None.

Lemma stream_ok_more past t s : stream_ok past s → stream_ok (past ++ [t]) s.
Proof.
  unfold stream_ok. intros [Hc Hw]. split.
  - destruct (coord s); try done. destruct Hc; [by left|right; apply elem_of_app; by left].
  - destruct (worker s); try done. destruct Hw; [by left|right; apply elem_of_app; by left].
Qed.

Ltac all_kept := rewrite ?app_nil_r; cbn; split; [|lia]; split; cbn; try done.

Lemma log_coord_step_keeps ok past es s :
  accounted ls rs past es s → ¬ doomed s →
  wp (log_coord_step MAXB ok) s (λ e s', accounted ls rs (past ++ [(Coord, ok)]) (es ++ option_list e) s'
    ∧ (turns_left s' < turns_left s ∨ s' = s ∧ idle Coord s)).
Proof.
  intros [Hf Hst Hl Hr Ha] Hnd. pose proof (stream_ok_more past (Coord, ok) s Hst) as [Hc Hw].
  assert ((Worker, false) ∉ past ++ [(Coord, ok)] → (Worker, false) ∉ past) as Hp by set_solver.
  unfold log_coord_step, turns_left, lines_left, results_left in *.
  do 2 wp_step. destruct (coord s) as [|t| | | |] eqn:Ec.
  - do 2 wp_step. destruct (lines s) as [|t ts] eqn:El; wp_step.
    { rewrite app_nil_r. split; [|right; by repeat split]. split; unfold lines_left; rewrite ?Ec, ?El; auto.
      unfold stream_ok. rewrite Ec. by split. }
    apply wp_on_files. eapply wp_mono; [by apply (ensure_open_files ok)|]. intros [] l (Hf' & Ho & Hg).
    do 5 wp_step. all_kept; [|by auto]. split; cbn.
    + destruct Ho as [?| ->]; [by left|right]. set_solver.
    + by rewrite Hg.
  - do 3 wp_step. destruct (fp (lg s)) as [f|] eqn:Ef; [|by destruct Hnd; split; [eauto|]].
    eapply wp_mono; [by apply (print_spec Coord f t es)|].
    intros e s1 (-> & Hf' & E1 & E2 & E3 & E4 & E5 & E6). do 3 wp_step. cbn.
    rewrite E4, E5, E6. split; [|lia].
    split; unfold lines_left, results_left, stream_ok; cbn;
      rewrite ?E1, ?E2, ?E4, ?E5, ?E6, ?printed_snoc, ?app_nil_r, <- ?app_assoc; auto.
  - do 2 wp_step. destruct (_ <? _).
    + wp_step. apply wp_on_files. do 4 wp_step. all_kept; [by apply files_set_fp|by auto].
    + do 3 wp_step. all_kept. by auto.
  - wp_step. apply wp_on_files. eapply wp_mono; [by apply rename_files|]. intros [] l (Hf' & E1 & E2).
    do 3 wp_step. all_kept; [|by auto]. unfold stream_ok. cbn. by rewrite E2.
  - wp_step. apply wp_on_files. eapply wp_mono; [by apply rename_files|]. intros [] l (Hf' & E1 & E2).
    do 3 wp_step. all_kept; [|by auto]. unfold stream_ok. cbn. by rewrite E2.
  - wp_step. apply wp_on_files. eapply wp_mono; [by apply (ensure_open_files ok)|]. intros [] l (Hf' & E1 & E2).
    do 3 wp_step. all_kept; [|by auto]. unfold stream_ok. cbn. by rewrite E2.
Qed.

Lemma log_worker_step_keeps ok past es s :
  accounted ls rs past es s →
  wp (log_worker_step ok) s (λ e s', accounted ls rs (past ++ [(Worker, ok)]) (es ++ option_list e) s'
    ∧ (turns_left s' < turns_left s ∨ s' = s ∧ idle Worker s)).
Proof.
  intros [Hf Hst Hl Hr Ha]. pose proof (stream_ok_more past (Worker, ok) s Hst) as [Hc Hw].
  assert ((Worker, false) ∉ past ++ [(Worker, ok)] → (Worker, false) ∉ past) as Hp by set_solver.
  unfold log_worker_step, turns_left, lines_left, results_left in *.
  do 2 wp_step. destruct (worker s) as [|t] eqn:Ew.
  - do 2 wp_step. destruct (results s) as [|[[ts id] z] todo] eqn:El; wp_step.
    { rewrite app_nil_r. split; [|right; by repeat split].
      split; unfold results_left; rewrite ?Ew, ?El; auto. unfold stream_ok. rewrite Ew. by split. }
    apply wp_on_files. eapply wp_mono; [by apply (ensure_log_open_files ok)|]. intros [] l (Hf' & Ho & Hg).
    do 5 wp_step. all_kept; [|by auto]. split; cbn.
    + by rewrite Hg.
    + destruct Ho as [?| ->]; [by left|right]. set_solver.
  - do 3 wp_step. destruct (g_logf (lg s)) as [f|] eqn:Ef.
    + eapply wp_mono; [by apply (print_spec Worker f t es)|].
      intros e s1 (-> & Hf' & E1 & E2 & E3 & E4 & E5 & E6). do 3 wp_step. cbn.
      rewrite E3, E5, E6. split; [|lia].
      split; unfold lines_left, results_left, stream_ok; cbn;
        rewrite ?E1, ?E2, ?E3, ?E5, ?E6, ?printed_snoc, ?app_nil_r, <- ?app_assoc; auto.
    + do 4 wp_step. all_kept; unfold results_left; cbn.
      * etrans; [|exact Hr]. apply sublist_app; [done|]. by apply sublist_cons.
      * destruct Hw as [[? ?]|Hw]; [congruence|]. by intros ?.
Qed.

(** One turn: the accounts are kept, unless the coordinator prints to a NULL stream. *)
Lemma step_keeps t past es s :
  accounted ls rs past es s →
  match step MAXB t s with
  | Done (e, s') => accounted ls rs (past ++ [t]) (es ++ option_list e) s'
      ∧ (turns_left s' < turns_left s ∨ s' = s ∧ idle t.1 s)
  | Undef => (Coord, false) ∈ past
  | NoFuel => False
  end.
Proof.
  intros Hs. assert (wp (step MAXB t) s (λ e s',
    accounted ls rs (past ++ [t]) (es ++ option_list e) s'
    ∧ (turns_left s' < turns_left s ∨ s' = s ∧ idle t.1 s)) ∨
    step MAXB t s = Undef ∧ (Coord, false) ∈ past) as [H|[-> H]]; [| |exact H].
  - destruct t as [[|] ok]; [|left; by apply log_worker_step_keeps].
    destruct (coord s) as [|t| | | |] eqn:Ec;
      try (left; apply log_coord_step_keeps; [done|]; intros [[? E] _]; congruence).
    destruct (fp (lg s)) as [f|] eqn:Ef.
    { left. apply log_coord_step_keeps; [done|]. intros [_ E]. congruence. }
    right. destruct (acc_stream _ _ _ _ _ Hs) as [H _]. rewrite Ec, Ef in H.
    destruct H as [[? ?]|H]; [done|]. split; [|done].
    unfold step, log_coord_step, mbind, mon_bind, gets. rewrite Ec. cbn. by rewrite Ef.
  - unfold wp in H. by destruct (step MAXB t s) as [[e s']| |].
Qed.

Lemma run_keeps sched past es s :
  accounted ls rs past es s →
  match run_steps (step MAXB) sched s with
  | Done (es', s') => accounted ls rs (past ++ sched) (es ++ es') s' ∧ turns_left s' ≤ turns_left s
  | Undef => (Coord, false) ∈ past ++ sched
  | NoFuel => False
  end.
Proof.
  revert past es s. induction sched as [|t sched IH]; intros past es s Hs; cbn [run_steps].
  { cbn. rewrite !app_nil_r. by split. }
  pose proof (step_keeps t past es s Hs) as H. unfold mbind, mon_bind.
  destruct (step MAXB t s) as [[e s1]| |]; [|apply elem_of_app; by left|done]. destruct H as [H1 H2].
  specialize (IH _ _ _ H1). destruct (run_steps (step MAXB) sched s1) as [[es' s2]| |]; [| |done].
  - cbn. rewrite <- !app_assoc in IH. destruct IH as [H3 H4]. split; [exact H3|].
    destruct H2 as [?|[-> _]]; lia.
  - by rewrite <- app_assoc in IH.
Qed.

(** A round gives both writers a turn. *)
Definition round : list turn := [(Coord, true); (Worker, true)].

Lemma rounds_left k past es s :
  accounted ls rs past es s →
  match run_steps (step MAXB) (concat (replicate k round)) s with
  | Done (_, s') => turns_left s' ≤ turns_left s - k
  | _ => True
  end.
Proof.
  revert past es s. induction k as [|k IH]; intros past es s Hs; cbn [replicate concat round app run_steps]; [cbn; lia|].
  unfold mbind, mon_bind. pose proof (step_keeps (Coord, true) past es s Hs) as H1.
  destruct (step MAXB (Coord, true) s) as [[e1 s1]| |]; [|done..]. destruct H1 as [Hs1 H1].
  pose proof (step_keeps (Worker, true) _ _ _ Hs1) as H2.
  destruct (step MAXB (Worker, true) s1) as [[e2 s2]| |]; [|done..]. destruct H2 as [Hs2 H2].
  specialize (IH _ _ _ Hs2). destruct (run_steps _ _ s2) as [[es3 s3]| |]; [cbn|done..].
  destruct H1 as [H1|[-> [E1 E2]]]; [destruct H2 as [?|[-> _]]; lia|].
  destruct H2 as [?|[-> [E3 E4]]]; [lia|]. unfold turns_left in *. rewrite E1, E2, E3, E4 in *. cbn in *. lia.
Qed.

Lemma log_accounted_init : accounted ls rs [] [] (shared_init ls rs).
Proof.
  split; try done. split; [by split|done|by intros e ?%not_elem_of_nil|done| |constructor].
  by intros i ?%not_elem_of_nil.
Qed.
End keep.

(** One writer alone does what the operations of Log.v do. *)
Definition alone (o : res (unit * logs)) (r : res (list entry * shared)) : Prop :=
  match o with
  | Done (_, l) => ∃ es, r = Done (es, mk_shared l CIdle WIdle [] [])
  | _ => r = Undef
  end.

Ltac run_alone :=
  unfold mbind, mon_bind, mret, mon_ret, gets, modify, lift; cbn;
  repeat (case_match; cbn in *; simplify_eq/=); try done; try by eexists.

Lemma coord_alone writable MAXB t l :
  alone (log_step writable MAXB (Line t) l)
    (run_steps (step MAXB) (replicate 6 (Coord, writable)) (mk_shared l CIdle WIdle [t] [])).
Proof.
  cbn [log_step replicate run_steps step]. unfold vts_log_write_line, vts_log_write, log_coord_step, print, on_files,
    ensure_open, fopen_log0, append, rotate, rename, set_fp. destruct l as [n d [i|] g]; run_alone.
Qed.

Lemma worker_alone writable MAXB ts id z l :
  alone (log_step writable MAXB (Result ts id z) l)
    (run_steps (step MAXB) (replicate 2 (Worker, writable)) (mk_shared l CIdle WIdle [] [(ts, id, z)])).
Proof.
  cbn [log_step replicate run_steps step]. unfold log_write_req_result, log_worker_step, print, on_files,
    ensure_log_open, fopen_log0, append, set_g_logf. destruct l as [n d f [i|]]; run_alone.
Qed.

(** ** Properties *)


(** The exception is real: after a [fopen] of the coordinator that fails, its next step prints
    to a NULL stream. *)
Theorem failed_open_undefined (MAXB : nat) (t : bytes) (rs : list (bytes * bytes * Z)) :
  run_steps (step MAXB) [(Coord, false); (Coord, true)] (shared_init [t] rs) = Undef.
Proof. done. Qed.
