(* ===== verification/Coords.v ===== *)
(** * Coords: the coordinator thread of userspace/vts/src/threads_coords.c

    [thr_coords] moves messages from the ring to the log: pop, [vts_log_write("%s\n", msg)],
    [free].  After the stop flag is set it drains the ring.  The state joins the ring and the
    log; the thread runs alone here, FifoRace has the interleavings with the receiver. *)
From stdpp Require Import prelude strings list gmap fin_sets.
From Stdlib Require Import Ascii ZArith Lia.
From S2P Require Import Prelude CString DropOldest Fifo Log.

Record daemon := mk_daemon { g_q : fifo; log_state : logs }.

(** Operations of a part as operations of the whole. *)
Definition on_q {A} (op : mon fifo A) : mon daemon A := λ s,
  match op (g_q s) with
  | Done (a, q) => Done (a, mk_daemon q (log_state s))
  | Undef => Undef
  | NoFuel => NoFuel
  end.

Definition on_log {A} (op : mon logs A) : mon daemon A := λ s,
  match op (log_state s) with
  | Done (a, l) => Done (a, mk_daemon (g_q s) l)
  | Undef => Undef
  | NoFuel => NoFuel
  end.

Section coords.
Context (writable : bool) (MAXB : nat).

(** One turn of the main loop; [false] when there was no message (the thread then sleeps). *)
Definition coords_turn : mon daemon bool :=
  msg ← on_q vts_fifo_pop_spsc;
  match msg with
  | None => mret false
  | Some p =>
    h ← on_q (gets heap);
    text ← lift (h !! p);
    on_log (vts_log_write writable MAXB (text ++ [LF]));;
    on_q (free (Some p));;
    mret true
  end.

(** [for(int i=0;i<1000;i)]: the index is the one of the code, which nothing changes. *)
Fixpoint drain_loop (fuel : nat) (i : Z) : mon daemon unit :=
  match fuel with
  | O => no_fuel
  | S fuel =>
    if (i <? 1000)%Z then
      more ← coords_turn;
      if more : bool then drain_loop fuel i else mret tt
    else mret tt
  end.

Definition drain (fuel : nat) : mon daemon unit := drain_loop fuel 0.
End coords.

(** ** Lemmas *)

Lemma wp_on_q {A} (op : mon fifo A) s (Q : A → daemon → Prop) :
  wp op (g_q s) (λ a q, Q a (mk_daemon q (log_state s))) → wp (on_q op) s Q.
Proof. unfold wp, on_q. by destruct (op (g_q s)) as [[a q]| |]. Qed.

Lemma wp_on_log {A} (op : mon logs A) s (Q : A → daemon → Prop) :
  wp op (log_state s) (λ a l, Q a (mk_daemon (g_q s) l)) → wp (on_log op) s Q.
Proof. unfold wp, on_log. by destruct (op (log_state s)) as [[a l]| |]. Qed.

Section lemmas.
Context (MAXB : nat).

(** A turn moves the oldest message from the ring to the log. *)
Lemma turn_spec s ps l :
  ring (g_q s) ps → owned (g_q s) ps [] l → wf_logs (log_state s) →
  wp (coords_turn true MAXB) s (λ b s', b = (0 <? length l) ∧ cap (g_q s') = cap (g_q s) ∧
    wf_logs (log_state s') ∧
    (∃ ps', ring (g_q s') ps' ∧ owned (g_q s') ps' [] (list.tail l)) ∧
    view (log_state s') = foldl (spec_line MAXB) (view (log_state s)) (take 1 l)).
Proof.
  intros Hr Ho Hw. unfold coords_turn. wp_step. apply wp_on_q.
  eapply wp_mono; [by apply (pop_spec (g_q s) ps [] l)|].
  intros r q' (Hk & _ & H). destruct l as [|t l].
  - destruct H as [-> ->]. wp_step. split; [done|]. split; [done|]. split; [done|].
    split; [|done]. by exists ps.
  - destruct H as (p & ps' & -> & Hp & Hr' & Ho'). wp_step. apply wp_on_q. wp_step. wp_step.
    cbn [g_q]. rewrite Hp. do 2 wp_step. apply wp_on_log.
    eapply wp_mono; [by apply (line_spec MAXB (log_state s) t)|].
    intros [] l' (Hw' & _ & _ & Hv & _). wp_step. apply wp_on_q. cbn [g_q log_state].
    destruct (owned_release q' p ps' [] l Ho') as (q2 & E & -> & Ho2).
    unfold wp at 1. rewrite E. wp_step. split; [done|]. split; [exact (proj1 Hk)|].
    split; [done|]. split; [|exact Hv]. exists ps'. split; [|done]. by destruct Hr'; split.
Qed.

Lemma drain_loop_spec fuel s ps l :
  ring (g_q s) ps → owned (g_q s) ps [] l → wf_logs (log_state s) → length l < fuel →
  wp (drain_loop true MAXB fuel 0) s (λ _ s', fifo_rep (g_q s') [] ∧
    view (log_state s') = foldl (spec_line MAXB) (view (log_state s)) l).
Proof.
  revert s ps l. induction fuel as [|fuel IH]; intros s ps l Hr Ho Hw Hf; [lia|].
  cbn [drain_loop]. change (0 <? 1000)%Z with true. cbv iota. wp_step.
  eapply wp_mono; [by apply (turn_spec s ps l)|].
  intros b s' (-> & _ & Hw' & (ps' & Hr' & Ho') & Hv). destruct l as [|t l].
  - change (0 <? length []) with false. cbv iota. wp_step. split; [by exists ps'|exact Hv].
  - change (0 <? length (t :: l)) with true. cbv iota.
    eapply wp_mono; [apply (IH s' ps' l Hr' Ho' Hw'); simpl in *; lia|].
    intros [] s2 [H1 H2]. split; [done|]. rewrite H2, Hv. done.
Qed.
End lemmas.

(** ** Properties *)

(** The pipeline. Messages pushed into a ring of [c] slots and then drained all reach the
    log, in order and once each, except that only the newest [c - 1] of them survive in the
    ring; draining has no bound of its own: a backlog of any size, beyond the 1000 of the
    loop's test, is written out before the thread ends. *)
Theorem drain_writes_backlog (c maxb fuel : nat) (msgs : list bytes) :
  2 ≤ c → c ≤ fuel →
  ∃ q s, @q_run _ _ (fifo_ops c) (Push <$> msgs) (vts_fifo_init c ∅) = Done ([], q) ∧
    drain true maxb fuel (mk_daemon q logs_init) = Done (tt, s) ∧
    fifo_rep (g_q s) [] ∧
    view (log_state s) = foldl (spec_line maxb) (None, None, None) (drop (length msgs - (c - 1)) msgs).
Proof.
  intros Hc Hf. pose proof (fifo_laws c Hc) as Hlaws.
  assert (@dq_rep _ _ (fifo_ops c) (vts_fifo_init c ∅) []) as Hrep.
  { split; [done|]. exists []. split; [by apply ring_init|apply owned_init]. }
  pose proof (q_push_all (q := fifo_ops c) msgs _ [] Hrep) as H.
  apply wp_done in H as (out & q & E & -> & Hcq & ps & Hr & Ho). cbn [dq_cap fifo_ops] in Ho.
  rewrite bounded_push_all in Ho by (cbn; lia). cbn [app length Nat.add] in Ho.
  pose proof (Forall2_length _ _ _ (owned_strings _ _ _ _ Ho)) as Hll.
  pose proof (ring_size _ _ Hr) as Hs. rewrite Hcq in Hs.
  pose proof (drain_loop_spec maxb fuel (mk_daemon q logs_init) ps _ Hr Ho wf_logs_init ltac:(lia)) as H.
  apply wp_done in H as ([] & s & Ed & Hq & Hv). exists q, s. by split_and!.
Qed.

Lemma drain_writes_backlog_witness :
  ∃ q s, @q_run _ _ (fifo_ops 3) (Push <$> [lit "a"; lit "b"; lit "c"]) (vts_fifo_init 3 ∅)
           = Done ([], q) ∧
    drain true 100 3 (mk_daemon q logs_init) = Done (tt, s) ∧
    view (log_state s) = (Some (lit "b" ++ [LF] ++ lit "c" ++ [LF]), None, None).
Proof.
  destruct (drain_writes_backlog 3 100 3 [lit "a"; lit "b"; lit "c"] ltac:(lia) ltac:(lia))
    as (q & s & E1 & E2 & _ & Hv).
  exists q, s. split; [exact E1|]. split; [exact E2|exact Hv].
Defined.
