(* ===== verification/Pipeline.v ===== *)
(** * Pipeline: the receiver, the ring, the coordinator and the log as one system

    userspace/vts: threads_recv.c, fifo.c, threads_coords.c, log_write.c and the shutdown of
    main.c.  The receiver tests [g_stop], waits for an event, looks at the bytes read one by
    one and pushes the messages that they complete; the coordinator tests [g_stop], pops, logs
    and frees, and drains the ring when it has seen the flag; the main thread sets the flag,
    and frees the ring when both threads have ended.  Every access to the ring or to a string
    is a step of its own, the one of FifoRace. *)
From stdpp Require Import prelude strings list gmap fin_sets.
From Stdlib Require Import Ascii ZArith Lia.
From S2P Require Import Prelude CString DropOldest Fifo FifoRace Recv Log.

(** Where the receiver stands: before the test of [g_stop], after it, in the loop over the
    bytes that [read] has delivered, in [handle_line] with [bs] to come, at its end. *)
Inductive recv_pc := RTest | RWait | RBytes (bs : bytes) | RPush (bs : bytes) | RDone.

Inductive coord_pc := CTest | CTurn | CDrain | CDone.

(** [ring_threads] is the ring with the places of both threads inside fifo.c; its [todo] are
    the messages of the [handle_line] under way. *)
Record pipe := mk_pipe {
  rcv : recv;
  rpc : recv_pc;
  ring_threads : threads;
  plog : logs;
  cpc : coord_pc;
  g_stop : bool;
  freed : bool;
  (* For the statements only. *)
  consumed : bytes;              (* the bytes the receiver has looked at *)
  unseen : nat                   (* pushes published since the coordinator last loaded [tail] *) }.

Definition pipe_init (c : nat) (f : Z) : pipe :=
  mk_pipe (recv_init f) RTest (init c []) logs_init CTest false false [] 0.

Definition set_recv (r : recv) (pc : recv_pc) (s : pipe) : pipe :=
  mk_pipe r pc (ring_threads s) (plog s) (cpc s) (g_stop s) (freed s) (consumed s) (unseen s).
Definition set_threads (t : threads) (s : pipe) : pipe :=
  mk_pipe (rcv s) (rpc s) t (plog s) (cpc s) (g_stop s) (freed s) (consumed s) (unseen s).
Definition set_plog (l : logs) (s : pipe) : pipe :=
  mk_pipe (rcv s) (rpc s) (ring_threads s) l (cpc s) (g_stop s) (freed s) (consumed s) (unseen s).
Definition set_cpc (pc : coord_pc) (s : pipe) : pipe :=
  mk_pipe (rcv s) (rpc s) (ring_threads s) (plog s) pc (g_stop s) (freed s) (consumed s) (unseen s).
Definition set_stop (s : pipe) : pipe :=
  mk_pipe (rcv s) (rpc s) (ring_threads s) (plog s) (cpc s) true (freed s) (consumed s) (unseen s).
Definition set_freed (s : pipe) : pipe :=
  mk_pipe (rcv s) (rpc s) (ring_threads s) (plog s) (cpc s) (g_stop s) true (consumed s) (unseen s).
Definition consume (b : ascii) (s : pipe) : pipe :=
  mk_pipe (rcv s) (rpc s) (ring_threads s) (plog s) (cpc s) (g_stop s) (freed s) (consumed s ++ [b])
    (unseen s).
Definition set_unseen (n : nat) (s : pipe) : pipe :=
  mk_pipe (rcv s) (rpc s) (ring_threads s) (plog s) (cpc s) (g_stop s) (freed s) (consumed s) n.

(** Operations of a part as operations of the whole. *)
Definition on_threads {A} (op : mon threads A) : mon pipe A := λ s,
  match op (ring_threads s) with
  | Done (a, t) => Done (a, set_threads t s)
  | Undef => Undef
  | NoFuel => NoFuel
  end.

Definition on_plog {A} (op : mon logs A) : mon pipe A := λ s,
  match op (plog s) with
  | Done (a, l) => Done (a, set_plog l s)
  | Undef => Undef
  | NoFuel => NoFuel
  end.

Section pipeline.
Context (writable : bool) (MAXB : nat).

(** One byte of the loop in [thr_recv]: the calls of [vts_fifo_push_spsc] that it makes. *)
Definition recv_one (b : ascii) (bs : bytes) : mon pipe unit :=
  r ← gets rcv;
  let r' := recv_byte r b in
  let msgs := drop (length (pushed_lines r)) (pushed_lines r') in
  on_threads (modify (λ t, mk_threads (ring_of t) (prod t) (cons t) msgs (delivered t)));;
  modify (consume b);; modify (set_recv r' (RPush bs)).

(** Inside [handle_line]: one access of the push, or the return. *)
Definition push_step (bs : bytes) : mon pipe unit :=
  t ← gets ring_threads; r ← gets rcv; n ← gets unseen;
  match prod t, todo t with
  | PIdle, [] => modify (set_recv r (RBytes bs))
  | p, _ =>
    on_threads pstep;; modify (set_unseen (match p with PTail _ => S n | _ => n end))
  end.

(** [e] is what happens while the receiver waits. *)
Definition recv_step (e : event) : mon pipe unit :=
  pc ← gets rpc; stop ← gets g_stop; r ← gets rcv;
  match pc with
  | RTest => modify (set_recv r (if stop : bool then RDone else RWait))
  | RWait =>
    match e with
    | Readable (inl (b :: d)) _ =>
      modify (set_recv r (if registered r then RBytes (b :: d) else RTest))
    | _ => modify (set_recv (recv_turn r e) RTest)
    end
  | RBytes [] => modify (set_recv r RTest)
  | RBytes (b :: bs) => recv_one b bs
  | RPush bs => push_step bs
  | RDone => mret tt
  end.

(** One access of the coordinator's pop, [vts_log_write("%s\n", msg)] or [free(msg)]. *)
Definition coord_access : mon pipe unit :=
  t ← gets ring_threads; n ← gets unseen;
  match cons t with
  | CGot (Some p) =>
    text ← lift (heap (ring_of t) !! p);
    on_plog (vts_log_write writable MAXB (text ++ [LF]));;
    on_threads cstep
  | CHeadLoaded _ => on_threads cstep;; modify (set_unseen 0)
  | _ => on_threads cstep
  end.

(** The access after which [vts_fifo_pop_spsc] has returned NULL. *)
Definition pop_null (c : consumer) : bool :=
  match c with CTailLoaded hd tl => hd =? tl | CGot None => true | _ => false end.

(** The access that ends a turn of the coordinator. *)
Definition turn_ends (c : consumer) : bool :=
  match c with CLogged _ => true | _ => pop_null c end.

Definition coord_step : mon pipe unit :=
  pc ← gets cpc; stop ← gets g_stop; t ← gets ring_threads;
  match pc with
  | CTest => modify (set_cpc (if stop : bool then CDrain else CTurn))
  | CTurn => coord_access;; modify (set_cpc (if turn_ends (cons t) then CTest else CTurn))
  | CDrain => coord_access;; modify (set_cpc (if pop_null (cons t) then CDone else CDrain))
  | CDone => mret tt
  end.

(** [vts_threads_join_all]: both threads have ended, the ring is freed. *)
Definition join_step : mon pipe unit :=
  s ← gets id;
  match rpc s, cpc s, freed s with
  | RDone, CDone, false =>
    on_threads (on_ring (vts_fifo_free (S (cap (ring_of (ring_threads s))))));; modify set_freed
  | _, _, _ => mret tt
  end.

Inductive move := Receiver (e : event) | Coordinator | Stop | Join.

Definition pipe_step (l : move) : mon pipe unit :=
  match l with
  | Receiver e => recv_step e
  | Coordinator => coord_step
  | Stop => modify set_stop
  | Join => join_step
  end.

Fixpoint pipe_run (ls : list move) : mon pipe unit :=
  match ls with
  | [] => mret tt
  | l :: ls => pipe_step l;; pipe_run ls
  end.

(** The two states from which the code can leave what the C standard defines: the receiver
    about to drop the oldest message of a full ring, and the coordinator about to log a message
    with a log that cannot be opened. *)
Definition hazard (s : pipe) : bool :=
  overrun (ring_threads s)
  || negb writable && match cons (ring_threads s) with CGot (Some _) => true | _ => false end.

(** No state of the run is a hazard. *)
Fixpoint smooth (ls : list move) (s : pipe) : bool :=
  negb (hazard s) &&
  match ls with
  | [] => true
  | l :: ls => match pipe_step l s with Done (_, s) => smooth ls s | _ => true end
  end.
End pipeline.

(** ** Invariant *)

(** What the receiver has pushed is what the splitter makes of the bytes consumed. *)
Definition split_at (s : pipe) : Prop :=
  let '(ls, r) := split_lines [] (consumed s) in
  line (rcv s) = (pieces r).2 ∧ pushed_lines (rcv s) = (ls ≫= line_messages) ++ full_pieces r.

(** The pop under way has found the ring empty. *)
Definition found_empty (c : consumer) : bool :=
  match c with CTailLoaded hd tl => hd =? tl | _ => false end.

(** The ring between its creation and its end. *)
Definition ring_live (pushed : list bytes) (t : threads) : Prop := ∃ ps l, inv pushed t ps l.

Definition ring_gone (s : pipe) : Prop :=
  heap (ring_of (ring_threads s)) = ∅ ∧ rpc s = RDone ∧ cpc s = CDone
  ∧ ∃ left, delivered (ring_threads s) ++ left = pushed_lines (rcv s) ∧ length left ≤ unseen s.

Record pipe_inv (MAXB : nat) (s : pipe) : Prop := {
  pi_split : split_at s;
  pi_wf : wf_logs (plog s);
  pi_view : view (plog s) = foldl (spec_line MAXB) (None, None, None) (delivered (ring_threads s));
  pi_recv : match rpc s with
            | RPush _ => True
            | _ => prod (ring_threads s) = PIdle ∧ todo (ring_threads s) = []
            end;
  pi_coord : match cpc s with CTest | CDone => cons (ring_threads s) = CIdle | _ => True end;
  pi_ring : if freed s then ring_gone s else ring_live (pushed_lines (rcv s)) (ring_threads s);
  pi_unseen : found_empty (cons (ring_threads s)) = true ∨ cpc s = CDone →
              freed s = false → vts_fifo_depth (ring_of (ring_threads s)) ≤ unseen s }.

(** ** Lemmas *)

Lemma split_snoc cur l b :
  split_lines cur (l ++ [b]) =
  let '(ls, r) := split_lines cur l in
  if Ascii.eqb b LF then (ls ++ [r], []) else (ls, r ++ [b]).
Proof.
  revert cur. induction l as [|x l IH]; intros cur; cbn [split_lines app].
  - by destruct (Ascii.eqb b LF).
  - destruct (Ascii.eqb x LF).
    + rewrite IH. destruct (split_lines [] l) as [ls r]. by destruct (Ascii.eqb b LF).
    + rewrite IH. done.
Qed.

(** One byte: the receiver's state and the calls it makes. *)
Lemma recv_byte_calls r b :
  ∃ new, pushed_lines (recv_byte r b) = pushed_lines r ++ new
    ∧ drop (length (pushed_lines r)) (pushed_lines (recv_byte r b)) = new.
Proof.
  rewrite recv_byte_eq. destruct (_ || _); cbn [pushed_lines].
  - eexists. split; [done|]. by rewrite drop_app_length.
  - exists []. by rewrite app_nil_r, drop_all.
Qed.

Lemma split_at_byte s b r' :
  split_at s → r' = recv_byte (rcv s) b →
  let '(ls, r) := split_lines [] (consumed s ++ [b]) in
  line r' = (pieces r).2 ∧ pushed_lines r' = (ls ≫= line_messages) ++ full_pieces r.
Proof.
  unfold split_at. intros H ->. rewrite split_snoc.
  destruct (split_lines [] (consumed s)) as [ls r]. destruct H as [H1 H2].
  pose proof (recv_bytes [b] r (rcv s) (ls ≫= line_messages) H1 H2) as H. cbv zeta in H.
  cbn [split_lines foldl] in H. destruct (Ascii.eqb b LF).
  - destruct H as (_ & _ & H3 & H4). split; [done|]. rewrite H4.
    cbn [mbind list_bind]. rewrite bind_app. cbn [mbind list_bind]. by rewrite <- !app_assoc, !app_nil_r.
  - destruct H as (_ & _ & H3 & H4). by rewrite H4.
Qed.

Lemma wp_on_threads {A} (op : mon threads A) s (Q : A → pipe → Prop) :
  wp op (ring_threads s) (λ a t, Q a (set_threads t s)) → wp (on_threads op) s Q.
Proof. unfold wp, on_threads. by destruct (op (ring_threads s)) as [[a t]| |]. Qed.

Lemma wp_on_plog {A} (op : mon logs A) s (Q : A → pipe → Prop) :
  wp op (plog s) (λ a l, Q a (set_plog l s)) → wp (on_plog op) s Q.
Proof. unfold wp, on_plog. by destruct (op (plog s)) as [[a l]| |]. Qed.

Lemma wp_on_ring {A} (op : mon fifo A) t (Q : A → threads → Prop) :
  wp op (ring_of t) (λ a q, Q a (set_ring q t)) → wp (on_ring op) t Q.
Proof. unfold wp, on_ring. by destruct (op (ring_of t)) as [[a q]| |]. Qed.

(** *** The ring's threads *)

(** New messages for a receiver that has pushed all it had. *)
Lemma inv_more msgs new t ps l :
  inv msgs t ps l → prod t = PIdle → todo t = [] →
  inv (msgs ++ new) (mk_threads (ring_of t) (prod t) (cons t) new (delivered t)) ps l.
Proof.
  destruct t as [q p c td dl]. cbn [ring_of prod cons todo delivered]. intros [] -> ->.
  split; try done. unfold popped, pushing in *. cbn in *. rewrite <- inv_msgs.
  by rewrite !app_nil_r, !app_assoc.
Qed.

Lemma depth_publish q :
  head q < cap q → tail q < cap q →
  vts_fifo_depth (set_tail (next_idx (tail q) (cap q)) q) ≤ S (vts_fifo_depth q).
Proof.
  unfold vts_fifo_depth, next_idx. cbn [head tail cap set_tail]. intros Hh Ht.
  destruct (Nat.eqb_spec (tail q + 1) (cap q));
    repeat match goal with |- context [?a <=? ?b] => destruct (Nat.leb_spec a b) end; lia.
Qed.

(** A step of the producer: the messages to be popped grow by the one published. *)
Lemma pstep_frame msgs t t' ps l :
  inv msgs t ps l → overrun t = false → pstep t = Done (tt, t') →
  cons t' = cons t ∧ delivered t' = delivered t
  ∧ vts_fifo_depth (ring_of t')
    ≤ vts_fifo_depth (ring_of t) + match prod t with PTail _ => 1 | _ => 0 end.
Proof.
  intros Hi Hov. pose proof Hi as [Hr Hs Hh Ht Hpe Ho Hp Hc Hm].
  destruct t as [q p c td dl]. unfold pstep, mbind, mon_bind, gets.
  unfold on_ring, load_slot, store_slot, free, lift, gets, modify, strdup.
  unfold overrun in Hov. unfold prod_ok in Hp. cbn [prod id ring_of] in *.
  destruct p as [|msg tl|msg tl hd|msg tl hd p|msg tl hd|msg tl hd|msg tl|tl p|tl]; try done;
    cbn [cons ring_of delivered todo].
  - destruct td; intros [= <-]; cbn; split_and!; done || lia.
  - intros [= <-]. cbn. split_and!; done || lia.
  - rewrite Hov. intros [= <-]. cbn. split_and!; done || lia.
  - intros [= <-]. cbn. split_and!; try done. unfold vts_fifo_depth. cbn. lia.
  - destruct (_ <? _); [|done]. intros [= <-]. cbn. split_and!; try done. unfold vts_fifo_depth. cbn. lia.
  - subst tl. intros [= <-]. cbn [cons ring_of delivered set_prod set_ring]. split_and!; try done.
    rewrite Nat.add_1_r. apply depth_publish; [done|]. unfold pend in *. cbn in *.
    rewrite Ht. apply slot_lt; [|lia]. unfold vhead. cbn. destruct c; try done. by apply next_idx_lt.
Qed.

(** A step of the consumer. *)
Lemma cstep_log t t' :
  cstep t = Done (tt, t') →
  prod t' = prod t ∧ todo t' = todo t
  ∧ delivered t' = delivered t ++ match cons t with
      | CGot (Some p) => option_list (heap (ring_of t) !! p)
      | _ => []
      end.
Proof.
  destruct t as [q p c td dl]. unfold cstep, mbind, mon_bind, gets. cbn [cons id].
  unfold on_ring, load_slot, store_slot, free, lift, gets, modify.
  destruct c as [|hd|hd tl|hd out|hd out|[pt|]|pt]; cbn [ring_of];
    repeat (case_match; simplify_eq/=); try done; intros [= <-]; cbn;
    rewrite ?app_nil_r; done.
Qed.

Lemma cstep_place t t' :
  cstep t = Done (tt, t') →
  (turn_ends (cons t) = true → cons t' = CIdle)
  ∧ (pop_null (cons t) = true → ring_of t' = ring_of t)
  ∧ (found_empty (cons t') = true → ∃ hd, cons t = CHeadLoaded hd
       ∧ cons t' = CTailLoaded hd (tail (ring_of t)) ∧ ring_of t' = ring_of t).
Proof.
  destruct t as [q p c td dl]. unfold cstep, mbind, mon_bind, gets. cbn [cons id].
  unfold on_ring, load_slot, store_slot, free, lift, gets, modify.
  destruct c as [|hd|hd tl|hd out|hd out|[pt|]|pt]; cbn [ring_of];
    repeat (case_match; simplify_eq/=); try done; intros [= <-]; cbn;
    split_and!; try done; try congruence; eauto.
Qed.

Section steps.
Context (writable : bool) (MAXB : nat).
Abbreviation pipe_inv := (pipe_inv MAXB).

(** While the receiver is not at its end the ring exists. *)
Lemma receiver_live s : pipe_inv s → rpc s ≠ RDone → freed s = false.
Proof.
  intros Hs Hd. pose proof (pi_ring _ _ Hs) as H. destruct (freed s); [|done].
  by destruct H as (_ & H & _).
Qed.

Lemma coordinator_live s : pipe_inv s → cpc s ≠ CDone → freed s = false.
Proof.
  intros Hs Hd. pose proof (pi_ring _ _ Hs) as H. destruct (freed s); [|done].
  by destruct H as (_ & _ & H & _).
Qed.

(** Moving the receiver's program counter outside [handle_line]. *)
Lemma pipe_inv_recv s r pc :
  pipe_inv s → rpc s ≠ RDone → prod (ring_threads s) = PIdle → todo (ring_threads s) = [] →
  line r = line (rcv s) → pushed_lines r = pushed_lines (rcv s) → pipe_inv (set_recv r pc s).
Proof.
  intros Hs Hd Hp Ht Hl Hpu. pose proof (receiver_live s Hs Hd) as Hf.
  destruct Hs as [H1 H2 H3 H4 H5 H6 H7]. split; try done.
  - unfold split_at in *. cbn [set_recv consumed rcv]. by rewrite Hl, Hpu.
  - cbn [set_recv rpc ring_threads]. by destruct pc.
  - cbn [set_recv freed rcv ring_threads]. rewrite Hf in *. by rewrite Hpu.
Qed.

Lemma turn_keeps r e :
  match e with Readable (inl (_ :: _)) _ => False | _ => True end →
  line (recv_turn r e) = line r ∧ pushed_lines (recv_turn r e) = pushed_lines r.
Proof.
  unfold recv_turn. destruct (registered r); [|done]. cbn [negb].
  destruct e as [|n|[[|b d]|err] n]; try done; intros _.
  - cbn. by destruct (n <? 0)%Z.
  - by destruct (_ || _).
Qed.

Lemma recv_one_spec b bs s :
  pipe_inv s → rpc s = RBytes (b :: bs) → wp (recv_one b bs) s (λ _ s', pipe_inv s').
Proof.
  intros Hs Hpc. pose proof (receiver_live s Hs ltac:(by rewrite Hpc)) as Hf.
  destruct Hs as [H1 H2 H3 H4 H5 H6 H7]. rewrite Hpc in H4. destruct H4 as [Hp Ht].
  rewrite Hf in H6. destruct H6 as (ps & l & Hi). unfold recv_one. do 2 wp_step. cbv zeta.
  destruct (recv_byte_calls (rcv s) b) as (new & E1 & ->).
  wp_step. apply wp_on_threads. wp_step. do 2 wp_step. wp_step. split; try done.
  - unfold split_at. cbn [set_recv set_threads consume consumed rcv]. by eapply split_at_byte.
  - cbn [set_recv set_threads consume freed rcv ring_threads]. rewrite Hf, E1.
    exists ps, l. by apply inv_more.
Qed.

Lemma push_step_spec bs s :
  pipe_inv s → rpc s = RPush bs → overrun (ring_threads s) = false →
  wp (push_step bs) s (λ _ s', pipe_inv s').
Proof.
  intros Hs Hpc Hov. pose proof (receiver_live s Hs ltac:(by rewrite Hpc)) as Hf.
  unfold push_step. do 6 wp_step.
  assert (prod (ring_threads s) = PIdle ∧ todo (ring_threads s) = []
    ∨ wp (on_threads pstep;;
          modify (set_unseen (match prod (ring_threads s) with PTail _ => S (unseen s) | _ => unseen s end)))
         s (λ _ s', pipe_inv s')) as [[E1 E2]|H].
  - right. destruct Hs as [H1 H2 H3 H4 H5 H6 H7]. rewrite Hf in H6. destruct H6 as (ps & l & Hi).
    wp_step. apply wp_on_threads. pose proof (pstep_inv _ _ _ _ Hi Hov) as H.
    apply wp_done in H as ([] & t & E & ps' & l' & Hi').
    destruct (pstep_frame _ _ _ _ _ Hi Hov E) as (Ec & Ed & Hdp).
    unfold wp at 1. rewrite E. wp_step. split; cbn [set_unseen set_threads consumed rcv plog
      ring_threads rpc cpc freed unseen]; try done.
    + by rewrite Ed.
    + by rewrite Hpc.
    + by rewrite Ec.
    + rewrite Hf. by exists ps', l'.
    + rewrite Ec. intros Hq _. specialize (H7 Hq Hf). destruct (prod (ring_threads s)); lia.
  - rewrite E1, E2. wp_step. apply pipe_inv_recv; rewrite ?Hpc; done.
  - destruct (prod (ring_threads s)) eqn:E1; [|exact H..].
    destruct (todo (ring_threads s)) eqn:E2; [|exact H].
    wp_step. apply pipe_inv_recv; rewrite ?Hpc; done.
Qed.

Lemma recv_step_spec e s :
  pipe_inv s → overrun (ring_threads s) = false → wp (recv_step e) s (λ _ s', pipe_inv s').
Proof.
  intros Hs Hov. pose proof (pi_recv _ _ Hs) as Hi. unfold recv_step. do 6 wp_step.
  destruct (rpc s) as [| |[|b bs]|bs|] eqn:Hpc; try destruct Hi.
  - wp_step. by apply pipe_inv_recv; rewrite ?Hpc.
  - destruct e as [|n|[[|b d]|err] n]; wp_step; apply pipe_inv_recv; rewrite ?Hpc; try done;
      by apply turn_keeps.
  - wp_step. by apply pipe_inv_recv; rewrite ?Hpc.
  - by apply recv_one_spec.
  - by apply push_step_spec.
  - by wp_step.
Qed.

(** Where a turn of the coordinator, in either of its loops, stands after an access. *)
Definition place_ok (c : consumer) (pc : coord_pc) : Prop :=
  match pc with
  | CTest => turn_ends c = true
  | CDone => pop_null c = true
  | _ => True
  end.

(** An access of the coordinator, given what it does to the log. *)
Lemma pipe_inv_coord s t l n pc :
  pipe_inv s → freed s = false → cstep (ring_threads s) = Done (tt, t) →
  place_ok (cons (ring_threads s)) pc →
  wf_logs l → view l = foldl (spec_line MAXB) (None, None, None) (delivered t) →
  n = match cons (ring_threads s) with CHeadLoaded _ => 0 | _ => unseen s end →
  pipe_inv (set_cpc pc (set_unseen n (set_plog l (set_threads t s)))).
Proof.
  intros [H1 _ _ H4 _ H6 H7] Hf E Hpl Hw Hv Hn. rewrite Hf in H6. destruct H6 as (ps & k & Hi).
  destruct (cstep_log _ _ E) as (Ep & Et & _). destruct (cstep_place _ _ E) as (Hend & Hnull & Hfe).
  pose proof (inv_cons _ _ _ _ Hi) as Hc.
  split; cbn [set_cpc set_unseen set_plog set_threads consumed rcv plog ring_threads rpc cpc freed unseen];
    try done.
  - by rewrite Ep, Et.
  - destruct pc; try done; [by apply Hend|]. apply Hend. by destruct (cons (ring_threads s)).
  - rewrite Hf. pose proof (cstep_inv _ _ _ _ Hi) as H.
    apply wp_done in H as ([] & t' & E' & ps' & k' & Hi'). rewrite E in E'. injection E' as <-.
    by exists ps', k'.
  - intros [Hq| ->] _.
    + destruct (Hfe Hq) as (hd & Ec & Ec' & ->). rewrite Ec' in Hq. apply Nat.eqb_eq in Hq.
      unfold cons_ok in Hc. rewrite Ec in Hc. unfold vts_fifo_depth. rewrite <- Hq, <- Hc, Nat.leb_refl. lia.
    + cbn in Hpl. rewrite (Hnull Hpl). subst n. unfold cons_ok in Hc.
      destruct (cons (ring_threads s)) as [| | | | |[]|]; try done; [by apply H7; [left|]|].
      by destruct Hc.
Qed.

Lemma coord_access_spec s pc :
  pipe_inv s → cpc s ≠ CDone → hazard writable s = false → place_ok (cons (ring_threads s)) pc →
  wp (coord_access writable MAXB) s (λ _ s', pipe_inv (set_cpc pc s')).
Proof.
  intros Hs Hd Hh Hpl. pose proof (coordinator_live s Hs Hd) as Hf.
  pose proof (pi_ring _ _ Hs) as Hr. rewrite Hf in Hr. destruct Hr as (ps & k & Hi).
  pose proof (cstep_inv _ _ _ _ Hi) as H. apply wp_done in H as ([] & t & E & _).
  destruct (cstep_log _ _ E) as (_ & _ & Ed).
  pose proof (pipe_inv_coord s t) as Hnext. specialize (Hnext) with (1 := Hs) (2 := Hf) (3 := E) (4 := Hpl).
  assert (wp (on_threads cstep) s (λ _ s', s' = set_threads t s)) as Hstep.
  { apply wp_on_threads. unfold wp. by rewrite E. }
  unfold coord_access. do 4 wp_step. unfold hazard in Hh. apply orb_false_iff in Hh as [_ Hh].
  destruct (cons (ring_threads s)) as [|hd|hd tl|hd out|hd out|[p|]|p] eqn:Ec;
    rewrite ?app_nil_r in Ed;
    try (eapply wp_mono; [exact Hstep|]; intros [] ? ->;
         apply (Hnext (plog s) (unseen s)); [apply Hs|rewrite Ed; apply Hs|done]).
  - wp_step. eapply wp_mono; [exact Hstep|]. intros [] ? ->. wp_step.
    apply (Hnext (plog s) 0); [apply Hs|rewrite Ed; apply Hs|done].
  - rewrite andb_true_r in Hh. apply negb_false_iff in Hh. rewrite Hh in *.
    destruct (heap (ring_of (ring_threads s)) !! p) as [text|] eqn:Ep; cbn [option_list] in Ed.
    2:{ exfalso. destruct (owned_held _ _ _ _ p (inv_owned _ _ _ _ Hi)) as [x Hx]; [|congruence].
        unfold held. rewrite Ec. set_solver. }
    wp_step. wp_step. wp_step. apply wp_on_plog.
    eapply wp_mono; [apply (line_spec MAXB (plog s) text), Hs|]. intros [] l (Hw & _ & _ & Hv & _).
    apply wp_on_threads. unfold wp. cbn [set_plog ring_threads]. rewrite E.
    apply (Hnext l (unseen s)); [done| |done]. by rewrite Ed, foldl_app, Hv, (pi_view _ _ Hs).
Qed.

Lemma coord_step_spec s :
  pipe_inv s → hazard writable s = false →
  wp (coord_step writable MAXB) s (λ _ s', pipe_inv s').
Proof.
  intros Hs Hh. unfold coord_step. do 6 wp_step. destruct (cpc s) eqn:Hpc.
  - wp_step. pose proof (coordinator_live s Hs ltac:(by rewrite Hpc)) as Hf.
    destruct Hs as [H1 H2 H3 H4 H5 H6 H7]. rewrite Hpc in H5. split; try done.
    + by destruct (g_stop s).
    + cbn [set_cpc freed]. by rewrite Hf in *.
    + cbn [set_cpc cpc ring_threads]. rewrite H5. intros [?|E]; [done|]. by destruct (g_stop s).
  - wp_step. eapply wp_mono; [eapply (coord_access_spec s (if turn_ends (cons (ring_threads s)) then CTest else CTurn) Hs ltac:(congruence) Hh);
      by destruct (turn_ends _) eqn:?|]. intros [] s' H. by wp_step.
  - wp_step. eapply wp_mono; [eapply (coord_access_spec s (if pop_null (cons (ring_threads s)) then CDone else CDrain) Hs ltac:(congruence) Hh);
      by destruct (pop_null _) eqn:?|]. intros [] s' H. by wp_step.
  - by wp_step.
Qed.

(** What is still in the ring when both threads have ended. *)
Lemma ring_left s :
  pipe_inv s → freed s = false → rpc s = RDone → cpc s = CDone →
  ∃ ps l, ring (ring_of (ring_threads s)) ps ∧ owned (ring_of (ring_threads s)) ps [] l
    ∧ delivered (ring_threads s) ++ l = pushed_lines (rcv s) ∧ length l ≤ unseen s.
Proof.
  intros [H1 H2 H3 H4 H5 H6 H7] Hf Hr Hc. rewrite Hr in H4. rewrite Hc in H5. rewrite Hf in H6.
  destruct H4 as [Hp Ht]. destruct H6 as (ps & l & [Hrg _ _ _ _ Ho _ _ Hm]).
  specialize (H7 (or_intror Hc) Hf). unfold vring, vhead, vtail, held, popped, pushing in *.
  rewrite Hp, Ht, H5 in *.
  assert (ring (ring_of (ring_threads s)) ps) as Hrg' by by apply (ring_ext _ _ _ Hrg).
  exists ps, l. split_and!; try done; [by rewrite <- Hm; cbn; rewrite !app_nil_r|].
  rewrite <- (Forall2_length _ _ _ (owned_strings _ _ _ _ Ho)). by rewrite <- (ring_depth _ _ Hrg').
Qed.

Lemma join_step_spec s : pipe_inv s → wp join_step s (λ _ s', pipe_inv s').
Proof.
  intros Hs. unfold join_step. do 2 wp_step. unfold id.
  destruct (rpc s) eqn:Hr; try by wp_step. destruct (cpc s) eqn:Hc; try by wp_step.
  destruct (freed s) eqn:Hf; [by wp_step|].
  destruct (ring_left s Hs Hf Hr Hc) as (ps & l & Hrg & Ho & Hm & Hl).
  wp_step. apply wp_on_threads, wp_on_ring.
  eapply wp_mono; [apply (free_slot_spec _ _ _ _ _ Hrg Ho); lia|]. intros [] q Hq. wp_step.
  destruct Hs as [H1 H2 H3 H4 H5 H6 H7]. split; try done.
  split_and!; [apply dom_empty_iff_L; change (dom (heap q) = ∅); by rewrite Hq|done..|by exists l].
Qed.

Lemma pipe_step_spec m s :
  pipe_inv s → hazard writable s = false → wp (pipe_step writable MAXB m) s (λ _ s', pipe_inv s').
Proof.
  intros Hs Hh. destruct m; cbn [pipe_step].
  - apply recv_step_spec; [done|]. by apply orb_false_iff in Hh as [? _].
  - by apply coord_step_spec.
  - wp_step. by destruct Hs as [H1 H2 H3 H4 H5 H6 H7].
  - by apply join_step_spec.
Qed.

Lemma pipe_run_spec ms s :
  pipe_inv s → smooth writable MAXB ms s = true →
  wp (pipe_run writable MAXB ms) s (λ _ s', pipe_inv s').
Proof.
  revert s. induction ms as [|m ms IH]; intros s Hs; cbn [pipe_run smooth]; [intros _; by wp_step|].
  intros [Hh%negb_true_iff Hsm]%andb_prop. wp_step.
  pose proof (pipe_step_spec m s Hs Hh) as H. apply wp_done in H as ([] & s' & E & Hs').
  rewrite E in Hsm. unfold wp at 1. rewrite E. by apply IH.
Qed.

Lemma pipe_inv_init c f : 2 ≤ c → pipe_inv (pipe_init c f).
Proof.
  intros Hc. split; try done. exists [], []. by apply inv_init.
Qed.
End steps.

(** ** Few bytes *)

(** Bytes that the receiver has read and not looked at, and those that a step may read. *)
Definition ahead (pc : recv_pc) : nat :=
  match pc with RBytes bs | RPush bs => length bs | _ => 0 end.
Definition arriving (m : move) : nat :=
  match m with Receiver (Readable (inl d) _) => length d | _ => 0 end.

(** The receiver is not about to drop a message, and has fewer to push than the ring has slots
    with [n] bytes to come. *)
Definition room (n : nat) (s : pipe) : Prop :=
  overrun (ring_threads s) = false
  ∧ (freed s = false → length (pushed_lines (rcv s)) + ahead (rpc s) + n < cap (ring_of (ring_threads s))).

Lemma recv_byte_one r b :
  length (pushed_lines (recv_byte r b)) ≤ S (length (pushed_lines r)).
Proof.
  rewrite recv_byte_eq. destruct (_ || _); cbn [pushed_lines]; [|lia].
  rewrite length_app, length_fmap. cbn [filter list_filter].
  destruct (decide _); cbn; lia.
Qed.

Lemma idle_no_overrun t : prod t = PIdle → overrun t = false.
Proof. unfold overrun. by intros ->. Qed.

(** Moving the receiver's program counter. *)
Lemma room_recv n n' s r pc :
  room n s → pushed_lines r = pushed_lines (rcv s) → ahead pc + n' ≤ ahead (rpc s) + n →
  room n' (set_recv r pc s).
Proof.
  intros [H1 H2] E Hle. split; [done|]. cbn [set_recv freed rcv rpc ring_threads].
  intros Hf. specialize (H2 Hf). rewrite E. lia.
Qed.

Lemma room_same n s s' :
  room n s → rcv s' = rcv s → rpc s' = rpc s → freed s' = freed s →
  prod (ring_threads s') = prod (ring_threads s) →
  cap (ring_of (ring_threads s')) = cap (ring_of (ring_threads s)) → room n s'.
Proof. unfold room, overrun, full. intros [H1 H2] -> -> -> -> ->. by split. Qed.

Section few.
Context (MAXB : nat).

Lemma room_byte n b bs s :
  room n s → rpc s = RBytes (b :: bs) → prod (ring_threads s) = PIdle →
  wp (recv_one b bs) s (λ _, room n).
Proof.
  intros [_ H] Hpc Hp. unfold recv_one. do 2 wp_step. cbv zeta.
  wp_step. apply wp_on_threads. wp_step. do 3 wp_step.
  split; cbn [set_recv set_threads consume freed rcv rpc ring_threads ring_of]; [by apply idle_no_overrun|].
  intros Hf. specialize (H Hf). rewrite Hpc in H. cbn [ahead length] in *.
  pose proof (recv_byte_one (rcv s) b). lia.
Qed.

Lemma room_push n bs s :
  pipe_inv MAXB s → room n s → rpc s = RPush bs → wp (push_step bs) s (λ _, room n).
Proof.
  intros Hs Hroom Hpc. pose proof (receiver_live MAXB s Hs ltac:(by rewrite Hpc)) as Hf.
  pose proof Hroom as [Hov Hfew]. specialize (Hfew Hf).
  pose proof (pi_ring _ _ Hs) as Hi. rewrite Hf in Hi. destruct Hi as (ps & l & Hi).
  assert (wp pstep (ring_threads s) (λ _ t, overrun t = false
    ∧ cap (ring_of t) = cap (ring_of (ring_threads s)))) as Hstep.
  { pose proof (step_inv Producer _ _ _ _ Hi Hov) as H. apply wp_done in H as ([] & t & E & _).
    unfold wp. change (pstep (ring_threads s)) with (step Producer (ring_threads s)). rewrite E.
    eapply step_overrun; [done..| |done]. lia. }
  assert (wp (on_threads pstep;;
      modify (set_unseen (match prod (ring_threads s) with PTail _ => S (unseen s) | _ => unseen s end)))
      s (λ _, room n)) as Hpush.
  { wp_step. apply wp_on_threads. eapply wp_mono; [exact Hstep|]. intros [] t [H1 H2]. wp_step.
    split; [done|]. cbn [set_unseen set_threads freed rcv rpc ring_threads]. by rewrite H2. }
  unfold push_step. do 6 wp_step.
  destruct (prod (ring_threads s)); [|exact Hpush..]. destruct (todo (ring_threads s)); [|exact Hpush].
  wp_step. apply (room_recv n); [done..|]. by rewrite Hpc.
Qed.

Lemma room_receiver n e s :
  pipe_inv MAXB s → room (arriving (Receiver e) + n) s → wp (recv_step e) s (λ _, room n).
Proof.
  intros Hs Hroom. pose proof (pi_recv _ _ Hs) as Hi.
  assert (room n s) as Hroom'.
  { destruct Hroom as [H1 H2]. split; [done|]. intros Hf. specialize (H2 Hf). lia. }
  unfold recv_step. do 6 wp_step.
  destruct (rpc s) as [| |[|b bs]|bs|] eqn:Hpc; try destruct Hi.
  - wp_step. apply (room_recv n); [done..|]. rewrite Hpc. by destruct (g_stop s).
  - destruct e as [|k|[[|b d]|err] k]; wp_step; apply (room_recv _ n _ _ _ Hroom);
      rewrite ?Hpc; cbn [ahead arriving length]; try lia; try done; try by apply turn_keeps.
    destruct (registered _); cbn; lia.
  - wp_step. apply (room_recv n); [done..|]. by rewrite Hpc.
  - by apply room_byte.
  - by eapply room_push.
  - by wp_step.
Qed.

Lemma room_access w n s s' : room n s → coord_access w MAXB s = Done (tt, s') → room n s'.
Proof.
  intros Hroom H.
  assert (∃ t, cstep (ring_threads s) = Done (tt, t) ∧ ring_threads s' = t
    ∧ rcv s' = rcv s ∧ rpc s' = rpc s ∧ freed s' = freed s) as (t & E & Et & E1 & E2 & E3).
  { unfold coord_access, mbind, mon_bind, gets, on_threads, on_plog, modify, lift in H.
    repeat (case_match; simplify_eq/=); try destruct u; eauto 10. }
  apply cstep_frame in E as [Hp Hc]. eapply room_same; [done..| |]; by rewrite Et.
Qed.

Lemma room_step m n s :
  pipe_inv MAXB s → room (arriving m + n) s →
  wp (pipe_step true MAXB m) s (λ _, room n).
Proof.
  intros Hs Hroom. destruct m; cbn [pipe_step]; [by apply room_receiver|..]; cbn [arriving] in Hroom.
  - assert (hazard true s = false) as Hh by (unfold hazard; by rewrite (proj1 Hroom)).
    pose proof (coord_step_spec true MAXB s Hs Hh) as H. apply wp_done in H as ([] & s' & E & _).
    unfold wp. rewrite E. unfold coord_step, mbind, mon_bind, gets, modify in E.
    destruct (coord_access true MAXB s) as [[[] s1]| |] eqn:Ea;
      [pose proof (room_access _ _ _ _ Hroom Ea)|..];
      destruct (cpc s); cbn in E; rewrite ?Ea in E; (discriminate E || by injection E as <-).
  - by wp_step.
  - pose proof (join_step_spec MAXB s Hs) as H. apply wp_done in H as ([] & s' & E & Hs').
    unfold wp. rewrite E. pose proof (pi_recv _ _ Hs') as Hp.
    assert (s' = s ∨ freed s' = true ∧ rpc s' = RDone) as [->|[Hf Hd]]; [|done|].
    { unfold join_step, mbind, mon_bind, gets, id in E.
      destruct (rpc s) eqn:?, (cpc s), (freed s); try (left; by injection E as <-).
      unfold on_threads in E. destruct (on_ring _ _) as [[[] t]| |]; try discriminate E.
      injection E as <-. by right. }
    split; [|by rewrite Hf]. apply idle_no_overrun. by rewrite Hd in Hp; destruct Hp.
Qed.

Lemma few_bytes_smooth ms s :
  pipe_inv MAXB s → room (sum_list (arriving <$> ms)) s → smooth true MAXB ms s = true.
Proof.
  revert s. induction ms as [|m ms IH]; intros s Hs Hroom; cbn [smooth].
  - unfold hazard. by rewrite (proj1 Hroom).
  - assert (hazard true s = false) as Hh by (unfold hazard; by rewrite (proj1 Hroom)). rewrite Hh.
    cbn [negb andb].
    pose proof (pipe_step_spec true MAXB m s Hs Hh) as H. apply wp_done in H as ([] & s' & E & Hs').
    pose proof (room_step m _ s Hs Hroom) as H. unfold wp in H. rewrite E in *. by apply IH.
Qed.
End few.

(** ** Properties *)

(** C5: from the pipe to the log. Take any interleaving of single accesses of the receiver, the
    coordinator, the stop request and the shutdown, and any cut of the pipe's data into reads,
    in which the receiver never finds the ring full and the coordinator never logs while the
    log cannot be opened ([smooth]). Then nothing undefined happens; at every moment the
    messages cut from the bytes consumed so far are, in order and once each, those in the log
    followed by those that are still on their way, which are the one popped, those in the ring,
    the one being pushed and those that [handle_line] has yet to push. When both threads have
    ended at most the messages published since the coordinator last looked at [tail] are not
    in the log; joining frees all of the ring's memory, and with it these. *)
Theorem pipeline_delivers (writable : bool) (c maxb : nat) (f : Z) (moves : list move) :
  2 ≤ c → smooth writable maxb moves (pipe_init c f) = true →
  ∃ s left,
    pipe_run writable maxb moves (pipe_init c f) = Done (tt, s)
    ∧ view (plog s) = foldl (spec_line maxb) (None, None, None) (delivered (ring_threads s))
    ∧ (let '(ls, r) := split_lines [] (consumed s) in
       delivered (ring_threads s) ++ left = (ls ≫= line_messages) ++ full_pieces r)
    ∧ (if freed s then heap (ring_of (ring_threads s)) = ∅
       else ∃ ps l, ring (vring (ring_threads s)) ps
              ∧ owned (ring_of (ring_threads s)) ps (held (ring_threads s)) l
              ∧ left = popped (ring_threads s) ++ l ++ pushing (ring_threads s) ++ todo (ring_threads s))
    ∧ (rpc s = RDone → cpc s = CDone → length left ≤ unseen s).
Proof.
  intros Hc Hsm.
  pose proof (pipe_run_spec writable maxb moves _ (pipe_inv_init maxb c f Hc) Hsm) as H.
  apply wp_done in H as ([] & s & E & Hs). pose proof Hs as [H1 H2 H3 H4 H5 H6 H7].
  assert (∀ left, delivered (ring_threads s) ++ left = pushed_lines (rcv s) →
    let '(ls, r) := split_lines [] (consumed s) in
    delivered (ring_threads s) ++ left = (ls ≫= line_messages) ++ full_pieces r) as Hsplit.
  { intros left Hl. unfold split_at in H1. destruct (split_lines [] (consumed s)) as [ls r].
    destruct H1 as [_ H1]. congruence. }
  destruct (freed s) eqn:Hf.
  - destruct H6 as (Hh & Hr & Hd & left & Hm & Hl). exists s, left.
    split; [exact E|]. split; [done|]. split; [by apply Hsplit|]. rewrite Hf. by split.
  - destruct H6 as (ps & l & Hi). pose proof (inv_msgs _ _ _ _ Hi) as Hm. eexists s, _.
    split; [exact E|]. split; [done|]. split; [by apply Hsplit|]. rewrite Hf. split.
    { exists ps, l. split_and!; [apply Hi|apply Hi|reflexivity]. }
    intros Hr Hd. destruct (ring_left maxb s Hs Hf Hr Hd) as (_ & l' & _ & _ & Hm' & Hl).
    rewrite <- Hm' in Hm. apply app_inv_head in Hm. by rewrite Hm.
Qed.

Definition chunk (d : bytes) : move := Receiver (Readable (inl d) 0).
Definition ticks (n : nat) : list move := replicate n (Receiver Quiet).

(** Two lines in two reads, the second read before the stop request and pushed after it while
    the coordinator is in its turn. *)
Definition two_lines : list move :=
  ticks 1 ++ [chunk (lit "one" ++ [LF] ++ lit "tw")] ++ ticks 19 ++ replicate 8 Coordinator ++ ticks 1
  ++ [chunk (lit "o" ++ [LF]); Coordinator; Coordinator; Stop] ++ ticks 12 ++ replicate 20 Coordinator
  ++ [Join].

Lemma pipeline_delivers_witness :
  ∃ s left,
    pipe_run true 100 two_lines (pipe_init 4 3) = Done (tt, s)
    ∧ consumed s = lit "one" ++ [LF] ++ lit "two" ++ [LF]
    ∧ delivered (ring_threads s) ++ left = [lit "one"; lit "two"] ∧ left = [] ∧ freed s = true
    ∧ view (plog s) = foldl (spec_line 100) (None, None, None) (delivered (ring_threads s)).
Proof.
  destruct (pipeline_delivers true 4 100 3 two_lines) as (s & left & E & Hv & Hm & _ & Hl).
  { lia. }
  { vm_compute. reflexivity. }
  assert (consumed s = lit "one" ++ [LF] ++ lit "two" ++ [LF] ∧ rpc s = RDone ∧ cpc s = CDone
    ∧ unseen s = 0 ∧ freed s = true) as (Hc & Hr & Hd & Hu & Hf).
  { vm_compute in E. injection E as <-. repeat split. }
  exists s, left. split; [exact E|]. split; [exact Hc|]. split.
  - rewrite Hc in Hm. destruct (split_lines [] _) as [ls r] eqn:Es. vm_compute in Es.
    injection Es as <- <-. exact Hm.
  - specialize (Hl Hr Hd). rewrite Hu in Hl. split; [apply nil_length_inv; lia|]. by split.
Defined.

(** Lines lost at shutdown. The receiver does not look at [g_stop] inside its loop over the
    bytes read, and the coordinator ends when it finds the ring empty once: a line that the
    receiver has read before the stop request but pushes after that is freed with the ring
    and never logged, in a smooth run and with both threads joined. *)
Theorem line_lost_at_shutdown (maxb : nat) :
  ∃ moves s, smooth true maxb moves (pipe_init 16 3) = true
    ∧ pipe_run true maxb moves (pipe_init 16 3) = Done (tt, s)
    ∧ consumed s = lit "a" ++ [LF] ∧ pushed_lines (rcv s) = [lit "a"]
    ∧ rpc s = RDone ∧ cpc s = CDone ∧ freed s = true ∧ view (plog s) = (None, None, None).
Proof.
  exists (ticks 1 ++ [chunk (lit "a" ++ [LF]); Stop] ++ replicate 4 Coordinator ++ ticks 12 ++ [Join]).
  eexists. split; [vm_compute; reflexivity|]. split; [vm_compute; reflexivity|]. vm_compute. repeat split.
Qed.

(** A log that can be written and no more bytes in all than the ring has slots are enough for a
    smooth run, whatever the interleaving. *)
Theorem few_bytes_are_smooth (c maxb : nat) (f : Z) (moves : list move) :
  2 ≤ c → sum_list (arriving <$> moves) < c → smooth true maxb moves (pipe_init c f) = true.
Proof.
  intros Hc Hfew. apply (few_bytes_smooth maxb); [by apply pipe_inv_init|]. split; [done|]. cbn. lia.
Qed.

(** Neither condition of a smooth run can be dropped: with a log that cannot be opened, and
    likewise with a ring of two slots that a second line finds full while the first one is
    being popped, there are runs that the C standard leaves undefined. *)
Theorem pipeline_hazards (maxb : nat) :
  (∃ moves, pipe_run false maxb moves (pipe_init 16 3) = Undef)
  ∧ (∃ moves, pipe_run true maxb moves (pipe_init 2 3) = Undef).
Proof.
  split.
  - exists (ticks 1 ++ [chunk (lit "a" ++ [LF])] ++ ticks 9 ++ replicate 7 Coordinator).
    vm_compute. reflexivity.
  - exists (ticks 1 ++ [chunk (lit "a" ++ [LF] ++ lit "b" ++ [LF])] ++ ticks 10
      ++ replicate 4 Coordinator ++ ticks 7 ++ replicate 3 Coordinator).
    vm_compute. reflexivity.
Qed.
