(* ===== verification/NetServer.v ===== *)
(** * NetServer: the event loop of userspace/vts/src/net_server.c

    [run_server_loop] accepts connections, turns datagrams into requests and runs
    [read_from_conn] on connections with activity.  The state is the list [g_conns], the
    calls of [req_queue_push] and the descriptors closed.  An event says what the system
    answers to the calls it leads to.  The contract keeps one decoder per open descriptor. *)
From stdpp Require Import prelude strings list gmap fin_maps.
From Stdlib Require Import Ascii ZArith Lia.
From S2P Require Import Prelude CString Rooms Dedup Protocol NetConn ReqHandler.

Record server_loop := mk_loop {
  g_conns : list conn;
  requests : list (bytes * Z);
  closed : list Z }.

(** What [epoll_wait] reports, with the answers that follow:
    - new connections: the descriptors that [accept] returns, and whether [calloc] succeeds;
    - datagrams, each with whether [malloc] succeeds;
    - activity on a descriptor: its reads, what they end with, and the hang-up flags. *)
Inductive event :=
  | Accept (fds : list (Z * bool))
  | Datagrams (ds : list (bytes * bool))
  | Activity (fd : Z) (chunks : list bytes) (idle : option Z) (hup : bool).

Definition UDP_BUF : nat := 2048.

Section server.
Context (malloc : Z → bool).

Definition push (p : bytes) (peer : Z) (s : server_loop) : server_loop :=
  mk_loop (g_conns s) (requests s ++ [(p, peer)]) (closed s).

Definition accept_one (s : server_loop) (a : Z * bool) : server_loop :=
  if a.2 then mk_loop (g_conns s ++ [conn_new a.1]) (requests s) (closed s)
  else mk_loop (g_conns s) (requests s) (closed s ++ [a.1]).

(** The [recvfrom] loop; an empty datagram ends it. *)
Fixpoint recv_datagrams (ds : list (bytes * bool)) (s : server_loop) : server_loop :=
  match ds with
  | [] => s
  | (d, ok) :: ds =>
    let d := take UDP_BUF d in
    if length d =? 0 then s
    else if (VTS_MAX_FRAME <? Z.of_nat (length d))%Z then recv_datagrams ds s
    else recv_datagrams ds (if ok : bool then push d (-1) s else s)
  end.

(** [TAILQ_FOREACH] up to the first connection with this descriptor. *)
Definition find_conn (f : Z) (cs : list conn) : option (nat * conn) :=
  list_find (λ c, fd c = f) cs.

(** A fuel that covers every byte of the reads. *)
Definition read_fuel (chunks : list bytes) : nat := length (concat chunks) + 2.

Definition handle_event (e : event) (s : server_loop) : option server_loop :=
  match e with
  | Accept fds => Some (foldl accept_one s fds)
  | Datagrams ds => Some (recv_datagrams ds s)
  | Activity f chunks idle hup =>
    match find_conn f (g_conns s) with
    | None => Some s
    | Some (i, c) =>
      match read_from_conn malloc (read_fuel chunks) (mk_net c chunks idle (requests s)) with
      | Done (r, n) =>
        if (r <=? 0)%Z || hup then
          Some (mk_loop (delete i (g_conns s)) (queued n) (closed s ++ [f]))
        else Some (mk_loop (<[i := cn n]> (g_conns s)) (queued n) (closed s))
      | _ => None
      end
    end
  end.

Fixpoint run_server_loop (evs : list event) (s : server_loop) : option server_loop :=
  match evs with
  | [] => Some s
  | e :: evs => s ← handle_event e s; run_server_loop evs s
  end.

Definition loop_init : server_loop := mk_loop [] [] [].

(** ** The contract *)

Definition spec_loop : Type := gmap Z dstate * list (bytes * Z).

Fixpoint spec_datagrams (ds : list (bytes * bool)) : list (bytes * Z) :=
  match ds with
  | [] => []
  | (d, ok) :: ds =>
    match take UDP_BUF d with
    | [] => []
    | d => (if ok : bool then [(d, (-1)%Z)] else []) ++ spec_datagrams ds
    end
  end.

Definition spec_event (e : event) (a : spec_loop) : spec_loop :=
  let '(m, out) := a in
  match e with
  | Accept fds => (foldl (λ m a, if a.2 : bool then <[a.1 := DHeader []]> m else m) m fds, out)
  | Datagrams ds => (m, out ++ spec_datagrams ds)
  | Activity f chunks idle hup =>
    match m !! f with
    | None => (m, out)
    | Some st =>
      let '(st', frames) := decode malloc st (concat chunks) in
      (if (ret_code st' idle <=? 0)%Z || hup then delete f m else <[f := st']> m,
       out ++ ((λ p, (p, f)) <$> frames))
    end
  end.

(** The system's side: [accept] returns descriptors that are not open, reads return data. *)
Definition valid_event (m : gmap Z dstate) (e : event) : Prop :=
  match e with
  | Accept fds => NoDup fds.*1 ∧ Forall (λ a, m !! a.1 = None) fds
  | Datagrams _ => True
  | Activity _ chunks _ _ => Forall nonempty chunks
  end.

Fixpoint valid_run (evs : list event) (a : spec_loop) : Prop :=
  match evs with
  | [] => True
  | e :: evs => valid_event a.1 e ∧ valid_run evs (spec_event e a)
  end.

(** Every open connection is at its decoder's state. *)
Record loop_rep (s : server_loop) (m : gmap Z dstate) : Prop := {
  rep_fds : NoDup (fd <$> g_conns s);
  rep_dom : ∀ f, is_Some (m !! f) ↔ f ∈ fd <$> g_conns s;
  rep_conn : ∀ c st, c ∈ g_conns s → m !! fd c = Some st → conn_at c st ∧ st ≠ DBad }.

(** ** Lemmas *)

Lemma conn_new_at f : conn_at (conn_new f) (DHeader []).
Proof. repeat split. simpl. lia. Qed.

Lemma accept_one_rep s m a :
  loop_rep s m → m !! a.1 = None →
  loop_rep (accept_one s a) (if a.2 then <[a.1 := DHeader []]> m else m).
Proof.
  intros [Hnd Hdom Hc] Ha. destruct a as [f ok]. unfold accept_one. cbn in *.
  destruct ok; [|by split].
  assert (f ∉ fd <$> g_conns s) as Hf by (rewrite <- Hdom, Ha; by intros []).
  split; cbn [g_conns]; rewrite ?fmap_app; change (fd <$> [conn_new f]) with [f].
  - apply NoDup_app. split; [done|]. split; [|apply NoDup_singleton].
    by intros x Hx ->%list_elem_of_singleton.
  - intros g. rewrite lookup_insert_is_Some', elem_of_app, Hdom, list_elem_of_singleton. cbn.
    naive_solver.
  - intros c st [Hin| ->%list_elem_of_singleton]%elem_of_app; cbn.
    + rewrite lookup_insert_ne; [by apply Hc|]. intros E. apply Hf.
      rewrite E. by apply list_elem_of_fmap_2.
    + rewrite lookup_insert_eq. intros [= <-]. split; [apply conn_new_at|done].
Qed.

Lemma accept_rep s m fds :
  loop_rep s m → NoDup fds.*1 → Forall (λ a, m !! a.1 = None) fds →
  loop_rep (foldl accept_one s fds)
    (foldl (λ m a, if a.2 : bool then <[a.1 := DHeader []]> m else m) m fds) ∧
  requests (foldl accept_one s fds) = requests s.
Proof.
  revert s m. induction fds as [|[f ok] fds IH]; intros s m Hs Hnd Hm; [done|].
  cbn [foldl fmap list_fmap fst] in *. apply NoDup_cons in Hnd as [Hf Hnd].
  apply Forall_cons in Hm as [Hfm Hm].
  destruct (IH (accept_one s (f, ok)) (if ok then <[f := DHeader []]> m else m)) as [H1 H2].
  - by apply (accept_one_rep s m (f, ok)).
  - done.
  - apply Forall_forall. intros [g b] Hg. pose proof (proj1 (Forall_forall _ _) Hm _ Hg) as Hgm.
    cbn in *. destruct ok; [|done]. rewrite lookup_insert_ne; [done|]. intros ->.
    apply Hf. by apply (list_elem_of_fmap_2 fst _ (g, b)).
  - split; [exact H1|]. rewrite H2. unfold accept_one. by destruct ok.
Qed.

Lemma datagrams_spec ds s :
  g_conns (recv_datagrams ds s) = g_conns s ∧
  requests (recv_datagrams ds s) = requests s ++ spec_datagrams ds.
Proof.
  revert s. induction ds as [|[d ok] ds IH]; intros s; cbn [recv_datagrams spec_datagrams].
  - by rewrite app_nil_r.
  - assert (length (take UDP_BUF d) ≤ UDP_BUF) as Hl by (rewrite length_take; lia).
    assert (Z.of_nat UDP_BUF = 2048)%Z as Eu by reflexivity.
    destruct (take UDP_BUF d) as [|b d'] eqn:E; cbn [length Nat.eqb].
    + by rewrite app_nil_r.
    + change VTS_MAX_FRAME with (2 ^ 20)%Z.
      destruct (Z.ltb_spec (2 ^ 20) (Z.of_nat (S (length d')))); [simpl in Hl; lia|].
      destruct (IH (if ok then push (b :: d') (-1) s else s)) as [-> ->].
      destruct ok; cbn; split; try done. by rewrite <- app_assoc.
Qed.

(** The connection that [TAILQ_FOREACH] finds, and what replaces or removes it. *)
Lemma find_conn_spec s m f :
  loop_rep s m →
  match find_conn f (g_conns s) with
  | None => m !! f = None
  | Some (i, c) => g_conns s !! i = Some c ∧ fd c = f ∧ ∃ st, m !! f = Some st ∧ conn_at c st ∧ st ≠ DBad
  end.
Proof.
  intros [Hnd Hdom Hc]. unfold find_conn. destruct (list_find _ _) as [[i c]|] eqn:E.
  - apply list_find_Some in E as (Hi & Hf & _). split; [done|]. split; [done|].
    assert (c ∈ g_conns s) as Hin by by eapply list_elem_of_lookup_2.
    destruct (proj2 (Hdom f)) as [st Hst].
    { subst f. by apply list_elem_of_fmap_2. }
    exists st. split; [done|]. apply Hc; [done|]. by rewrite Hf.
  - apply list_find_None in E. destruct (m !! f) eqn:Em; [|done]. exfalso.
    assert (f ∈ fd <$> g_conns s) as (c & -> & Hin)%list_elem_of_fmap by (apply Hdom; eauto).
    rewrite Forall_forall in E. by apply (E c Hin).
Qed.

Lemma loop_rep_update s m i c c' st out cl :
  loop_rep s m → g_conns s !! i = Some c → fd c' = fd c → conn_at c' st → st ≠ DBad →
  loop_rep (mk_loop (<[i := c']> (g_conns s)) out cl) (<[fd c := st]> m).
Proof.
  intros [Hnd Hdom Hc] Hi Hfd Hat Hst.
  assert (fd <$> <[i := c']> (g_conns s) = fd <$> g_conns s) as E.
  { rewrite list_fmap_insert. apply list_insert_id. rewrite list_lookup_fmap, Hi. cbn. by rewrite Hfd. }
  split; cbn [g_conns]; rewrite ?E; [done|..].
  - intros f. rewrite lookup_insert_is_Some', Hdom. split; [|by right].
    intros [<-|?]; [|done]. apply list_elem_of_fmap_2. by eapply list_elem_of_lookup_2.
  - intros x st' [j Hj]%list_elem_of_lookup Hx.
    destruct (decide (i = j)) as [<-|Hne].
    + rewrite list_lookup_insert_eq in Hj by by eapply lookup_lt_Some. injection Hj as <-.
      rewrite Hfd, lookup_insert_eq in Hx. by injection Hx as <-.
    + rewrite list_lookup_insert_ne in Hj by done.
      assert (fd x ≠ fd c) as Hxc.
      { intros Heq. apply Hne. eapply (NoDup_lookup (fd <$> g_conns s) _ _ (fd c)); [done|..];
          rewrite list_lookup_fmap, ?Hi, ?Hj; cbn; by rewrite ?Heq. }
      rewrite lookup_insert_ne in Hx by done. apply Hc; [|done]. by eapply list_elem_of_lookup_2.
Qed.

Lemma loop_rep_delete s m i c out cl :
  loop_rep s m → g_conns s !! i = Some c →
  loop_rep (mk_loop (delete i (g_conns s)) out cl) (delete (fd c) m).
Proof.
  intros [Hnd Hdom Hc] Hi.
  assert (fd <$> g_conns s ≡ₚ fd c :: (fd <$> delete i (g_conns s))) as E.
  { rewrite <- fmap_cons. f_equiv. by apply delete_Permutation. }
  assert (NoDup (fd c :: (fd <$> delete i (g_conns s)))) as Hnd' by by rewrite <- E.
  apply NoDup_cons in Hnd' as [Hni Hnd']. split; cbn [g_conns]; [done|..].
  - intros f. rewrite lookup_delete_is_Some, Hdom, E, elem_of_cons.
    split; [naive_solver|]. intros Hf. split; [|by right]. intros <-. done.
  - intros x st Hx [_ Hxm]%lookup_delete_Some. apply Hc; [|done].
    eapply elem_of_submseteq; [exact Hx|]. apply submseteq_delete.
Qed.

Lemma handle_event_spec e s m :
  loop_rep s m → valid_event m e →
  ∃ s', handle_event e s = Some s' ∧
    let a := spec_event e (m, requests s) in loop_rep s' a.1 ∧ requests s' = a.2.
Proof.
  intros Hs Hv. destruct e as [fds|ds|f chunks idle hup]; cbn [handle_event spec_event valid_event] in *.
  - destruct Hv as [Hnd Hm]. destruct (accept_rep s m fds Hs Hnd Hm) as [H1 H2].
    eexists. split; [done|]. by split.
  - destruct (datagrams_spec ds s) as [H1 H2]. eexists. split; [done|]. split; [|exact H2].
    destruct Hs as [Hnd Hdom Hc]. split; by rewrite ?H1.
  - pose proof (find_conn_spec s m f Hs) as Hf. destruct (find_conn f (g_conns s)) as [[i c]|].
    2:{ rewrite Hf. eexists. split; [done|]. by split. }
    destruct Hf as (Hi & <- & st & Hst & Hat & Hbad). rewrite Hst.
    pose proof (read_from_conn_spec malloc (read_fuel chunks) st (mk_net c chunks idle (requests s))
      Hat Hbad Hv) as H.
    apply wp_done in H as (r & n & E & Hr & Hn & Hfd & Hq); [|unfold read_fuel; cbn; lia].
    rewrite E. cbn [NetConn.chunks cn NetConn.idle queued] in *.
    destruct (decode malloc st (concat chunks)) as [st' frames]. cbn [fst snd] in *. rewrite <- Hr.
    destruct ((r <=? 0)%Z || hup) eqn:Er; eexists; (split; [done|]); split; cbn [fst snd requests]; try done.
    + by apply loop_rep_delete.
    + apply loop_rep_update; try done. intros ->. cbn in Hr. subst r. done.
Qed.
End server.

Definition spec_run (malloc : Z → bool) (evs : list event) (a : spec_loop) : spec_loop :=
  foldl (λ a e, spec_event malloc e a) a evs.

Lemma run_spec malloc evs s m :
  loop_rep s m → valid_run malloc evs (m, requests s) →
  ∃ s', run_server_loop malloc evs s = Some s' ∧
    loop_rep s' (spec_run malloc evs (m, requests s)).1 ∧
    requests s' = (spec_run malloc evs (m, requests s)).2.
Proof.
  revert s m. induction evs as [|e evs IH]; intros s m Hs Hv; cbn [run_server_loop spec_run foldl].
  - by exists s.
  - destruct Hv as [He Hv]. destruct (handle_event_spec malloc e s m Hs He) as (s1 & E & Hs1 & Hr1).
    rewrite E. cbn [mbind option_bind].
    replace (spec_event malloc e (m, requests s)) with ((spec_event malloc e (m, requests s)).1, requests s1)
      in * by (rewrite Hr1; by destruct (spec_event _ _ _)).
    destruct (IH s1 _ Hs1 Hv) as (s2 & E2 & Hs2 & Hr2). by exists s2.
Qed.

(** Requests are within the protocol's bounds. *)
Lemma spec_event_small malloc e (a : spec_loop) :
  map_Forall (λ _ st, small_state st) a.1 → Forall (λ q, sendable q.1) a.2 →
  map_Forall (λ _ st, small_state st) (spec_event malloc e a).1 ∧
  Forall (λ q, sendable q.1) (spec_event malloc e a).2.
Proof.
  destruct a as [m out]. cbn [fst snd]. intros Hm Ho. destruct e as [fds|ds|f chunks idle hup]; cbn [spec_event].
  - split; [|done]. cbn [fst]. revert m Hm. induction fds as [|[f ok] fds IH]; intros m Hm; [done|].
    cbn [foldl]. apply IH. destruct ok; [|done]. apply map_Forall_insert_2; [cbn; lia|done].
  - split; [done|]. apply Forall_app. split; [done|]. clear. induction ds as [|[d ok] ds IH]; [done|].
    cbn [spec_datagrams]. assert (length (take UDP_BUF d) ≤ UDP_BUF) as Hl by (rewrite length_take; lia).
    assert (Z.of_nat UDP_BUF = 2048)%Z as Eu by reflexivity.
    destruct (take UDP_BUF d) as [|b d'] eqn:E; [done|]. apply Forall_app. split; [|done].
    destruct ok; [|done]. apply Forall_singleton. unfold sendable. cbn [fst].
    change VTS_MAX_FRAME with (2 ^ 20)%Z. simpl length in *. lia.
  - destruct (m !! f) as [st|] eqn:Em; [|done].
    pose proof (decode_small malloc st (concat chunks) (Hm f st Em)) as [H1 H2].
    destruct (decode malloc st (concat chunks)) as [st' frames]. cbn [fst snd] in *. split.
    + destruct (_ || _); [by apply map_Forall_delete|by apply map_Forall_insert_2].
    + apply Forall_app. split; [done|]. apply Forall_fmap. done.
Qed.

(** ** One descriptor's view *)

(** What the events mean for descriptor [f] alone: its decoder while it is open, and its
    requests. *)
Definition one_event (malloc : Z → bool) (f : Z) (e : event) (a : option dstate * list bytes) :
    option dstate * list bytes :=
  let '(st, out) := a in
  match e with
  | Accept fds =>
    (foldl (λ st a, if a.2 : bool then if decide (a.1 = f) then Some (DHeader []) else st else st) st fds, out)
  | Datagrams _ => a
  | Activity g chunks idle hup =>
    if decide (g = f) then
      match st with
      | None => a
      | Some st =>
        let '(st', frames) := decode malloc st (concat chunks) in
        (if (ret_code st' idle <=? 0)%Z || hup then None else Some st', out ++ frames)
      end
    else a
  end.

Definition requests_of (f : Z) (out : list (bytes * Z)) : list bytes :=
  fst <$> filter (λ q, q.2 = f) out.

Lemma requests_of_app f l k : requests_of f (l ++ k) = requests_of f l ++ requests_of f k.
Proof. unfold requests_of. by rewrite filter_app, fmap_app. Qed.

Lemma requests_of_tagged f g (ps : list bytes) :
  requests_of f ((λ p, (p, g)) <$> ps) = if decide (g = f) then ps else [].
Proof.
  unfold requests_of. induction ps as [|p ps IH]; cbn [fmap list_fmap]; [by destruct (decide _)|].
  rewrite filter_cons. cbn [snd]. destruct (decide (g = f)); [|done]. cbn. by f_equal.
Qed.

Lemma one_event_spec malloc f e (a : spec_loop) :
  f ≠ (-1)%Z →
  ((spec_event malloc e a).1 !! f, requests_of f (spec_event malloc e a).2) =
  one_event malloc f e (a.1 !! f, requests_of f a.2).
Proof.
  intros Hf. destruct a as [m out]. cbn [fst snd]. destruct e as [fds|ds|g chunks idle hup]; cbn [spec_event one_event].
  - cbn [fst snd]. f_equal. revert m. induction fds as [|[g ok] fds IH]; intros m; [done|]. cbn [foldl fst snd].
    rewrite IH. f_equal. destruct ok; [|done]. destruct (decide (g = f)) as [->|Hne].
    + by rewrite lookup_insert_eq.
    + by rewrite lookup_insert_ne.
  - cbn [fst snd]. f_equal. rewrite requests_of_app. clear m.
    assert (requests_of f (spec_datagrams ds) = []) as ->; [|by rewrite app_nil_r].
    induction ds as [|[d ok] ds IH]; [done|]. cbn [spec_datagrams].
    destruct (take UDP_BUF d); [done|]. rewrite requests_of_app, IH, app_nil_r.
    destruct ok; [|done]. unfold requests_of. rewrite filter_cons. cbn [snd].
    destruct (decide _); [congruence|done].
  - destruct (decide (g = f)) as [->|Hne].
    + destruct (m !! f) as [st|] eqn:Em; [|cbn [fst snd]; by rewrite Em].
      destruct (decode malloc st (concat chunks)) as [st' frames]. cbn [fst snd].
      rewrite requests_of_app, requests_of_tagged, decide_True by done. f_equal.
      destruct (_ || _); [by rewrite lookup_delete_eq|by rewrite lookup_insert_eq].
    + destruct (m !! g) as [st|] eqn:Em; [|done].
      destruct (decode malloc st (concat chunks)) as [st' frames]. cbn [fst snd].
      rewrite requests_of_app, requests_of_tagged, decide_False, app_nil_r by done. f_equal.
      destruct (_ || _); [by rewrite lookup_delete_ne|by rewrite lookup_insert_ne].
Qed.

Lemma spec_run_small malloc evs (a : spec_loop) :
  map_Forall (λ _ st, small_state st) a.1 → Forall (λ q, sendable q.1) a.2 →
  Forall (λ q, sendable q.1) (spec_run malloc evs a).2.
Proof.
  revert a. induction evs as [|e evs IH]; intros a H1 H2; [done|]. cbn [spec_run foldl].
  destruct (spec_event_small malloc e a H1 H2). by apply IH.
Qed.

Lemma one_run_spec malloc f evs (a : spec_loop) :
  f ≠ (-1)%Z →
  ((spec_run malloc evs a).1 !! f, requests_of f (spec_run malloc evs a).2) =
  foldl (λ a e, one_event malloc f e a) (a.1 !! f, requests_of f a.2) evs.
Proof.
  intros Hf. revert a. induction evs as [|e evs IH]; intros a; [done|]. cbn [spec_run foldl].
  rewrite <- one_event_spec by done. apply IH.
Qed.

Lemma loop_rep_init : loop_rep loop_init ∅.
Proof.
  split; cbn; [constructor|..].
  - intros f. rewrite lookup_empty. split; [by intros []|by intros ?%not_elem_of_nil].
  - intros c st H. by apply not_elem_of_nil in H.
Qed.

(** ** Properties *)

(** C3: the event loop. Whatever the order of accepts, datagrams and activity, for any reads
    and allocation failures, the loop stays within its buffers, keeps one connection per open
    descriptor at its decoder's state, and queues the contract's requests: the frames of each
    connection, in order, tagged with its descriptor, and each datagram cut to 2048 bytes,
    tagged -1; every request has 1 to 2^20 bytes; and no connection sees bytes of another,
    what is queued for a descriptor being determined by its own events. *)
Theorem server_refines (malloc : Z → bool) (evs : list event) :
  valid_run malloc evs (∅, []) →
  ∃ s, run_server_loop malloc evs loop_init = Some s ∧
    let a := spec_run malloc evs (∅, []) in
    loop_rep s a.1 ∧ requests s = a.2 ∧ Forall (λ q, sendable q.1) (requests s) ∧
    ∀ f, f ≠ (-1)%Z →
      requests_of f (requests s) = (foldl (λ a e, one_event malloc f e a) (None, []) evs).2.
Proof.
  intros Hv. destruct (run_spec malloc evs loop_init ∅ loop_rep_init Hv) as (s & E & Hs & Hr).
  exists s. split; [done|]. cbv zeta. split; [done|]. split; [done|]. rewrite Hr.
  change (requests loop_init) with (@nil (bytes * Z)). split.
  - apply spec_run_small; [apply map_Forall_empty|constructor].
  - intros f Hf. pose proof (one_run_spec malloc f evs (∅, []) Hf) as H.
    cbn [fst snd] in H. rewrite lookup_empty in H. change (requests_of f []) with (@nil bytes) in H.
    by rewrite <- H.
Qed.

Lemma server_refines_witness :
  let f1 := encode_frame (lit "one") in
  let f2 := encode_frame (lit "two") in
  ∃ s, run_server_loop (λ _, true)
    [Accept [(5, true); (6, true)]%Z; Activity 5 [take 3 f1] (Some EAGAIN) false;
     Activity 6 [f2] (Some EAGAIN) false; Datagrams [(lit "udp", true)];
     Activity 5 [drop 3 f1] None false] loop_init = Some s ∧
    requests s = [(lit "two", 6%Z); (lit "udp", (-1)%Z); (lit "one", 5%Z)].
Proof.
  intros f1 f2.
  destruct (server_refines (λ _, true)
    [Accept [(5, true); (6, true)]%Z; Activity 5 [take 3 f1] (Some EAGAIN) false;
     Activity 6 [f2] (Some EAGAIN) false; Datagrams [(lit "udp", true)];
     Activity 5 [drop 3 f1] None false]) as (s & E & _ & Hr & _).
  - cbn [valid_run valid_event]. split_and!; try done.
    + by repeat constructor; set_solver.
    + by repeat constructor.
    + by repeat constructor.
    + by repeat constructor.
    + by repeat constructor.
  - exists s. split; [exact E|]. etransitivity; [exact Hr|]. vm_compute. reflexivity.
Defined.

(** Replies after a descriptor has been reused. A queued request names its client by the
    descriptor only. If the client disconnects before a worker gets to the request, and the
    system gives the descriptor to the next client, the loop holds a new connection under
    the number that the request still carries, and the worker's reply is sent there. *)
Theorem reply_reaches_new_client (f : Z) (p : bytes) :
  sendable p →
  ∃ s body lg a srv,
    run_server_loop (λ _, true)
      [Accept [(f, true)]; Activity f [encode_frame p] None true; Accept [(f, true)]] loop_init = Some s ∧
    closed s = [f] ∧ g_conns s = [conn_new f] ∧ requests s = [(p, f)] ∧
    spec_answer (cstr (p ++ [NUL])) (∅, []) = (body, lg, a) ∧
    process_one (p ++ [NUL]) f server_init = Done (tt, srv) ∧ sent srv = frame f body.
Proof.
  intros Hp. pose proof (process_one_spec (p ++ [NUL]) f server_init (∅, []) srv_rep_init) as H.
  destruct (spec_answer (cstr (p ++ [NUL])) (∅, [])) as [[body lg] a].
  destruct H as (srv & Ep & _ & Hsent & _).
  pose proof (read_from_conn_spec (λ _, true) (read_fuel [encode_frame p]) (DHeader [])
    (mk_net (conn_new f) [encode_frame p] None []) (conn_new_at f)) as H.
  apply wp_done in H as (r & n & E & Hr & _ & _ & Hq);
    [|done|by repeat constructor|unfold read_fuel; cbn [NetConn.chunks]; lia].
  cbn [NetConn.chunks concat] in *. 
  rewrite decode_frame in Hq, Hr by done.
  eexists _, body, lg, a, srv. split; [|split; [|split; [|split; [|split; [done|split; [done|]]]]]].
  - cbn [run_server_loop handle_event foldl accept_one loop_init g_conns app fst snd mbind option_bind].
    unfold find_conn. cbn [list_find fd conn_new]. rewrite decide_True by done. cbn [requests].
    change (requests loop_init) with (@nil (bytes * Z)). rewrite E, orb_true_r. done.
  - done.
  - done.
  - cbn. rewrite Hq. done.
  - by rewrite Hsent.
Qed.

Lemma reply_reaches_new_client_witness :
  ∃ s, run_server_loop (λ _, true)
      [Accept [(5%Z, true)]; Activity 5 [encode_frame (lit "hi")] None true; Accept [(5%Z, true)]]
      loop_init = Some s ∧ g_conns s = [conn_new 5] ∧ requests s = [(lit "hi", 5%Z)].
Proof.
  destruct (reply_reaches_new_client 5 (lit "hi")) as (s & _ & _ & _ & _ & E & _ & E1 & E2 & _).
  - by split.
  - exists s. split; [exact E|]. split; [exact E1|exact E2].
Defined.
