(* ===== verification/NetSetup.v ===== *)
(** * NetSetup: sockets, the wait loop and the clean-up of userspace/vts/src/net_server.c

    [run_server_loop] creates its sockets and its epoll instance, waits for events, which
    NetServer.v handles, and cleans up when waiting fails; [start_vts_networking] starts the
    workers and reads the ports.  The state is the list of the system calls made; what the
    system answers is an argument of the definitions. *)
From stdpp Require Import prelude strings list gmap.
From Stdlib Require Import Ascii ZArith Lia.
From S2P Require Import Prelude CString ReqQueue Protocol NetConn ReqHandler Workers NetServer.

Definition DEFAULT_TCP_PORT : Z := 9000.
Definition DEFAULT_UDP_PORT : Z := 9001.
Definition BACKLOG : Z := 128.
Definition SOCK_STREAM : Z := 1.
Definition SOCK_DGRAM : Z := 2.
Definition SO_REUSEADDR : Z := 2.
Definition SO_REUSEPORT : Z := 15.
Definition O_NONBLOCK : Z := 2048.
Definition EPOLLIN : Z := 1.

(** The calls with an effect outside the process, and the descriptors that calls return. *)
Inductive call :=
  | Open (fd : Z)
  | Close (fd : Z)
  | Setsockopt (fd opt : Z)
  | Bind (fd sin_port : Z)
  | SetFl (fd flags : Z)
  | Listen (fd backlog : Z)
  | EpollAdd (efd fd events : Z)
  | Perror (msg : bytes).

#[export] Instance call_eq_dec : EqDecision call.
Proof. solve_decision. Defined.

Definition emit (c : call) : mon (list call) unit := modify (λ t, t ++ [c]).

(** A call that returns a descriptor or a negative number. *)
Definition new_fd (r : Z) : mon (list call) Z :=
  if (r <? 0)%Z then mret r else emit (Open r);; mret r.

Definition htons (p : Z) : Z := (p mod 256 * 256 + p / 256)%Z.

Section setup.
Context (sys_socket : Z → Z) (sys_bind : Z → Z → Z) (sys_getfl : Z → Z) (sys_setfl : Z → Z → Z)
  (sys_listen : Z → Z → Z) (sys_epoll_create1 : Z).

Definition make_nonblocking (fd : Z) : mon (list call) Z :=
  let flags := sys_getfl fd in
  if (flags =? -1)%Z then mret (-1)%Z
  else
    let flags := Z.lor flags O_NONBLOCK in
    emit (SetFl fd flags);; mret (sys_setfl fd flags).

(** [socket], the two options, [bind]: the code has it once for each transport. *)
Definition create_and_bind (type port : Z) : mon (list call) Z :=
  sfd ← new_fd (sys_socket type);
  if (sfd <? 0)%Z then mret (-1)%Z
  else
    emit (Setsockopt sfd SO_REUSEADDR);;
    emit (Setsockopt sfd SO_REUSEPORT);;
    let sin_port := htons (u16 port) in
    emit (Bind sfd sin_port);;
    if (sys_bind sfd sin_port <? 0)%Z then emit (Close sfd);; mret (-1)%Z
    else mret sfd.

Definition tcp_create_and_bind : Z → mon (list call) Z := create_and_bind SOCK_STREAM.
Definition udp_create_and_bind : Z → mon (list call) Z := create_and_bind SOCK_DGRAM.

(** The optional datagram socket: its descriptor, or -1. *)
Definition udp_setup (udp_port : Z) : mon (list call) Z :=
  if (0 <? udp_port)%Z then
    ufd ← udp_create_and_bind udp_port;
    if (ufd <? 0)%Z then emit (Perror (lit "bind(udp)"));; mret ufd
    else
      r ← make_nonblocking ufd;
      if (r <? 0)%Z then
        emit (Perror (lit "nonblock(udp)"));; emit (Close ufd);; mret (-1)%Z
      else mret ufd
  else mret (-1)%Z.

(** [run_server_loop] up to its loop: [sfd], [ufd] and [efd], or [None] for the result -1. *)
Definition net_setup (tcp_port udp_port : Z) : mon (list call) (option (Z * Z * Z)) :=
  sfd ← tcp_create_and_bind tcp_port;
  if (sfd <? 0)%Z then emit (Perror (lit "bind(tcp)"));; mret None
  else
    r ← make_nonblocking sfd;
    if (r <? 0)%Z then emit (Perror (lit "nonblock(tcp)"));; emit (Close sfd);; mret None
    else
      emit (Listen sfd BACKLOG);;
      if (sys_listen sfd BACKLOG <? 0)%Z then
        emit (Perror (lit "listen"));; emit (Close sfd);; mret None
      else
        ufd ← udp_setup udp_port;
        efd ← new_fd sys_epoll_create1;
        if (efd <? 0)%Z then
          emit (Perror (lit "epoll_create1"));; emit (Close sfd);;
          (if (0 <=? ufd)%Z then emit (Close ufd) else mret tt);; mret None
        else
          emit (EpollAdd efd sfd EPOLLIN);;
          (if (0 <=? ufd)%Z then emit (EpollAdd efd ufd EPOLLIN) else mret tt);;
          mret (Some (sfd, ufd, efd)).
End setup.

(** ** The wait loop *)

(** What one [epoll_wait] answers. *)
Inductive wait := Ready (es : list event) | Interrupted | Failed.

Section loop.
Context (malloc : Z → bool).

(** The descriptors that [accept] has returned go with the loop's state. *)
Definition accepted (e : event) : list Z := match e with Accept fds => fds.*1 | _ => [] end.

(** Without a datagram socket nothing is received from one. *)
Definition handle_ready (ufd : Z) (e : event) (s : list Z * server_loop) :
    option (list Z * server_loop) :=
  match e with
  | Datagrams _ =>
    if (0 <=? ufd)%Z then l ← handle_event malloc e s.2; Some (s.1, l) else Some s
  | _ => l ← handle_event malloc e s.2; Some (s.1 ++ accepted e, l)
  end.

Fixpoint handle_all (ufd : Z) (es : list event) (s : list Z * server_loop) :
    option (list Z * server_loop) :=
  match es with
  | [] => Some s
  | e :: es => s ← handle_ready ufd e s; handle_all ufd es s
  end.

(** The state when the answers end or waiting fails, and whether it has failed. *)
Fixpoint epoll_loop (ufd : Z) (ws : list wait) (s : list Z * server_loop) :
    option (bool * (list Z * server_loop)) :=
  match ws with
  | [] => Some (false, s)
  | Ready es :: ws => s ← handle_all ufd es s; epoll_loop ufd ws s
  | Interrupted :: ws => epoll_loop ufd ws s
  | Failed :: _ => Some (true, s)
  end.
End loop.

(** The clean-up of [g_conns]: the first connection is removed and freed until none is left. *)
Fixpoint free_conns (cs : list conn) (s : server_loop) : server_loop :=
  match cs with
  | [] => s
  | c :: cs => free_conns cs (mk_loop cs (requests s) (closed s ++ [fd c]))
  end.

Definition udp_fd (ufd : Z) : list Z := if (0 <=? ufd)%Z then [ufd] else [].

Section server.
Context (sys_socket : Z → Z) (sys_bind : Z → Z → Z) (sys_getfl : Z → Z) (sys_setfl : Z → Z → Z)
  (sys_listen : Z → Z → Z) (sys_epoll_create1 : Z) (malloc : Z → bool).

Record net_run := mk_run {
  returned : option Z;      (* [None] while the loop goes on *)
  calls : list call;
  accepts : list Z;
  final : server_loop }.

Definition run_server (tcp_port udp_port : Z) (ws : list wait) : option net_run :=
  match net_setup sys_socket sys_bind sys_getfl sys_setfl sys_listen sys_epoll_create1
          tcp_port udp_port [] with
  | Done (None, t) => Some (mk_run (Some (-1)%Z) t [] loop_init)
  | Done (Some (sfd, ufd, efd), t) =>
    '(failed, (acc, s)) ← epoll_loop malloc ufd ws ([], loop_init);
    if failed : bool then
      Some (mk_run (Some 0%Z)
        (t ++ [Perror (lit "epoll_wait")] ++ (Close <$> ([efd; sfd] ++ udp_fd ufd)))
        acc (free_conns (g_conns s) s))
    else Some (mk_run None t acc s)
  | _ => None
  end.

Definition port_of (v : option bytes) (default : Z) : Z :=
  match v with Some (c :: s) => atoi (c :: s) | _ => default end.

(** The workers' pool goes with the server's run. *)
Definition start_vts_networking (vts_port vts_udp_port : option bytes) (ws : list wait) :
    option (pool * net_run) :=
  let '(rc, p) := req_handler_start in
  if negb (rc =? 0)%Z then Some (p, mk_run (Some (-1)%Z) [] [] loop_init)
  else
    n ← run_server (port_of vts_port DEFAULT_TCP_PORT) (port_of vts_udp_port DEFAULT_UDP_PORT) ws;
    Some (p, n).

(** main.c's thread: the line that it writes to stderr, and the server's run. *)
Definition net_thread (vts_port vts_udp_port : option bytes) (ws : list wait) :
    bytes * option (pool * net_run) :=
  (lit "[vts] networking: starting TCP server on 0.0.0.0:9000" ++ [LF],
   start_vts_networking vts_port vts_udp_port ws).
End server.

Definition opened (t : list call) : list Z :=
  omap (λ c, match c with Open f => Some f | _ => None end) t.
Definition closed_in (t : list call) : list Z :=
  omap (λ c, match c with Close f => Some f | _ => None end) t.
Definition watched (t : list call) : list (Z * Z) :=
  omap (λ c, match c with EpollAdd _ f ev => Some (f, ev) | _ => None end) t.

(** The events that [epoll_wait] delivers before it fails. *)
Fixpoint delivered (ws : list wait) : list event :=
  match ws with
  | Ready es :: ws => es ++ delivered ws
  | Interrupted :: ws => delivered ws
  | Failed :: _ | [] => []
  end.

(** ** Lemmas *)

Lemma wp_emit c t (Q : unit → list call → Prop) : Q tt (t ++ [c]) → wp (emit c) t Q.
Proof. done. Qed.

Lemma wp_new_fd r t (Q : Z → list call → Prop) :
  ((r < 0)%Z → Q r t) → ((0 ≤ r)%Z → Q r (t ++ [Open r])) → wp (new_fd r) t Q.
Proof. intros H1 H2. unfold new_fd. destruct (Z.ltb_spec r 0); [by apply H1|by apply H2]. Qed.

(** A list of calls that keeps the descriptors in [keep] open and watches [w]. *)
Definition balanced (u : list call) (keep : list Z) (w : list (Z * Z)) : Prop :=
  opened u ≡ₚ closed_in u ++ keep ∧ watched u = w.

Lemma balanced_app u1 u2 k1 k2 w1 w2 :
  balanced u1 k1 w1 → balanced u2 k2 w2 → balanced (u1 ++ u2) (k1 ++ k2) (w1 ++ w2).
Proof.
  intros [H1 E1] [H2 E2]. unfold balanced, opened, closed_in, watched in *.
  rewrite !omap_app, H1, H2, E1, E2. split; [|done].
  rewrite <- !app_assoc. f_equiv. rewrite !app_assoc. f_equiv. apply Permutation_app_comm.
Qed.

Lemma balanced_app_nil u1 u2 k w :
  balanced u1 k w → balanced u2 [] [] → balanced (u1 ++ u2) k w.
Proof. intros H1 H2. pose proof (balanced_app _ _ _ _ _ _ H1 H2) as H. by rewrite !app_nil_r in H. Qed.

Lemma balanced_close u f k w : balanced u (f :: k) w → balanced (u ++ [Close f]) k w.
Proof.
  intros [H E]. unfold balanced, opened, closed_in, watched in *. rewrite !omap_app. cbn.
  rewrite !app_nil_r, H, E. split; [|done]. by rewrite <- app_assoc.
Qed.

Section setup_lemmas.
Context (sys_socket : Z → Z) (sys_bind : Z → Z → Z) (sys_getfl : Z → Z) (sys_setfl : Z → Z → Z)
  (sys_listen : Z → Z → Z) (sys_epoll_create1 : Z).

Definition nonblock_rc (fd : Z) : Z :=
  if (sys_getfl fd =? -1)%Z then (-1)%Z else sys_setfl fd (Z.lor (sys_getfl fd) O_NONBLOCK).

Lemma create_and_bind_spec type port t :
  wp (create_and_bind sys_socket sys_bind type port) t (λ f t', ∃ u, t' = t ++ u ∧
    balanced u (udp_fd f) [] ∧
    if (f <? 0)%Z then
      (sys_socket type < 0)%Z ∨ (sys_bind (sys_socket type) (htons (u16 port)) < 0)%Z
    else Bind f (htons (u16 port)) ∈ u ∧ f = sys_socket type).
Proof.
  unfold create_and_bind. wp_step. apply wp_new_fd; intros Hr.
  - rewrite (proj2 (Z.ltb_lt _ _) Hr). wp_step. exists []. rewrite app_nil_r. cbn. split_and!; auto.
    by split.
  - rewrite (proj2 (Z.ltb_ge _ _) Hr). do 2 (wp_step; apply wp_emit). wp_step. apply wp_emit.
    destruct (Z.ltb_spec (sys_bind (sys_socket type) (htons (u16 port))) 0).
    + wp_step. apply wp_emit. wp_step. eexists. rewrite <- !app_assoc. split; [done|].
      split; [by split|]. by right.
    + wp_step. eexists. rewrite <- !app_assoc. split; [done|]. unfold udp_fd.
      rewrite (proj2 (Z.leb_le _ _) Hr), (proj2 (Z.ltb_ge _ _) Hr). split; [by split|].
      split; [set_solver|done].
Qed.

Lemma make_nonblocking_spec fd t :
  wp (make_nonblocking sys_getfl sys_setfl fd) t (λ r t', ∃ u, t' = t ++ u ∧ balanced u [] [] ∧
    r = nonblock_rc fd).
Proof.
  unfold make_nonblocking, nonblock_rc. cbv zeta. wp_step.
  - wp_step. exists []. rewrite app_nil_r. by repeat split.
  - wp_step. apply wp_emit. wp_step. eexists. split; [done|]. by split.
Qed.

Lemma udp_setup_spec port t :
  wp (udp_setup sys_socket sys_bind sys_getfl sys_setfl port) t (λ ufd t', ∃ u, t' = t ++ u ∧
    balanced u (udp_fd ufd) [] ∧
    ((0 ≤ ufd)%Z → (0 < port)%Z ∧ Bind ufd (htons (u16 port)) ∈ u)).
Proof.
  unfold udp_setup. destruct (Z.ltb_spec 0 port).
  2:{ wp_step. exists []. rewrite app_nil_r. by repeat split. }
  wp_step. eapply wp_mono; [apply create_and_bind_spec|]. intros ufd t1 (u1 & -> & Hb1 & Hf).
  cbv beta. destruct (Z.ltb_spec ufd 0).
  { wp_step. apply wp_emit. wp_step. eexists. rewrite <- app_assoc. split; [done|].
    split; [|lia]. eapply balanced_app_nil; [done|by split]. }
  wp_step. eapply wp_mono; [apply make_nonblocking_spec|]. intros r t2 (u2 & -> & Hb2 & ->).
  cbv beta. destruct (Z.ltb_spec (nonblock_rc ufd) 0).
  - wp_step. apply wp_emit. wp_step. apply wp_emit. wp_step. eexists. rewrite <- !app_assoc.
    split; [done|]. split; [|lia]. rewrite !app_assoc. apply balanced_close.
    eapply balanced_app_nil; [|by split].
    eapply balanced_app_nil; [|done]. unfold udp_fd in Hb1.
    by rewrite (proj2 (Z.leb_le _ _)) in Hb1 by done.
  - wp_step. eexists. rewrite <- app_assoc. split; [done|].
    split; [by eapply balanced_app_nil|]. intros _. split; [done|]. set_solver.
Qed.

(** What makes the set-up fail: the calls for the TCP socket, or [epoll_create1]. *)
Definition setup_fails (tcp_port : Z) : Prop :=
  let sfd := sys_socket SOCK_STREAM in
  (sfd < 0)%Z ∨ (sys_bind sfd (htons (u16 tcp_port)) < 0)%Z ∨ (nonblock_rc sfd < 0)%Z
  ∨ (sys_listen sfd BACKLOG < 0)%Z ∨ (sys_epoll_create1 < 0)%Z.

Definition watch (f : Z) : Z * Z := (f, EPOLLIN).

Definition setup_post (tcp_port udp_port : Z) (r : option (Z * Z * Z)) (t : list call) : Prop :=
  match r with
  | None => balanced t [] [] ∧ setup_fails tcp_port
  | Some (sfd, ufd, efd) =>
    balanced t ([sfd] ++ udp_fd ufd ++ [efd]) (watch <$> [sfd] ++ udp_fd ufd)
    ∧ sfd = sys_socket SOCK_STREAM
    ∧ Bind sfd (htons (u16 tcp_port)) ∈ t ∧ Listen sfd BACKLOG ∈ t
    ∧ ((0 ≤ ufd)%Z → (0 < udp_port)%Z ∧ Bind ufd (htons (u16 udp_port)) ∈ t)
  end.

(** From the listening socket on: the part with the datagram socket and epoll. *)
Lemma epoll_setup_spec tcp_port udp_port sfd t :
  balanced t [sfd] [] → sfd = sys_socket SOCK_STREAM →
  Bind sfd (htons (u16 tcp_port)) ∈ t → Listen sfd BACKLOG ∈ t →
  wp (ufd ← udp_setup sys_socket sys_bind sys_getfl sys_setfl udp_port;
      efd ← new_fd sys_epoll_create1;
      if (efd <? 0)%Z then
        emit (Perror (lit "epoll_create1"));; emit (Close sfd);;
        (if (0 <=? ufd)%Z then emit (Close ufd) else mret tt);; mret None
      else
        emit (EpollAdd efd sfd EPOLLIN);;
        (if (0 <=? ufd)%Z then emit (EpollAdd efd ufd EPOLLIN) else mret tt);;
        mret (Some (sfd, ufd, efd))) t (setup_post tcp_port udp_port).
Proof.
  intros Ht Hs Hbind Hlisten. wp_step. eapply wp_mono; [apply udp_setup_spec|].
  intros ufd t1 (u & -> & Hu & Hudp). cbv beta. wp_step.
  pose proof (balanced_app _ _ _ _ _ _ Ht Hu) as Hb. cbn [app] in Hb.
  apply wp_new_fd; intros He; [rewrite (proj2 (Z.ltb_lt _ _) He)|rewrite (proj2 (Z.ltb_ge _ _) He)].
  - wp_step. apply wp_emit. wp_step. apply wp_emit. wp_step.
    assert (setup_fails tcp_port) as Hf by (unfold setup_fails; tauto).
    assert (balanced (((t ++ u) ++ [Perror (lit "epoll_create1")]) ++ [Close sfd]) (udp_fd ufd) []) as H
      by (apply balanced_close; eapply balanced_app_nil; [done|by split]).
    unfold udp_fd in H. destruct (0 <=? ufd)%Z.
    + apply wp_emit. wp_step. split; [|done]. by apply balanced_close.
    + by do 2 wp_step.
  - wp_step. apply wp_emit. wp_step.
    assert (balanced [Open sys_epoll_create1; EpollAdd sys_epoll_create1 sfd EPOLLIN]
      [sys_epoll_create1] [watch sfd]) as H by (by split).
    pose proof (balanced_app _ _ _ _ _ _ Hb H) as H1. unfold setup_post, udp_fd in *.
    destruct (0 <=? ufd)%Z eqn:Eu.
    + apply wp_emit. wp_step. rewrite <- !app_assoc, Eu. split_and!; [|done|set_solver..|].
      * rewrite !app_assoc in *. pose proof (balanced_app _ [EpollAdd sys_epoll_create1 ufd EPOLLIN]
          _ [] _ [watch ufd] H1) as H2. rewrite <- !app_assoc in *. rewrite app_nil_r in H2.
        apply H2. by split.
      * intros [? ?]%Hudp. split; [done|]. set_solver.
    + do 2 wp_step. rewrite <- !app_assoc, Eu. split_and!; [by rewrite <- !app_assoc in H1|done|set_solver..|].
      intros [? ?]%Hudp. split; [done|]. set_solver.
Qed.

Lemma net_setup_spec tcp_port udp_port :
  wp (net_setup sys_socket sys_bind sys_getfl sys_setfl sys_listen sys_epoll_create1
        tcp_port udp_port) [] (setup_post tcp_port udp_port).
Proof.
  unfold net_setup. wp_step. eapply wp_mono; [apply create_and_bind_spec|].
  intros sfd t (u & -> & Hu & Hs). cbv beta in *. cbn [app].
  unfold udp_fd in Hu. destruct (Z.ltb_spec sfd 0).
  { rewrite (proj2 (Z.leb_gt _ _)) in Hu by done. wp_step. apply wp_emit. wp_step. split.
    - eapply balanced_app_nil; [done|by split].
    - unfold setup_fails. tauto. }
  rewrite (proj2 (Z.leb_le _ _)) in Hu by done. destruct Hs as [Hbind ->].
  wp_step. eapply wp_mono; [apply make_nonblocking_spec|]. intros r t (u2 & -> & Hu2 & ->).
  cbv beta. pose proof (balanced_app_nil _ _ _ _ Hu Hu2) as Hb.
  destruct (Z.ltb_spec (nonblock_rc (sys_socket SOCK_STREAM)) 0).
  { do 2 (wp_step; apply wp_emit). wp_step. split; [|unfold setup_fails; tauto].
    apply balanced_close. eapply balanced_app_nil; [done|by split]. }
  wp_step. apply wp_emit.
  assert (balanced ((u ++ u2) ++ [Listen (sys_socket SOCK_STREAM) BACKLOG])
    [sys_socket SOCK_STREAM] []) as Hb2 by (eapply balanced_app_nil; [done|by split]).
  destruct (Z.ltb_spec (sys_listen (sys_socket SOCK_STREAM) BACKLOG) 0).
  { do 2 (wp_step; apply wp_emit). wp_step. split; [|unfold setup_fails; tauto].
    apply balanced_close. eapply balanced_app_nil; [done|by split]. }
  apply epoll_setup_spec; [done|done|set_solver|set_solver].
Qed.
End setup_lemmas.

(** ** The descriptors of the connections *)

(** What has been closed and what a connection holds are what has been accepted. *)
Definition fds_balanced (a : list Z * server_loop) : Prop :=
  closed a.2 ++ (fd <$> g_conns a.2) ≡ₚ a.1.

Lemma foldl_accept_fds fds s :
  closed (foldl accept_one s fds) ++ (fd <$> g_conns (foldl accept_one s fds))
  ≡ₚ (closed s ++ (fd <$> g_conns s)) ++ fds.*1.
Proof.
  revert s. induction fds as [|[f ok] fds IH]; intros s; cbn [foldl fmap list_fmap];
    [by rewrite app_nil_r|]. rewrite IH. unfold accept_one. cbn [fst snd].
  destruct ok; cbn [closed g_conns].
  - rewrite fmap_app. cbn. rewrite <- !app_assoc. done.
  - rewrite <- !app_assoc. f_equiv. cbn. by rewrite Permutation_middle.
Qed.

Lemma recv_datagrams_conns ds s :
  closed (recv_datagrams ds s) = closed s ∧ g_conns (recv_datagrams ds s) = g_conns s.
Proof.
  revert s. induction ds as [|[d ok] ds IH]; intros s; cbn [recv_datagrams]; [done|].
  destruct (_ =? 0); [done|]. destruct (_ <? _)%Z; [apply IH|].
  destruct (IH (if ok then push (take UDP_BUF d) (-1) s else s)) as [-> ->]. by destruct ok.
Qed.

Section loop_lemmas.
Context (malloc : Z → bool).

Lemma handle_event_fds e s m s' :
  loop_rep s m → valid_event m e → handle_event malloc e s = Some s' →
  closed s' ++ (fd <$> g_conns s') ≡ₚ (closed s ++ (fd <$> g_conns s)) ++ accepted e.
Proof.
  intros Hs Hv E. destruct e as [fds|ds|f chunks idle hup]; cbn [handle_event accepted] in *.
  - injection E as <-. apply foldl_accept_fds.
  - injection E as <-. destruct (recv_datagrams_conns ds s) as [-> ->]. by rewrite app_nil_r.
  - pose proof (find_conn_spec s m f Hs) as Hf. rewrite app_nil_r.
    destruct (find_conn f (g_conns s)) as [[i c]|]; [|by injection E as <-].
    destruct Hf as (Hi & <- & st & Hst & Hat & Hbad).
    pose proof (read_from_conn_spec malloc (read_fuel chunks) st (mk_net c chunks idle (requests s))
      Hat Hbad Hv) as H.
    apply wp_done in H as (r & n & E1 & _ & _ & Hfd & _); [|unfold read_fuel; cbn; lia].
    rewrite E1 in E. destruct ((r <=? 0)%Z || hup); injection E as <-; cbn [closed g_conns].
    + rewrite <- app_assoc. f_equiv. cbn. rewrite <- fmap_cons.
      f_equiv. symmetry. by apply delete_Permutation.
    + f_equiv. rewrite list_fmap_insert, list_insert_id; [done|].
      rewrite list_lookup_fmap, Hi. cbn in *. by rewrite Hfd.
Qed.

(** Validity looks at the open descriptors only. *)
Lemma valid_run_requests evs m out out' :
  valid_run malloc evs (m, out) → valid_run malloc evs (m, out').
Proof.
  revert m out out'. induction evs as [|e evs IH]; intros m out out'; cbn [valid_run fst]; [done|].
  intros [He Hv]. split; [done|].
  destruct e as [fds|ds|f chunks idle hup]; cbn [spec_event] in *; [by eapply IH..|].
  destruct (m !! f) as [st|]; [|by eapply IH].
  destruct (decode malloc st (concat chunks)) as [st' frames]. by eapply IH.
Qed.

Lemma handle_ready_spec ufd e evs s m out :
  loop_rep s.2 m → fds_balanced s → valid_run malloc (e :: evs) (m, out) →
  ∃ s' m' out', handle_ready malloc ufd e s = Some s' ∧ loop_rep s'.2 m' ∧ fds_balanced s'
    ∧ valid_run malloc evs (m', out').
Proof.
  intros Hs Hb [He Hv]. cbn [fst] in He.
  destruct (handle_event_spec malloc e s.2 m Hs He) as (l & E & Hl & _).
  pose proof (handle_event_fds e s.2 m l Hs He E) as Hf. unfold fds_balanced in *.
  rewrite Hb in Hf.
  assert (valid_run malloc evs ((spec_event malloc e (m, requests s.2)).1, out)) as Hv'.
  { clear -Hv. destruct e as [fds|ds|f chunks idle hup]; cbn [spec_event fst] in *;
      [by eapply valid_run_requests..|].
    destruct (m !! f) as [st|]; [|exact Hv].
    destruct (decode malloc st (concat chunks)) as [st' frames]. by eapply valid_run_requests. }
  clear Hv. destruct e as [fds|ds|f chunks idle hup]; cbn [handle_ready].
  - rewrite E. exists (s.1 ++ fds.*1, l). by eexists _, _.
  - destruct (0 <=? ufd)%Z.
    + rewrite E. exists (s.1, l). eexists _, _. split; [done|]. split; [exact Hl|].
      split; [cbn; by rewrite Hf; cbn; rewrite app_nil_r|exact Hv'].
    + exists s. eexists _, _. split; [done|]. split; [exact Hs|]. split; [exact Hb|exact Hv'].
  - rewrite E. exists (s.1 ++ [], l). by eexists _, _.
Qed.

Lemma handle_all_spec ufd es evs s m out :
  loop_rep s.2 m → fds_balanced s → valid_run malloc (es ++ evs) (m, out) →
  ∃ s' m' out', handle_all malloc ufd es s = Some s' ∧ loop_rep s'.2 m' ∧ fds_balanced s'
    ∧ valid_run malloc evs (m', out').
Proof.
  revert s m out. induction es as [|e es IH]; intros s m out Hs Hb Hv; cbn [handle_all].
  - by exists s, m, out.
  - destruct (handle_ready_spec ufd e (es ++ evs) s m out Hs Hb Hv)
      as (s1 & m1 & out1 & E & Hs1 & Hb1 & Hv1). rewrite E. by eapply IH.
Qed.

Lemma epoll_loop_spec ufd ws s m out :
  loop_rep s.2 m → fds_balanced s → valid_run malloc (delivered ws) (m, out) →
  ∃ s' m', epoll_loop malloc ufd ws s = Some (existsb (λ w, match w with Failed => true | _ => false end) ws, s')
    ∧ loop_rep s'.2 m' ∧ fds_balanced s'.
Proof.
  revert s m out. induction ws as [|[es| |] ws IH]; intros s m out Hs Hb Hv; cbn [epoll_loop delivered existsb].
  - by exists s, m.
  - destruct (handle_all_spec ufd es (delivered ws) s m out Hs Hb Hv)
      as (s1 & m1 & out1 & E & Hs1 & Hb1 & Hv1). rewrite E. by eapply IH.
  - by eapply IH.
  - by exists s, m.
Qed.

Lemma free_conns_spec s :
  g_conns (free_conns (g_conns s) s) = []
  ∧ closed (free_conns (g_conns s) s) = closed s ++ (fd <$> g_conns s)
  ∧ requests (free_conns (g_conns s) s) = requests s.
Proof.
  destruct s as [cs out cl]. cbn [g_conns requests closed].
  revert cl. induction cs as [|c cs IH]; intros cl; cbn [free_conns].
  - by rewrite app_nil_r.
  - destruct (IH (cl ++ [fd c])) as (H1 & H2 & H3). cbn [requests closed] in *.
    rewrite H1, H2, H3. by rewrite <- app_assoc.
Qed.
End loop_lemmas.

Lemma opened_app t u : opened (t ++ u) = opened t ++ opened u.
Proof. apply omap_app. Qed.
Lemma closed_in_app t u : closed_in (t ++ u) = closed_in t ++ closed_in u.
Proof. apply omap_app. Qed.

Lemma closes_only l : opened (Close <$> l) = [] ∧ closed_in (Close <$> l) = l.
Proof.
  unfold opened, closed_in. induction l as [|f l [IH1 IH2]]; cbn; [done|]. by rewrite IH1, IH2.
Qed.

Lemma order_closed (a e : Z) (u l : list Z) : ([a] ++ u ++ [e]) ++ l ≡ₚ [e; a] ++ u ++ l.
Proof. rewrite <- !app_assoc. cbn. rewrite <- Permutation_middle. apply perm_swap. Qed.

Lemma order_open (a e : Z) (u c l : list Z) : [a] ++ u ++ [e] ++ c ++ l ≡ₚ c ++ [a; e] ++ u ++ l.
Proof.
  cbn. rewrite <- !Permutation_middle. do 2 f_equiv. rewrite !app_assoc. f_equiv.
  apply Permutation_app_comm.
Qed.

Lemma fds_balanced_init : fds_balanced ([], loop_init).
Proof. unfold fds_balanced; reflexivity. Qed.

Lemma started_run sock bnd getfl setfl lst ep malloc vts_port vts_udp_port ws p n :
  start_vts_networking sock bnd getfl setfl lst ep malloc vts_port vts_udp_port ws = Some (p, n) →
  run_server sock bnd getfl setfl lst ep malloc (port_of vts_port DEFAULT_TCP_PORT)
    (port_of vts_udp_port DEFAULT_UDP_PORT) ws = Some n.
Proof.
  unfold start_vts_networking, req_handler_start. cbn [Z.eqb negb].
  destruct (run_server _ _ _ _ _ _ _ _ _ _) as [x|]; [|done]. by intros [= _ ->].
Qed.

(** ** Properties *)

(** C13: The server keeps account of its descriptors. Whatever the calls of the set-up answer, in
    whatever way the events go and wherever [epoll_wait] fails: the server returns only when
    its set-up or [epoll_wait] has failed, and has then closed every descriptor that a
    [socket], [accept] or [epoll_create1] returned, each once; while it serves, the open ones are its
    sockets, the epoll instance and one per connection. The listening socket is bound to the
    port of the environment modulo 2^16, and a failure of the datagram socket stops nothing. *)
Theorem no_descriptor_leaks (sock : Z → Z) (bnd : Z → Z → Z) (getfl : Z → Z) (setfl lst : Z → Z → Z)
    (ep : Z) (malloc : Z → bool) (vts_port vts_udp_port : option bytes) (ws : list wait) :
  valid_run malloc (delivered ws) (∅, []) →
  let port := port_of vts_port DEFAULT_TCP_PORT in
  ∃ n, start_vts_networking sock bnd getfl setfl lst ep malloc vts_port vts_udp_port ws
         = Some (pool_init WORKER_COUNT, n) ∧
    match returned n with
    | Some rc =>
      opened (calls n) ++ accepts n ≡ₚ closed_in (calls n) ++ closed (final n)
      ∧ g_conns (final n) = []
      ∧ (rc = (-1)%Z ∧ setup_fails sock bnd getfl setfl lst ep port ∨ rc = 0%Z ∧ Failed ∈ ws)
    | None => ∃ sfd ufd efd,
      opened (calls n) ++ accepts n
        ≡ₚ closed_in (calls n) ++ closed (final n) ++ [sfd; efd] ++ udp_fd ufd ++ (fd <$> g_conns (final n))
      ∧ watched (calls n) = watch <$> [sfd] ++ udp_fd ufd
      ∧ Bind sfd (htons (u16 port)) ∈ calls n ∧ Listen sfd BACKLOG ∈ calls n
    end.
Proof.
  intros Hv port. unfold start_vts_networking, req_handler_start. cbn [Z.eqb negb]. unfold run_server.
  pose proof (net_setup_spec sock bnd getfl setfl lst ep port
    (port_of vts_udp_port DEFAULT_UDP_PORT)) as H.
  apply wp_done in H as (r & t & E & H). fold port. rewrite E. destruct r as [[[sfd ufd] efd]|].
  2:{ destruct H as [[Ho _] Hf]. eexists. split; [done|]. cbn [returned calls accepts final].
      rewrite Ho, !app_nil_r. split; [done|]. split; [done|]. by left. }
  destruct H as ([Ho Hw] & _ & Hb & Hl & _).
  destruct (epoll_loop_spec malloc ufd ws ([], loop_init) ∅ [] loop_rep_init fds_balanced_init Hv)
    as ([acc s] & m & Es & _ & Hbal). rewrite Es. unfold fds_balanced in Hbal. cbn [fst snd] in Hbal.
  cbn [mbind option_bind]. destruct (existsb _ ws) eqn:Ef; eexists; (split; [done|]);
    cbn [returned calls accepts final].
  - destruct (free_conns_spec s) as (H1 & H2 & _). split; [|split; [done|right; split; [done|]]].
    + rewrite !opened_app, !closed_in_app, H2, Hbal, Ho.
      destruct (closes_only ([efd; sfd] ++ udp_fd ufd)) as [-> ->].
      change (opened [Perror (lit "epoll_wait")]) with (@nil Z).
      change (closed_in [Perror (lit "epoll_wait")]) with (@nil Z). cbn [app].
      rewrite app_nil_r, <- !app_assoc. f_equiv. apply order_closed.
    + apply existsb_exists in Ef as (w & Hin & Hw'). destruct w; [done..|]. by apply list_elem_of_In.
  - exists sfd, ufd, efd. split; [|done]. rewrite Ho, <- Hbal, <- !app_assoc. f_equiv.
    apply order_open.
Qed.

Lemma no_descriptor_leaks_witness :
  let sock type := (type + 2)%Z in
  ∃ n, start_vts_networking sock (λ _ _, 0%Z) (λ _, 2%Z) (λ _ _, 0%Z) (λ _ _, 0%Z) 5%Z (λ _, true)
      (Some (lit "65616")) None
      [Ready [Accept [(7%Z, true)]]; Interrupted;
       Ready [Activity 7 [encode_frame (lit "hi")] (Some EAGAIN) false]; Failed]
      = Some (pool_init WORKER_COUNT, n)
    ∧ returned n = Some 0%Z ∧ requests (final n) = [(lit "hi", 7%Z)]
    ∧ opened (calls n) ++ accepts n ≡ₚ closed_in (calls n) ++ closed (final n)
    ∧ Bind 3 (htons 80) ∈ calls n.
Proof.
  intros sock.
  destruct (no_descriptor_leaks sock (λ _ _, 0%Z) (λ _, 2%Z) (λ _ _, 0%Z) (λ _ _, 0%Z) 5%Z
    (λ _, true) (Some (lit "65616")) None
    [Ready [Accept [(7%Z, true)]]; Interrupted;
     Ready [Activity 7 [encode_frame (lit "hi")] (Some EAGAIN) false]; Failed]) as (n & E & H).
  { cbn [delivered app valid_run valid_event]. split_and!; try done; try (by apply NoDup_singleton);
      by repeat constructor. }
  exists n. split; [exact E|].
  assert (returned n = Some 0%Z ∧ requests (final n) = [(lit "hi", 7%Z)]
          ∧ Bind 3 (htons 80) ∈ calls n) as (Hr & Hq & Hb).
  { apply started_run in E. rename E into Ex.
    clear H. vm_compute in Ex. injection Ex as <-. split; [reflexivity|]. split; [reflexivity|].
    by_evaluation. }
  rewrite Hr in H. destruct H as (H & _). split; [exact Hr|]. split; [exact Hq|].
  split; [exact H|exact Hb].
Defined.

(** The line that announces port 9000 does not depend on the port. *)
Lemma announced_port_is_fixed :
  let '(line, run) := net_thread (λ t, (t + 2)%Z) (λ _ _, 0%Z) (λ _, 2%Z) (λ _ _, 0%Z) (λ _ _, 0%Z) 5%Z
    (λ _, true) (Some (lit "8080")) None [] in
  strstr line (lit ":9000") ≠ None
  ∧ ∃ cs, (λ r, calls r.2) <$> run = Some cs ∧ Bind 3 (htons 8080) ∈ cs ∧ Bind 3 (htons 9000) ∉ cs.
Proof.
  split; [vm_compute; congruence|]. eexists. split; [vm_compute; reflexivity|].
  split; by_evaluation.
Qed.
