(* ===== verification/Server.v ===== *)
(** * Server: the network thread and the workers of userspace/vts as one system

    net_server.c and req_handler.c together.  The network thread handles its events one after
    the other (NetServer.v) and calls [req_queue_push] for each frame and each datagram; the
    workers take the requests from the queue (Workers.v).  A turn of the network thread is one
    call of [req_queue_push] or, when those of the last event are made, the rest of the handling
    of the next event, which touches what belongs to this thread only.  A turn of a worker is
    one of its steps.  The turns of all the threads interleave freely. *)
From stdpp Require Import prelude strings list gmap fin_sets.
From Stdlib Require Import Ascii ZArith Lia.
From S2P Require Import Prelude Interleave CString DropOldest Rooms Dedup ReqQueue Protocol NetConn ReqHandler Workers WorkersReplies WorkersLive NetServer.

(** [todo]: the events that are still to come; [pushed]: how many of the loop's requests have
    reached the queue. *)
Record system := mk_sys { todo : list event; loop : server_loop; pushed : nat; pl : pool }.

Inductive turn := Net | Worker (i : nat).

Section system.
Context (malloc : Z → bool).

Definition on_pool {A} (op : mon pool A) : mon system A := λ s,
  match op (pl s) with
  | Done (a, p) => Done (a, mk_sys (todo s) (loop s) (pushed s) p)
  | Undef => Undef
  | NoFuel => NoFuel
  end.

Definition set_pushed (n : nat) (s : system) : system := mk_sys (todo s) (loop s) n (pl s).

(** With no event to come the network thread waits. *)
Definition net_turn : mon system (option (bytes * cli_reply)) :=
  s ← gets (λ s, s);
  match requests (loop s) !! pushed s with
  | Some (d, fd) =>
    e ← on_pool (pool_step (Workers.Push d fd));
    modify (set_pushed (S (pushed s)));; mret e
  | None =>
    match todo s with
    | [] => mret None
    | ev :: evs =>
      l ← lift (handle_event malloc ev (loop s));
      modify (λ s, mk_sys evs l (pushed s) (pl s));; mret None
    end
  end.

Definition sys_step (t : turn) : mon system (option (bytes * cli_reply)) :=
  match t with
  | Net => net_turn
  | Worker i => on_pool (pool_step (Work i))
  end.

Definition sys_run : list turn → mon system (list (bytes * cli_reply)) := run_steps sys_step.

Definition sys_init (n : nat) (evs : list event) : system := mk_sys evs loop_init 0 (pool_init n).

(** A turn for every thread, [k] times. *)
Definition sys_round (n : nat) : list turn := Net :: (Worker <$> seq 0 n).
Definition sys_rounds (k n : nat) : list turn := concat (replicate k (sys_round n)).

(** ** Invariant *)

Section inv.
Context (n : nat) (evs : list event).

(** The requests of all the events. *)
Definition all_requests : list request := (spec_run malloc evs (∅, [])).2.

(** The events handled [past] have their contract, the pool has taken the requests pushed, and
    accounts for them. *)
Record sys_at (es : list (bytes * cli_reply)) (s : system) (ws : list work) (past : list event) :
    Prop := {
  at_events : evs = past ++ todo s;
  at_valid : valid_run malloc (todo s) (spec_run malloc past (∅, []));
  at_loop : loop_rep (loop s) (spec_run malloc past (∅, [])).1;
  at_requests : requests (loop s) = (spec_run malloc past (∅, [])).2;
  at_pushed : pushed s ≤ length (requests (loop s));
  at_workers : length (workers (pl s)) = n;
  at_pool : pool_inv (pl s) ws;
  at_serial : serial es.*1 ∅ = (es.*2, set_of (pl s));
  at_account : accounted (take (pushed s) (requests (loop s))) es (pl s) ws }.

(** The turns that the system still needs. *)
Definition turns_left (s : system) (ws : list work) : nat :=
  8 * (length all_requests - pushed s) + length (todo s) + work_left (pl s) ws.

Definition waits (t : turn) (s : system) (ws : list work) : Prop :=
  match t with
  | Net => todo s = [] ∧ pushed s = length (requests (loop s))
  | Worker i => stuck i (pl s) ws
  end.
End inv.
End system.

(** ** Lemmas *)

Lemma wp_on_pool {A} (op : mon pool A) s (Q : A → system → Prop) :
  wp op (pl s) (λ a p, Q a (mk_sys (todo s) (loop s) (pushed s) p)) → wp (on_pool op) s Q.
Proof. unfold wp, on_pool. by destruct (op (pl s)) as [[a p]| |]. Qed.

(** An event adds requests behind those that are there. *)
Lemma spec_event_grows malloc e (a : spec_loop) : ∃ out, (spec_event malloc e a).2 = a.2 ++ out.
Proof.
  destruct a as [m l]. destruct e as [fds|ds|f chunks idle hup]; cbn [spec_event].
  - exists []. by rewrite app_nil_r.
  - by eexists.
  - destruct (m !! f); [|exists []; by rewrite app_nil_r].
    destruct (decode _ _ _). by eexists.
Qed.

Lemma spec_run_grows malloc evs (a : spec_loop) : ∃ out, (spec_run malloc evs a).2 = a.2 ++ out.
Proof.
  revert a. induction evs as [|e evs IH]; intros a; [exists []; by rewrite app_nil_r|].
  cbn [spec_run foldl]. destruct (IH (spec_event malloc e a)) as [o2 H2].
  destruct (spec_event_grows malloc e a) as [o1 H1]. exists (o1 ++ o2).
  unfold spec_run in H2. by rewrite H2, H1, app_assoc.
Qed.

Lemma spec_run_app malloc evs1 evs2 a :
  spec_run malloc (evs1 ++ evs2) a = spec_run malloc evs2 (spec_run malloc evs1 a).
Proof. apply foldl_app. Qed.

Section lemmas.
Context (malloc : Z → bool) (n : nat) (evs : list event).

Abbreviation sys_at := (sys_at malloc n evs).
Abbreviation left := (turns_left malloc evs).

(** No more requests are pushed than the events hold. *)
Lemma at_bound es s ws past :
  sys_at es s ws past → length (requests (loop s)) ≤ length (all_requests malloc evs).
Proof.
  intros H. unfold all_requests. rewrite (at_events _ _ _ _ _ _ _ H), spec_run_app.
  destruct (spec_run_grows malloc (todo s) (spec_run malloc past (∅, []))) as [out ->].
  rewrite (at_requests _ _ _ _ _ _ _ H), length_app. lia.
Qed.

(** A step of the pool, for the account and the measure. *)
Lemma pool_turn l P E s ws :
  pool_inv s ws → accounted P E s ws → serial E.*1 ∅ = (E.*2, set_of s) →
  wp (pool_step l) s (λ e s', ∃ ws', pool_inv s' ws' ∧ length (workers s') = length (workers s)
    ∧ serial (E ++ option_list e).*1 ∅ = ((E ++ option_list e).*2, set_of s')
    ∧ accounted (P ++ requested [l]) (E ++ option_list e) s' ws'
    ∧ match l with
      | Workers.Push _ _ => work_left s' ws' ≤ work_left s ws + 7
      | Work i => work_left s' ws' < work_left s ws ∨ s' = s ∧ ws' = ws ∧ stuck i s ws
      end).
Proof.
  intros Hs Ha Hes.
  assert (wp (pool_step l) s (λ _ s', ∃ ws', pool_inv s' ws' ∧ length (workers s') = length (workers s)
    ∧ match l with
      | Workers.Push _ _ => work_left s' ws' ≤ work_left s ws + 7
      | Work i => work_left s' ws' < work_left s ws ∨ s' = s ∧ ws' = ws ∧ stuck i s ws
      end)) as Hm.
  { destruct l as [d fd|i]; [by apply push_live|].
    eapply wp_mono; [by apply work_step_live|]. intros e s' (ws' & ? & ? & _ & ?). by exists ws'. }
  eapply wp_mono; [exact (wp_and _ _ _ _ Hm (pool_step_just P E l s ws Hs Ha))|].
  intros e s' [(ws' & Hs' & Hn & Hw) (He & ws2 & Hs2 & Ha2)].
  rewrite (is_queue_fun _ _ _ _ _ (proj1 Hs2) (proj1 Hs')) in Ha2. exists ws'.
  split; [done|]. split; [done|]. split; [|by split].
  rewrite !fmap_app, serial_app, Hes. cbn [fst snd]. unfold effect in He.
  destruct e as [[t rep]|]; cbn; [by rewrite He|]. by rewrite !app_nil_r, He.
Qed.

Definition known (es : list (bytes * cli_reply)) (s : system) : Prop :=
  ∃ ws past, sys_at es s ws past.

(** One turn keeps the invariant, and brings the system forward unless the thread waits. *)
Lemma sys_turn_spec t es s ws past :
  sys_at es s ws past →
  wp (sys_step malloc t) s (λ e s', ∃ ws' past', sys_at (es ++ option_list e) s' ws' past'
    ∧ (left s' ws' < left s ws ∨ s' = s ∧ ws' = ws ∧ waits t s ws)).
Proof.
  intros H. pose proof (at_bound _ _ _ _ H) as Hb.
  destruct H as [He Hv Hl Hr Hp Hn Hs Hes Ha]. destruct t as [|i]; cbn [sys_step].
  - unfold net_turn. do 2 wp_step. destruct (requests (loop s) !! pushed s) as [[d fd]|] eqn:Ed.
    + wp_step. apply wp_on_pool. eapply wp_mono; [by apply (pool_turn (Workers.Push d fd))|].
      intros e p (ws' & Hs' & Hn' & Hes' & Ha' & Hm). do 3 wp_step. exists ws', past.
      pose proof (lookup_lt_Some _ _ _ Ed) as Hlt. split.
      * split; cbn [todo loop pushed pl set_pushed]; try done; [congruence|].
        by rewrite (take_S_r _ _ _ Ed).
      * left. unfold turns_left. cbn [todo loop pushed pl set_pushed]. lia.
    + apply lookup_ge_None in Ed. destruct (todo s) as [|ev rest] eqn:Et.
      * wp_step. exists ws, past. rewrite app_nil_r. split; [by split; rewrite ?Et|].
        right. split; [done|]. split; [done|]. split; [done|]. lia.
      * cbn [valid_run] in Hv. destruct Hv as [Hev Hv].
        destruct (handle_event_spec malloc ev (loop s) _ Hl Hev) as (l' & El & Hl' & Hr').
        rewrite El. do 3 wp_step. exists ws, (past ++ [ev]). rewrite app_nil_r.
        assert (spec_run malloc (past ++ [ev]) (∅, [])
          = spec_event malloc ev (spec_run malloc past (∅, []))) as Ep by by rewrite spec_run_app.
        rewrite Hr in Hr', Hl'. rewrite <- surjective_pairing in Hr', Hl'.
        destruct (spec_event_grows malloc ev (spec_run malloc past (∅, []))) as [out Eo].
        assert (requests l' = requests (loop s) ++ out) as Erq by by rewrite Hr', Eo, Hr.
        split.
        -- split; cbn [todo loop pushed pl]; rewrite ?Ep; try done.
           ++ by rewrite <- app_assoc.
           ++ rewrite Erq, length_app. lia.
           ++ by rewrite Erq, take_app_le.
        -- left. unfold turns_left. rewrite Et. cbn [todo loop pushed pl length]. lia.
  - apply wp_on_pool. eapply wp_mono; [by apply (pool_turn (Work i))|].
    intros e p (ws' & Hs' & Hn' & Hes' & Ha' & Hm).
    change (requested [Work i]) with (@nil request) in Ha'. rewrite app_nil_r in Ha'.
    exists ws', past. split; [split; cbn [todo loop pushed pl]; try done; congruence|].
    unfold turns_left. cbn [todo loop pushed pl]. destruct Hm as [Hm|(-> & -> & Hm)]; [left; lia|].
    right. split; [by destruct s|]. by split.
Qed.

Lemma init_at : valid_run malloc evs (∅, []) → sys_at [] (sys_init n evs) [] [].
Proof.
  intros Hv. split; cbn [sys_init todo loop pushed pl requests loop_init spec_run foldl fst snd]; try done.
  - apply loop_rep_init.
  - cbn. by rewrite length_replicate.
  - apply pool_inv_init.
  - apply accounted_init.
Qed.

(** Any schedule. *)
Lemma sys_run_at ts :
  valid_run malloc evs (∅, []) →
  wp (sys_run malloc ts) (sys_init n evs) (λ es s, known es s).
Proof.
  intros Hv. apply (run_steps_inv _ known ts []); [|exists [], []; by apply init_at].
  intros t es s (ws & past & H). eapply wp_mono; [by apply (sys_turn_spec t es s ws past)|].
  intros e s' (ws' & past' & H' & _). by exists ws', past'.
Qed.

(** Enough rounds after any schedule. *)
Lemma sys_rounds_left ts k :
  0 < n → valid_run malloc evs (∅, []) →
  8 * length (all_requests malloc evs) + length evs ≤ k →
  wp (sys_run malloc (ts ++ sys_rounds k n)) (sys_init n evs) (λ _ s, ∃ es ws past,
    sys_at es s ws past ∧ left s ws = 0).
Proof.
  intros Hn Hv Hk.
  pose (I s ws := ∃ es past, sys_at es s ws past).
  assert (∀ t s ws, I s ws → wp (sys_step malloc t) s (λ _ s', ∃ ws', I s' ws' ∧
    (left s' ws' < left s ws ∨ s' = s ∧ ws' = ws ∧ waits t s ws))) as Hstep.
  { intros t s ws (es & past & H). eapply wp_mono; [by apply (sys_turn_spec t es s ws past)|].
    intros e s' (ws' & past' & H' & Hm). exists ws'. split; [by eexists _, _|done]. }
  apply run_steps_app. eapply wp_mono.
  { apply (run_steps_turns _ I left waits Hstep ts _ []). exists [], []. by apply init_at. }
  intros es1 s1 (ws1 & H1 & Hm1).
  assert (left (sys_init n evs) [] ≤ k) as H0.
  { unfold turns_left, work_left. cbn [sys_init todo pushed pl pool_init workers length].
    rewrite idle_no_work by by apply Forall_replicate. lia. }
  eapply wp_mono.
  { apply (run_steps_rounds _ I left waits (sys_round n) Hstep) with (x := ws1); [|done].
    intros s ws (es & past & [He Hv' Hl Hr Hp Hnw Hs _ _]) Hst.
    destruct (Hst Net) as [Ht Hpu]; [by left|]. unfold turns_left. rewrite Ht.
    assert (work_left (pl s) ws = 0) as ->.
    { apply (stuck_no_work n); [done..|]. intros i Hi. apply (Hst (Worker i)).
      right. apply list_elem_of_fmap_2, elem_of_seq. lia. }
    rewrite Ht, app_nil_r in He. unfold all_requests. rewrite He, <- Hr, Hpu. cbn. lia. }
  intros es2 s2 (ws2 & (es & past & H2) & Hm2). exists es, ws2, past. split; [done|].
  destruct Hm1 as [?|(-> & -> & _)]; lia.
Qed.

(** Everything done. *)
Lemma sys_settles k ts :
  let reqs := (spec_run malloc evs (∅, [])).2 in
  0 < n → valid_run malloc evs (∅, []) → 8 * length reqs + length evs ≤ k →
  ∃ es s A D, sys_run malloc (ts ++ sys_rounds k n) (sys_init n evs) = Done (es, s)
    ∧ todo s = [] ∧ loop_rep (loop s) (spec_run malloc evs (∅, [])).1
    ∧ quiet n (pl s) ∧ serial es.*1 ∅ = (es.*2, set_of (pl s))
    ∧ settled reqs es (sent (srv (pl s))) A D.
Proof.
  intros reqs Hn Hv Hk.
  pose proof (wp_and _ _ _ _ (sys_run_at (ts ++ sys_rounds k n) Hv)
    (sys_rounds_left ts k Hn Hv Hk)) as H.
  apply wp_done in H as (es & s & Er & (ws & past & H) & (es' & ws' & past' & H' & Hm)).
  pose proof (at_bound _ _ _ _ H') as Hb. fold reqs in Hb.
  unfold turns_left, all_requests in Hm. fold reqs in Hm.
  destruct H as [He _ Hl Hr Hp Hnw Hs Hes Ha].
  rewrite (is_queue_fun _ _ _ _ _ (proj1 (at_pool _ _ _ _ _ _ _ H')) (proj1 Hs)) in Hm. clear H'.
  assert (todo s = []) as Ht by (apply nil_length_inv; lia).
  rewrite Ht, app_nil_r in He. subst past. fold reqs in Hr.
  rewrite Hr, take_ge in Ha by lia.
  assert (quiet n (pl s)) as Hq by (apply (work_left_quiet _ _ ws); [done..|lia]).
  destruct (quiet_account _ _ n _ _ Hq (proj1 Hs) Ha) as (A & D & HA). exists es, s, A, D.
  split; [exact Er|]. split; [exact Ht|]. split; [exact Hl|]. split; [exact Hq|].
  split; [exact Hes|exact HA].
Qed.

(** The requests of a descriptor are its own. *)
Lemma own_requests f :
  f ≠ (-1)%Z → requests_of f (spec_run malloc evs (∅, [])).2
    = (foldl (λ a e, one_event malloc f e a) (None, []) evs).2.
Proof.
  intros Hf. pose proof (one_run_spec malloc f evs (∅, []) Hf) as H.
  cbn [fst snd] in H. rewrite lookup_empty in H. change (requests_of f []) with (@nil bytes) in H.
  by rewrite <- H.
Qed.
End lemmas.

(** ** Properties *)

(** C2: the server from end to end. For any events - connections, reads cut anywhere, hang-ups,
    datagrams, allocation failures - and any interleaving of the network thread and [n]
    workers, once every thread has had enough turns all events are handled, all workers idle
    and the queue empty; each connection is at its decoder's state; and the requests - the
    frames of each connection and the datagrams - are those answered and those that a full
    queue has dropped, none of them with at most 10240. The writes
    interleave the replies, one for each request answered, to the descriptor that it came from,
    and no others; what is answered on a connection is what its own bytes say; the commands
    are served as if one after the other, each once, and each client gets the decision of its
    own. *)
Theorem server_end_to_end (malloc : Z → bool) (n k : nat) (evs : list event) (ts : list turn) :
  let reqs := (spec_run malloc evs (∅, [])).2 in
  0 < n → valid_run malloc evs (∅, []) → 8 * length reqs + length evs ≤ k →
  ∃ es s A D, sys_run malloc (ts ++ sys_rounds k n) (sys_init n evs) = Done (es, s)
    ∧ todo s = [] ∧ loop_rep (loop s) (spec_run malloc evs (∅, [])).1
    ∧ quiet n (pl s) ∧ serial es.*1 ∅ = (es.*2, set_of (pl s))
    ∧ (∀ f, f ≠ (-1)%Z → requests_of f (A.*1 ++ D)
         ≡ₚ (foldl (λ a e, one_event malloc f e a) (None, []) evs).2)
    ∧ settled reqs es (sent (srv (pl s))) A D.
Proof.
  intros reqs Hn Hv Hk.
  destruct (sys_settles malloc n evs k ts Hn Hv Hk) as (es & s & A & D & Er & Ht & Hl & Hq & Hes & HA).
  exists es, s, A, D. split; [exact Er|]. split; [exact Ht|]. split; [exact Hl|]. split; [exact Hq|].
  split; [exact Hes|]. split; [|exact HA]. intros f Hf. pose proof (own_requests malloc evs f Hf) as H.
  rewrite <- H. unfold requests_of. by rewrite <- (settled_all _ _ _ _ _ HA).
Qed.

Lemma server_end_to_end_witness :
  let f1 := encode_frame (create_text (lit "lab")) in
  let evs := [Accept [(5, true)]; Activity 5 [take 3 f1] (Some EAGAIN) false;
              Datagrams [(legacy_text (lit "GET"), true)];
              Activity 5 [drop 3 f1] (Some EAGAIN) false]%Z in
  ∃ es s A, sys_run (λ _, true) ([Net; Net; Worker 1] ++ sys_rounds 20 2) (sys_init 2 evs) = Done (es, s)
    ∧ todo s = [] ∧ quiet 2 (pl s) ∧ merges (reply_frame <$> A) (sent (srv (pl s)))
    ∧ [(legacy_text (lit "GET"), -1); (create_text (lit "lab"), 5)]%Z ≡ₚ A.*1.
Proof.
  intros f1 evs.
  destruct (server_end_to_end (λ _, true) 2 20 evs [Net; Net; Worker 1])
    as (es & s & A & D & E & Ht & _ & Hq & _ & _ & [HP HD _ _ Hs]).
  - lia.
  - cbn [valid_run valid_event evs]. split_and!; try done.
    + apply NoDup_singleton.
    + by repeat constructor.
    + by repeat constructor.
    + by repeat constructor.
  - apply Nat.leb_le. vm_compute. reflexivity.
  - rewrite HD, app_nil_r in HP.
    + exists es, s, A. split; [exact E|]. split; [exact Ht|]. split; [exact Hq|].
      split; [exact Hs|]. etransitivity; [|exact HP].
      match goal with |- ?a ≡ₚ ?b => replace b with a; [done|] end. vm_compute. reflexivity.
    + etransitivity; [|exact QUEUE_DEPTH_large]. apply Nat.leb_le. vm_compute. reflexivity.
Defined.
