(* ===== verification/EndToEnd.v ===== *)
(** * EndToEnd: a client and the server

    cli/src/system_monitor.c and userspace/vts together: what one run of the client sends is
    what the server reads on one of its connections, among any others, and what the workers
    write there is what the client reads. *)
From stdpp Require Import prelude strings list gmap fin_sets.
From Stdlib Require Import Ascii ZArith Lia.
From S2P Require Import Prelude Interleave CString DropOldest Rooms Dedup ReqQueue Cli Protocol NetConn ReqHandler Workers WorkersReplies WorkersLive NetServer Server.

(** The events of the connection [f]: it is accepted, or has activity. *)
Definition talks (f : Z) (e : event) : Prop :=
  match e with
  | Accept fds => (f, true) ∈ fds
  | Datagrams _ => False
  | Activity g _ _ _ => g = f
  end.

#[export] Instance talks_dec f e : Decision (talks f e).
Proof. destruct e; cbn [talks]; apply _. Defined.

(** A client whose bytes arrive in pieces, and which waits for the reply. *)
Definition client_events (f : Z) (fds : list (Z * bool)) (css : list (list bytes)) : list event :=
  Accept fds :: ((λ cs, Activity f cs (Some EAGAIN) false) <$> css).

(** What is written to [f]. *)
Definition written (f : Z) (l : list (Z * bytes)) : bytes := concat (filter (λ x, x.1 = f) l).*2.

(** An attempt of the client whose calls succeed, and whose reads bring the bytes [b], the
    first four at once. *)
Record carries (a : attempt) (payload b : bytes) : Prop := {
  carries_addr : a_getaddrinfo a = 0%Z;
  carries_socket : (0 ≤ a_socket a)%Z;
  carries_connect : (0 ≤ a_connect a)%Z;
  carries_len : a_write_len a = 4%Z;
  carries_payload : a_write_payload a = Z.of_nat (length payload);
  carries_head : (a_read_len a).1 = 4%Z;
  carries_word : length (a_read_len a).2 = 4;
  carries_data : Forall (λ d, d ≠ []) (a_data a);
  carries_bytes : (a_read_len a).2 ++ concat (a_data a) = b }.

(** What the client sends. *)
Definition sends (evs : list Cli.event) : bytes :=
  concat (omap (λ e, match e with Cli.Send _ b => Some b | _ => None end) evs).

(** ** Lemmas *)

Lemma one_event_other malloc f e a : ¬ talks f e → one_event malloc f e a = a.
Proof.
  destruct a as [st out]. destruct e as [fds|ds|g chunks idle hup]; cbn; intros H.
  - f_equal. revert st H. induction fds as [|[g ok] fds IH]; intros st H; [done|]. cbn [foldl fst snd].
    apply not_elem_of_cons in H as [H1 H2]. rewrite IH by done. destruct ok; [|done].
    by rewrite decide_False by (intros ->; done).
  - done.
  - by rewrite decide_False.
Qed.

Lemma one_run_filter malloc f evs a :
  foldl (λ a e, one_event malloc f e a) a evs
  = foldl (λ a e, one_event malloc f e a) a (filter (talks f) evs).
Proof.
  revert a. induction evs as [|e evs IH]; intros a; [done|]. rewrite filter_cons. cbn [foldl].
  destruct (decide (talks f e)); cbn [foldl]; [apply IH|]. by rewrite one_event_other, IH.
Qed.

Lemma accept_opens malloc f fds out :
  (f, true) ∈ fds → one_event malloc f (Accept fds) (None, out) = (Some (DHeader []), out).
Proof.
  intros H. cbn. f_equal. generalize (@None dstate). revert H.
  induction fds as [|[g ok] fds IH]; intros H st; [by apply not_elem_of_nil in H|]. cbn [foldl fst snd].
  destruct (decide ((f, true) ∈ fds)) as [Hin|Hout]; [by apply IH|].
  apply elem_of_cons in H as [[= <- <-]|H]; [|done]. rewrite decide_True by done. clear IH.
  assert (∀ st, foldl (λ st (a : Z * bool), if a.2 then if decide (a.1 = f) then Some (DHeader []) else st
    else st) st fds = st) as Hid.
  { intros st'. pose proof (one_event_other malloc f (Accept fds) (st', []) Hout) as E. by injection E. }
  apply Hid.
Qed.

(** A decoder that is not lost at the end has not been lost before. *)
Lemma pieces_decoded malloc f css st out :
  (decode malloc st (concat (concat css))).1 ≠ DBad →
  foldl (λ a e, one_event malloc f e a) (Some st, out)
    ((λ cs, Activity f cs (Some EAGAIN) false) <$> css)
  = (Some (decode malloc st (concat (concat css))).1,
     out ++ (decode malloc st (concat (concat css))).2).
Proof.
  revert st out. induction css as [|cs css IH]; intros st out Hb; cbn [concat fmap list_fmap foldl] in *.
  - cbn. by rewrite app_nil_r.
  - rewrite concat_app, decode_app in Hb |- *. cbn [one_event]. rewrite decide_True by done.
    destruct (decode malloc st (concat cs)) as [st1 fr1]. cbn [fst snd] in *.
    assert (st1 ≠ DBad) as H1 by (intros ->; by rewrite decode_bad in Hb).
    rewrite ret_idle by done. change (read_failed EAGAIN) with 1%Z.
    destruct (decode malloc st1 (concat (concat css))) as [st2 fr2] eqn:E2. unfold emit in *.
    cbn [fst snd] in *. specialize (IH st1 (out ++ fr1)). rewrite E2 in IH. cbn [fst snd] in IH.
    change (list_fmap _ _ ?g css) with (g <$> css). 
    replace ((1 <=? 0)%Z || false) with false by done. rewrite IH by done. by rewrite <- app_assoc.
Qed.

(** A session with one frame is one request. *)
Lemma session_request malloc f fds css p evs :
  (∀ z, malloc z = true) → f ≠ (-1)%Z → (f, true) ∈ fds → sendable p →
  filter (talks f) evs = client_events f fds css → concat (concat css) = encode_frame p →
  requests_of f (spec_run malloc evs (∅, [])).2 = [p].
Proof.
  intros Hm Hf Hin Hp Hev Hc. rewrite own_requests, one_run_filter, Hev by done.
  unfold client_events. cbn [foldl]. rewrite accept_opens by done.
  assert (decode malloc (DHeader []) (concat (concat css)) = (DHeader [], [p])) as E.
  { rewrite Hc, <- (app_nil_r (encode_frame p)), decode_frame by done. done. }
  rewrite pieces_decoded; by rewrite E.
Qed.

Lemma one_answer (A : list (request * verdict)) f p :
  requests_of f A.*1 = [p] →
  ∃ A1 a A2, A = A1 ++ ((p, f), a) :: A2 ∧ requests_of f A1.*1 = [] ∧ requests_of f A2.*1 = [].
Proof.
  unfold requests_of. induction A as [|[[q g] a] A IH]; [done|]. cbn [fmap list_fmap fst].
  rewrite filter_cons. cbn [snd]. destruct (decide (g = f)) as [->|Hg]; cbn [fmap list_fmap fst].
  - intros [= -> H]. by exists [], a, A.
  - intros H. destruct (IH H) as (A1 & b & A2 & -> & H1 & H2). exists (((q, g), a) :: A1), b, A2.
    split; [done|]. split; [|done]. cbn [fmap list_fmap fst]. rewrite filter_cons. cbn [snd].
    by rewrite decide_False.
Qed.

Lemma filter_reply f (a : request * verdict) :
  filter (λ x, x.1 = f) (reply_frame a) = if decide (a.1.2 = f) then reply_frame a else [].
Proof. unfold reply_frame. rewrite !filter_cons. cbn [fst]. by destruct (decide _). Qed.

Lemma no_frames (A : list (request * verdict)) f :
  requests_of f A.*1 = [] →
  filter (λ x, x.1 = f) <$> (reply_frame <$> A) = replicate (length A) [].
Proof.
  unfold requests_of. induction A as [|[[q g] a] A IH]; [done|]. cbn [fmap list_fmap fst length replicate].
  rewrite filter_cons, filter_reply. cbn [fst snd]. destruct (decide (g = f)); [done|]. intros H.
  f_equal. exact (IH H).
Qed.

(** The one reply on a descriptor with one request is not interleaved with anything. *)
Lemma only_reply (A : list (request * verdict)) l f p :
  merges (reply_frame <$> A) l → requests_of f A.*1 = [p] →
  ∃ a, ((p, f), a) ∈ A ∧ filter (λ x, x.1 = f) l = reply_frame ((p, f), a).
Proof.
  intros H (A1 & a & A2 & -> & H1 & H2)%one_answer. exists a. split; [set_solver|].
  apply (merges_filter (λ x, x.1 = f)) in H.
  rewrite !fmap_app, !fmap_cons, filter_reply, decide_True, (no_frames A1), (no_frames A2) in H by done.
  rewrite Permutation_app_comm in H. apply merges_empties_inv in H. cbn [app] in H.
  apply (merges_empties_inv [_]), merges_one in H; [cbn [concat] in H; by rewrite app_nil_r in H|].
  rewrite filter_cons. destruct (decide _); cbn; lia.
Qed.

(** The decision of one command in a serial execution. *)
Lemma serial_at es1 t rep es2 Y :
  serial ((es1 ++ (t, rep) :: es2).*1) ∅ = ((es1 ++ (t, rep) :: es2).*2, Y) →
  cli_request set_step t (serial es1.*1 ∅).2 = (rep, (serial (es1.*1 ++ [t]) ∅).2).
Proof.
  rewrite !fmap_app, !fmap_cons, !serial_app. cbn [fst snd serial].
  destruct (cli_request set_step t (serial es1.*1 ∅).2) as [rep' Z] eqn:E. cbn [fst snd].
  destruct (serial es2.*1 Z) as [reps Z']. cbn [fst snd]. intros [= H _].
  assert (∀ ts X, length (serial ts X).1 = length ts) as Hlen.
  { intros ts. induction ts as [|u ts IH]; intros X; [done|]. cbn [serial].
    destruct (cli_request set_step u X) as [r X']. specialize (IH X'). destruct (serial ts X'). cbn in *.
    by rewrite IH. }
  apply app_inj_1 in H as [_ H]; [|by rewrite Hlen, !length_fmap]. injection H as -> _. done.
Qed.

Lemma request_meaning c name X rep X' :
  nul_free name → QUOTE ∉ name → length name ≤ 63 →
  cli_request set_step (request_text c name) X = (rep, X') → meaning c name X = (reply_code rep, X').
Proof.
  intros Hn Hq Hl H. pose proof (cli_step_meaning c name X) as Hm. unfold cli_request in H.
  destruct (request_fields c name Hq) as (E1 & E2 & E3). rewrite E1, E2, E3, take_ge in H by lia.
  by rewrite H in Hm.
Qed.

Lemma request_sendable c name : length name ≤ 63 → sendable (request_text c name).
Proof.
  intros Hl. pose proof (length_request_text c name) as Hp. unfold sendable.
  change VTS_MAX_FRAME with (2 ^ 20)%Z.
  assert (0 < length (request_text c name)) by (unfold request_text; cbn; lia). lia.
Qed.

(** A client's request is answered with its decision. *)
Lemma command_decided P E writes A D c name f a :
  nul_free name → settled P E writes A D → ((request_text c name, f), a) ∈ A →
  ∃ rep, a = Decided rep ∧ (request_text c name, rep) ∈ E.
Proof.
  intros Hnul [_ _ HA HE _] Ha.
  assert (req_text (request_text c name, f) = request_text c name) as Etext
    by by apply cstr_app_nul, nul_free_request_text.
  rewrite Forall_forall in HA. specialize (HA _ Ha). unfold fits in HA. cbn [fst snd] in HA.
  destruct a as [rep|z].
  - exists rep. split; [done|]. rewrite HE. apply list_elem_of_omap.
    exists ((request_text c name, f), Decided rep). split; [done|].
    unfold decision. cbn [fst snd]. by rewrite Etext.
  - destruct HA as [HA _]. exfalso. apply HA. unfold is_command. rewrite Etext. by destruct c.
Qed.

(** The client program when its first attempt goes through. *)
Lemma main_prints c prog name body (e : env) (net : nat → attempt) fuel :
  length name ≤ 463 → length body < 512 → 0 < fuel →
  (0 ≤ from_option atoi 3 (VTS_RETRY_MAX e))%Z →
  carries (net 0) (request_text c name) (length_word body ++ body) →
  ∃ evs, main [prog; word c; lit "room"; name] e net fuel = Done (0%Z, Some (cstr body), evs)
    ∧ sends evs = encode_frame (request_text c name).
Proof.
  intros Hl Hb Hf Hr [H1 H2 H3 H4 H5 H6 H7 H8 H9]. unfold main.
  assert (strcmp_eq (word c) (lit "help") = false) as -> by by destruct c.
  rewrite build_payload_text by done. destruct fuel as [|fuel]; [lia|]. unfold send_req.
  cbn [send_req_loop]. destruct (Z.leb_spec 0 (from_option atoi 3 (VTS_RETRY_MAX e)))%Z; [|lia].
  assert (in_u 32 (Z.of_nat (length body))) as Hu by (unfold in_u; lia).
  pose proof (length_request_text c name) as Hp.
  apply app_inj_1 in H9 as [E1 E2]; [|by rewrite H7].
  unfold length_word, u32 in E1. rewrite wrapu_small in E1 by done.
  rewrite (cli_reads_reply (net 0) (request_text c name) body 1024); try done.
  - eexists. split; [done|]. cbn [sends omap list_omap concat app]. rewrite app_nil_r.
    unfold encode_frame, u32. by rewrite wrapu_small by (unfold in_u; lia).
  - lia.
  - destruct (a_read_len (net 0)) as [n w]. cbn [fst snd] in *. by subst.
Qed.

(** ** Properties *)

(** C1: a command from end to end. For any of the five commands on any valid room name: if the
    bytes of the client's request reach the server on a connection of their own, cut anywhere,
    among any other connections and datagrams, and the network thread and the workers
    interleave in any way, then, when every thread has had enough turns and no more than 10240
    requests have come, the command has been decided once, at a place between the others'
    commands, and did there what it means to do to the set of rooms; exactly its reply is
    written to this connection, length and body, whatever is written to others; and the client
    that reads these bytes, in any pieces, sends the request assumed, prints the reply and
    exits with status 0. *)
Theorem command_end_to_end (malloc : Z → bool) (n k : nat) (evs : list event) (ts : list turn)
    (f : Z) (fds : list (Z * bool)) (css : list (list bytes)) (c : command) (prog name : bytes) :
  let reqs := (spec_run malloc evs (∅, [])).2 in
  let payload := request_text c name in
  (∀ z, malloc z = true) → 0 < n → valid_run malloc evs (∅, []) → length reqs ≤ QUEUE_DEPTH →
  8 * length reqs + length evs ≤ k → nul_free name → QUOTE ∉ name → length name ≤ 63 →
  f ≠ (-1)%Z → (f, true) ∈ fds → filter (talks f) evs = client_events f fds css →
  concat (concat css) = encode_frame payload →
  ∃ es1 rep es2 s, let es := es1 ++ (payload, rep) :: es2 in
    sys_run malloc (ts ++ sys_rounds k n) (sys_init n evs) = Done (es, s)
    ∧ todo s = [] ∧ quiet n (pl s) ∧ serial es.*1 ∅ = (es.*2, set_of (pl s))
    ∧ meaning c name (serial es1.*1 ∅).2 = (reply_code rep, (serial (es1.*1 ++ [payload]) ∅).2)
    ∧ written f (sent (srv (pl s))) = length_word (reply_body rep) ++ reply_body rep
    ∧ ∀ e net fuel, 0 < fuel → (0 ≤ from_option atoi 3 (VTS_RETRY_MAX e))%Z →
        carries (net 0) payload (written f (sent (srv (pl s)))) →
        ∃ cevs, main [prog; word c; lit "room"; name] e net fuel
            = Done (0%Z, Some (cstr (reply_body rep)), cevs) ∧ sends cevs = encode_frame payload.
Proof.
  intros reqs payload Hm Hn Hv Hd Hk Hnul Hq Hl Hf Hin Hev Hc.
  assert (requests_of f reqs = [payload]) as Hown by (eapply session_request; [done..| |done|done];
    by apply request_sendable).
  destruct (sys_settles malloc n evs k ts Hn Hv Hk) as (es & s & A & D & Er & Ht & _ & Hqt & Hes & HA).
  pose proof HA as [HP HD _ _ Hw]. rewrite HD, app_nil_r in HP by done.
  assert (requests_of f A.*1 = [payload]) as HfA.
  { apply Permutation_singleton_r. rewrite <- Hown. unfold requests_of, reqs. by rewrite HP. }
  destruct (only_reply A _ f payload Hw HfA) as (a & Ha & Hfl).
  destruct (command_decided _ _ _ _ _ _ _ _ _ Hnul HA Ha) as (rep & -> & Hr).
  apply list_elem_of_split in Hr as (es1 & es2 & ->). exists es1, rep, es2, s. cbv zeta.
  assert (written f (sent (srv (pl s))) = length_word (reply_body rep) ++ reply_body rep) as Hwr.
  { unfold written. rewrite Hfl. unfold reply_frame. cbn. by rewrite app_nil_r. }
  split; [exact Er|]. split; [exact Ht|]. split; [exact Hqt|]. split; [exact Hes|].
  split; [|split; [exact Hwr|]].
  - apply request_meaning; try done. by eapply serial_at.
  - intros e net fuel Hfu Hre Hcar. rewrite Hwr in Hcar. apply main_prints; try done; [lia|].
    apply length_reply_body.
Qed.

Lemma command_end_to_end_witness :
  let p1 := request_text CCreate (lit "lab") in
  let f1 := encode_frame p1 in
  let evs := [Accept [(5, true); (6, true)]; Activity 5 [take 3 f1] (Some EAGAIN) false;
              Datagrams [(legacy_text (lit "GET"), true)];
              Activity 6 [encode_frame (create_text (lit "lab"))] (Some EAGAIN) false;
              Activity 5 [take 9 (drop 3 f1); drop 12 f1] (Some EAGAIN) false]%Z in
  ∃ es1 rep es2 s net cevs,
    sys_run (λ _, true) ([Net; Net; Worker 1] ++ sys_rounds 40 2) (sys_init 2 evs)
      = Done (es1 ++ (p1, rep) :: es2, s)
    ∧ written 5 (sent (srv (pl s))) = length_word (reply_body rep) ++ reply_body rep
    ∧ main [lit "sm"; lit "create"; lit "room"; lit "lab"] (mk_env None None) net 1
      = Done (0%Z, Some (cstr (reply_body rep)), cevs).
Proof.
  intros p1 f1 evs.
  destruct (command_end_to_end (λ _, true) 2 40 evs [Net; Net; Worker 1] 5 [(5, true); (6, true)]%Z
    [[take 3 f1]; [take 9 (drop 3 f1); drop 12 f1]] CCreate (lit "sm") (lit "lab"))
    as (es1 & rep & es2 & s & E & _ & _ & _ & _ & Hw & Hcl).
  - done.
  - lia.
  - cbn [valid_run valid_event evs]. split_and!; try done; try by repeat constructor.
    by repeat constructor; set_solver.
  - etransitivity; [|exact QUEUE_DEPTH_large]. apply Nat.leb_le. vm_compute. reflexivity.
  - apply Nat.leb_le. vm_compute. reflexivity.
  - by_evaluation.
  - by_evaluation.
  - simpl. lia.
  - done.
  - apply list_elem_of_here.
  - reflexivity.
  - vm_compute. reflexivity.
  - destruct (Hcl (mk_env None None)
      (λ _, mk_attempt 0 3 0 4 (Z.of_nat (length p1)) (4%Z, length_word (reply_body rep))
        [reply_body rep]) 1) as (cevs & Em & _).
    + lia.
    + done.
    + rewrite Hw. split; cbn [a_getaddrinfo a_socket a_connect a_write_len a_write_payload a_read_len
        a_data fst snd]; [reflexivity|lia|lia|reflexivity..| |].
      * apply Forall_singleton. by destruct rep.
      * cbn [concat]. by rewrite app_nil_r.
    + eexists es1, rep, es2, s, _, cevs. split; [exact E|]. split; [exact Hw|]. exact Em.
Defined.
