(* ===== verification/Kernel.v ===== *)
(** * Kernel: the module kernel/my_driver (pm_core.c, pm_cpu.c, pm_procfs.c)

    A delayed work item, [pm_work], re-arms itself while [pm_enabled] is set; writes to
    /proc/pm_drv/config start and stop it, reads of /proc/pm_drv/status print the samples
    under a seqlock.  The work queue is modelled by its documented behaviour: scheduling a
    pending work item does nothing, [cancel_delayed_work_sync] removes a pending item, waits
    for a running one, and keeps it from re-arming itself meanwhile; procfs calls a handler
    in the writer's context, and handlers of different writers run concurrently.

    The first part has the sequential functions; the second splits [cfg_write], [pm_tick] and
    [mydrv_exit] into their accesses to the shared state and lets them interleave. *)
From stdpp Require Import prelude strings list.
From Stdlib Require Import Ascii ZArith Lia.
From S2P Require Import Prelude CString.

Definition EINVAL : Z := 22.
Definition EFAULT : Z := 14.
Definition ENOMEM : Z := 12.

(** ** pm_cpu.c *)

Record pm_cpu_snap := mk_snap { usage : Z; ts : Z }.

(** One random word and one clock reading per online CPU. *)
Definition pm_update_fake (inputs : list (Z * Z)) : list pm_cpu_snap :=
  (λ i, mk_snap (i.1 mod 100) i.2) <$> inputs.

(** ** stat_show *)

Definition snap_line (cpu : nat) (s : pm_cpu_snap) : bytes :=
  lit "cpu" ++ dec (Z.of_nat cpu) ++ lit ".usage=" ++ dec (usage s)
  ++ lit " ts=" ++ dec (ts s) ++ [LF].

Definition state_line (enabled : Z) (interval : Z) : bytes :=
  lit "enabled=" ++ dec enabled ++ lit " interval_ms=" ++ dec interval ++ [LF].

(** What each pass of the loop reads, and whether [read_seqretry] then asks for another; the
    passes end with the first that does not.  [m] is the seq_file's buffer. *)
Fixpoint stat_loop (passes : list (list pm_cpu_snap * bool)) (m : list bytes) : option (list bytes) :=
  match passes with
  | [] => None
  | (snaps, retry) :: passes =>
    let m := m ++ imap snap_line snaps in
    if retry : bool then stat_loop passes m else Some m
  end.

Definition stat_show (passes : list (list pm_cpu_snap * bool)) (enabled interval : Z) :
    option (list bytes) :=
  m ← stat_loop passes [];
  Some (m ++ [state_line enabled interval]).

(** ** cfg_write *)

Inductive command := Start (interval : option Z) | Stop | Nothing.

Section cfg.
(** [sscanf(buf, "1 %u", &v)]: the number read, if one was. *)
Context (scan : bytes → option Z).

(** The part of [cfg_write] before it touches shared state: the error, or the command. *)
Definition cfg_parse (ubuf : bytes) (copy_fails : bool) : Z + command :=
  if (64 <=? length ubuf) then inl (- EINVAL)%Z
  else if copy_fails then inl (- EFAULT)%Z
  else
    let buf := cstr (ubuf ++ [NUL]) in
    match buf with
    | c :: _ =>
      if Ascii.eqb c "1" then
        inr (Start (match scan buf with Some v => if (0 <? v)%Z then Some v else None | None => None end))
      else if Ascii.eqb c "0" then inr Stop
      else inr Nothing
    | [] => inr Nothing
    end.
End cfg.

(** ** Set-up and tear-down

    The entries under [root], or [None] when there is no directory; the arguments say whether
    procfs creates each of them. *)
Definition pmfs_init (dir_ok config_ok status_ok : bool) : Z * option (list bytes) :=
  if negb dir_ok then ((- ENOMEM)%Z, None)
  else if negb config_ok then ((- ENOMEM)%Z, Some [])
  else if negb status_ok then ((- ENOMEM)%Z, Some [lit "config"])
  else (0%Z, Some [lit "config"; lit "status"]).

Definition mydrv_init (dir_ok config_ok status_ok : bool) : Z * option (list bytes) :=
  let '(rc, root) := pmfs_init dir_ok config_ok status_ok in
  if negb (rc =? 0)%Z then (rc, root) else (0%Z, root).

Definition pmfs_exit (root : option (list bytes)) : option (list bytes) :=
  match root with Some _ => None | None => None end.

(** ** Shared state and its accesses *)

(** The work item between its start and its end: about to read [pm_enabled], about to call
    [pm_update_fake], about to re-arm. *)
Inductive tick_pc := TIdle | TRead | TUpdate | TArm.

(** A writer inside [cfg_write]; [WWait] is inside [cancel_delayed_work_sync]. *)
Inductive writer_pc := WIdle | WXchg | WSchedule | WCancel | WWait.

Record kern := mk_kern {
  pm_enabled : bool;
  pm_interval_ms : Z;
  pending : option Z;            (* the delay that [pm_work] waits for *)
  canceling : bool;
  tick : tick_pc;
  writers : list writer_pc;
  proc_files : bool;             (* the procfs entries exist *)
  loaded : bool;                 (* the module's code is in memory *)
  updates : nat                  (* calls of [pm_update_fake] *) }.

Definition kern_init (n : nat) : kern :=
  mk_kern false 500 None false TIdle (replicate n WIdle) true true 0.

Definition set_writer (i : nat) (w : writer_pc) (k : kern) : kern :=
  mk_kern (pm_enabled k) (pm_interval_ms k) (pending k) (canceling k) (tick k)
    (<[i := w]> (writers k)) (proc_files k) (loaded k) (updates k).
Definition set_enabled (b : bool) (k : kern) : kern :=
  mk_kern b (pm_interval_ms k) (pending k) (canceling k) (tick k) (writers k) (proc_files k)
    (loaded k) (updates k).
Definition set_interval (v : Z) (k : kern) : kern :=
  mk_kern (pm_enabled k) v (pending k) (canceling k) (tick k) (writers k) (proc_files k)
    (loaded k) (updates k).
Definition set_work (p : option Z) (c : bool) (t : tick_pc) (k : kern) : kern :=
  mk_kern (pm_enabled k) (pm_interval_ms k) p c t (writers k) (proc_files k) (loaded k) (updates k).
Definition set_module (p l : bool) (k : kern) : kern :=
  mk_kern (pm_enabled k) (pm_interval_ms k) (pending k) (canceling k) (tick k) (writers k) p l
    (updates k).
Definition count_update (k : kern) : kern :=
  mk_kern (pm_enabled k) (pm_interval_ms k) (pending k) (canceling k) (tick k) (writers k)
    (proc_files k) (loaded k) (S (updates k)).

Definition schedule_delayed_work (delay : Z) (k : kern) : kern :=
  match pending k with
  | Some _ => k
  | None => if canceling k then k else set_work (Some delay) (canceling k) (tick k) k
  end.

(** Who moves: a writer enters with a command or goes on; the work item starts (its delay
    has passed) or goes on; the module's exit cancels the work, then removes the entries and
    unloads. *)
Inductive label :=
  | Enter (i : nat) (c : command)
  | Writer (i : nat)
  | TickStart
  | Tick
  | ExitCancel
  | ExitRemove.

(** [None]: the move is not possible now.  [Some Undef]: the work item's code is gone. *)
Definition kstep (l : label) (k : kern) : option (res kern) :=
  match l with
  | Enter i c =>
    match writers k !! i with
    | Some WIdle =>
      if proc_files k then
        match c with
        | Start v =>
          let k := match v with Some v => set_interval v k | None => k end in
          Some (Done (set_writer i WXchg k))
        | Stop => Some (Done (set_writer i WCancel (set_enabled false k)))
        | Nothing => Some (Done k)
        end
      else None
    | _ => None
    end
  | Writer i =>
    match writers k !! i with
    | Some WXchg =>
      Some (Done (set_writer i (if pm_enabled k then WIdle else WSchedule) (set_enabled true k)))
    | Some WSchedule => Some (Done (set_writer i WIdle (schedule_delayed_work 0 k)))
    | Some WCancel =>
      if canceling k then None else Some (Done (set_writer i WWait (set_work None true (tick k) k)))
    | Some WWait =>
      match tick k with
      | TIdle => Some (Done (set_writer i WIdle (set_work (pending k) false TIdle k)))
      | _ => None
      end
    | _ => None
    end
  | TickStart =>
    match pending k, tick k with
    | Some _, TIdle =>
      if loaded k then Some (Done (set_work None (canceling k) TRead k)) else Some Undef
    | _, _ => None
    end
  | Tick =>
    match tick k with
    | TIdle => None
    | TRead =>
      Some (Done (set_work (pending k) (canceling k) (if pm_enabled k then TUpdate else TIdle) k))
    | TUpdate => Some (Done (count_update (set_work (pending k) (canceling k) TArm k)))
    | TArm =>
      let k := schedule_delayed_work (pm_interval_ms k) k in
      Some (Done (set_work (pending k) (canceling k) TIdle k))
    end
  | ExitCancel =>
    if loaded k then
      match tick k with
      | TIdle => Some (Done (set_work None (canceling k) TIdle k))
      | _ => None
      end
    else None
  | ExitRemove =>
    (* procfs waits for the handlers that are running *)
    if loaded k && forallb (λ w, match w with WIdle => true | _ => false end) (writers k)
    then Some (Done (set_module false false k)) else None
  end.

Inductive steps : kern → list label → res kern → Prop :=
  | steps_nil k : steps k [] (Done k)
  | steps_undef k l ls : kstep l k = Some Undef → steps k (l :: ls) Undef
  | steps_cons k l k' ls r : kstep l k = Some (Done k') → steps k' ls r → steps k (l :: ls) r.

(** The labels that use at most writer 0 and do not unload. *)
Definition single_writer (l : label) : bool :=
  match l with
  | Enter i _ | Writer i => i =? 0
  | TickStart | Tick => true
  | ExitCancel | ExitRemove => false
  end.

(** ** Lemmas *)

(** The work item will run again, or is running. *)
Definition armed (k : kern) : Prop := is_Some (pending k) ∨ tick k ≠ TIdle.
Definition quiet (k : kern) : Prop := pending k = None ∧ tick k = TIdle.

Record kinv (k : kern) : Prop := {
  kinv_loaded : loaded k = true;
  kinv_writer :
    match writers k !! 0 with
    | Some WIdle | Some WXchg =>
        canceling k = false ∧ if pm_enabled k then armed k else quiet k
    | Some WSchedule => canceling k = false ∧ pm_enabled k = true ∧ quiet k
    | Some WCancel => canceling k = false ∧ pm_enabled k = false
    | Some WWait => canceling k = true ∧ pm_enabled k = false ∧ pending k = None
    | None => False
    end }.

Lemma kinv_init n : 0 < n → kinv (kern_init n).
Proof.
  intros Hn. split; [done|]. cbn. rewrite lookup_replicate_2 by done. by repeat split.
Qed.

Lemma writer_at k w i :
  writers k !! 0 = Some w → (<[0 := i]> (writers k)) !! 0 = Some i.
Proof. intros H. apply list_lookup_insert_eq. by eapply lookup_lt_Some. Qed.

(** A work item that is running, with the writer outside the critical part. *)
Ltac running :=
  match goal with
  | H : canceling ?k = false ∧ (if pm_enabled ?k then _ else _) |- _ =>
      destruct H as [? He]; split; [done|]; destruct (pm_enabled k); [by right|];
      destruct He; congruence
  end.

Lemma kstep_inv l k :
  kinv k → single_writer l = true →
  match kstep l k with
  | Some (Done k') => kinv k'
  | Some _ => False
  | None => True
  end.
Proof.
  intros [Hld Hw] Hl. destruct l as [i c|i| | | |]; try done; cbn [single_writer] in Hl.
  - apply Nat.eqb_eq in Hl as ->. cbn [kstep]. destruct (writers k !! 0) as [[]|] eqn:E; try done.
    destruct (proc_files k); [|done]. destruct Hw as [Hc He]. destruct c as [v| |].
    + split; [by destruct v|]. cbn. destruct v; cbn; rewrite (writer_at k _ _ E); done.
    + split; [done|]. cbn. rewrite (writer_at k _ _ E). done.
    + split; [done|]. by rewrite E.
  - apply Nat.eqb_eq in Hl as ->. cbn [kstep].
    destruct (writers k !! 0) as [[]|] eqn:E; try done; cbn.
    + destruct Hw as [Hc He]. split; [done|]. cbn. rewrite (writer_at k _ _ E).
      destruct (pm_enabled k); done.
    + destruct Hw as (Hc & He & Hq). unfold schedule_delayed_work. destruct Hq as [-> Ht].
      rewrite Hc. split; [done|]. cbn. rewrite (writer_at k _ _ E), He. split; [done|].
      left. by eexists.
    + destruct Hw as [Hc He]. rewrite Hc. split; [done|]. cbn. by rewrite (writer_at k _ _ E).
    + destruct Hw as (Hc & He & Hp). destruct (tick k) eqn:Et; try done. split; [done|]. cbn.
      rewrite (writer_at k _ _ E), He. by repeat split.
  - cbn [kstep]. destruct (pending k) eqn:Ep; [|done]. destruct (tick k) eqn:Et; try done.
    rewrite Hld. split; [done|]. cbn. destruct (writers k !! 0) as [[]|]; try done.
    + running.
    + running.
    + destruct Hw as (? & ? & Hq & ?). congruence.
    + destruct Hw as (? & ? & Hq). congruence.
  - cbn [kstep]. destruct (tick k) eqn:Et; [done|..].
    + split; [done|]. cbn. destruct (writers k !! 0) as [[]|]; try done.
      * running.
      * running.
      * destruct Hw as (? & ? & ? & ?). congruence.
    + split; [done|]. cbn. destruct (writers k !! 0) as [[]|]; try done.
      * running.
      * running.
      * destruct Hw as (? & ? & ? & ?). congruence.
    + unfold schedule_delayed_work. destruct (writers k !! 0) as [[]|] eqn:Ew; try done;
        (destruct (pending k) eqn:Ep; [|destruct (canceling k) eqn:Ec]); cbn;
        (split; [done|]; cbn; rewrite Ew).
      all: repeat match goal with H : _ ∧ _ |- _ => destruct H end; try congruence.
      all: destruct (pm_enabled k); try congruence; repeat split; try congruence; try done.
      all: try (left; by eexists). all: unfold quiet in *; intuition congruence.
Qed.

Lemma steps_inv ls k r :
  kinv k → forallb single_writer ls = true → steps k ls r → ∃ k', r = Done k' ∧ kinv k'.
Proof.
  intros Hk Hls Hs. induction Hs as [k|k l ls E|k l k' ls r E Hs IH]; [eauto|..];
    cbn [forallb] in Hls; apply andb_prop in Hls as [Hl Hls];
    pose proof (kstep_inv l k Hk Hl) as H; rewrite E in H; [done|]. by apply IH.
Qed.

Lemma steps_app k ls1 k1 ls2 r : steps k ls1 (Done k1) → steps k1 ls2 r → steps k (ls1 ++ ls2) r.
Proof.
  intros H1 H2. remember (Done k1) as r1 eqn:Er. induction H1; simplify_eq; [done|..].
  econstructor; [done|]. by apply IHsteps.
Qed.


(** The work item's own moves. *)
Definition work_label (l : label) : bool := match l with TickStart | Tick => true | _ => false end.

Lemma work_updates k :
  loaded k = true → pm_enabled k = true → canceling k = false → armed k →
  ∃ ls k', forallb work_label ls = true ∧ length ls ≤ 4 ∧ steps k ls (Done k') ∧
    updates k' = S (updates k).
Proof.
  intros Hl He Hc Ha.
  assert (∀ k, pm_enabled k = true → tick k = TRead →
    ∃ k', steps k [Tick; Tick] (Done k') ∧ updates k' = S (updates k)) as Hread.
  { intros k1 He1 Ht. eexists. split.
    - eapply steps_cons; [cbn; rewrite Ht, He1; reflexivity|].
      eapply steps_cons; [reflexivity|]. apply steps_nil.
    - done. }
  destruct (tick k) eqn:Et.
  - destruct Ha as [[d Hd]|Hne]; [|congruence].
    destruct (Hread (set_work None (canceling k) TRead k) He eq_refl) as (k' & Hs & Hu).
    exists [TickStart; Tick; Tick], k'. split; [done|]. split; [simpl; lia|]. split; [|done].
    eapply steps_cons; [|exact Hs]. cbn. by rewrite Hd, Et, Hl.
  - destruct (Hread k He Et) as (k' & Hs & Hu). exists [Tick; Tick], k'. split_and!; try done.
    simpl; lia.
  - eexists [Tick], _. split; [done|]. split; [simpl; lia|]. split.
    + eapply steps_cons; [cbn; rewrite Et; reflexivity|]. apply steps_nil.
    + done.
  - assert (∃ d, kstep Tick k = Some (Done (set_work (Some d) false TIdle k))) as [d E].
    { cbn. rewrite Et. unfold schedule_delayed_work.
      destruct (pending k) as [d|] eqn:Ep; [exists d; by rewrite Ep, Hc|].
      exists (pm_interval_ms k). by rewrite Hc. }
    destruct (Hread (set_work None false TRead (set_work (Some d) false TIdle k)) He eq_refl)
      as (k' & Hs & Hu).
    exists [Tick; TickStart; Tick; Tick], k'. split; [done|]. split; [simpl; lia|]. split; [|done].
    eapply steps_cons; [exact E|]. eapply steps_cons; [cbn; by rewrite Hl|exact Hs].
Qed.

Lemma interval_pos ls k r :
  (0 < pm_interval_ms k)%Z →
  Forall (λ l, match l with Enter _ (Start (Some v)) => (0 < v)%Z | _ => True end) ls →
  steps k ls (Done r) → (0 < pm_interval_ms r)%Z.
Proof.
  intros Hk Hls Hs. remember (Done r) as o eqn:Eo. revert Hk Hls Eo.
  induction Hs as [k|k l ls E|k l k' ls r' E Hs IH]; intros Hk Hls Eo; simplify_eq; [done|].
  apply Forall_cons in Hls as [Hl Hls]. apply IH; [|done..]. clear IH Hs Hls.
  destruct l as [i c|i| | | |]; cbn in E; repeat (case_match; simplify_eq/=; try done);
    unfold schedule_delayed_work; repeat (case_match; simplify_eq/=; try done).
Qed.

(** A system whose flag is set while no work is pending stays as it is under start commands. *)
Definition stuck (k : kern) : Prop :=
  pm_enabled k = true ∧ quiet k ∧ canceling k = false ∧
  Forall (λ w, w = WIdle ∨ w = WXchg) (writers k).

Definition start_label (l : label) : bool :=
  match l with Enter _ (Start _) | Writer _ | TickStart | Tick => true | _ => false end.

Lemma stuck_step l k k' :
  stuck k → start_label l = true → kstep l k = Some (Done k') →
  stuck k' ∧ updates k' = updates k.
Proof.
  intros (He & [Hp Ht] & Hc & Hw) Hl E. destruct l as [i c|i| | | |]; cbn in E; try done.
  - destruct (writers k !! i) as [[]|] eqn:Ei; try done. destruct (proc_files k); [|done].
    destruct c as [v| |]; try done. destruct v as [v|]; injection E as <-;
      (split; [|done]); (split; [done|]); (split; [by split|]); (split; [done|]);
      apply Forall_insert; auto.
  - destruct (writers k !! i) as [w|] eqn:Ei; [|done].
    assert (w = WIdle ∨ w = WXchg) as [-> | ->] by by eapply (Forall_lookup_1 _ _ _ _ Hw).
    + done.
    + rewrite He in E. injection E as <-. split; [|done]. split; [done|].
      split; [by split|]. split; [done|]. apply Forall_insert; auto.
  - by rewrite Hp in E.
  - by rewrite Ht in E.
Qed.

Lemma stuck_steps ls k k' :
  stuck k → forallb start_label ls = true → steps k ls (Done k') →
  stuck k' ∧ updates k' = updates k.
Proof.
  intros Hk Hls Hs. remember (Done k') as r eqn:Er. revert Hk Hls Er.
  induction Hs as [k|k l ls E|k l k1 ls r E Hs IH]; intros Hk Hls Er; simplify_eq; [done|].
  cbn [forallb] in Hls. apply andb_prop in Hls as [Hl Hls].
  destruct (stuck_step l k k1 Hk Hl E) as [Hk1 Hu]. destruct (IH Hk1 Hls eq_refl) as [Hk' Hu'].
  split; [done|congruence].
Qed.

(** The sampler in operation. *)
Definition sampling (k : kern) : Prop :=
  loaded k = true ∧ pm_enabled k = true ∧ canceling k = false ∧ armed k ∧
  (writers k !! 0 = Some WIdle ∨ writers k !! 0 = Some WXchg).

(** Moves of the work item so far: four between an update and the next. *)
Definition work_moves (k : kern) : nat :=
  4 * updates k + match tick k with TArm => 0 | TIdle => 1 | TRead => 2 | TUpdate => 3 end.

Definition start_only (l : label) : bool := single_writer l && start_label l.

Lemma sampling_possible k :
  sampling k → ∃ l k', work_label l = true ∧ kstep l k = Some (Done k').
Proof.
  intros (Hl & He & Hc & Ha & _). destruct (tick k) eqn:Et.
  - destruct Ha as [[d Hd]|Hne]; [|done]. exists TickStart. eexists. split; [done|].
    cbn. by rewrite Hd, Et, Hl.
  - exists Tick. eexists. split; [done|]. cbn. by rewrite Et, He.
  - exists Tick. eexists. split; [done|]. cbn. by rewrite Et.
  - exists Tick. eexists. split; [done|]. cbn. by rewrite Et.
Qed.

Lemma sampling_step l k k' :
  sampling k → start_only l = true → kstep l k = Some (Done k') →
  sampling k' ∧ work_moves k' = work_moves k + (if work_label l then 1 else 0).
Proof.
  intros (Hl & He & Hc & Ha & Hw) Hs E. unfold start_only in Hs. apply andb_prop in Hs as [H1 H2].
  unfold work_moves. destruct l as [i c|i| | | |]; cbn [single_writer] in H1; try done; cbn in E.
  - apply Nat.eqb_eq in H1 as ->. destruct c as [v| |]; [|done..].
    destruct Hw as [Hw|Hw]; rewrite Hw in E; [|done]. destruct (proc_files k); [|done].
    destruct v as [v|]; injection E as <-; (split; [|cbn; lia]);
      (split; [done|split; [done|split; [done|split; [exact Ha|]]]]);
      right; apply (writer_at k _ _ Hw).
  - apply Nat.eqb_eq in H1 as ->. destruct Hw as [Hw|Hw]; rewrite Hw in E; [done|].
    rewrite He in E. injection E as <-. split; [|cbn; lia].
    split; [done|split; [done|split; [done|split; [exact Ha|]]]].
    left; apply (writer_at k _ _ Hw).
  - destruct (pending k); [|done]. destruct (tick k) eqn:Et; try done. rewrite Hl in E.
    injection E as <-. cbn. split; [|lia]. split_and!; try done. by right.
  - destruct (tick k) eqn:Et; try done; [rewrite He in E| |]; injection E as <-; cbn.
    + split; [|lia]. split_and!; try done. by right.
    + split; [|lia]. split_and!; try done. by right.
    + unfold schedule_delayed_work. destruct (pending k) eqn:Ep; [|rewrite Hc]; cbn;
        (split; [|lia]); (split_and!; try done; left; cbn; by rewrite ?Ep).
Qed.

Lemma sampling_steps ls k k' :
  sampling k → forallb start_only ls = true → steps k ls (Done k') →
  sampling k' ∧ work_moves k' = work_moves k + length (filter (λ l, work_label l = true) ls).
Proof.
  intros Hk Hls Hs. remember (Done k') as r eqn:Er. revert Hk Hls Er.
  induction Hs as [k|k l ls E|k l k1 ls r E Hs IH]; intros Hk Hls Er; simplify_eq; [cbn; auto|].
  cbn [forallb] in Hls. apply andb_prop in Hls as [Hl Hls].
  destruct (sampling_step l k k1 Hk Hl E) as [Hk1 Hu]. destruct (IH Hk1 Hls eq_refl) as [Hk' Hu'].
  split; [done|]. rewrite filter_cons.
  destruct (work_label l); [rewrite decide_True by done|rewrite decide_False by done];
    cbn [length]; lia.
Qed.

(** ** Properties *)

(** C19: start and stop with one writer. Whatever the order in which the work item runs while a
    single writer issues commands (positive intervals only, as [cfg_write] ensures), nothing
    undefined happens and the interval stays positive; whenever no command is in progress,
    the flag and the work item agree: set, the item is pending or running and will call
    [pm_update_fake] within four of its own moves; clear, it is neither pending nor running,
    so that no update happens after a stop has returned. *)
Theorem single_writer_ticks (n : nat) (ls : list label) (r : res kern) :
  0 < n → forallb single_writer ls = true →
  Forall (λ l, match l with Enter _ (Start (Some v)) => (0 < v)%Z | _ => True end) ls →
  steps (kern_init n) ls r →
  ∃ k, r = Done k ∧ (0 < pm_interval_ms k)%Z ∧
    (writers k !! 0 = Some WIdle →
     if pm_enabled k then
       ∃ ls' k', forallb work_label ls' = true ∧ length ls' ≤ 4 ∧ steps k ls' (Done k') ∧
         updates k' = S (updates k)
     else pending k = None ∧ tick k = TIdle).
Proof.
  intros Hn Hls Hpos Hs. destruct (steps_inv ls _ r (kinv_init n Hn) Hls Hs) as (k & -> & Hk).
  exists k. split; [done|]. split; [by eapply interval_pos; [|done..]|].
  intros Hw. destruct Hk as [Hl Hk]. rewrite Hw in Hk. destruct Hk as [Hc Hk].
  destruct (pm_enabled k) eqn:He; [|done]. by apply work_updates.
Qed.

Lemma single_writer_ticks_witness :
  ∃ k, steps (kern_init 1) [Enter 0 (Start (Some 100%Z)); Writer 0; Writer 0; TickStart; Tick; Tick; Tick]
         (Done k) ∧ updates k = 1 ∧ (0 < pm_interval_ms k)%Z ∧ is_Some (pending k).
Proof.
  assert (∃ k, steps (kern_init 1)
    [Enter 0 (Start (Some 100%Z)); Writer 0; Writer 0; TickStart; Tick; Tick; Tick] (Done k)
    ∧ updates k = 1 ∧ is_Some (pending k)) as (k & Hs & Hu & Hp).
  { eexists. split; [repeat (eapply steps_cons; [vm_compute; reflexivity|]); apply steps_nil|].
    split; [reflexivity|]. by eexists. }
  destruct (single_writer_ticks 1
    [Enter 0 (Start (Some 100%Z)); Writer 0; Writer 0; TickStart; Tick; Tick; Tick] (Done k)
    ltac:(lia) eq_refl ltac:(repeat constructor; done) Hs) as (k' & E & Hi & _).
  injection E as <-. exists k. split; [exact Hs|]. split; [exact Hu|]. split; [exact Hi|exact Hp].
Defined.

(** C22: The sampler lives. After any run of a single writer that has left the sampler enabled,
    with no command in progress, the work item can always move, whatever further start
    commands are issued and however they interleave with it; and every four of its moves bring
    one more update: no start command delays or stops the sampling. *)
Theorem sampler_lives (n : nat) (ls ls' : list label) (k k' : kern) :
  0 < n → forallb single_writer ls = true → steps (kern_init n) ls (Done k) →
  writers k !! 0 = Some WIdle → pm_enabled k = true →
  forallb start_only ls' = true → steps k ls' (Done k') →
  updates k + length (filter (λ l, work_label l = true) ls') / 4 ≤ updates k'
  ∧ ∃ l k'', work_label l = true ∧ kstep l k' = Some (Done k'').
Proof.
  intros Hn Hls Hs Hw He Hls' Hs'.
  destruct (steps_inv ls _ _ (kinv_init n Hn) Hls Hs) as (k1 & E & Hk). injection E as <-.
  destruct Hk as [Hl Hk]. rewrite Hw, He in Hk. destruct Hk as [Hc Ha].
  destruct (sampling_steps ls' k k') as [Hk' Hm]; [by split_and!; auto|done..|].
  split; [|by apply sampling_possible]. unfold work_moves in Hm.
  pose proof (Nat.div_mod_eq (length (filter (λ l, work_label l = true) ls')) 4).
  destruct (tick k), (tick k'); lia.
Qed.

Lemma sampler_lives_witness :
  ∃ k k', steps (kern_init 1) [Enter 0 (Start None); Writer 0; Writer 0] (Done k)
    ∧ steps k [TickStart; Enter 0 (Start (Some 20%Z)); Tick; Writer 0; Tick; Tick] (Done k')
    ∧ 1 ≤ updates k'.
Proof.
  assert (∃ k k', steps (kern_init 1) [Enter 0 (Start None); Writer 0; Writer 0] (Done k)
    ∧ steps k [TickStart; Enter 0 (Start (Some 20%Z)); Tick; Writer 0; Tick; Tick] (Done k')
    ∧ writers k !! 0 = Some WIdle ∧ pm_enabled k = true) as (k & k' & H1 & H2 & Hw & He).
  { eexists _, _. split.
    { repeat (eapply steps_cons; [vm_compute; reflexivity|]). apply steps_nil. }
    split.
    { repeat (eapply steps_cons; [vm_compute; reflexivity|]). apply steps_nil. }
    by split. }
  exists k, k'. split; [exact H1|]. split; [exact H2|].
  destruct (sampler_lives 1 [Enter 0 (Start None); Writer 0; Writer 0]
    [TickStart; Enter 0 (Start (Some 20%Z)); Tick; Writer 0; Tick; Tick] k k'
    ltac:(lia) eq_refl H1 Hw He eq_refl H2) as [H _].
  assert (length (filter (λ l, work_label l = true)
    [TickStart; Enter 0 (Start (Some 20%Z)); Tick; Writer 0; Tick; Tick]) / 4 = 1) as Hn
    by (vm_compute; reflexivity).
  rewrite Hn in H. lia.
Defined.

(** A start that overlaps a stop is lost. With two writers there is a run after which both
    writes have returned, the flag is set and no work is pending or running; from then on no
    sequence of start commands, however interleaved, causes another update. *)
Theorem start_stop_race :
  ∃ ls k, steps (kern_init 2) ls (Done k) ∧ writers k = [WIdle; WIdle] ∧ pm_enabled k = true ∧
    pending k = None ∧ tick k = TIdle ∧
    ∀ ls' k', forallb start_label ls' = true → steps k ls' (Done k') →
      updates k' = updates k ∧ pm_enabled k' = true ∧ pending k' = None.
Proof.
  exists [Enter 0 (Start None); Writer 0; Writer 0; Enter 1 Stop; Enter 0 (Start None);
          Writer 0; Writer 0; Writer 1; Writer 1].
  eexists. split; [repeat (eapply steps_cons; [vm_compute; reflexivity|]); apply steps_nil|].
  split; [done|]. split; [done|]. split; [done|]. split; [done|].
  intros ls' k' Hls Hs. eapply stuck_steps in Hs as [(He & [Hp _] & _) Hu]; [done| |done].
  split; [done|]. split; [by split|]. split; [done|]. repeat constructor; auto.
Qed.

(** Unloading. [mydrv_exit] cancels the work before it removes the procfs entries; a start
    command between the two leaves the work item pending when the module's code is freed. *)
Theorem exit_leaves_work :
  steps (kern_init 1)
    [ExitCancel; Enter 0 (Start None); Writer 0; Writer 0; ExitRemove; TickStart] Undef.
Proof.
  repeat (eapply steps_cons; [vm_compute; reflexivity|]). by apply steps_undef.
Qed.

(** Reading the status. When [r] passes over the samples are disturbed by an update and
    the next one is not, the text of the status file holds the samples of all [r + 1] passes,
    the disturbed ones included, before the line with the state: lines are printed inside the
    retry loop. *)
Theorem stat_prints_every_pass (torn : list (list pm_cpu_snap)) (snaps : list pm_cpu_snap)
    (enabled interval : Z) :
  ∃ out, stat_show (((λ s, (s, true)) <$> torn) ++ [(snaps, false)]) enabled interval = Some out ∧
    out = (torn ≫= imap snap_line) ++ imap snap_line snaps ++ [state_line enabled interval] ∧
    length out = sum_list (length <$> torn) + length snaps + 1.
Proof.
  assert (∀ m, stat_loop (((λ s, (s, true)) <$> torn) ++ [(snaps, false)]) m =
    Some (m ++ (torn ≫= imap snap_line) ++ imap snap_line snaps)) as E.
  { induction torn as [|t torn IH]; intros m; cbn [fmap list_fmap app stat_loop mbind list_bind]; [done|].
    rewrite IH. by rewrite <- !app_assoc. }
  unfold stat_show. rewrite E. eexists. split; [done|]. cbn [app]. rewrite <- app_assoc. split; [done|].
  rewrite !length_app, length_imap. cbn [length]. rewrite Nat.add_assoc. do 2 f_equal.
  clear E. induction torn as [|t torn IH]; [done|]. cbn [mbind list_bind].
  rewrite length_app, length_imap. cbn. by rewrite IH.
Qed.

(** The interval that a write can set. *)
Lemma cfg_parse_positive scan ubuf b v :
  cfg_parse scan ubuf b = inr (Start (Some v)) → (0 < v)%Z.
Proof.
  unfold cfg_parse. intros H. repeat (case_match; simplify_eq/=); by apply Z.ltb_lt.
Qed.

(** The commands. [cfg_write] refuses 64 bytes or more and unreadable buffers; otherwise
    it looks at the first byte only: [1] starts, with the number that follows as the new
    interval when there is a positive one, [0] stops, anything else is accepted and ignored. *)
Theorem cfg_commands (scan : bytes → option Z) (ubuf rest : bytes) (c : ascii) (copy_fails : bool) :
  (64 ≤ length ubuf → cfg_parse scan ubuf copy_fails = inl (- EINVAL)%Z) ∧
  (length ubuf < 64 → copy_fails = true → cfg_parse scan ubuf copy_fails = inl (- EFAULT)%Z) ∧
  (length ubuf < 64 → copy_fails = false →
     (ubuf = "1"%char :: rest →
        cfg_parse scan ubuf copy_fails =
          inr (Start (v ← scan (cstr (ubuf ++ [NUL])); if (0 <? v)%Z then Some v else None))) ∧
     (ubuf = "0"%char :: rest → cfg_parse scan ubuf copy_fails = inr Stop) ∧
     (ubuf = [] ∨ (ubuf = c :: rest ∧ c ≠ "0"%char ∧ c ≠ "1"%char) →
        cfg_parse scan ubuf copy_fails = inr Nothing)).
Proof.
  unfold cfg_parse. destruct (Nat.leb_spec 64 (length ubuf)) as [Hl|Hl].
  { split; [done|]. split; intros; lia. }
  split; [intros; lia|]. split; [by intros _ ->|]. intros _ ->. split; [|split].
  - intros ->. cbn. by destruct (scan _).
  - by intros ->.
  - intros [->|(-> & H0 & H1)]; [done|]. cbn. destruct (Ascii.eqb_spec c NUL); [done|].
    destruct (Ascii.eqb_spec c "1"); [done|]. by destruct (Ascii.eqb_spec c "0").
Qed.

(** A failed set-up leaves its directory behind: the module is not loaded, but the [config]
    entry whose handler it contains still exists. *)
Lemma failed_init_leaves_entries :
  mydrv_init true true false = ((- ENOMEM)%Z, Some [lit "config"])
  ∧ pmfs_exit (mydrv_init true true true).2 = None.
Proof. by split. Qed.
