(* ===== verification/KernelSeq.v ===== *)
(** * KernelSeq: sampling and reading at once in kernel/my_driver

    [pm_update_fake] (pm_cpu.c) stores a sample for every CPU under [pm_seq] while a reader of
    /proc/pm_drv/status runs [stat_show] (pm_procfs.c).  Every store and every load is a step,
    and the steps of the two interleave.  The kernel's seqlock is a class with its documented
    promises; a sequence counter of 32 bits is an instance.  The set of online CPUs does not
    change. *)
From stdpp Require Import prelude strings list.
From Stdlib Require Import Ascii ZArith Lia.
From S2P Require Import Prelude CString Kernel.

(** ** The seqlock *)

Class SeqLock (L : Type) := {
  seqlock_init : L;
  write_seqlock : L → L;
  write_sequnlock : L → L;
  read_seqbegin : L → option Z;          (* [None]: a writer is in, the reader spins *)
  read_seqretry : L → Z → bool }.

(** [writing]: a write section is open; [sections]: how many have been opened.  A reader that
    is not told to retry has had no write section beside it, as long as fewer than 2^31 of
    them, the period of the counter, have begun meanwhile. *)
Class SeqLockLaws (L : Type) `{SeqLock L} := {
  writing : L → bool;
  sections : L → nat;
  init_law : writing seqlock_init = false ∧ sections seqlock_init = 0;
  lock_law l : writing l = false →
    writing (write_seqlock l) = true ∧ sections (write_seqlock l) = S (sections l);
  unlock_law l : writing l = true →
    writing (write_sequnlock l) = false ∧ sections (write_sequnlock l) = sections l;
  begin_law l : is_Some (read_seqbegin l) ↔ writing l = false;
  retry_law l l' seq : read_seqbegin l = Some seq → sections l ≤ sections l' →
    (Z.of_nat (sections l') < Z.of_nat (sections l) + 2 ^ 31)%Z →
    (read_seqretry l' seq = false ↔ sections l' = sections l ∧ writing l' = false) }.

(** ** The two threads *)

(** The writer outside its section, or about to store the usage or the time of a CPU. *)
Inductive update_pc := UOut | UUsage (cpu : nat) | UTs (cpu : nat).

(** The reader about to start a pass, about to load the usage of the next CPU or its time
    (with the lines of this pass so far), about to print the state, or at its end. *)
Inductive show_pc :=
  | SBegin
  | SUsage (seq : Z) (acc : list pm_cpu_snap)
  | STs (seq : Z) (acc : list pm_cpu_snap) (usage : Z)
  | SState
  | SEnd.

Section threads.
Context {L : Type} {HS : SeqLock L}.

Record seq_state := mk_seq {
  pm_seq : L;
  pm_cpu_buf : list pm_cpu_snap;
  upc : update_pc;
  spc : show_pc;
  out : list bytes;                      (* the seq_file's buffer *)
  published : list (list pm_cpu_snap)    (* the samples after each update, oldest first *) }.

(** The samples of a module that has just been loaded. *)
Definition zero_snaps (n : nat) : list pm_cpu_snap := replicate n (mk_snap 0 0).

Definition seq_state_init (n : nat) : seq_state :=
  mk_seq seqlock_init (zero_snaps n) UOut SBegin [] [zero_snaps n].

(** A step of the writer with what [get_random_u32] or the clock answers to it, or of the
    reader with the values of [pm_enabled] and [pm_interval_ms] at that time. *)
Inductive seq_label := Update (v : Z) | Show (enabled interval : Z).

Definition set_usage (v : Z) (s : pm_cpu_snap) : pm_cpu_snap := mk_snap v (ts s).
Definition set_ts (v : Z) (s : pm_cpu_snap) : pm_cpu_snap := mk_snap (usage s) v.

Definition update_step (v : Z) (s : seq_state) : seq_state :=
  match upc s with
  | UOut =>
    mk_seq (write_seqlock (pm_seq s)) (pm_cpu_buf s) (UUsage 0) (spc s) (out s) (published s)
  | UUsage cpu =>
    if cpu <? length (pm_cpu_buf s) then
      mk_seq (pm_seq s) (alter (set_usage (v mod 100)) cpu (pm_cpu_buf s)) (UTs cpu) (spc s) (out s)
        (published s)
    else
      mk_seq (write_sequnlock (pm_seq s)) (pm_cpu_buf s) UOut (spc s) (out s)
        (published s ++ [pm_cpu_buf s])
  | UTs cpu =>
    mk_seq (pm_seq s) (alter (set_ts v) cpu (pm_cpu_buf s)) (UUsage (S cpu)) (spc s) (out s)
      (published s)
  end.

Definition set_show (p : show_pc) (o : list bytes) (s : seq_state) : seq_state :=
  mk_seq (pm_seq s) (pm_cpu_buf s) (upc s) p o (published s).

Definition show_step (enabled interval : Z) (s : seq_state) : seq_state :=
  match spc s with
  | SBegin =>
    match read_seqbegin (pm_seq s) with
    | Some seq => set_show (SUsage seq []) (out s) s
    | None => s
    end
  | SUsage seq acc =>
    match pm_cpu_buf s !! length acc with
    | Some p => set_show (STs seq acc (usage p)) (out s) s
    | None =>
      if read_seqretry (pm_seq s) seq then set_show SBegin (out s) s
      else set_show SState (out s) s
    end
  | STs seq acc u =>
    match pm_cpu_buf s !! length acc with
    | Some p =>
      let p := mk_snap u (ts p) in
      set_show (SUsage seq (acc ++ [p])) (out s ++ [snap_line (length acc) p]) s
    | None => s
    end
  | SState => set_show SEnd (out s ++ [state_line enabled interval]) s
  | SEnd => s
  end.

Definition seq_step (s : seq_state) (l : seq_label) : seq_state :=
  match l with
  | Update v => update_step v s
  | Show enabled interval => show_step enabled interval s
  end.

Definition seq_run (ls : list seq_label) (s : seq_state) : seq_state := foldl seq_step s ls.
End threads.

Arguments seq_state : clear implicits.

(** ** A counter

    The sequence is even outside a write section; the reader sees 32 bits of it. *)
#[export] Instance seq_counter : SeqLock nat := {|
  seqlock_init := 0;
  write_seqlock := S;
  write_sequnlock := S;
  read_seqbegin := λ c, if Nat.odd c then None else Some (u32 (Z.of_nat c));
  read_seqretry := λ c seq, negb (u32 (Z.of_nat c) =? seq)%Z |}.

Lemma odd_succ_false c : Nat.odd c = false → Nat.odd (S c) = true.
Proof. rewrite Nat.odd_succ, <- Nat.negb_odd. by intros ->. Qed.

Lemma odd_succ_true c : Nat.odd c = true → Nat.odd (S c) = false.
Proof. rewrite Nat.odd_succ, <- Nat.negb_odd. by intros ->. Qed.

Lemma odd_div c : c = 2 * Nat.div2 c + Nat.b2n (Nat.odd c).
Proof. apply Nat.div2_odd. Qed.

Lemma half_even c : Nat.odd c = false → c = 2 * Nat.div2 (S c).
Proof.
  intros Hc. pose proof (odd_div (S c)) as E. rewrite (odd_succ_false c Hc) in E. cbn [Nat.b2n] in E. lia.
Qed.

Lemma half_odd c : Nat.odd c = true → S c = 2 * Nat.div2 (S c).
Proof.
  intros Hc. pose proof (odd_div (S c)) as E. rewrite (odd_succ_true c Hc) in E. cbn [Nat.b2n] in E. lia.
Qed.

#[export] Instance seq_counter_laws : SeqLockLaws nat.
Proof.
  refine {| writing := Nat.odd; sections := λ c, Nat.div2 (S c) |}.
  - done.
  - intros c Hc. cbn [write_seqlock seq_counter]. pose proof (odd_succ_false c Hc) as H1.
    split; [done|]. pose proof (half_even c Hc). pose proof (half_odd (S c) H1). lia.
  - intros c Hc. cbn [write_sequnlock seq_counter]. pose proof (odd_succ_true c Hc) as H1.
    split; [done|]. pose proof (half_odd c Hc). pose proof (half_even (S c) H1). lia.
  - intros c. cbn [read_seqbegin seq_counter]. destruct (Nat.odd c); split; done.
  - intros c c' seq. cbn [read_seqbegin read_seqretry seq_counter].
    destruct (Nat.odd c) eqn:Ec; [done|]. intros [= <-] Hle Hlt.
    pose proof (half_even c Ec) as E. rewrite negb_false_iff, Z.eqb_eq. unfold u32, wrapu. split.
    + intros Hm. assert (Z.of_nat c' = Z.of_nat c) as Heq; [|apply Nat2Z.inj in Heq as ->; done].
      destruct (Nat.odd c') eqn:Ec'.
      * pose proof (half_odd c' Ec') as E'.
        apply Z.cong_iff_0 in Hm. apply Z.mod_divide in Hm as [k Hk]; [|done]. lia.
      * pose proof (half_even c' Ec') as E'.
        apply Z.cong_iff_0 in Hm. apply Z.mod_divide in Hm as [k Hk]; [|done]. lia.
    + intros [Hs Hw]. pose proof (half_even c' Hw) as E'. by rewrite E', Hs, <- E.
Qed.

(** ** Invariant *)

Section invariant.
Context {L : Type} {HS : SeqLock L} {HL : SeqLockLaws L} (n : nat).

Definition in_range (p : pm_cpu_snap) : Prop := (0 ≤ usage p < 100)%Z.

(** All the samples of one update, or those of the start. *)
Definition snapshot (b : list pm_cpu_snap) : Prop :=
  b = zero_snaps n ∨ ∃ inputs, length inputs = n ∧ b = pm_update_fake inputs.

(** A pass of the reader, whatever it has seen. *)
Definition pass (t : list pm_cpu_snap) : Prop := length t = n ∧ Forall in_range t.

Definition printed (torn : list (list pm_cpu_snap)) : list bytes := torn ≫= imap snap_line.

Definition writer_inv (s : seq_state L) : Prop :=
  match upc s with
  | UOut => writing (pm_seq s) = false ∧ pm_cpu_buf s ∈ published s
  | UUsage k => writing (pm_seq s) = true ∧ k ≤ n
      ∧ ∃ inputs, length inputs = k ∧ take k (pm_cpu_buf s) = pm_update_fake inputs
  | UTs k => writing (pm_seq s) = true ∧ k < n
      ∧ ∃ inputs v p, length inputs = k ∧ take k (pm_cpu_buf s) = pm_update_fake inputs
          ∧ pm_cpu_buf s !! k = Some p ∧ usage p = (v mod 100)%Z
  end.

(** While no write section has begun since the start of the pass, what it has loaded is what
    the buffer holds. *)
Definition pass_inv (s : seq_state L) (seq : Z) (acc : list pm_cpu_snap) (u : option Z) : Prop :=
  ∃ l, read_seqbegin l = Some seq ∧ sections l ≤ sections (pm_seq s)
    ∧ (sections l = sections (pm_seq s) → writing (pm_seq s) = false
       ∧ take (length acc) (pm_cpu_buf s) = acc
       ∧ ∀ v, u = Some v → usage <$> pm_cpu_buf s !! length acc = Some v).

Definition show_inv (s : seq_state L) : Prop :=
  ∃ torn, Forall pass torn ∧
  match spc s with
  | SBegin => out s = printed torn
  | SUsage seq acc => out s = printed torn ++ imap snap_line acc ∧ length acc ≤ n
      ∧ Forall in_range acc ∧ pass_inv s seq acc None
  | STs seq acc u => out s = printed torn ++ imap snap_line acc ∧ length acc < n
      ∧ Forall in_range acc ∧ (0 ≤ u < 100)%Z ∧ pass_inv s seq acc (Some u)
  | SState => ∃ b, out s = printed torn ++ imap snap_line b ∧ b ∈ published s
  | SEnd => ∃ b en iv, out s = printed torn ++ imap snap_line b ++ [state_line en iv]
      ∧ b ∈ published s
  end.

Record seq_inv (s : seq_state L) : Prop := {
  inv_len : length (pm_cpu_buf s) = n;
  inv_range : Forall in_range (pm_cpu_buf s);
  inv_published : Forall snapshot (published s);
  inv_sections : sections (pm_seq s) + 1 =
    length (published s) + match upc s with UOut => 0 | _ => 1 end;
  inv_writer : writer_inv s;
  inv_show : show_inv s }.

(** ** Lemmas *)

Lemma seq_inv_init : seq_inv (seq_state_init n).
Proof.
  destruct init_law as [Hw Hs]. split; cbn [seq_state_init pm_cpu_buf published upc pm_seq].
  - unfold zero_snaps. by rewrite length_replicate.
  - by apply Forall_replicate.
  - apply Forall_singleton. by left.
  - by rewrite Hs.
  - split; [done|]. by apply list_elem_of_singleton.
  - by exists [].
Qed.

(** What the reader knows survives any step of the writer. *)
Lemma show_inv_update s s' :
  show_inv s → spc s' = spc s → out s' = out s → published s ⊆ published s' →
  sections (pm_seq s) < sections (pm_seq s')
  ∨ writing (pm_seq s) = true ∧ sections (pm_seq s') = sections (pm_seq s) →
  show_inv s'.
Proof.
  intros (torn & Ht & Hsh) Hp Ho Hpub Hs. exists torn. split; [done|]. rewrite Hp, Ho.
  assert (∀ seq acc u, pass_inv s seq acc u → pass_inv s' seq acc u) as Hpass.
  { intros seq acc u (l & Hb & Hle & Heq). exists l. split; [done|].
    destruct Hs as [Hlt|[Hw E]]; [split; [lia|intros; lia]|]. rewrite E. split; [done|].
    intros Hl. destruct (Heq Hl) as [? _]. congruence. }
  destruct (spc s); naive_solver.
Qed.

Lemma alter_range f k b :
  (∀ p, in_range p → in_range (f p)) → Forall in_range b → Forall in_range (alter f k b).
Proof. intros Hf Hb. apply Forall_alter; [done|]. auto. Qed.

Lemma update_fake_snoc inputs v w :
  pm_update_fake (inputs ++ [(v, w)]) = pm_update_fake inputs ++ [mk_snap (v mod 100) w].
Proof. unfold pm_update_fake. by rewrite fmap_app. Qed.

Lemma update_inv v s : seq_inv s → seq_inv (update_step v s).
Proof.
  intros [Hl Hr Hp Hn Hw Hsh]. unfold update_step, writer_inv in *. destruct (upc s) as [|k|k] eqn:Eu.
  - destruct Hw as [Hw Hb]. destruct (lock_law _ Hw) as [Hw' Hs'].
    split; cbn [pm_cpu_buf published upc pm_seq]; try done; [lia| |].
    + split; [done|]. split; [lia|]. by exists [].
    + eapply show_inv_update; [done..|]. left. cbn [pm_seq]. lia.
  - destruct Hw as (Hw & Hk & inputs & Hi & Ht). rewrite Hl. destruct (Nat.ltb_spec k n).
    + destruct (lookup_lt_is_Some_2 (pm_cpu_buf s) k) as [p Hkp]; [lia|].
      split; cbn [pm_cpu_buf published upc pm_seq]; try done.
      * by rewrite length_alter.
      * apply alter_range; [|done]. intros q _. unfold in_range. cbn [usage set_usage].
        apply Z.mod_pos_bound. lia.
      * unfold writer_inv. cbn [upc pm_seq pm_cpu_buf]. split; [done|]. split; [done|].
        exists inputs, v, (set_usage (v mod 100) p). split; [done|].
        split; [by rewrite take_alter_ge by done|]. by rewrite list_lookup_alter_eq, Hkp.
      * eapply show_inv_update; [done..|]. right. by split.
    + assert (k = n) as -> by lia. destruct (unlock_law _ Hw) as [Hw' Hs'].
      rewrite take_ge in Ht by lia.
      split; cbn [pm_cpu_buf published upc pm_seq]; try done.
      * apply Forall_app. split; [done|]. apply Forall_singleton. right. by exists inputs.
      * rewrite length_app, Hs'. cbn [length]. lia.
      * split; [done|]. cbn [published]. apply elem_of_app. right. by apply list_elem_of_singleton.
      * eapply show_inv_update; [done..| |]; cbn [published pm_seq]; [set_solver|]. right. by split.
  - destruct Hw as (Hw & Hk & inputs & w & p & Hi & Ht & Hkp & Hu).
    split; cbn [pm_cpu_buf published upc pm_seq]; try done.
    + by rewrite length_alter.
    + by apply alter_range.
    + unfold writer_inv. cbn [upc pm_seq pm_cpu_buf]. split; [done|]. split; [lia|].
      exists (inputs ++ [(w, v)]). split; [rewrite length_app; cbn; lia|].
      rewrite update_fake_snoc, <- Ht, <- Hu.
      rewrite (take_S_r _ _ (set_ts v p)) by by rewrite list_lookup_alter_eq, Hkp.
      by rewrite take_alter_ge by done.
    + eapply show_inv_update; [done..|]. right. by split.
Qed.

Lemma printed_app torn t : printed (torn ++ [t]) = printed torn ++ imap snap_line t.
Proof. unfold printed. rewrite bind_app. cbn. by rewrite app_nil_r. Qed.

(** Only the reader's part changes in its step. *)
Lemma show_inv_step s p o : seq_inv s → show_inv (set_show p o s) → seq_inv (set_show p o s).
Proof. intros [Hl Hr Hp Hn Hw _] Hsh. by split. Qed.

Lemma show_step_inv en iv s :
  (Z.of_nat (length (published s)) < 2 ^ 31)%Z → seq_inv s → seq_inv (show_step en iv s).
Proof.
  intros Hbound Hs. pose proof Hs as [Hl Hr _ Hn Hw (torn & Ht & Hsh)]. unfold show_step.
  destruct (spc s) as [|seq acc|seq acc u| |] eqn:Ep; [| | | |done].
  - destruct (read_seqbegin (pm_seq s)) as [seq|] eqn:Eb; [|done].
    apply show_inv_step; [done|]. exists torn. split; [done|]. cbn. rewrite app_nil_r, Hsh.
    split; [done|]. split; [lia|]. split; [done|]. exists (pm_seq s).
    split; [done|]. split; [done|]. intros _. split; [|by split].
    apply begin_law. by exists seq.
  - destruct Hsh as (Ho & Hla & Hra & l & Hb & Hle & Heq).
    destruct (pm_cpu_buf s !! length acc) as [p|] eqn:Ek.
    + apply show_inv_step; [done|]. exists torn. split; [done|]. cbn.
      pose proof (lookup_lt_Some _ _ _ Ek). split; [done|]. split; [lia|]. split; [done|].
      split; [by apply (Forall_lookup_1 _ _ _ _ Hr Ek)|]. exists l. split; [done|].
      split; [done|]. intros E. destruct (Heq E) as (H1 & H2 & _). split_and!; [done..|].
      intros v [= <-]. cbn. by rewrite Ek.
    + apply lookup_ge_None in Ek. assert (length acc = n) as Hacc by lia.
      destruct (read_seqretry (pm_seq s) seq) eqn:Er; apply show_inv_step; try done.
      * exists (torn ++ [acc]). split; [apply Forall_app; split; [done|]; by apply Forall_singleton|].
        cbn. by rewrite printed_app.
      * exists torn. split; [done|]. cbn. exists acc. split; [done|].
        assert (sections (pm_seq s) ≤ length (published s)) by (destruct (upc s); lia).
        destruct (proj1 (retry_law l (pm_seq s) seq Hb Hle ltac:(lia)) Er) as [E _].
        destruct (Heq (eq_sym E)) as (Hwr & Hacc' & _).
        unfold writer_inv in Hw. destruct (upc s); destruct Hw as [Hw1 Hw2]; [|congruence..].
        rewrite take_ge in Hacc' by lia. by rewrite <- Hacc'.
  - destruct Hsh as (Ho & Hla & Hra & Hu & l & Hb & Hle & Heq).
    destruct (lookup_lt_is_Some_2 (pm_cpu_buf s) (length acc)) as [p Ek]; [lia|]. rewrite Ek.
    apply show_inv_step; [done|]. exists torn. split; [done|]. cbn.
    rewrite length_app, imap_app. cbn [length imap]. rewrite Nat.add_0_r, Ho, <- app_assoc.
    split; [done|]. split; [lia|]. split; [apply Forall_app; split; [done|]; by apply Forall_singleton|].
    exists l. split; [done|]. split; [done|]. intros E. destruct (Heq E) as (H1 & H2 & H3).
    split; [done|]. split; [|done]. rewrite length_app, Nat.add_1_r.
    cbn [pm_cpu_buf set_show]. rewrite (take_S_r _ _ p) by done. rewrite H2. f_equal.
    specialize (H3 u eq_refl). rewrite Ek in H3. injection H3 as <-. by destruct p.
  - destruct Hsh as (b & Ho & Hb). apply show_inv_step; [done|]. exists torn. split; [done|].
    exists b, en, iv. cbn. by rewrite Ho, <- app_assoc.
Qed.

Lemma published_mono ls s : length (published s) ≤ length (published (seq_run ls s)).
Proof.
  revert s. induction ls as [|l ls IH]; intros s; [done|]. unfold seq_run in *. cbn [foldl].
  etransitivity; [|apply IH]. destruct l as [v|en iv]; cbn [seq_step].
  - unfold update_step. destruct (upc s); [done| |done]. destruct (_ <? _); [done|].
    cbn [published]. rewrite length_app. lia.
  - unfold show_step. by repeat case_match.
Qed.

Lemma seq_run_inv ls s :
  (Z.of_nat (length (published (seq_run ls s))) < 2 ^ 31)%Z → seq_inv s → seq_inv (seq_run ls s).
Proof.
  revert s. induction ls as [|l ls IH]; intros s Hb Hs; [done|].
  pose proof (published_mono (l :: ls) s). unfold seq_run in *. cbn [foldl] in *. apply IH; [done|].
  destruct l as [v|en iv]; cbn [seq_step]; [by apply update_inv|]. apply show_step_inv; [lia|done].
Qed.

(** *** The reader alone

    With no write section open a pass of the reader that started after the last one is its
    last; [steps_to_end s m] bounds the steps that it still needs. *)
Definition cost (p : show_pc) : nat :=
  match p with
  | SEnd => 0
  | SState => 1
  | STs _ acc _ => 2 * (n - length acc) + 1
  | SUsage _ acc => 2 * (n - length acc) + 2
  | SBegin => 2 * n + 3
  end.

Definition fresh (s : seq_state L) : Prop :=
  match spc s with
  | SUsage seq _ | STs seq _ _ =>
    ∃ l, read_seqbegin l = Some seq ∧ sections l = sections (pm_seq s)
  | _ => True
  end.

Definition steps_to_end (s : seq_state L) (m : nat) : Prop :=
  (fresh s ∧ cost (spc s) ≤ m) ∨ cost (spc s) + 2 * n + 3 ≤ m.

Lemma show_step_to_end en iv s m :
  seq_inv s → upc s = UOut → steps_to_end s (S m) → steps_to_end (show_step en iv s) m.
Proof.
  intros Hs Hu Hm. pose proof Hs as [Hl _ _ _ Hw (torn & _ & Hsh)]. unfold writer_inv in Hw.
  rewrite Hu in Hw. destruct Hw as [Hw _]. unfold steps_to_end, fresh, show_step in *.
  destruct (spc s) as [|seq acc|seq acc u| |] eqn:Ep; cbn [cost] in Hm.
  - destruct (proj2 (begin_law (pm_seq s)) Hw) as [seq Eb]. rewrite Eb. cbn [spc set_show pm_seq cost].
    left. split; [by exists (pm_seq s)|]. cbn [length]. lia.
  - destruct (pm_cpu_buf s !! length acc) as [p|] eqn:Ek; cbn [spc set_show pm_seq cost].
    + apply lookup_lt_Some in Ek. destruct Hm as [[Hf Hm]|Hm]; [left; split; [done|lia]|right; lia].
    + destruct (read_seqretry (pm_seq s) seq) eqn:Er; cbn [spc set_show cost].
      * destruct Hm as [[(l & Hb & E) Hm]|Hm]; [|left; split; [done|lia]].
        rewrite (proj2 (retry_law l (pm_seq s) seq Hb ltac:(lia) ltac:(lia))) in Er; [done|].
        by rewrite E.
      * left. split; [done|]. lia.
  - destruct Hsh as (_ & Hla & _).
    destruct (lookup_lt_is_Some_2 (pm_cpu_buf s) (length acc)) as [p Ek]; [lia|]. rewrite Ek.
    cbn [spc set_show pm_seq cost]. rewrite length_app. cbn [length].
    destruct Hm as [[Hf Hm]|Hm]; [left; split; [done|lia]|right; lia].
  - left. cbn. split; [done|lia].
  - left. rewrite Ep. cbn. split; [done|lia].
Qed.

Lemma shows_end evs s m :
  seq_inv s → upc s = UOut → (Z.of_nat (length (published s)) < 2 ^ 31)%Z →
  steps_to_end s m → m ≤ length evs →
  spc (seq_run ((λ e, Show e.1 e.2) <$> evs) s) = SEnd.
Proof.
  revert s m. induction evs as [|[en iv] evs IH]; intros s m Hs Hu Hb Hm Hle; unfold seq_run in *.
  - cbn [fmap list_fmap foldl]. unfold steps_to_end in Hm. cbn [length] in Hle.
    destruct (spc s); cbn [cost] in Hm; [exfalso|exfalso|exfalso|exfalso|done]; destruct Hm as [[_ ?]|?]; lia.
  - cbn [fmap list_fmap foldl seq_step fst snd length] in *.
    assert (upc (show_step en iv s) = UOut ∧ published (show_step en iv s) = published s) as [Hu' Hp'].
    { unfold show_step. repeat case_match; by split. }
    apply (IH _ (pred m)); [by apply show_step_inv|done|by rewrite Hp'| |lia].
    apply show_step_to_end; [done..|]. destruct m; [|done]. unfold steps_to_end in *. cbn.
    destruct Hm as [[? ?]|?]; [left; split; [done|lia]|lia].
Qed.
End invariant.

(** ** Properties *)

(** C20: the status file is consistent. However the stores of the sampler and the loads of a
    reader interleave, with fewer than 2^31 updates in all, a reader that has finished has
    printed passes that may mix updates, then one that is exactly the samples of one update,
    or those of the start, then the state: what [stat_show] prints for these passes; every
    usage printed is below 100; and whenever no update is in progress the reader finishes
    within 4n + 6 of its own steps. *)
Theorem status_is_consistent {L : Type} {HS : SeqLock L} {HL : SeqLockLaws L} (n : nat)
    (ls : list seq_label) :
  let s := seq_run ls (seq_state_init n) : seq_state L in
  (Z.of_nat (length (published s)) < 2 ^ 31)%Z →
  (spc s = SEnd → ∃ torn b enabled interval,
     Kernel.stat_show (((λ t, (t, true)) <$> torn) ++ [(b, false)]) enabled interval = Some (out s)
     ∧ Forall (pass n) (torn ++ [b]) ∧ b ∈ published s ∧ snapshot n b)
  ∧ (upc s = UOut → ∀ evs, 4 * n + 6 ≤ length evs →
       spc (seq_run ((λ e, Show e.1 e.2) <$> evs) s) = SEnd).
Proof.
  intros s Hb. pose proof (seq_run_inv n ls _ Hb (seq_inv_init n)) as Hs. fold s in Hs. split.
  - intros He. pose proof Hs as [_ _ Hp _ _ (torn & Ht & Hsh)]. rewrite He in Hsh.
    destruct Hsh as (b & en & iv & Ho & Hin). exists torn, b, en, iv. split; [|split; [|split]].
    + rewrite Ho. destruct (stat_prints_every_pass torn b en iv) as (o & E & -> & _). rewrite E. by unfold printed.
    + apply Forall_app. split; [done|]. apply Forall_singleton.
      rewrite Forall_forall in Hp. destruct (Hp b Hin) as [->|(inputs & Hi & ->)].
      * split; [by unfold zero_snaps; rewrite length_replicate|]. by apply Forall_replicate.
      * split; [unfold pm_update_fake; by rewrite length_fmap|].
        apply Forall_fmap, Forall_forall. intros p _. apply Z.mod_pos_bound. lia.
    + done.
    + rewrite Forall_forall in Hp. by apply Hp.
  - intros Hu evs Hle. apply (shows_end n evs s (4 * n + 6)); try done.
    right. destruct (spc s); cbn [cost]; lia.
Qed.

Lemma status_is_consistent_witness :
  let s := seq_run [Show 1 500; Show 1 500; Update 0; Update 142; Update 7; Show 1 500; Update 0;
                    Show 1 500; Show 1 500; Show 1 500; Show 1 500; Show 1 500; Show 1 500]
             (seq_state_init 1) : seq_state nat in
  spc s = SEnd ∧ out s = [snap_line 0 (mk_snap 0 7); snap_line 0 (mk_snap 42 7); state_line 1 500]
  ∧ ∃ torn b enabled interval,
     Kernel.stat_show (((λ t, (t, true)) <$> torn) ++ [(b, false)]) enabled interval = Some (out s)
     ∧ b ∈ published s ∧ snapshot 1 b.
Proof.
  intros s. assert (spc s = SEnd) as He by (vm_compute; reflexivity). split; [exact He|].
  split; [vm_compute; reflexivity|].
  destruct (status_is_consistent (L := nat) 1
    [Show 1 500; Show 1 500; Update 0; Update 142; Update 7; Show 1 500; Update 0;
     Show 1 500; Show 1 500; Show 1 500; Show 1 500; Show 1 500; Show 1 500]) as [H _].
  - apply Z.ltb_lt. vm_compute. reflexivity.
  - destruct (H He) as (torn & b & en & iv & E & _ & Hb & Hs).
    exists torn, b, en, iv. split; [exact E|]. split; [exact Hb|exact Hs].
Defined.
