(* ===== verification/KernelSystem.v ===== *)
(** * KernelSystem: the kernel module as one system

    kernel/my_driver: the work item, the writers of the config file and the module's exit of
    Kernel.v with the sampler and the reader of the status file of KernelSeq.v.  Where Kernel.v
    has the call of [pm_update_fake] as one step, the work item makes the stores of KernelSeq.v
    here, one by one; the reader prints the flag and the interval that the module then has. *)
From stdpp Require Import prelude strings list.
From Stdlib Require Import Ascii ZArith Lia.
From S2P Require Import Prelude CString Kernel KernelSeq.

Section system.
Context {L : Type} {HS : SeqLock L}.

(** [reading]: a reader is inside [stat_show]. *)
Record module_state := mk_module { kn : kern; sq : seq_state L; reading : bool }.

(** A step of Kernel.v, an access of [pm_update_fake] with the random word or the time that it
    gets, [stat_open], or an access of [stat_show]. *)
Inductive mlabel := Kern (l : label) | Sample (v : Z) | Open | Read.

Definition module_init (w n : nat) : module_state := mk_module (kern_init w) (seq_state_init n) false.

Definition set_kern (r : res kern) (s : module_state) : res module_state :=
  match r with
  | Done k => Done (mk_module k (sq s) (reading s))
  | Undef => Undef
  | NoFuel => NoFuel
  end.

Definition int_of_bool (b : bool) : Z := if b then 1 else 0.

(** [stat_open]: the reader starts with an empty buffer. *)
Definition stat_open_step (q : seq_state L) : seq_state L := set_show SBegin [] q.

Definition mstep (l : mlabel) (s : module_state) : option (res module_state) :=
  match l with
  | Kern l =>
    match l, tick (kn s) with
    | Tick, TUpdate => None                     (* the accesses of [pm_update_fake] instead *)
    | ExitRemove, _ =>                          (* procfs waits for the reader, too *)
      if reading s then None else r ← kstep l (kn s); Some (set_kern r s)
    | _, _ => r ← kstep l (kn s); Some (set_kern r s)
    end
  | Sample v =>
    match tick (kn s) with
    | TUpdate =>
      let s := mk_module (kn s) (update_step v (sq s)) (reading s) in
      match upc (sq s) with
      | UOut => r ← kstep Tick (kn s); Some (set_kern r s)
      | _ => Some (Done s)
      end
    | _ => None
    end
  | Open =>
    if proc_files (kn s) && negb (reading s)
    then Some (Done (mk_module (kn s) (stat_open_step (sq s)) true)) else None
  | Read =>
    if reading s then
      let q := show_step (int_of_bool (pm_enabled (kn s))) (pm_interval_ms (kn s)) (sq s) in
      Some (Done (mk_module (kn s) q (match spc q with SEnd => false | _ => true end)))
    else None
  end.

Inductive msteps : module_state → list mlabel → res module_state → Prop :=
  | msteps_nil s : msteps s [] (Done s)
  | msteps_undef s l ls : mstep l s = Some Undef → msteps s (l :: ls) Undef
  | msteps_cons s l s' ls r : mstep l s = Some (Done s') → msteps s' ls r → msteps s (l :: ls) r.
End system.

Arguments module_state : clear implicits.

(** The commands of one writer only. *)
Definition one_writer (l : mlabel) : bool := match l with Kern l => single_writer l | _ => true end.

(** ** Lemmas *)

Section lemmas.
Context {L : Type} {HS : SeqLock L} {HL : SeqLockLaws L} (w n : nat).
Implicit Types s : module_state L.

Definition few (q : seq_state L) : Prop := (Z.of_nat (length (published q)) < 2 ^ 31)%Z.

(** [kls]: the steps of Kernel.v so far. *)
Record minv (kls : list label) s : Prop := {
  minv_kern : steps (kern_init w) kls (Done (kn s));
  minv_single : forallb single_writer kls = true;
  minv_seq : few (sq s) → seq_inv n (sq s);
  minv_idle : upc (sq s) = UOut ∨ tick (kn s) = TUpdate;
  minv_last : upc (sq s) = UOut → last (published (sq s)) = Some (pm_cpu_buf (sq s));
  minv_count : length (published (sq s)) = S (updates (kn s)) }.

(** No step of Kernel.v but the one of [pm_update_fake] counts an update or ends that call. *)
Lemma kstep_updates l k k' :
  kstep l k = Some (Done k') → (l = Tick → tick k ≠ TUpdate) →
  updates k' = updates k ∧ (tick k = TUpdate → tick k' = TUpdate).
Proof.
  intros E Hl. destruct l as [i c|i| | | |]; cbn in E;
    repeat (case_match; simplify_eq/=); unfold schedule_delayed_work;
    repeat (case_match; simplify_eq/=); try by split. all: by destruct (Hl eq_refl).
Qed.

Lemma step_kernel kls s l k :
  minv kls s → kstep l (kn s) = Some (Done k) → (l = Tick → tick (kn s) ≠ TUpdate) →
  single_writer l = true → minv (kls ++ [l]) (mk_module k (sq s) (reading s)).
Proof.
  intros [H1 H2 H3 H4 H5 H6] E Hl Hs. destruct (kstep_updates _ _ _ E Hl) as [Hu Ht].
  split; cbn [kn sq]; try done.
  - eapply steps_app; [exact H1|]. eapply steps_cons; [exact E|apply steps_nil].
  - rewrite forallb_app, H2. cbn. by rewrite Hs.
  - destruct H4; [by left|right; auto].
  - by rewrite Hu.
Qed.

Lemma update_published v (q : seq_state L) :
  published (update_step v q) = published q ++
    (match upc q with UUsage cpu => if cpu <? length (pm_cpu_buf q) then [] else [pm_cpu_buf q] | _ => [] end)
  ∧ (upc (update_step v q) = UOut ↔ ∃ cpu, upc q = UUsage cpu ∧ length (pm_cpu_buf q) ≤ cpu).
Proof.
  unfold update_step. destruct (upc q) as [|cpu|cpu]; cbn [published upc]; rewrite ?app_nil_r.
  - split; [done|]. split; [done|]. by intros (? & ? & _).
  - destruct (Nat.ltb_spec cpu (length (pm_cpu_buf q))); cbn [published upc]; rewrite ?app_nil_r.
    + split; [done|]. split; [done|]. intros (c & [= <-] & ?). lia.
    + split; [done|]. split; [|done]. intros _. by exists cpu.
  - split; [done|]. split; [done|]. by intros (? & ? & _).
Qed.

Lemma step_sample kls s v :
  minv kls s → tick (kn s) = TUpdate →
  ∃ s' kls', mstep (Sample v) s = Some (Done s') ∧ minv (kls ++ kls') s'.
Proof.
  intros [H1 H2 H3 H4 H5 H6] Ht. cbn [mstep]. rewrite Ht. cbv zeta. cbn [sq kn].
  destruct (update_published v (sq s)) as [Hp Hu].
  assert (few (update_step v (sq s)) → seq_inv n (update_step v (sq s))) as H3'.
  { unfold few. rewrite Hp, length_app. intros Hf. apply update_inv, H3. unfold few. lia. }
  assert (upc (update_step v (sq s)) ≠ UOut →
    minv (kls ++ []) (mk_module (kn s) (update_step v (sq s)) (reading s))) as Hmid.
  { rewrite app_nil_r. intros Hne. split; cbn [kn sq]; try done; [by right|].
    rewrite Hp. destruct (upc (sq s)) as [|c|c] eqn:Ec; rewrite ?app_nil_r; try done.
    destruct (Nat.ltb_spec c (length (pm_cpu_buf (sq s)))); [by rewrite app_nil_r|].
    exfalso. apply Hne, Hu. by exists c. }
  destruct (upc (update_step v (sq s))) eqn:Eu; [|by eexists _, []; split; [|apply Hmid]..].
  destruct (proj1 Hu eq_refl) as (cpu & Ec & Hc). rewrite Ec in Hp.
  destruct (Nat.ltb_spec cpu (length (pm_cpu_buf (sq s)))); [lia|].
  assert (pm_cpu_buf (update_step v (sq s)) = pm_cpu_buf (sq s)) as Eb.
  { unfold update_step. rewrite Ec. destruct (Nat.ltb_spec cpu (length (pm_cpu_buf (sq s)))); [lia|done]. }
  assert (kstep Tick (kn s)
    = Some (Done (count_update (set_work (pending (kn s)) (canceling (kn s)) TArm (kn s))))) as Ek
    by (cbn; by rewrite Ht).
  rewrite Ek. cbn [mbind option_bind set_kern]. eexists _, [Tick]. split; [done|].
  split; cbn [kn sq]; try done.
  - eapply steps_app; [exact H1|]. eapply steps_cons; [exact Ek|apply steps_nil].
  - by rewrite forallb_app, H2.
  - by left.
  - intros _. by rewrite Hp, last_snoc, Eb.
  - rewrite Hp, length_app, H6. cbn. lia.
Qed.

Lemma minv_init : minv [] (module_init w n).
Proof.
  split; cbn [module_init kn sq]; try done.
  - apply steps_nil.
  - intros _. apply seq_inv_init.
  - by left.
Qed.

(** Steps of the reader leave the samples and the work item alone. *)
Lemma step_reader kls s q rd :
  minv kls s → upc q = upc (sq s) → published q = published (sq s) →
  pm_cpu_buf q = pm_cpu_buf (sq s) → (few (sq s) → seq_inv n (sq s) → seq_inv n q) →
  minv kls (mk_module (kn s) q rd).
Proof.
  intros [H1 H2 H3 H4 H5 H6] Eu Ep Eb Hq. split; cbn [kn sq]; rewrite ?Eu, ?Ep, ?Eb; try done.
  unfold few. rewrite Ep. intros Hf. by apply Hq, H3.
Qed.

Lemma mstep_inv kls s l r :
  minv kls s → 0 < w → one_writer l = true → mstep l s = Some r →
  ∃ s' kls', r = Done s' ∧ minv (kls ++ kls') s'.
Proof.
  intros Hs Hw Hl E. destruct l as [l|v| |]; cbn [one_writer] in Hl.
  - destruct (steps_inv kls (kern_init w) (Done (kn s))) as (k0 & [= <-] & Hk);
      [by apply kinv_init|apply Hs|apply Hs|]. pose proof (kstep_inv l (kn s) Hk Hl) as Hstep.
    assert ((l = Tick → tick (kn s) ≠ TUpdate) ∧ ∃ k, kstep l (kn s) = Some k ∧ r = set_kern k s)
      as (Ht & k & Ek & ->).
    { destruct l; try done; cbn [mstep] in E;
        try (destruct (kstep _ _) as [k|] eqn:Ek; [|done]; injection E as <-; split; [done|by exists k]).
      destruct (tick (kn s)) eqn:Et; try done;
        (destruct (kstep _ _) as [k|] eqn:Ek; [|done]; injection E as <-; split; [done|by exists k]). }
    rewrite Ek in Hstep. destruct k as [k| |]; [|done..]. cbn [set_kern].
    eexists _, [l]. split; [done|]. by apply step_kernel.
  - assert (tick (kn s) = TUpdate) as Ht by (cbn [mstep] in E; by destruct (tick (kn s))).
    destruct (step_sample kls s v Hs Ht) as (s' & kls' & E' & H'). exists s', kls'. split; [congruence|done].
  - cbn [mstep] in E. destruct (_ && _); [|done]. injection E as <-. eexists _, []. rewrite app_nil_r.
    split; [done|]. apply step_reader; try done. intros _ Hq. apply show_inv_step; [done|]. by exists [].
  - cbn [mstep] in E. destruct (reading s); [|done]. injection E as <-. eexists _, []. rewrite app_nil_r.
    split; [done|]. assert (∀ en iv, let q := show_step en iv (sq s) in upc q = upc (sq s)
      ∧ published q = published (sq s) ∧ pm_cpu_buf q = pm_cpu_buf (sq s)) as Hshow
      by (intros en iv; unfold show_step; repeat case_match; done).
    destruct (Hshow (int_of_bool (pm_enabled (kn s))) (pm_interval_ms (kn s))) as (? & ? & ?).
    apply step_reader; try done. intros Hf. by apply show_step_inv.
Qed.

Lemma msteps_inv kls s ls r :
  minv kls s → 0 < w → forallb one_writer ls = true → msteps s ls r →
  ∃ s' kls', r = Done s' ∧ minv kls' s'.
Proof.
  intros Hs Hw Hls H. revert kls Hs Hls. induction H as [s|s l ls E|s l s' ls r E _ IH]; intros kls Hs Hls.
  - by exists s, kls.
  - cbn [forallb] in Hls. apply andb_prop in Hls as [Hl _].
    by destruct (mstep_inv kls s l Undef Hs Hw Hl E) as (? & ? & ? & _).
  - cbn [forallb] in Hls. apply andb_prop in Hls as [Hl Hls].
    destruct (mstep_inv kls s l _ Hs Hw Hl E) as (s1 & kls1 & [= <-] & H1). by eapply IH.
Qed.

Lemma steps_files ls k r :
  proc_files k = true → forallb single_writer ls = true → steps k ls (Done r) → proc_files r = true.
Proof.
  intros Hk Hls Hs. remember (Done r) as o eqn:Eo. revert Hk Hls Eo.
  induction Hs as [k|k l ls E|k l k' ls r' E Hs IH]; intros Hk Hls Eo; simplify_eq; [done|].
  cbn [forallb] in Hls. apply andb_prop in Hls as [Hl Hls]. apply IH; [|done..]. clear IH Hs Hls.
  destruct l as [i c|i| | | |]; try done; cbn in E; repeat (case_match; simplify_eq/=; try done);
    unfold schedule_delayed_work; repeat (case_match; simplify_eq/=; try done).
Qed.

(** A reader that no store disturbs, from any CPU on. *)
Lemma reads_rest k (q : seq_state L) seq d acc o :
  read_seqbegin (pm_seq q) = Some seq → take (length acc) (pm_cpu_buf q) = acc →
  length acc + d = length (pm_cpu_buf q) →
  msteps (mk_module k (set_show (SUsage seq acc) o q) true) (replicate (2 * d + 2) Read)
    (Done (mk_module k (set_show SEnd (o
       ++ imap (λ i, snap_line (length acc + i)) (drop (length acc) (pm_cpu_buf q))
       ++ [state_line (int_of_bool (pm_enabled k)) (pm_interval_ms k)]) q) false)).
Proof.
  intros Hb. revert acc o. induction d as [|d IH]; intros acc o Ha Hd.
  - assert (read_seqretry (pm_seq q) seq = false) as Hr.
    { apply (retry_law (pm_seq q)); [done|lia|lia|]. split; [done|]. apply begin_law. by exists seq. }
    rewrite drop_ge by lia. cbn [imap app]. eapply msteps_cons; [|eapply msteps_cons; [|apply msteps_nil]].
    + cbn. unfold show_step. cbn [spc set_show pm_cpu_buf]. rewrite lookup_ge_None_2 by lia.
      cbn [pm_seq set_show]. by rewrite Hr.
    + reflexivity.
  - destruct (lookup_lt_is_Some_2 (pm_cpu_buf q) (length acc)) as [p Hp]; [lia|].
    replace (2 * S d + 2) with (S (S (2 * d + 2))) by lia. cbn [replicate].
    eapply msteps_cons; [|eapply msteps_cons].
    + cbn [mstep reading]. unfold show_step. cbn [sq spc set_show pm_cpu_buf]. rewrite Hp. reflexivity.
    + cbn [mstep reading kn sq]. unfold show_step. cbn [sq spc set_show pm_cpu_buf out]. rewrite Hp.
      reflexivity.
    + replace (mk_snap (usage p) (ts p)) with p by by destruct p.
      assert (length (acc ++ [p]) = S (length acc)) as El by (rewrite length_app; cbn; lia).
      pose proof (IH (acc ++ [p]) (o ++ [snap_line (length acc) p])) as H. rewrite El in H.
      rewrite (drop_S _ p) by done. cbn [imap].
      replace (imap ((λ i, snap_line (length acc + i)) ∘ S) (drop (S (length acc)) (pm_cpu_buf q)))
        with (imap (λ i, snap_line (S (length acc) + i)) (drop (S (length acc)) (pm_cpu_buf q)))
        by (apply imap_ext; intros; cbn; by rewrite Nat.add_succ_r).
      rewrite Nat.add_0_r. rewrite <- app_assoc in H. cbn [app] in H. apply H; [|lia].
      rewrite (take_S_r _ _ p) by done. by rewrite Ha.
Qed.

(** The status file read while no update is in progress. *)
Lemma reads_quiet s :
  proc_files (kn s) = true → reading s = false → writing (pm_seq (sq s)) = false →
  msteps s (Open :: replicate (2 * length (pm_cpu_buf (sq s)) + 3) Read)
    (Done (mk_module (kn s) (set_show SEnd (imap snap_line (pm_cpu_buf (sq s))
       ++ [state_line (int_of_bool (pm_enabled (kn s))) (pm_interval_ms (kn s))]) (sq s)) false)).
Proof.
  intros Hf Hr Hw. destruct (proj2 (begin_law (pm_seq (sq s))) Hw) as [seq Hb].
  eapply msteps_cons; [cbn; by rewrite Hf, Hr|].
  replace (2 * length (pm_cpu_buf (sq s)) + 3) with (S (2 * length (pm_cpu_buf (sq s)) + 2)) by lia.
  cbn [replicate]. eapply msteps_cons.
  - cbn [mstep reading kn sq]. unfold show_step, stat_open_step.
    cbn [spc set_show pm_seq out]. rewrite Hb. reflexivity.
  - exact (reads_rest (kn s) (sq s) seq (length (pm_cpu_buf (sq s))) [] [] Hb eq_refl eq_refl).
Qed.
End lemmas.

(** ** Properties *)

(** C21: the module as a whole. However the work item's stores, one writer's commands, and the
    opens and loads of readers interleave, nothing undefined happens; the work item and the
    writer take steps of Kernel.v, and every update that the work item has made has been
    published once, each with samples of one call (as long as there are fewer than 2^31).
    When the writer is outside its commands and the sampler is off, no update is in progress,
    and a reader that opens the status file then reads, in 2n + 3 accesses, exactly the
    samples of the last update, then the flag cleared and the interval. *)
Theorem module_status_after_stop {L : Type} {HS : SeqLock L} {HL : SeqLockLaws L} (w n : nat)
    (ls : list mlabel) (r : res (module_state L)) :
  0 < w → forallb one_writer ls = true → msteps (module_init w n) ls r →
  ∃ s, r = Done s
    ∧ (∃ kls, forallb single_writer kls = true ∧ steps (kern_init w) kls (Done (kn s)))
    ∧ length (published (sq s)) = S (updates (kn s))
    ∧ (few (sq s) → Forall (snapshot n) (published (sq s))
       ∧ (writers (kn s) !! 0 = Some WIdle → pm_enabled (kn s) = false → reading s = false →
          ∃ b s', last (published (sq s)) = Some b
            ∧ msteps s (Open :: replicate (2 * n + 3) Read) (Done s') ∧ reading s' = false
            ∧ out (sq s') = imap snap_line b ++ [state_line 0 (pm_interval_ms (kn s))])).
Proof.
  intros Hw Hls H. destruct (msteps_inv w n [] _ ls r (minv_init w n) Hw Hls H) as (s & kls & -> & Hs).
  exists s. destruct Hs as [H1 H2 H3 H4 H5 H6]. split; [done|]. split; [by exists kls|].
  split; [exact H6|]. intros Hf. destruct (H3 Hf) as [Hl _ Hp _ Hwr _]. split; [exact Hp|].
  intros Hi He Hr. destruct (steps_inv kls _ _ (kinv_init w Hw) H2 H1) as (k & [= <-] & [_ Hk]).
  rewrite Hi, He in Hk. destruct Hk as (_ & _ & Ht).
  destruct H4 as [Hu|Hu]; [|congruence]. unfold writer_inv in Hwr. rewrite Hu in Hwr.
  pose proof (reads_quiet s (steps_files kls (kern_init w) _ eq_refl H2 H1) Hr (proj1 Hwr)) as Hq. rewrite Hl, He in Hq.
  eexists _, _. split; [by apply H5|]. split; [exact Hq|]. by split.
Qed.

Lemma module_status_after_stop_witness :
  let ls := [Kern (Enter 0 (Start (Some 20%Z))); Kern (Writer 0); Kern (Writer 0);
    Kern TickStart; Kern Tick; Sample 0; Sample 142; Sample 7; Kern (Enter 0 Stop); Sample 0;
    Kern (Writer 0); Kern Tick; Kern (Writer 0)] in
  ∃ (s s' : module_state nat), msteps (module_init 1 1) ls (Done s)
    ∧ msteps s [Open; Read; Read; Read; Read; Read] (Done s')
    ∧ out (sq s') = [snap_line 0 (mk_snap 42 7); state_line 0 20].
Proof.
  intros ls.
  assert (∃ s : module_state nat, msteps (module_init 1 1) ls (Done s)
    ∧ writers (kn s) !! 0 = Some WIdle ∧ pm_enabled (kn s) = false ∧ reading s = false
    ∧ pm_interval_ms (kn s) = 20%Z ∧ last (published (sq s)) = Some [mk_snap 42 7]
    ∧ length (published (sq s)) = 2) as (s & Hs & Hw & He & Hr & Hi & Hl & Hn).
  { eexists. split; [repeat (eapply msteps_cons; [vm_compute; reflexivity|]); apply msteps_nil|].
    split_and!; reflexivity. }
  destruct (module_status_after_stop 1 1 ls (Done s) ltac:(lia) eq_refl Hs) as (s1 & E & _ & _ & H).
  injection E as <-. destruct H as [_ H]; [unfold few; rewrite Hn; lia|].
  destruct (H Hw He Hr) as (b & s' & Hb & Hm & _ & Ho). exists s, s'. split; [exact Hs|].
  split; [exact Hm|]. rewrite Hl in Hb. injection Hb as <-. rewrite Hi in Ho. exact Ho.
Defined.
