(* ===== verification/KSelf.v ===== *)
(** * KSelf: the self-tests of kernel/my_driver (selftests/pm_kself.c, pm_kself_data.c)

    [pm_kself] starts the sampler through /proc/pm_drv/config and reads the status file again
    and again; [pm_kself_data] looks for samples under /proc/pm/cpu.  The state is the list of
    the system calls made, each with its result; what the system answers to a call, and the
    value of [errno], may depend on all the calls before it. *)
From stdpp Require Import prelude strings list.
From Stdlib Require Import Ascii ZArith Lia.
From S2P Require Import Prelude History CString Breaker ProcfsIo Kernel.

Inductive scall :=
  | COpen (path : bytes)
  | CWrite (fd : Z) (data : bytes)
  | CRead (fd : Z) (size : nat)
  | CClose (fd : Z)
  | CPerror (msg : bytes).

#[export] Instance scall_eq_dec : EqDecision scall.
Proof. solve_decision. Defined.

Abbreviation trace := (list (scall * Z)).

Definition EINTR : Z := 4.
Definition EAGAIN : Z := 11.

(** The paths of the test programs. *)
Definition CONFIG : bytes := lit "/proc/pm_drv/config".
Definition STATUS : bytes := lit "/proc/pm_drv/status".
Definition CPU_CONFIG : bytes := lit "/proc/pm/cpu/config".
Definition CPU_DATA : bytes := lit "/proc/pm/cpu/data".

(** The bounds of the two loops. *)
Definition READS : nat := Z.to_nat 10000.
Definition RACES : nat := Z.to_nat 1000.

Definition START : bytes := lit "1" ++ [LF].

Section programs.
(** The result of a call and [errno] after it. *)
Context (answer : trace → scall → Z * Z).

Definition sys (c : scall) : mon trace (Z * Z) := λ t,
  let r := answer t c in Done (r, t ++ [(c, r.1)]).

Fixpoint write_all (fuel : nat) (fd : Z) (buf : bytes) : mon trace Z :=
  match fuel with
  | O => no_fuel
  | S fuel =>
    match buf with
    | [] => mret 0%Z
    | _ =>
      w ← sys (CWrite fd buf);
      if (w.1 <? 0)%Z then
        if (w.2 =? EINTR)%Z then write_all fuel fd buf
        else sys (CPerror (lit "write"));; mret (-1)%Z
      else write_all fuel fd (drop (Z.to_nat w.1) buf)
    end
  end.

(** [n] turns of the loop. *)
Fixpoint burst_loop (n : nat) (path : bytes) : mon trace Z :=
  match n with
  | O => mret 0%Z
  | S n =>
    fd ← sys (COpen path);
    if (fd.1 <? 0)%Z then sys (CPerror (lit "open status"));; mret (-1)%Z
    else
      r ← sys (CRead fd.1 4096);
      if (r.1 <? 0)%Z && negb (r.2 =? EAGAIN)%Z then
        sys (CPerror (lit "read status"));; sys (CClose fd.1);; mret (-1)%Z
      else sys (CClose fd.1);; burst_loop n path
  end.

Definition burst_read : bytes → mon trace Z := burst_loop READS.

(** Open, start, close: the part that [main] has twice. *)
Definition start_once (fuel : nat) (msg : bytes) : mon trace bool :=
  fd ← sys (COpen CONFIG);
  if (fd.1 <? 0)%Z then sys (CPerror msg);; mret false
  else
    r ← write_all fuel fd.1 START;
    sys (CClose fd.1);; mret (r =? 0)%Z.

(** [n] turns of the race; the result of [main]. *)
Fixpoint race_loop (fuel n : nat) : mon trace Z :=
  match n with
  | O => mret 0%Z
  | S n =>
    ok ← start_once fuel (lit "open config (race)");
    if negb ok then mret 3%Z
    else
      r ← burst_read STATUS;
      if negb (r =? 0)%Z then mret 3%Z else race_loop fuel n
  end.

Definition kself_main (fuel : nat) : mon trace Z :=
  ok ← start_once fuel (lit "open config");
  if negb ok then mret 1%Z
  else
    r ← burst_read STATUS;
    if negb (r =? 0)%Z then sys (CPerror (lit "burst_read failed"));; mret 2%Z
    else race_loop fuel RACES.
End programs.

(** [pm_kself_data]: which files exist decides whether it opens them, [data] is what a read
    delivers.  [None]: an assertion has failed. *)
Definition kself_data_main (exists_ : bytes → bool) (write_ok : bool) (data : bytes) : option Z :=
  if negb (exists_ CPU_CONFIG) then None
  else if negb write_ok then None
  else if negb (exists_ CPU_DATA) then None
  else
    let buf := take 4095 data in
    match buf with
    | [] => None
    | _ =>
      let s := cstr buf in
      match strstr s (lit "cpu.usage"), strstr s (lit "ts_ns") with
      | Some _, Some _ => Some 0%Z
      | _, _ => None
      end
    end.

(** The files that the module makes. *)
Definition module_files (root : option (list bytes)) : list bytes :=
  match root with
  | Some names => (λ f, lit "/proc/pm_drv/" ++ f) <$> names
  | None => []
  end.

(** ** Accounts of a list of calls *)

Definition opened (t : trace) : list Z :=
  omap (λ c, match c.1 with COpen _ => if (c.2 <? 0)%Z then None else Some c.2 | _ => None end) t.
Definition closed (t : trace) : list Z :=
  omap (λ c, match c.1 with CClose fd => Some fd | _ => None end) t.

(** The calls of [write_all] that pass all of [buf] to [fd], interruptions included, and those
    that end in a failure and its message. *)
Inductive writes (fd : Z) : bytes → trace → Prop :=
  | writes_all : writes fd [] []
  | writes_some buf w u :
      (0 < w ≤ Z.of_nat (length buf))%Z → writes fd (drop (Z.to_nat w) buf) u →
      writes fd buf ((CWrite fd buf, w) :: u)
  | writes_interrupted buf w u :
      buf ≠ [] → (w < 0)%Z → writes fd buf u → writes fd buf ((CWrite fd buf, w) :: u).

Inductive fails_write (fd : Z) : bytes → trace → Prop :=
  | fails_now buf w z :
      buf ≠ [] → (w < 0)%Z → fails_write fd buf [(CWrite fd buf, w); (CPerror (lit "write"), z)]
  | fails_later buf w u :
      (0 < w ≤ Z.of_nat (length buf))%Z → fails_write fd (drop (Z.to_nat w) buf) u →
      fails_write fd buf ((CWrite fd buf, w) :: u)
  | fails_interrupted buf w u :
      buf ≠ [] → (w < 0)%Z → fails_write fd buf u → fails_write fd buf ((CWrite fd buf, w) :: u).

(** One start of the sampler: the file is opened, the command written whole, the file closed. *)
Definition a_start (u : trace) : Prop :=
  ∃ fd v z, (0 ≤ fd)%Z ∧ writes fd START v ∧ u = (COpen CONFIG, fd) :: v ++ [(CClose fd, z)].

Definition failed_start (msg : bytes) (u : trace) : Prop :=
  (∃ fd z, (fd < 0)%Z ∧ u = [(COpen CONFIG, fd); (CPerror msg, z)])
  ∨ ∃ fd v z, (0 ≤ fd)%Z ∧ fails_write fd START v ∧ u = (COpen CONFIG, fd) :: v ++ [(CClose fd, z)].

(** One turn of [burst_read]: open, read of 4096 bytes, close. *)
Definition a_read (u : trace) : Prop :=
  ∃ fd r z, (0 ≤ fd)%Z ∧ u = [(COpen STATUS, fd); (CRead fd 4096, r); (CClose fd, z)].

Definition failed_read (u : trace) : Prop :=
  (∃ fd z, (fd < 0)%Z ∧ u = [(COpen STATUS, fd); (CPerror (lit "open status"), z)])
  ∨ ∃ fd r z z', (0 ≤ fd)%Z ∧ (r < 0)%Z
      ∧ u = [(COpen STATUS, fd); (CRead fd 4096, r); (CPerror (lit "read status"), z); (CClose fd, z')].

(** [n] stretches, each as [P] says, one after the other. *)
Inductive repeated (P : trace → Prop) : nat → trace → Prop :=
  | repeated_0 : repeated P 0 []
  | repeated_S n u v : P u → repeated P n v → repeated P (S n) (u ++ v).

(** A burst of [n] reads, complete or with a failure. *)
Definition failed_burst (n : nat) (u : trace) : Prop :=
  ∃ k v w, k < n ∧ repeated a_read k v ∧ failed_read w ∧ u = v ++ w.

(** A round: a start, and [READS] reads. *)
Definition a_round (u : trace) : Prop :=
  ∃ v w, a_start v ∧ repeated a_read READS w ∧ u = v ++ w.

(** A round of the race that fails. *)
Definition failed_round (u : trace) : Prop :=
  failed_start (lit "open config (race)") u
  ∨ ∃ v w, a_start v ∧ failed_burst READS w ∧ u = v ++ w.

(** All the calls of a run with result [rc]. *)
Definition run_of (rc : Z) (t : trace) : Prop :=
  (rc = 0%Z ∧ repeated a_round (S RACES) t)
  ∨ (rc = 1%Z ∧ failed_start (lit "open config") t)
  ∨ (rc = 2%Z ∧ ∃ u v z, a_start u ∧ failed_burst READS v
       ∧ t = u ++ v ++ [(CPerror (lit "burst_read failed"), z)])
  ∨ (rc = 3%Z ∧ ∃ k u v, k < RACES ∧ repeated a_round (S k) u ∧ failed_round v ∧ t = u ++ v).

(** The system's promises: a write takes at least one byte and at most what it is given, or it
    fails; and it is not interrupted any more when [N] calls have been made. *)
Definition write_promise (N : nat) (answer : trace → scall → Z * Z) : Prop :=
  ∀ t fd d, d ≠ [] → let '(w, e) := answer t (CWrite fd d) in
    ((0 < w ≤ Z.of_nat (length d)) ∨ (w < 0 ∧ (N ≤ length t → e ≠ EINTR)%nat))%Z.

(** ** Lemmas *)

#[global] Opaque READS RACES.

(** Every descriptor is closed, in the order of the openings. *)
Definition balanced (t : trace) : Prop := opened t = closed t.

Lemma closed_app t u : balanced t → balanced u → balanced (t ++ u).
Proof. unfold balanced, opened, closed. rewrite !omap_app. by intros -> ->. Qed.

Lemma balanced_repeated (P : trace → Prop) n t :
  (∀ u, P u → balanced u) → repeated P n t → balanced t.
Proof. intros HP. induction 1; [done|]. apply closed_app; auto. Qed.

Lemma writes_quiet fd buf u : writes fd buf u → opened u = [] ∧ closed u = [].
Proof. by induction 1. Qed.

Lemma fails_quiet fd buf u : fails_write fd buf u → opened u = [] ∧ closed u = [].
Proof. by induction 1. Qed.

(** An open, calls that open and close nothing, and the close. *)
Lemma balanced_session p fd v z :
  (0 ≤ fd)%Z → opened v = [] ∧ closed v = [] → balanced ((COpen p, fd) :: v ++ [(CClose fd, z)]).
Proof.
  intros Hf [H1 H2]. unfold balanced, opened, closed in *. cbn. rewrite (proj2 (Z.ltb_ge _ _) Hf).
  rewrite !omap_app, H1, H2. done.
Qed.

Lemma balanced_not_open p m fd z : (fd < 0)%Z → balanced [(COpen p, fd); (CPerror m, z)].
Proof. intros Hf. unfold balanced, opened, closed. cbn. by rewrite (proj2 (Z.ltb_lt _ _) Hf). Qed.

Lemma start_balanced u : a_start u → balanced u.
Proof. intros (fd & v & z & Hf & Hw & ->). apply balanced_session; [done|by eapply writes_quiet]. Qed.

Lemma failed_start_balanced m u : failed_start m u → balanced u.
Proof.
  intros [(fd & z & Hf & ->)|(fd & v & z & Hf & Hw & ->)]; [by apply balanced_not_open|].
  apply balanced_session; [done|by eapply fails_quiet].
Qed.

Lemma read_balanced u : a_read u → balanced u.
Proof.
  intros (fd & r & z & Hf & ->). by apply (balanced_session STATUS fd [(CRead fd 4096, r)]).
Qed.

Lemma failed_burst_balanced n u : failed_burst n u → balanced u.
Proof.
  intros (k & v & w & _ & Hv & Hw & ->). apply closed_app.
  - eapply balanced_repeated; [apply read_balanced|done].
  - destruct Hw as [(fd & z & Hf & ->)|(fd & r & z & z' & Hf & _ & ->)]; [by apply balanced_not_open|].
    by apply (balanced_session STATUS fd [(CRead fd 4096, r); (CPerror (lit "read status"), z)]).
Qed.

Lemma round_balanced u : a_round u → balanced u.
Proof.
  intros (v & w & Hv & Hw & ->). apply closed_app; [by apply start_balanced|].
  eapply balanced_repeated; [apply read_balanced|done].
Qed.

Lemma run_balanced rc t : run_of rc t → balanced t.
Proof.
  intros [[_ H]|[[_ H]|[(_ & u & v & z & Hu & Hv & ->)|(_ & k & u & v & _ & Hu & Hv & ->)]]].
  - eapply balanced_repeated; [apply round_balanced|done].
  - by eapply failed_start_balanced.
  - apply closed_app; [by apply start_balanced|].
    apply closed_app; [by eapply failed_burst_balanced|done].
  - apply closed_app; [eapply balanced_repeated; [apply round_balanced|done]|].
    destruct Hv as [Hv|(x & y & Hx & Hy & ->)]; [by eapply failed_start_balanced|].
    apply closed_app; [by apply start_balanced|by eapply failed_burst_balanced].
Qed.

Section lemmas.
Context (N : nat) (answer : trace → scall → Z * Z) (Hwrite : write_promise N answer).

Lemma adds_sys c t (Q : Z * Z → trace → Prop) :
  (∀ r, r = answer t c → Q r [(c, r.1)]) → adds_wp (sys answer c) t Q.
Proof. intros H. eexists. split; [done|]. by apply H. Qed.

Lemma write_all_spec fuel fd buf t :
  (N - length t) + length buf < fuel →
  adds_wp (write_all answer fuel fd buf) t (λ r u,
    if (r =? 0)%Z then writes fd buf u else fails_write fd buf u).
Proof.
  revert buf t. induction fuel as [|fuel IH]; intros buf t Hl; [lia|]. cbn [write_all].
  destruct buf as [|b buf]; [apply adds_ret; cbn; apply writes_all|].
  apply adds_bind, adds_sys. intros [w e] Hr. pose proof (Hwrite t fd (b :: buf) ltac:(done)) as Hp.
  rewrite <- Hr in Hp. cbn [fst snd]. destruct Hp as [Hw|[Hw He]].
  - rewrite (proj2 (Z.ltb_ge _ _)) by lia. eapply adds_mono.
    + apply IH. rewrite length_app, length_drop. cbn [length] in *. lia.
    + intros r u Hu. cbv beta in Hu. cbn. destruct (r =? 0)%Z; [by apply writes_some|by apply fails_later].
  - rewrite (proj2 (Z.ltb_lt _ _)) by lia. destruct (Z.eqb_spec e EINTR) as [->|Hne].
    + eapply adds_mono.
      * apply IH. rewrite length_app. cbn [length] in *.
        destruct (decide (N ≤ length t)) as [H|H]; [by apply He in H|lia].
      * intros r u Hu. cbv beta in Hu. cbn. destruct (r =? 0)%Z; [by apply writes_interrupted|by apply fails_interrupted].
    + apply adds_bind, adds_sys. intros z _. apply adds_ret. cbn. by apply fails_now.
Qed.

Lemma start_once_spec fuel msg t :
  N + length START < fuel →
  adds_wp (start_once answer fuel msg) t (λ ok u, if ok : bool then a_start u else failed_start msg u).
Proof.
  intros Hfuel. unfold start_once. apply adds_bind, adds_sys. intros [fd e] _. cbn [fst].
  destruct (Z.ltb_spec fd 0) as [Hf|Hf].
  - apply adds_bind, adds_sys. intros z _. apply adds_ret. left. by eexists _, _.
  - apply adds_bind. eapply adds_mono; [apply write_all_spec; lia|]. intros r u Hu. cbv beta in Hu.
    apply adds_bind, adds_sys. intros z _. apply adds_ret. rewrite app_nil_r. cbn [app].
    destruct (r =? 0)%Z; [|right]; by eexists fd, u, _.
Qed.

Lemma burst_loop_spec n t :
  adds_wp (burst_loop answer n STATUS) t (λ r u,
    if (r =? 0)%Z then repeated a_read n u else failed_burst n u).
Proof.
  revert t. induction n as [|n IH]; intros t; cbn [burst_loop]; [apply adds_ret; cbn; apply repeated_0|].
  apply adds_bind, adds_sys. intros [fd e0] _. cbn [fst]. destruct (Z.ltb_spec fd 0) as [Hf|Hf].
  - apply adds_bind, adds_sys. intros z _. apply adds_ret. cbn.
    eexists 0, [], _. split; [lia|]. split; [constructor|]. split; [left; by eexists _, _|done].
  - apply adds_bind, adds_sys. intros [r e] _. cbn [fst snd].
    destruct (Z.ltb_spec r 0) as [Hr|Hr]; [destruct (e =? EAGAIN)%Z|]; cbn [andb negb].
    2:{ apply adds_bind, adds_sys. intros z _. apply adds_bind, adds_sys. intros z' _. apply adds_ret. cbn.
        eexists 0, [], _. split; [lia|]. split; [constructor|]. split; [right; by eexists fd, r, _, _|done]. }
    all: apply adds_bind, adds_sys; intros z _; eapply adds_mono; [apply IH|]; intros rc u Hu; cbv beta in Hu.
    all: assert (a_read [(COpen STATUS, fd); (CRead fd 4096, r); (CClose fd, z.1)]) as Ha by (by exists fd, r, z.1).
    all: destruct (rc =? 0)%Z; [exact (repeated_S _ _ _ _ Ha Hu)|].
    all: destruct Hu as (k & v & w & Hk & Hv & Hw & ->);
      exists (S k), ([(COpen STATUS, fd); (CRead fd 4096, r); (CClose fd, z.1)] ++ v), w.
    all: split; [lia|]; split; [by constructor|]; split; [done|]; by rewrite <- app_assoc.
Qed.

Lemma race_loop_spec fuel n t :
  N + length START < fuel →
  adds_wp (race_loop answer fuel n) t (λ r u,
    (r = 0%Z ∧ repeated a_round n u)
    ∨ (r = 3%Z ∧ ∃ k v w, k < n ∧ repeated a_round k v ∧ failed_round w ∧ u = v ++ w)).
Proof.
  intros Hfuel. revert t. induction n as [|n IH]; intros t; cbn [race_loop].
  { apply adds_ret. left. split; [done|constructor]. }
  apply adds_bind. eapply adds_mono; [by apply start_once_spec|]. intros ok u Hu. cbv beta in Hu.
  destruct ok; cbn [negb].
  2:{ apply adds_ret. right. split; [done|]. exists 0, [], u. rewrite app_nil_r.
      split; [lia|]. split; [constructor|]. split; [by left|done]. }
  apply adds_bind. eapply adds_mono; [apply burst_loop_spec|]. intros r v Hv. cbv beta in Hv.
  destruct (r =? 0)%Z; cbn [negb].
  2:{ apply adds_ret. right. split; [done|]. exists 0, [], (u ++ v). rewrite app_nil_r.
      split; [lia|]. split; [constructor|]. split; [right; by exists u, v|done]. }
  assert (a_round (u ++ v)) as Ha by (by exists u, v).
  eapply adds_mono; [apply IH|]. intros rc w [[-> Hw]|[-> (k & x & y & Hk & Hx & Hy & ->)]].
  - left. split; [done|]. rewrite app_assoc. by constructor.
  - right. split; [done|]. exists (S k), ((u ++ v) ++ x), y. split; [lia|]. split; [by constructor|].
    split; [done|]. by rewrite !app_assoc.
Qed.
End lemmas.

(** A position right after a digit, and lists in which every dot has one before it. *)
Fixpoint dots_after_digits (after : bool) (s : bytes) : bool :=
  match s with
  | [] => true
  | c :: s => (negb (Ascii.eqb c ".") || after) && dots_after_digits (is_digit c) s
  end.

Lemma dots_weaken a s : dots_after_digits false s = true → dots_after_digits a s = true.
Proof. destruct s as [|c s]; [done|]. cbn. destruct (Ascii.eqb c "."), a; done. Qed.

Lemma dots_app a s t :
  dots_after_digits a s = true → dots_after_digits false t = true → dots_after_digits a (s ++ t) = true.
Proof.
  revert a. induction s as [|c s IH]; intros a; cbn; [intros _; apply dots_weaken|].
  intros [-> H]%andb_prop Ht. cbn. by apply IH.
Qed.

Lemma dots_digits a d t :
  Forall (λ c, is_digit c = true) d → d ≠ [] → dots_after_digits true t = true →
  dots_after_digits a (d ++ t) = true.
Proof.
  intros Hd Hne Ht. revert a. induction Hd as [|c d Hc Hd IH]; intros a; [done|]. cbn.
  assert (Ascii.eqb c "." = false) as -> by (apply Ascii.eqb_neq; by intros ->). rewrite Hc. cbn.
  destruct d; [done|]. by apply IH.
Qed.

Lemma dots_before a x c y : dots_after_digits a (x ++ c :: "."%char :: y) = true → is_digit c = true.
Proof.
  revert a. induction x as [|b x IH]; intros a; cbn.
  - intros [_ H]%andb_prop. by apply andb_prop in H as [H _].
  - intros [_ H]%andb_prop. by eapply IH.
Qed.

(** A line of the status file. *)
Lemma snap_line_dots cpu p :
  (Z.of_nat cpu < 2 ^ 64)%Z → (0 ≤ usage p < 2 ^ 64)%Z → (0 ≤ ts p < 2 ^ 64)%Z →
  dots_after_digits false (snap_line cpu p) = true.
Proof.
  intros Hc Hu Ht. unfold snap_line. cbn [lit app].
  apply (dots_app _ (lit "cpu")); [done|].
  apply dots_digits; [apply dec_u64; lia|apply dec_nonempty; lia|].
  apply (dots_app _ (lit ".usage=")); [done|].
  apply dots_digits; [by apply dec_u64|by apply dec_nonempty|].
  apply (dots_app _ (lit " ts=")); [done|].
  by apply dots_digits; [apply dec_u64|apply dec_nonempty|].
Qed.

Definition snap_u64 (p : pm_cpu_snap) : Prop := (0 ≤ usage p < 2 ^ 64 ∧ 0 ≤ ts p < 2 ^ 64)%Z.

Lemma lines_dots k b :
  (Z.of_nat (k + length b) < 2 ^ 64)%Z → Forall snap_u64 b →
  dots_after_digits false (concat (imap (λ i, snap_line (k + i)) b)) = true.
Proof.
  revert k. induction b as [|p b IH]; intros k Hk Hb; [done|].
  apply Forall_cons in Hb as [[Hu Ht] Hb]. cbn [imap concat length] in *. apply dots_app.
  - rewrite Nat.add_0_r. apply snap_line_dots; [lia|done..].
  - rewrite (imap_ext _ (λ i, snap_line (S k + i))); [apply IH; [lia|done]|].
    intros i x _. unfold compose. by rewrite Nat.add_succ_r.
Qed.

(** ** Properties *)


(** A system whose first write is interrupted, and on which the status file cannot be read. *)
Definition unwilling (t : trace) (c : scall) : Z * Z :=
  match c with
  | COpen _ => (3, 0)
  | CWrite _ d => if decide (length t ≤ 1)%nat then (-1, EINTR) else (1, 0)
  | CRead _ _ => (-1, 5)
  | _ => (0, 0)
  end%Z.


(** [pm_kself_data] cannot succeed. The files of the module, however its set-up went, are not
    those that it opens, so that it fails at its first assertion; and if they were, what the
    module prints for any passes of a reader lacks the key that it looks for, since the number
    of the CPU stands between [cpu] and [.usage]. *)
Theorem kself_data_fails (dir_ok config_ok status_ok write_ok : bool) (data : bytes)
    (torn : list (list pm_cpu_snap)) (snaps : list pm_cpu_snap) (enabled interval : Z) (out : list bytes) :
  Forall (λ b, (Z.of_nat (length b) < 2 ^ 64)%Z ∧ Forall snap_u64 b) (torn ++ [snaps]) →
  (0 ≤ enabled < 2 ^ 64)%Z → (0 ≤ interval < 2 ^ 64)%Z →
  stat_show (((λ s, (s, true)) <$> torn) ++ [(snaps, false)]) enabled interval = Some out →
  kself_data_main
    (λ p, bool_decide (p ∈ module_files (mydrv_init dir_ok config_ok status_ok).2)) write_ok data
  = None
  ∧ ∀ exists_, kself_data_main exists_ write_ok (concat out) = None.
Proof.
  intros Hs He Hi Hout. split.
  - unfold kself_data_main. rewrite bool_decide_eq_false_2; [done|].
    destruct dir_ok, config_ok, status_ok; cbn; intros Hin;
      repeat (apply elem_of_cons in Hin as [Hin|Hin]; [by vm_compute in Hin|]);
      by apply not_elem_of_nil in Hin.
  - intros ex. unfold kself_data_main. do 3 (case_match; [done|]).
    destruct (take 4095 (concat out)) as [|c buf] eqn:Eb; [done|].
    destruct (strstr (cstr (c :: buf)) (lit "cpu.usage")) as [r|] eqn:Er; [|done]. exfalso.
    apply strstr_Some in Er as (a & b & Er & _).
    assert (∃ rest, concat out = cstr (c :: buf) ++ rest) as [rest E].
    { destruct (cstr_rest (c :: buf)) as [r1 Hr1]. exists (r1 ++ drop 4095 (concat out)).
      by rewrite app_assoc, <- Hr1, <- Eb, take_drop. }
    destruct (stat_prints_every_pass torn snaps enabled interval) as (o & Eo & -> & _).
    rewrite Hout in Eo. injection Eo as ->.
    assert (dots_after_digits false (concat ((torn ≫= imap snap_line) ++ imap snap_line snaps
      ++ [state_line enabled interval])) = true) as Hd.
    { apply Forall_app in Hs as [Hs [[Hl Hb] _]%Forall_cons]. rewrite !concat_app. apply dots_app.
      - clear -Hs. induction Hs as [|t torn [Hl Hb] _ IH]; [done|]. rewrite bind_cons, concat_app.
        apply dots_app; [by apply (lines_dots 0)|done].
      - apply dots_app; [by apply (lines_dots 0)|]. cbn [concat]. rewrite app_nil_r.
        unfold state_line. apply (dots_app _ (lit "enabled=")); [done|].
        apply dots_digits; [by apply dec_u64|by apply dec_nonempty|].
        apply (dots_app _ (lit " interval_ms=")); [done|].
        by apply dots_digits; [apply dec_u64|apply dec_nonempty|]. }
    rewrite E, Er in Hd. rewrite <- !app_assoc in Hd.
    change (lit "cpu.usage" ++ b ++ rest) with (lit "cp" ++ "u"%char :: "."%char :: lit "usage" ++ b ++ rest) in Hd.
    rewrite app_assoc in Hd. by apply dots_before in Hd.
Qed.

Lemma kself_data_fails_witness :
  kself_data_main (λ _, true) true
    (concat [snap_line 0 (mk_snap 42 1000); state_line 1 100]) = None.
Proof.
  apply (kself_data_fails true true true true [] [] [mk_snap 42 1000] 1 100
    [snap_line 0 (mk_snap 42 1000); state_line 1 100]).
  - apply Forall_singleton. split; [done|]. apply Forall_singleton. done.
  - lia.
  - lia.
  - reflexivity.
Defined.

(** libpm's default root is not the module's directory: with the module's files alone, no path
    that libpm builds exists. *)
Lemma libpm_paths_missing (dir_ok config_ok status_ok : bool) (n : pm_node_t) (f : pm_file_t) :
  build_path g_cfg_default 256 n f ∉ module_files (mydrv_init dir_ok config_ok status_ok).2.
Proof.
  destruct dir_ok, config_ok, status_ok, n, f; apply (bool_decide_unpack _); vm_compute; exact I.
Qed.
