(* ===== verification/Config.v ===== *)
(** * Config: userspace/vts/src/vts_config.c and the argument loop of main.c

    The configuration file is read line by line ([fgets] into 512 bytes); every line is
    searched for each of nine tags. *)
From stdpp Require Import prelude strings list.
From Stdlib Require Import Ascii ZArith Lia.
From S2P Require Import Prelude CString.

(** [vts_config_t]; arrays of characters are kept as their contents. *)
Record vts_config := mk_config {
  bind_addr : bytes;             (* char[64] *)
  port : Z;                      (* uint16_t *)
  udp_port : Z;
  accept_backlog : Z;
  io_timeout_ms : Z;
  client_pool_size : Z;
  retry_max : Z;
  retry_backoff_ms : Z;
  dedup_ttl_ms : Z;
  log_path : bytes;              (* char[256] *)
  dedup_warm_file : bytes        (* char[256] *) }.

Definition zeros (n : nat) : bytes := replicate n NUL.

Definition vts_config_default : vts_config :=
  mk_config (strncpy (zeros 64) (lit "0.0.0.0") 63) 9000 0 128 3000 8 3 50 60000
    (strncpy (zeros 256) (lit "logs/vts.log") 255) (zeros 256).

(** ** Lines *)

Definition open_tag (tag : bytes) : bytes := snprintf_str 64 (lit "<" ++ tag ++ lit ">").
Definition close_tag (tag : bytes) : bytes := snprintf_str 64 (lit "</" ++ tag ++ lit ">").

(** The contents of [dst] after a successful call; [None]: -1, [dst] untouched. *)
Definition parse_text (line tag dst : bytes) : option bytes :=
  p ← strstr line (open_tag tag);
  let p := drop (strlen (open_tag tag)) p in
  q ← strstr p (close_tag tag);
  let n := ptr_diff q p in
  let n := if length dst <=? n then length dst - 1 else n in
  Some (<[n := NUL]> (memcpy dst p n)).

(** The local [buf[64]] is not initialised; its contents are an argument. *)
Definition parse_int (junk line tag : bytes) : option Z :=
  b ← parse_text line tag junk;
  Some (atoi (cstr b)).

Definition parse_u16 (junk line tag : bytes) : option Z :=
  b ← parse_text line tag junk;
  Some (u16 (atoi (cstr b))).

Section load.
Context (junk : bytes).

(** The nine calls made for one line, in order; a call that fails leaves the field. *)
Definition load_line (c : vts_config) (line : bytes) : vts_config :=
  mk_config
    (default (bind_addr c) (parse_text line (lit "bind_addr") (bind_addr c)))
    (default (port c) (parse_u16 junk line (lit "port")))
    (udp_port c)
    (default (accept_backlog c) (parse_int junk line (lit "accept_backlog")))
    (default (io_timeout_ms c) (parse_int junk line (lit "io_timeout_ms")))
    (default (client_pool_size c) (parse_int junk line (lit "client_pool_size")))
    (default (retry_max c) (parse_int junk line (lit "retry_max")))
    (default (retry_backoff_ms c) (parse_int junk line (lit "retry_backoff_ms")))
    (default (dedup_ttl_ms c) (parse_int junk line (lit "dedup_ttl_ms")))
    (default (log_path c) (parse_text line (lit "log_path") (log_path c)))
    (dedup_warm_file c).

(** [path]: NULL, a file that cannot be opened, or the file's contents.  The last argument is
    whether [out] is NULL.  [fgets] fills [line[512]]; the parsers see a C string. *)
Inductive source := NoPath | Unreadable | Contents (text : bytes).

Definition vts_config_load (src : source) (out_null : bool) : Z * option vts_config :=
  if out_null then ((-2)%Z, None)
  else
    match src with
    | NoPath => (0%Z, Some vts_config_default)
    | Unreadable => ((-3)%Z, Some vts_config_default)
    | Contents text => (0%Z, Some (foldl load_line vts_config_default (cstr <$> fgets_all 512 text)))
    end.
End load.

(** ** Lemmas *)

Definition LT : ascii := "<"%char.
Definition GT : ascii := ">"%char.

Definition element (tag v : bytes) : bytes := lit "<" ++ tag ++ lit ">" ++ v ++ lit "</" ++ tag ++ lit ">".

Lemma memcpy_terminated dst (v rest : bytes) n :
  n < length dst → n ≤ length v → nul_free v →
  cstr (<[n := NUL]> (memcpy dst (v ++ rest) n)) = take n v ∧
  length (<[n := NUL]> (memcpy dst (v ++ rest) n)) = length dst.
Proof.
  intros Hn Hv Hnul. unfold memcpy. rewrite take_app_le by done.
  assert (length (take n v) = n) as Hl by (rewrite length_take; lia).
  rewrite insert_app_r_alt by lia. rewrite Hl, Nat.sub_diag. split.
  - destruct (drop n dst) as [|x d] eqn:E.
    + apply (f_equal length) in E. rewrite length_drop in E. simpl in E. lia.
    + apply cstr_app_nul. by apply nul_free_take.
  - rewrite length_app, length_insert, length_drop, Hl. lia.
Qed.

Lemma element_eq tag v :
  element tag v = [LT] ++ tag ++ [GT] ++ v ++ [LT] ++ ["/"%char] ++ tag ++ [GT].
Proof. done. Qed.

(** Reading back an element: the text is cut to what the destination holds. *)
Lemma parse_text_element (pre tag v post dst : bytes) :
  length tag ≤ 60 → LT ∉ pre → LT ∉ tag → LT ∉ v → nul_free v → 0 < length dst →
  ∃ d, parse_text (pre ++ element tag v ++ post) tag dst = Some d ∧
    cstr d = take (length dst - 1) v ∧ length d = length dst.
Proof.
  intros Ht Hpre Htag Hv Hnul Hd.
  assert (open_tag tag = LT :: tag ++ [GT]) as Eo.
  { unfold open_tag, snprintf_str. rewrite take_ge; [done|]. rewrite !length_app. simpl. lia. }
  assert (close_tag tag = LT :: "/"%char :: tag ++ [GT]) as Ec.
  { unfold close_tag, snprintf_str. rewrite take_ge; [done|]. rewrite !length_app. simpl. lia. }
  unfold parse_text. rewrite Eo, Ec.
  assert (pre ++ element tag v ++ post =
    pre ++ (LT :: tag ++ [GT]) ++ v ++ (LT :: "/"%char :: tag ++ [GT]) ++ post) as ->.
  { rewrite element_eq. cbn [app]. do 3 (rewrite <- ?app_assoc; cbn [app]). done. }
  rewrite strstr_skip by done. rewrite strstr_here by apply is_prefix_app. cbn [mbind option_bind].
  unfold strlen. rewrite drop_app_length, strstr_skip by done.
  rewrite strstr_here by apply is_prefix_app. cbn [mbind option_bind].
  unfold ptr_diff. rewrite length_app, Nat.add_sub.
  eexists. split; [done|].
  destruct (Nat.leb_spec (length dst) (length v)).
  - apply memcpy_terminated; [lia|lia|done].
  - destruct (memcpy_terminated dst v ((LT :: "/"%char :: tag ++ [GT]) ++ post) (length v)) as [E1 E2];
      [done|done|done|]. split; [|done]. rewrite E1, !take_ge by lia. done.
Qed.

(** A line in which no tag occurs changes nothing. *)
Lemma parse_text_none (line tag dst : bytes) :
  length tag ≤ 60 → LT ∉ line → parse_text line tag dst = None.
Proof.
  intros Ht Hl. unfold parse_text, open_tag, snprintf_str.
  rewrite take_ge by (rewrite !length_app; simpl; lia). change (lit "<") with [LT]. cbn [app].
  rewrite <- (app_nil_r line), strstr_skip by done. done.
Qed.

(** An element of one tag is no element of another. *)
Lemma parse_text_other (pre tag tag' v post dst : bytes) :
  length tag ≤ 60 → LT ∉ pre → LT ∉ tag' → LT ∉ v → LT ∉ post → GT ∉ tag → GT ∉ tag' →
  tag ≠ tag' → "/"%char ∉ tag →
  parse_text (pre ++ element tag' v ++ post) tag dst = None.
Proof.
  intros Ht Hpre Htag' Hv Hpost Hg Hg' Hne Hsl.
  assert (open_tag tag = LT :: tag ++ [GT]) as Eo.
  { unfold open_tag, snprintf_str. rewrite take_ge; [done|]. rewrite !length_app. simpl. lia. }
  unfold parse_text. rewrite Eo.
  assert (pre ++ element tag' v ++ post =
    pre ++ LT :: tag' ++ [GT] ++ v ++ LT :: ("/"%char :: tag' ++ [GT] ++ post)) as ->.
  { rewrite element_eq. cbn [app]. do 3 (rewrite <- ?app_assoc; cbn [app]). done. }
  rewrite strstr_skip by done. rewrite strstr_step.
  2:{ cbn [is_prefix]. rewrite Ascii.eqb_refl. cbn [andb]. change ([GT] ++ ?x) with (GT :: x).
      rewrite is_prefix_delim by done. by apply bool_decide_eq_false_2. }
  rewrite app_assoc, app_assoc, strstr_skip by (rewrite !not_elem_of_app; split_and!; set_solver).
  rewrite strstr_step.
  2:{ cbn [is_prefix]. rewrite Ascii.eqb_refl. cbn [andb].
      destruct tag as [|x tag]; cbn [app is_prefix].
      - destruct (Ascii.eqb_spec GT "/"); [discriminate|done].
      - destruct (Ascii.eqb_spec x "/") as [->|]; [set_solver|done]. }
  rewrite <- (app_nil_r ("/"%char :: _)), strstr_skip; [done|].
  apply not_elem_of_cons. split; [discriminate|]. rewrite !not_elem_of_app. set_solver.
Qed.

(** ** What a line sets *)

Inductive tag :=
  | TBindAddr | TPort | TAcceptBacklog | TIoTimeout | TClientPool | TRetryMax | TRetryBackoff
  | TDedupTtl | TLogPath.

Definition tag_name (t : tag) : bytes :=
  match t with
  | TBindAddr => lit "bind_addr" | TPort => lit "port" | TAcceptBacklog => lit "accept_backlog"
  | TIoTimeout => lit "io_timeout_ms" | TClientPool => lit "client_pool_size"
  | TRetryMax => lit "retry_max" | TRetryBackoff => lit "retry_backoff_ms"
  | TDedupTtl => lit "dedup_ttl_ms" | TLogPath => lit "log_path"
  end.

#[export] Instance tag_eq_dec : EqDecision tag.
Proof. solve_decision. Defined.

(** A configuration as its readers see it: strings and numbers. *)
Definition text_of (c : vts_config) (t : tag) : bytes :=
  match t with TBindAddr => cstr (bind_addr c) | TLogPath => cstr (log_path c) | _ => [] end.

Definition number_of (c : vts_config) (t : tag) : Z :=
  match t with
  | TPort => port c | TAcceptBacklog => accept_backlog c | TIoTimeout => io_timeout_ms c
  | TClientPool => client_pool_size c | TRetryMax => retry_max c
  | TRetryBackoff => retry_backoff_ms c | TDedupTtl => dedup_ttl_ms c | _ => 0
  end.

(** Room for a text, and the value of a numeric text. *)
Definition text_size (t : tag) : nat := match t with TBindAddr => 63 | TLogPath => 255 | _ => 0 end.
Definition number_value (t : tag) (v : bytes) : Z :=
  match t with
  | TBindAddr | TLogPath => 0
  | TPort => u16 (atoi (take 63 v))
  | _ => atoi (take 63 v)
  end.

Definition wf_config (c : vts_config) : Prop :=
  length (bind_addr c) = 64 ∧ length (log_path c) = 256.

Lemma wf_config_default : wf_config vts_config_default.
Proof. by split. Qed.

Section lines.
Context (junk : bytes) (junk_len : length junk = 64).

(** A line with one element, of tag [t]. *)
Context (t : tag) (pre v post : bytes).
Context (Hpre : LT ∉ pre) (Hv : LT ∉ v) (Hpost : LT ∉ post) (Hnul : nul_free v).
Abbreviation the_line := (pre ++ element (tag_name t) v ++ post).

Lemma tag_facts (t' : tag) :
  length (tag_name t') ≤ 60 ∧ LT ∉ tag_name t' ∧ GT ∉ tag_name t' ∧ "/"%char ∉ tag_name t'.
Proof.
  destruct t'; (split; [simpl; lia|]); split_and!; by_evaluation.
Qed.

Lemma tag_name_inj t' : tag_name t' = tag_name t → t' = t.
Proof. by destruct t', t. Qed.

Lemma other_text (t' : tag) dst : t' ≠ t → parse_text the_line (tag_name t') dst = None.
Proof.
  intros Hne. destruct (tag_facts t') as (? & ? & ? & ?), (tag_facts t) as (? & ? & ? & ?).
  apply parse_text_other; try done. by intros ?%tag_name_inj.
Qed.

Lemma own_text dst : 0 < length dst → ∃ d, parse_text the_line (tag_name t) dst = Some d ∧
  cstr d = take (length dst - 1) v ∧ length d = length dst.
Proof.
  intros Hd. destruct (tag_facts t) as (? & ? & ? & ?). by apply parse_text_element.
Qed.

Lemma own_text_size (t' : tag) dst n :
  length dst = S n → ∃ d, default dst (parse_text the_line (tag_name t') dst) = d ∧
  cstr d = (if decide (t' = t) then take n v else cstr dst) ∧ length d = length dst.
Proof.
  intros Hl. case_decide as Ht.
  - subst t'. destruct (own_text dst) as (d & -> & Hd & Hld); [lia|]. exists d. cbn.
    split; [done|]. split; [|done]. rewrite Hd. f_equal. lia.
  - rewrite other_text by done. by exists dst.
Qed.

Lemma own_int (t' : tag) x :
  default x (parse_int junk the_line (tag_name t')) = if decide (t' = t) then atoi (take 63 v) else x.
Proof.
  unfold parse_int. case_decide as Ht.
  - subst t'. destruct (own_text junk) as (d & -> & Hd & _); [lia|]. cbn. by rewrite Hd, junk_len.
  - by rewrite other_text.
Qed.

Lemma own_u16 (t' : tag) x :
  default x (parse_u16 junk the_line (tag_name t')) =
  if decide (t' = t) then u16 (atoi (take 63 v)) else x.
Proof.
  unfold parse_u16. case_decide as Ht.
  - subst t'. destruct (own_text junk) as (d & -> & Hd & _); [lia|]. cbn. by rewrite Hd, junk_len.
  - by rewrite other_text.
Qed.

Ltac finish :=
  let H := fresh in
  match goal with |- context [decide (?a = t)] => destruct (decide (a = t)) as [H|]; [rewrite <- H|] end.

Lemma load_line_element c :
  wf_config c →
  let c' := load_line junk c the_line in
  wf_config c' ∧ udp_port c' = udp_port c ∧ dedup_warm_file c' = dedup_warm_file c ∧
  ∀ t', text_of c' t' = (if decide (t' = t) then take (text_size t) v else text_of c t') ∧
        number_of c' t' = (if decide (t' = t) then number_value t v else number_of c t').
Proof.
  intros [Hb Hp]. destruct (own_text_size TBindAddr (bind_addr c) 63 Hb) as (d1 & E1 & C1 & L1).
  destruct (own_text_size TLogPath (log_path c) 255 Hp) as (d2 & E2 & C2 & L2).
  split; [split; cbn [bind_addr log_path load_line];
    [change (lit "bind_addr") with (tag_name TBindAddr); rewrite E1, L1
    |change (lit "log_path") with (tag_name TLogPath); rewrite E2, L2]; done|].
  split; [done|]. split; [done|]. intros t'.
  destruct t'; unfold text_of, number_of, number_value, text_size, load_line;
    cbn [bind_addr port accept_backlog io_timeout_ms client_pool_size retry_max retry_backoff_ms
         dedup_ttl_ms log_path].
  - change (lit "bind_addr") with (tag_name TBindAddr). rewrite E1, C1. by finish.
  - split; [by finish|]. rewrite (own_u16 TPort). by finish.
  - split; [by finish|]. rewrite (own_int TAcceptBacklog). by finish.
  - split; [by finish|]. rewrite (own_int TIoTimeout). by finish.
  - split; [by finish|]. rewrite (own_int TClientPool). by finish.
  - split; [by finish|]. rewrite (own_int TRetryMax). by finish.
  - split; [by finish|]. rewrite (own_int TRetryBackoff). by finish.
  - split; [by finish|]. rewrite (own_int TDedupTtl). by finish.
  - change (lit "log_path") with (tag_name TLogPath). rewrite E2, C2. by finish.
Qed.
End lines.

(** ** Files *)

(** A line without an element changes nothing. *)
Lemma load_line_plain junk c line : LT ∉ line → load_line junk c line = c.
Proof.
  intros Hl. unfold load_line, parse_int, parse_u16.
  rewrite !parse_text_none by (done || (simpl; lia)). by destruct c.
Qed.

(** A line as a configuration file has it: text, or one element between texts. *)
Inductive cfg_line := Text (s : bytes) | Element (pre : bytes) (t : tag) (v post : bytes).

Definition render (l : cfg_line) : bytes :=
  match l with
  | Text s => s
  | Element pre t v post => pre ++ element (tag_name t) v ++ post
  end.

Definition plain (s : bytes) : Prop := LT ∉ s ∧ LF ∉ s ∧ NUL ∉ s.

Definition line_ok (l : cfg_line) : Prop :=
  length (render l) < 511 ∧
  match l with Text s => plain s | Element pre t v post => plain pre ∧ plain v ∧ plain post end.

(** The last value a file gives to a tag. *)
Fixpoint last_value (t : tag) (ls : list cfg_line) : option bytes :=
  match ls with
  | [] => None
  | Element _ t' v _ :: ls =>
    match last_value t ls with
    | Some w => Some w
    | None => if decide (t = t') then Some v else None
    end
  | Text _ :: ls => last_value t ls
  end.

Lemma render_clean l : line_ok l → LF ∉ render l ∧ NUL ∉ render l.
Proof.
  intros [_ H]. destruct l as [s|pre t v post]; cbn [render]; [by destruct H as (? & ? & ?)|].
  destruct H as ((? & ? & ?) & (? & ? & ?) & (? & ? & ?)).
  assert (LF ∉ element (tag_name t) [] ∧ NUL ∉ element (tag_name t) []) as [E1 E2].
  { split; apply (bool_decide_eq_true_1 _); by destruct t. }
  rewrite element_eq in E1, E2. rewrite element_eq, !not_elem_of_app in *. tauto.
Qed.

Lemma load_lines junk ls c :
  length junk = 64 → Forall line_ok ls → wf_config c →
  let c' := foldl (load_line junk) c ((λ l, render l ++ [LF]) <$> ls) in
  udp_port c' = udp_port c ∧ dedup_warm_file c' = dedup_warm_file c ∧
  ∀ t, text_of c' t = from_option (take (text_size t)) (text_of c t) (last_value t ls) ∧
       number_of c' t = from_option (number_value t) (number_of c t) (last_value t ls).
Proof.
  intros Hj Hls. revert c. induction Hls as [|l ls Hl _ IH]; intros c Hc; [done|].
  cbn [fmap list_fmap foldl]. destruct Hl as [_ Hl].
  destruct l as [s|pre t0 v post]; cbn [render last_value].
  - destruct Hl as (? & ? & ?). rewrite load_line_plain; [by apply IH|].
    rewrite not_elem_of_app. split; [done|]. apply (bool_decide_eq_true_1 _). done.
  - destruct Hl as ((? & ? & ?) & (? & ? & ?) & (? & ? & ?)).
    rewrite <- !app_assoc.
    destruct (load_line_element junk Hj t0 pre v (post ++ [LF])) with (c := c)
      as (Hwf & Hu & Hd & Ht); try done.
    { rewrite not_elem_of_app. split; [done|]. apply (bool_decide_eq_true_1 _). done. }
    destruct (IH _ Hwf) as (Hu' & Hd' & Ht'). rewrite Hu', Hd'. split_and!; [done|done|].
    intros t. destruct (Ht t) as [E1 E2], (Ht' t) as [-> ->].
    destruct (last_value t ls); [done|]. rewrite E1, E2. cbn. by case_decide as Hd0; subst.
Qed.

(** A configuration file written one element per line (any text around the elements, each
    line shorter than the 511 bytes one [fgets] call takes) loads with code 0, and every
    setting has the last value the file gives it, cut to the room it has (63 bytes of
    [bind_addr], 255 of [log_path]; numbers through [atoi] of at most 63 bytes, the port modulo
    2^16), or its default when the file does not mention it - whatever the uninitialised buffers
    held.  [udp_port] and [dedup_warm_file] keep their defaults. *)
Theorem config_last_value_wins junk (ls : list cfg_line) :
  length junk = 64 → Forall line_ok ls →
  ∃ c, vts_config_load junk (Contents (concat ((λ l, render l ++ [LF]) <$> ls))) false
       = (0%Z, Some c) ∧
    udp_port c = 0%Z ∧ cstr (dedup_warm_file c) = [] ∧
    ∀ t, text_of c t = from_option (take (text_size t)) (text_of vts_config_default t) (last_value t ls)
      ∧ number_of c t =
        from_option (number_value t) (number_of vts_config_default t) (last_value t ls).
Proof.
  intros Hj Hls. cbn [vts_config_load]. eexists. split; [done|].
  assert ((λ l, render l ++ [LF]) <$> ls = (λ s, s ++ [LF]) <$> (render <$> ls)) as E
    by by rewrite <- list_fmap_compose.
  rewrite E, fgets_all_lines.
  - assert (cstr <$> ((λ s, s ++ [LF]) <$> (render <$> ls)) = (λ l, render l ++ [LF]) <$> ls) as ->.
    { rewrite <- E, <- list_fmap_compose. apply list_fmap_ext. intros i l Hi.
      destruct (render_clean l) as [H1 H2]; [by eapply Forall_lookup_1|].
      apply cstr_id. unfold nul_free. rewrite not_elem_of_app.
      split; [done|]. by apply (bool_decide_eq_true_1 _). }
    by destruct (load_lines junk ls vts_config_default Hj Hls wf_config_default) as (-> & -> & ?).
  - apply Forall_fmap. eapply Forall_impl; [done|]. intros l Hl.
    destruct (render_clean l Hl). destruct Hl as [Hl _]. cbn. split; [done|lia].
Qed.

Definition sample_lines : list cfg_line :=
  [Text (lit "settings"); Element (lit "  ") TPort (lit "9000") [];
   Element [] TIoTimeout (lit " 250ms") (lit " milliseconds"); Element [] TPort (lit "70000") [];
   Element [] TBindAddr (lit "10.0.0.7") []].

Lemma config_last_value_wins_witness :
  (length (replicate 64 "?"%char) = 64 ∧ Forall line_ok sample_lines) ∧
  ∃ c, vts_config_load (replicate 64 "?"%char)
      (Contents (concat ((λ l, render l ++ [LF]) <$> sample_lines))) false = (0%Z, Some c) ∧
    udp_port c = 0%Z ∧ cstr (dedup_warm_file c) = [] ∧
    ∀ t, text_of c t =
        from_option (take (text_size t)) (text_of vts_config_default t) (last_value t sample_lines)
      ∧ number_of c t =
        from_option (number_value t) (number_of vts_config_default t) (last_value t sample_lines).
Proof.
  assert (Forall line_ok sample_lines) as H.
  { repeat constructor; by_evaluation. }
  split; [split; [reflexivity|exact H]|].
  apply (config_last_value_wins (replicate 64 "?"%char) sample_lines); [reflexivity|exact H].
Defined.

Example sample_port : last_value TPort sample_lines = Some (lit "70000") ∧ number_value TPort (lit "70000") = 4464%Z.
Proof. split; reflexivity. Qed.

(** The two fields no tag is parsed for keep their defaults for every file whatsoever. *)
Lemma load_line_ignores junk c line :
  udp_port (load_line junk c line) = udp_port c ∧
  dedup_warm_file (load_line junk c line) = dedup_warm_file c.
Proof. done. Qed.

Lemma config_ignores_udp_and_warm_file junk src c code :
  vts_config_load junk src false = (code, Some c) →
  udp_port c = 0%Z ∧ cstr (dedup_warm_file c) = [].
Proof.
  destruct src as [| |text]; cbn [vts_config_load]; intros [= <- <-]; [done|done|].
  assert (∀ ls d, udp_port (foldl (load_line junk) d ls) = udp_port d ∧
    dedup_warm_file (foldl (load_line junk) d ls) = dedup_warm_file d) as H.
  { induction ls as [|l ls IH]; intros d; cbn [foldl]; [done|].
    destruct (IH (load_line junk d l)) as [-> ->]. apply load_line_ignores. }
  by destruct (H (cstr <$> fgets_all 512 text) vts_config_default) as [-> ->].
Qed.

(** ** Types *)

(** An array that holds a C string. *)
Definition terminated (n : nat) (b : bytes) : Prop := length b = n ∧ length (cstr b) < n.

(** Every field has a value of its C type. *)
Definition well_typed (c : vts_config) : Prop :=
  terminated 64 (bind_addr c) ∧ terminated 256 (log_path c) ∧ terminated 256 (dedup_warm_file c)
  ∧ in_u 16 (port c) ∧ in_u 16 (udp_port c)
  ∧ Forall (in_s 32) [accept_backlog c; io_timeout_ms c; client_pool_size c; retry_max c;
                      retry_backoff_ms c; dedup_ttl_ms c].

#[export] Instance well_typed_dec c : Decision (well_typed c).
Proof. unfold well_typed, terminated. apply _. Defined.

(** What [parse_text] finds depends on the line and the tag only; how much of it is kept, on
    the size of the destination. *)
Lemma parse_text_found (line tag : bytes) :
  nul_free line →
  (∀ dst, parse_text line tag dst = None) ∨
  ∃ v, ∀ dst, 0 < length dst → ∃ d, parse_text line tag dst = Some d ∧
    cstr d = take (length dst - 1) v ∧ length d = length dst.
Proof.
  intros Hn. unfold parse_text. destruct (strstr line _) as [p|] eqn:Ep; [|by left].
  cbn [mbind option_bind]. destruct (strstr (drop _ p) _) as [q|] eqn:Eq; [|by left]. right.
  apply strstr_Some in Ep as (a & b & -> & ->). unfold strlen in *.
  rewrite drop_app_length in *. apply strstr_Some in Eq as (v & w & -> & ->). exists v.
  intros dst Hd. eexists. split; [done|]. unfold ptr_diff. rewrite length_app, Nat.add_sub.
  assert (nul_free v) as Hv.
  { repeat (apply nul_free_app in Hn as [? Hn]). done. }
  destruct (Nat.leb_spec (length dst) (length v)).
  - apply memcpy_terminated; [lia|lia|done].
  - destruct (memcpy_terminated dst v (close_tag tag ++ w) (length v)) as [E1 E2]; [done..|].
    split; [|done]. rewrite E1, !take_ge by lia. done.
Qed.

Lemma parse_text_typed n line tag dst :
  0 < n → nul_free line → terminated n dst →
  terminated n (default dst (parse_text line tag dst)).
Proof.
  intros Hpos Hn [Hl Ht]. destruct (parse_text_found line tag Hn) as [H|[v H]]; [by rewrite H|].
  destruct (H dst) as (d & -> & Hc & Hd); [lia|]. cbn. unfold terminated.
  rewrite Hc, Hd, length_take. lia.
Qed.

Lemma atoi_range s : in_s 32 (atoi s).
Proof. unfold atoi, s32, wraps, in_s. pose proof (Z.mod_pos_bound (strtol10 s + 2 ^ (32 - 1)) (2 ^ 32)). lia. Qed.

(** The number read, and that it does not depend on what [buf] held. *)
Lemma parse_int_typed junk junk' line tag x :
  length junk = 64 → length junk' = 64 → nul_free line → in_s 32 x →
  in_s 32 (default x (parse_int junk line tag)) ∧ parse_int junk' line tag = parse_int junk line tag.
Proof.
  intros Hj Hj' Hn Hx. unfold parse_int. destruct (parse_text_found line tag Hn) as [H|[v H]].
  { by rewrite !H. }
  destruct (H junk) as (d & -> & Hc & _); [lia|]. destruct (H junk') as (d' & -> & Hc' & _); [lia|].
  cbn. rewrite Hc, Hc', Hj, Hj'. split; [apply atoi_range|done].
Qed.

Lemma parse_u16_typed junk junk' line tag x :
  length junk = 64 → length junk' = 64 → nul_free line → in_u 16 x →
  in_u 16 (default x (parse_u16 junk line tag)) ∧ parse_u16 junk' line tag = parse_u16 junk line tag.
Proof.
  intros Hj Hj' Hn Hx. unfold parse_u16. destruct (parse_text_found line tag Hn) as [H|[v H]].
  { by rewrite !H. }
  destruct (H junk) as (d & -> & Hc & _); [lia|]. destruct (H junk') as (d' & -> & Hc' & _); [lia|].
  cbn. rewrite Hc, Hc', Hj, Hj'. split; [by apply wrapu_range|done].
Qed.

Lemma load_line_typed junk junk' c line :
  length junk = 64 → length junk' = 64 → nul_free line → well_typed c →
  well_typed (load_line junk c line) ∧ load_line junk' c line = load_line junk c line.
Proof.
  intros Hj Hj' Hn (Hb & Hl & Hw & Hp & Hu & Hi). rewrite !Forall_cons in Hi.
  destruct Hi as (H1 & H2 & H3 & H4 & H5 & H6 & _). split.
  - split_and!; cbn; [by apply parse_text_typed; [lia|..]|by apply parse_text_typed; [lia|..]|
      exact Hw| |exact Hu|].
    + by apply (parse_u16_typed junk junk').
    + repeat (apply Forall_cons_2; [by apply (parse_int_typed junk junk')|]). constructor.
  - unfold load_line. f_equal; f_equal;
      first [by apply (parse_int_typed junk junk' _ _ 0); [done..|] | by apply (parse_u16_typed junk junk' _ _ 0)].
Qed.

Lemma load_lines_typed junk junk' ls c :
  length junk = 64 → length junk' = 64 → Forall nul_free ls → well_typed c →
  well_typed (foldl (load_line junk) c ls) ∧
  foldl (load_line junk') c ls = foldl (load_line junk) c ls.
Proof.
  intros Hj Hj' Hls. revert c. induction Hls as [|l ls Hl Hls IH]; intros c Hc; cbn [foldl]; [done|].
  destruct (load_line_typed junk junk' c l Hj Hj' Hl Hc) as [H1 ->]. by apply IH.
Qed.

Lemma config_default_typed : well_typed vts_config_default.
Proof. by_evaluation. Qed.

(** C33: the configuration is well typed whatever the file holds. For any bytes, NULs, unclosed
    or repeated tags and numbers of any length included, the loader ends with every array
    terminated inside its bounds and every number in the range of its field; and the result
    does not depend on the uninitialised buffer that the numbers are copied to. *)
Theorem config_well_typed (junk junk' : bytes) (src : source) :
  length junk = 64 → length junk' = 64 →
  ∃ code c, vts_config_load junk src false = (code, Some c) ∧ well_typed c ∧
    vts_config_load junk' src false = (code, Some c).
Proof.
  intros Hj Hj'. destruct src as [| |text]; cbn [vts_config_load].
  - eexists _, _. split; [done|]. split; [apply config_default_typed|done].
  - eexists _, _. split; [done|]. split; [apply config_default_typed|done].
  - destruct (load_lines_typed junk junk' (cstr <$> fgets_all 512 text) vts_config_default Hj Hj')
      as [H1 H2].
    + apply Forall_fmap, Forall_forall. intros l _. apply cstr_nul_free.
    + apply config_default_typed.
    + eexists _, _. split; [done|]. split; [done|]. by rewrite H2.
Qed.

Lemma config_well_typed_witness :
  let text := lit "<port>-1</port>" ++ [LF; NUL; LF] ++ lit "<bind_addr>" ++ replicate 700 "x"%char
              ++ lit "</bind_addr><retry_max>99999999999</retry_max>" in
  ∃ code c, vts_config_load (replicate 64 "?"%char) (Contents text) false = (code, Some c)
    ∧ well_typed c ∧ port c = 65535%Z ∧ in_s 32 (retry_max c).
Proof.
  intros text.
  destruct (config_well_typed (replicate 64 "?"%char) (zeros 64) (Contents text))
    as (code & c & E & H & _); [reflexivity|reflexivity|].
  exists code, c. split; [exact E|]. split; [exact H|]. split.
  - pose proof (f_equal (λ r, from_option port 0%Z r.2) E) as Ep. cbn [snd from_option] in Ep.
    etransitivity; [symmetry; exact Ep|]. vm_compute. reflexivity.
  - destruct H as (_ & _ & _ & _ & _ & H). rewrite !Forall_cons in H. apply H.
Defined.
