(* ===== verification/Daemon.v ===== *)
(** * Daemon: userspace/vts/src/main.c

    The options of vts, its start-up and its shutdown as the sequence of calls they make.  The
    results of the calls that can fail are arguments, and so is the number of times [pause]
    returns before a signal handler has set [g_stop]. *)
From stdpp Require Import prelude strings list.
From Stdlib Require Import Ascii ZArith Lia.
From S2P Require Import Prelude CString Config.

Local Open Scope Z_scope.

Record options := mk_options { fifo_path : bytes; cap : Z; max_mb : Z }.

Definition options_default : options := mk_options (lit "logs/vts_input.fifo") 65536 10.

Definition set_path (p : bytes) (a : options) : options := mk_options p (cap a) (max_mb a).
Definition set_cap (n : Z) (a : options) : options := mk_options (fifo_path a) n (max_mb a).
Definition set_max_mb (n : Z) (a : options) : options := mk_options (fifo_path a) (cap a) n.

(** The loop over [argv[1..]]; [None]: usage. *)
Fixpoint parse_args (args : list bytes) (a : options) : option options :=
  match args with
  | [] => Some a
  | x :: v :: args =>
    if strcmp_eq x (lit "-f") then parse_args args (set_path v a)
    else if strcmp_eq x (lit "-c") then parse_args args (set_cap (u64 (atol v)) a)
    else if strcmp_eq x (lit "-m") then parse_args args (set_max_mb (u64 (atol v)) a)
    else None
  | [_] => None
  end.

(** The calls of the daemon, in order. *)
Inductive call :=
  | SetMaxBytes (n : Z)
  | FifoInit (cap : Z)
  | SpawnRecv (path : bytes)
  | SpawnCoords
  | SpawnNet
  | Pause
  | Sleep (secs : Z)
  | JoinCoords
  | JoinRecv
  | FifoFree
  | CancelNet
  | JoinNet
  | PrintMetrics
  | LoadConfig (rc : Z) (c : option vts_config).

(** What the calls answer; [cfg] is the file that VTS_CONFIG or its default names. *)
Record env := mk_env {
  e_fifo_init : Z;
  e_spawn_recv : Z;
  e_spawn_coords : Z;
  e_spawn_net : Z;
  e_pauses : nat;
  e_junk : bytes;
  e_cfg : source }.

Definition vts_threads_start (e : env) (path : bytes) (cap : Z) : Z * list call :=
  if negb (e_fifo_init e =? 0) then (-1, [FifoInit cap])
  else if negb (e_spawn_recv e =? 0) then (-1, [FifoInit cap; SpawnRecv path])
  else if negb (e_spawn_coords e =? 0) then (-1, [FifoInit cap; SpawnRecv path; SpawnCoords])
  else (0, [FifoInit cap; SpawnRecv path; SpawnCoords]).

(** The waiting loop of [vts_threads_join_all]; [stop n] is what test number [n] of [g_stop]
    reads. *)
Fixpoint join_wait (stop : nat → bool) (fuel n : nat) (waited timeout_ms : Z) : res (list call) :=
  match fuel with
  | O => NoFuel
  | S fuel =>
    if (waited <? timeout_ms) && negb (stop n) then
      match join_wait stop fuel (S n) (waited + 1) timeout_ms with
      | Done cs => Done (Sleep 1000 :: cs)
      | Undef => Undef
      | NoFuel => NoFuel
      end
    else Done []
  end.

Definition vts_threads_join_all (stop : nat → bool) (fuel : nat) (timeout_ms : Z) : res (list call) :=
  match join_wait stop fuel 0 0 timeout_ms with
  | Done cs => Done (cs ++ [JoinCoords; JoinRecv; FifoFree])
  | Undef => Undef
  | NoFuel => NoFuel
  end.

(** The exit status and the calls; [g_stop] is 1 when the threads are joined. *)
Definition main (e : env) (argv : list bytes) (fuel : nat) : res (Z * list call) :=
  match parse_args (tail argv) options_default with
  | None => Done (2, [])
  | Some a =>
    let calls := [SetMaxBytes (u64 (max_mb a * 1024 * 1024))] in
    let '(rc, started) := vts_threads_start e (fifo_path a) (cap a) in
    let calls := calls ++ started in
    if negb (rc =? 0) then Done (1, calls)
    else
      let calls := calls ++ [SpawnNet] in
      if negb (e_spawn_net e =? 0) then Done (1, calls)
      else
        let calls := calls ++ replicate (e_pauses e) Pause in
        match vts_threads_join_all (λ _, true) fuel 1000 with
        | Done joined =>
          let '(rc, c) := vts_config_load (e_junk e) (e_cfg e) false in
          Done (0, calls ++ joined ++ [CancelNet; JoinNet; PrintMetrics; LoadConfig rc c])
        | Undef => Undef
        | NoFuel => NoFuel
        end
  end.

(** ** The contract *)

Inductive opt := OptF (p : bytes) | OptC (v : bytes) | OptM (v : bytes).

Definition words (o : opt) : list bytes :=
  match o with
  | OptF p => [lit "-f"; p] | OptC v => [lit "-c"; v] | OptM v => [lit "-m"; v]
  end.

Definition effect (a : options) (o : opt) : options :=
  match o with
  | OptF p => set_path p a | OptC v => set_cap (u64 (atol v)) a | OptM v => set_max_mb (u64 (atol v)) a
  end.

(** Later options win. *)
Definition settings (os : list opt) : options := foldl effect options_default os.

Definition starts (e : env) : Prop :=
  e_fifo_init e = 0 ∧ e_spawn_recv e = 0 ∧ e_spawn_coords e = 0 ∧ e_spawn_net e = 0.

Definition startup (a : options) : list call :=
  [SetMaxBytes (u64 (max_mb a * 1024 * 1024)); FifoInit (cap a); SpawnRecv (fifo_path a);
   SpawnCoords; SpawnNet].

(** ** Lemmas *)

Lemma parse_args_words os : ∀ a, parse_args (os ≫= words) a = Some (foldl effect a os).
Proof. induction os as [|o os IH]; intros a; [done|]. destruct o; apply IH. Qed.

Lemma parse_args_only n : ∀ args a b,
  (length args ≤ n)%nat → parse_args args a = Some b → ∃ os, args = os ≫= words ∧ b = foldl effect a os.
Proof.
  induction n as [|n IH]; intros args a b Hn; destruct args as [|x [|v args]]; cbn [parse_args length] in *;
    try lia; try done.
  - intros [= <-]. by exists [].
  - intros [= <-]. by exists [].
  - unfold strcmp_eq. repeat case_bool_decide; subst; [..|done];
      intros (os & -> & ->)%IH; try lia.
    + by exists (OptF v :: os).
    + by exists (OptC v :: os).
    + by exists (OptM v :: os).
Qed.

Lemma join_wait_stopped fuel n waited timeout_ms :
  join_wait (λ _, true) (S fuel) n waited timeout_ms = Done [].
Proof. cbn [join_wait]. by rewrite andb_false_r. Qed.

(** Without a stop request the wait is of 1000 seconds for every millisecond of the timeout. *)
Lemma join_wait_sleeps t : ∀ fuel n waited,
  (t < fuel)%nat → join_wait (λ _, false) fuel n waited (waited + Z.of_nat t) = Done (replicate t (Sleep 1000)).
Proof.
  induction t as [|t IH]; intros [|fuel] n waited Hf; try lia; cbn [join_wait].
  - by rewrite Z.add_0_r, Z.ltb_irrefl.
  - destruct (Z.ltb_spec waited (waited + Z.of_nat (S t))); [|lia]. cbn [andb negb].
    replace (waited + Z.of_nat (S t)) with ((waited + 1) + Z.of_nat t) by lia. by rewrite IH by lia.
Qed.

(** ** Properties *)

(** C40: the life of the daemon. An argument vector that is not a sequence of options is refused
    with status 2 before anything is started; any other is read with later options winning and
    the 64-bit wrap-around of the numbers. If a start-up call fails the status is 1, and
    nothing that was started is stopped. Otherwise the threads run until a signal, are joined,
    the ring is freed, and the status is 0; the configuration file is loaded by the last call
    of all, so that what it holds has no influence on any other. *)
Theorem vts_main_outcome (e : env) (argv : list bytes) (fuel : nat) :
  (0 < fuel)%nat →
  (main e argv fuel = Done (2, []) ∧ ¬ ∃ os, tail argv = os ≫= words) ∨
  ∃ os, tail argv = os ≫= words ∧
    (starts e ∧ main e argv fuel = Done (0, startup (settings os) ++ replicate (e_pauses e) Pause
        ++ [JoinCoords; JoinRecv; FifoFree; CancelNet; JoinNet; PrintMetrics;
            LoadConfig (vts_config_load (e_junk e) (e_cfg e) false).1
              (vts_config_load (e_junk e) (e_cfg e) false).2]) ∨
     ¬ starts e ∧ ∃ done todo, main e argv fuel = Done (1, done) ∧ startup (settings os) = done ++ todo).
Proof.
  intros Hf. destruct fuel as [|fuel]; [lia|]. unfold main.
  destruct (parse_args (tail argv) options_default) as [a|] eqn:E.
  2:{ left. split; [done|]. intros [os Hos]. rewrite Hos, parse_args_words in E. done. }
  apply (parse_args_only (length (tail argv))) in E as (os & Hos & ->); [|done].
  fold (settings os). right. exists os. split; [exact Hos|].
  unfold vts_threads_start, vts_threads_join_all, starts. rewrite join_wait_stopped.
  destruct (Z.eqb_spec (e_fifo_init e) 0) as [H1|H1]; cbn [negb Z.eqb].
  2:{ right. split; [tauto|]. eexists _, _. split; [done|]. reflexivity. }
  destruct (Z.eqb_spec (e_spawn_recv e) 0) as [H2|H2]; cbn [negb Z.eqb].
  2:{ right. split; [tauto|]. eexists _, _. split; [done|]. reflexivity. }
  destruct (Z.eqb_spec (e_spawn_coords e) 0) as [H3|H3]; cbn [negb Z.eqb].
  2:{ right. split; [tauto|]. eexists _, _. split; [done|]. reflexivity. }
  destruct (Z.eqb_spec (e_spawn_net e) 0) as [H4|H4]; cbn [negb].
  2:{ right. split; [tauto|]. eexists _, []. split; [done|]. by rewrite app_nil_r. }
  left. split; [done|]. destruct (vts_config_load (e_junk e) (e_cfg e) false) as [rc c]. done.
Qed.

Lemma vts_main_outcome_witness :
  let e := mk_env 0 0 0 0 2 (replicate 64 "?"%char) NoPath in
  0 < 5 ∧ ∃ os, [lit "-c"; lit "16"; lit "-f"; lit "in"; lit "-c"; lit "-1"] = os ≫= words ∧
    main e [lit "vts"; lit "-c"; lit "16"; lit "-f"; lit "in"; lit "-c"; lit "-1"] 5
    = Done (0, startup (settings os) ++ [Pause; Pause] ++
        [JoinCoords; JoinRecv; FifoFree; CancelNet; JoinNet; PrintMetrics;
         LoadConfig 0 (Some vts_config_default)])
    ∧ cap (settings os) = 2 ^ 64 - 1.
Proof.
  intros e. split; [lia|].
  destruct (vts_main_outcome e [lit "vts"; lit "-c"; lit "16"; lit "-f"; lit "in"; lit "-c"; lit "-1"] 5
    ltac:(lia)) as [[_ H]|(os & Hos & H)].
  - destruct H. exists [OptC (lit "16"); OptF (lit "in"); OptC (lit "-1")]. reflexivity.
  - exists os. split; [exact Hos|]. destruct H as [[_ H]|[H _]].
    + split; [exact H|].
      pose proof (parse_args_words os options_default) as E. rewrite <- Hos in E.
      assert (parse_args [lit "-c"; lit "16"; lit "-f"; lit "in"; lit "-c"; lit "-1"] options_default
        = Some (mk_options (lit "in") (2 ^ 64 - 1) 10)) as E2 by (vm_compute; reflexivity).
      pose proof (eq_trans (eq_sym E2) E) as E3. injection E3 as E3. unfold settings. rewrite <- E3. reflexivity.
    + destruct H. repeat split.
Defined.
