(* ===== verification/XmlLoader.v ===== *)
(** * XmlLoader: userspace/loc_gen/src/xml_loader.c and compat_shim.c

    The room list of an XML file: the file is read into a buffer that doubles, every [<room ...>]
    is cut out, and three attributes are searched in it.  The bytes that [realloc] adds hold
    anything; [realloc] succeeds.  [Undef] is an access outside an array. *)
From stdpp Require Import prelude strings list.
From Stdlib Require Import Ascii ZArith Lia.
From S2P Require Import Prelude CString.

(** ** loc_api.h *)

Inductive room_state_t := ROOM_STOPPED | ROOM_STARTED.

(** [char id[64]], [char type[32]]: the contents of the arrays. *)
Record room_t := mk_room { id : bytes; type : bytes; state : room_state_t }.

Definition zeros (n : nat) : bytes := replicate n NUL.
Definition room_zero : room_t := mk_room (zeros 64) (zeros 32) ROOM_STOPPED.

#[export] Instance room_state_eq_dec : EqDecision room_state_t.
Proof. solve_decision. Defined.

(** [None] is the null pointer. *)
Definition room_state_from_str (s : option bytes) : room_state_t :=
  match s with
  | None => ROOM_STOPPED
  | Some s => if strcmp_eq s (lit "started") then ROOM_STARTED else ROOM_STOPPED
  end.

Definition room_state_str (s : room_state_t) : bytes :=
  match s with ROOM_STARTED => lit "started" | ROOM_STOPPED => lit "stopped" end.

(** ** Reading the file *)

Section load.
Context (fresh : nat → ascii).

Definition realloc (buf : bytes) (cap : nat) : bytes :=
  buf ++ (fresh <$> seq (length buf) (cap - length buf)).

(** One turn of the [fgets] loop; [cap] is the buffer's length, 0 for NULL. *)
Definition append_line (buf : bytes) (len : nat) (line : bytes) : option (bytes * nat) :=
  let L := strlen line in
  let cap := length buf in
  let buf :=
    if cap <? len + L + 1 then realloc buf (if cap =? 0 then 4096 else cap * 2) else buf in
  if len + L <=? length buf then Some (take len buf ++ line ++ drop (len + L) buf, len + L) else None.

Fixpoint read_lines (buf : bytes) (len : nat) (lines : list bytes) : option (bytes * nat) :=
  match lines with
  | [] => Some (buf, len)
  | l :: lines => '(buf, len) ← append_line buf len l; read_lines buf len lines
  end.

(** ** Parsing *)

(** The attribute's text, at most [max] bytes of it. *)
Definition attribute (tag key : bytes) (max : nat) : option bytes :=
  p ← strstr tag (key ++ ["="%char; QUOTE]);
  let p := drop (length key + 2) p in
  q ← strchr p QUOTE;
  let n := ptr_diff q p in
  let n := if max <? n then max else n in
  Some (take n p).

(** [memcpy(dst, v, n); dst[n] = 0]. *)
Definition store_str (dst v : bytes) : bytes := <[length v := NUL]> (memcpy dst v (length v)).

Definition room_of_tag (tag : bytes) : room_t :=
  let r := room_zero in
  let r := match attribute tag (lit "id") 63 with
           | Some v => mk_room (store_str (id r) v) (type r) (state r) | None => r end in
  let r := match attribute tag (lit "type") 31 with
           | Some v => mk_room (id r) (store_str (type r) v) (state r) | None => r end in
  match attribute tag (lit "state") 31 with
  | Some v => mk_room (id r) (type r) (room_state_from_str (Some (cstr (memcpy (zeros 32) v (length v)))))
  | None => r end.

(** [a[0] == 0] *)
Definition starts_nul (a : bytes) : bool :=
  match a with c :: _ => Ascii.eqb c NUL | [] => true end.

(** The loop over [<room]; [items] are the first [cnt] of [allocd] rooms. *)
Fixpoint parse_rooms (fuel : nat) (p : bytes) (items : list room_t) (allocd : nat) :
    res (list room_t) :=
  match fuel with
  | O => NoFuel
  | S fuel =>
    match strstr p (lit "<room") with
    | None => Done items
    | Some p =>
      match strchr p ">"%char with
      | None => Done items
      | Some e =>
        let L := ptr_diff e p + 1 in
        let L := if 511 <? L then 511 else L in
        let r := room_of_tag (take L p) in
        if starts_nul (id r) || starts_nul (type r) then parse_rooms fuel (tail e) items allocd
        else
          let allocd := if length items =? allocd then (if allocd =? 0 then 8 else allocd * 2)
                        else allocd in
          if length items <? allocd then parse_rooms fuel (tail e) (items ++ [r]) allocd
          else Undef
      end
    end
  end.

(** [file] is [None] when it cannot be opened; the list is [None] where [out] is not written. *)
Definition loc_load_rooms_xml (file : option bytes) : res (Z * option (list room_t)) :=
  match file with
  | None => Done ((-1)%Z, None)
  | Some contents =>
    match read_lines [] 0 (cstr <$> fgets_all 1024 contents) with
    | None => Undef
    | Some (buf, len) =>
      if length buf =? 0 then Done ((-2)%Z, None)
      else if len <? length buf then
        let s := cstr (<[len := NUL]> buf) in
        match parse_rooms (S (length s)) s [] 0 with
        | Done items => Done (0%Z, Some items)
        | Undef => Undef
        | NoFuel => NoFuel
        end
      else Undef
    end
  end.

(** ** compat_shim.c *)

Definition room_line (r : room_t) : bytes :=
  lit "id=" ++ cstr (id r) ++ lit " type=" ++ cstr (type r) ++ lit " state="
  ++ room_state_str (state r) ++ [LF].

(** A store of [d] at [out + off]: [None] when it does not stay inside the array. *)
Definition store_at (out : bytes) (off : nat) (d : bytes) : option bytes :=
  if off + length d <=? length out then Some (take off out ++ d ++ drop (off + length d) out)
  else None.

(** [snprintf(out + off, size, ...)]: the text that fits, a NUL. *)
Definition snprintf_at (out : bytes) (off size : nat) (full : bytes) : option bytes :=
  if size =? 0 then Some out else store_at out off (snprintf_str size full ++ [NUL]).

(** The loop; [outlen] is what the caller says of the array.  The test that ends it keeps [off]
    below [outlen], so that [outlen - off] does not wrap. *)
Fixpoint write_rooms (outlen : nat) (out : bytes) (off : nat) (rl : list room_t) : option bytes :=
  match rl with
  | [] => Some out
  | r :: rl =>
    let wrote := length (room_line r) in
    out ← snprintf_at out off (if off <? outlen then outlen - off else 0) (room_line r);
    if outlen - off <=? wrote then
      let off := outlen - 1 in store_at out off [NUL]
    else write_rooms outlen out (off + wrote) rl
  end.

(** [out] is [None] for NULL; a store outside the array is undefined. *)
Definition loc_read_rooms (file : option bytes) (out : option bytes) (outlen : nat) :
    res (Z * option bytes) :=
  match out with
  | None => Done ((-1)%Z, out)
  | Some buf =>
    if outlen =? 0 then Done ((-1)%Z, out)
    else
      match store_at buf 0 [NUL] with
      | None => Undef
      | Some buf =>
        match loc_load_rooms_xml file with
        | Done (0%Z, Some rl) =>
          match write_rooms outlen buf 0 rl with
          | Some buf => Done (0%Z, Some buf)
          | None => Undef
          end
        | Done _ => Done ((-1)%Z, Some buf)
        | Undef => Undef
        | NoFuel => NoFuel
        end
      end
  end.
End load.

(** [room_list_t]: the array, or NULL, and the number of its rooms.  [loc_free_rooms] frees the
    array; the list that it leaves is empty, so that freeing it again frees nothing. *)
Record room_list_t := mk_room_list { items : option (list room_t); count : nat }.

(** The array freed, and the list left behind. *)
Definition loc_free_rooms (rl : option room_list_t) : option (list room_t) * option room_list_t :=
  match rl with
  | None => (None, None)
  | Some rl => (items rl, Some (mk_room_list None 0))
  end.

Lemma loc_free_rooms_again rl : (loc_free_rooms (loc_free_rooms rl).2).1 = None.
Proof. by destruct rl. Qed.

(** ** Lemmas: the buffer *)

Section buffer.
Context (fresh : nat → ascii).

Definition buffer_ok (buf : bytes) (len : nat) (text : bytes) : Prop :=
  len = length text ∧ take len buf = text ∧
  (buf = [] ∨ len < length buf ∧ 4096 ≤ length buf).

Lemma length_realloc buf cap : length buf ≤ cap → length (realloc fresh buf cap) = cap.
Proof. intros. unfold realloc. rewrite length_app, length_fmap, length_seq. lia. Qed.

Lemma append_line_ok buf len text line :
  buffer_ok buf len text → length line < 1024 →
  ∃ buf', append_line fresh buf len line = Some (buf', len + length line) ∧
    buf' ≠ [] ∧ buffer_ok buf' (len + length line) (text ++ line).
Proof.
  intros (-> & Ht & Hb) Hl. unfold append_line, strlen.
  set (buf1 := if length buf <? length text + length line + 1 then _ else buf).
  assert (take (length text) buf1 = text ∧ length text + length line < length buf1
    ∧ 4096 ≤ length buf1) as (Ht1 & Hlt & Hge).
  { unfold buf1. destruct (Nat.ltb_spec (length buf) (length text + length line + 1)) as [Hc|Hc].
    - assert (length text ≤ length buf) as Hle.
      { destruct Hb as [->|[? _]]; [|lia]. rewrite take_nil in Ht. subst. simpl. lia. }
      destruct (Nat.eqb_spec (length buf) 0) as [E|E].
      + split; [unfold realloc; rewrite take_app_le by done; done|].
        rewrite length_realloc by lia. destruct text; simpl in *; lia.
      + destruct Hb as [->|[? ?]]; [done|].
        split; [unfold realloc; rewrite take_app_le by done; done|].
        rewrite length_realloc by lia. lia.
    - destruct Hb as [->|[? ?]]; simpl in *; [lia|]. split; [done|]. lia. }
  destruct (Nat.leb_spec (length text + length line) (length buf1)); [|lia].
  eexists. split; [done|]. rewrite Ht1.
  assert (length (text ++ line ++ drop (length text + length line) buf1) = length buf1) as El
    by (rewrite !length_app, length_drop; lia).
  split; [intros E; rewrite E in El; simpl in El; lia|].
  split; [by rewrite length_app|]. split.
  - rewrite app_assoc, <- length_app. apply take_app_length.
  - right. rewrite El. lia.
Qed.

Lemma read_lines_ok lines buf len text :
  buffer_ok buf len text → Forall (λ l, length l < 1024) lines →
  ∃ buf' len', read_lines fresh buf len lines = Some (buf', len') ∧
    buffer_ok buf' len' (text ++ concat lines) ∧ (buf' = [] → buf = [] ∧ lines = []).
Proof.
  intros Hb Hl. revert buf len text Hb. induction Hl as [|l lines Hl _ IH]; intros buf len text Hb.
  - exists buf, len. cbn. rewrite app_nil_r. done.
  - cbn [read_lines concat]. destruct (append_line_ok buf len text l Hb Hl) as (b1 & -> & Hne & Hb1).
    cbn. destruct (IH _ _ _ Hb1) as (b2 & l2 & -> & Hb2 & Hn). exists b2, l2.
    rewrite app_assoc. split; [done|]. split; [done|]. intros E. by destruct (Hn E) as [-> _].
Qed.

(** Whatever the file holds, it is read without an access outside the buffer. *)
Lemma load_buffer contents :
  let lines := cstr <$> fgets_all 1024 contents in
  ∃ buf len, read_lines fresh [] 0 lines = Some (buf, len) ∧
    (contents = [] ∧ buf = [] ∨
     contents ≠ [] ∧ len < length buf ∧ cstr (<[len := NUL]> buf) = concat lines).
Proof.
  intros lines.
  destruct (read_lines_ok lines [] 0 []) as (buf & len & E & (Hlen & Ht & Hb) & Hn).
  { split; [done|]. split; [done|]. by left. }
  { apply Forall_fmap, Forall_forall. intros l Hin. cbn.
    pose proof (fgets_all_size 1024 contents l ltac:(lia) Hin). pose proof (cstr_length l). lia. }
  exists buf, len. split; [exact E|]. cbn [app] in *.
  destruct (decide (contents = [])) as [->|Hne].
  - left. split; [done|]. unfold lines in E. cbn in E. by injection E as <- _.
  - right. split; [done|]. destruct Hb as [->|[Hlt _]].
    { exfalso. destruct (Hn eq_refl) as [_ E0]. unfold lines in E0.
      apply fmap_nil_inv in E0. pose proof (fgets_from_concat 1024 [] contents) as Ec.
      unfold fgets_all in E0. rewrite E0 in Ec. simpl in Ec. done. }
    split; [done|]. rewrite insert_take_drop by done. rewrite Ht. apply cstr_app_nul.
    apply nul_free_concat, Forall_fmap, Forall_forall. intros l _. apply cstr_nul_free.
Qed.
End buffer.

(** ** Lemmas: the scan *)

Lemma strstr_length s pat t : strstr s pat = Some t → length t ≤ length s.
Proof. intros (a & b & -> & ->)%strstr_Some. rewrite !length_app. lia. Qed.

(** The scan depends on the text through its first [<room]. *)
Lemma parse_rooms_skip fuel p p' items allocd :
  strstr p (lit "<room") = strstr p' (lit "<room") →
  parse_rooms fuel p items allocd = parse_rooms fuel p' items allocd.
Proof. intros E. destruct fuel; [done|]. cbn [parse_rooms]. by rewrite E. Qed.

Definition wf_room (r : room_t) : Prop :=
  length (id r) = 64 ∧ length (type r) = 32 ∧
  0 < length (cstr (id r)) < 64 ∧ 0 < length (cstr (type r)) < 32.

Lemma store_str_ok n v :
  length v < n → nul_free v →
  length (store_str (zeros n) v) = n ∧ cstr (store_str (zeros n) v) = v.
Proof.
  intros Hn Hv. unfold store_str, memcpy, zeros. rewrite (take_ge v) by lia.
  rewrite drop_replicate, length_insert, length_app, length_replicate. split; [lia|].
  destruct (n - length v) as [|k] eqn:E; [lia|].
  rewrite insert_app_r_alt, Nat.sub_diag by lia. by apply cstr_app_nul.
Qed.

Lemma attribute_ok tag key max v :
  attribute tag key max = Some v → nul_free tag → length v ≤ max ∧ nul_free v.
Proof.
  unfold attribute. intros E Hn. destruct (strstr tag _) as [p|] eqn:Es; [|done]. cbn [mbind option_bind] in E.
  apply strstr_Some in Es as (a & b & -> & ->).
  assert (drop (length key + 2) ((key ++ ["="%char; QUOTE]) ++ b) = b) as Ed.
  { replace (length key + 2) with (length (key ++ ["="%char; QUOTE])) by (rewrite length_app; done).
    apply drop_app_length. }
  rewrite Ed in E. destruct (strchr b QUOTE) as [q|]; [|done]. cbn [mbind option_bind] in E.
  rewrite !nul_free_app in Hn. injection E as <-. split; [|apply nul_free_take; tauto].
  rewrite length_take. destruct (Nat.ltb_spec max (ptr_diff q b)); simpl; lia.
Qed.

Lemma starts_nul_spec a : length a ≠ 0 → starts_nul a = true ↔ cstr a = [].
Proof. destruct a as [|c a]; [done|]. intros _. cbn. by destruct (Ascii.eqb c NUL). Qed.

(** An array as the loader leaves it. *)
Definition stored (n : nat) (o : option bytes) : bytes := from_option (store_str (zeros n)) (zeros n) o.

Lemma room_of_tag_fields tag :
  id (room_of_tag tag) = stored 64 (attribute tag (lit "id") 63) ∧
  type (room_of_tag tag) = stored 32 (attribute tag (lit "type") 31).
Proof.
  unfold room_of_tag. by destruct (attribute tag (lit "id") 63), (attribute tag (lit "type") 31),
    (attribute tag (lit "state") 31).
Qed.

Lemma stored_attribute n max tag key :
  nul_free tag → n = S max →
  length (stored n (attribute tag key max)) = n ∧
  cstr (stored n (attribute tag key max)) = default [] (attribute tag key max) ∧
  length (default [] (attribute tag key max)) < n.
Proof.
  intros Ht Hn. destruct (attribute tag key max) as [v|] eqn:E; cbn [stored from_option].
  - apply attribute_ok in E as [Hl Hv]; [|done].
    destruct (store_str_ok n v) as [-> ->]; [lia|done|]. unfold Datatypes.id. split_and!; [done..|lia].
  - unfold zeros. rewrite length_replicate. subst. by split_and!; simpl; try lia.
Qed.

Lemma room_of_tag_arrays tag :
  nul_free tag →
  length (id (room_of_tag tag)) = 64 ∧ length (cstr (id (room_of_tag tag))) < 64 ∧
  length (type (room_of_tag tag)) = 32 ∧ length (cstr (type (room_of_tag tag))) < 32.
Proof.
  intros Hn. destruct (room_of_tag_fields tag) as [-> ->].
  destruct (stored_attribute 64 63 tag (lit "id") Hn eq_refl) as (? & -> & ?).
  destruct (stored_attribute 32 31 tag (lit "type") Hn eq_refl) as (? & -> & ?). done.
Qed.

(** The scan ends within its fuel and writes inside [items], whatever the text. *)
Lemma parse_rooms_total fuel p items allocd :
  length p < fuel → nul_free p → length items ≤ allocd → Forall wf_room items →
  ∃ rs, parse_rooms fuel p items allocd = Done (items ++ rs) ∧ Forall wf_room rs.
Proof.
  revert p items allocd. induction fuel as [|fuel IH]; intros p items allocd Hf Hn Ha Hi; [lia|].
  cbn [parse_rooms]. destruct (strstr p (lit "<room")) as [p1|] eqn:E1.
  2:{ exists []. rewrite app_nil_r. done. }
  destruct (strchr p1 ">"%char) as [e|] eqn:E2.
  2:{ exists []. rewrite app_nil_r. done. }
  pose proof (strstr_length _ _ _ E1). assert (length p1 < S fuel) as Hp1 by lia.
  apply strstr_Some in E1 as (a & b & -> & Ep). rewrite <- Ep in Hn.
  apply nul_free_app in Hn as [_ Hn1].
  apply strchr_Some in E2 as (a1 & b1 & Ep1 & -> & _). cbn [tail].
  assert (length b1 < fuel) by (rewrite Ep1, length_app in Hp1; simpl in Hp1; lia).
  assert (nul_free b1) by (rewrite Ep1, nul_free_app, nul_free_cons in Hn1; tauto).
  set (tag := take _ p1). assert (nul_free tag) as Ht by by apply nul_free_take.
  destruct (room_of_tag_arrays tag Ht) as (L1 & L2 & L3 & L4).
  destruct (starts_nul (id (room_of_tag tag))) eqn:S1; [by apply IH|].
  destruct (starts_nul (type (room_of_tag tag))) eqn:S2; [by apply IH|]. cbn [orb].
  assert (wf_room (room_of_tag tag)) as Hr.
  { apply not_true_iff_false in S1, S2.
    rewrite starts_nul_spec in S1 by lia. rewrite starts_nul_spec in S2 by lia.
    split; [done|]. split; [done|]. split; (split; [|done]).
    - destruct (cstr (id _)); [done|simpl; lia].
    - destruct (cstr (type _)); [done|simpl; lia]. }
  set (allocd1 := if length items =? allocd then _ else allocd).
  assert (length items < allocd1).
  { unfold allocd1. destruct (Nat.eqb_spec (length items) allocd); [|lia].
    destruct (Nat.eqb_spec allocd 0); lia. }
  destruct (Nat.ltb_spec (length items) allocd1); [|lia].
  destruct (IH b1 (items ++ [room_of_tag tag]) allocd1) as (rs & E & Hrs).
  { done. } { done. } { rewrite length_app. simpl. lia. } { apply Forall_app. auto. }
  exists (room_of_tag tag :: rs). rewrite E, <- app_assoc. split; [done|]. by constructor.
Qed.

(** [allocd] does not show in the result. *)
Lemma parse_rooms_allocd fuel p items a1 a2 :
  length items ≤ a1 → length items ≤ a2 →
  parse_rooms fuel p items a1 = parse_rooms fuel p items a2.
Proof.
  revert p items a1 a2. induction fuel as [|fuel IH]; intros p items a1 a2 H1 H2; [done|].
  cbn [parse_rooms]. destruct (strstr p _) as [p1|]; [|done].
  destruct (strchr p1 _) as [e|]; [|done]. destruct (_ || _); [by apply IH|].
  assert (∀ a, length items ≤ a →
    length items < (if length items =? a then if a =? 0 then 8 else a * 2 else a)) as Ha.
  { intros a Hle. destruct (Nat.eqb_spec (length items) a); [|lia]. destruct (Nat.eqb_spec a 0); lia. }
  pose proof (Ha a1 H1). pose proof (Ha a2 H2).
  destruct (Nat.ltb_spec (length items) (if length items =? a1 then if a1 =? 0 then 8 else a1 * 2 else a1)); [|lia].
  destruct (Nat.ltb_spec (length items) (if length items =? a2 then if a2 =? 0 then 8 else a2 * 2 else a2)); [|lia].
  apply IH; rewrite length_app; simpl; lia.
Qed.

(** ** Lemmas: attributes

    Inside a stretch without [=] that ends in a key, an attribute pattern matches at the key. *)

Lemma key_here a k (b : bytes) :
  "="%char ∉ a → "="%char ∉ k →
  strstr (a ++ k ++ "="%char :: QUOTE :: b) (k ++ ["="%char; QUOTE])
  = Some (k ++ "="%char :: QUOTE :: b).
Proof.
  intros Ha Hk. induction a as [|x a IH].
  - apply strstr_here. rewrite is_prefix_spec. exists b. by rewrite <- app_assoc.
  - apply not_elem_of_cons in Ha as [Hx Ha]. cbn [app]. rewrite strstr_step; [by apply IH|].
    apply not_true_iff_false. rewrite is_prefix_spec. intros [t E].
    rewrite <- app_assoc in E. cbn [app] in E.
    assert (∀ (l : bytes) m t1 t2, "="%char ∉ l → "="%char ∉ m → l ++ "="%char :: t1 = m ++ "="%char :: t2 →
      l = m) as Hinj.
    { clear. induction l as [|y l IH]; intros [|z m] t1 t2 Hl Hm E; [done| | |].
      - injection E as <- _. set_solver.
      - injection E as -> _. set_solver.
      - injection E as <- E. f_equal. eapply IH; [..|done]; set_solver. }
    assert ((x :: a) ++ k = k) as E2.
    { apply (Hinj _ _ (QUOTE :: b) (QUOTE :: t)); [set_solver|done|].
      cbn [app]. rewrite <- app_assoc. exact E. }
    apply (f_equal length) in E2. rewrite length_app in E2. simpl in E2. lia.
Qed.

(** A key that does not end the stretch matches later. *)
Lemma key_later a k (b : bytes) :
  "="%char ∉ a → "="%char ∉ k → k ≠ [] → (∀ x, a ≠ x ++ k) →
  strstr (a ++ "="%char :: b) (k ++ ["="%char; QUOTE]) = strstr b (k ++ ["="%char; QUOTE]).
Proof.
  intros Ha Hk Hne Hs. induction a as [|x a IH].
  - cbn [app]. rewrite strstr_step; [done|]. destruct k as [|y k]; [done|]. cbn [app is_prefix].
    destruct (Ascii.eqb_spec y "="); [set_solver|done].
  - pose proof Ha as Ha'. apply not_elem_of_cons in Ha as [Hx Ha]. cbn [app].
    rewrite strstr_step; [apply IH; [done|]; intros z ->; by apply (Hs (x :: z))|].
    destruct (is_prefix (k ++ ["="%char; QUOTE]) (x :: a ++ "="%char :: b)) eqn:E; [|done].
    exfalso. apply is_prefix_spec in E as [t E].
    assert (is_prefix (k ++ ["="%char]) ((x :: a) ++ "="%char :: b) = true) as E2.
    { apply is_prefix_spec. exists (QUOTE :: t). cbn [app]. rewrite E, <- !app_assoc. done. }
    rewrite is_prefix_delim in E2 by done. apply bool_decide_eq_true_1 in E2.
    by apply (Hs []).
Qed.

Lemma attribute_here a key v b max :
  "="%char ∉ a → "="%char ∉ key → QUOTE ∉ v →
  attribute (a ++ key ++ "="%char :: QUOTE :: v ++ QUOTE :: b) key max = Some (take max v).
Proof.
  intros Ha Hk Hv. unfold attribute. rewrite key_here by done. cbn [mbind option_bind].
  replace (drop (length key + 2) (key ++ "="%char :: QUOTE :: v ++ QUOTE :: b)) with (v ++ QUOTE :: b).
  2:{ rewrite drop_app_ge by lia. by replace (length key + 2 - length key) with 2 by lia. }
  rewrite strchr_found by done. cbn [mbind option_bind]. unfold ptr_diff.
  rewrite length_app, Nat.add_sub. destruct (Nat.ltb_spec max (length v)).
  - by rewrite take_app_le by lia.
  - rewrite take_app_length, take_ge by lia. done.
Qed.

Lemma attribute_later a key b max :
  "="%char ∉ a → "="%char ∉ key → key ≠ [] → (∀ x, a ≠ x ++ key) →
  attribute (a ++ "="%char :: b) key max = attribute b key max.
Proof. intros. unfold attribute. by rewrite key_later. Qed.

(** ** Documents *)

(** A piece of an XML file: text, any other tag, or a room. *)
Inductive piece :=
  | Text (s : bytes) | Tag (body : bytes) | Room (i t : bytes) (s : room_state_t).

Definition room_tag (i t : bytes) (s : room_state_t) : bytes :=
  lit "<room id=" ++ QUOTE :: i ++ QUOTE :: lit " type=" ++ QUOTE :: t ++ QUOTE :: lit " state="
  ++ QUOTE :: room_state_str s ++ QUOTE :: lit "/>".

Definition render (x : piece) : bytes :=
  match x with
  | Text s => s
  | Tag body => "<"%char :: body ++ lit ">"
  | Room i t s => room_tag i t s
  end.

Definition word_ok (v : bytes) : Prop :=
  v ≠ [] ∧ nul_free v ∧ QUOTE ∉ v ∧ "="%char ∉ v ∧ ">"%char ∉ v.

Definition piece_ok (x : piece) : Prop :=
  match x with
  | Text s => "<"%char ∉ s ∧ nul_free s
  | Tag body =>
    "<"%char ∉ body ∧ ">"%char ∉ body ∧ nul_free body ∧ length body ≤ 500 ∧
    (is_prefix (lit "room") body = false ∨
     strstr (render (Tag body)) (lit "id=" ++ [QUOTE]) = None)
  | Room i t s => word_ok i ∧ word_ok t ∧ length i ≤ 200 ∧ length t ≤ 200
  end.

(** The room a piece stands for, as the strings and the state the loader keeps. *)
Definition meaning (x : piece) : option (bytes * bytes * room_state_t) :=
  match x with Room i t s => Some (take 63 i, take 31 t, s) | _ => None end.

Definition shown (r : room_t) : bytes * bytes * room_state_t := (cstr (id r), cstr (type r), state r).

Lemma room_state_str_word s : word_ok (room_state_str s) ∧ length (room_state_str s) = 7.
Proof. destruct s; (split; [|done]); by_evaluation. Qed.

Lemma suffix_ne (l w key : bytes) :
  length w = length key → w ≠ key → ∀ x, l ++ w ≠ x ++ key.
Proof. intros Hl Hw x E. apply Hw. by apply app_inj_2 in E as [_ ?]. Qed.

(** A quoted value does not bring the key that follows it forward. *)
Lemma attribute_after_value v (l w : bytes) key b m :
  "="%char ∉ v → "="%char ∉ l ++ w → "="%char ∉ key → length w = length key → key ≠ [] → w ≠ key →
  attribute (QUOTE :: v ++ QUOTE :: l ++ w ++ "="%char :: b) key m = attribute b key m.
Proof.
  intros Hv Hlw Hk Hl Hne Hw.
  replace (QUOTE :: v ++ QUOTE :: l ++ w ++ "="%char :: b)
    with ((((QUOTE :: v) ++ QUOTE :: l) ++ w) ++ "="%char :: b)
    by (repeat (rewrite <- app_assoc; cbn [app]); done).
  apply attribute_later; [|done|done|by apply suffix_ne].
  rewrite <- app_assoc. apply not_elem_of_cons. split; [done|]. rewrite not_elem_of_app.
  split; [done|]. by apply not_elem_of_cons.
Qed.

Lemma attribute_next_value v (l : bytes) key w b m :
  "="%char ∉ v → "="%char ∉ l → "="%char ∉ key → QUOTE ∉ w →
  attribute (QUOTE :: v ++ QUOTE :: l ++ key ++ "="%char :: QUOTE :: w ++ QUOTE :: b) key m
  = Some (take m w).
Proof.
  intros Hv Hl Hk Hw.
  replace (QUOTE :: v ++ QUOTE :: l ++ key ++ "="%char :: QUOTE :: w ++ QUOTE :: b)
    with (((QUOTE :: v) ++ QUOTE :: l) ++ key ++ "="%char :: QUOTE :: w ++ QUOTE :: b)
    by (repeat (rewrite <- app_assoc; cbn [app]); done).
  apply attribute_here; [|done|done].
  apply not_elem_of_cons. split; [done|]. rewrite not_elem_of_app.
  split; [done|]. by apply not_elem_of_cons.
Qed.

(** The three attributes of a room's tag. *)
Lemma room_tag_attributes i t s m :
  word_ok i → word_ok t →
  attribute (room_tag i t s) (lit "id") m = Some (take m i) ∧
  attribute (room_tag i t s) (lit "type") m = Some (take m t) ∧
  attribute (room_tag i t s) (lit "state") m = Some (take m (room_state_str s)).
Proof.
  intros (_ & _ & Hi & Hie & _) (_ & _ & Ht & Hte & _).
  destruct (room_state_str_word s) as [(_ & _ & Hs & _ & _) _].
  set (b3 := lit "/>").
  set (b2 := QUOTE :: t ++ QUOTE :: lit " " ++ lit "state" ++ "="%char :: QUOTE :: room_state_str s
             ++ QUOTE :: b3).
  split_and!.
  - exact (attribute_here (lit "<room ") (lit "id") i _ m ltac:(by_evaluation) ltac:(by_evaluation) Hi).
  - trans (attribute (QUOTE :: i ++ QUOTE :: lit " " ++ lit "type" ++ "="%char :: b2) (lit "type") m).
    + exact (attribute_later (lit "<roo" ++ lit "m id") (lit "type") _ m ltac:(by_evaluation) ltac:(by_evaluation)
        ltac:(done) (suffix_ne (lit "<roo") (lit "m id") (lit "type") eq_refl ltac:(done))).
    + apply attribute_next_value; [done|by_evaluation|by_evaluation|done].
  - trans (attribute (QUOTE :: i ++ QUOTE :: [] ++ lit " type" ++ "="%char :: b2) (lit "state") m).
    + exact (attribute_later (lit "<ro" ++ lit "om id") (lit "state") _ m ltac:(by_evaluation) ltac:(by_evaluation)
        ltac:(done) (suffix_ne (lit "<ro") (lit "om id") (lit "state") eq_refl ltac:(done))).
    + rewrite attribute_after_value; [|done|by_evaluation|by_evaluation|done|done|done].
      apply attribute_next_value; [done|by_evaluation|by_evaluation|done].
Qed.

Lemma length_room_tag i t s : length (room_tag i t s) = 37 + length i + length t.
Proof.
  unfold room_tag. repeat (rewrite length_app; cbn [length]). destruct (room_state_str_word s) as [_ ->].
  change (length (lit "<room id=")) with 9. change (length (lit " type=")) with 6.
  change (length (lit " state=")) with 7. change (length (lit "/>")) with 2. lia.
Qed.

(** What is kept of a room's tag. *)
Lemma room_of_room_tag i t s :
  word_ok i → word_ok t →
  shown (room_of_tag (room_tag i t s)) = (take 63 i, take 31 t, s) ∧
  starts_nul (id (room_of_tag (room_tag i t s))) = false ∧
  starts_nul (type (room_of_tag (room_tag i t s))) = false.
Proof.
  intros Hi Ht. destruct (room_tag_attributes i t s 63 Hi Ht) as (E1 & _ & _).
  destruct (room_tag_attributes i t s 31 Hi Ht) as (_ & E2 & E3).
  destruct (room_of_tag_fields (room_tag i t s)) as [F1 F2]. rewrite E1 in F1. rewrite E2 in F2.
  destruct Hi as (Hi & Hni & _), Ht as (Ht & Hnt & _). cbn [stored from_option] in F1, F2.
  destruct (store_str_ok 64 (take 63 i)) as [L1 C1];
    [rewrite length_take; lia|by apply nul_free_take|].
  destruct (store_str_ok 32 (take 31 t)) as [L2 C2];
    [rewrite length_take; lia|by apply nul_free_take|].
  assert (state (room_of_tag (room_tag i t s)) = s) as F3.
  { unfold room_of_tag. rewrite E1, E2, E3. by destruct s. }
  unfold shown. rewrite F3, F1, F2, C1, C2. split; [done|].
  split; apply not_true_iff_false; rewrite starts_nul_spec; rewrite ?L1, ?L2, ?C1, ?C2;
    [by destruct i|done|by destruct t|done].
Qed.

(** A tag of a document, cut out and passed. *)
Lemma parse_rooms_tag fuel body rest items allocd :
  is_prefix (lit "room") body = true → ">"%char ∉ body → length body ≤ 509 →
  let r := room_of_tag ("<"%char :: body ++ lit ">") in
  length items ≤ allocd →
  parse_rooms (S fuel) ("<"%char :: (body ++ lit ">") ++ rest) items allocd =
  if starts_nul (id r) || starts_nul (type r) then parse_rooms fuel rest items allocd
  else parse_rooms fuel rest (items ++ [r]) (S (length items)).
Proof.
  intros Hp Hg Hl r Ha. cbn [parse_rooms].
  rewrite strstr_here.
  2:{ apply is_prefix_spec in Hp as [u ->]. apply is_prefix_spec. exists ((u ++ lit ">") ++ rest).
      by rewrite <- !app_assoc. }
  assert ("<"%char :: (body ++ lit ">") ++ rest = ("<"%char :: body) ++ ">"%char :: rest) as E
    by (rewrite <- app_assoc; done).
  rewrite E, strchr_found by (apply not_elem_of_cons; done). cbn [tail].
  assert (ptr_diff (">"%char :: rest) (("<"%char :: body) ++ ">"%char :: rest) = S (length body)) as ->.
  { unfold ptr_diff. rewrite length_app. cbn [length]. lia. }
  destruct (Nat.ltb_spec 511 (S (length body) + 1)); [lia|].
  assert (take (S (length body) + 1) (("<"%char :: body) ++ ">"%char :: rest)
    = "<"%char :: body ++ lit ">") as ->.
  { cbn [app]. rewrite Nat.add_1_r. cbn [take]. f_equal.
    rewrite take_app_ge by lia. by replace (S (length body) - length body) with 1 by lia. }
  fold r. destruct (_ || _); [done|].
  set (a := if length items =? allocd then _ else allocd).
  assert (length items < a).
  { unfold a. destruct (Nat.eqb_spec (length items) allocd); [|lia]. destruct (Nat.eqb_spec allocd 0); lia. }
  destruct (Nat.ltb_spec (length items) a); [|lia].
  apply parse_rooms_allocd; rewrite length_app; simpl; lia.
Qed.

Lemma parse_doc ps : ∀ fuel items allocd,
  Forall piece_ok ps → length (concat (render <$> ps)) < fuel → length items ≤ allocd →
  ∃ rs, parse_rooms fuel (concat (render <$> ps)) items allocd = Done (items ++ rs)
    ∧ shown <$> rs = omap meaning ps.
Proof.
  induction ps as [|x ps IH]; intros fuel items allocd Hok Hf Ha.
  { exists []. rewrite app_nil_r. by destruct fuel; [simpl in Hf; lia|]. }
  apply Forall_cons in Hok as [Hx Hok]. cbn [fmap list_fmap concat] in *.
  destruct x as [s|body|i t s]; cbn [render meaning omap list_omap piece_ok] in *.
  - destruct Hx as [Hlt _]. rewrite length_app in Hf.
    rewrite (parse_rooms_skip _ _ (concat (render <$> ps))) by by apply strstr_skip.
    apply IH; [done|lia|done].
  - destruct Hx as (Hlt & Hgt & Hnul & Hl & Hx). cbn [app length] in *. rewrite !length_app in Hf.
    destruct (is_prefix (lit "room") body) eqn:Hp.
    + destruct Hx as [?|Hx]; [done|]. destruct fuel as [|fuel]; [lia|].
      rewrite parse_rooms_tag by (done || lia).
      destruct (room_of_tag_fields ("<"%char :: body ++ lit ">")) as [-> _].
      assert (attribute ("<"%char :: body ++ lit ">") (lit "id") 63 = None) as ->
        by (unfold attribute; change (lit "id" ++ ["="%char; QUOTE]) with (lit "id=" ++ [QUOTE]); by rewrite Hx).
      cbn [stored from_option zeros replicate starts_nul Ascii.eqb orb].
      apply IH; [done|lia|done].
    + rewrite (parse_rooms_skip _ _ (concat (render <$> ps))); [apply IH; [done|lia|done]|].
      rewrite strstr_step.
      * change (lit "<room") with ("<"%char :: lit "room"). apply strstr_skip.
        rewrite not_elem_of_app. split; [done|]. by_evaluation.
      * change (is_prefix (lit "room") ((body ++ lit ">") ++ concat (render <$> ps)) = false).
        rewrite <- app_assoc. change (lit ">" ++ ?u) with (">"%char :: u).
        by rewrite is_prefix_stop by by_evaluation.
  - destruct Hx as (Hi & Ht & Hil & Htl). pose proof (length_room_tag i t s) as Hlen.
    destruct (room_of_room_tag i t s Hi Ht) as (E1 & E2 & E3).
    rewrite length_app in Hf. destruct fuel as [|fuel]; [lia|].
    destruct (room_state_str_word s) as [(_ & _ & _ & _ & Hsg) _].
    destruct Hi as (_ & _ & _ & _ & Hig), Ht as (_ & _ & _ & _ & Htg).
    set (body := lit "room id=" ++ QUOTE :: i ++ QUOTE :: lit " type=" ++ QUOTE :: t ++ QUOTE
      :: lit " state=" ++ QUOTE :: room_state_str s ++ QUOTE :: lit "/").
    assert (room_tag i t s = "<"%char :: body ++ lit ">") as E.
    { unfold body, room_tag. repeat (rewrite <- app_assoc; cbn [app]). done. }
    assert (length body ≤ 509).
    { clear -Hlen E Hil Htl. clearbody body. rewrite E in Hlen. cbn [length] in Hlen.
      rewrite length_app in Hlen. cbn [length] in Hlen. lia. }
    rewrite E in *. cbn [app]. rewrite parse_rooms_tag; [|done| |done|done].
    + rewrite E2, E3. cbn [orb].
      destruct (IH fuel (items ++ [room_of_tag ("<"%char :: body ++ lit ">")]) (S (length items)))
        as (rs & Ers & Hrs); [done|lia|rewrite length_app; simpl; lia|].
      exists (room_of_tag ("<"%char :: body ++ lit ">") :: rs). rewrite Ers, <- app_assoc.
      split; [done|]. cbn [fmap list_fmap]. by rewrite E1, Hrs.
    + unfold body. repeat (rewrite not_elem_of_app || rewrite not_elem_of_cons).
      split_and!; try done; by_evaluation.
Qed.

Lemma piece_nul_free x : piece_ok x → nul_free (render x).
Proof.
  assert (∀ s, bool_decide (NUL ∉ s) = true → nul_free s) as Hd
    by (intros l ?%bool_decide_eq_true_1; done).
  destruct x as [s|body|i t s]; cbn [piece_ok render].
  - by intros [_ ?].
  - intros (_ & _ & ? & _). rewrite nul_free_cons, nul_free_app. split_and!; [done|done|by apply Hd].
  - intros ((_ & ? & _) & (_ & ? & _) & _). destruct (room_state_str_word s) as [(_ & ? & _) _].
    unfold room_tag. repeat (rewrite nul_free_app || rewrite nul_free_cons).
    split_and!; try done; by apply Hd.
Qed.

Lemma concat_cstr_chunks contents :
  nul_free contents → concat (cstr <$> fgets_all 1024 contents) = contents.
Proof.
  intros Hn. pose proof (fgets_from_concat 1024 [] contents) as E.
  fold (fgets_all 1024 contents) in E. cbn [app] in E.
  rewrite <- E in Hn at 1. rewrite <- E at 2. clear E. revert Hn.
  induction (fgets_all 1024 contents) as [|l ls IH]; [done|]. cbn [concat fmap list_fmap].
  intros [Hl Hls]%nul_free_app. by rewrite cstr_id, IH.
Qed.

(** Whatever the file holds, loading it returns. *)
Lemma load_total fresh file :
  ∃ r, loc_load_rooms_xml fresh file = Done r ∧
    match r with (z, Some rs) => z = 0%Z ∧ Forall wf_room rs | (z, None) => (z < 0)%Z end.
Proof.
  destruct file as [contents|]; [|by eexists]. cbn [loc_load_rooms_xml].
  destruct (load_buffer fresh contents) as (buf & len & -> & H).
  destruct H as [[-> ->]|(Hne & Hlt & _)]; [by eexists|].
  destruct (Nat.eqb_spec (length buf) 0); [lia|]. destruct (Nat.ltb_spec len (length buf)); [|lia].
  set (s := cstr (<[len := NUL]> buf)).
  destruct (parse_rooms_total (S (length s)) s [] 0) as (rs & -> & Hrs);
    [lia|apply cstr_nul_free|done|done|].
  by eexists.
Qed.

(** A store inside the array, after [text]. *)
Lemma store_at_spec out off text d :
  length text = off → take off out = text → off + length d ≤ length out →
  ∃ out', store_at out off d = Some out' ∧ length out' = length out
    ∧ take (off + length d) out' = text ++ d ∧ drop (off + length d) out' = drop (off + length d) out.
Proof.
  intros Hl Ht Hd. unfold store_at. rewrite (proj2 (Nat.leb_le _ _)) by done.
  eexists. split; [done|]. rewrite Ht, app_assoc, <- Hl, <- length_app. split_and!.
  - rewrite !length_app, length_drop. lia.
  - by rewrite take_app_length.
  - by rewrite drop_app_length.
Qed.

Lemma room_line_nul_free r : nul_free (room_line r).
Proof.
  assert (∀ s, bool_decide (NUL ∉ s) = true → nul_free s) as Hd
    by (intros l ?%bool_decide_eq_true_1; done).
  destruct (room_state_str_word (state r)) as [(_ & Hs & _) _].
  unfold room_line. rewrite !nul_free_app. split_and!; try apply cstr_nul_free; try done; by apply Hd.
Qed.

Lemma cstr_prefix buf (s : bytes) n :
  take n buf = s ++ [NUL] → nul_free s → cstr buf = s.
Proof.
  intros E Hs. rewrite <- (take_drop n buf), E, <- app_assoc. by apply cstr_app_nul.
Qed.

(** The shim's loop: from an array that holds [text], the text of the rooms is added, cut to
    what [outlen] bytes can hold; the bytes from [outlen] on keep their values. *)
Lemma write_rooms_spec outlen rl : ∀ out off text,
  length text = off → off < outlen → outlen ≤ length out → nul_free text →
  take (off + 1) out = text ++ [NUL] →
  ∃ out', write_rooms outlen out off rl = Some out' ∧ length out' = length out
    ∧ drop outlen out' = drop outlen out
    ∧ cstr out' = take (outlen - 1) (text ++ concat (room_line <$> rl)).
Proof.
  induction rl as [|r rl IH]; intros out off text Hl Hoff Hlen Hn Ht; cbn [write_rooms fmap list_fmap concat].
  - exists out. split_and!; try done. rewrite app_nil_r, take_ge by lia. by eapply cstr_prefix.
  - assert (take off out = text) as Ht'.
    { replace off with (off `min` (off + 1)) by lia. rewrite <- take_take, Ht, <- Hl.
      apply take_app_length. }
    destruct (Nat.ltb_spec off outlen) as [_|]; [|lia].
    unfold snprintf_at, snprintf_str. destruct (Nat.eqb_spec (outlen - off) 0); [lia|].
    set (w := take (outlen - off - 1) (room_line r)).
    assert (length w ≤ outlen - off - 1) as Hw by (unfold w; rewrite length_take; lia).
    destruct (store_at_spec out off text (w ++ [NUL]) Hl Ht') as (out1 & -> & Hl1 & Ht1 & Hd1);
      [rewrite length_app; simpl; lia|].
    cbn [mbind option_bind]. rewrite length_app in Ht1, Hd1. cbn [length] in Ht1, Hd1.
    pose proof (room_line_nul_free r) as Hr.
    assert (drop outlen out1 = drop outlen out) as Hdo.
    { assert (outlen = off + (length w + 1) + (outlen - (off + (length w + 1)))) as Eo by lia. rewrite Eo.
      by rewrite <- !(drop_drop _ _ (off + (length w + 1))), Hd1. }
    destruct (Nat.leb_spec (outlen - off) (length (room_line r))) as [Hfull|Hfits].
    + assert (length w = outlen - off - 1) as Hlw by (unfold w; rewrite length_take; lia).
      assert (take (outlen - 1) out1 = text ++ w) as Ht2.
      { replace (outlen - 1) with ((outlen - 1) `min` (off + (length w + 1))) by lia.
        rewrite <- take_take, Ht1, app_assoc. apply take_app_length'. rewrite length_app. lia. }
      destruct (store_at_spec out1 (outlen - 1) (text ++ w) [NUL]) as (out2 & -> & Hl2 & Ht3 & Hd3);
        [rewrite length_app; lia|done|simpl; lia|].
      cbn [length] in Ht3, Hd3. replace (outlen - 1 + 1) with outlen in * by lia.
      exists out2. split; [done|]. split; [lia|]. split; [congruence|].
      rewrite (cstr_prefix _ _ _ Ht3) by (rewrite nul_free_app; split; [done|by apply nul_free_take]).
      rewrite take_app_ge by lia. rewrite take_app_le by lia. unfold w. do 2 f_equal. lia.
    + assert (w = room_line r) as Ew by (unfold w; apply take_ge; lia). rewrite Ew in *.
      destruct (IH out1 (off + length (room_line r)) (text ++ room_line r)) as (out' & E1 & E2 & E3 & E4).
      * rewrite length_app. lia.
      * lia.
      * lia.
      * by apply nul_free_app.
      * rewrite <- Nat.add_assoc, Ht1. by rewrite app_assoc.
      * exists out'. split_and!; [done|lia|congruence|]. by rewrite E4, <- app_assoc.
Qed.

(** ** Properties *)

(** C24: a room file is read back. For every document made of text, of other tags and of rooms
    whose attributes are non-empty words without quotes, equal signs or [>] - whatever else
    stands between, and whatever [realloc] returns - the loader returns 0 and exactly the
    rooms, in their order, ids cut to 63 bytes, types to 31, with their states; every array of
    every room is terminated. *)
Theorem rooms_loaded (fresh : nat → ascii) (ps : list piece) :
  Forall piece_ok ps → concat (render <$> ps) ≠ [] →
  ∃ rs, loc_load_rooms_xml fresh (Some (concat (render <$> ps))) = Done (0%Z, Some rs)
    ∧ shown <$> rs = omap meaning ps ∧ Forall wf_room rs.
Proof.
  intros Hok Hne. set (contents := concat (render <$> ps)) in *.
  assert (nul_free contents) as Hn.
  { apply nul_free_concat, Forall_fmap. eapply Forall_impl; [done|]. apply piece_nul_free. }
  destruct (load_total fresh (Some contents)) as ([z o] & E & Hr).
  pose proof E as E'. cbn [loc_load_rooms_xml] in E'.
  destruct (load_buffer fresh contents) as (buf & len & Eb & [[? _]|(_ & Hlt & Hc)]); [done|].
  rewrite Eb in E'. destruct (Nat.eqb_spec (length buf) 0); [lia|].
  destruct (Nat.ltb_spec len (length buf)); [|lia].
  rewrite Hc, concat_cstr_chunks in E' by done.
  destruct (parse_doc ps (S (length contents)) [] 0 Hok) as (rs & Ers & Hrs); [unfold contents; lia|done|].
  fold contents in Ers. rewrite Ers in E'. injection E' as <- <-.
  exists rs. split; [exact E|]. split; [done|]. by destruct Hr.
Qed.

Definition sample_doc : list piece :=
  [Tag (lit "?xml version=1.0?"); Text [LF]; Tag (lit "rooms version=2"); Text [LF; " "%char];
   Room (lit "cpu_room") (lit "cpu") ROOM_STARTED; Text [LF; " "%char];
   Room (lit "mem_room") (lit "mem") ROOM_STOPPED; Text [LF]; Tag (lit "/rooms")].

Lemma rooms_loaded_witness :
  (Forall piece_ok sample_doc ∧ concat (render <$> sample_doc) ≠ []) ∧
  ∃ rs, loc_load_rooms_xml (λ _, "?"%char) (Some (concat (render <$> sample_doc))) = Done (0%Z, Some rs)
    ∧ shown <$> rs = [(lit "cpu_room", lit "cpu", ROOM_STARTED); (lit "mem_room", lit "mem", ROOM_STOPPED)]
    ∧ Forall wf_room rs.
Proof.
  assert (Forall piece_ok sample_doc) as H.
  { repeat apply Forall_cons_2; try apply Forall_nil_2; cbn [piece_ok]; unfold word_ok; split_and!;
      first [left; vm_compute; reflexivity | right; vm_compute; reflexivity
            | by_evaluation]. }
  split; [split; [exact H|discriminate]|].
  apply (rooms_loaded (λ _, "?"%char) sample_doc H). discriminate.
Defined.

(** C38: the old text interface. For any file, any array and any [outlen] of at least one byte
    and at most the array's size, [loc_read_rooms] returns: -1 with an empty string when the
    file cannot be read or is empty, and otherwise 0 with one line per loaded room, the whole
    text cut to what [outlen] bytes can hold and terminated. No store leaves the array, and
    the bytes from [outlen] on keep their values. *)
Theorem loc_read_rooms_text (fresh : nat → ascii) (file : option bytes) (out : bytes) (outlen : nat) :
  0 < outlen ≤ length out →
  ∃ z out', loc_read_rooms fresh file (Some out) outlen = Done (z, Some out')
    ∧ length out' = length out ∧ drop outlen out' = drop outlen out ∧
    (z = (-1)%Z ∧ cstr out' = [] ∧ (file = None ∨ file = Some []) ∨
     z = 0%Z ∧ ∃ rs, loc_load_rooms_xml fresh file = Done (0%Z, Some rs) ∧
       cstr out' = take (outlen - 1) (concat (room_line <$> rs))).
Proof.
  intros [Hpos Hle]. unfold loc_read_rooms. rewrite (proj2 (Nat.eqb_neq outlen 0)) by lia.
  destruct (store_at_spec out 0 [] [NUL] eq_refl eq_refl) as (buf & -> & Hl & Ht & Hd); [simpl; lia|].
  cbn [length Nat.add app] in Ht, Hd.
  assert (drop outlen buf = drop outlen out) as Hdo.
  { assert (outlen = 1 + (outlen - 1)) as -> by lia. by rewrite <- (drop_drop buf _ 1), <- (drop_drop out _ 1), Hd. }
  destruct (load_total fresh file) as ([z [rs|]] & E & Hr); rewrite E.
  - destruct Hr as [-> _].
    destruct (write_rooms_spec outlen rs buf 0 []) as (out' & -> & H1 & H2 & H3);
      [done|lia|lia|unfold nul_free; set_solver|done|].
    exists 0%Z, out'. split; [done|]. split; [lia|]. split; [congruence|]. right. split; [done|].
    exists rs. by split.
  - exists (-1)%Z, buf. split; [by destruct z|]. split; [done|]. split; [done|]. left.
    split; [done|]. split; [apply (cstr_prefix _ [] 1); [done|unfold nul_free; set_solver]|]. destruct file as [contents|]; [right|by left].
    revert E. cbn [loc_load_rooms_xml].
    destruct (load_buffer fresh contents) as (b & len & -> & [[-> ->]|(_ & ? & _)]); [done|].
    destruct (Nat.eqb_spec (length b) 0); [lia|]. destruct (Nat.ltb_spec len (length b)); [|lia].
    by case_match.
Qed.

Lemma loc_read_rooms_text_witness :
  let out := replicate 24 "?"%char in
  ∃ z out', loc_read_rooms (λ _, "?"%char) (Some (concat (render <$> sample_doc))) (Some out) 20
      = Done (z, Some out')
    ∧ length out' = 24 ∧ drop 20 out' = lit "????" ∧ cstr out' = lit "id=cpu_room type=cp".
Proof.
  destruct (loc_read_rooms_text (λ _, "?"%char) (Some (concat (render <$> sample_doc)))
    (replicate 24 "?"%char) 20) as (z & out' & E & Hl & Hd & _); [simpl; lia|].
  exists z, out'. split; [exact E|]. split; [exact Hl|]. split; [exact Hd|].
  revert E. vm_compute. intros E. injection E as _ E. rewrite <- E. reflexivity.
Defined.
