(* ===== verification/RoomStore.v ===== *)
(** * RoomStore: userspace/loc_gen/src/room_store.c

    A singly linked list in a heap.  [calloc] returns a node that is not in use (it succeeds);
    following a pointer to a node that is not in use, or freeing it, is undefined behaviour.
    The list is proved to implement a finite map from ids to rooms, with no node leaked. *)
From stdpp Require Import prelude strings list gmap fin_maps.
From Stdlib Require Import Ascii Lia.
From S2P Require Import Prelude CString XmlLoader.

Abbreviation loc := positive.
Abbreviation ptr := (option positive).   (* [None]: NULL *)

Record node_t := mk_node { r : room_t; next : ptr }.
Record store := mk_store { heap : gmap loc node_t; g_head : ptr }.

Definition calloc (n : node_t) : mon store loc := λ s,
  let l := fresh (dom (heap s)) in Done (l, mk_store (<[l := n]> (heap s)) (g_head s)).

Definition deref (l : loc) : mon store node_t := λ s,
  match heap s !! l with Some n => Done (n, s) | None => Undef end.

Definition assign (l : loc) (n : node_t) : mon store unit := λ s,
  match heap s !! l with
  | Some _ => Done (tt, mk_store (<[l := n]> (heap s)) (g_head s))
  | None => Undef
  end.

Definition free (l : loc) : mon store unit := λ s,
  match heap s !! l with
  | Some _ => Done (tt, mk_store (delete l (heap s)) (g_head s))
  | None => Undef
  end.

Definition set_head (p : ptr) : mon store unit := modify (λ s, mk_store (heap s) p).

(** The fuel of every walk: one more than the nodes in use. *)
Definition walk {A} (f : nat → ptr → mon store A) (p : ptr) : mon store A :=
  k ← gets (λ s, S (size (heap s))); f k p.

Definition same_id (n : node_t) (i : bytes) : bool := strcmp_eq (cstr (id (r n))) i.

Definition room_store_init : mon store Z := set_head None;; mret 0%Z.

Fixpoint deinit_from (fuel : nat) (p : ptr) : mon store unit :=
  match fuel with
  | O => no_fuel
  | S fuel =>
    match p with
    | None => mret tt
    | Some l => n ← deref l; free l;; deinit_from fuel (next n)
    end
  end.

Definition room_store_deinit : mon store unit :=
  h ← gets g_head; walk deinit_from h;; set_head None.

Fixpoint find_from (i : bytes) (fuel : nat) (p : ptr) : mon store ptr :=
  match fuel with
  | O => no_fuel
  | S fuel =>
    match p with
    | None => mret None
    | Some l => n ← deref l; if same_id n i then mret (Some l) else find_from i fuel (next n)
    end
  end.

Definition find_node (i : bytes) : mon store ptr := h ← gets g_head; walk (find_from i) h.

Definition room_store_put (x : room_t) : mon store Z :=
  n ← find_node (cstr (id x));
  match n with
  | None => h ← gets g_head; l ← calloc (mk_node x h); set_head (Some l);; mret 0%Z
  | Some l => n ← deref l; assign l (mk_node x (next n));; mret 0%Z
  end.

(** [pp] is the address of [g_head] ([None]) or of the [next] field of a node. *)
Definition store_through (pp : ptr) (v : ptr) : mon store unit :=
  match pp with
  | None => set_head v
  | Some l => n ← deref l; assign l (mk_node (r n) v)
  end.

Fixpoint del_from (i : bytes) (pp : ptr) (fuel : nat) (p : ptr) : mon store Z :=
  match fuel with
  | O => no_fuel
  | S fuel =>
    match p with
    | None => mret (-1)%Z
    | Some l =>
      n ← deref l;
      if same_id n i then store_through pp (next n);; free l;; mret 0%Z
      else del_from i (Some l) fuel (next n)
    end
  end.

Definition room_store_del (i : bytes) : mon store Z := h ← gets g_head; walk (del_from i None) h.

(** The room stored to [*out], if any. *)
Definition room_store_get (i : bytes) : mon store (Z * option room_t) :=
  n ← find_node i;
  match n with
  | None => mret ((-1)%Z, None)
  | Some l => n ← deref l; mret (0%Z, Some (r n))
  end.

Fixpoint count_from (fuel : nat) (p : ptr) : mon store nat :=
  match fuel with
  | O => no_fuel
  | S fuel =>
    match p with
    | None => mret 0
    | Some l => n ← deref l; c ← count_from fuel (next n); mret (S c)
    end
  end.

(** The second loop of [room_store_all]: [arr[i++] = n->r] in an array of [c] rooms. *)
Fixpoint fill_from (arr : list room_t) (i : nat) (fuel : nat) (p : ptr) : mon store (list room_t) :=
  match fuel with
  | O => no_fuel
  | S fuel =>
    match p with
    | None => mret arr
    | Some l =>
      n ← deref l;
      arr ← lift (if i <? length arr then Some (<[i := r n]> arr) else None);
      fill_from arr (S i) fuel (next n)
    end
  end.

(** [out->items] up to [out->count]. *)
Definition room_store_all : mon store (list room_t) :=
  h ← gets g_head;
  c ← walk count_from h;
  arr ← walk (fill_from (replicate (if c =? 0 then 1 else c) room_zero) 0) h;
  mret (take c arr).

(** ** Representation *)

Definition key (x : room_t) : bytes := cstr (id x).

(** The nodes from [p] up to [m], with what they hold. *)
Fixpoint seg (h : gmap loc node_t) (p : ptr) (ns : list (loc * room_t)) (m : ptr) : Prop :=
  match ns with
  | [] => p = m
  | (l, x) :: ns => p = Some l ∧ ∃ q, h !! l = Some (mk_node x q) ∧ seg h q ns m
  end.

Definition entries (ns : list (loc * room_t)) : list (bytes * room_t) := (λ p, (key p.2, p.2)) <$> ns.

(** The nodes in use are those of the list; ids are distinct. *)
Record holds (s : store) (ns : list (loc * room_t)) : Prop := {
  holds_seg : seg (heap s) (g_head s) ns None;
  holds_locs : NoDup ns.*1;
  holds_dom : dom (heap s) = list_to_set ns.*1;
  holds_keys : NoDup (entries ns).*1 }.

Definition map_of (ns : list (loc * room_t)) : gmap bytes room_t := list_to_map (entries ns).

(** ** Lemmas *)

Lemma entries_keys ns : (entries ns).*1 = key <$> ns.*2.
Proof. unfold entries. by rewrite <- !list_fmap_compose. Qed.

Lemma holds_size s ns : holds s ns → size (heap s) = length ns.
Proof.
  intros H. rewrite <- size_dom, (holds_dom _ _ H), size_list_to_set by by eapply holds_locs.
  by rewrite length_fmap.
Qed.

Lemma seg_ext h h' p ns m :
  seg h p ns m → (∀ l, l ∈ ns.*1 → h' !! l = h !! l) → seg h' p ns m.
Proof.
  revert p. induction ns as [|[l x] ns IH]; intros p; [done|]. cbn [seg].
  intros (-> & q & Hl & Hc) Hh. split; [done|]. exists q. split; [|apply IH; [done|]].
  - rewrite Hh; [done|]. set_solver.
  - intros l' Hl'. apply Hh. set_solver.
Qed.

Lemma seg_app h p a b m : seg h p (a ++ b) m ↔ ∃ k, seg h p a k ∧ seg h k b m.
Proof.
  revert p. induction a as [|[l x] a IH]; intros p; cbn [seg app].
  - split; [by exists p|]. by intros (k & -> & ?).
  - split.
    + intros (-> & q & Hl & (k & ? & ?)%IH). exists k. split; [|done]. split; [done|]. by exists q.
    + intros (k & (-> & q & Hl & ?) & ?). split; [done|]. exists q. split; [done|]. apply IH. by exists k.
Qed.

Lemma seg_insert h p ns m l n : l ∉ ns.*1 → seg h p ns m → seg (<[l := n]> h) p ns m.
Proof.
  intros Hl Hs. eapply seg_ext; [done|]. intros l' Hl'. apply lookup_insert_ne. by intros ->.
Qed.

Lemma seg_delete h p ns m l : l ∉ ns.*1 → seg h p ns m → seg (delete l h) p ns m.
Proof.
  intros Hl Hs. eapply seg_ext; [done|]. intros l' Hl'. apply lookup_delete_ne. by intros ->.
Qed.

Lemma same_id_key x q i : same_id (mk_node x q) i = bool_decide (key x = i).
Proof. done. Qed.

Lemma deref_some (s : store) l n : heap s !! l = Some n → deref l s = Done (n, s).
Proof. unfold deref. by intros ->. Qed.

(** *** Finding *)

Fixpoint find_key (i : bytes) (ns : list (loc * room_t)) : ptr :=
  match ns with
  | [] => None
  | (l, x) :: ns => if bool_decide (key x = i) then Some l else find_key i ns
  end.

Lemma find_from_spec i ns fuel p s :
  seg (heap s) p ns None → length ns < fuel → find_from i fuel p s = Done (find_key i ns, s).
Proof.
  revert fuel p. induction ns as [|[l x] ns IH]; intros [|fuel] p Hs Hf; cbn [length] in Hf;
    try lia; cbn [find_from find_key seg] in *.
  - by rewrite Hs.
  - destruct Hs as (-> & q & Hl & Hs). unfold mbind, mon_bind. rewrite (deref_some _ _ _ Hl).
    rewrite same_id_key. cbn [next]. case_match; [done|]. apply IH; [done|lia].
Qed.

Lemma find_node_spec i s ns : holds s ns → find_node i s = Done (find_key i ns, s).
Proof.
  intros H. unfold find_node, walk, mbind, mon_bind, gets. apply find_from_spec; [apply H|].
  rewrite (holds_size _ _ H). lia.
Qed.

Lemma find_key_Some i ns l :
  find_key i ns = Some l → ∃ a x b, ns = a ++ (l, x) :: b ∧ key x = i.
Proof.
  induction ns as [|[l' x] ns IH]; cbn [find_key]; [done|]. case_bool_decide as Hk.
  - intros [= ->]. by exists [], x, ns.
  - intros (a & y & b & -> & ?)%IH. by exists ((l', x) :: a), y, b.
Qed.

Lemma find_key_None i ns : find_key i ns = None ↔ i ∉ (entries ns).*1.
Proof.
  induction ns as [|[l x] ns IH]; cbn [find_key]; [split; [set_solver|done]|].
  unfold entries in *. cbn [fmap list_fmap fst snd]. rewrite not_elem_of_cons, <- IH.
  case_bool_decide; naive_solver.
Qed.

Lemma entries_app a b : entries (a ++ b) = entries a ++ entries b.
Proof. apply fmap_app. Qed.

(** The map of a list with an entry in the middle. *)
Lemma map_of_middle a l x b :
  NoDup (entries (a ++ (l, x) :: b)).*1 →
  map_of (a ++ (l, x) :: b) = <[key x := x]> (map_of (a ++ b)) ∧ map_of (a ++ b) !! key x = None.
Proof.
  intros Hn. unfold map_of. rewrite !entries_app in *. cbn [entries fmap list_fmap fst snd] in *.
  rewrite fmap_app in Hn. cbn [fmap list_fmap fst] in Hn.
  apply NoDup_app in Hn as (Ha & Hd & [Hb1 Hb2]%NoDup_cons).
  assert (key x ∉ (entries a).*1) as Hx by (intros Hx; apply (Hd _ Hx); set_solver).
  split.
  - change ((λ p : loc * room_t, (key p.2, p.2)) <$> b) with (entries b).
    rewrite !list_to_map_app, list_to_map_cons, insert_union_r; [done|].
    by apply not_elem_of_list_to_map.
  - apply not_elem_of_list_to_map. rewrite fmap_app, not_elem_of_app. done.
Qed.

(** *** Walking *)

Lemma count_from_spec ns fuel p s :
  seg (heap s) p ns None → length ns < fuel → count_from fuel p s = Done (length ns, s).
Proof.
  revert fuel p. induction ns as [|[l x] ns IH]; intros [|fuel] p Hs Hf; cbn [length] in Hf;
    try lia; cbn [count_from seg] in *.
  - by rewrite Hs.
  - destruct Hs as (-> & q & Hl & Hs). unfold mbind, mon_bind. rewrite (deref_some _ _ _ Hl).
    cbn [next]. rewrite (IH fuel q) by (done || lia). done.
Qed.

Lemma fill_from_spec ns fuel p s done arr :
  seg (heap s) p ns None → length ns < fuel → length arr = length ns →
  fill_from (done ++ arr) (length done) fuel p s = Done (done ++ ns.*2, s).
Proof.
  revert fuel p done arr. induction ns as [|[l x] ns IH]; intros [|fuel] p dn arr Hs Hf Ha;
    cbn [length] in *; try lia; cbn [fill_from seg] in *.
  - rewrite Hs. by destruct arr.
  - destruct Hs as (-> & q & Hl & Hs). destruct arr as [|y arr]; [done|]. injection Ha as Ha.
    unfold mbind, mon_bind. rewrite (deref_some _ _ _ Hl). cbn [next r].
    rewrite length_app. cbn [length].
    destruct (Nat.ltb_spec (length dn) (length dn + S (length arr))); [|lia]. cbn [lift].
    rewrite insert_app_r_alt, Nat.sub_diag by lia. cbn [insert list_insert].
    replace (dn ++ x :: arr) with ((dn ++ [x]) ++ arr) by by rewrite <- app_assoc.
    replace (S (length dn)) with (length (dn ++ [x])) by (rewrite length_app; simpl; lia).
    rewrite (IH fuel q) by (done || lia). cbn [fmap list_fmap snd]. by rewrite <- app_assoc.
Qed.

Lemma room_store_all_spec s ns : holds s ns → room_store_all s = Done (ns.*2, s).
Proof.
  intros H. unfold room_store_all, walk, mbind, mon_bind, gets.
  rewrite (holds_size _ _ H), (count_from_spec ns) by (apply H || lia).
  cbv beta iota. rewrite (holds_size _ _ H). destruct (Nat.eqb_spec (length ns) 0) as [E0|E0].
  { apply nil_length_inv in E0 as ->. destruct H as [Hs _ _ _]. cbn [seg] in Hs. by rewrite Hs. }
  pose proof (fill_from_spec ns (S (length ns)) (g_head s) s [] (replicate (length ns) room_zero)
    (holds_seg _ _ H)) as E.
  change (length (@nil room_t)) with 0 in E. rewrite !app_nil_l in E.
  rewrite E by (rewrite ?length_replicate; lia).
  cbn [mret mon_ret]. rewrite take_ge; [done|]. by rewrite length_fmap.
Qed.

Lemma deinit_from_spec ns fuel p s :
  seg (heap s) p ns None → NoDup ns.*1 → dom (heap s) = list_to_set ns.*1 → length ns < fuel →
  deinit_from fuel p s = Done (tt, mk_store ∅ (g_head s)).
Proof.
  revert fuel p s. induction ns as [|[l x] ns IH]; intros [|fuel] p s Hs Hn Hd Hf; cbn [length] in Hf;
    try lia; cbn [deinit_from seg] in *.
  - rewrite Hs. cbn in Hd. apply dom_empty_inv_L in Hd. destruct s as [h g]. cbn in *. by subst.
  - destruct Hs as (-> & q & Hl & Hs). apply NoDup_cons in Hn as [Hln Hn].
    unfold mbind, mon_bind. rewrite (deref_some _ _ _ Hl). unfold free. rewrite Hl. cbn [next].
    apply (IH fuel q (mk_store (delete l (heap s)) (g_head s))); cbn [heap];
      [by apply seg_delete|done| |lia].
    rewrite dom_delete_L, Hd. cbn [fmap list_fmap fst list_to_set]. 
    assert (l ∉ (list_to_set ns.*1 : gset loc)) by by rewrite elem_of_list_to_set.
    set_solver.
Qed.

(** *** Updates *)

Lemma holds_put_new s ns x :
  holds s ns → key x ∉ (entries ns).*1 →
  ∃ s' l, room_store_put x s = Done (0%Z, s') ∧ holds s' ((l, x) :: ns).
Proof.
  intros H Hk. unfold room_store_put. unfold mbind, mon_bind.
  change (cstr (id x)) with (key x).
  rewrite (find_node_spec _ _ _ H). pose proof Hk as Hk0. apply find_key_None in Hk0 as ->.
  unfold gets, calloc, set_head, modify. cbn [mret mon_ret heap g_head].
  set (l := fresh (dom (heap s))).
  assert (l ∉ dom (heap s)) as Hl by apply is_fresh.
  assert (l ∉ ns.*1) as Hln by (rewrite (holds_dom _ _ H), elem_of_list_to_set in Hl; done).
  exists (mk_store (<[l := mk_node x (g_head s)]> (heap s)) (Some l)), l. split; [done|].
  constructor; cbn [heap g_head].
  - cbn [seg]. split; [done|]. exists (g_head s). rewrite lookup_insert_eq. split; [done|].
    apply seg_insert; [done|apply H].
  - cbn. apply NoDup_cons. split; [done|apply H].
  - rewrite dom_insert_L, (holds_dom _ _ H). done.
  - cbn. apply NoDup_cons. split; [exact Hk|apply H].
Qed.

Lemma entries_replace a b l x y :
  key x = key y → (entries (a ++ (l, x) :: b)).*1 = (entries (a ++ (l, y) :: b)).*1.
Proof. intros E. rewrite !entries_app, !fmap_app. cbn. by rewrite E. Qed.

Lemma holds_put_old s a l y b x :
  holds s (a ++ (l, y) :: b) → find_key (key x) (a ++ (l, y) :: b) = Some l → key y = key x →
  ∃ s', room_store_put x s = Done (0%Z, s') ∧ holds s' (a ++ (l, x) :: b).
Proof.
  intros H Hf Hk. unfold room_store_put, mbind, mon_bind. change (cstr (id x)) with (key x).
  rewrite (find_node_spec _ _ _ H), Hf.
  pose proof (holds_seg _ _ H) as Hs. apply seg_app in Hs as (k & Ha & Hb).
  cbn [seg] in Hb. destruct Hb as (-> & q & Hl & Hb).
  rewrite (deref_some _ _ _ Hl). unfold assign. rewrite Hl. cbn [next mret mon_ret].
  pose proof (holds_locs _ _ H) as Hn. rewrite fmap_app in Hn. cbn [fmap list_fmap fst] in Hn.
  apply NoDup_app in Hn as (Hna & Hd & [Hnb Hn]%NoDup_cons).
  assert (l ∉ a.*1) by (intros Hin; apply (Hd _ Hin); set_solver).
  eexists. split; [done|]. constructor; cbn [heap g_head].
  - apply seg_app. exists (Some l). split; [by apply seg_insert|]. cbn [seg]. split; [done|].
    exists q. rewrite lookup_insert_eq. split; [done|by apply seg_insert].
  - pose proof (holds_locs _ _ H) as Hn'. rewrite fmap_app in *. done.
  - rewrite dom_insert_lookup_L by eauto. rewrite (holds_dom _ _ H), !fmap_app. done.
  - rewrite (entries_replace _ _ _ x y) by done. apply H.
Qed.

(** The node at [pp] and what it points to. *)
Definition pointing (s : store) (dn : list (loc * room_t)) (pp p : ptr) : Prop :=
  match pp with
  | None => dn = [] ∧ p = g_head s
  | Some l => ∃ dn' x, dn = dn' ++ [(l, x)] ∧ heap s !! l = Some (mk_node x p)
  end.

(** Unlinking and freeing one node of the list. *)
Lemma unlink_node_spec s dn pp l x q post :
  holds s (dn ++ (l, x) :: post) → pointing s dn pp (Some l) → heap s !! l = Some (mk_node x q) →
  ∃ s', (store_through pp q;; free l;; mret 0%Z) s = Done (0%Z, s') ∧ holds s' (dn ++ post).
Proof.
  intros H Hp Hl. pose proof (holds_seg _ _ H) as Hs. apply seg_app in Hs as (k & Ha & Hb).
  cbn [seg] in Hb. destruct Hb as (-> & q' & Hl' & Hb). rewrite Hl in Hl'. injection Hl' as <-.
  pose proof (holds_locs _ _ H) as Hn. rewrite fmap_app in Hn. cbn [fmap list_fmap fst] in Hn.
  pose proof Hn as Hn'. apply NoDup_app in Hn as (Hna & Hd & [Hnb Hnp]%NoDup_cons).
  assert (l ∉ dn.*1) as Hld by (intros Hin; apply (Hd _ Hin); set_solver).
  assert (∀ h' : gmap loc node_t, dom h' = dom (heap s) ∖ {[l]} → dom h' = list_to_set (dn ++ post).*1) as Hdom.
  { intros h' ->. rewrite (holds_dom _ _ H), !fmap_app. cbn [fmap list_fmap fst].
    rewrite !list_to_set_app_L. cbn [list_to_set].
    assert (l ∉ (list_to_set dn.*1 : gset loc)) by by rewrite elem_of_list_to_set.
    assert (l ∉ (list_to_set post.*1 : gset loc)) by by rewrite elem_of_list_to_set. set_solver. }
  assert (NoDup (dn ++ post).*1) as Hnl.
  { rewrite fmap_app. apply NoDup_app. split_and!; [done| |done]. intros z Hz Hz'. apply (Hd z Hz). set_solver. }
  assert (NoDup (entries (dn ++ post)).*1) as Hnk.
  { pose proof (holds_keys _ _ H) as Hk. rewrite entries_app, fmap_app in *.
    cbn [entries fmap list_fmap fst] in Hk. apply NoDup_app in Hk as (K1 & K2 & [_ K3]%NoDup_cons).
    apply NoDup_app. split_and!; [done| |done]. intros z Hz Hz'. apply (K2 z Hz), elem_of_cons; by right. }
  destruct pp as [l0|]; cbn [pointing store_through] in *; unfold mbind, mon_bind.
  - destruct Hp as (dn' & x0 & -> & Hl0). rewrite (deref_some _ _ _ Hl0). unfold assign.
    rewrite Hl0. cbn [r]. rewrite fmap_app in Hna, Hld. cbn [fmap list_fmap fst] in Hna, Hld.
    rewrite not_elem_of_app, list_elem_of_singleton in Hld. destruct Hld as [Hld1 Hld2].
    unfold free. cbn [heap g_head]. rewrite lookup_insert_ne by congruence. rewrite Hl.
    cbn [mret mon_ret]. eexists. split; [done|].
    apply seg_app in Ha as (k & Ha & Hk). cbn [seg] in Hk. destruct Hk as (-> & _).
    apply NoDup_app in Hna as (_ & Hd' & _).
    assert (l0 ∉ dn'.*1) by (intros Hin; apply (Hd' _ Hin); set_solver).
    assert (l0 ∉ post.*1).
    { intros Hin. apply (Hd l0); [|set_solver]. rewrite fmap_app. set_solver. }
    constructor; cbn [heap g_head]; [|done| |done].
    + rewrite <- app_assoc. apply seg_app. exists (Some l0). split.
      * apply seg_delete, seg_insert; done.
      * cbn [app seg]. split; [done|]. exists q.
        rewrite lookup_delete_ne, lookup_insert_eq by congruence. split; [done|].
        by apply seg_delete, seg_insert.
    + apply Hdom. rewrite dom_delete_L, dom_insert_lookup_L by eauto. done.
  - destruct Hp as [-> Hp]. unfold set_head, modify, free. cbn [heap g_head]. rewrite Hl.
    cbn [mret mon_ret]. eexists. split; [done|]. constructor; cbn [heap g_head app]; [|done| |done].
    + by apply seg_delete.
    + apply Hdom. by rewrite dom_delete_L.
Qed.

Lemma del_from_spec i ns : ∀ dn pp p fuel s,
  holds s (dn ++ ns) → seg (heap s) p ns None → pointing s dn pp p → length ns < fuel →
  match find_key i ns with
  | None => del_from i pp fuel p s = Done ((-1)%Z, s)
  | Some l => ∃ a x b s', ns = a ++ (l, x) :: b ∧ key x = i ∧
      del_from i pp fuel p s = Done (0%Z, s') ∧ holds s' (dn ++ a ++ b)
  end.
Proof.
  induction ns as [|[l x] ns IH]; intros dn pp p [|fuel] s H Hs Hp Hf; cbn [length] in Hf; try lia;
    cbn [del_from find_key seg] in *.
  - by rewrite Hs.
  - destruct Hs as (-> & q & Hl & Hs). case_bool_decide as Hk.
    + destruct (unlink_node_spec s dn pp l x q ns H Hp Hl) as (s' & E & H').
      exists [], x, ns, s'. split; [done|]. split; [done|]. split; [|done].
      unfold mbind at 1, mon_bind at 1. rewrite (deref_some _ _ _ Hl). rewrite same_id_key.
      rewrite bool_decide_eq_true_2 by done. exact E.
    + assert (holds s ((dn ++ [(l, x)]) ++ ns)) as H1 by by rewrite <- app_assoc.
      assert (pointing s (dn ++ [(l, x)]) (Some l) q) as P1 by by exists dn, x.
      specialize (IH (dn ++ [(l, x)]) (Some l) q fuel s H1 Hs P1 ltac:(lia)).
      assert (del_from i pp (S fuel) (Some l) s = del_from i (Some l) fuel q s) as E.
      { cbn [del_from]. unfold mbind, mon_bind. rewrite (deref_some _ _ _ Hl).
        rewrite same_id_key, bool_decide_eq_false_2 by done. done. }
      change (n ← deref l; if same_id n i then store_through pp (next n);; free l;; mret 0%Z
        else del_from i (Some l) fuel (next n)) with (del_from i pp (S fuel) (Some l)).
      rewrite E. destruct (find_key i ns) as [l'|]; [|done].
      destruct IH as (a & y & b & s' & -> & Hy & Ed & H'). exists ((l, x) :: a), y, b, s'.
      split; [done|]. split; [done|]. split; [done|]. by rewrite <- app_assoc in H'.
Qed.

(** ** The contract: a finite map *)

Inductive op := Put (x : room_t) | Del (i : bytes) | Get (i : bytes) | All.
Inductive answer := Code (z : Z) | Room (z : Z) (x : option room_t) | Rooms (xs : list room_t).

Definition exec (o : op) : mon store answer :=
  match o with
  | Put x => z ← room_store_put x; mret (Code z)
  | Del i => z ← room_store_del i; mret (Code z)
  | Get i => p ← room_store_get i; mret (Room p.1 p.2)
  | All => xs ← room_store_all; mret (Rooms xs)
  end.

Fixpoint exec_all (os : list op) : mon store (list answer) :=
  match os with
  | [] => mret []
  | o :: os => a ← exec o; l ← exec_all os; mret (a :: l)
  end.

(** The whole life of a store. *)
Definition session (os : list op) : mon store (list answer) :=
  room_store_init;; l ← exec_all os; room_store_deinit;; mret l.

Definition spec_map (o : op) (M : gmap bytes room_t) : gmap bytes room_t :=
  match o with Put x => <[key x := x]> M | Del i => delete i M | Get _ | All => M end.

(** [All] lists the map's rooms in some order. *)
Definition spec_answer (o : op) (M : gmap bytes room_t) (a : answer) : Prop :=
  match o with
  | Put _ => a = Code 0
  | Del i => a = Code (if decide (is_Some (M !! i)) then 0 else -1)
  | Get i => a = match M !! i with Some x => Room 0 (Some x) | None => Room (-1) None end
  | All => ∃ xs, a = Rooms xs ∧ xs ≡ₚ (map_to_list M).*2
  end.

Fixpoint spec_answers (os : list op) (M : gmap bytes room_t) (l : list answer) : Prop :=
  match os, l with
  | [], [] => True
  | o :: os, a :: l => spec_answer o M a ∧ spec_answers os (spec_map o M) l
  | _, _ => False
  end.

Lemma map_of_find ns i :
  NoDup (entries ns).*1 →
  match find_key i ns with
  | Some l => ∃ x, (l, x) ∈ ns ∧ key x = i ∧ map_of ns !! i = Some x
  | None => map_of ns !! i = None
  end.
Proof.
  intros Hn. destruct (find_key i ns) as [l|] eqn:E.
  - apply find_key_Some in E as (a & x & b & -> & <-). exists x. split; [set_solver|].
    split; [done|]. destruct (map_of_middle a l x b Hn) as [-> _]. by rewrite lookup_insert_eq.
  - apply find_key_None in E. by apply not_elem_of_list_to_map.
Qed.

Lemma seg_lookup h p ns m l x : seg h p ns m → (l, x) ∈ ns → ∃ q, h !! l = Some (mk_node x q).
Proof.
  revert p. induction ns as [|[l' y] ns IH]; intros p; [set_solver|]. cbn [seg].
  intros (-> & q & Hl & Hs) [[= -> ->]|Hin]%elem_of_cons; [by exists q|eauto].
Qed.

(** One operation. *)
Lemma exec_spec o s ns :
  holds s ns → ∃ a s' ns', exec o s = Done (a, s') ∧ holds s' ns' ∧
    spec_answer o (map_of ns) a ∧ map_of ns' = spec_map o (map_of ns).
Proof.
  intros H. pose proof (holds_keys _ _ H) as Hn. destruct o as [x|i|i|]; cbn [exec spec_answer spec_map];
    unfold mbind, mon_bind; cbn [mret mon_ret].
  - pose proof (map_of_find ns (key x) Hn) as Hm. destruct (find_key (key x) ns) as [l|] eqn:E.
    + pose proof E as E'. apply find_key_Some in E as (a & y & b & -> & Hy).
      destruct (holds_put_old s a l y b x H E' Hy) as (s' & -> & H').
      eexists _, _, _. split; [done|]. split; [done|]. split; [done|].
      destruct (map_of_middle a l y b Hn) as [-> _].
      destruct (map_of_middle a l x b (holds_keys _ _ H')) as [-> _].
      by rewrite Hy, insert_insert_eq.
    + apply find_key_None in E. destruct (holds_put_new s ns x H E) as (s' & l & -> & H').
      eexists _, _, _. split; [done|]. split; [done|]. by split.
  - pose proof (map_of_find ns i Hn) as Hm. unfold room_store_del, walk, mbind, mon_bind, gets.
    pose proof (del_from_spec i ns [] None (g_head s) (S (size (heap s))) s H (holds_seg _ _ H)) as Hd.
    specialize (Hd (conj eq_refl eq_refl)). rewrite (holds_size _ _ H) in *. specialize (Hd ltac:(lia)).
    destruct (find_key i ns) as [l|].
    + destruct Hd as (a & x & b & s' & -> & Hx & -> & H'). eexists _, _, _. split; [done|].
      split; [done|]. destruct Hm as (y & _ & _ & Hy). rewrite Hy. split.
      * rewrite decide_True by done. done.
      * destruct (map_of_middle a l x b Hn) as [-> Hnone]. rewrite Hx in *.
        by rewrite delete_insert_id.
    + rewrite Hd. eexists _, _, _. split; [done|]. split; [done|]. rewrite Hm. split.
      * rewrite decide_False; [done|]. by intros [].
      * by rewrite delete_id.
  - pose proof (map_of_find ns i Hn) as Hm. unfold room_store_get, mbind, mon_bind.
    rewrite (find_node_spec _ _ _ H). destruct (find_key i ns) as [l|].
    + destruct Hm as (x & Hin & _ & ->). destruct (seg_lookup _ _ _ _ _ _ (holds_seg _ _ H) Hin) as [q Hl].
      rewrite (deref_some _ _ _ Hl). eexists _, _, _. split; [done|]. split; [done|]. by split.
    + rewrite Hm. eexists _, _, _. split; [done|]. split; [done|]. by split.
  - rewrite (room_store_all_spec _ _ H). eexists _, _, _. split; [done|]. split; [done|].
    split; [|done]. eexists. split; [done|]. unfold map_of. rewrite map_to_list_to_map by done.
    unfold entries. by rewrite <- list_fmap_compose.
Qed.

Lemma exec_all_spec os : ∀ s ns, holds s ns → ∃ l s' ns',
  exec_all os s = Done (l, s') ∧ holds s' ns' ∧ spec_answers os (map_of ns) l.
Proof.
  induction os as [|o os IH]; intros s ns H; cbn [exec_all spec_answers].
  - by exists [], s, ns.
  - destruct (exec_spec o s ns H) as (a & s1 & ns1 & E1 & H1 & Ha & Hm).
    destruct (IH s1 ns1 H1) as (l & s2 & ns2 & E2 & H2 & Hl). exists (a :: l), s2, ns2.
    unfold mbind, mon_bind. rewrite E1, E2. split; [done|]. split; [done|]. rewrite Hm in Hl. by split.
Qed.

Lemma room_store_deinit_spec s ns :
  holds s ns → room_store_deinit s = Done (tt, mk_store ∅ None).
Proof.
  intros H. unfold room_store_deinit, walk, set_head, mbind, mon_bind, modify, gets.
  rewrite (holds_size _ _ H), (deinit_from_spec ns); [done|apply H..|lia].
Qed.

Lemma room_store_put_spec x s ns :
  holds s ns → ∃ s' ns', room_store_put x s = Done (0%Z, s') ∧ holds s' ns'.
Proof.
  intros H. destruct (exec_spec (Put x) s ns H) as (a & s' & ns' & E & H' & Ha & _).
  exists s', ns'. split; [|done]. cbn [spec_answer] in Ha. subst a. revert E. cbn [exec].
  unfold mbind, mon_bind. destruct (room_store_put x s) as [[z s1]| |]; [|done..].
  intros E. by injection E as <- <-.
Qed.

Lemma holds_nil : holds (mk_store ∅ None) [].
Proof. constructor; cbn; [done|apply NoDup_nil_2|set_solver|apply NoDup_nil_2]. Qed.

(** ** Properties *)

(** C23: the store is a finite map. For every sequence of operations, from [room_store_init] to
    [room_store_deinit], no walk runs off the list, no pointer to a freed node is followed,
    every answer is that of a finite map from ids to rooms (an upsert, a delete that tells
    whether the id was there, a lookup, and a listing in some order), and at the end every node
    has been freed. *)
Theorem room_store_refines_map (os : list op) :
  ∃ l, session os (mk_store ∅ None) = Done (l, mk_store ∅ None) ∧ spec_answers os ∅ l.
Proof.
  destruct (exec_all_spec os _ _ holds_nil) as (l & s & ns & E & Hs & Hl). exists l. split; [|exact Hl].
  unfold session, room_store_init, set_head, mbind, mon_bind, modify.
  cbn [mret mon_ret heap]. by rewrite E, (room_store_deinit_spec _ _ Hs).
Qed.

Lemma sample_session :
  ∃ x y : room_t, key x = key y ∧ x ≠ y ∧
  session [Put x; Put y; All; Del (key x); Get (key x)] (mk_store ∅ None)
  = Done ([Code 0; Code 0; Rooms [y]; Code 0; Room (-1) None], mk_store ∅ None).
Proof.
  exists room_zero, (mk_room (zeros 64) (zeros 32) ROOM_STARTED).
  split; [done|]. split; [done|]. vm_compute. done.
Qed.
