(* ===== verification/VtsAdapter.v ===== *)
(** * VtsAdapter: userspace/loc_gen/src/vts_adapter.c

    loc_gen's TCP client of the server.  What the system answers to the calls of each attempt
    is an argument; an attempt leaves a trace of what it opened, sent, closed and slept.  A
    write past the reply buffer is undefined behaviour.  The end of the file joins the adapter
    to the request handler of the server. *)
From stdpp Require Import prelude strings list gmap fin_sets.
From Stdlib Require Import Ascii ZArith Lia.
From S2P Require Import Prelude CString Backoff DropOldest Rooms Dedup Protocol ReqHandler XmlLoader.

Local Open Scope Z_scope.

Record env := mk_env { VTS_HOST : option bytes; VTS_PORT : option bytes }.

(** What the system answers during one attempt: [v_writes] and [v_reads] are the calls on the
    body, which fail when they run out. *)
Record attempt := mk_attempt {
  v_socket : Z;
  v_inet_pton : bytes → Z;
  v_connect : bytes → Z → Z;
  v_write_len : Z;
  v_writes : list Z;
  v_read_len : Z * bytes;
  v_reads : list bytes }.

Inductive event := Open (fd : Z) | Send (fd : Z) (b : bytes) | Close (fd : Z) | Sleep (secs : Z).

(** The value of an environment variable, if set and not empty. *)
Definition nonempty (v : option bytes) : option bytes :=
  match v with Some (c :: s) => Some (c :: s) | _ => None end.

Definition connect_vts (e : env) (a : attempt) : Z * list event :=
  let host := default (lit "127.0.0.1") (nonempty (VTS_HOST e)) in
  let port := from_option atoi 9000 (nonempty (VTS_PORT e)) in
  let s := v_socket a in
  if s <? 0 then (-1, [])
  else if negb (v_inet_pton a host =? 1) then (-1, [Open s; Close s])
  else if v_connect a host (u16 port) <? 0 then (-1, [Open s; Close s])
  else (s, [Open s]).

Section frames.
Context (s : Z).

(** The loop over the rest of the body. *)
Fixpoint send_body (rest : bytes) (ws : list Z) : Z * list event :=
  match rest with
  | [] => (0, [])
  | _ =>
    match ws with
    | [] => (-1, [])
    | w :: ws =>
      if w <=? 0 then (-1, [])
      else
        let k := Nat.min (Z.to_nat w) (length rest) in
        let '(rc, evs) := send_body (drop k rest) ws in (rc, Send s (take k rest) :: evs)
    end
  end.

Definition send_frame (a : attempt) (buf : bytes) : Z * list event :=
  let hdr := store32 (be32 (u32 (Z.of_nat (length buf)))) in
  if negb (v_write_len a =? 4) then (-1, [])
  else let '(rc, evs) := send_body buf (v_writes a) in (rc, Send s hdr :: evs).
End frames.

Definition clip (k : Z) (d : bytes) : bytes :=
  if Z.of_nat (length d) <=? k then d else take (Z.to_nat k) d.

(** The loop over the body: [buf] is the array, [off] the bytes already in it. *)
Fixpoint recv_body (len : Z) (buf : bytes) (off : nat) (reads : list bytes) : res (bool * bytes) :=
  if Z.of_nat off <? len then
    match reads with
    | [] => Done (false, buf)
    | d :: reads =>
      match clip (len - Z.of_nat off) d with
      | [] => Done (false, buf)
      | d =>
        if (off + length d <=? length buf)%nat then
          recv_body len (take off buf ++ d ++ drop (off + length d) buf) (off + length d) reads
        else Undef
      end
    end
  else Done (true, buf).

(** The result and the array; [buflen] is the array's size. *)
Definition recv_frame (a : attempt) (buf : bytes) : res (Z * bytes) :=
  let '(n, w) := v_read_len a in
  if negb (n =? 4) then Done (-1, buf)
  else
    let len := le32_to_host (load32 w) in
    if Z.of_nat (length buf) <? u32 (len + 1) then Done (-2, buf)
    else
      match recv_body len buf 0 (v_reads a) with
      | Done (false, buf) => Done (-1, buf)
      | Done (true, buf) =>
        if len <? Z.of_nat (length buf) then Done (s32 len, <[Z.to_nat len := NUL]> buf) else Undef
      | Undef => Undef
      | NoFuel => NoFuel
      end.

Section retry.
Context (e : env) (net : nat → attempt) (json_req : bytes).

(** One connection: what [recv_frame] returned (-1 where it is not reached) and the reply
    buffer. *)
Definition try_once (a : attempt) (resp : bytes) : res (Z * bytes * list event) :=
  let '(s, evs) := connect_vts e a in
  if s <? 0 then Done (-1, resp, evs)
  else
    let '(rc, evs1) := send_frame s a json_req in
    if rc =? 0 then
      match recv_frame a resp with
      | Done (n, resp) => Done (n, resp, evs ++ evs1 ++ [Close s])
      | Undef => Undef
      | NoFuel => NoFuel
      end
    else Done (-1, resp, evs ++ evs1 ++ [Close s]).

(** The [for(;;)] loop; [attempt] failures so far. *)
Fixpoint retry_loop (fuel attempt : nat) (bo : pm_backoff) (resp : bytes) :
    res (Z * bytes * list event) :=
  match fuel with
  | O => NoFuel
  | S fuel =>
    match try_once (net attempt) resp with
    | Done (n, resp, evs) =>
      if 0 <? n then Done (0, resp, evs)
      else if (5 <=? S attempt)%nat then Done (-1, resp, evs)
      else
        let '(us, bo) := pm_backoff_next bo in
        match retry_loop fuel (S attempt) bo resp with
        | Done (rc, resp, evs') => Done (rc, resp, evs ++ Sleep us :: evs')
        | Undef => Undef
        | NoFuel => NoFuel
        end
    | Undef => Undef
    | NoFuel => NoFuel
    end
  end.

Definition vts_cmd_with_retry (resp : bytes) : res (Z * bytes * list event) :=
  retry_loop 5 0 (pm_backoff_init 10000 200000) resp.
End retry.

(** ** Public operations *)

Definition field (k v : bytes) : bytes := quoted k ++ lit ":" ++ quoted v.

Definition apply_request (req_id : Z) (r : room_t) : bytes :=
  snprintf_str 512
    (lit "{" ++ field (lit "type") (lit "room.apply") ++ lit "," ++ quoted (lit "req_id") ++ lit ":"
     ++ dec req_id ++ lit "," ++ quoted (lit "room") ++ lit ":{"
     ++ field (lit "id") (cstr (id r)) ++ lit "," ++ field (lit "type") (cstr (type r)) ++ lit ","
     ++ field (lit "state") (room_state_str (state r)) ++ lit "}}").

Definition id_request (kind : bytes) (req_id : Z) (i : bytes) : bytes :=
  snprintf_str 256
    (lit "{" ++ field (lit "type") kind ++ lit "," ++ quoted (lit "req_id") ++ lit ":"
     ++ dec req_id ++ lit "," ++ field (lit "id") i ++ lit "}").

(** [timespec_get] answers seconds and nanoseconds; the arithmetic is that of [uint64_t]. *)
Definition now_ms (tv_sec tv_nsec : Z) : Z := u64 (u64 (tv_sec * 1000) + tv_nsec / 1000000).
Definition gen_req_id (tv_sec tv_nsec : Z) : Z := now_ms tv_sec tv_nsec.

(** [now]: the milliseconds of [gen_req_id]; [junk]: the uninitialised [resp[512]]. *)
Section ops.
Context (e : env) (net : nat → attempt) (now : Z) (junk : bytes).

Definition vts_apply_room (r : room_t) : res (Z * bytes * list event) :=
  vts_cmd_with_retry e net (apply_request now r) junk.

Definition vts_delete_room (i : bytes) : res (Z * bytes * list event) :=
  vts_cmd_with_retry e net (id_request (lit "room.delete") now i) junk.

Definition vts_show_room (i buf : bytes) : res (Z * bytes * list event) :=
  vts_cmd_with_retry e net (id_request (lit "room.show") now i) buf.
End ops.

(** Requests of one millisecond share their id: [gen_req_id] makes no two ids distinct. *)
Lemma gen_req_id_shared s n n' :
  0 ≤ s < 2 ^ 50 → 0 ≤ n < 1000000000 → 0 ≤ n' < 1000000000 →
  gen_req_id s n = gen_req_id s n' ↔ n / 1000000 = n' / 1000000.
Proof.
  intros Hs Hn Hn'. unfold gen_req_id, now_ms, u64.
  assert (∀ n, 0 ≤ n < 1000000000 → 0 ≤ n / 1000000 < 1000) as Hd.
  { intros k Hk. split; [apply Z.div_pos|apply Z.div_lt_upper_bound]; lia. }
  pose proof (Hd n Hn). pose proof (Hd n' Hn').
  rewrite !(wrapu_small _ (s * 1000)) by (unfold in_u; lia).
  rewrite !wrapu_small by (unfold in_u; lia). lia.
Qed.

(** ** Lemmas: one frame *)

Definition frame_len (a : attempt) : Z := le32_to_host (load32 (v_read_len a).2).

Lemma bswap32_range x : in_u 32 (bswap32 x).
Proof.
  unfold in_u, bswap32. pose proof (Z.mod_pos_bound x 256 ltac:(lia)).
  pose proof (Z.mod_pos_bound (x / 2 ^ 8) 256 ltac:(lia)).
  pose proof (Z.mod_pos_bound (x / 2 ^ 16) 256 ltac:(lia)).
  pose proof (Z.mod_pos_bound (x / 2 ^ 24) 256 ltac:(lia)). lia.
Qed.

Lemma clip_spec k d : 0 <= k → Z.of_nat (length (clip k d)) ≤ k ∧ (Z.of_nat (length d) ≤ k → clip k d = d).
Proof.
  intros Hk. unfold clip. destruct (Z.leb_spec (Z.of_nat (length d)) k); [done|].
  rewrite length_take. split; lia.
Qed.

(** No write past the array while the announced body fits it. *)
Lemma recv_body_safe len reads : ∀ buf off,
  len < Z.of_nat (length buf) → Z.of_nat off ≤ len →
  ∃ b buf', recv_body len buf off reads = Done (b, buf') ∧ length buf' = length buf.
Proof.
  induction reads as [|d reads IH]; intros buf off Hl Ho; cbn [recv_body];
    destruct (Z.ltb_spec (Z.of_nat off) len); try (by eexists _, _).
  destruct (clip_spec (len - Z.of_nat off) d) as [Hc _]; [lia|].
  destruct (clip (len - Z.of_nat off) d) as [|x d'] eqn:E; [by eexists _, _|].
  destruct (Nat.leb_spec (off + length (x :: d')) (length buf)); [|cbn [length] in *; lia].
  assert (length (take off buf ++ (x :: d') ++ drop (off + length (x :: d')) buf) = length buf) as Hb
    by (rewrite !length_app, length_take, length_drop; cbn [length] in *; lia).
  destruct (IH (take off buf ++ (x :: d') ++ drop (off + length (x :: d')) buf)
    (off + length (x :: d'))%nat) as (b & buf' & -> & Hlen); [lia|lia|].
  eexists _, _. split; [done|]. lia.
Qed.

Lemma recv_frame_safe a buf :
  frame_len a ≠ 2 ^ 32 - 1 →
  ∃ n buf', recv_frame a buf = Done (n, buf') ∧ length buf' = length buf.
Proof.
  intros Hf. unfold recv_frame, frame_len in *. destruct (v_read_len a) as [n w]. cbn [snd] in Hf.
  destruct (negb (n =? 4)); [by eexists _, _|].
  pose proof (bswap32_range (load32 w)) as Hr. unfold in_u in Hr.
  fold (le32_to_host (load32 w)) in Hr. set (len := le32_to_host (load32 w)) in *.
  unfold u32. rewrite wrapu_small by (unfold in_u; lia).
  destruct (Z.ltb_spec (Z.of_nat (length buf)) (len + 1)); [by eexists _, _|].
  destruct (recv_body_safe len (v_reads a) buf 0) as (b & buf' & -> & Hl); [lia|lia|].
  destruct b; [|by eexists _, _].
  destruct (Z.ltb_spec len (Z.of_nat (length buf'))); [|lia].
  eexists _, _. split; [done|]. by rewrite length_insert.
Qed.

(** Whatever is announced, the body either stays inside the array or is undefined. *)
Lemma recv_body_cases len reads : ∀ buf off,
  match recv_body len buf off reads with
  | Done (_, buf') => length buf' = length buf
  | Undef => True
  | NoFuel => False
  end.
Proof.
  induction reads as [|d reads IH]; intros buf off; cbn [recv_body]; destruct (_ <? len); try done.
  destruct (clip _ d) as [|x d']; [done|].
  destruct (Nat.leb_spec (off + length (x :: d')) (length buf)) as [Hl|]; [|done].
  specialize (IH (take off buf ++ (x :: d') ++ drop (off + length (x :: d')) buf) (off + length (x :: d'))%nat).
  destruct (recv_body _ _ _ reads) as [[b buf']| |]; [|done..].
  rewrite IH, !length_app, length_take, length_drop. lia.
Qed.

Lemma recv_frame_cases a buf :
  match recv_frame a buf with
  | Done (_, buf') => length buf' = length buf
  | Undef => frame_len a = 2 ^ 32 - 1
  | NoFuel => False
  end.
Proof.
  destruct (decide (frame_len a = 2 ^ 32 - 1)) as [E|E].
  - unfold recv_frame. destruct (v_read_len a) as [n w]. destruct (negb _); [done|].
    destruct (_ <? _); [done|].
    pose proof (recv_body_cases (le32_to_host (load32 w)) (v_reads a) buf 0) as H.
    destruct (recv_body _ _ _ _) as [[[|] buf']| |]; [|done..].
    destruct (_ <? _); [|done]. by rewrite length_insert.
  - destruct (recv_frame_safe a buf E) as (n & buf' & -> & H). done.
Qed.

Lemma recv_body_complete reads : ∀ len buf off got,
  Forall (λ d, d ≠ []) reads → length got = off → take off buf = got →
  len = Z.of_nat (off + length (concat reads)) → len < Z.of_nat (length buf) →
  ∃ buf', recv_body len buf off reads = Done (true, buf') ∧ length buf' = length buf ∧
    take (Z.to_nat len) buf' = got ++ concat reads.
Proof.
  induction reads as [|d reads IH]; intros len buf off got Hne Hg Ht Hlen Hb; cbn [recv_body concat] in *.
  - rewrite Nat.add_0_r in Hlen. destruct (Z.ltb_spec (Z.of_nat off) len); [lia|].
    exists buf. split; [done|]. split; [done|]. rewrite app_nil_r, Hlen, Nat2Z.id. done.
  - apply Forall_cons in Hne as [Hd Hne]. rewrite length_app in Hlen.
    assert (0 < length d)%nat by (destruct d; [done|simpl; lia]).
    destruct (Z.ltb_spec (Z.of_nat off) len); [|lia].
    destruct (clip_spec (len - Z.of_nat off) d) as [_ Hclip]; [lia|]. rewrite Hclip by lia.
    destruct d as [|x d]; [done|].
    destruct (Nat.leb_spec (off + length (x :: d)) (length buf)); [|lia].
    set (buf1 := take off buf ++ (x :: d) ++ drop (off + length (x :: d)) buf).
    assert (length buf1 = length buf) as Hl1
      by (unfold buf1; rewrite !length_app, length_take, length_drop; lia).
    destruct (IH len buf1 (off + length (x :: d))%nat (got ++ x :: d)) as (buf' & -> & Hl & Hc).
    + done.
    + rewrite length_app. lia.
    + unfold buf1. rewrite Ht, app_assoc, <- Hg, <- length_app. apply take_app_length.
    + lia.
    + lia.
    + exists buf'. split; [done|]. split; [lia|]. by rewrite Hc, <- app_assoc.
Qed.

(** A reply that fits the buffer with its terminator is read back whole. *)
Lemma recv_frame_complete a buf body :
  v_read_len a = (4, store32 (be32 (Z.of_nat (length body)))) →
  Forall (λ d, d ≠ []) (v_reads a) → concat (v_reads a) = body →
  (length body < length buf)%nat → Z.of_nat (length buf) < 2 ^ 31 →
  ∃ buf', recv_frame a buf = Done (Z.of_nat (length body), buf') ∧ length buf' = length buf ∧
    take (S (length body)) buf' = body ++ [NUL].
Proof.
  intros Hh Hne Hc Hl Hs. unfold recv_frame. rewrite Hh. change (negb (4 =? 4)) with false. cbv iota.
  rewrite frame_header by (unfold in_u; lia). unfold u32. rewrite wrapu_small by (unfold in_u; lia).
  destruct (Z.ltb_spec (Z.of_nat (length buf)) (Z.of_nat (length body) + 1)); [lia|].
  destruct (recv_body_complete (v_reads a) (Z.of_nat (length body)) buf 0 []) as (b & -> & Hlb & Hb);
    [done|done|done|rewrite Hc; done|lia|].
  destruct (Z.ltb_spec (Z.of_nat (length body)) (Z.of_nat (length b))); [|lia].
  unfold s32. rewrite wraps_small by (unfold in_s; lia).
  eexists. split; [done|]. split; [by rewrite length_insert|].
  rewrite Nat2Z.id in *. cbn [app] in Hb. rewrite Hc in Hb.
  rewrite insert_take_drop, Hb by lia.
  rewrite take_app_ge by lia. by replace (S (length body) - length body)%nat with 1%nat by lia.
Qed.

(** ** Lemmas: the retry loop *)

Definition opened (evs : list event) : list Z :=
  omap (λ x, match x with Open fd => Some fd | _ => None end) evs.
Definition closed (evs : list event) : list Z :=
  omap (λ x, match x with Close fd => Some fd | _ => None end) evs.
Definition slept (evs : list event) : list Z :=
  omap (λ x, match x with Sleep t => Some t | _ => None end) evs.

Lemma send_body_sends s ws : ∀ rest,
  let evs := (send_body s rest ws).2 in opened evs = [] ∧ closed evs = [] ∧ slept evs = [].
Proof.
  induction ws as [|w ws IH]; intros [|x rest]; cbn [send_body]; try (by split_and!).
  destruct (w <=? 0); [by split_and!|].
  specialize (IH (drop (Nat.min (Z.to_nat w) (length (x :: rest))) (x :: rest))).
  by destruct (send_body s _ ws) as [rc evs].
Qed.

Lemma send_frame_sends s a buf :
  let evs := (send_frame s a buf).2 in opened evs = [] ∧ closed evs = [] ∧ slept evs = [].
Proof.
  unfold send_frame. destruct (negb _); [by split_and!|].
  pose proof (send_body_sends s (v_writes a) buf) as H. by destruct (send_body s buf (v_writes a)).
Qed.

Lemma connect_vts_cases e a :
  connect_vts e a = (-1, []) ∨ connect_vts e a = (-1, [Open (v_socket a); Close (v_socket a)]) ∨
  0 ≤ v_socket a ∧ connect_vts e a = (v_socket a, [Open (v_socket a)]).
Proof.
  unfold connect_vts. destruct (Z.ltb_spec (v_socket a) 0); [auto|].
  destruct (negb _); [auto|]. destruct (_ <? 0); auto.
Qed.

Lemma try_once_cases e req a resp :
  match try_once e req a resp with
  | Done (_, resp', evs) => length resp' = length resp ∧ opened evs = closed evs ∧ slept evs = []
  | Undef => frame_len a = 2 ^ 32 - 1
  | NoFuel => False
  end.
Proof.
  unfold try_once.
  destruct (connect_vts_cases e a) as [-> |[-> |[Hs ->]]]; [by split_and!..|].
  destruct (Z.ltb_spec (v_socket a) 0); [lia|].
  pose proof (send_frame_sends (v_socket a) a req) as (H1 & H2 & H3).
  destruct (send_frame (v_socket a) a req) as [rc evs1]. cbn [snd] in *.
  pose proof (recv_frame_cases a resp) as Hr. unfold opened, closed, slept in *.
  destruct (rc =? 0); [destruct (recv_frame a resp) as [[n resp']| |]; try done|];
    rewrite !omap_app, H1, H2, H3; done.
Qed.

Fixpoint delays (bo : pm_backoff) (n : nat) : list Z :=
  match n with
  | O => []
  | S n => let '(us, bo) := pm_backoff_next bo in us :: delays bo n
  end.

(** The outcome of an attempt that starts with a reply buffer of a given size. *)
Definition outcome (e : env) (req : bytes) (a : attempt) (size : nat) (n : Z) (resp' : bytes) : Prop :=
  ∃ resp evs, length resp = size ∧ try_once e req a resp = Done (n, resp', evs).

(** One of the five attempts is answered by the reply that announces 2^32-1 bytes. *)
Definition huge_reply (net : nat → attempt) : Prop :=
  ∃ i, (i < 5)%nat ∧ frame_len (net i) = 2 ^ 32 - 1.

(** How a command ends from attempt [k] on: after [j] more failures, or in the overflow. *)
Definition loop_ends (e : env) (net : nat → attempt) (req : bytes) (fuel k : nat) (bo : pm_backoff)
    (size : nat) (r : res (Z * bytes * list event)) : Prop :=
  match r with
  | Done (rc, resp', evs) => ∃ j n,
      length resp' = size ∧ opened evs = closed evs ∧ slept evs = delays bo j ∧ (j < fuel)%nat ∧
      (∀ i, (i < j)%nat → ∃ n r, outcome e req (net (k + i)%nat) size n r ∧ n ≤ 0) ∧
      outcome e req (net (k + j)%nat) size n resp' ∧
      (rc = 0 ∧ 0 < n ∨ rc = -1 ∧ n ≤ 0 ∧ S j = fuel)
  | Undef => huge_reply net
  | NoFuel => False
  end.

Lemma adapter_loop_spec e net req fuel : ∀ k bo resp,
  (fuel + k = 5)%nat → (0 < fuel)%nat →
  loop_ends e net req fuel k bo (length resp) (retry_loop e net req fuel k bo resp).
Proof.
  induction fuel as [|fuel IH]; intros k bo resp Hk Hpos; [lia|]. cbn [retry_loop].
  pose proof (try_once_cases e req (net k) resp) as H. unfold loop_ends in *.
  destruct (try_once e req (net k) resp) as [[[n r1] evs]| |] eqn:Et; [|by exists k; split; [lia|]|done].
  destruct H as (Hl & Ho & Hs).
  assert (outcome e req (net (k + 0)%nat) (length resp) n r1) as Hout.
  { rewrite Nat.add_0_r. by exists resp, evs. }
  destruct (Z.ltb_spec 0 n) as [Hn|Hn].
  { exists 0%nat, n. do 4 (split; [first [done|lia]|]). split; [intros; lia|]. split; [done|]. by left. }
  destruct (Nat.leb_spec 5 (S k)) as [H5|H5].
  { exists 0%nat, n. do 4 (split; [first [done|lia]|]). split; [intros; lia|]. split; [done|].
    right. split; [done|]. split; [done|lia]. }
  destruct (pm_backoff_next bo) as [us bo1] eqn:Eb.
  specialize (IH (S k) bo1 r1 ltac:(lia) ltac:(lia)).
  destruct (retry_loop _ _ _ _ _ _ r1) as [[[rc r2] evs2]| |]; [|done..].
  destruct IH as (j & n2 & Hl2 & Ho2 & Hs2 & Hj & Hfail & Hn2 & Hrc). rewrite Hl in *.
  exists (S j), n2. unfold opened, closed, slept in *.
  rewrite !omap_app. cbn [omap list_omap]. rewrite Ho, Ho2, Hs, Hs2. cbn [delays]. rewrite Eb.
  replace (S k + j)%nat with (k + S j)%nat in Hn2 by lia.
  do 4 (split; [first [done|lia]|]). split.
  - intros [|i] Hi; [by exists n, r1|].
    replace (k + S i)%nat with (S k + i)%nat by lia. apply Hfail. lia.
  - split; [done|]. destruct Hrc as [?|(? & ? & ?)]; [by left|right]. split; [done|]. split; [done|lia].
Qed.

(** A whole command. *)
Lemma vts_cmd_cases e net req resp :
  match vts_cmd_with_retry e net req resp with
  | Done (rc, resp', evs) => length resp' = length resp ∧ opened evs = closed evs ∧ (rc = 0 ∨ rc = -1)
  | Undef => huge_reply net
  | NoFuel => False
  end.
Proof.
  pose proof (adapter_loop_spec e net req 5 0 (pm_backoff_init 10000 200000) resp eq_refl ltac:(lia)) as H.
  unfold vts_cmd_with_retry, loop_ends in *.
  destruct (retry_loop _ _ _ _ _ _ _) as [[[rc r] evs]| |]; [|done..].
  destruct H as (j & n & Hl & Ho & _ & _ & _ & _ & [[? _]|[? _]]); auto.
Qed.

(** ** Properties *)

(** C36: retries are bounded. Against any network - short or failing calls, replies of any length
    in any pieces - a command ends after at most five connections with every socket closed and
    the reply inside the buffer; it returns 0 exactly when its last attempt received a
    non-empty reply, after attempts that all failed, and -1 after the fifth failure; and between
    attempts it sleeps for 10000, 20000, 40000 and 80000 - which [sleep] takes as seconds, the
    backoff being computed in microseconds. The one exception is a reply that announces 2^32-1
    bytes, the only one with which a run can write past the buffer and be undefined. *)
Theorem adapter_retries (e : env) (net : nat → attempt) (req resp : bytes) :
  match vts_cmd_with_retry e net req resp with
  | Done (rc, resp', evs) => ∃ j n,
      length resp' = length resp ∧ opened evs = closed evs ∧
      slept evs = take j [10000; 20000; 40000; 80000] ∧ (j ≤ 4)%nat ∧
      (∀ i, (i < j)%nat → ∃ m r, outcome e req (net i) (length resp) m r ∧ m ≤ 0) ∧
      outcome e req (net j) (length resp) n resp' ∧
      (rc = 0 ∧ 0 < n ∨ rc = -1 ∧ n ≤ 0 ∧ j = 4%nat)
  | Undef => ∃ i, (i < 5)%nat ∧ frame_len (net i) = 2 ^ 32 - 1
  | NoFuel => False
  end.
Proof.
  pose proof (adapter_loop_spec e net req 5 0 (pm_backoff_init 10000 200000) resp eq_refl ltac:(lia)) as H.
  unfold vts_cmd_with_retry, loop_ends in *.
  destruct (retry_loop _ _ _ _ _ _ _) as [[[rc r] evs]| |]; [|done..].
  destruct H as (j & n & Hl & Ho & Hs & Hj & Hfail & Hn & Hrc).
  exists j, n. split; [done|]. split; [done|]. split.
  - rewrite Hs. do 5 (destruct j as [|j]; [reflexivity|]). lia.
  - split; [lia|]. split; [done|]. split; [done|].
    destruct Hrc as [?|(? & ? & ?)]; [by left|right]. split; [done|]. split; [done|lia].
Qed.

Definition refused : attempt := mk_attempt 3 (λ _, 1) (λ _ _, -1) 0 [] (0, []) [].
Definition answering : attempt :=
  mk_attempt 4 (λ _, 1) (λ _ _, 0) 4 [2] (4, store32 (be32 5)) [lit "he"; lit "llo"].
Definition sample_net (i : nat) : attempt := match i with 2%nat => answering | _ => refused end.

Lemma adapter_retries_witness :
  ∃ rc resp' evs, vts_cmd_with_retry (mk_env None None) sample_net (lit "hi") (replicate 8 "?"%char)
      = Done (rc, resp', evs) ∧ rc = 0 ∧ cstr resp' = lit "hello" ∧ slept evs = [10000; 20000]
    ∧ opened evs = closed evs.
Proof.
  pose proof (adapter_retries (mk_env None None) sample_net (lit "hi") (replicate 8 "?"%char)) as H.
  destruct (vts_cmd_with_retry _ _ _ _) as [[[rc r] evs]| |] eqn:E; vm_compute in E; [|done..].
  destruct H as (j & n & _ & Ho & _). exists rc, r, evs. split; [done|].
  injection E as <- <- <-. by split_and!.
Defined.

(** The length check of a reply can be passed by a huge frame. [len + 1] is computed in 32
    bits: for every length but 2^32-1 nothing is written outside the buffer, whatever the peer
    sends; a reply that announces 2^32-1 bytes passes the check, and its body is written past
    the end of the buffer. *)
Theorem recv_frame_bounds (a : attempt) (buf d : bytes) :
  (frame_len a ≠ 2 ^ 32 - 1 →
    ∃ n buf', recv_frame a buf = Done (n, buf') ∧ length buf' = length buf) ∧
  (v_read_len a = (4, store32 (be32 (2 ^ 32 - 1))) → v_reads a = [d] →
    (length buf < length d)%nat → Z.of_nat (length d) < 2 ^ 32 → recv_frame a buf = Undef).
Proof.
  split; [apply recv_frame_safe|]. intros Hh Hd Hl Hs. unfold recv_frame. rewrite Hh, Hd.
  change (negb (4 =? 4)) with false. cbv iota.
  assert (le32_to_host (load32 (store32 (be32 (2 ^ 32 - 1)))) = 2 ^ 32 - 1) as -> by reflexivity.
  change (u32 (2 ^ 32 - 1 + 1)) with 0.
  destruct (Z.ltb_spec (Z.of_nat (length buf)) 0); [lia|]. cbn [recv_body].
  destruct (Z.ltb_spec (Z.of_nat 0) (2 ^ 32 - 1)); [|lia].
  destruct (clip_spec (2 ^ 32 - 1 - Z.of_nat 0) d) as [_ Hc]; [lia|]. rewrite Hc by lia.
  destruct d as [|x d]; [simpl in Hl; lia|].
  destruct (Nat.leb_spec (0 + length (x :: d)) (length buf)); [lia|done].
Qed.

(** ** Requests on the server

    A request is a sequence of stretches separated by quotes; a quoted key occurs in it only as
    a whole stretch. *)

Fixpoint joined (segs : list bytes) : bytes :=
  match segs with [] => [] | [s] => s | s :: segs => s ++ QUOTE :: joined segs end.

Lemma joined_cons s t segs : joined (s :: t :: segs) = s ++ QUOTE :: joined (t :: segs).
Proof. done. Qed.

Lemma first_quote (a b c d : bytes) :
  QUOTE ∉ a → a ++ QUOTE :: b = c ++ QUOTE :: d →
  (QUOTE ∉ c ∧ a = c ∧ b = d) ∨ ∃ c', c = a ++ QUOTE :: c' ∧ b = c' ++ QUOTE :: d.
Proof.
  revert c. induction a as [|x a IH]; intros c Ha E.
  - destruct c as [|y c]; [left; injection E as ->; set_solver|].
    injection E as <- ->. right. by exists c.
  - apply not_elem_of_cons in Ha as [Hx Ha]. destruct c as [|y c]; [by injection E as -> _|].
    injection E as <- E. destruct (IH c Ha E) as [(? & -> & ->)|(c' & -> & ->)].
    + left. split; [by apply not_elem_of_cons|done].
    + right. by exists c'.
Qed.

Lemma quoted_in_joined segs k : ∀ a b,
  Forall (λ s, QUOTE ∉ s) segs → QUOTE ∉ k → joined segs = a ++ quoted k ++ b → k ∈ segs.
Proof.
  induction segs as [|s [|t segs] IH]; intros a b Hs Hk E.
  - by destruct a.
  - apply Forall_cons in Hs as [Hs _]. cbn [joined] in E. exfalso. apply Hs. rewrite E. set_solver.
  - apply Forall_cons in Hs as [Hs Ht]. rewrite joined_cons in E.
    unfold quoted in E. cbn [app] in E. rewrite <- app_assoc in E. cbn [app] in E.
    destruct (first_quote _ _ _ _ Hs E) as [(Ha & _ & E2)|(a' & _ & E2)].
    + right. destruct segs as [|u segs]; cbn [joined] in E2.
      * exfalso. apply Forall_cons in Ht as [Ht _]. apply Ht. rewrite E2. set_solver.
      * apply Forall_cons in Ht as [Ht _].
        destruct (first_quote _ _ _ _ Ht E2) as [(_ & -> & _)|(c & Ec & _)]; [left|].
        exfalso. apply Hk. rewrite Ec. set_solver.
    + right. apply (IH a' b); [done|done|]. unfold quoted. cbn [app]. rewrite <- app_assoc. exact E2.
Qed.

Lemma absent_key segs k outsz :
  Forall (λ s, QUOTE ∉ s) segs → QUOTE ∉ k → (length k ≤ 61)%nat → k ∉ segs →
  json_get_str (joined segs) k outsz = None.
Proof.
  intros Hs Hk Hl Hn. unfold json_get_str, snprintf_str.
  rewrite take_ge by (rewrite length_quoted; simpl; lia).
  destruct (strstr (joined segs) (quoted k)) as [t|] eqn:E; [|done].
  apply strstr_Some in E as (a & b & E & _). destruct Hn. by eapply quoted_in_joined.
Qed.

(** A text that lacks one of the three command fields changes no registry. *)
Lemma answer_keeps_registry (P : bytes) (a : spec_state) :
  json_get_str P (lit "cmd") 32 = None ∨ json_get_str P (lit "target") 32 = None ∨
  json_get_str P (lit "name") 64 = None →
  (spec_answer P a).2.1 = a.1 ∧ (0 < length (spec_answer P a).1.1)%nat.
Proof.
  intros H. unfold spec_answer, answer. destruct (strstr P (quoted (lit "cmd"))).
  - unfold cli_request. destruct H as [E|[E|E]]; rewrite E; repeat case_match; simplify_eq; simpl; split; (done || lia).
  - destruct (legacy_request window_request P a.2) as [z w]. unfold legacy_body. simpl. split; [done|lia].
Qed.

Section apply.
Context (now : Z) (i t : bytes) (st : room_state_t).

Definition apply_segments : list bytes :=
  [lit "{"; lit "type"; lit ":"; lit "room.apply"; lit ","; lit "req_id"; lit ":" ++ dec now ++ lit ",";
   lit "room"; lit ":{"; lit "id"; lit ":"; i; lit ","; lit "type"; lit ":"; t; lit ","; lit "state";
   lit ":"; room_state_str st; lit "}}"].

Context (Hnow : in_u 64 now) (Hi : QUOTE ∉ i) (Ht : QUOTE ∉ t).

Lemma apply_segments_quotes : Forall (λ s, QUOTE ∉ s) apply_segments.
Proof.
  destruct (dec_u64 now Hnow) as [_ Hd]. destruct (room_state_str_word st) as [(_ & _ & Hs & _) _].
  assert (QUOTE ∉ dec now) as Hq by by apply (digits_lack QUOTE _ Hd).
  unfold apply_segments. repeat apply Forall_cons_2; try apply Forall_nil_2; try done;
    try (by_evaluation).
  rewrite !not_elem_of_app. split_and!; [|done|]; apply (bool_decide_eq_true_1 _); reflexivity.
Qed.

Definition fixed_stretches : list bytes :=
  [lit "{"; lit "type"; lit ":"; lit "room.apply"; lit ","; lit "req_id"; lit "room"; lit ":{";
   lit "id"; lit "state"; lit "started"; lit "stopped"; lit "}}"].

Lemma stretch_cases k :
  k ∈ apply_segments → k = i ∨ k = t ∨ k ∈ fixed_stretches ∨ head k = Some ":"%char.
Proof.
  unfold apply_segments. intros Hin.
  repeat (apply elem_of_cons in Hin as [-> |Hin]); try (by apply not_elem_of_nil in Hin);
    first [by left | by right; left | by right; right; right
          | right; right; left; by_evaluation
          | right; right; left; destruct st; by_evaluation].
Qed.

(** Two free fields cannot spell three keys. *)
Lemma apply_lacks_a_key :
  json_get_str (joined apply_segments) (lit "cmd") 32 = None ∨
  json_get_str (joined apply_segments) (lit "target") 32 = None ∨
  json_get_str (joined apply_segments) (lit "name") 64 = None.
Proof.
  assert (∀ k sz, (length k ≤ 61)%nat → bool_decide (QUOTE ∉ k ∧ k ∉ fixed_stretches) = true →
    head k ≠ Some ":"%char → (k = i ∨ k = t) ∨ json_get_str (joined apply_segments) k sz = None) as Hk.
  { intros k sz Hl [H1 H2]%bool_decide_eq_true_1 Hh. destruct (decide (k = i ∨ k = t)) as [|Hn]; [by left|].
    right. apply absent_key; [apply apply_segments_quotes|done|done|].
    intros [?|[?|[?|?]]]%stretch_cases; tauto. }
  destruct (Hk (lit "cmd") 32%nat) as [Hc|]; [simpl; lia|vm_compute; reflexivity|done| |by left].
  destruct (Hk (lit "target") 32%nat) as [Hd|]; [simpl; lia|vm_compute; reflexivity|done| |by right; left].
  destruct (Hk (lit "name") 64%nat) as [He|]; [simpl; lia|vm_compute; reflexivity|done| |by right; right].
  assert (lit "cmd" ≠ lit "target" ∧ lit "cmd" ≠ lit "name" ∧ lit "target" ≠ lit "name") as (? & ? & ?)
    by done.
  exfalso. destruct Hc as [Hc|Hc], Hd as [Hd|Hd], He as [He|He]; congruence.
Qed.
End apply.

(** The text of a request fits its buffer. *)
Lemma apply_request_joined now r :
  in_u 64 now → wf_room r →
  apply_request now r = joined (apply_segments now (cstr (id r)) (cstr (type r)) (state r)) ∧
  nul_free (apply_request now r).
Proof.
  intros Hnow (_ & _ & [_ Hi] & [_ Ht]). destruct (dec_u64 now Hnow) as [Hl Hd].
  destruct (room_state_str_word (state r)) as [(_ & Hns & _) Hs].
  assert (∀ s, bool_decide (NUL ∉ s) = true → nul_free s) as Hn
    by (intros s ?%bool_decide_eq_true_1; done).
  assert (nul_free (dec now)) as Hnd by by apply (digits_lack NUL _ Hd).
  unfold apply_request, snprintf_str, field. rewrite take_ge.
  - split; [unfold apply_segments, quoted; cbn [joined]; do 40 (rewrite <- ?app_assoc; cbn [app]); done|].
    unfold quoted. repeat (rewrite nul_free_app || rewrite nul_free_cons).
    split_and!; try done; try apply cstr_nul_free; apply Hn; vm_compute; reflexivity.
  - rewrite !length_app, !length_quoted, Hs. simpl. lia.
Qed.

(** A server that answers the request at the first attempt with [body]. *)
Definition answers (e : env) (a : attempt) (req body : bytes) : Prop :=
  (0 ≤ v_socket a ∧ v_inet_pton a (default (lit "127.0.0.1") (nonempty (VTS_HOST e))) = 1 ∧
   0 ≤ v_connect a (default (lit "127.0.0.1") (nonempty (VTS_HOST e)))
         (u16 (from_option atoi 9000 (nonempty (VTS_PORT e))))) ∧
  (v_write_len a = 4 ∧ (send_body (v_socket a) req (v_writes a)).1 = 0) ∧
  v_read_len a = (4, store32 (be32 (Z.of_nat (length body)))) ∧
  Forall (λ d, d ≠ []) (v_reads a) ∧ concat (v_reads a) = body.

Lemma answered_command e net req body resp :
  answers e (net 0%nat) req body → (0 < length body < length resp)%nat → Z.of_nat (length resp) < 2 ^ 31 →
  ∃ resp' evs, vts_cmd_with_retry e net req resp = Done (0, resp', evs) ∧
    take (S (length body)) resp' = body ++ [NUL].
Proof.
  intros ((Hs & Hp & Hc) & (Hw & Hb) & Hh & Hne & Hd) [Hpos Hl] Hsz.
  destruct (recv_frame_complete (net 0%nat) resp body Hh Hne Hd Hl Hsz) as (resp' & Er & _ & Ht).
  unfold vts_cmd_with_retry. cbn [retry_loop]. unfold try_once, connect_vts, send_frame.
  rewrite Hp, Hw. change (negb (1 =? 1)) with false. change (negb (4 =? 4)) with false.
  destruct (Z.ltb_spec (v_socket (net 0%nat)) 0); [lia|].
  destruct (Z.ltb_spec (v_connect (net 0%nat) (default (lit "127.0.0.1") (nonempty (VTS_HOST e)))
    (u16 (from_option atoi 9000 (nonempty (VTS_PORT e))))) 0); [lia|]. cbv iota.
  destruct (Z.ltb_spec (v_socket (net 0%nat)) 0); [lia|].
  destruct (send_body (v_socket (net 0%nat)) req (v_writes (net 0%nat))) as [rc evs1]. cbn [fst] in Hb.
  rewrite Hb. change (0 =? 0) with true. cbv iota. rewrite Er.
  destruct (Z.ltb_spec 0 (Z.of_nat (length body))); [|lia]. by eexists _, _.
Qed.

(** Applying a room reports success and does nothing. The request [vts_apply_room] builds
    for any loaded room is not in the vocabulary of the server: in any reachable state, and
    whatever the room is called, the server answers it without touching its set of rooms, the
    answer fits the adapter's buffer, and as soon as it arrives [vts_apply_room] returns 0. *)
Theorem apply_room_changes_nothing (now : Z) (x : room_t) (fd : Z) (s : server) (a : spec_state) :
  in_u 64 now → wf_room x → QUOTE ∉ cstr (id x) → QUOTE ∉ cstr (type x) → srv_rep s a →
  ∃ body s', process_one (apply_request now x ++ [NUL]) fd s = Done (tt, s') ∧
    room_set (registry s') = room_set (registry s) ∧ sent s' = sent s ++ frame fd body ∧
    (0 < length body < 512)%nat ∧
    ∀ e net resp, answers e (net 0%nat) (apply_request now x) body → length resp = 512%nat →
      ∃ resp' evs, vts_apply_room e net now resp x = Done (0, resp', evs) ∧
        take (S (length body)) resp' = body ++ [NUL].
Proof.
  intros Hnow Hx Hi Ht Hs. destruct (apply_request_joined now x Hnow Hx) as [E Hn].
  pose proof (process_one_spec (apply_request now x ++ [NUL]) fd s a Hs) as H.
  rewrite cstr_app_nul, E in H by done.
  destruct (answer_keeps_registry (joined (apply_segments now (cstr (id x)) (cstr (type x)) (state x))) a)
    as [Hr Hpos]; [by apply apply_lacks_a_key|].
  destruct (ReqHandler.spec_answer _ a) as [[body lg] a']. cbn [fst snd] in Hr, Hpos.
  destruct H as (s' & Hp & (_ & Hset & _) & Ho & _ & Hlen). exists body, s'. rewrite E at 1.
  destruct Hs as (_ & Hset0 & _). split; [exact Hp|]. split; [congruence|]. split; [exact Ho|].
  split; [lia|]. intros e net resp Ha Hl. apply answered_command; [exact Ha|lia|lia].
Qed.

(** A server on the other end of a connection that takes a request of up to 512 bytes. *)
Definition one_answer (body : bytes) : attempt :=
  mk_attempt 3 (λ _, 1) (λ _ _, 0) 4 [512] (4, store32 (be32 (Z.of_nat (length body)))) [body].

Lemma one_answer_answers e req body :
  (0 < length body)%nat → (0 < length req ≤ 512)%nat → answers e (one_answer body) req body.
Proof.
  intros Hb Hr. split; [split; [simpl; lia|split; [reflexivity|simpl; lia]]|].
  split; [split; [reflexivity|]|].
  - destruct req as [|x req]; [simpl in Hr; lia|]. cbn [one_answer v_socket v_writes send_body].
    change (512 <=? 0) with false. cbv iota. rewrite Nat.min_r, drop_ge by lia. done.
  - split; [reflexivity|]. split; [|simpl; by rewrite app_nil_r].
    repeat constructor. intros ->. simpl in Hb. lia.
Qed.

Definition sample_room : room_t :=
  mk_room (store_str (zeros 64) (lit "cmd")) (store_str (zeros 32) (lit "cpu")) ROOM_STARTED.

Lemma apply_room_changes_nothing_witness :
  ∃ body s', process_one (apply_request 1234 sample_room ++ [NUL]) 7 server_init = Done (tt, s') ∧
    room_set (registry s') = room_set rooms_init ∧ sent s' = frame 7 body ∧
    ∃ resp' evs, vts_apply_room (mk_env None None) (λ _, one_answer body) 1234
      (replicate 512 "?"%char) sample_room = Done (0, resp', evs).
Proof.
  destruct (apply_room_changes_nothing 1234 sample_room 7 server_init (∅, []))
    as (body & s' & Hp & Hset & Ho & Hb & Ha).
  - split; vm_compute; congruence.
  - split; [reflexivity|]. split; [reflexivity|]. vm_compute. lia.
  - by_evaluation.
  - by_evaluation.
  - exact srv_rep_init.
  - exists body, s'. split; [exact Hp|]. split; [exact Hset|]. split; [exact Ho|].
    destruct (Ha (mk_env None None) (λ _, one_answer body) (replicate 512 "?"%char)) as (r & evs & E & _).
    + apply one_answer_answers; [exact (proj1 Hb)|]. by_evaluation.
    + apply length_replicate.
    + exists r, evs. exact E.
Defined.
