(* ===== verification/LocGen.v ===== *)
(** * LocGen: userspace/loc_gen/src/loc_main.c

    The command line of locgend, over the XML loader, the room store, the VTS adapter and the
    reader of snapshots.  Command number [k] of a run meets the network [net k] and the clock
    [now k]; the arrays that C leaves uninitialised hold [junk]. *)
From stdpp Require Import prelude strings list gmap fin_maps fin_sets.
From Stdlib Require Import Ascii ZArith Lia.
From S2P Require Import Prelude CString Breaker ProcfsIo MemReader XmlLoader RoomStore VtsAdapter.

Local Open Scope Z_scope.

Definition LOC_MAX_OUT : nat := 4096.

(** What the process is given. *)
Record world := mk_world {
  files : bytes → option bytes;
  fresh_byte : nat → ascii;
  vts_env : VtsAdapter.env;
  net : nat → nat → VtsAdapter.attempt;
  now : nat → Z;
  junk : nat → ascii }.

Definition array (w : world) (n : nat) : bytes := junk w <$> seq 0 n.

(** The state of a run: the store, the network so far, standard output, and libpm. *)
Record effects := mk_effects {
  store_of : store; trace : list event; out : list bytes; io : io_state }.

(** An operation of the store inside the program. *)
Definition on_store {A} (op : mon store A) : mon effects A := λ s,
  match op (store_of s) with
  | Done (a, st) => Done (a, mk_effects st (trace s) (out s) (io s))
  | Undef => Undef
  | NoFuel => NoFuel
  end.

Definition on_net (r : res (Z * bytes * list event)) : mon effects (Z * bytes) := λ s,
  match r with
  | Done (rc, buf, evs) => Done ((rc, buf), mk_effects (store_of s) (trace s ++ evs) (out s) (io s))
  | Undef => Undef
  | NoFuel => NoFuel
  end.

Definition on_io {A} (op : mon io_state A) : mon effects A := λ s,
  match op (io s) with
  | Done (a, t) => Done (a, mk_effects (store_of s) (trace s) (out s) t)
  | Undef => Undef
  | NoFuel => NoFuel
  end.

Definition puts (line : bytes) : mon effects unit :=
  modify (λ s, mk_effects (store_of s) (trace s) (out s ++ [line]) (io s)).

Section main.
Context (w : world).

Definition apply_one (k : nat) (r : room_t) : mon effects Z :=
  x ← on_net (vts_apply_room (vts_env w) (net w k) (now w k) (array w 512) r); mret x.1.

(** The loop over the rooms, from command number [k] on. *)
Fixpoint apply_rooms (k : nat) (rl : list room_t) : mon effects Z :=
  match rl with
  | [] => on_store room_store_deinit;; mret 0
  | r :: rl =>
    on_store (room_store_put r);;
    rc ← apply_one k r;
    if negb (rc =? 0) then on_store room_store_deinit;; mret 2
    else apply_rooms (S k) rl
  end.

Definition apply_from_xml (path : bytes) : mon effects Z :=
  match loc_load_rooms_xml (fresh_byte w) (files w path) with
  | Done (0, Some rl) => on_store room_store_init;; apply_rooms 0 rl
  | Done _ => mret 1
  | Undef => undefined
  | NoFuel => no_fuel
  end.

(** [memset]; [strncpy] of the two texts; the state. *)
Definition room_of_args (i t st : bytes) : room_t :=
  mk_room (strncpy (zeros 64) i 63) (strncpy (zeros 32) t 31) (room_state_from_str (Some st)).

(** The type of the snapshot that [show --via libpm] takes. *)
Definition inferred_type (i : bytes) : bytes :=
  match strstr i (lit "cpu") with
  | Some _ => lit "cpu"
  | None => match strstr i (lit "mem") with Some _ => lit "mem" | None => lit "inf" end
  end.

(** [fuel] is that of libpm's reads. *)
Definition main {o : OS} (access : bytes → bool) (PM_PROC_ROOT : option bytes) (fuel : nat)
    (argv : list bytes) : mon effects Z :=
  match argv with
  | _ :: cmd :: args =>
    if strcmp_eq cmd (lit "--config") then
      match args with
      | path :: flag :: _ => if strcmp_eq flag (lit "--apply") then apply_from_xml path else mret 1
      | _ => mret 1
      end
    else if strcmp_eq cmd (lit "show") && ((length args =? 1)%nat || (length args =? 3)%nat) then
      let i := default [] (args !! 0%nat) in
      let via_libpm :=
        match args with
        | [_; via; mode] => strcmp_eq via (lit "--via") && strcmp_eq mode (lit "libpm")
        | _ => false
        end in
      if negb via_libpm then
        x ← on_net (vts_show_room (vts_env w) (net w 0) (now w 0) i (array w LOC_MAX_OUT));
        if negb (x.1 =? 0) then mret 2 else puts (cstr x.2);; mret 0
      else
        x ← on_io (mem_show_snapshot access PM_PROC_ROOT fuel (inferred_type i) (array w LOC_MAX_OUT));
        if negb (x.1 =? 0) then mret 2 else puts (cstr x.2);; mret 0
    else
      match args with
      | [i; t; st] =>
        if strcmp_eq cmd (lit "create") || strcmp_eq cmd (lit "edit") then
          rc ← apply_one 0 (room_of_args i t st);
          if negb (rc =? 0) then mret 2 else puts (lit "OK");; mret 0
        else mret 1
      | [i] =>
        if strcmp_eq cmd (lit "delete") then
          x ← on_net (vts_delete_room (vts_env w) (net w 0) (now w 0) (array w 512) i);
          if negb (x.1 =? 0) then mret 2 else puts (lit "OK");; mret 0
        else mret 1
      | _ => mret 1
      end
  | _ => mret 1
  end.
End main.

(** ** Lemmas *)

(** The outcome of applying a room as command number [k]. *)
Definition applied (w : world) (k : nat) (r : room_t) : Z :=
  match vts_apply_room (vts_env w) (net w k) (now w k) (array w 512) r with
  | Done (rc, _, _) => rc
  | _ => -1
  end.

(** Some command met the reply that announces 2^32-1 bytes. *)
Definition overflowed (w : world) : Prop := ∃ k, huge_reply (net w k).

(** What the network did between two states. *)
Definition balanced (s s' : effects) : Prop :=
  out s' = out s ∧ io s' = io s ∧ ∃ evs, trace s' = trace s ++ evs ∧ opened evs = closed evs.

Lemma balanced_refl st s : balanced s (mk_effects st (trace s) (out s) (io s)).
Proof. split; [done|]. split; [done|]. exists []. by rewrite app_nil_r. Qed.

Lemma balanced_trans s1 s2 s3 : balanced s1 s2 → balanced s2 s3 → balanced s1 s3.
Proof.
  intros (H1 & H2 & e1 & H3 & H4) (H5 & H6 & e2 & H7 & H8). split; [congruence|].
  split; [congruence|]. exists (e1 ++ e2). unfold opened, closed in *.
  rewrite H7, H3, !omap_app, H4, H8. split; [by rewrite app_assoc|done].
Qed.

Lemma apply_one_spec w k r s :
  wpu (apply_one w k r) s (λ rc s', rc = applied w k r ∧ store_of s' = store_of s ∧ balanced s s')
    (overflowed w).
Proof.
  unfold apply_one, applied, on_net, wpu, mbind, mon_bind, vts_apply_room.
  pose proof (vts_cmd_cases (vts_env w) (net w k) (apply_request (now w k) r) (array w 512)) as H.
  destruct (vts_cmd_with_retry _ _ _ _) as [[[rc resp] evs]| |]; [|by exists k|done].
  destruct H as (_ & Hb & _). cbn. split; [done|]. split; [done|]. split; [done|].
  split; [done|]. by exists evs.
Qed.

Lemma deinit_spec s ns :
  holds (store_of s) ns →
  wp (on_store room_store_deinit) s (λ _ s', store_of s' = mk_store ∅ None ∧ balanced s s').
Proof.
  intros H. unfold on_store, wp. rewrite (room_store_deinit_spec _ _ H).
  split; [done|apply balanced_refl].
Qed.

Lemma apply_rooms_spec w rl : ∀ k s ns,
  holds (store_of s) ns →
  wpu (apply_rooms w k rl) s (λ z s', store_of s' = mk_store ∅ None ∧ balanced s s' ∧
    (z = 0 ∧ (∀ j r, rl !! j = Some r → applied w (k + j) r = 0) ∨
     z = 2 ∧ ∃ j r, rl !! j = Some r ∧ applied w (k + j) r ≠ 0 ∧
       ∀ i r', (i < j)%nat → rl !! i = Some r' → applied w (k + i) r' = 0)) (overflowed w).
Proof.
  induction rl as [|r rl IH]; intros k s ns Hs; cbn [apply_rooms].
  - apply wpu_wp. wp_step. eapply wp_mono; [by eapply deinit_spec|]. intros _ s' [H1 H2]. apply wp_ret.
    split; [done|]. split; [done|]. left. split; [done|]. by intros [].
  - destruct (room_store_put_spec r (store_of s) ns Hs) as (st & ns' & Ep & Hst).
    apply wpu_bind. unfold on_store at 1, wpu at 1. rewrite Ep.
    set (s1 := mk_effects st (trace s) (out s) (io s)).
    assert (balanced s s1) as B1 by apply balanced_refl.
    apply wpu_bind. eapply wpu_mono; [apply apply_one_spec| |done]. cbv beta. intros rc s2 (-> & H2 & B2).
    destruct (Z.eqb_spec (applied w k r) 0) as [E|E]; cbn [negb].
    + eapply wpu_mono; [apply (IH (S k) s2 ns'); by rewrite H2| |done]. cbv beta.
      intros z s3 (H3 & B3 & Hz). split; [done|].
      split; [exact (balanced_trans _ _ _ B1 (balanced_trans _ _ _ B2 B3))|].
      destruct Hz as [[-> Hz]|[-> (j & r' & Hj & Hne & Hz)]]; [left|right]; (split; [done|]).
      * intros [|j] r' Hj; [injection Hj as <-; by rewrite Nat.add_0_r|].
        rewrite Nat.add_succ_r. by apply Hz.
      * exists (S j), r'. rewrite Nat.add_succ_r. split; [done|]. split; [done|].
        intros [|i] r2 Hi Hl; [injection Hl as <-; by rewrite Nat.add_0_r|].
        rewrite Nat.add_succ_r. apply Hz; [lia|done].
    + apply wpu_wp. wp_step. eapply wp_mono; [eapply deinit_spec; by rewrite H2|]. intros _ s3 [H3 B3].
      apply wp_ret. split; [done|]. split; [exact (balanced_trans _ _ _ B1 (balanced_trans _ _ _ B2 B3))|]. right.
      split; [done|]. exists 0%nat, r. rewrite Nat.add_0_r. split; [done|]. split; [done|]. intros; lia.
Qed.

(** ** Properties *)

(** C32: applying a file. Whatever the file holds and whatever the network does,
    [locgend --config file --apply] ends with every node of the store and every socket
    released: with 1 when the file gives no rooms to apply, with 0 when every room of the file
    was applied, in order, and with 2 after the first room that could not be. The one exception
    is a reply that announces 2^32-1 bytes, the only one with which a run can be undefined: it
    overflows the adapter's buffer. *)
Theorem apply_from_xml_outcome (w : world) (path : bytes) (s : effects) :
  store_of s = mk_store ∅ None →
  match apply_from_xml w path s with
  | Done (z, s') => store_of s' = mk_store ∅ None ∧ balanced s s' ∧
      match loc_load_rooms_xml (fresh_byte w) (files w path) with
      | Done (0, Some rl) =>
        z = 0 ∧ (∀ k r, rl !! k = Some r → applied w k r = 0) ∨
        z = 2 ∧ ∃ k r, rl !! k = Some r ∧ applied w k r ≠ 0 ∧
          ∀ j r', (j < k)%nat → rl !! j = Some r' → applied w j r' = 0
      | _ => z = 1
      end
  | Undef => ∃ k i, (i < 5)%nat ∧ frame_len (net w k i) = 2 ^ 32 - 1
  | NoFuel => False
  end.
Proof.
  intros Hs. unfold apply_from_xml.
  destruct (load_total (fresh_byte w) (files w path)) as ([z0 o] & -> & Hr).
  destruct o as [rl|].
  - destruct Hr as [-> _].
    assert (wpu (on_store room_store_init;; apply_rooms w 0 rl) s (λ z s',
      store_of s' = mk_store ∅ None ∧ balanced s s' ∧
      (z = 0 ∧ (∀ j r, rl !! j = Some r → applied w j r = 0) ∨
       z = 2 ∧ ∃ j r, rl !! j = Some r ∧ applied w j r ≠ 0 ∧
         ∀ i r', (i < j)%nat → rl !! i = Some r' → applied w i r' = 0)) (overflowed w)) as H; [|exact H].
    apply wpu_bind. unfold on_store at 1, wpu at 1, room_store_init, set_head, modify, mbind, mon_bind.
    cbn [mret mon_ret].
    eapply wpu_mono; [apply (apply_rooms_spec w rl 0 _ []); cbn; rewrite Hs; apply holds_nil| |done].
    intros z s' (H1 & H2 & H3). split; [done|]. split; [|done].
    eapply balanced_trans; [|exact H2]. apply balanced_refl.
  - assert (balanced s s) as Hb by (destruct s; apply balanced_refl). by destruct z0.
Qed.

Definition sample_world : world :=
  mk_world (λ _, Some (concat (render <$> sample_doc))) (λ _, "?"%char) (VtsAdapter.mk_env None None)
    (λ _ _, one_answer (lit "ok")) (λ _, 1234) (λ _, "?"%char).

Lemma apply_from_xml_outcome_witness :
  let s := mk_effects (mk_store ∅ None) [] [] io_start in
  ∃ z s', apply_from_xml sample_world (lit "rooms.xml") s = Done (z, s') ∧
    store_of s' = mk_store ∅ None ∧ z = 0 ∧ length (trace s') = 8%nat.
Proof.
  intros s. pose proof (apply_from_xml_outcome sample_world (lit "rooms.xml") s eq_refl) as H.
  destruct (apply_from_xml sample_world (lit "rooms.xml") s) as [[z s']| |] eqn:E; vm_compute in E; [|done..].
  destruct H as (Hst & _). exists z, s'. split; [done|]. split; [exact Hst|].
  injection E as <- <-. split; reflexivity.
Defined.
